(* ===== verification/_CoqProject ===== *)
-Q . S2P
Prelude.v
Integers.v
Externals.v
Types.v
MVHashMap.v
MVHashMapSpec.v
Scheduler.v
SchedulerSpec.v
ParallelExecutor.v
ParallelExecutorSpec.v
Ledger.v
MVSerial.v
LedgerSpec.v
Workers.v
WorkersInv.v
WorkersCount.v
WorkersSafety.v
SoloWorker.v
Scenarios.v
SingleWorker.v
Ordered.v
Disjoint.v
Termination.v
RunEnds.v
Workload.v
WorkloadSpec.v
Executor.v
Sequential.v
Store.v
StoreSpec.v
StoreExecutor.v
Mdbx.v
MdbxSpec.v
MdbxBatched.v
Fdb.v
FdbSpec.v
BlockStm.v
EndToEnd.v
SequentialSpec.v
FdbLive.v
FdbSimple.v
Analyze.v
F64.v
MdbxCreate.v
Runner.v
Simulate.v
RunnerSpec.v
Tests.v
