(* ===== verification/Prelude.v ===== *)
(** * Verification of db-test

    db-test compares ways of executing transfers of ether: in memory with revm,
    on MDBX one by one or block by block, on FoundationDB with threads, and with
    Block-STM, an optimistic parallel executor in its own crate.  This library
    models the program's own logic and proves what it guarantees and, with
    concrete executions, what it does not.

    ** The program and its model

    Block-STM ([src/block-stm-executor/src/]):
    - [types.rs]: [Types].
    - [mvhashmap.rs]: [MVHashMap], the multi-version map, one Definition per
      method; [MVHashMapSpec] says what reads see and which readers a write
      invalidates.
    - [scheduler.rs]: [Scheduler], the queue, the statuses and the commit
      position, each method run without interference; [SchedulerSpec] has their
      behaviour on every branch.
    - [executor.rs]: [ParallelExecutor] has the transaction and
      [execute_transaction]; [ParallelExecutorSpec] its behaviour.
    - [executor.rs] and [scheduler.rs] together: [Workers] is [execute_block] as a
      transition system.  A worker has a program point; a step is one access to
      shared memory, and a thread whose next lock is held by another cannot
      step.  [WorkersInv] has the invariant, [WorkersCount] the counting argument,
      [WorkersSafety] the theorems for every schedule.  [SoloWorker] proves that
      the steps of an undisturbed worker are one turn of [worker_loop] on the
      methods of [Scheduler] and [MVHashMap] (so the two models of each method
      agree), and [SingleWorker] that a block run by one worker is [Ledger].
      [MVSerial] says when the contents of the map are the ledger's, and [Ordered]
      proves it for every schedule of any number of workers in which nobody
      writes an account that a later transaction has read; [Disjoint] is the case
      of blocks in which no two transactions name the same account.
      [Termination] bounds the executions and the steps of every schedule, and
      [RunEnds] says how a run can end.
    - [Scenarios] runs written-out schedules: a deadlock, a lost commit, three ways
      to commit a stale state, a committed transaction that is executed again.

    The benchmark crate ([src/src/]):
    - [lib.rs]: [Workload] (accounts, signed transactions, generation) and
      [WorkloadSpec].
    - [executor/mod.rs]: [Executor], whose class [Executor] is the trait; its
      [CountedExecutor] is a promise the sequential and Block-STM executors keep.
    - [executor/sequential.rs]: [Sequential]; [SequentialSpec] has revm's rules for
      a plain transfer, and what the executor computes with them.
    - [executor/mdbx.rs]: [Mdbx], a state and error monad over the environment,
      and [MdbxSpec].  [executor/mdbx_batched.rs]: [MdbxBatched].  [MdbxCreate]
      opens a database, creates its tables and makes both executors.
    - [executor/fdb.rs]: [Fdb], the threads as a transition system whose step is
      one attempt of a transaction; [FdbSpec] and [FdbLive].
    - [executor/block_stm.rs]: [BlockStm].
    - [main.rs]: [Runner], with what it prints, in a monad of printed lines, the
      world and panics; [F64] has its floating-point rates and their text.
      [RunnerSpec] plugs all executors in; [Simulate] computes one execution of
      the concurrent ones, for examples.
    - [examples/analyze_workload.rs]: [Analyze].  [examples/fdb_simple_test.rs]:
      [FdbSimple], a program over the interface of [Fdb] that prints lines and may
      stop early.
    - [Tests]: the unit tests of both crates.

    ** Specifications and interfaces

    [Ledger] is the specification of Block-STM: the transactions of a block
    applied in order over initial accounts.  [Store] is that of the database
    executors: transfers over a store of accounts.  [StoreSpec] has the closed
    form of a store in which everything was applied.  [StoreExecutor] is the
    class the database executors discharge in [EndToEnd], for transfers between
    different accounts whose nonces can be incremented; the theorems about
    generated workloads are proved once against it.  [EndToEnd] also relates the
    two specifications, for one Block-STM worker.

    ** Groups of theorems

    - all schedules of Block-STM: exact result counts, no panic, exclusion of
      committers, monotone commit position; at most [2^n - 1] executions and
      boundedly many steps that are not idle polling; and that every run can be
      brought to one of three ends, of which only one is intended: the others are
      a lock-order inversion and a lost commit;
    - Block-STM against [Ledger]: one worker, or a schedule whose writes come
      before later reads; a map that re-execution validates is always the
      ledger's, but the code does not validate, and the schedules of [Scenarios]
      are counterexamples;
    - the multi-version map and the scheduler, method by method;
    - refinement of [Store] by both MDBX executors and by FoundationDB (as some
      interleaving of the threads' slices), atomicity of a block, what a database
      error leaves behind;
    - liveness of the FoundationDB threads: a generated workload can always be
      finished as long as no transfer was applied by a commit reported as unknown;
      such a commit, or a rejected signature, blocks them for ever;
    - generation: what it returns, that it returns, and that every executor
      applies all of it;
    - the in-memory executor as a ledger that charges gas, and by how much its
      balances differ from those of the other executors;
    - the runner: what it runs and prints, with every executor plugged in, and the
      bounds in its summary;
    - the unit tests: all pass whenever the calls they make return, except
      [test_abort_and_reexecute], which fails.

    ** Modelling decisions

    - [u64] and [usize] values on which arithmetic may overflow are [Z] with the
      wrap-around of a release build written out ([Integers]).  Indices,
      incarnations and counters that are bounded by the length of the block or the
      number of executions are [nat].
    - A panic is a value: [outcome] in sequential code, the point [Panicked] in
      [Workers], an attempt in [Fdb].
    - Loops without a structural bound have fuel: the commit loop runs at most
      once for each transaction (the fuel is the block's length, and
      [SchedulerSpec] and [SoloWorker] show it is enough); the redraw loop of
      [generate] takes any fuel, and [generate_total] shows that some fuel is
      enough and more does not change the result.  Retry loops and schedules are
      relations, without a bound.
    - Memory is sequentially consistent: shared data is under locks, DashMap
      guards or [Acquire]/[Release] atomics; the [Relaxed] counters decide nothing.
    - [f64] is the Standard Library's [SpecFloat] at binary64; durations are whole
      nanoseconds, and formatting rounds half to even.
    - Libraries ([Externals]): alloy-primitives, DashMap, k256, rand, revm's
      database, and reth-db ([Mdbx]) and FoundationDB ([Fdb]) are classes of
      operations; their laws are separate classes that state documented
      behaviour, and each has an executable instance on which the examples are
      evaluated.  revm's machine has laws for plain transfers only
      ([SequentialSpec]).  Where a theorem needs it, the hash
      is injective on addresses.

    ** Not modelled

    The parsing of the command line and its help (a derive of clap); booting the
    FoundationDB client and the pauses of [main.rs] and of the retry loops;
    [Debug], [Display] and [Clone] implementations; module roots; [benches/] and the
    example [mdbx_benchmark.rs], which only drive the modelled code and build a
    configuration with a field the library does not have. *)

From stdpp Require Import base option list sorting gmap.
From Stdlib Require Import ZArith Lia.

(** ** Notations and automation *)

Declare Scope dbtest_scope.
Delimit Scope dbtest_scope with dbt.

Create HintDb dbtest discriminated.
Create Rewrite HintDb dbtest.

(** Case analysis on every [match] or [if] of the goal and of the hypotheses. *)
Ltac case_all :=
  repeat (case_match || case_decide); simplify_eq/=.

(** Split conjunctions and existentials of the hypotheses. *)
Ltac destruct_all :=
  repeat match goal with
  | H : _ ∧ _ |- _ => destruct H
  | H : ∃ _, _ |- _ => destruct H
  end.

(** Closed equations: booleans in the virtual machine, the rest by conversion,
    which compares the types before it evaluates anything. *)
Ltac by_compute :=
  lazymatch goal with
  | |- @eq bool _ ?rhs => vm_cast_no_check (eq_refl rhs)
  | |- _ => reflexivity
  end.

Lemma is_none_true {T} (o : option T) :
  match o with None => true | Some _ => false end = true → o = None.
Proof. by destruct o. Qed.

(** ** Lists *)

(** [Vec::dedup]: drops an element equal to the one kept before it. *)
Fixpoint vec_dedup (l : list nat) : list nat :=
  match l with
  | [] => []
  | x :: l' =>
      match l' with
      | [] => [x]
      | y :: _ => if decide (x = y) then vec_dedup l' else x :: vec_dedup l'
      end
  end.

(** [sort_unstable] on a [Vec<usize>]. *)
Definition sort_unstable (l : list nat) : list nat := merge_sort (≤) l.

Lemma vec_dedup_cons x y l :
  vec_dedup (x :: y :: l) =
  if decide (x = y) then vec_dedup (y :: l) else x :: vec_dedup (y :: l).
Proof. done. Qed.

Lemma elem_of_vec_dedup l x : x ∈ vec_dedup l ↔ x ∈ l.
Proof.
  induction l as [|y [|z l] IH]; [done|done|].
  rewrite vec_dedup_cons. case_decide; subst.
  - rewrite IH, !elem_of_cons. tauto.
  - rewrite elem_of_cons, IH, !elem_of_cons. tauto.
Qed.

Lemma elem_of_sort_unstable l x : x ∈ sort_unstable l ↔ x ∈ l.
Proof. unfold sort_unstable. by rewrite merge_sort_Permutation. Qed.

Lemma vec_dedup_sorted l :
  StronglySorted (≤) l → StronglySorted (<) (vec_dedup l).
Proof.
  induction l as [|x [|y l] IH]; intros Hs; [constructor|repeat constructor|].
  apply StronglySorted_cons in Hs as [Hx Hs]. specialize (IH Hs).
  rewrite vec_dedup_cons. case_decide; [done|].
  apply StronglySorted_cons; split; [|done].
  rewrite Forall_forall in Hx |- *. intros z Hz. rewrite elem_of_vec_dedup in Hz.
  assert (x ≤ y) by (apply Hx; left).
  apply StronglySorted_cons in Hs as [Hy _]. rewrite Forall_forall in Hy.
  apply elem_of_cons in Hz as [->|Hz]; [lia|]. specialize (Hy _ Hz). lia.
Qed.

Lemma dedup_sort_sorted l :
  StronglySorted (<) (vec_dedup (sort_unstable l)).
Proof.
  apply vec_dedup_sorted, StronglySorted_merge_sort; repeat intro; lia.
Qed.

Lemma StronglySorted_lt_NoDup (l : list nat) : StronglySorted (<) l → NoDup l.
Proof.
  induction 1 as [|x l Hl IH Hx]; constructor; [|done].
  intros Hin. rewrite Forall_forall in Hx. specialize (Hx _ Hin). lia.
Qed.

Lemma elem_of_dedup_sort l x : x ∈ vec_dedup (sort_unstable l) ↔ x ∈ l.
Proof. by rewrite elem_of_vec_dedup, elem_of_sort_unstable. Qed.

#[export] Hint Rewrite elem_of_dedup_sort : dbtest.

Lemma list_lookup_insert_Some_alt {T} (l : list T) i j (x y : T) :
  <[i := x]> l !! j = Some y → (j = i ∧ Some y = Some x) ∨ (j ≠ i ∧ l !! j = Some y).
Proof. intros [(-> & -> & _)|[Hne Hj]]%list_lookup_insert_Some; auto. Qed.

(** Replacing one summand. *)
Lemma sum_list_insert (l : list nat) i (x y : nat) :
  l !! i = Some y → sum_list (<[i := x]> l) + y = sum_list l + x.
Proof.
  revert i. induction l as [|z l IH]; intros [|i] Hi; simplify_eq/=; [lia|].
  specialize (IH i Hi). lia.
Qed.

(** ** [BTreeMap<usize, V>]

    The map is a [gmap nat V]; iteration is in ascending key order, and
    [range] selects a part of that iteration. *)

Section BTree.
Context {V : Type}.
Implicit Types (m : gmap nat V) (k i : nat) (v : V).

Definition key_le (p q : nat * V) : Prop := p.1 ≤ q.1.

#[global] Instance key_le_dec : RelDecision key_le.
Proof. intros p q. unfold key_le. apply _. Defined.
#[global] Instance key_le_trans : Transitive key_le.
Proof. intros ???. unfold key_le. lia. Qed.
#[global] Instance key_le_total : Total key_le.
Proof. intros ??. unfold key_le. lia. Qed.

(** [iter()] *)
Definition btree_iter m : list (nat * V) := merge_sort key_le (map_to_list m).

(** [range(..k).next_back()] *)
Definition range_to_next_back m k : option (nat * V) :=
  last (filter (λ p, p.1 < k) (btree_iter m)).

(** [range(k..).next()] *)
Definition range_from_next m k : option (nat * V) :=
  head (filter (λ p, k ≤ p.1) (btree_iter m)).

(** [iter().next_back()] *)
Definition iter_next_back m : option (nat * V) := last (btree_iter m).

Lemma elem_of_btree_iter m i v : (i, v) ∈ btree_iter m ↔ m !! i = Some v.
Proof. unfold btree_iter. by rewrite merge_sort_Permutation, elem_of_map_to_list. Qed.

Lemma btree_iter_sorted m : StronglySorted key_le (btree_iter m).
Proof. apply StronglySorted_merge_sort; apply _. Qed.

Lemma last_sorted_max (l : list (nat * V)) p :
  StronglySorted key_le l → last l = Some p → ∀ q, q ∈ l → q.1 ≤ p.1.
Proof.
  intros Hs Hl q Hq. apply last_Some in Hl as [l' ->].
  apply elem_of_app in Hq as [Hq|Hq%list_elem_of_singleton]; [|by subst].
  apply (StronglySorted_app_1_elem_of key_le l' [p]); [done..|left].
Qed.

Lemma StronglySorted_filter (P : nat * V → Prop) `{!∀ x, Decision (P x)} l :
  StronglySorted key_le l → StronglySorted key_le (filter P l).
Proof.
  induction 1 as [|x l Hl IH Hx]; [constructor|].
  rewrite filter_cons. case_decide; [|done].
  apply StronglySorted_cons; split; [|done].
  rewrite Forall_forall in Hx |- *.
  intros y Hy%list_elem_of_filter. naive_solver.
Qed.

(** The last entry of a filtered iteration is the greatest key that
    passes the filter. *)
Lemma last_filter_iter_Some (P : nat → Prop) `{!∀ x, Decision (P x)} m i v :
  last (filter (λ p, P p.1) (btree_iter m)) = Some (i, v) ↔
  m !! i = Some v ∧ P i ∧ ∀ j w, m !! j = Some w → P j → j ≤ i.
Proof.
  split.
  - intros Hl.
    assert ((i, v) ∈ filter (λ p, P p.1) (btree_iter m)) as Hin.
    { apply last_Some in Hl as [l' ->]. set_solver. }
    apply list_elem_of_filter in Hin as [HP Hin].
    apply elem_of_btree_iter in Hin. split_and!; [done..|].
    intros j w Hj HPj.
    apply (last_sorted_max (filter (λ p, P p.1) (btree_iter m)) (i, v)) with (q := (j, w)); [|done|].
    + apply StronglySorted_filter, btree_iter_sorted.
    + apply list_elem_of_filter. split; [done|by apply elem_of_btree_iter].
  - intros (Hi & HP & Hmax).
    destruct (last _) as [[j w]|] eqn:Hl.
    + pose proof Hl as Hl2. apply last_Some in Hl2 as [l' Heq].
      assert ((j, w) ∈ filter (λ p, P p.1) (btree_iter m)) as Hin by (rewrite Heq; set_solver).
      apply list_elem_of_filter in Hin as [HPj Hj]. apply elem_of_btree_iter in Hj.
      assert (j ≤ i) by eauto.
      assert (i ≤ j); [|assert (i = j) as -> by lia; congruence].
      apply (last_sorted_max _ _ (StronglySorted_filter _ _ (btree_iter_sorted m)) Hl (i, v)).
      apply list_elem_of_filter. split; [done|by apply elem_of_btree_iter].
    + apply last_None in Hl.
      assert ((i, v) ∈ filter (λ p, P p.1) (btree_iter m)) as Hin.
      { apply list_elem_of_filter. split; [done|by apply elem_of_btree_iter]. }
      rewrite Hl in Hin. set_solver.
Qed.

Lemma last_filter_iter_None (P : nat → Prop) `{!∀ x, Decision (P x)} m :
  last (filter (λ p, P p.1) (btree_iter m)) = None ↔
  ∀ j, P j → m !! j = None.
Proof.
  rewrite last_None. split.
  - intros Hn j HP. destruct (m !! j) as [w|] eqn:Hj; [|done].
    assert ((j, w) ∈ filter (λ p, P p.1) (btree_iter m)) as Hin.
    { apply list_elem_of_filter. split; [done|by apply elem_of_btree_iter]. }
    rewrite Hn in Hin. set_solver.
  - intros Hn. apply elem_of_nil_inv. intros [j w] [HP Hj]%list_elem_of_filter.
    apply elem_of_btree_iter in Hj. rewrite (Hn j HP) in Hj. done.
Qed.

(** [range(..k).next_back()] is the entry with the greatest key below [k]. *)
Lemma range_to_next_back_Some m k i v :
  range_to_next_back m k = Some (i, v) ↔
  m !! i = Some v ∧ i < k ∧ ∀ j, i < j < k → m !! j = None.
Proof.
  unfold range_to_next_back.
  etransitivity; [exact (last_filter_iter_Some (λ j, j < k) m i v)|].
  split; intros (Hi & Hk & Hmax);
    (split_and!; [done..|]).
  - intros j Hj. destruct (m !! j) eqn:E; [|done].
    specialize (Hmax _ _ E). lia.
  - intros j w Hj Hjk. destruct (decide (i < j)); [|lia].
    by rewrite Hmax in Hj by lia.
Qed.

Lemma range_to_next_back_None m k :
  range_to_next_back m k = None ↔ ∀ j, j < k → m !! j = None.
Proof. exact (last_filter_iter_None (λ j, j < k) m). Qed.

Lemma iter_next_back_Some m i v :
  iter_next_back m = Some (i, v) ↔
  m !! i = Some v ∧ ∀ j, i < j → m !! j = None.
Proof.
  unfold iter_next_back.
  replace (btree_iter m) with (filter (λ p : nat * V, True) (btree_iter m)).
  2:{ generalize (btree_iter m) as l. induction l as [|p l IH]; [done|].
      rewrite filter_cons_True by done. by rewrite IH. }
  etransitivity; [exact (last_filter_iter_Some (λ _, True) m i v)|]. split.
  - intros (Hi & _ & Hmax). split; [done|]. intros j Hj.
    destruct (m !! j) eqn:E; [|done]. specialize (Hmax _ _ E I). lia.
  - intros (Hi & Hmax). split_and!; [done..|]. intros j w Hj _.
    destruct (decide (i < j)); [|lia]. by rewrite Hmax in Hj.
Qed.

Lemma iter_next_back_None m : iter_next_back m = None ↔ m = ∅.
Proof.
  unfold iter_next_back, btree_iter. rewrite last_None. split.
  - intros H. apply map_eq. intros i. rewrite lookup_empty.
    destruct (m !! i) as [v|] eqn:E; [|done].
    apply elem_of_map_to_list in E.
    rewrite <- (merge_sort_Permutation key_le (map_to_list m)), H in E. set_solver.
  - intros ->. by rewrite map_to_list_empty.
Qed.
End BTree.

(** ** Outcomes of code that may panic or not return

    [Timeout] is the model's own: the fuel of a loop ran out. *)

Inductive outcome (T : Type) : Type :=
  | Return (x : T)
  | Panic
  | Timeout.
Arguments Return {T} _.
Arguments Panic {T}.
Arguments Timeout {T}.

#[export] Instance outcome_ret : MRet outcome := λ T x, Return x.
#[export] Instance outcome_bind : MBind outcome := λ T U f o,
  match o with Return x => f x | Panic => Panic | Timeout => Timeout end.

(** [expect], and indexing: [None] panics. *)
Definition expect {T} (o : option T) : outcome T :=
  match o with Some x => Return x | None => Panic end.

Lemma outcome_bind_Return {T U} (o : outcome T) (f : T → outcome U) y :
  o ≫= f = Return y → ∃ x, o = Return x ∧ f x = Return y.
Proof. destruct o; cbn; [eauto|done..]. Qed.

(** A [for] loop that collects: [iter.map(f).collect()]. *)
Fixpoint try_map {T U} (f : T → outcome U) (l : list T) : outcome (list U) :=
  match l with
  | [] => Return []
  | x :: l => y ← f x; ys ← try_map f l; Return (y :: ys)
  end.

Lemma try_map_Return {T U} (f : T → outcome U) l ys :
  try_map f l = Return ys ↔ Forall2 (λ x y, f x = Return y) l ys.
Proof.
  revert ys. induction l as [|x l IH]; intros ys; cbn.
  - split; [intros [= <-]; constructor|by inversion 1].
  - split.
    + intros (y & Hy & (zs & Hzs & [= <-])%outcome_bind_Return)%outcome_bind_Return.
      constructor; [done|by apply IH].
    + inversion 1 as [|? y ? zs Hy Hzs]; subst. rewrite Hy; cbn.
      by rewrite (proj2 (IH zs) Hzs).
Qed.

(** ** [slice::chunks] *)

Fixpoint chunks_aux {T} (fuel n : nat) (l : list T) : list (list T) :=
  match fuel, l with
  | S fuel, _ :: _ => take n l :: chunks_aux fuel n (drop n l)
  | _, _ => []
  end.

(** [chunks(n)] panics when [n] is zero; [length l] rounds are enough otherwise. *)
Definition chunks {T} (n : nat) (l : list T) : outcome (list (list T)) :=
  if n =? 0 then Panic else Return (chunks_aux (length l) n l).

Lemma chunks_aux_concat {T} fuel n (l : list T) :
  0 < n → length l ≤ fuel → concat (chunks_aux fuel n l) = l.
Proof.
  intros Hn. revert l. induction fuel as [|fuel IH]; intros [|x l] Hl; try done; [cbn in Hl; lia|].
  cbn [chunks_aux concat]. rewrite IH; [apply take_drop|].
  rewrite length_drop. cbn in *. lia.
Qed.

(** The [i]-th chunk is the [i]-th slice of [n] elements. *)
Lemma chunks_aux_lookup {T} fuel n (l : list T) i :
  0 < n → length l ≤ fuel →
  chunks_aux fuel n l !! i =
  if decide (i * n < length l) then Some (take n (drop (i * n) l)) else None.
Proof.
  intros Hn. revert l i. induction fuel as [|fuel IH]; intros [|x l] i Hl.
  1-3: rewrite decide_False by (cbn in *; lia); done.
  cbn [chunks_aux]. destruct i as [|i].
  - rewrite decide_True by (cbn; lia). done.
  - cbn [lookup list_lookup]. rewrite IH by (rewrite length_drop; cbn in *; lia).
    rewrite length_drop, drop_drop. replace (n + i * n) with (S i * n) by lia.
    repeat case_decide; try done; cbn in *; lia.
Qed.

(** The number of chunks is the quotient rounded up. *)
Lemma length_chunks_aux {T} fuel n (l : list T) :
  0 < n → length l ≤ fuel → length (chunks_aux fuel n l) = (length l + n - 1) / n.
Proof.
  intros Hn Hl. symmetry.
  assert (∀ i, i < length (chunks_aux fuel n l) ↔ i * n < length l) as Hiff.
  { intros i. rewrite <- lookup_lt_is_Some, chunks_aux_lookup by done.
    case_decide; [split; eauto|]. split; [by intros [? ?]|done]. }
  destruct (length (chunks_aux fuel n l)) as [|k] eqn:E.
  - specialize (Hiff 0). apply Nat.div_small. lia.
  - symmetry. apply Nat.div_unique with (r := length l + n - 1 - n * S k); [|].
    + pose proof (proj1 (Hiff k)). specialize (Hiff (S k)). nia.
    + pose proof (proj1 (Hiff k)). nia.
Qed.

(** ** Sums of integers over a list *)

Section Sums.
Context {T : Type} `{!EqDecision T}.
Implicit Types (f g : T → Z) (l : list T).
Local Open Scope Z_scope.

Fixpoint sum_Z f l : Z :=
  match l with [] => 0 | x :: l' => f x + sum_Z f l' end.

Lemma sum_Z_ext f g l : (∀ x, x ∈ l → f x = g x) → sum_Z f l = sum_Z g l.
Proof.
  induction l as [|x l IH]; intros H; [done|]. cbn.
  rewrite (H x) by left. rewrite IH; [done|]. intros y Hy. apply H. by right.
Qed.

(** Changing the summand of one element. *)
Lemma sum_Z_update f g l x :
  NoDup l → x ∈ l → (∀ y, y ≠ x → g y = f y) → sum_Z g l = sum_Z f l + (g x - f x).
Proof.
  induction 1 as [|y l Hy _ IH]; intros Hx Hg; [set_solver|]. cbn.
  destruct (decide (x = y)) as [<-|Hne].
  - rewrite (sum_Z_ext g f l); [lia|]. intros z Hz. apply Hg. by intros ->.
  - rewrite (Hg y) by done. rewrite IH; [lia|set_solver|done].
Qed.

Lemma sum_Z_bound f l x y :
  NoDup l → (∀ z, 0 ≤ f z) → x ∈ l → y ∈ l → x ≠ y → f x + f y ≤ sum_Z f l.
Proof.
  intros Hnd Hf Hx Hy Hne.
  set (g z := if decide (z = x) then 0 else f z).
  set (h z := if decide (z = y) then 0 else g z).
  assert (sum_Z g l = sum_Z f l + (g x - f x)) as Hg.
  { apply sum_Z_update; [done..|]. intros z Hz. unfold g. by rewrite decide_False. }
  assert (sum_Z h l = sum_Z g l + (h y - g y)) as Hh.
  { apply sum_Z_update; [done..|]. intros z Hz. unfold h. by rewrite decide_False. }
  assert (0 ≤ sum_Z h l).
  { clear -Hf. induction l as [|z l IH]; [done|]. cbn.
    assert (0 ≤ h z) by (unfold h, g; repeat case_decide; auto; lia). lia. }
  unfold h, g in *. rewrite !decide_True in Hg by done. rewrite decide_True in Hh by done.
  rewrite decide_False in Hh by done. lia.
Qed.

Lemma sum_Z_perm f l l' : l ≡ₚ l' → sum_Z f l = sum_Z f l'.
Proof. induction 1; cbn; lia. Qed.
End Sums.
