(* ===== verification/Integers.v ===== *)
(** * Machine integers and bytes

    Rust's fixed-width integers as [Z] with their wrap-around written out, and
    the big-endian byte encodings ([to_be_bytes], [from_be_bytes]) that the
    transaction hash and the FoundationDB values are built from.  Arithmetic
    follows the release profile, which the repository's documentation uses for
    every run: an unsigned overflow wraps. *)

From stdpp Require Import base list countable.
From Stdlib Require Import ZArith Lia Strings.Byte.
From S2P Require Import Prelude.

Local Open Scope Z_scope.

(** ** Wrap-around *)

Definition u64_modulus : Z := 2 ^ 64.
Definition u256_modulus : Z := 2 ^ 256.

(** [a + b] and [a - b] on [u64] and on the 64-bit [usize]. *)
Definition u64_add (a b : Z) : Z := (a + b) mod u64_modulus.
Definition usize_add (a b : Z) : Z := (a + b) mod u64_modulus.
Definition usize_sub (a b : Z) : Z := (a - b) mod u64_modulus.

Definition in_u64 (a : Z) : Prop := 0 ≤ a < u64_modulus.

Lemma u64_add_small a b : 0 ≤ a + b < u64_modulus → u64_add a b = a + b.
Proof. apply Z.mod_small. Qed.

Lemma u64_add_range a b : in_u64 (u64_add a b).
Proof. by apply Z.mod_pos_bound. Qed.

Lemma usize_sub_small a b : 0 ≤ b ≤ a → a < u64_modulus → usize_sub a b = a - b.
Proof. intros. apply Z.mod_small. lia. Qed.

#[export] Hint Resolve u64_add_range : dbtest.

(** ** Bytes *)

Definition byte_to_Z (b : byte) : Z := Z.of_N (Byte.to_N b).

(** [z as u8] *)
Definition byte_of_Z (z : Z) : byte :=
  match Byte.of_N (Z.to_N (z mod 256)) with Some b => b | None => x00 end.

Lemma byte_to_Z_range b : 0 ≤ byte_to_Z b < 256.
Proof. unfold byte_to_Z. pose proof (Byte.to_N_bounded b). lia. Qed.

Lemma byte_to_of_Z z : byte_to_Z (byte_of_Z z) = z mod 256.
Proof.
  unfold byte_to_Z, byte_of_Z.
  pose proof (Z.mod_pos_bound z 256 ltac:(lia)) as Hz.
  destruct (Byte.of_N _) as [b|] eqn:Hb.
  - apply Byte.to_of_N in Hb. rewrite Hb. lia.
  - apply Byte.of_N_None_iff in Hb. lia.
Qed.

Lemma byte_to_Z_inj b b' : byte_to_Z b = byte_to_Z b' → b = b'.
Proof.
  unfold byte_to_Z. intros H.
  assert (Byte.of_N (Byte.to_N b) = Byte.of_N (Byte.to_N b')) as H' by (f_equal; lia).
  rewrite !Byte.of_to_N in H'. by simplify_eq.
Qed.

(** [to_be_bytes] of an [8n]-bit integer, most significant byte first. *)
Fixpoint be_bytes (n : nat) (z : Z) : list byte :=
  match n with
  | O => []
  | S n' => be_bytes n' (z / 256) ++ [byte_of_Z z]
  end.

(** [from_be_bytes]. *)
Definition be_combine (l : list byte) : Z :=
  foldl (λ acc b, acc * 256 + byte_to_Z b) 0 l.

Lemma length_be_bytes n z : length (be_bytes n z) = n.
Proof. revert z. induction n; intros z; [done|]. cbn. rewrite length_app, IHn. cbn. lia. Qed.

Lemma be_combine_snoc l b : be_combine (l ++ [b]) = be_combine l * 256 + byte_to_Z b.
Proof. unfold be_combine. by rewrite foldl_snoc. Qed.

(** Decoding the encoding gives the value back, modulo the width. *)
Lemma be_combine_be_bytes n z : be_combine (be_bytes n z) = z mod 256 ^ Z.of_nat n.
Proof.
  revert z. induction n as [|n IH]; intros z; [by rewrite Z.mod_1_r|].
  cbn [be_bytes]. rewrite be_combine_snoc, IH, byte_to_of_Z.
  rewrite Nat2Z.inj_succ, Z.pow_succ_r by lia.
  pose proof (Z.rem_mul_r z 256 (256 ^ Z.of_nat n)) as Hr. lia.
Qed.

Lemma be_combine_be_bytes_small n z :
  0 ≤ z < 256 ^ Z.of_nat n → be_combine (be_bytes n z) = z.
Proof. intros. rewrite be_combine_be_bytes. by apply Z.mod_small. Qed.

Lemma be_bytes_inj n z z' :
  0 ≤ z < 256 ^ Z.of_nat n → 0 ≤ z' < 256 ^ Z.of_nat n →
  be_bytes n z = be_bytes n z' → z = z'.
Proof.
  intros Hz Hz' Heq.
  by rewrite <-(be_combine_be_bytes_small n z), Heq, be_combine_be_bytes_small.
Qed.

#[export] Hint Rewrite length_be_bytes be_combine_snoc : dbtest.

(** The two widths the code encodes. *)
Definition u64_to_be_bytes (n : Z) : list byte := be_bytes 8 n.
Definition u64_from_be_bytes (l : list byte) : Z := be_combine l.

Lemma u64_be_roundtrip n : in_u64 n → u64_from_be_bytes (u64_to_be_bytes n) = n.
Proof. intros. by apply be_combine_be_bytes_small. Qed.

(** ** Bounded integers as a type

    [uint w] has exactly the values below [2 ^ w].  It instantiates the opaque
    word types of the libraries in the witnesses. *)

Record uint (w : Z) : Set := mk_uint {
  uint_val : Z;
  uint_ok : (0 <=? uint_val) && (uint_val <? 2 ^ w) = true;
}.
Arguments mk_uint {w} _ _.
Arguments uint_val {w} _.

Definition uint_of_Z_opt (w z : Z) : option (uint w) :=
  match (0 <=? z) && (z <? 2 ^ w) as b
    return ((0 <=? z) && (z <? 2 ^ w) = b → option (uint w)) with
  | true => λ H, Some (mk_uint z H)
  | false => λ _, None
  end eq_refl.

Lemma uint_val_inj {w} (x y : uint w) : uint_val x = uint_val y → x = y.
Proof.
  destruct x as [v p], y as [v' p']; cbn. intros ->. f_equal.
  apply (proof_irrel p p').
Qed.

Lemma uint_val_range {w} (x : uint w) : 0 ≤ uint_val x < 2 ^ w.
Proof. destruct x as [v p]; cbn. apply andb_true_iff in p. lia. Qed.

Lemma uint_of_Z_opt_Some w z x : uint_of_Z_opt w z = Some x → uint_val x = z.
Proof.
  unfold uint_of_Z_opt. generalize (eq_refl ((0 <=? z) && (z <? 2 ^ w))).
  generalize ((0 <=? z) && (z <? 2 ^ w)) at 2 3. intros [] H ?; by simplify_eq/=.
Qed.

Lemma uint_of_Z_opt_in_range w z :
  0 ≤ z < 2 ^ w → ∃ x, uint_of_Z_opt w z = Some x.
Proof.
  intros Hz. unfold uint_of_Z_opt.
  generalize (eq_refl ((0 <=? z) && (z <? 2 ^ w))).
  generalize ((0 <=? z) && (z <? 2 ^ w)) at 2 3. intros [] H; [by eexists|].
  exfalso. apply andb_false_iff in H. lia.
Qed.

Lemma uint_of_val {w} (x : uint w) : uint_of_Z_opt w (uint_val x) = Some x.
Proof.
  destruct (uint_of_Z_opt_in_range w (uint_val x) (uint_val_range x)) as [y Hy].
  rewrite Hy. f_equal. apply uint_val_inj. by apply uint_of_Z_opt_Some in Hy.
Qed.

#[export] Instance uint_eq_dec w : EqDecision (uint w).
Proof.
  intros x y. destruct (decide (uint_val x = uint_val y)) as [H|H].
  - left. by apply uint_val_inj.
  - right. intros ->. done.
Defined.

#[export] Instance uint_countable w : Countable (uint w) :=
  inj_countable uint_val (uint_of_Z_opt w) uint_of_val.

(** Truncation of an integer to [w] bits. *)
Definition uint_wrap (w z : Z) (default : uint w) : uint w :=
  match uint_of_Z_opt w (z mod 2 ^ w) with Some x => x | None => default end.

Lemma uint_wrap_val w z d : 0 ≤ w → uint_val (uint_wrap w z d) = z mod 2 ^ w.
Proof.
  intros Hw. unfold uint_wrap.
  destruct (uint_of_Z_opt_in_range w (z mod 2 ^ w)) as [x Hx].
  { apply Z.mod_pos_bound. lia. }
  rewrite Hx. by apply uint_of_Z_opt_Some in Hx.
Qed.
