(* ===== verification/Externals.v ===== *)
(** * Interfaces of the libraries the program calls

    [alloy_primitives] (addresses, 256-bit words, hashing, signatures), [dashmap],
    [k256] (keys), [rand] and revm's [CacheDB] are not part of the repository.
    Each is a class of operations with a class of the laws its documentation
    states; the model is generic in both, and the concrete instances at the end make the theorems' hypotheses
    inhabited and the definitions executable. *)

From stdpp Require Import base list gmap countable.
From Stdlib Require Import ZArith Lia Strings.Byte.
From S2P Require Import Prelude Integers.

(** ** alloy_primitives *)

Class Alloy := {
  Address : Set;
  #[global] Address_eq_dec :: EqDecision Address;
  #[global] Address_countable :: Countable Address;
  (** [Address::as_slice] *)
  address_as_slice : Address → list byte;

  B256 : Set;
  #[global] B256_eq_dec :: EqDecision B256;
  #[global] B256_countable :: Countable B256;
  b256_as_slice : B256 → list byte;
  keccak256 : list byte → B256;

  U256 : Set;
  (** The number a [U256] stands for; only statements use it. *)
  u256_val : U256 → Z;
  (** [U256::ZERO], [U256::from], the operators and [<]. *)
  u256_zero : U256;
  u256_from : Z → U256;
  u256_add : U256 → U256 → U256;
  u256_sub : U256 → U256 → U256;
  u256_lt : U256 → U256 → bool;
  u256_to_be_bytes : U256 → list byte;
  u256_from_be_bytes : list byte → U256;

  Signature : Set;
  (** [recover_address_from_prehash(..).ok()] *)
  recover_address_from_prehash : Signature → B256 → option Address;
}.

(** [U256] is the ring of integers modulo [2^256] with the order of its
    representatives (ruint's operators wrap). *)
Class AlloyLaws (A : Alloy) : Prop := {
  address_slice_length : ∀ a, length (address_as_slice a) = 20;
  address_slice_inj : Inj (=) (=) address_as_slice;
  b256_slice_length : ∀ h, length (b256_as_slice h) = 32;
  b256_slice_inj : Inj (=) (=) b256_as_slice;
  u256_range : ∀ x, (0 ≤ u256_val x < u256_modulus)%Z;
  u256_val_inj : Inj (=) (=) u256_val;
  u256_zero_val : u256_val u256_zero = 0%Z;
  u256_from_val : ∀ z, (0 ≤ z < u256_modulus)%Z → u256_val (u256_from z) = z;
  u256_add_val : ∀ x y,
    u256_val (u256_add x y) = ((u256_val x + u256_val y) mod u256_modulus)%Z;
  u256_sub_val : ∀ x y,
    u256_val (u256_sub x y) = ((u256_val x - u256_val y) mod u256_modulus)%Z;
  u256_lt_val : ∀ x y, u256_lt x y = (u256_val x <? u256_val y)%Z;
  u256_be_length : ∀ x, length (u256_to_be_bytes x) = 32;
  u256_be_roundtrip : ∀ x, u256_from_be_bytes (u256_to_be_bytes x) = x;
}.

Section U256.
Context {A : Alloy} {AL : AlloyLaws A}.
Local Open Scope Z_scope.

Lemma u256_add_exact x y :
  u256_val x + u256_val y < u256_modulus →
  u256_val (u256_add x y) = u256_val x + u256_val y.
Proof.
  intros H. rewrite u256_add_val. apply Z.mod_small.
  pose proof (u256_range x). pose proof (u256_range y). lia.
Qed.

Lemma u256_sub_exact x y :
  u256_lt x y = false → u256_val (u256_sub x y) = u256_val x - u256_val y.
Proof.
  rewrite u256_lt_val, u256_sub_val. intros H%Z.ltb_ge. apply Z.mod_small.
  pose proof (u256_range x). pose proof (u256_range y). lia.
Qed.

(** A transfer between two different balances keeps their sum. *)
Lemma u256_transfer_sum s r v :
  u256_lt s v = false →
  u256_val s + u256_val r < u256_modulus →
  u256_val (u256_sub s v) + u256_val (u256_add r v) = u256_val s + u256_val r.
Proof.
  intros Hlt Hsum. rewrite u256_sub_exact by done.
  rewrite u256_lt_val in Hlt. apply Z.ltb_ge in Hlt.
  rewrite u256_add_exact; [lia|]. lia.
Qed.

Lemma u256_lt_false_iff x y : u256_lt x y = false ↔ u256_val y ≤ u256_val x.
Proof. rewrite u256_lt_val. apply Z.ltb_ge. Qed.
End U256.

(** ** dashmap

    Every operation locks the shard of its key for its whole duration, so an
    access through one guard is one atomic step.  Iteration order is not
    specified. *)

Class DashMapImpl (K : Type) := {
  DashMap : Type → Type;
  dm_new : ∀ {V}, DashMap V;
  (** [get] and [get_mut]: the value of a key. *)
  dm_get : ∀ {V}, DashMap V → K → option V;
  (** The store of an [entry] or [get_mut] guard. *)
  dm_insert : ∀ {V}, K → V → DashMap V → DashMap V;
  (** [iter_mut] with an update of each value. *)
  dm_update_all : ∀ {V}, (V → V) → DashMap V → DashMap V;
  dm_iter : ∀ {V}, DashMap V → list (K * V);
}.

Class DashMapLaws {K} (D : DashMapImpl K) : Prop := {
  dm_get_new : ∀ V (k : K), dm_get (dm_new (V := V)) k = None;
  dm_get_insert_eq : ∀ V (m : DashMap V) k v, dm_get (dm_insert k v m) k = Some v;
  dm_get_insert_ne : ∀ V (m : DashMap V) k k' v,
    k ≠ k' → dm_get (dm_insert k v m) k' = dm_get m k';
  dm_get_update_all : ∀ V (f : V → V) (m : DashMap V) k,
    dm_get (dm_update_all f m) k = f <$> dm_get m k;
  dm_iter_nodup : ∀ V (m : DashMap V), NoDup (dm_iter m).*1;
  dm_iter_get : ∀ V (m : DashMap V) k v, (k, v) ∈ dm_iter m ↔ dm_get m k = Some v;
}.

#[export] Hint Rewrite @dm_get_new @dm_get_insert_eq @dm_get_update_all
  using solve [eauto with typeclass_instances] : dbtest.

Section DashMap.
Context {K} `{!EqDecision K} {D : DashMapImpl K} {DL : DashMapLaws D}.

(** Two maps with the same contents; the equality of maps is finer, since an
    implementation may keep its history in its layout. *)
#[global] Instance dm_equiv {V} : Equiv (DashMap V) :=
  λ m m', ∀ k, dm_get m k = dm_get m' k.

#[global] Instance dm_equivalence {V} : Equivalence (≡@{DashMap V}).
Proof. unfold equiv, dm_equiv. split; repeat intro; congruence. Qed.

Lemma dm_get_insert V (m : DashMap V) k k' v :
  dm_get (dm_insert k v m) k' = if decide (k = k') then Some v else dm_get m k'.
Proof.
  case_decide; subst; [apply dm_get_insert_eq|by apply dm_get_insert_ne].
Qed.

#[global] Instance dm_insert_proper V (k : K) (v : V) :
  Proper ((≡) ==> (≡)) (dm_insert k v).
Proof. intros m m' Hm k'. rewrite !dm_get_insert. case_decide; [done|apply Hm]. Qed.

#[global] Instance dm_get_proper V :
  Proper ((≡@{DashMap V}) ==> (=) ==> (=)) dm_get.
Proof. intros m m' Hm k ? <-. apply Hm. Qed.

#[global] Instance dm_update_all_proper V (f : V → V) :
  Proper ((≡) ==> (≡)) (dm_update_all f).
Proof. intros m m' Hm k. by rewrite !dm_get_update_all, Hm. Qed.

#[global] Instance dm_iter_proper V :
  Proper ((≡@{DashMap V}) ==> (≡ₚ)) dm_iter.
Proof.
  intros m m' Hm. apply NoDup_Permutation.
  - eapply NoDup_fmap_1, dm_iter_nodup.
  - eapply NoDup_fmap_1, dm_iter_nodup.
  - intros [k v]. by rewrite !dm_iter_get, Hm.
Qed.
End DashMap.

(** ** Instances

    Addresses are the integers below [2^160], hashes and words those below
    [2^256]; [keccak256] reads its input as a number, which makes it injective
    on slices of at most 32 bytes of one length; a signature is the address it
    recovers to, if any. *)

Definition uint_default {w} (H : ((0 <=? 0) && (0 <? 2 ^ w) = true)%Z) : uint w := mk_uint 0 H.

Definition u256_default : uint 256 := uint_default (w := 256) eq_refl.

Definition u256_of (z : Z) : uint 256 := uint_wrap 256 z u256_default.
Definition addr_of (z : Z) : uint 160 := uint_wrap 160 z (uint_default (w := 160) eq_refl).

#[export] Instance alloy_uint : Alloy := {|
  Address := uint 160;
  Address_eq_dec := _;
  Address_countable := _;
  address_as_slice a := be_bytes 20 (uint_val a);
  B256 := uint 256;
  B256_eq_dec := _;
  B256_countable := _;
  b256_as_slice h := be_bytes 32 (uint_val h);
  keccak256 l := u256_of (be_combine l);
  U256 := uint 256;
  u256_val := uint_val;
  u256_zero := u256_of 0;
  u256_from := u256_of;
  u256_add x y := u256_of (uint_val x + uint_val y);
  u256_sub x y := u256_of (uint_val x - uint_val y);
  u256_lt x y := (uint_val x <? uint_val y)%Z;
  u256_to_be_bytes x := be_bytes 32 (uint_val x);
  u256_from_be_bytes l := u256_of (be_combine l);
  Signature := option (uint 160);
  recover_address_from_prehash s _ := s;
|}.

Lemma u256_of_val z : uint_val (u256_of z) = (z mod 2 ^ 256)%Z.
Proof. by apply uint_wrap_val. Qed.

Lemma pow_256_32 : (256 ^ Z.of_nat 32)%Z = (2 ^ 256)%Z.
Proof. vm_compute. reflexivity. Qed.

Lemma uint_bytes_inj n (x y : uint (8 * Z.of_nat n)) :
  be_bytes n (uint_val x) = be_bytes n (uint_val y) → x = y.
Proof.
  intros H. apply uint_val_inj.
  pose proof (uint_val_range x) as Hx. pose proof (uint_val_range y) as Hy.
  rewrite Z.pow_mul_r in Hx, Hy by lia. by apply (be_bytes_inj n).
Qed.

Lemma u256_of_small z : (0 ≤ z < u256_modulus)%Z → uint_val (u256_of z) = z.
Proof. intros Hz. rewrite u256_of_val. by apply Z.mod_small. Qed.

Lemma u256_be_roundtrip_uint (x : uint 256) :
  u256_of (be_combine (be_bytes 32 (uint_val x))) = x.
Proof.
  apply uint_val_inj. pose proof (uint_val_range x) as Hx.
  rewrite u256_of_val, be_combine_be_bytes_small.
  - by apply Z.mod_small.
  - rewrite pow_256_32. exact Hx.
Qed.

#[export] Instance alloy_uint_laws : AlloyLaws alloy_uint := {|
  address_slice_length a := length_be_bytes 20 (uint_val a);
  address_slice_inj := uint_bytes_inj 20;
  b256_slice_length h := length_be_bytes 32 (uint_val h);
  b256_slice_inj := uint_bytes_inj 32;
  u256_range := @uint_val_range 256;
  u256_val_inj := @uint_val_inj 256;
  u256_zero_val := u256_of_val 0;
  u256_from_val := u256_of_small;
  u256_add_val x y := u256_of_val (uint_val x + uint_val y);
  u256_sub_val x y := u256_of_val (uint_val x - uint_val y);
  u256_lt_val x y := eq_refl;
  u256_be_length x := length_be_bytes 32 (uint_val x);
  u256_be_roundtrip := u256_be_roundtrip_uint;
|}.

Lemma keccak_uint (l : list byte) : keccak256 (Alloy := alloy_uint) l = u256_of (be_combine l).
Proof. reflexivity. Qed.

Lemma slice_uint (a : uint 160) : address_as_slice (Alloy := alloy_uint) a = be_bytes 20 (uint_val a).
Proof. reflexivity. Qed.

(** The hash of an address is its number. *)
Lemma keccak_slice_uint_inj (x y : uint 160) :
  keccak256 (Alloy := alloy_uint) (address_as_slice (Alloy := alloy_uint) x) =
  keccak256 (Alloy := alloy_uint) (address_as_slice (Alloy := alloy_uint) y) → x = y.
Proof.
  rewrite !keccak_uint, !slice_uint. intros H%(f_equal uint_val). apply uint_val_inj.
  revert H. rewrite !u256_of_val.
  assert (∀ z : uint 160, be_combine (be_bytes 20 (uint_val z)) mod 2 ^ 256 = uint_val z)%Z as Hb.
  { intros z. pose proof (uint_val_range z) as Hz.
    rewrite be_combine_be_bytes_small.
    - apply Z.mod_small. split; [lia|]. apply (Z.lt_trans _ (2 ^ 160)); [lia|].
      by apply Z.pow_lt_mono_r.
    - replace (256 ^ Z.of_nat 20)%Z with (2 ^ 160)%Z by reflexivity. lia. }
  by rewrite !Hb.
Qed.

Definition dashmap_gmap K `{Countable K} : DashMapImpl K := {|
  DashMap := gmap K;
  dm_new V := ∅;
  dm_get V m k := m !! k;
  dm_insert V k v m := <[k := v]> m;
  dm_update_all V f m := f <$> m;
  dm_iter V m := map_to_list m;
|}.

Lemma dashmap_gmap_laws K `{Countable K} : DashMapLaws (dashmap_gmap K).
Proof.
  split; cbn; intros.
  - apply lookup_empty.
  - apply lookup_insert_eq.
  - by apply lookup_insert_ne.
  - apply lookup_fmap.
  - apply NoDup_fst_map_to_list.
  - apply elem_of_map_to_list.
Qed.

#[export] Instance dashmap_address : DashMapImpl (@Address alloy_uint) :=
  dashmap_gmap (@Address alloy_uint).

#[export] Instance dashmap_address_laws : DashMapLaws dashmap_address :=
  dashmap_gmap_laws (@Address alloy_uint).

(** ** k256

    Signing keys and recoverable signatures; [None] is the error the code turns
    into a panic. *)

Class Keys (A : Alloy) := {
  SigningKey : Set;
  VerifyingKey : Set;
  EcdsaSignature : Set;
  RecoveryId : Set;
  (** [SigningKey::from_bytes] *)
  signing_key_from_bytes : list byte → option SigningKey;
  (** [VerifyingKey::from(&signing_key)] *)
  verifying_key_from : SigningKey → VerifyingKey;
  (** [to_encoded_point(false).as_bytes()] *)
  to_encoded_point : VerifyingKey → list byte;
  sign_prehash_recoverable : SigningKey → list byte → option (EcdsaSignature * RecoveryId);
  is_y_odd : RecoveryId → bool;
  (** [alloy_primitives::Signature::from_signature_and_parity] *)
  from_signature_and_parity : EcdsaSignature → bool → Signature;
  (** [Address::from_slice]; [None] is its panic on another length than 20. *)
  address_from_slice : list byte → option Address;
}.

(** An uncompressed point is 65 bytes; a signature recovers to the Ethereum
    address of the key that made it; signing does not fail. *)
Class KeysLaws (A : Alloy) (K : Keys A) : Prop := {
  encoded_point_length : ∀ k, length (to_encoded_point k) = 65;
  address_from_slice_ok : ∀ l, is_Some (address_from_slice l) ↔ length l = 20;
  sign_prehash_ok : ∀ k (h : B256), is_Some (sign_prehash_recoverable k (b256_as_slice h));
  recover_signed : ∀ k (h : B256) s r,
    sign_prehash_recoverable k (b256_as_slice h) = Some (s, r) →
    recover_address_from_prehash (from_signature_and_parity s (is_y_odd r)) h =
    address_from_slice
      (drop 12 (b256_as_slice (keccak256 (drop 1 (to_encoded_point (verifying_key_from k))))));
}.

(** ** revm's in-memory database

    [CacheDB<EmptyDB>] as a store of accounts. *)

Record AccountInfo {A : Alloy} : Set := mkAccountInfo {
  info_balance : U256;
  info_nonce : Z;
  code_hash : B256;
  code : option (list byte);
}.

Arguments mkAccountInfo {A} _ _ _ _.

Class CacheDBLib (A : Alloy) := {
  CacheDB : Type;
  KECCAK_EMPTY : B256;
  (** [CacheDB::new(EmptyDB::default())] *)
  cachedb_new : CacheDB;
  insert_account_info : Address → AccountInfo → CacheDB → CacheDB;
  (** [Database::basic] *)
  basic : CacheDB → Address → option AccountInfo;
}.

Class CacheDBLaws (A : Alloy) (C : CacheDBLib A) : Prop := {
  basic_new : ∀ a, basic cachedb_new a = None;
  basic_insert : ∀ a b i db,
    basic (insert_account_info a i db) b = if decide (a = b) then Some i else basic db b;
}.

Definition cachedb_gmap (A : Alloy) (empty : B256) : CacheDBLib A := {|
  CacheDB := gmap Address AccountInfo;
  KECCAK_EMPTY := empty;
  cachedb_new := ∅;
  insert_account_info a i db := <[a := i]> db;
  basic db a := db !! a;
|}.

#[export] Instance cachedb_gmap_laws (A : Alloy) (empty : B256) : CacheDBLaws A (cachedb_gmap A empty).
Proof. split; cbn; intros; [apply lookup_empty|apply lookup_insert]. Qed.

(** ** rand *)

Class Rand := {
  StdRng : Set;
  seed_from_u64 : Z → StdRng;
  (** [rng.fill] of a 32-byte array. *)
  fill_32 : StdRng → list byte * StdRng;
  (** [rng.gen_range(0..n)] *)
  gen_range : StdRng → nat → nat * StdRng;
}.

(** The index of the [k]-th draw below [n] from a generator. *)
Fixpoint nth_draw {R : Rand} (k : nat) (rng : StdRng) (n : nat) : nat :=
  match k with
  | O => (gen_range rng n).1
  | S k => nth_draw k (gen_range rng n).2 n
  end.

(** Draws are in range, and no generator draws one index for ever. *)
Class RandLaws (R : Rand) : Prop := {
  gen_range_lt : ∀ rng n, 0 < n → (gen_range rng n).1 < n;
  draws_vary : ∀ rng n i, 2 ≤ n → ∃ k, nth_draw k rng n ≠ i;
}.

(** Instances: a key is an address, and the point is its encoding; the
    generator counts. *)

Definition addr_of_bytes (l : list byte) : option (uint 160) :=
  if decide (length l = 20) then Some (addr_of (be_combine l)) else None.

#[export] Instance keys_uint : Keys alloy_uint := {|
  SigningKey := uint 160;
  VerifyingKey := uint 160;
  EcdsaSignature := option (uint 160);
  RecoveryId := unit;
  signing_key_from_bytes l := Some (addr_of (be_combine l));
  verifying_key_from k := k;
  to_encoded_point k := be_bytes 65 (uint_val k);
  sign_prehash_recoverable k _ := Some (addr_of_bytes
    (drop 12 (be_bytes 32 (uint_val (u256_of (be_combine (drop 1 (be_bytes 65 (uint_val k)))))))), tt);
  is_y_odd _ := false;
  from_signature_and_parity s _ := s;
  address_from_slice := addr_of_bytes;
|}.

Lemma addr_of_bytes_ok l : is_Some (addr_of_bytes l) ↔ length l = 20.
Proof. unfold addr_of_bytes. case_decide; split; try done. Qed.

Lemma recover_signed_uint (k : uint 160) (x y : option (uint 160)) (u v : unit) :
  Some (x, u) = Some (y, v) → y = x.
Proof. congruence. Qed.

#[export] Instance keys_uint_laws : KeysLaws alloy_uint keys_uint := {|
  encoded_point_length k := length_be_bytes 65 (uint_val k);
  address_from_slice_ok := addr_of_bytes_ok;
  sign_prehash_ok k h := ex_intro _ _ eq_refl;
  recover_signed k h s r := recover_signed_uint k _ s tt r;
|}.

#[export] Instance rand_counter : Rand := {|
  StdRng := Z;
  seed_from_u64 z := z;
  fill_32 z := (be_bytes 32 z, (z + 1)%Z);
  gen_range z n := (Z.to_nat (z mod Z.of_nat n), (z + 1)%Z);
|}.

#[export] Instance rand_counter_laws : RandLaws rand_counter.
Proof.
  split; cbn.
  - intros z n Hn. pose proof (Z.mod_pos_bound z (Z.of_nat n)). lia.
  - intros z n i Hn.
    destruct (decide (Z.to_nat (z mod Z.of_nat n) = i)) as [<-|]; [|by exists 0].
    exists 1. cbn. intros Heq. apply (f_equal Z.of_nat) in Heq.
    pose proof (Z.mod_pos_bound z (Z.of_nat n)). pose proof (Z.mod_pos_bound (z + 1) (Z.of_nat n)).
    rewrite !Z2Nat.id in Heq by lia.
    pose proof (Z.div_mod z (Z.of_nat n)). pose proof (Z.div_mod (z + 1) (Z.of_nat n)).
    assert (Z.of_nat n * ((z + 1) / Z.of_nat n - z / Z.of_nat n) = 1)%Z as E by nia.
    apply Z.mul_eq_1 in E. lia.
Qed.
