(* ===== verification/Types.v ===== *)
(** * block-stm-executor/src/types.rs

    The data the Block-STM components exchange. *)

From stdpp Require Import base option.
From Stdlib Require Import ZArith String.
From S2P Require Import Prelude Integers Externals.

(** Indices of a [Vec] and numbers of executions: bounded by the length of the
    block and by the number of executions, far below [usize::MAX]. *)
Definition TxnIndex : Set := nat.
Definition Incarnation : Set := nat.

Record Version : Set := mkVersion { txn_idx : nat; incarnation : nat }.

#[export] Instance Version_eq_dec : EqDecision Version.
Proof. solve_decision. Defined.

(** [Version::new] *)
Definition Version_new (txn_idx incarnation : nat) : Version :=
  mkVersion txn_idx incarnation.

Inductive ExecutionStatus : Set :=
  | Pending
  | Executing (incarnation : nat)
  | Executed (incarnation : nat)
  | Committed.

#[export] Instance ExecutionStatus_eq_dec : EqDecision ExecutionStatus.
Proof. solve_decision. Defined.

Inductive AccessType : Set := Read | Write.

Section Types.
Context {A : Alloy}.

Record AccountState : Set := mkAccountState {
  nonce : Z;
  balance : U256;
}.

(** [AccountState::new] *)
Definition AccountState_new (nonce : Z) (balance : U256) : AccountState :=
  mkAccountState nonce balance.

Record MemoryAccess : Set := mkMemoryAccess {
  address : Address;
  access_type : AccessType;
  version : option Version;
  value : option AccountState;
}.

Inductive ExecutionResult : Set :=
  | Success (read_set write_set : list MemoryAccess) (gas_used : Z)
  | Failed (reason : string)
  | Retry.
End Types.
