(* ===== verification/MVHashMap.v ===== *)
(** * block-stm-executor/src/mvhashmap.rs

    The multi-version map: for each address, the states written to it, keyed by
    the index of the writing transaction, with the transactions that read each
    of them.  [read], [write], [record_read], [record_storage_read],
    [clear_transaction] and [get_committed_states] are the methods of
    [MVHashMap]; [write] is split at the three points where the method takes and
    releases a shard lock. *)

From stdpp Require Import base option list sorting gmap.
From Stdlib Require Import ZArith Lia.
From S2P Require Import Prelude Integers Externals Types.

Module MV.
Section MV.
Context {A : Alloy} {D : DashMapImpl Address}.

Record VersionedEntry : Set := mkEntry {
  version : Version;
  state : AccountState;
  readers : list nat;
}.

Record MVHashMap : Type := mkMV {
  data : DashMap (gmap nat VersionedEntry);
  storage_readers : DashMap (list nat);
}.

Inductive ReadResult : Set :=
  | Versioned (version : Version) (state : AccountState)
  | Storage
  | Dependency (idx : nat).

Record WriteResult : Set := mkWriteResult { invalidated_readers : list nat }.

Definition new : MVHashMap := mkMV dm_new dm_new.

Definition read (self : MVHashMap) (address : Address) (reader_txn_idx : nat) : ReadResult :=
  match dm_get (data self) address with
  | Some versions =>
      match range_to_next_back versions reader_txn_idx with
      | Some (_, entry) => Versioned (version entry) (state entry)
      | None =>
          match range_from_next versions reader_txn_idx with
          | Some _ => Storage
          | None => Storage
          end
      end
  | None => Storage
  end.

(** [.iter().filter(|&&reader_idx| reader_idx > writer_txn_idx).copied()] *)
Definition readers_above (writer_txn_idx : nat) (rs : list nat) : list nat :=
  filter (λ reader_idx, writer_txn_idx < reader_idx) rs.

(** First access of [write]: is there a version below the writer's? *)
Definition has_lower_version (self : MVHashMap) (address : Address)
    (writer_txn_idx : nat) : bool :=
  match dm_get (data self) address with
  | Some versions => bool_decide (is_Some (range_to_next_back versions writer_txn_idx))
  | None => false
  end.

(** Second access, made when there is none: the storage readers. *)
Definition storage_invalidated (self : MVHashMap) (address : Address)
    (writer_txn_idx : nat) : list nat :=
  match dm_get (storage_readers self) address with
  | Some rs => readers_above writer_txn_idx rs
  | None => []
  end.

(** Third access: the [entry(..).and_modify(..).or_insert_with(..)] chain. *)
Definition write_entry (self : MVHashMap) (address : Address)
    (writer_txn_idx incarnation : nat) (st : AccountState) : MVHashMap * list nat :=
  let entry := mkEntry (Version_new writer_txn_idx incarnation) st [] in
  match dm_get (data self) address with
  | Some versions =>
      let invalidated :=
        match range_to_next_back versions writer_txn_idx with
        | Some (_, prev_entry) => readers_above writer_txn_idx (readers prev_entry)
        | None => []
        end in
      (mkMV (dm_insert address (<[writer_txn_idx := entry]> versions) (data self))
            (storage_readers self),
       invalidated)
  | None =>
      (mkMV (dm_insert address {[writer_txn_idx := entry]} (data self))
            (storage_readers self),
       [])
  end.

Definition write (self : MVHashMap) (address : Address)
    (writer_txn_idx incarnation : nat) (st : AccountState) : MVHashMap * WriteResult :=
  let invalidated :=
    if has_lower_version self address writer_txn_idx then []
    else storage_invalidated self address writer_txn_idx in
  let '(self', more) := write_entry self address writer_txn_idx incarnation st in
  (self', mkWriteResult (invalidated ++ more)).

Definition record_read (self : MVHashMap) (address : Address) (reader_txn_idx : nat)
    (v : Version) : MVHashMap :=
  match dm_get (data self) address with
  | Some versions =>
      match versions !! txn_idx v with
      | Some entry =>
          if decide (version entry = v ∧ reader_txn_idx ∉ readers entry) then
            let entry' :=
              mkEntry (version entry) (state entry) (readers entry ++ [reader_txn_idx]) in
            mkMV (dm_insert address (<[txn_idx v := entry']> versions) (data self))
                 (storage_readers self)
          else self
      | None => self
      end
  | None => self
  end.

Definition record_storage_read (self : MVHashMap) (address : Address)
    (reader_txn_idx : nat) : MVHashMap :=
  mkMV (data self)
    (dm_insert address
       (default [] (dm_get (storage_readers self) address) ++ [reader_txn_idx])
       (storage_readers self)).

Definition clear_transaction (self : MVHashMap) (idx : nat) : MVHashMap :=
  mkMV (dm_update_all (delete idx) (data self)) (storage_readers self).

Definition get_committed_states (self : MVHashMap) : list (Address * AccountState) :=
  omap (λ '(address, versions),
          (λ '(_, versioned), (address, state versioned)) <$> iter_next_back versions)
       (dm_iter (data self)).

(** ** The abstract contents of the map

    [entry_at] is the entry a transaction left at an address and
    [storage_readers_at] the recorded storage readers; the operations are
    characterised by their effect on these two. *)

Definition entry_at (self : MVHashMap) (a : Address) (i : nat) : option VersionedEntry :=
  dm_get (data self) a ≫= λ versions, versions !! i.

Definition storage_readers_at (self : MVHashMap) (a : Address) : list nat :=
  default [] (dm_get (storage_readers self) a).

(** [e], written by [i], is the latest version below [k]. *)
Definition latest_below (self : MVHashMap) (a : Address) (k i : nat)
    (e : VersionedEntry) : Prop :=
  entry_at self a i = Some e ∧ i < k ∧ ∀ j, i < j < k → entry_at self a j = None.

Definition no_version_below (self : MVHashMap) (a : Address) (k : nat) : Prop :=
  ∀ j, j < k → entry_at self a j = None.

(** Every entry carries the index it is stored under. *)
Definition mv_wf (self : MVHashMap) : Prop :=
  ∀ a i e, entry_at self a i = Some e → txn_idx (version e) = i.

Context {DL : DashMapLaws D}.
Implicit Types (self : MVHashMap) (a : Address) (i j k w r : nat) (st : AccountState).

Lemma entry_at_new a i : entry_at new a i = None.
Proof. unfold entry_at. cbn. by rewrite dm_get_new. Qed.

Lemma storage_readers_at_new a : storage_readers_at new a = [].
Proof. unfold storage_readers_at. cbn. by rewrite dm_get_new. Qed.

Lemma latest_below_unique self a k i j e e' :
  latest_below self a k i e → latest_below self a k j e' → i = j ∧ e = e'.
Proof.
  intros (Hi & Hik & Hn) (Hj & Hjk & Hn').
  assert (i = j) as ->; [|split; congruence].
  destruct (Nat.lt_trichotomy i j) as [H|[H|H]]; [|done|].
  - by rewrite Hn in Hj by lia.
  - by rewrite Hn' in Hi by lia.
Qed.

(** The two cases of the [range(..k).next_back()] lookup. *)
Lemma lookup_below self a k :
  match dm_get (data self) a ≫= λ versions, range_to_next_back versions k with
  | Some (i, e) => latest_below self a k i e
  | None => no_version_below self a k
  end.
Proof.
  unfold latest_below, no_version_below, entry_at.
  destruct (dm_get (data self) a) as [versions|]; cbn; [|done].
  destruct (range_to_next_back versions k) as [[i e]|] eqn:E.
  - by apply range_to_next_back_Some.
  - by apply range_to_next_back_None.
Qed.

Lemma latest_below_or_none self a k :
  no_version_below self a k ∨ ∃ i e, latest_below self a k i e.
Proof.
  pose proof (lookup_below self a k) as H.
  destruct (_ ≫= _) as [[i e]|]; eauto.
Qed.

Lemma latest_not_none self a k i e :
  latest_below self a k i e → ¬ no_version_below self a k.
Proof. intros (Hi & Hk & _) Hn. by rewrite Hn in Hi. Qed.

Lemma read_eq self a k :
  read self a k =
  match dm_get (data self) a ≫= λ versions, range_to_next_back versions k with
  | Some (_, e) => Versioned (version e) (state e)
  | None => Storage
  end.
Proof. unfold read. by repeat case_match; simplify_eq/=. Qed.

Lemma read_latest_below self a k i e :
  latest_below self a k i e → read self a k = Versioned (version e) (state e).
Proof.
  intros Hl. rewrite read_eq. pose proof (lookup_below self a k) as H.
  destruct (_ ≫= _) as [[j e']|].
  - by destruct (latest_below_unique _ _ _ _ _ _ _ Hl H) as [-> ->].
  - by apply latest_not_none in Hl.
Qed.

Lemma read_no_version self a k : no_version_below self a k → read self a k = Storage.
Proof.
  intros Hn. rewrite read_eq. pose proof (lookup_below self a k) as H.
  destruct (_ ≫= _) as [[j e']|]; [|done]. by apply latest_not_none in H.
Qed.

Lemma has_lower_version_spec self a k :
  has_lower_version self a k = false ↔ no_version_below self a k.
Proof.
  unfold has_lower_version. pose proof (lookup_below self a k) as H.
  destruct (dm_get (data self) a) as [versions|] eqn:E; cbn in *; [|by split].
  rewrite bool_decide_eq_false.
  destruct (range_to_next_back versions k) as [[i e]|] eqn:E'.
  - split; [intros []; eauto|]. intros Hn. by apply latest_not_none in H.
  - split; [done|]. by intros _ [? ?].
Qed.

(** *** Effect of the operations on the contents *)

Lemma entry_at_write_entry self a a' w i inc st :
  entry_at (write_entry self a w inc st).1 a' i =
  if decide (a = a' ∧ w = i) then Some (mkEntry (Version_new w inc) st [])
  else entry_at self a' i.
Proof.
  unfold entry_at, write_entry.
  destruct (dm_get (data self) a) as [versions|] eqn:E; cbn;
    rewrite dm_get_insert; destruct (decide (a = a')) as [<-|Ha]; cbn;
    rewrite ?E; cbn; repeat case_decide; destruct_all; simplify_eq/=;
    rewrite ?lookup_insert_eq, ?lookup_singleton_eq; try done; try tauto.
  - rewrite lookup_insert_ne; [done|]. tauto.
  - rewrite lookup_singleton_ne; [done|]. tauto.
Qed.

Lemma storage_readers_at_write_entry self a a' w inc st :
  storage_readers_at (write_entry self a w inc st).1 a' = storage_readers_at self a'.
Proof. unfold write_entry. by destruct (dm_get (data self) a). Qed.

Lemma write_fst self a w inc st :
  (write self a w inc st).1 = (write_entry self a w inc st).1.
Proof. unfold write. by destruct (write_entry self a w inc st). Qed.

Lemma entry_at_write self a a' w i inc st :
  entry_at (write self a w inc st).1 a' i =
  if decide (a = a' ∧ w = i) then Some (mkEntry (Version_new w inc) st [])
  else entry_at self a' i.
Proof. by rewrite write_fst, entry_at_write_entry. Qed.

Lemma storage_readers_at_write self a a' w inc st :
  storage_readers_at (write self a w inc st).1 a' = storage_readers_at self a'.
Proof. by rewrite write_fst, storage_readers_at_write_entry. Qed.

Lemma elem_of_readers_above w rs x : x ∈ readers_above w rs ↔ w < x ∧ x ∈ rs.
Proof. apply list_elem_of_filter. Qed.

Lemma elem_of_storage_invalidated self a w x :
  x ∈ storage_invalidated self a w ↔ w < x ∧ x ∈ storage_readers_at self a.
Proof.
  unfold storage_invalidated, storage_readers_at.
  destruct (dm_get (storage_readers self) a); cbn.
  - apply elem_of_readers_above.
  - set_solver.
Qed.

Lemma elem_of_write_entry_invalidated self a w inc st x :
  x ∈ (write_entry self a w inc st).2 ↔
  w < x ∧ ∃ i e, latest_below self a w i e ∧ x ∈ readers e.
Proof.
  unfold write_entry. pose proof (lookup_below self a w) as H.
  destruct (dm_get (data self) a) as [versions|]; cbn in *.
  - destruct (range_to_next_back versions w) as [[i e]|].
    + rewrite elem_of_readers_above. split; [naive_solver|].
      intros (Hw & j & e' & Hl & Hx).
      by destruct (latest_below_unique _ _ _ _ _ _ _ Hl H) as [-> ->].
    + split; [set_solver|]. intros (_ & j & e' & Hl & _).
      by apply latest_not_none in Hl.
  - split; [set_solver|]. intros (_ & j & e' & Hl & _).
    by apply latest_not_none in Hl.
Qed.

Lemma elem_of_write_invalidated self a w inc st x :
  x ∈ invalidated_readers (write self a w inc st).2 ↔
  w < x ∧ ((no_version_below self a w ∧ x ∈ storage_readers_at self a) ∨
           ∃ i e, latest_below self a w i e ∧ x ∈ readers e).
Proof.
  pose proof (elem_of_write_entry_invalidated self a w inc st x) as Hx.
  unfold write. destruct (write_entry self a w inc st) as [self' more]. cbn in *.
  rewrite elem_of_app, Hx. clear Hx.
  destruct (has_lower_version self a w) eqn:Hl.
  - assert (¬ no_version_below self a w).
    { rewrite <- has_lower_version_spec, Hl. done. }
    set_solver.
  - apply has_lower_version_spec in Hl.
    rewrite elem_of_storage_invalidated. naive_solver.
Qed.

Lemma entry_at_record_read self a a' i r v :
  entry_at (record_read self a r v) a' i =
  if decide (a = a' ∧ i = txn_idx v) then
    (λ e, if decide (version e = v ∧ r ∉ readers e)
          then mkEntry (version e) (state e) (readers e ++ [r]) else e)
      <$> entry_at self a' i
  else entry_at self a' i.
Proof.
  unfold record_read, entry_at.
  destruct (dm_get (data self) a) as [versions|] eqn:E; cbn.
  2:{ case_decide; [|done]. destruct_all; subst. by rewrite E. }
  destruct (versions !! txn_idx v) as [entry|] eqn:Ev.
  2:{ case_decide; [|done]. destruct_all; subst. rewrite E; cbn. by rewrite Ev. }
  destruct (decide (version entry = v ∧ r ∉ readers entry)) as [Hd|Hd]; cbn.
  - rewrite dm_get_insert. destruct (decide (a = a')) as [<-|Ha]; cbn.
    + rewrite E; cbn. case_decide; destruct_all; subst.
      * rewrite lookup_insert_eq, Ev; cbn. by rewrite decide_True.
      * rewrite lookup_insert_ne; [done|]. naive_solver.
    + rewrite decide_False; [done|tauto].
  - case_decide; [|done]. destruct_all; subst. rewrite E; cbn. rewrite Ev; cbn.
    by rewrite decide_False.
Qed.

Lemma storage_readers_at_record_read self a a' r v :
  storage_readers_at (record_read self a r v) a' = storage_readers_at self a'.
Proof. unfold record_read. by repeat case_match. Qed.

Lemma entry_at_record_storage_read self a a' r i :
  entry_at (record_storage_read self a r) a' i = entry_at self a' i.
Proof. done. Qed.

Lemma storage_readers_at_record_storage_read self a a' r :
  storage_readers_at (record_storage_read self a r) a' =
  storage_readers_at self a' ++ (if decide (a = a') then [r] else []).
Proof.
  unfold storage_readers_at, record_storage_read; cbn.
  rewrite dm_get_insert. case_decide; subst; cbn; [done|by rewrite app_nil_r].
Qed.

Lemma entry_at_clear_transaction self a i j :
  entry_at (clear_transaction self i) a j =
  if decide (i = j) then None else entry_at self a j.
Proof.
  unfold entry_at, clear_transaction; cbn. rewrite dm_get_update_all.
  destruct (dm_get (data self) a) as [versions|]; cbn; [|by case_decide].
  rewrite lookup_delete. done.
Qed.

Lemma elem_of_get_committed_states self a st :
  (a, st) ∈ get_committed_states self ↔
  ∃ i e, entry_at self a i = Some e ∧ state e = st ∧
         ∀ j, i < j → entry_at self a j = None.
Proof.
  unfold get_committed_states, entry_at. rewrite list_elem_of_omap. split.
  - intros ([a' versions] & Hin & Hs). apply dm_iter_get in Hin.
    destruct (iter_next_back versions) as [[i e]|] eqn:E; simplify_eq/=.
    apply iter_next_back_Some in E as [Hi Hmax].
    exists i, e. rewrite Hin; cbn. done.
  - intros (i & e & Hi & <- & Hmax).
    destruct (dm_get (data self) a) as [versions|] eqn:E; [|done]. cbn in *.
    exists (a, versions). split; [by apply dm_iter_get|].
    by rewrite (proj2 (iter_next_back_Some versions i e)) by done.
Qed.

Lemma get_committed_states_NoDup self : NoDup (get_committed_states self).*1.
Proof.
  unfold get_committed_states.
  pose proof (dm_iter_nodup _ (data self)) as Hnd.
  induction (dm_iter (data self)) as [|[a versions] l IH]; [constructor|].
  cbn in *. apply NoDup_cons in Hnd as [Ha Hnd].
  destruct (iter_next_back versions) as [[i e]|]; cbn; [|by apply IH].
  apply NoDup_cons; split; [|by apply IH].
  intros Hin. apply Ha. apply list_elem_of_fmap in Hin as ([a' st] & -> & Hin).
  apply list_elem_of_omap in Hin as ([a'' vs] & Hin & Hs).
  destruct (iter_next_back vs) as [[? ?]|]; simplify_eq/=.
  apply list_elem_of_fmap. by exists (a', vs).
Qed.

(** *** Preservation of well-formedness *)

Lemma mv_wf_new : mv_wf new.
Proof. intros a i e. by rewrite entry_at_new. Qed.

Lemma mv_wf_write_entry self a w inc st :
  mv_wf self → mv_wf (write_entry self a w inc st).1.
Proof. intros Hwf a' i e. rewrite entry_at_write_entry. case_decide; naive_solver. Qed.

Lemma mv_wf_write self a w inc st : mv_wf self → mv_wf (write self a w inc st).1.
Proof. rewrite write_fst. apply mv_wf_write_entry. Qed.

Lemma mv_wf_record_read self a r v : mv_wf self → mv_wf (record_read self a r v).
Proof.
  intros Hwf a' i e. rewrite entry_at_record_read. case_decide; [|apply Hwf].
  intros (e' & He' & ->)%fmap_Some. case_decide; cbn; eauto.
Qed.

Lemma mv_wf_record_storage_read self a r :
  mv_wf self → mv_wf (record_storage_read self a r).
Proof. done. Qed.

Lemma mv_wf_clear_transaction self i : mv_wf self → mv_wf (clear_transaction self i).
Proof. intros Hwf a j e. rewrite entry_at_clear_transaction. case_decide; naive_solver. Qed.
End MV.

#[export] Hint Resolve mv_wf_new mv_wf_write_entry mv_wf_write mv_wf_record_read
  mv_wf_record_storage_read mv_wf_clear_transaction : dbtest.
#[export] Hint Rewrite @entry_at_new @storage_readers_at_new @entry_at_write_entry
  @storage_readers_at_write_entry @entry_at_write @storage_readers_at_write
  @entry_at_record_read @storage_readers_at_record_read
  @entry_at_record_storage_read @storage_readers_at_record_storage_read
  using solve [eauto with typeclass_instances] : dbtest.
End MV.
