(* ===== verification/MVHashMapSpec.v ===== *)
(** * What the multi-version map promises

    The contract of [MVHashMap] towards the executor: reads see the latest lower
    version, a write is visible exactly to the readers above it, every recorded
    reader whose source a fresh write shadows is reported for invalidation, and
    the final states are the last versions. *)

From stdpp Require Import base option list sorting gmap.
From Stdlib Require Import ZArith Lia.
From S2P Require Import Prelude Integers Externals Types MVHashMap.

Module MVSpec.
Import MV.

(** A small block for the witnesses: two accounts. *)
Definition acct1 : Address := addr_of 1.
Definition acct2 : Address := addr_of 2.
Definition st (n b : Z) : AccountState := AccountState_new n (u256_of b).

Section Contract.
Context {A : Alloy} {D : DashMapImpl Address} {DL : DashMapLaws D}.
Implicit Types (self : MVHashMap) (a : Address) (i j k w r : nat).

(** A read at [k] depends only on the entries below [k]. *)
Lemma read_ext self self' a a' k :
  (∀ j, j < k → entry_at self a j = entry_at self' a' j) →
  read self a k = read self' a' k.
Proof.
  intros Heq. destruct (latest_below_or_none self a k) as [Hn|(i & e & Hl)].
  - rewrite !read_no_version; [done| |done]. intros j Hj. rewrite <- Heq by done. eauto.
  - rewrite (read_latest_below _ _ _ _ _ Hl). symmetry.
    destruct Hl as (Hi & Hk & Hmax). apply (read_latest_below _ _ _ i).
    split_and!; [by rewrite <- Heq|done|]. intros j Hj.
    rewrite <- Heq by lia. by apply Hmax.
Qed.

(** The recorded source of a read: the reader list its invalidation depends on. *)
Definition read_recorded self a r : Prop :=
  (no_version_below self a r ∧ r ∈ storage_readers_at self a) ∨
  ∃ i e, latest_below self a r i e ∧ r ∈ readers e.

Lemma read_source_change self a r w inc s :
  entry_at self a w = None → w < r →
  read (write self a w inc s).1 a r ≠ read self a r →
  ∀ j, w < j < r → entry_at self a j = None.
Proof.
  intros Hw Hr Hne j Hj. destruct (entry_at self a j) as [e|] eqn:Ej; [|done].
  exfalso. apply Hne. destruct (latest_below_or_none self a r) as [Hn|(i & e' & Hl)].
  { by rewrite Hn in Ej by lia. }
  rewrite (read_latest_below _ _ _ _ _ Hl). destruct Hl as (Hi & Hir & Hmax).
  assert (j ≤ i). { destruct (decide (i < j)); [|lia]. by rewrite Hmax in Ej by lia. }
  apply (read_latest_below _ _ _ i). split_and!; [|done|].
  - rewrite entry_at_write, decide_False by lia. done.
  - intros j' Hj'. rewrite entry_at_write, decide_False by lia. by apply Hmax.
Qed.

(** C27: A read by transaction [k] returns the state written by the greatest
    index below [k] that wrote the address, with the version of that write,
    and [Storage] exactly when no lower transaction wrote it; [Dependency] is
    never returned. *)
Theorem read_latest_spec self a k :
  (∀ v s, read self a k = Versioned v s ↔
          ∃ i e, latest_below self a k i e ∧ version e = v ∧ state e = s) ∧
  (read self a k = Storage ↔ ∀ j, j < k → entry_at self a j = None) ∧
  (∀ i, read self a k ≠ Dependency i).
Proof.
  destruct (latest_below_or_none self a k) as [Hn|(i & e & Hl)].
  - rewrite read_no_version by done. split_and!; [|done|done].
    intros v s; split; [done|]. intros (i & e & Hl & _).
    by apply latest_not_none in Hl.
  - rewrite (read_latest_below _ _ _ _ _ Hl). split_and!; [|split; [done|]|done].
    + intros v s; split; [naive_solver|]. intros (j & e' & Hl' & <- & <-).
      by destruct (latest_below_unique _ _ _ _ _ _ _ Hl Hl') as [_ ->].
    + intros Hn. by apply latest_not_none in Hl.
Qed.

(** C26: after a write by [w], a reader above [w] with no version in between
    reads exactly the written state with version [(w, inc)]; readers at or
    below [w], readers separated from it by another version, and every other
    address read what they read before. *)
Theorem write_visibility self a w inc s a' k :
  (a = a' → w < k → (∀ j, w < j < k → entry_at self a j = None) →
   read (write self a w inc s).1 a' k = Versioned (mkVersion w inc) s) ∧
  (a ≠ a' ∨ k ≤ w ∨ (∃ j, w < j < k ∧ is_Some (entry_at self a' j)) →
   read (write self a w inc s).1 a' k = read self a' k).
Proof.
  split.
  - intros <- Hk Hmax. 
    rewrite (read_latest_below _ _ _ w (mkEntry (Version_new w inc) s [])); [done|].
    split_and!; [by rewrite entry_at_write, decide_True|done|].
    intros j Hj. rewrite entry_at_write, decide_False by lia. by apply Hmax.
  - intros [Ha|[Hk|(j & Hj & e & He)]].
    + apply read_ext. intros j _. by rewrite entry_at_write, decide_False by tauto.
    + apply read_ext. intros j Hj. by rewrite entry_at_write, decide_False by lia.
    + destruct (decide (a = a')) as [<-|Ha].
      * destruct (latest_below_or_none self a k) as [Hn|(i & e' & Hi & Hik & Hmax)].
        { by rewrite Hn in He by lia. }
        assert (j ≤ i).
        { destruct (decide (i < j)); [|lia]. by rewrite Hmax in He by lia. }
        rewrite (read_latest_below self _ _ i e') by done.
        apply (read_latest_below _ _ _ i). split_and!; [|done|].
        -- by rewrite entry_at_write, decide_False by lia.
        -- intros j' Hj'. rewrite entry_at_write, decide_False by lia. by apply Hmax.
      * apply read_ext. intros j' _. by rewrite entry_at_write, decide_False by tauto.
Qed.

(** C28: push-based invalidation is complete for a first write: when
    transaction [w], with no version at the address yet, writes it, every
    higher reader [r] that recorded its read and whose read result changes is
    in the list the write returns. *)
Theorem fresh_write_invalidates self a w inc s r :
  entry_at self a w = None → w < r → read_recorded self a r →
  read (write self a w inc s).1 a r ≠ read self a r →
  r ∈ invalidated_readers (write self a w inc s).2.
Proof.
  intros Hw Hr Hrec Hne. rewrite elem_of_write_invalidated. split; [done|].
  pose proof (read_source_change _ _ _ _ _ _ Hw Hr Hne) as Hgap.
  destruct Hrec as [[Hn Hin]|(i & e & (Hi & Hir & Hmax) & Hin)].
  - left. split; [|done]. intros j Hj. apply Hn. lia.
  - right. exists i, e. split; [|done]. split_and!; [done| |].
    + destruct (decide (i < w)); [done|]. destruct (decide (i = w)) as [->|]; [congruence|].
      rewrite Hgap in Hi by lia. done.
    + intros j Hj. destruct (decide (j < r)); [apply Hmax; lia|]. lia.
Qed.

(** A re-execution does not notify the readers of its own previous
    version.  When transaction [w] writes again an address it has already
    written, a reader [r] of the old version that reads neither a lower
    version nor storage is not in the returned list, although its read now
    returns the new version and state, and the reader lists at the new version
    are empty, so no later write reports it either. *)
Theorem rewrite_loses_readers self a w inc inc' s r e :
  latest_below self a r w e → r ∈ readers e → version e = mkVersion w inc →
  (∀ i e', latest_below self a w i e' → ¬ (r ∈ readers e')) →
  (no_version_below self a w → ¬ (r ∈ storage_readers_at self a)) →
  let m' := (write self a w inc' s).1 in
  (r ∉ invalidated_readers (write self a w inc' s).2) ∧
  read self a r = Versioned (mkVersion w inc) (state e) ∧
  read m' a r = Versioned (mkVersion w inc') s ∧
  ∃ e', entry_at m' a w = Some e' ∧ readers e' = [].
Proof.
  intros Hl Hin Hv Hlow Hst m'. split_and!.
  - rewrite elem_of_write_invalidated. naive_solver.
  - by rewrite (read_latest_below _ _ _ _ _ Hl), Hv.
  - destruct Hl as (_ & Hr & Hmax). subst m'.
    rewrite (read_latest_below _ _ _ w (mkEntry (Version_new w inc') s [])); [done|].
    split_and!; [by rewrite entry_at_write, decide_True|done|].
    intros j Hj. rewrite entry_at_write, decide_False by lia. by apply Hmax.
  - subst m'. rewrite entry_at_write, decide_True by done. eauto.
Qed.

(** [clear_transaction] undoes a transaction's write: if [w] had no
    version anywhere, every read after writing and clearing equals the read
    before the write. *)
Theorem write_clear_roundtrip self a w inc s a' k :
  (∀ b, entry_at self b w = None) →
  read (clear_transaction (write self a w inc s).1 w) a' k = read self a' k.
Proof.
  intros Hfresh. apply read_ext. intros j _.
  rewrite entry_at_clear_transaction, entry_at_write.
  destruct (decide (w = j)) as [<-|]; [by rewrite Hfresh|].
  by rewrite decide_False by tauto.
Qed.

(** C29: [get_committed_states] lists each address with a version once, with
    the state of its greatest version, and no other address. *)
Theorem committed_states_spec self :
  NoDup (get_committed_states self).*1 ∧
  ∀ a s, (a, s) ∈ get_committed_states self ↔
         ∃ i e, entry_at self a i = Some e ∧ state e = s ∧
                ∀ j, i < j → entry_at self a j = None.
Proof.
  split; [apply get_committed_states_NoDup|].
  intros a s. apply elem_of_get_committed_states.
Qed.
End Contract.

(** ** Witnesses *)

(** Transaction 0 wrote account 1; transactions 2 and 3 read it; 3 read account
    2 from storage. *)
Definition mv1 : MVHashMap :=
  let m := (write new acct1 0 0 (st 1 100)).1 in
  let m := record_read m acct1 2 (mkVersion 0 0) in
  let m := record_read m acct1 3 (mkVersion 0 0) in
  record_storage_read m acct2 3.

Definition entry1 : VersionedEntry := mkEntry (mkVersion 0 0) (st 1 100) [2; 3].

Lemma mv1_entry a i :
  entry_at mv1 a i = if decide (acct1 = a ∧ 0 = i) then Some entry1 else None.
Proof.
  unfold mv1. rewrite entry_at_record_storage_read, !entry_at_record_read.
  rewrite entry_at_write, entry_at_new. cbn [txn_idx].
  destruct (decide (acct1 = a ∧ 0 = i)) as [[<- <-]|Hne].
  - rewrite !decide_True by done. reflexivity.
  - rewrite !decide_False by naive_solver. done.
Defined.

Lemma mv1_latest r : 0 < r → latest_below mv1 acct1 r 0 entry1.
Proof.
  intros Hr. split; [by rewrite mv1_entry|]. split; [done|]. intros j Hj.
  rewrite mv1_entry, decide_False by lia. done.
Defined.

Lemma read_latest_spec_witness : read mv1 acct1 2 = Versioned (mkVersion 0 0) (st 1 100).
Proof.
  apply (proj1 (read_latest_spec mv1 acct1 2)). exists 0, entry1.
  split_and!; [apply mv1_latest; lia|done|done].
Defined.

Lemma write_visibility_witness :
  read (write mv1 acct1 1 0 (st 2 50)).1 acct1 2 = Versioned (mkVersion 1 0) (st 2 50).
Proof.
  apply (proj1 (write_visibility mv1 acct1 1 0 (st 2 50) acct1 2)); [done|lia|lia].
Defined.

Lemma fresh_write_invalidates_witness :
  3 ∈ invalidated_readers (write mv1 acct1 1 0 (st 2 50)).2.
Proof.
  apply fresh_write_invalidates; [by rewrite mv1_entry|lia| |].
  - right. eexists 0, _. split; [apply mv1_latest; lia|set_solver].
  - intros Heq. discriminate Heq.
Defined.

Lemma rewrite_loses_readers_witness :
  2 ∉ invalidated_readers (write mv1 acct1 0 1 (st 1 70)).2.
Proof.
  apply (rewrite_loses_readers mv1 acct1 0 0 1 (st 1 70) 2 entry1).
  - apply mv1_latest. lia.
  - set_solver.
  - done.
  - intros i e (_ & Hi & _). lia.
  - intros _ Hin. vm_compute in Hin. set_solver.
Defined.

Lemma write_clear_roundtrip_witness :
  read (clear_transaction (write mv1 acct2 7 0 (st 0 9)).1 7) acct2 9 = read mv1 acct2 9.
Proof.
  apply write_clear_roundtrip. intros b. rewrite mv1_entry, decide_False by lia. done.
Defined.

Lemma committed_states_spec_witness : (acct1, st 1 100) ∈ get_committed_states mv1.
Proof.
  apply (proj2 (committed_states_spec mv1)). exists 0, entry1.
  split; [by rewrite mv1_entry|]. split; [done|]. intros j Hj.
  rewrite mv1_entry, decide_False by lia. done.
Defined.
End MVSpec.
