(* ===== verification/Scheduler.v ===== *)
(** * block-stm-executor/src/scheduler.rs

    The scheduler's state and methods, each method run alone ([Workers] runs
    them interleaved, one lock acquisition at a time).  A result [None] is the
    panic of an out-of-range index. *)

From stdpp Require Import base option list gmap.
From Stdlib Require Import ZArith Lia.
From S2P Require Import Prelude Integers Externals Types.

Module Sched.

Inductive Task : Set :=
  | Execute (idx incarnation : nat)
  | Wait
  | Done.

(** [commit_lock] is [Some t] while thread [t] holds the guard. *)
Record Scheduler : Set := mkScheduler {
  num_txns : nat;
  statuses : list ExecutionStatus;
  ready_queue : list (nat * nat);
  committed_idx : nat;
  executed_once_count : nat;
  done : bool;
  commit_lock : option nat;
}.

(** Stores to one field. *)
Definition set_statuses (l : list ExecutionStatus) (s : Scheduler) : Scheduler :=
  mkScheduler (num_txns s) l (ready_queue s) (committed_idx s)
    (executed_once_count s) (done s) (commit_lock s).
Definition set_ready_queue (q : list (nat * nat)) (s : Scheduler) : Scheduler :=
  mkScheduler (num_txns s) (statuses s) q (committed_idx s)
    (executed_once_count s) (done s) (commit_lock s).
Definition set_committed_idx (c : nat) (s : Scheduler) : Scheduler :=
  mkScheduler (num_txns s) (statuses s) (ready_queue s) c
    (executed_once_count s) (done s) (commit_lock s).
Definition set_executed_once_count (n : nat) (s : Scheduler) : Scheduler :=
  mkScheduler (num_txns s) (statuses s) (ready_queue s) (committed_idx s)
    n (done s) (commit_lock s).
Definition set_done (b : bool) (s : Scheduler) : Scheduler :=
  mkScheduler (num_txns s) (statuses s) (ready_queue s) (committed_idx s)
    (executed_once_count s) b (commit_lock s).
Definition set_commit_lock (l : option nat) (s : Scheduler) : Scheduler :=
  mkScheduler (num_txns s) (statuses s) (ready_queue s) (committed_idx s)
    (executed_once_count s) (done s) l.

Definition new (num_txns : nat) : Scheduler :=
  mkScheduler num_txns (replicate num_txns Pending)
    ((λ idx, (idx, 0)) <$> seq 0 num_txns) 0 0 false None.

(** [*self.statuses[idx].write() = st] *)
Definition store_status (self : Scheduler) (idx : nat) (st : ExecutionStatus) : option Scheduler :=
  if decide (idx < length (statuses self))
  then Some (set_statuses (<[idx := st]> (statuses self)) self)
  else None.

Definition next_task (self : Scheduler) : option (Scheduler * Task) :=
  if done self then Some (self, Done)
  else
    match ready_queue self with
    | (txn_idx, incarnation) :: queue =>
        self ← store_status (set_ready_queue queue self) txn_idx (Executing incarnation);
        Some (self, Execute txn_idx incarnation)
    | [] =>
        if num_txns self <=? committed_idx self
        then Some (set_done true self, Done)
        else Some (self, Wait)
    end.

Definition abort_transaction (self : Scheduler) (txn_idx : nat) : option Scheduler :=
  status ← statuses self !! txn_idx;
  match status with
  | Executing incarnation | Executed incarnation =>
      let new_incarnation := incarnation + 1 in
      Some (set_ready_queue (ready_queue self ++ [(txn_idx, new_incarnation)])
              (set_statuses (<[txn_idx := Pending]> (statuses self)) self))
  | _ => Some self
  end.

(** The [while] loop of [try_commit_transactions]; returns the final value of
    the local [committed_idx].  [num_txns - committed_idx] iterations suffice. *)
Fixpoint commit_loop (fuel : nat) (self : Scheduler) (committed : nat) : option (Scheduler * nat) :=
  match fuel with
  | O => Some (self, committed)
  | S fuel =>
      if committed <? num_txns self then
        status ← statuses self !! committed;
        match status with
        | Executed _ =>
            self ← store_status self committed Committed;
            commit_loop fuel (set_committed_idx (committed + 1) self) (committed + 1)
        | _ => Some (self, committed)
        end
      else Some (self, committed)
  end.

Definition try_commit_transactions (self : Scheduler) : option Scheduler :=
  '(self, committed) ← commit_loop (num_txns self - committed_idx self) self (committed_idx self);
  Some (if num_txns self <=? committed then set_done true self else self).

Fixpoint abort_all (self : Scheduler) (invalidated : list nat) : option Scheduler :=
  match invalidated with
  | [] => Some self
  | invalid_idx :: rest => self ← abort_transaction self invalid_idx; abort_all self rest
  end.

Definition finish_execution (self : Scheduler) (txn_idx incarnation : nat)
    (invalidated : list nat) : option Scheduler :=
  self ← store_status self txn_idx (Executed incarnation);
  let self :=
    if incarnation =? 0
    then set_executed_once_count (executed_once_count self + 1) self else self in
  self ← abort_all self invalidated;
  match commit_lock self with
  | None => try_commit_transactions self
  | Some _ => Some self
  end.

Definition get_status (self : Scheduler) (txn_idx : nat) : option ExecutionStatus :=
  statuses self !! txn_idx.

Definition is_committed (self : Scheduler) (txn_idx : nat) : option bool :=
  (λ st, bool_decide (st = Committed)) <$> get_status self txn_idx.

Definition is_done (self : Scheduler) : bool := done self.

Definition committed_count (self : Scheduler) : nat := committed_idx self.

Record SchedulerStats : Set := mkStats {
  pending : nat;
  executing : nat;
  executed : nat;
  committed : nat;
  total_incarnations : nat;
}.

Definition stats_add (acc : SchedulerStats) (st : ExecutionStatus) : SchedulerStats :=
  let '(mkStats p x e c t) := acc in
  match st with
  | Pending => mkStats (p + 1) x e c t
  | Executing inc => mkStats p (x + 1) e c (t + (inc + 1))
  | Executed inc => mkStats p x (e + 1) c (t + (inc + 1))
  | Committed => mkStats p x e (c + 1) t
  end.

Definition stats (self : Scheduler) : SchedulerStats :=
  foldl stats_add (mkStats 0 0 0 0 0) (statuses self).

(** ** Well-formedness and the commit frontier *)

(** The vectors have the block's length, and every queued index is one of its
    transactions. *)
Record sched_wf (s : Scheduler) : Prop := mk_wf {
  wf_statuses : length (statuses s) = num_txns s;
  wf_queue : ∀ p, p ∈ ready_queue s → p.1 < num_txns s;
  wf_committed : committed_idx s ≤ num_txns s;
  wf_done : done s = true → num_txns s ≤ committed_idx s;
}.

(** [k] is the first index from [c] on whose status is not [Executed]. *)
Definition commit_frontier (l : list ExecutionStatus) (c k : nat) : Prop :=
  c ≤ k ∧ (∀ j, c ≤ j < k → ∃ inc, l !! j = Some (Executed inc)) ∧
  (∀ inc, l !! k ≠ Some (Executed inc)).

(** The statuses after committing the indices from [c] to [k]. *)
Definition commit_range (l : list ExecutionStatus) (c k : nat) : list ExecutionStatus :=
  imap (λ i st, if decide (c ≤ i < k) then Committed else st) l.
Arguments commit_range : simpl never.

Lemma wf_new n : sched_wf (new n).
Proof.
  split; cbn; [by rewrite length_replicate| |lia|done].
  intros p (idx & -> & Hi)%list_elem_of_fmap. cbn. apply elem_of_seq in Hi. lia.
Qed.

Lemma store_status_Some self idx st :
  idx < length (statuses self) →
  store_status self idx st = Some (set_statuses (<[idx := st]> (statuses self)) self).
Proof. intros. unfold store_status. by rewrite decide_True. Qed.

Lemma store_status_None self idx st :
  length (statuses self) ≤ idx → store_status self idx st = None.
Proof. intros. unfold store_status. by rewrite decide_False by lia. Qed.

Lemma wf_set_status self idx st :
  sched_wf self → sched_wf (set_statuses (<[idx := st]> (statuses self)) self).
Proof. intros []; split; cbn; rewrite ?length_insert; done. Qed.

Lemma abort_transaction_total self idx :
  sched_wf self → idx < num_txns self →
  ∃ self', abort_transaction self idx = Some self' ∧ sched_wf self' ∧
           num_txns self' = num_txns self ∧ committed_idx self' = committed_idx self ∧
           commit_lock self' = commit_lock self ∧ done self' = done self.
Proof.
  intros Hwf Hidx. unfold abort_transaction.
  destruct (lookup_lt_is_Some_2 (statuses self) idx) as [st Hst].
  { by rewrite (wf_statuses _ Hwf). }
  rewrite Hst; cbn.
  assert (∀ inc, sched_wf
    (set_ready_queue (ready_queue self ++ [(idx, inc)])
       (set_statuses (<[idx:=Pending]> (statuses self)) self))) as Hwf'.
  { intros inc. destruct Hwf; split; cbn; rewrite ?length_insert; try done.
    intros p [Hp| ->%list_elem_of_singleton]%elem_of_app; [by apply wf_queue0|done]. }
  destruct st; eexists; split_and!; eauto.
Qed.

Lemma abort_all_total self l :
  sched_wf self → (∀ x, x ∈ l → x < num_txns self) →
  ∃ self', abort_all self l = Some self' ∧ sched_wf self' ∧
           num_txns self' = num_txns self ∧ committed_idx self' = committed_idx self ∧
           commit_lock self' = commit_lock self ∧ done self' = done self.
Proof.
  revert self. induction l as [|x l IH]; intros self Hwf Hl; [by eexists|].
  destruct (abort_transaction_total self x Hwf) as (s1 & Hs1 & Hwf1 & Hn & Hc & Hlk & Hd).
  { apply Hl. left. }
  cbn. rewrite Hs1; cbn.
  destruct (IH s1 Hwf1) as (s2 & Hs2 & ? & ? & ? & ? & ?).
  { intros y Hy. rewrite Hn. apply Hl. by right. }
  exists s2. split_and!; congruence.
Qed.

Lemma commit_range_lookup l c k i :
  commit_range l c k !! i =
  (λ st, if decide (c ≤ i < k) then Committed else st) <$> l !! i.
Proof. apply list_lookup_imap. Qed.

Lemma length_commit_range l c k : length (commit_range l c k) = length l.
Proof. apply length_imap. Qed.

Lemma commit_range_empty l c : commit_range l c c = l.
Proof.
  apply list_eq. intros i. rewrite commit_range_lookup.
  destruct (l !! i); cbn; [|done]. by rewrite decide_False by lia.
Qed.

Lemma commit_range_step l c k :
  c < k → commit_range (<[c := Committed]> l) (c + 1) k = commit_range l c k.
Proof.
  intros Hk. apply list_eq. intros i. rewrite !commit_range_lookup.
  destruct (decide (c = i)) as [<-|Hne].
  - destruct (decide (c < length l)) as [Hc|Hc].
    + rewrite list_lookup_insert_eq by done.
      destruct (lookup_lt_is_Some_2 l c Hc) as [st ->]; cbn.
      rewrite decide_False by lia. by rewrite decide_True by lia.
    + rewrite list_insert_ge by lia.
      by rewrite lookup_ge_None_2 by lia.
  - rewrite list_lookup_insert_ne by done. destruct (l !! i); cbn; [|done].
    f_equal. repeat case_decide; try done; lia.
Qed.

Lemma set_committed_idx_id s c :
  committed_idx s = c → set_committed_idx c (set_statuses (statuses s) s) = s.
Proof. intros <-. by destruct s. Qed.

(** The loop commits up to the frontier and stops there. *)
Lemma commit_loop_spec fuel self c :
  length (statuses self) = num_txns self → c ≤ num_txns self →
  num_txns self - c ≤ fuel → committed_idx self = c →
  ∃ k, commit_frontier (statuses self) c k ∧ k ≤ num_txns self ∧
       commit_loop fuel self c =
         Some (set_committed_idx k (set_statuses (commit_range (statuses self) c k) self), k).
Proof.
  revert self c. induction fuel as [|fuel IH]; intros self c Hlen Hc Hfuel Hidx; cbn [commit_loop].
  - exists c. rewrite commit_range_empty. split_and!; [|done|by rewrite set_committed_idx_id].
    split_and!; [done|lia|]. intros inc. by rewrite lookup_ge_None_2 by lia.
  - destruct (Nat.ltb_spec c (num_txns self)) as [Hlt|Hge].
    2:{ exists c. rewrite commit_range_empty.
        split_and!; [|done|by rewrite set_committed_idx_id].
        split_and!; [done|lia|]. intros inc. by rewrite lookup_ge_None_2 by lia. }
    destruct (lookup_lt_is_Some_2 (statuses self) c) as [st Hst]; [lia|].
    rewrite Hst; cbn.
    assert ((∀ inc, st ≠ Executed inc) →
      ∃ k, commit_frontier (statuses self) c k ∧ k ≤ num_txns self ∧
           Some (self, c) = Some (set_committed_idx k (set_statuses (commit_range (statuses self) c k) self), k))
      as Hstop.
    { intros Hne. exists c. rewrite commit_range_empty.
      split_and!; [|done|by rewrite set_committed_idx_id].
      split_and!; [done|lia|]. intros inc. rewrite Hst. naive_solver. }
    destruct st as [|inc|inc|]; try (by apply Hstop).
    rewrite store_status_Some by lia; cbn.
    destruct (IH (set_committed_idx (c + 1)
               (set_statuses (<[c:=Committed]> (statuses self)) self)) (c + 1))
      as (k & (Hck & Hex & Hstop') & Hk & ->); cbn in *; [by rewrite length_insert|lia..|done|].
    exists k. rewrite commit_range_step by lia. split_and!; [|done|done].
    split_and!; [lia| |].
    + intros j Hj. destruct (decide (j = c)) as [->|]; [eauto|].
      destruct (Hex j) as [inc' Hj']; [lia|].
      rewrite list_lookup_insert_ne in Hj' by done. eauto.
    + intros inc'. specialize (Hstop' inc'). by rewrite list_lookup_insert_ne in Hstop' by lia.
Qed.

Lemma try_commit_spec self :
  sched_wf self →
  ∃ k, commit_frontier (statuses self) (committed_idx self) k ∧ k ≤ num_txns self ∧
       try_commit_transactions self =
         Some (set_done (done self || (num_txns self <=? k))
                (set_committed_idx k
                  (set_statuses (commit_range (statuses self) (committed_idx self) k) self))).
Proof.
  intros Hwf. unfold try_commit_transactions.
  destruct (commit_loop_spec (num_txns self - committed_idx self) self (committed_idx self))
    as (k & Hk & Hle & ->); [apply Hwf|apply Hwf|done|done|]; cbn.
  exists k. split_and!; [done|done|]. f_equal.
  pose proof (wf_done _ Hwf). destruct Hk as (Hck & _).
  destruct (Nat.leb_spec (num_txns self) k) as [H'|H'].
  - by rewrite orb_true_r.
  - destruct (done self) eqn:Hd; [|by destruct self; simplify_eq/=].
    specialize (H eq_refl). lia.
Qed.

Lemma wf_try_commit self :
  sched_wf self →
  ∃ self', try_commit_transactions self = Some self' ∧ sched_wf self' ∧
           num_txns self' = num_txns self ∧ committed_idx self ≤ committed_idx self'.
Proof.
  intros Hwf. destruct (try_commit_spec self Hwf) as (k & (Hk & _) & Hle & ->).
  eexists; split; [done|]. split; [|done]. destruct Hwf; split; cbn in *.
  - by rewrite length_commit_range.
  - done.
  - done.
  - rewrite orb_true_iff, Nat.leb_le. intros [Hd|]; [|done]. specialize (wf_done0 Hd). lia.
Qed.

#[export] Hint Resolve wf_new wf_set_status : dbtest.
End Sched.
