(* ===== verification/SchedulerSpec.v ===== *)
(** * What the scheduler's methods do

    Each method of [Scheduler], on every branch: which statuses, queue entries
    and positions it changes, and that it never leaves the well-formed states or
    panics inside them. *)

From stdpp Require Import base option list gmap.
From Stdlib Require Import ZArith Lia.
From S2P Require Import Prelude Integers Externals Types Scheduler.

Module SchedSpec.
Import Sched.
Implicit Types (self : Scheduler) (l : list nat) (i k x : nat).

(** ** The abort loop *)

(** The queue entry an abort adds for [x], and the status it leaves. *)
Definition requeued (ss : list ExecutionStatus) (x : nat) : option (nat * nat) :=
  match ss !! x with
  | Some (Executing inc) | Some (Executed inc) => Some (x, inc + 1)
  | _ => None
  end.

Definition aborted_status (st : ExecutionStatus) : ExecutionStatus :=
  match st with Executing _ | Executed _ => Pending | _ => st end.

Definition aborted (l : list nat) (ss : list ExecutionStatus) : list ExecutionStatus :=
  imap (λ i st, if decide (i ∈ l) then aborted_status st else st) ss.
Arguments aborted : simpl never.

Lemma aborted_lookup l ss i :
  aborted l ss !! i = (λ st, if decide (i ∈ l) then aborted_status st else st) <$> ss !! i.
Proof. apply list_lookup_imap. Qed.

Lemma aborted_nil ss : aborted [] ss = ss.
Proof. apply list_eq. intros i. rewrite aborted_lookup. by destruct (ss !! i). Qed.

Lemma aborted_cons x l ss st :
  ss !! x = Some st → aborted l (<[x := aborted_status st]> ss) = aborted (x :: l) ss.
Proof.
  intros Hx. apply list_eq. intros i. rewrite !aborted_lookup.
  destruct (decide (x = i)) as [<-|Hne].
  - rewrite list_lookup_insert_eq by (by eapply lookup_lt_Some). rewrite Hx. cbn.
    rewrite (decide_True (P := x ∈ x :: l)) by left. case_decide; [|done]. by destruct st.
  - rewrite list_lookup_insert_ne by done. destruct (ss !! i); cbn; [|done].
    f_equal. repeat case_decide; set_solver.
Qed.

Lemma requeued_insert ss x st y :
  x ≠ y → requeued (<[x := st]> ss) y = requeued ss y.
Proof. intros. unfold requeued. by rewrite list_lookup_insert_ne. Qed.

Lemma abort_transaction_eq self x st :
  statuses self !! x = Some st →
  abort_transaction self x =
  Some (set_ready_queue (ready_queue self ++ option_list (requeued (statuses self) x))
         (set_statuses (<[x := aborted_status st]> (statuses self)) self)).
Proof.
  intros Hx. unfold abort_transaction, requeued. rewrite Hx; cbn.
  destruct st; cbn; rewrite ?app_nil_r, ?list_insert_id by done; by destruct self.
Qed.

Lemma abort_all_eq self l :
  NoDup l → (∀ x, x ∈ l → x < length (statuses self)) →
  abort_all self l =
  Some (set_ready_queue (ready_queue self ++ omap (requeued (statuses self)) l)
         (set_statuses (aborted l (statuses self)) self)).
Proof.
  revert self. induction l as [|x l IH]; intros self Hnd Hl; cbn.
  { rewrite app_nil_r, aborted_nil. by destruct self. }
  apply NoDup_cons in Hnd as [Hx Hnd].
  destruct (lookup_lt_is_Some_2 (statuses self) x) as [st Hst]; [apply Hl; left|].
  rewrite (abort_transaction_eq _ _ _ Hst). cbn. rewrite IH; cbn.
  - rewrite (aborted_cons x l _ st Hst), <- app_assoc.
    rewrite (list_omap_ext _ (requeued (statuses self)) l l).
    + by destruct (requeued (statuses self) x).
    + apply Forall_Forall2_diag, Forall_forall. intros y Hy. apply requeued_insert. set_solver.
  - done.
  - intros y Hy. rewrite length_insert. apply Hl. by right.
Qed.

Lemma aborted_idem l ss : aborted l (aborted l ss) = aborted l ss.
Proof.
  apply list_eq. intros i. rewrite !aborted_lookup. destruct (ss !! i) as [st|]; [|done]. cbn.
  case_decide; [|done]. by destruct st.
Qed.

Lemma omap_requeued_aborted l l' ss :
  (∀ x, x ∈ l' → x ∈ l) → omap (requeued (aborted l ss)) l' = [].
Proof.
  intros Hl. induction l' as [|x l' IH]; [done|]. cbn.
  assert (requeued (aborted l ss) x = None) as ->.
  { unfold requeued. rewrite aborted_lookup. destruct (ss !! x) as [st|]; [|done]. cbn.
    rewrite decide_True by (apply Hl; left). by destruct st. }
  apply IH. intros y Hy. apply Hl. by right.
Qed.

(** Invalidating a list of transactions, as [finish_execution] does with a
    writer's list: each one that is executing or executed goes back to
    [Pending] and is queued once, after everything already queued and in the
    order of the list, with the next incarnation; pending and committed ones,
    and all others, are untouched.  Doing it again changes nothing. *)
Theorem abort_all_requeues self l :
  NoDup l → (∀ x, x ∈ l → x < length (statuses self)) →
  ∃ self', abort_all self l = Some self' ∧
    ready_queue self' = ready_queue self ++ omap (requeued (statuses self)) l ∧
    (∀ i, statuses self' !! i =
      (if decide (i ∈ l) then aborted_status else id) <$> statuses self !! i) ∧
    committed_idx self' = committed_idx self ∧ done self' = done self ∧
    abort_all self' l = Some self'.
Proof.
  intros Hnd Hl. eexists. split; [by apply abort_all_eq|]. cbn. split_and!; [done| |done..|].
  - intros i. rewrite aborted_lookup. by case_decide.
  - rewrite abort_all_eq; cbn; [|done|by unfold aborted; rewrite length_imap].
    rewrite omap_requeued_aborted by done. rewrite aborted_idem, app_nil_r. by destruct self.
Qed.

(** ** Committing *)

(** [try_commit_transactions] commits exactly the longest run of executed
    transactions that starts at the commit position, stops at the first one
    that is not executed, leaves every other status and the queue alone, and
    sets [done] exactly when the whole block is committed; a second call
    changes nothing. *)
Theorem try_commit_prefix self :
  sched_wf self →
  ∃ k self', try_commit_transactions self = Some self' ∧
    commit_frontier (statuses self) (committed_idx self) k ∧
    committed_idx self' = k ∧ ready_queue self' = ready_queue self ∧
    (∀ i, statuses self' !! i =
      (if decide (committed_idx self ≤ i < k) then const Committed else id) <$> statuses self !! i) ∧
    (done self' = true ↔ k = num_txns self) ∧
    sched_wf self' ∧ try_commit_transactions self' = Some self'.
Proof.
  intros Hwf. destruct (try_commit_spec self Hwf) as (k & Hk & Hle & Heq).
  destruct (wf_try_commit self Hwf) as (self' & Heq' & Hwf' & Hn & _).
  exists k, self'. split; [done|]. split; [done|].
  assert (done self' = true ↔ k = num_txns self) as Hdone.
  { rewrite Heq in Heq'. simplify_eq. cbn. rewrite orb_true_iff, Nat.leb_le.
    split; [|lia]. intros [Hd|]; [|lia]. pose proof (wf_done _ Hwf Hd). destruct Hk. lia. }
  pose proof Hk as (Hck & Hex & Hstop).
  assert (∀ i, statuses self' !! i =
      (if decide (committed_idx self ≤ i < k) then const Committed else id) <$> statuses self !! i)
    as Hst.
  { intros i. rewrite Heq in Heq'. simplify_eq. cbn. rewrite commit_range_lookup. by case_decide. }
  assert (committed_idx self' = k ∧ ready_queue self' = ready_queue self) as [Hc Hq].
  { rewrite Heq in Heq'. by simplify_eq. }
  split_and!; [done..|].
  destruct (try_commit_spec self' Hwf') as (k' & (Hk1 & Hk2 & _) & Hk3 & ->).
  assert (k' = k) as ->.
  { rewrite Hc in Hk1, Hk2. destruct (decide (k < k')); [|lia].
    destruct (Hk2 k) as [inc Hinc]; [lia|]. rewrite Hst, decide_False in Hinc by lia.
    apply fmap_Some in Hinc as (st & Hs & Hinc). cbn in Hinc. subst. by apply Hstop in Hs. }
  rewrite Hc, commit_range_empty. f_equal. destruct self' as [n ss q c e d lk]; cbn in *; subst.
  unfold set_done, set_committed_idx, set_statuses; cbn. f_equal.
  destruct d; [done|]. cbn. apply Nat.leb_gt. destruct (decide (k = num_txns self)) as [E|E]; [|lia].
  by apply Hdone in E.
Qed.

(** ** Finishing *)

(** C30: [finish_execution] on every branch.  The transaction becomes
    [Executed], a first incarnation is counted, the invalidated transactions
    are re-queued; then, if the commit lock is free, the executed prefix is
    committed, and if another thread holds it nothing is committed.  It never
    panics on indices of the block and keeps the scheduler well-formed. *)
Theorem finish_execution_spec self idx inc l :
  sched_wf self → idx < num_txns self → NoDup l → (∀ x, x ∈ l → x < num_txns self) →
  let marked := <[idx := Executed inc]> (statuses self) in
  ∃ k self', finish_execution self idx inc l = Some self' ∧ sched_wf self' ∧
    statuses self' = commit_range (aborted l marked) (committed_idx self) k ∧
    ready_queue self' = ready_queue self ++ omap (requeued marked) l ∧
    executed_once_count self' = executed_once_count self + (if inc =? 0 then 1 else 0) ∧
    committed_idx self' = k ∧
    match commit_lock self with
    | None => commit_frontier (aborted l marked) (committed_idx self) k
    | Some _ => k = committed_idx self ∧ done self' = done self
    end.
Proof.
  intros Hwf Hidx Hnd Hl marked. unfold finish_execution.
  rewrite store_status_Some by (by rewrite (wf_statuses _ Hwf)). cbn.
  set (self1 := if inc =? 0 then _ else _).
  assert (statuses self1 = marked ∧ ready_queue self1 = ready_queue self ∧
    num_txns self1 = num_txns self ∧ committed_idx self1 = committed_idx self ∧
    commit_lock self1 = commit_lock self ∧ done self1 = done self ∧
    executed_once_count self1 = executed_once_count self + (if inc =? 0 then 1 else 0))
    as (H1 & H2 & H3 & H4 & H5 & H6 & H7).
  { subst self1. destruct (inc =? 0); cbn; split_and!; done || lia. }
  assert (sched_wf self1) as Hwf1.
  { destruct Hwf. split; rewrite ?H1, ?H2, ?H3, ?H4, ?H6; try done.
    subst marked. by rewrite length_insert. }
  destruct (abort_all_total self1 l Hwf1) as (self2 & Hab & Hwf2 & Hn2 & Hc2 & Hlk2 & Hd2).
  { intros x Hx. rewrite H3. by apply Hl. }
  rewrite Hab. cbn. rewrite abort_all_eq, H1, H2 in Hab; [|done|].
  2:{ intros x Hx. rewrite (wf_statuses _ Hwf1), H3. by apply Hl. }
  assert (statuses self2 = aborted l marked ∧ ready_queue self2 = ready_queue self ++ omap (requeued marked) l
    ∧ executed_once_count self2 = executed_once_count self1) as (S2 & Q2 & E2).
  { by simplify_eq/=. }
  rewrite Hlk2, H5. destruct (commit_lock self).
  - exists (committed_idx self), self2. rewrite S2, commit_range_empty. split_and!; congruence.
  - destruct (try_commit_spec self2 Hwf2) as (k & Hk & Hle & Heq).
    destruct (wf_try_commit self2 Hwf2) as (self3 & Heq' & Hwf3 & _).
    exists k, self3. split; [done|]. split; [done|]. rewrite Heq in Heq'. injection Heq' as <-. cbn.
    rewrite S2, Hc2, H4 in Hk. rewrite S2, Hc2, H4. split_and!; try done. congruence.
Qed.

(** ** Handing out tasks *)

(** [next_task] on every branch: [Done] once the flag is set; otherwise the
    oldest queued transaction, removed from the queue and marked [Executing]
    with its incarnation; with an empty queue [Done] (setting the flag) exactly
    when the whole block is committed, and [Wait] with nothing changed before
    that. *)
Theorem next_task_spec self :
  sched_wf self →
  ∃ self' task, next_task self = Some (self', task) ∧ sched_wf self' ∧
    match task with
    | Execute idx inc =>
        done self = false ∧ ready_queue self = (idx, inc) :: ready_queue self' ∧
        statuses self' = <[idx := Executing inc]> (statuses self) ∧
        statuses self' !! idx = Some (Executing inc) ∧
        committed_idx self' = committed_idx self
    | Wait => self' = self ∧ done self = false ∧ ready_queue self = [] ∧
              committed_idx self < num_txns self
    | Done => done self' = true ∧ committed_idx self = num_txns self ∧
              statuses self' = statuses self ∧ (done self = true ∨ ready_queue self = [])
    end.
Proof.
  intros Hwf. pose proof Hwf as [Hlen Hq Hc Hd]. unfold next_task.
  destruct (done self) eqn:Ed.
  { eexists _, Done. split; [done|]. specialize (Hd eq_refl). split; [done|].
    split_and!; auto; lia. }
  destruct (ready_queue self) as [|[idx inc] q] eqn:Eq.
  - destruct (Nat.leb_spec (num_txns self) (committed_idx self)).
    + eexists _, Done. split; [done|]. split; [|cbn; split_and!; auto; lia].
      split; cbn; rewrite ?Eq; auto.
    + eexists _, Wait. split; [done|]. split; done.
  - assert (idx < num_txns self) as Hidx by (apply (Hq (idx, inc)); left).
    rewrite store_status_Some by (cbn; lia). cbn.
    eexists _, (Execute idx inc). split; [done|]. cbn. split; [|split_and!; try done].
    + split; cbn; rewrite ?length_insert; try congruence. intros p Hp. apply Hq. by right.
    + apply list_lookup_insert_eq. lia.
Qed.

(** ** Statistics *)

Definition count_status (P : ExecutionStatus → bool) (ss : list ExecutionStatus) : nat :=
  sum_list ((λ st, Nat.b2n (P st)) <$> ss).

Definition is_pending (st : ExecutionStatus) : bool := match st with Pending => true | _ => false end.
Definition is_executing (st : ExecutionStatus) : bool := match st with Executing _ => true | _ => false end.
Definition is_executed (st : ExecutionStatus) : bool := match st with Executed _ => true | _ => false end.
Definition is_committed_st (st : ExecutionStatus) : bool := match st with Committed => true | _ => false end.

Definition status_incarnations (st : ExecutionStatus) : nat :=
  match st with Executing inc | Executed inc => inc + 1 | _ => 0 end.

Lemma stats_foldl ss p x e c t :
  foldl stats_add (mkStats p x e c t) ss =
  mkStats (p + count_status is_pending ss) (x + count_status is_executing ss)
    (e + count_status is_executed ss) (c + count_status is_committed_st ss)
    (t + sum_list (status_incarnations <$> ss)).
Proof.
  revert p x e c t. unfold count_status.
  induction ss as [|[] ss IH]; intros p x e c t; cbn; [by rewrite !Nat.add_0_r|..];
    rewrite IH; f_equal; lia.
Qed.

(** [stats] counts every transaction under its status and under no other:
    the four counts add up to the block, and the incarnation total adds
    [incarnation + 1] for the executing and executed ones only, so a committed
    transaction no longer contributes its executions. *)
Theorem stats_partition self :
  let s := stats self in
  pending s + executing s + executed s + committed s = length (statuses self) ∧
  pending s = count_status is_pending (statuses self) ∧
  executing s = count_status is_executing (statuses self) ∧
  executed s = count_status is_executed (statuses self) ∧
  committed s = count_status is_committed_st (statuses self) ∧
  total_incarnations s = sum_list (status_incarnations <$> statuses self).
Proof.
  cbn zeta. unfold stats. rewrite stats_foldl. cbn. split_and!; try done.
  induction (statuses self) as [|[] ss IH]; unfold count_status in *; cbn in *; lia.
Qed.

(** ** Witnesses *)

(** Transactions 0 and 1 executed, 2 executing, 3 pending. *)
Definition sched4 : Scheduler :=
  mkScheduler 4 [Executed 0; Executed 1; Executing 0; Pending] [(3, 0)] 0 2 false None.

Lemma sched4_wf : sched_wf sched4.
Proof.
  split; cbn; [done| |lia|done]. intros p ->%list_elem_of_singleton. cbn. lia.
Defined.

Lemma abort_all_requeues_witness :
  ∃ self', abort_all sched4 [1; 3] = Some self' ∧ ready_queue self' = [(3, 0); (1, 2)].
Proof.
  destruct (abort_all_requeues sched4 [1; 3]) as (self' & H & Hq & _).
  - apply NoDup_cons. split; [set_solver|apply NoDup_singleton].
  - cbn. intros x Hx. apply elem_of_cons in Hx as [->|Hx]; [lia|].
    apply list_elem_of_singleton in Hx. lia.
  - exists self'. split; [done|by rewrite Hq].
Defined.

Lemma try_commit_prefix_witness :
  ∃ self', try_commit_transactions sched4 = Some self' ∧ committed_idx self' = 2.
Proof.
  destruct (try_commit_prefix sched4 sched4_wf) as (k & self' & H & _).
  exists self'. split; [done|]. vm_compute in H. by simplify_eq.
Defined.

Lemma finish_execution_spec_witness :
  ∃ self', finish_execution sched4 2 0 [3] = Some self' ∧ committed_idx self' = 3.
Proof.
  destruct (finish_execution_spec sched4 2 0 [3] sched4_wf) as (k & self' & H & _).
  - cbn. lia.
  - apply NoDup_singleton.
  - intros x ->%list_elem_of_singleton. cbn. lia.
  - exists self'. split; [done|]. vm_compute in H. by simplify_eq.
Defined.

Lemma next_task_spec_witness :
  ∃ self', next_task sched4 = Some (self', Execute 3 0) ∧ ready_queue self' = [].
Proof.
  destruct (next_task_spec sched4 sched4_wf) as (self' & task & H & _).
  exists self'. vm_compute in H. by simplify_eq.
Defined.
End SchedSpec.
