(* ===== verification/ParallelExecutor.v ===== *)
(** * block-stm-executor/src/executor.rs, one transaction at a time

    The transaction, the executor's configuration, [read_account] and
    [execute_transaction] run without interference.  [Workers] runs the same
    pieces interleaved. *)

From stdpp Require Import base option list gmap.
From Stdlib Require Import ZArith Lia String.
From S2P Require Import Prelude Integers Externals Types MVHashMap.

Module PE.
Section PE.
Context {A : Alloy} {D : DashMapImpl Address}.

Inductive ExecutionError : Set :=
  | Permanent (reason : string)
  | Retry.

Record Transaction : Set := mkTransaction {
  from : Address;
  to : Address;
  value : U256;
  tx_nonce : Z;
  signature : Signature;
  tx_hash : B256;
}.

Definition recover_signer (self : Transaction) : option Address :=
  recover_address_from_prehash (signature self) (tx_hash self).

Definition verify_signature (self : Transaction) : bool :=
  default false ((λ addr, bool_decide (addr = from self)) <$> recover_signer self).

Record ExecutorConfig : Set := mkConfig {
  num_threads : nat;
  verify_signatures : bool;
  initial_states : gmap Address AccountState;
}.

Record ParallelExecutor : Set := mkExecutor { config : ExecutorConfig }.

Definition new (config : ExecutorConfig) : ParallelExecutor := mkExecutor config.

Record BlockExecutionResult : Set := mkResult {
  successful : Z;
  failed : Z;
  total_executions : Z;
  final_states : list (Address * AccountState);
}.

(** [initial_states.get(&address).copied().unwrap_or(AccountState::new(0, U256::ZERO))] *)
Definition initial_account (initial : gmap Address AccountState) (address : Address) : AccountState :=
  default (AccountState_new 0 u256_zero) (initial !! address).

(** The two halves of [read_account] after [mv_hashmap.read]: the account the
    result stands for, and the recording of the read. *)
Definition account_of_read (initial : gmap Address AccountState) (address : Address)
    (rr : MV.ReadResult) : AccountState :=
  match rr with
  | MV.Versioned _ state => state
  | MV.Storage => initial_account initial address
  | MV.Dependency _ => initial_account initial address
  end.

Definition record_of_read (mv : MV.MVHashMap) (address : Address) (reader_txn_idx : nat)
    (rr : MV.ReadResult) : MV.MVHashMap :=
  match rr with
  | MV.Versioned version _ => MV.record_read mv address reader_txn_idx version
  | MV.Storage => MV.record_storage_read mv address reader_txn_idx
  | MV.Dependency _ => mv
  end.

Definition read_account (address : Address) (reader_txn_idx : nat) (mv : MV.MVHashMap)
    (initial : gmap Address AccountState) : AccountState * MV.MVHashMap :=
  let rr := MV.read mv address reader_txn_idx in
  (account_of_read initial address rr, record_of_read mv address reader_txn_idx rr).

(** The nonce and balance checks; [true] is the early return of [Retry]. *)
Definition must_retry (tx : Transaction) (sender_state : AccountState) : bool :=
  negb (nonce sender_state =? tx_nonce tx)%Z || u256_lt (balance sender_state) (value tx).

Definition new_sender_state (tx : Transaction) (sender_state : AccountState) : AccountState :=
  AccountState_new (u64_add (nonce sender_state) 1)
    (u256_sub (balance sender_state) (value tx)).

Definition new_receiver_state (tx : Transaction) (receiver_state : AccountState) : AccountState :=
  AccountState_new (nonce receiver_state)
    (u256_add (balance receiver_state) (value tx)).

Definition signature_rejected (verify_signatures : bool) (tx : Transaction) : bool :=
  verify_signatures && negb (verify_signature tx).

Definition ExecutionOk : Set := list Address * list Address * list nat.

Definition execute_transaction (tx : Transaction) (txn_idx incarnation : nat)
    (mv : MV.MVHashMap) (initial : gmap Address AccountState) (verify_signatures : bool)
    : (ExecutionError + ExecutionOk) * MV.MVHashMap :=
  if signature_rejected verify_signatures tx then (inl (Permanent "Invalid signature"), mv)
  else
    let '(sender_state, mv) := read_account (from tx) txn_idx mv initial in
    if must_retry tx sender_state then (inl Retry, mv)
    else
      let '(receiver_state, mv) := read_account (to tx) txn_idx mv initial in
      let '(mv, write_result_sender) :=
        MV.write mv (from tx) txn_idx incarnation (new_sender_state tx sender_state) in
      let '(mv, write_result_receiver) :=
        MV.write mv (to tx) txn_idx incarnation (new_receiver_state tx receiver_state) in
      let invalidated :=
        vec_dedup (sort_unstable (MV.invalidated_readers write_result_sender ++
                                  MV.invalidated_readers write_result_receiver)) in
      (inr ([from tx; to tx], [from tx; to tx], invalidated), mv).
End PE.
End PE.
