(* ===== verification/ParallelExecutorSpec.v ===== *)
(** * What executing one transaction does

    The functional behaviour of [execute_transaction] on the multi-version map,
    on each of its three results: which states it writes, which reads it leaves
    recorded for invalidation, and what list it returns. *)

From stdpp Require Import base option list sorting gmap.
From Stdlib Require Import ZArith Lia.
From S2P Require Import Prelude Integers Externals Types MVHashMap MVHashMapSpec ParallelExecutor.

Module PESpec.

Section Spec.
Context {A : Alloy} {D : DashMapImpl Address} {DL : DashMapLaws D}.
Implicit Types (m : MV.MVHashMap) (a : Address) (i j k w r : nat) (tx : PE.Transaction).

(** The state a transaction left at an address. *)
Definition state_at m a i : option AccountState := MV.state <$> MV.entry_at m a i.

Lemma state_at_None m a i : state_at m a i = None ↔ MV.entry_at m a i = None.
Proof. apply fmap_None. Qed.

Lemma state_at_record m a r rr a' i : state_at (PE.record_of_read m a r rr) a' i = state_at m a' i.
Proof.
  unfold state_at. destruct rr as [v s| |]; [|done..]. cbn. rewrite MV.entry_at_record_read.
  case_decide; [|done]. destruct (MV.entry_at m a' i); [|done]. cbn. by case_decide.
Qed.

Lemma state_at_write m a a' w i inc s :
  state_at (MV.write m a w inc s).1 a' i =
  if decide (a = a' ∧ w = i) then Some s else state_at m a' i.
Proof. unfold state_at. rewrite MV.entry_at_write. by case_decide. Qed.

(** ** Recorded reads *)

(** Recording changes neither the states nor the versions, only the readers. *)
Lemma entry_at_record m a r rr a' i :
  MV.entry_at (PE.record_of_read m a r rr) a' i = MV.entry_at m a' i ∨
  ∃ e, MV.entry_at m a' i = Some e ∧
    MV.entry_at (PE.record_of_read m a r rr) a' i =
      Some (MV.mkEntry (MV.version e) (MV.state e) (MV.readers e ++ [r])).
Proof.
  destruct rr as [v s| |]; [|by left..]. cbn. rewrite MV.entry_at_record_read.
  case_decide; [|by left]. destruct (MV.entry_at m a' i) as [e|]; [|by left]. cbn.
  case_decide; [right; eauto|by left].
Qed.

Lemma entry_at_record_None m a r rr a' i :
  MV.entry_at (PE.record_of_read m a r rr) a' i = None ↔ MV.entry_at m a' i = None.
Proof. destruct (entry_at_record m a r rr a' i) as [->|(e & -> & ->)]; done. Qed.

Lemma read_record m a r rr a' k :
  MV.read (PE.record_of_read m a r rr) a' k = MV.read m a' k.
Proof.
  destruct (MV.latest_below_or_none m a' k) as [Hn|(i & e & He & Hi & Hmax)].
  - rewrite !MV.read_no_version; [done|done|]. intros j Hj.
    apply entry_at_record_None. by apply Hn.
  - rewrite (MV.read_latest_below m a' k i e) by done.
    destruct (entry_at_record m a r rr a' i) as [E|(e' & Ee & E)].
    + apply (MV.read_latest_below _ _ _ i). split_and!; [by rewrite E|done|].
      intros j Hj. apply entry_at_record_None. by apply Hmax.
    + rewrite He in Ee. simplify_eq.
      rewrite (MV.read_latest_below _ _ _ i _ (conj E (conj Hi (λ j Hj, proj2 (entry_at_record_None _ _ _ _ _ _) (Hmax j Hj))))).
      done.
Qed.

(** Recording what was just read makes the read a recorded one. *)
Lemma record_read_recorded m a r :
  MV.mv_wf m → MVSpec.read_recorded (PE.record_of_read m a r (MV.read m a r)) a r.
Proof.
  intros Hwf. destruct (MV.latest_below_or_none m a r) as [Hn|(i & e & Hl)].
  - rewrite (MV.read_no_version _ _ _ Hn). left. split; [done|]. cbn.
    rewrite MV.storage_readers_at_record_storage_read, decide_True by done.
    apply elem_of_app. right. by left.
  - rewrite (MV.read_latest_below _ _ _ _ _ Hl). right.
    destruct Hl as (He & Hi & Hmax). pose proof (Hwf _ _ _ He) as Hv. cbn.
    exists i. unfold MV.latest_below. setoid_rewrite MV.entry_at_record_read.
    rewrite He, Hv. rewrite decide_True by done. cbn. eexists. split_and!; [done|done| |].
    + intros j Hj. rewrite decide_False by lia. by apply Hmax.
    + case_decide as Hd; cbn; [apply elem_of_app; right; by left|].
      destruct (decide (r ∈ MV.readers e)); [done|]. by destruct Hd.
Qed.

Lemma storage_readers_at_record m a r rr a' x :
  x ∈ MV.storage_readers_at m a' → x ∈ MV.storage_readers_at (PE.record_of_read m a r rr) a'.
Proof.
  destruct rr as [v s| |]; cbn; [by rewrite MV.storage_readers_at_record_read| |done].
  rewrite MV.storage_readers_at_record_storage_read. set_solver.
Qed.

(** A recorded read stays recorded when others are, and when a transaction that
    is not below the reader writes. *)
Lemma read_recorded_record m a r rr a' r' :
  MVSpec.read_recorded m a' r' → MVSpec.read_recorded (PE.record_of_read m a r rr) a' r'.
Proof.
  intros [[Hn Hin]|(i & e & (He & Hi & Hmax) & Hin)].
  - left. split; [|by apply storage_readers_at_record].
    intros j Hj. by apply entry_at_record_None, Hn.
  - right. exists i. assert (∀ j, i < j < r' →
      MV.entry_at (PE.record_of_read m a r rr) a' j = None) as Hmax'.
    { intros j Hj. by apply entry_at_record_None, Hmax. }
    destruct (entry_at_record m a r rr a' i) as [E|(e' & Ee & E)].
    + exists e. split; [|done]. split_and!; [by rewrite E|done..].
    + rewrite He in Ee. simplify_eq. eexists. split; [split_and!; [exact E|done..]|].
      cbn. apply elem_of_app. by left.
Qed.

Lemma read_recorded_write m a w inc s a' r :
  r ≤ w → MVSpec.read_recorded m a' r → MVSpec.read_recorded (MV.write m a w inc s).1 a' r.
Proof.
  intros Hw [[Hn Hin]|(i & e & (He & Hi & Hmax) & Hin)].
  - left. rewrite MV.storage_readers_at_write. split; [|done]. intros j Hj.
    rewrite MV.entry_at_write, decide_False by lia. by apply Hn.
  - right. exists i, e. split; [|done]. split_and!; [|done|].
    + by rewrite MV.entry_at_write, decide_False by lia.
    + intros j Hj. rewrite MV.entry_at_write, decide_False by lia. by apply Hmax.
Qed.

(** ** Who is invalidated *)

(** [x] is among the recorded readers of what [i] reads at [a]: of the latest
    version below [i], or of storage if there is none. *)
Definition reads_below m a i x : Prop :=
  (MV.no_version_below m a i ∧ x ∈ MV.storage_readers_at m a) ∨
  ∃ j e, MV.latest_below m a i j e ∧ x ∈ MV.readers e.

Lemma write_invalidates m a w inc s x :
  x ∈ MV.invalidated_readers (MV.write m a w inc s).2 ↔ w < x ∧ reads_below m a w x.
Proof. apply MV.elem_of_write_invalidated. Qed.

Lemma no_version_below_record m a r rr a' i :
  MV.no_version_below (PE.record_of_read m a r rr) a' i ↔ MV.no_version_below m a' i.
Proof. split; intros H j Hj; by eapply entry_at_record_None, H. Qed.

Lemma storage_readers_at_record_ne m a r rr a' x :
  x ≠ r → x ∈ MV.storage_readers_at (PE.record_of_read m a r rr) a' ↔ x ∈ MV.storage_readers_at m a'.
Proof.
  intros Hx. destruct rr as [v s| |]; cbn; [by rewrite MV.storage_readers_at_record_read| |done].
  rewrite MV.storage_readers_at_record_storage_read, elem_of_app.
  case_decide; [rewrite list_elem_of_singleton|rewrite elem_of_nil]; tauto.
Qed.

(** A recorded read adds its own reader and no other. *)
Lemma reads_below_record m a r rr a' i x :
  x ≠ r → reads_below (PE.record_of_read m a r rr) a' i x ↔ reads_below m a' i x.
Proof.
  intros Hx. unfold reads_below, MV.latest_below. setoid_rewrite (entry_at_record_None m a r rr a').
  rewrite no_version_below_record, storage_readers_at_record_ne by done.
  apply or_iff_compat_l. split; intros (j & e & (He & Hj & Hmax) & Hin);
    destruct (entry_at_record m a r rr a' j) as [E|(e' & Ee & E)]; try rewrite E in He; simplify_eq.
  - by exists j, e.
  - exists j, e'. split; [done|]. apply elem_of_app in Hin as [?|?%list_elem_of_singleton]; done.
  - exists j, e. by rewrite E.
  - eexists j, _. split; [by rewrite E|]. cbn. apply elem_of_app. by left.
Qed.

(** Nor does a write change who has read below it. *)
Lemma reads_below_write m a a' w inc s x :
  reads_below (MV.write m a w inc s).1 a' w x ↔ reads_below m a' w x.
Proof.
  assert (∀ j, j < w → MV.entry_at (MV.write m a w inc s).1 a' j = MV.entry_at m a' j) as E.
  { intros j Hj. by rewrite MV.entry_at_write, decide_False by lia. }
  unfold reads_below, MV.latest_below, MV.no_version_below. rewrite MV.storage_readers_at_write.
  split; (intros [[Hn Hin]|(j & e & (He & Hj & Hmax) & Hin)];
    [left; split; [|done]; intros j Hj; specialize (Hn j Hj); by rewrite E in * by lia|
     right; exists j, e; split; [|done]; split_and!; [by rewrite E in * by lia|done|];
     intros k Hk; specialize (Hmax k Hk); by rewrite E in * by lia]).
Qed.

(** ** execute_transaction *)

Lemma mv_wf_record m a r rr : MV.mv_wf m → MV.mv_wf (PE.record_of_read m a r rr).
Proof. destruct rr; cbn; auto using MV.mv_wf_record_read. Qed.

(** C25: [execute_transaction] on each result.  A permanent failure happens
    exactly for a rejected signature and touches nothing.  [Retry] happens
    exactly for an accepted signature with a wrong nonce or too little balance
    in the state the sender's read returns; no state changes, and the sender's
    read is recorded.  Otherwise the two new states, computed from what the
    reads returned, are the transaction's versions of sender and receiver (the
    receiver's wins if they are the same account), no other state changes, both
    reads are recorded, and the returned list is strictly increasing and holds
    exactly the higher transactions that were recorded, before this execution,
    as readers of the version of sender or receiver that it read itself. *)
Theorem execute_transaction_spec tx i inc m initial v :
  MV.mv_wf m →
  let '(result, m') := PE.execute_transaction tx i inc m initial v in
  let s := PE.account_of_read initial (PE.from tx) (MV.read m (PE.from tx) i) in
  let r := PE.account_of_read initial (PE.to tx) (MV.read m (PE.to tx) i) in
  MV.mv_wf m' ∧
  match result with
  | inl (PE.Permanent _) => PE.signature_rejected v tx = true ∧ m' = m
  | inl PE.Retry =>
      PE.signature_rejected v tx = false ∧ PE.must_retry tx s = true ∧
      (∀ a j, state_at m' a j = state_at m a j) ∧ MVSpec.read_recorded m' (PE.from tx) i
  | inr (rd, wr, inv) =>
      PE.signature_rejected v tx = false ∧ PE.must_retry tx s = false ∧
      rd = [PE.from tx; PE.to tx] ∧ wr = [PE.from tx; PE.to tx] ∧
      (∀ a j, state_at m' a j =
        if decide (a = PE.to tx ∧ j = i) then Some (PE.new_receiver_state tx r)
        else if decide (a = PE.from tx ∧ j = i) then Some (PE.new_sender_state tx s)
        else state_at m a j) ∧
      MVSpec.read_recorded m' (PE.from tx) i ∧ MVSpec.read_recorded m' (PE.to tx) i ∧
      StronglySorted (<) inv ∧
      (∀ x, x ∈ inv ↔ i < x ∧ (reads_below m (PE.from tx) i x ∨ reads_below m (PE.to tx) i x))
  end.
Proof.
  intros Hwf. unfold PE.execute_transaction.
  destruct (PE.signature_rejected v tx); [done|]. unfold PE.read_account.
  pose proof (record_read_recorded m (PE.from tx) i Hwf) as Hrec1.
  pose proof (mv_wf_record m (PE.from tx) i (MV.read m (PE.from tx) i) Hwf) as Hwf1.
  pose proof (λ a k, read_record m (PE.from tx) i (MV.read m (PE.from tx) i) a k) as Hrd.
  pose proof (λ a j, state_at_record m (PE.from tx) i (MV.read m (PE.from tx) i) a j) as Hst1.
  pose proof (λ a x, reads_below_record m (PE.from tx) i (MV.read m (PE.from tx) i) a i x) as Hb1.
  set (m1 := PE.record_of_read _ _ _ _) in *. clearbody m1.
  set (s := PE.account_of_read _ _ _). cbn.
  destruct (PE.must_retry tx s) eqn:Hretry; [done|].
  rewrite Hrd. set (r := PE.account_of_read _ _ _).
  pose proof (record_read_recorded m1 (PE.to tx) i Hwf1) as Hrec2. rewrite Hrd in Hrec2.
  pose proof (mv_wf_record m1 (PE.to tx) i (MV.read m (PE.to tx) i) Hwf1) as Hwf2.
  apply (read_recorded_record m1 (PE.to tx) i (MV.read m (PE.to tx) i)) in Hrec1.
  pose proof (λ a j, state_at_record m1 (PE.to tx) i (MV.read m (PE.to tx) i) a j) as Hst2.
  pose proof (λ a x, reads_below_record m1 (PE.to tx) i (MV.read m (PE.to tx) i) a i x) as Hb2.
  set (m2 := PE.record_of_read m1 _ _ _) in *. clearbody m2.
  set (s' := PE.new_sender_state tx s). set (r' := PE.new_receiver_state tx r).
  pose proof (λ a j, state_at_write m2 (PE.from tx) a i j inc s') as Hw1.
  pose proof (λ a, read_recorded_write m2 (PE.from tx) i inc s' a i (le_n i)) as Hr1.
  pose proof (MV.mv_wf_write m2 (PE.from tx) i inc s' Hwf2) as Hwf3.
  pose proof (λ x, write_invalidates m2 (PE.from tx) i inc s' x) as Hi1.
  pose proof (λ a x, reads_below_write m2 (PE.from tx) a i inc s' x) as Hb3.
  destruct (MV.write m2 _ _ _ _) as [m3 res1]. cbn in *.
  pose proof (λ a j, state_at_write m3 (PE.to tx) a i j inc r') as Hw2.
  pose proof (λ a, read_recorded_write m3 (PE.to tx) i inc r' a i (le_n i)) as Hr2.
  pose proof (MV.mv_wf_write m3 (PE.to tx) i inc r' Hwf3) as Hwf4.
  pose proof (λ x, write_invalidates m3 (PE.to tx) i inc r' x) as Hi2.
  destruct (MV.write m3 _ _ _ _) as [m4 res2]. cbn in *.
  split; [done|]. split_and!; auto using dedup_sort_sorted.
  - intros a j. rewrite Hw2, Hw1, Hst2, Hst1. repeat case_decide; naive_solver.
  - intros x. rewrite elem_of_dedup_sort, elem_of_app, Hi1, Hi2, Hb3.
    destruct (decide (i < x)); [|tauto]. rewrite !Hb2, !Hb1 by lia. tauto.
Qed.
End Spec.

(** Account 1 pays 30 wei to account 2 in the map of [MVSpec.mv1]. *)
Lemma mv1_wf : MV.mv_wf MVSpec.mv1.
Proof. intros a i e. rewrite MVSpec.mv1_entry. case_decide; naive_solver. Qed.

Definition pay : PE.Transaction :=
  PE.mkTransaction MVSpec.acct1 MVSpec.acct2 (u256_of 30) 1 None (u256_of 0).

(** Transaction 1 pays; the recorded reader of the version it reads is returned. *)
Definition paid : bool :=
  match (PE.execute_transaction pay 1 0 MVSpec.mv1 ∅ false).1 with
  | inr (_, _, inv) => bool_decide (2 ∈ inv)
  | inl _ => false
  end.

Lemma execute_transaction_spec_witness :
  ∃ rd wr inv m', PE.execute_transaction pay 1 0 MVSpec.mv1 ∅ false = (inr (rd, wr, inv), m') ∧
    2 ∈ inv ∧ StronglySorted (<) inv ∧ (∀ x, x ∈ inv → 1 < x).
Proof.
  pose proof (execute_transaction_spec pay 1 0 MVSpec.mv1 ∅ false mv1_wf) as H.
  assert (paid = true) as Hp by by_compute. unfold paid in Hp.
  destruct (PE.execute_transaction pay 1 0 MVSpec.mv1 ∅ false) as [[e|[[rd wr] inv]] m']; [done|].
  exists rd, wr, inv, m'. destruct H as (_ & _ & _ & _ & _ & _ & _ & _ & Hs & Hinv).
  apply bool_decide_eq_true in Hp. split_and!; [done..|]. intros x Hx. by apply Hinv.
Defined.
End PESpec.
