(* ===== verification/Ledger.v ===== *)
(** * The reference: transfers applied one after the other

    The abstract specification of every executor.  A ledger is the part of the
    state a block has changed, over the initial accounts; a transaction either
    is rejected and leaves it alone, or moves its value. *)

From stdpp Require Import base option list gmap.
From Stdlib Require Import ZArith Lia.
From S2P Require Import Prelude Integers Externals Types ParallelExecutor.

Module Ledger.
Section Ledger.
Context {A : Alloy}.
Implicit Types (l : gmap Address AccountState) (tx : PE.Transaction).

(** The account at an address: the changed one, or the initial one. *)
Definition account (initial l : gmap Address AccountState) (a : Address) : AccountState :=
  default (PE.initial_account initial a) (l !! a).

Definition transfer (initial l : gmap Address AccountState) tx : gmap Address AccountState :=
  let sender := account initial l (PE.from tx) in
  let receiver := account initial l (PE.to tx) in
  <[PE.to tx := PE.new_receiver_state tx receiver]>
    (<[PE.from tx := PE.new_sender_state tx sender]> l).

Definition apply (verify : bool) (initial l : gmap Address AccountState) tx
    : gmap Address AccountState :=
  if PE.signature_rejected verify tx then l
  else if PE.must_retry tx (account initial l (PE.from tx)) then l
  else transfer initial l tx.

Definition run (verify : bool) (initial : gmap Address AccountState)
    (txs : list PE.Transaction) (l : gmap Address AccountState) : gmap Address AccountState :=
  foldl (apply verify initial) l txs.

Lemma ledger_run_app verify initial txs txs' l :
  run verify initial (txs ++ txs') l = run verify initial txs' (run verify initial txs l).
Proof. apply foldl_app. Qed.

Lemma run_snoc verify initial txs tx l :
  run verify initial (txs ++ [tx]) l =
  apply verify initial (run verify initial txs l) tx.
Proof. by rewrite ledger_run_app. Qed.

(** The transfer's effect on an account when sender and receiver differ. *)
Lemma account_transfer initial l tx a :
  PE.from tx ≠ PE.to tx →
  account initial (transfer initial l tx) a =
  if decide (a = PE.to tx) then PE.new_receiver_state tx (account initial l a)
  else if decide (a = PE.from tx) then PE.new_sender_state tx (account initial l a)
  else account initial l a.
Proof.
  intros Hne. unfold transfer, account. rewrite !lookup_insert.
  repeat case_decide; simplify_eq; done.
Qed.
End Ledger.
End Ledger.
