(* ===== verification/MVSerial.v ===== *)
(** * When a multi-version map is the serial ledger

    What the map must satisfy at the end of a block, whatever the schedule was:
    if each transaction's versions are the ones it writes when it reads from the
    map, the final states are the transactions applied in block order.  This is
    the condition a validation phase would check; [Ordered] shows the runs that
    satisfy it without one. *)

From stdpp Require Import base option list gmap.
From Stdlib Require Import ZArith Lia.
From S2P Require Import Prelude Integers Externals Types MVHashMap MVHashMapSpec ParallelExecutor.
From S2P Require Import ParallelExecutorSpec Ledger.

Module Serial.
Import PESpec.

Section Serial.
Context {A : Alloy} {D : DashMapImpl Address} {DL : DashMapLaws D}.
Context (initial : gmap Address AccountState) (verify : bool).
Implicit Types (m : MV.MVHashMap) (a : Address) (i k x : nat) (tx : PE.Transaction)
  (txs : list PE.Transaction) (s r : AccountState).

Abbreviation ledger l := (Ledger.run verify initial l ∅).

(** The last write of each address. *)
Definition as_map (ws : list (Address * AccountState)) : gmap Address AccountState :=
  foldl (λ l w, <[w.1 := w.2]> l) ∅ ws.

Lemma as_map_snoc ws w : as_map (ws ++ [w]) = <[w.1 := w.2]> (as_map ws).
Proof. unfold as_map. by rewrite foldl_snoc. Qed.

(** The account [i] reads at [a]. *)
Definition view m a i : AccountState := PE.account_of_read initial a (MV.read m a i).

(** ** What a transaction writes, given the accounts it reads *)

Definition sender_write tx s : Address * AccountState := (PE.from tx, PE.new_sender_state tx s).
Definition receiver_write tx r : Address * AccountState := (PE.to tx, PE.new_receiver_state tx r).

Definition writes_of tx s r : list (Address * AccountState) :=
  if PE.signature_rejected verify tx then []
  else if PE.must_retry tx s then []
  else [sender_write tx s; receiver_write tx r].

(** What [i] writes, reading from [m]. *)
Definition writes m i tx : list (Address * AccountState) :=
  writes_of tx (view m (PE.from tx) i) (view m (PE.to tx) i).

Lemma writes_of_touched tx s r a st :
  as_map (writes_of tx s r) !! a = Some st → a = PE.from tx ∨ a = PE.to tx.
Proof.
  unfold writes_of. destruct (PE.signature_rejected _ _); [done|]. destruct (PE.must_retry _ _); [done|].
  cbn. intros [[<- _]|[_ [[<- _]|[_ [=]]]%lookup_insert_Some]]%lookup_insert_Some; auto.
Qed.

Lemma apply_writes l tx a :
  Ledger.apply verify initial l tx !! a =
  match as_map (writes_of tx (Ledger.account initial l (PE.from tx))
                  (Ledger.account initial l (PE.to tx))) !! a with
  | Some st => Some st
  | None => l !! a
  end.
Proof.
  unfold Ledger.apply, Ledger.transfer, writes_of.
  destruct (PE.signature_rejected _ _); [done|]. destruct (PE.must_retry _ _); [done|].
  cbn. rewrite !lookup_insert, lookup_empty. by repeat case_decide.
Qed.

(** ** The latest version *)

(** The state of the latest version of [a] below [k]. *)
Fixpoint latest m a (k : nat) : option AccountState :=
  match k with
  | 0 => None
  | S k => match state_at m a k with Some s => Some s | None => latest m a k end
  end.

Lemma latest_Some m a k s :
  latest m a k = Some s ↔
  ∃ i, i < k ∧ state_at m a i = Some s ∧ ∀ j, i < j < k → state_at m a j = None.
Proof.
  revert s. induction k as [|k IH]; intros s; cbn; [split; [done|intros (i & Hi & _); lia]|].
  destruct (state_at m a k) as [s'|] eqn:E.
  - split.
    + intros [= <-]. exists k. split_and!; [lia|done|lia].
    + intros (i & Hi & Hs & Hmax). destruct (decide (i = k)) as [->|]; [congruence|].
      rewrite Hmax in E by lia. done.
  - rewrite IH. split; intros (i & Hi & Hs & Hmax).
    + exists i. split_and!; [lia|done|]. intros j Hj. destruct (decide (j = k)) as [->|]; [done|].
      apply Hmax. lia.
    + assert (i ≠ k) by congruence. exists i. split_and!; [lia|done|]. intros j Hj. apply Hmax. lia.
Qed.

Lemma view_latest m a k : view m a k = default (PE.initial_account initial a) (latest m a k).
Proof.
  unfold view. destruct (MV.latest_below_or_none m a k) as [Hn|(i & e & Hl)].
  - rewrite (MV.read_no_version _ _ _ Hn).
    replace (latest m a k) with (@None AccountState); [done|]. symmetry. clear - Hn.
    induction k as [|k IH]; [done|]. cbn.
    rewrite (proj2 (state_at_None _ _ _)) by (apply Hn; lia).
    apply IH. intros j Hj. apply Hn. lia.
  - rewrite (MV.read_latest_below _ _ _ _ _ Hl). destruct Hl as (He & Hi & Hmax).
    rewrite (proj2 (latest_Some m a k (MV.state e))); [done|].
    exists i. unfold state_at at 1. rewrite He. split_and!; [done..|].
    intros j Hj. by apply state_at_None, Hmax.
Qed.

(** A read depends on the states below the reader only. *)
Lemma latest_ext m m' a k : (∀ i, i < k → state_at m' a i = state_at m a i) → latest m' a k = latest m a k.
Proof.
  induction k as [|k IH]; intros H; [done|]. cbn. rewrite H by lia. rewrite IH; [done|]. auto.
Qed.

Lemma view_ext m m' a k : (∀ i, i < k → state_at m' a i = state_at m a i) → view m' a k = view m a k.
Proof. intros H. by rewrite !view_latest, (latest_ext _ _ _ _ H). Qed.

(** ** Consistent maps *)

Record consistent txs m : Prop := {
  cs_writes : ∀ i tx a, txs !! i = Some tx → state_at m a i = as_map (writes m i tx) !! a;
  cs_range : ∀ i a, length txs ≤ i → state_at m a i = None;
}.

Lemma consistent_prefix txs m k a :
  consistent txs m → k ≤ length txs → ledger (take k txs) !! a = latest m a k.
Proof.
  intros [Hw _]. revert a. induction k as [|k IH]; intros a Hk.
  { rewrite take_0. apply lookup_empty. }
  destruct (lookup_lt_is_Some_2 txs k Hk) as [tx Htx].
  rewrite (take_S_r _ _ tx Htx), Ledger.run_snoc, apply_writes. cbn. rewrite (Hw _ _ _ Htx).
  unfold writes. rewrite !view_latest, <- !IH by lia. unfold Ledger.account.
  by destruct (as_map _ !! a); rewrite <- ?IH by lia.
Qed.

Lemma consistent_ledger txs m a s :
  consistent txs m → (a, s) ∈ MV.get_committed_states m ↔ ledger txs !! a = Some s.
Proof.
  intros Hc. rewrite <- (take_ge txs (length txs)) at 1 by done.
  rewrite (consistent_prefix _ _ _ _ Hc) by done. destruct Hc as [_ Hr].
  rewrite latest_Some, MV.elem_of_get_committed_states. unfold state_at in *. split.
  - intros (i & e & He & <- & Hmax). exists i. rewrite He. split_and!; [|done|].
    + destruct (decide (i < length txs)); [done|]. specialize (Hr i a ltac:(lia)). by rewrite He in Hr.
    + intros j Hj. by rewrite Hmax by lia.
  - intros (i & Hi & (e & He & ->)%fmap_Some & Hmax). exists i, e. split_and!; [done..|].
    intros j Hj. apply (fmap_None MV.state). destruct (decide (j < length txs)); [apply Hmax|apply Hr]; lia.
Qed.

(** ** Validation by running every transaction again *)

(** [execute_transaction] on the states. *)
Lemma state_at_execute m i inc tx a k :
  state_at (PE.execute_transaction tx i inc m initial verify).2 a k =
  match (if decide (k = i) then as_map (writes m i tx) !! a else None) with
  | Some s => Some s
  | None => state_at m a k
  end.
Proof.
  unfold PE.execute_transaction, writes, writes_of, view.
  destruct (PE.signature_rejected verify tx); [by case_decide|]. cbn.
  destruct (PE.must_retry _ _); [by case_decide; cbn; rewrite state_at_record|]. rewrite read_record.
  set (m2 := PE.record_of_read _ _ _ _).
  assert (state_at m2 a k = state_at m a k) as Hm2 by (subst m2; by rewrite !state_at_record).
  clearbody m2. set (s' := PE.new_sender_state _ _). set (r' := PE.new_receiver_state _ _).
  pose proof (state_at_write m2 (PE.from tx) a i k inc s') as H1.
  destruct (MV.write m2 _ _ _ _) as [m3 w3]. cbn in *.
  pose proof (state_at_write m3 (PE.to tx) a i k inc r') as H2.
  destruct (MV.write m3 _ _ _ _) as [m4 w4]. cbn in *.
  rewrite H2, H1, Hm2. destruct (decide (k = i)) as [->|Hk].
  - rewrite !lookup_insert, lookup_empty. repeat case_decide; naive_solver.
  - by rewrite !decide_False by naive_solver.
Qed.

Lemma state_at_clear m i a k :
  state_at (MV.clear_transaction m i) a k = if decide (i = k) then None else state_at m a k.
Proof. unfold state_at. rewrite MV.entry_at_clear_transaction. by case_decide. Qed.

Lemma view_clear m i a : view (MV.clear_transaction m i) a i = view m a i.
Proof. apply view_ext. intros j Hj. rewrite state_at_clear. case_decide; [lia|done]. Qed.

(** Consistent maps are the validated ones. *)
Lemma consistent_validated txs m i tx a k :
  consistent txs m → txs !! i = Some tx →
  state_at (PE.execute_transaction tx i 0 (MV.clear_transaction m i) initial verify).2 a k =
  state_at m a k.
Proof.
  intros [Hw _] Htx. rewrite state_at_execute. unfold writes. rewrite !view_clear, state_at_clear.
  destruct (decide (k = i)) as [->|]; [|by rewrite decide_False].
  rewrite decide_True by done. rewrite (Hw _ _ _ Htx). unfold writes. by destruct (as_map _ !! a).
Qed.

(** Executing a block in order, without a scheduler. *)
Definition in_order txs : nat * MV.MVHashMap :=
  foldl (λ '(i, m) tx, (S i, (PE.execute_transaction tx i 0 m initial verify).2)) (0, MV.new) txs.

Lemma in_order_consistent txs : (in_order txs).1 = length txs ∧ consistent txs (in_order txs).2.
Proof.
  unfold in_order. induction txs as [|tx txs [Hi [Hw Hr]]] using rev_ind.
  { split; [done|]. split; [done|]. intros i a _. apply state_at_None, MV.entry_at_new. }
  rewrite foldl_snoc. destruct (foldl _ _ txs) as [n m]. cbn [fst snd] in *. subst n.
  split; [rewrite length_app; cbn; lia|].
  assert (∀ i a, i ≤ length txs →
    view (PE.execute_transaction tx (length txs) 0 m initial verify).2 a i = view m a i) as Hview.
  { intros i a Hle. apply view_ext. intros j Hj. by rewrite state_at_execute, decide_False by lia. }
  split.
  - intros i tx' a Htx. unfold writes. rewrite !Hview, state_at_execute
      by (apply lookup_lt_Some in Htx; rewrite length_app in Htx; cbn in Htx; lia).
    apply lookup_snoc_Some in Htx as [[Hlt Htx]|[-> <-]].
    + rewrite decide_False by lia. by apply Hw.
    + rewrite decide_True, (Hr _ a (le_n _)) by done. unfold writes. by destruct (as_map _ !! a).
  - intros i a Hlt. rewrite length_app in Hlt. cbn in Hlt. rewrite state_at_execute, decide_False by lia.
    apply Hr. lia.
Qed.

(** C6: A validated map is the serial ledger.  Take any map without versions
    beyond the block; if clearing any transaction's versions with
    [clear_transaction] and running [execute_transaction] again gives back the
    states it had, then [get_committed_states] are the accounts of the block's
    transactions applied one after the other. *)
Theorem validated_map_serial txs m :
  (∀ i tx a k, txs !! i = Some tx →
    state_at (PE.execute_transaction tx i 0 (MV.clear_transaction m i) initial verify).2 a k =
    state_at m a k) →
  (∀ i a, length txs ≤ i → MV.entry_at m a i = None) →
  ∀ a s, (a, s) ∈ MV.get_committed_states m ↔ ledger txs !! a = Some s.
Proof.
  intros Hv Hr a s. apply consistent_ledger. split; [|intros; by apply state_at_None, Hr].
  intros i tx b Htx. rewrite <- (Hv i tx b i Htx), state_at_execute, decide_True by done.
  unfold writes. rewrite !view_clear, state_at_clear, decide_True by done. by destruct (as_map _ !! b).
Qed.
End Serial.

(** ** Witness *)

Definition acct (z : Z) : Address := addr_of z.

Definition pay (f t v n : Z) : PE.Transaction :=
  PE.mkTransaction (acct f) (acct t) (u256_of v) n None (u256_of 0).

Definition chain : list PE.Transaction := [pay 9 1 10 0; pay 1 2 1 0; pay 1 3 1 1].

Definition funded : gmap Address AccountState :=
  list_to_map ((λ a, (acct a, AccountState_new 0 (u256_of 1000))) <$> [1; 2; 3; 9]%Z).

Lemma validated_map_serial_witness :
  (acct 1, AccountState_new 2 (u256_of 1008)) ∈
    MV.get_committed_states (in_order funded false chain).2.
Proof.
  destruct (in_order_consistent funded false chain) as [_ Hc].
  apply (validated_map_serial funded false chain (in_order funded false chain).2).
  - intros i tx a k Htx. by apply (consistent_validated funded false chain).
  - intros i a Hi. apply state_at_None, (cs_range _ _ _ _ Hc). exact Hi.
  - by_compute.
Defined.
End Serial.
