(* ===== verification/LedgerSpec.v ===== *)
(** * What transfers do to the ledger

    Conservation of the total balance, protection against replays, and the case
    both depend on: that the sender is not its own receiver. *)

From stdpp Require Import base option list gmap.
From Stdlib Require Import ZArith Lia.
From S2P Require Import Prelude Integers Externals Types ParallelExecutor Ledger.

Module LedgerSpec.
Import Ledger.

Section Transfers.
Context {A : Alloy} {AL : AlloyLaws A}.
Context (initial : gmap Address AccountState) (verify : bool).
Implicit Types (l : gmap Address AccountState) (tx : PE.Transaction) (addrs : list Address).

Definition balance_of l (a : Address) : Z := u256_val (balance (account initial l a)).

(** The balances of a list of accounts. *)
Definition total l addrs : Z := sum_Z (balance_of l) addrs.

Lemma must_retry_false tx s :
  PE.must_retry tx s = false →
  nonce s = PE.tx_nonce tx ∧ u256_lt (balance s) (PE.value tx) = false.
Proof. unfold PE.must_retry. intros [H1%negb_false_iff%Z.eqb_eq H2]%orb_false_iff. done. Qed.

Lemma balance_of_range l a : (0 ≤ balance_of l a < u256_modulus)%Z.
Proof. apply u256_range. Qed.

Lemma apply_conserves l tx addrs :
  NoDup addrs → PE.from tx ≠ PE.to tx → PE.from tx ∈ addrs → PE.to tx ∈ addrs →
  (total l addrs < u256_modulus)%Z →
  total (apply verify initial l tx) addrs = total l addrs.
Proof.
  intros Hnd Hne Hf Ht Hsum. unfold apply.
  destruct (PE.signature_rejected verify tx); [done|].
  destruct (PE.must_retry tx _) eqn:Hr; [done|].
  apply must_retry_false in Hr as [_ Hlt].
  pose proof (sum_Z_bound (balance_of l) addrs _ _ Hnd (λ z, proj1 (balance_of_range l z)) Hf Ht Hne)
    as Hpair. fold (total l addrs) in Hpair.
  pose proof (u256_transfer_sum _ (balance (account initial l (PE.to tx))) _ Hlt) as Hts.
  specialize (Hts ltac:(unfold balance_of in Hpair; lia)).
  set (l1 := <[PE.from tx := PE.new_sender_state tx (account initial l (PE.from tx))]> l).
  assert (total l1 addrs = total l addrs +
    (balance_of l1 (PE.from tx) - balance_of l (PE.from tx)))%Z as H1.
  { apply sum_Z_update; [done..|]. intros y Hy. unfold balance_of, account, l1.
    by rewrite lookup_insert_ne. }
  assert (total (transfer initial l tx) addrs = total l1 addrs +
    (balance_of (transfer initial l tx) (PE.to tx) - balance_of l1 (PE.to tx)))%Z as H2.
  { apply sum_Z_update; [done..|]. intros y Hy. unfold balance_of, account, transfer.
    by rewrite lookup_insert_ne. }
  assert (balance_of l1 (PE.from tx) =
    u256_val (u256_sub (balance (account initial l (PE.from tx))) (PE.value tx))) as B1.
  { unfold balance_of, account, l1. by rewrite lookup_insert_eq. }
  assert (balance_of (transfer initial l tx) (PE.to tx) =
    u256_val (u256_add (balance (account initial l (PE.to tx))) (PE.value tx))) as B2.
  { unfold balance_of, account, transfer. by rewrite lookup_insert_eq. }
  assert (balance_of l1 (PE.to tx) = balance_of l (PE.to tx)) as B3.
  { unfold balance_of, account, l1. by rewrite lookup_insert_ne. }
  rewrite H2, H1, B1, B2, B3. unfold balance_of. lia.
Qed.

(** C35: executing transfers in order creates and destroys no value.  Over any
    set of accounts that contains every sender and receiver of a block whose
    transactions have distinct sender and receiver, and whose total is below
    [2^256], the total after the block is the total before it, and so is the
    total after each prefix. *)
Theorem run_conserves_total txs l addrs :
  NoDup addrs →
  Forall (λ tx, PE.from tx ≠ PE.to tx ∧ PE.from tx ∈ addrs ∧ PE.to tx ∈ addrs) txs →
  (total l addrs < u256_modulus)%Z →
  ∀ k, total (run verify initial (take k txs) l) addrs = total l addrs.
Proof.
  intros Hnd Htxs. revert l. induction Htxs as [|tx txs (Hne & Hf & Ht) _ IH]; intros l Hl [|k]; try done.
  change (run verify initial (take (S k) (tx :: txs)) l)
    with (run verify initial (take k txs) (apply verify initial l tx)).
  rewrite IH; rewrite apply_conserves; done.
Qed.

(** An applied transfer cannot be replayed, and a rejected one changes
    nothing: applying a transaction a second time in a row is a no-op, because
    the sender's nonce has moved past it (also when it wraps around at
    [2^64]). *)
Theorem apply_not_replayed l tx :
  PE.from tx ≠ PE.to tx → in_u64 (PE.tx_nonce tx) →
  apply verify initial (apply verify initial l tx) tx = apply verify initial l tx.
Proof.
  intros Hne Hn. unfold apply.
  destruct (PE.signature_rejected verify tx); [done|].
  destruct (PE.must_retry tx (account initial l (PE.from tx))) eqn:Hr; [by rewrite Hr|].
  rewrite account_transfer, decide_False, decide_True by done.
  apply must_retry_false in Hr as [Hnonce _].
  unfold PE.must_retry. cbn. rewrite Hnonce.
  destruct (Z.eqb_spec (u64_add (PE.tx_nonce tx) 1) (PE.tx_nonce tx)) as [E|]; [|done].
  exfalso. unfold u64_add, in_u64 in *.
  destruct (decide (PE.tx_nonce tx + 1 < u64_modulus)%Z).
  - rewrite Z.mod_small in E by lia. lia.
  - replace (PE.tx_nonce tx + 1)%Z with u64_modulus in E by lia.
    rewrite Z.mod_same in E by done. rewrite <- E in *. done.
Qed.

(** C36: A transfer to oneself mints its value and does not advance the nonce.
    The receiver's state, computed from the account as it was before the
    sender's update, overwrites it: the balance grows by the value, and the same
    transaction can be applied again. *)
Theorem self_transfer_mints l tx :
  PE.from tx = PE.to tx → PE.signature_rejected verify tx = false →
  PE.must_retry tx (account initial l (PE.from tx)) = false →
  let s := account initial l (PE.from tx) in
  let l' := apply verify initial l tx in
  account initial l' (PE.from tx) =
    AccountState_new (nonce s) (u256_add (balance s) (PE.value tx)) ∧
  ((balance_of l (PE.from tx) + u256_val (PE.value tx) < u256_modulus)%Z →
   balance_of l' (PE.from tx) = (balance_of l (PE.from tx) + u256_val (PE.value tx))%Z ∧
   PE.must_retry tx (account initial l' (PE.from tx)) = false).
Proof.
  intros Heq Hrej Hr s l'.
  assert (account initial l' (PE.from tx) =
    AccountState_new (nonce s) (u256_add (balance s) (PE.value tx))) as Hs.
  { subst l'. unfold apply. rewrite Hrej, Hr. unfold account at 1. unfold transfer.
    by rewrite <- Heq, lookup_insert_eq. }
  split; [done|]. intros Hb. unfold balance_of at 1. rewrite Hs. cbn.
  rewrite u256_add_exact by done. split; [done|].
  apply must_retry_false in Hr as [Hn Hlt]. unfold PE.must_retry. cbn.
  fold s in Hn. rewrite Hn, Z.eqb_refl. cbn.
  apply u256_lt_false_iff. rewrite u256_add_exact by done.
  pose proof (u256_range (balance s)). lia.
Qed.
End Transfers.

(** ** Witnesses *)

Definition a1 : Address := addr_of 1.
Definition a2 : Address := addr_of 2.
Definition start : gmap Address AccountState :=
  {[ a1 := AccountState_new 0 (u256_of 100); a2 := AccountState_new 0 (u256_of 5) ]}.
Definition pay (f t : Address) (v n : Z) : PE.Transaction :=
  PE.mkTransaction f t (u256_of v) n None (u256_of 0).

Lemma run_conserves_total_witness :
  total start (run false start [pay a1 a2 30 0; pay a2 a1 7 0] ∅) [a1; a2] = 105%Z.
Proof.
  transitivity (total start ∅ [a1; a2]).
  - apply (run_conserves_total start false [pay a1 a2 30 0; pay a2 a1 7 0] ∅ [a1; a2]) with (k := 2).
    + apply NoDup_cons. split; [set_solver|apply NoDup_singleton].
    + repeat constructor; set_solver.
    + by_compute.
  - by_compute.
Defined.

Lemma apply_not_replayed_witness :
  apply false start (apply false start ∅ (pay a1 a2 30 0)) (pay a1 a2 30 0) =
  apply false start ∅ (pay a1 a2 30 0).
Proof. apply apply_not_replayed; [discriminate|by split]. Defined.

Lemma self_transfer_mints_witness :
  balance_of start (apply false start ∅ (pay a1 a1 30 0)) a1 = 130%Z.
Proof.
  transitivity (balance_of start ∅ a1 + 30)%Z; [|by_compute].
  apply (self_transfer_mints start false ∅ (pay a1 a1 30 0)); by_compute.
Defined.
End LedgerSpec.
