(* ===== verification/Workers.v ===== *)
(** * block-stm-executor/src/executor.rs and scheduler.rs, interleaved

    [ParallelExecutor::execute_block] as a transition system.  Each worker
    thread has a program point ([Point]); one step of a thread is one access to
    shared memory, guarded by the lock the code holds for it:
    - the ready queue's mutex is held across two steps in [next_task] (the pop
      and the status store);
    - a status lock is held across two steps in [abort_transaction] (the status
      store and the push);
    - [commit_lock] is held from [try_lock] to the end of
      [try_commit_transactions];
    - every other lock, and every DashMap guard, is taken and released within a
      single step.
    A thread whose next lock is taken cannot step.  Accesses are sequentially
    consistent: all of them are under locks or [Acquire]/[Release] atomics,
    except the [Relaxed] statistics counters, which nothing branches on. *)

From stdpp Require Import base option list gmap relations.
From Stdlib Require Import ZArith Lia.
From S2P Require Import Prelude Integers Externals Types MVHashMap Scheduler ParallelExecutor.

Module Workers.
Section Workers.
Context {A : Alloy} {D : DashMapImpl Address}.

(** The transaction a worker executes. *)
Record Job : Set := mkJob { j_idx : nat; j_inc : nat; j_tx : PE.Transaction }.

Inductive Point : Set :=
  (* Scheduler::next_task *)
  | LoadDone
  | PopQueue
  | MarkExecuting (idx inc : nat)
  | LoadCommitted
  | StoreDone
  (* ParallelExecutor::execute_transaction *)
  | Begin (idx inc : nat)
  | ReadSender (j : Job)
  | RecordSender (j : Job) (rr : MV.ReadResult)
  | ReadReceiver (j : Job) (sender : AccountState)
  | RecordReceiver (j : Job) (sender : AccountState) (rr : MV.ReadResult)
  (* MVHashMap::write, once for each account *)
  | HasLower (j : Job) (w : Address * AccountState) (rest : list (Address * AccountState))
      (invalidated : list nat)
  | StorageReaders (j : Job) (w : Address * AccountState) (rest : list (Address * AccountState))
      (invalidated : list nat)
  | WriteEntry (j : Job) (w : Address * AccountState) (rest : list (Address * AccountState))
      (invalidated : list nat)
  (* worker_loop, on the result *)
  | CountSuccess (j : Job) (invalidated : list nat)
  | CountFail (j : Job)
  (* Scheduler::finish_execution *)
  | SetExecuted (j : Job) (invalidated : list nat)
  | CountOnce (j : Job) (invalidated : list nat)
  | Aborting (invalidated : list nat)
  | PushAborted (idx inc : nat) (rest : list nat)
  | TryLock
  (* Scheduler::try_commit_transactions *)
  | CommitLoad
  | CommitRead (c : nat)
  | CommitMark (c : nat)
  | CommitStore (c : nat)
  | CommitDone (c : nat)
  | CommitUnlock
  | Exited
  | Panicked.

Record Shared : Type := mkShared {
  sched : Sched.Scheduler;
  mv : MV.MVHashMap;
  queue_lock : option nat;
  status_locks : gmap nat nat;
  execution_count : nat;
  success_count : nat;
  fail_count : nat;
}.

Definition set_sched (s : Sched.Scheduler) (sh : Shared) : Shared :=
  mkShared s (mv sh) (queue_lock sh) (status_locks sh)
    (execution_count sh) (success_count sh) (fail_count sh).
Definition set_mv (m : MV.MVHashMap) (sh : Shared) : Shared :=
  mkShared (sched sh) m (queue_lock sh) (status_locks sh)
    (execution_count sh) (success_count sh) (fail_count sh).
Definition set_queue_lock (l : option nat) (sh : Shared) : Shared :=
  mkShared (sched sh) (mv sh) l (status_locks sh)
    (execution_count sh) (success_count sh) (fail_count sh).
Definition set_status_locks (l : gmap nat nat) (sh : Shared) : Shared :=
  mkShared (sched sh) (mv sh) (queue_lock sh) l
    (execution_count sh) (success_count sh) (fail_count sh).
Definition set_counts (e s f : nat) (sh : Shared) : Shared :=
  mkShared (sched sh) (mv sh) (queue_lock sh) (status_locks sh) e s f.

Section Step.
Context (cfg : PE.ExecutorConfig) (txs : list PE.Transaction).

(** One step of thread [me]; [None] when it is blocked or has stopped. *)
Definition thread_step (me : nat) (pt : Point) (sh : Shared) : option (Point * Shared) :=
  let s := sched sh in
  let initial := PE.initial_states cfg in
  match pt with
  | LoadDone =>
      Some (if Sched.done s then Exited else PopQueue, sh)
  | PopQueue =>
      match queue_lock sh with
      | Some _ => None
      | None =>
          match Sched.ready_queue s with
          | (idx, inc) :: queue =>
              Some (MarkExecuting idx inc,
                    set_queue_lock (Some me) (set_sched (Sched.set_ready_queue queue s) sh))
          | [] => Some (LoadCommitted, sh)
          end
      end
  | MarkExecuting idx inc =>
      match status_locks sh !! idx with
      | Some _ => None
      | None =>
          match Sched.store_status s idx (Executing inc) with
          | Some s' => Some (Begin idx inc, set_queue_lock None (set_sched s' sh))
          | None => Some (Panicked, sh)
          end
      end
  | LoadCommitted =>
      Some (if Sched.num_txns s <=? Sched.committed_idx s then StoreDone else LoadDone, sh)
  | StoreDone => Some (Exited, set_sched (Sched.set_done true s) sh)
  | Begin idx inc =>
      let sh' := set_counts (execution_count sh + 1) (success_count sh) (fail_count sh) sh in
      match txs !! idx with
      | None => Some (Panicked, sh')
      | Some tx =>
          let j := mkJob idx inc tx in
          Some (if PE.signature_rejected (PE.verify_signatures cfg) tx
                then CountFail j else ReadSender j, sh')
      end
  | ReadSender j =>
      Some (RecordSender j (MV.read (mv sh) (PE.from (j_tx j)) (j_idx j)), sh)
  | RecordSender j rr =>
      let sh' := set_mv (PE.record_of_read (mv sh) (PE.from (j_tx j)) (j_idx j) rr) sh in
      let sender := PE.account_of_read initial (PE.from (j_tx j)) rr in
      Some (if PE.must_retry (j_tx j) sender then SetExecuted j [] else ReadReceiver j sender, sh')
  | ReadReceiver j sender =>
      Some (RecordReceiver j sender (MV.read (mv sh) (PE.to (j_tx j)) (j_idx j)), sh)
  | RecordReceiver j sender rr =>
      let sh' := set_mv (PE.record_of_read (mv sh) (PE.to (j_tx j)) (j_idx j) rr) sh in
      let receiver := PE.account_of_read initial (PE.to (j_tx j)) rr in
      Some (HasLower j (PE.from (j_tx j), PE.new_sender_state (j_tx j) sender)
              [(PE.to (j_tx j), PE.new_receiver_state (j_tx j) receiver)] [], sh')
  | HasLower j w rest invalidated =>
      Some (if MV.has_lower_version (mv sh) w.1 (j_idx j)
            then WriteEntry j w rest invalidated
            else StorageReaders j w rest invalidated, sh)
  | StorageReaders j w rest invalidated =>
      Some (WriteEntry j w rest
              (invalidated ++ MV.storage_invalidated (mv sh) w.1 (j_idx j)), sh)
  | WriteEntry j w rest invalidated =>
      let '(m', more) := MV.write_entry (mv sh) w.1 (j_idx j) (j_inc j) w.2 in
      let invalidated := invalidated ++ more in
      Some (match rest with
            | w' :: rest' => HasLower j w' rest' invalidated
            | [] => CountSuccess j (vec_dedup (sort_unstable invalidated))
            end, set_mv m' sh)
  | CountSuccess j invalidated =>
      Some (SetExecuted j invalidated,
            set_counts (execution_count sh) (success_count sh + 1) (fail_count sh) sh)
  | CountFail j =>
      Some (SetExecuted j [],
            set_counts (execution_count sh) (success_count sh) (fail_count sh + 1) sh)
  | SetExecuted j invalidated =>
      match status_locks sh !! j_idx j with
      | Some _ => None
      | None =>
          match Sched.store_status s (j_idx j) (Executed (j_inc j)) with
          | Some s' => Some (CountOnce j invalidated, set_sched s' sh)
          | None => Some (Panicked, sh)
          end
      end
  | CountOnce j invalidated =>
      Some (Aborting invalidated,
            if j_inc j =? 0
            then set_sched (Sched.set_executed_once_count (Sched.executed_once_count s + 1) s) sh
            else sh)
  | Aborting [] => Some (TryLock, sh)
  | Aborting (idx :: rest) =>
      match status_locks sh !! idx with
      | Some _ => None
      | None =>
          match Sched.statuses s !! idx with
          | None => Some (Panicked, sh)
          | Some (Executing inc) | Some (Executed inc) =>
              Some (PushAborted idx (inc + 1) rest,
                    set_status_locks (<[idx := me]> (status_locks sh))
                      (set_sched (Sched.set_statuses (<[idx := Pending]> (Sched.statuses s)) s) sh))
          | Some _ => Some (Aborting rest, sh)
          end
      end
  | PushAborted idx inc rest =>
      match queue_lock sh with
      | Some _ => None
      | None =>
          Some (Aborting rest,
                set_status_locks (delete idx (status_locks sh))
                  (set_sched (Sched.set_ready_queue (Sched.ready_queue s ++ [(idx, inc)]) s) sh))
      end
  | TryLock =>
      match Sched.commit_lock s with
      | Some _ => Some (LoadDone, sh)
      | None => Some (CommitLoad, set_sched (Sched.set_commit_lock (Some me) s) sh)
      end
  | CommitLoad => Some (CommitRead (Sched.committed_idx s), sh)
  | CommitRead c =>
      if c <? Sched.num_txns s then
        match status_locks sh !! c with
        | Some _ => None
        | None =>
            match Sched.statuses s !! c with
            | None => Some (Panicked, sh)
            | Some (Executed _) => Some (CommitMark c, sh)
            | Some _ => Some (CommitDone c, sh)
            end
        end
      else Some (CommitDone c, sh)
  | CommitMark c =>
      match status_locks sh !! c with
      | Some _ => None
      | None =>
          match Sched.store_status s c Committed with
          | Some s' => Some (CommitStore (c + 1), set_sched s' sh)
          | None => Some (Panicked, sh)
          end
      end
  | CommitStore c => Some (CommitRead c, set_sched (Sched.set_committed_idx c s) sh)
  | CommitDone c =>
      Some (CommitUnlock,
            if Sched.num_txns s <=? c then set_sched (Sched.set_done true s) sh else sh)
  | CommitUnlock => Some (LoadDone, set_sched (Sched.set_commit_lock None s) sh)
  | Exited | Panicked => None
  end.

Record State : Type := mkState { shared : Shared; threads : list Point }.

(** The state when [execute_block] has spawned its workers. *)
Definition init : State :=
  mkState
    (mkShared (Sched.new (length txs)) MV.new None ∅ 0 0 0)
    (replicate (PE.num_threads cfg) LoadDone).

(** The step of thread [t]. *)
Definition step_of (st : State) (t : nat) : option State :=
  pt ← threads st !! t;
  '(pt', sh') ← thread_step t pt (shared st);
  Some (mkState sh' (<[t := pt']> (threads st))).

Inductive step (st st' : State) : Prop :=
  | step_thread t : step_of st t = Some st' → step st st'.

Definition reachable (st : State) : Prop := rtc step init st.

(** A schedule names the thread of each step. *)
Fixpoint run (st : State) (schedule : list nat) : option State :=
  match schedule with
  | [] => Some st
  | t :: rest => st' ← step_of st t; run st' rest
  end.

Definition finished (st : State) : Prop := Forall (λ pt, pt = Exited) (threads st).

(** What [execute_block] returns once every worker has been joined. *)
Definition block_result (st : State) : PE.BlockExecutionResult :=
  let sh := shared st in
  let committed_count := Z.of_nat (Sched.committed_count (sched sh)) in
  let fails := Z.of_nat (fail_count sh) in
  PE.mkResult (usize_sub committed_count fails) fails
    (Z.of_nat (execution_count sh))
    (MV.get_committed_states (mv sh)).

(** [execute_block] may return [result]: some schedule of its workers ends in a
    state in which all of them are joined. *)
Definition execute_block (result : PE.BlockExecutionResult) : Prop :=
  ∃ st, reachable st ∧ finished st ∧ result = block_result st.

(** Invariants by induction on the last step. *)
Lemma reachable_ind_step (P : State → Prop) :
  P init → (∀ st st', reachable st → P st → step st st' → P st') →
  ∀ st, reachable st → P st.
Proof.
  intros H0 Hstep st Hr.
  apply (rtc_ind_r (R := step) P init); [done| |done].
  intros st1 st2 Hr1 Hs HP. by apply (Hstep st1).
Qed.

Lemma run_reachable st schedule st' :
  reachable st → run st schedule = Some st' → reachable st'.
Proof.
  revert st. induction schedule as [|t rest IH]; intros st Hr Hrun; simplify_eq/=; [done|].
  destruct (step_of st t) as [st1|] eqn:E; [|done]. cbn in Hrun.
  apply (IH st1); [|done]. eapply rtc_r; [exact Hr|]. by exists t.
Qed.

Lemma run_app st s1 s2 :
  run st (s1 ++ s2) = run st s1 ≫= λ st', run st' s2.
Proof.
  revert st. induction s1 as [|t s1 IH]; intros st; [done|]. cbn.
  destruct (step_of st t); cbn; [apply IH|done].
Qed.
End Step.
End Workers.
End Workers.
