(* ===== verification/WorkersInv.v ===== *)
(** * Invariants of the interleaved execution

    What holds in every state the workers can reach, whatever the schedule: the
    vectors keep the block's length and every index is in bounds, each lock is
    held by exactly the thread whose program point says so, the commit position
    a committing thread holds is the shared one, and only transactions with an
    accepted signature are ever recorded as readers, invalidated or re-queued. *)

From stdpp Require Import base option list gmap relations.
From Stdlib Require Import ZArith Lia.
From S2P Require Import Prelude Integers Externals Types MVHashMap Scheduler ParallelExecutor Workers.

Module WInv.
Import Workers.
(** Splits a step into its cases. *)
Ltac step_cases pt H :=
  destruct pt; cbn in H |- *; repeat case_match; simplify_eq/=;
  repeat match goal with
  | E : Sched.store_status _ _ _ = Some _ |- _ =>
      unfold Sched.store_status in E; case_decide; simplify_eq/=
  end.

Section Inv.
Context {A : Alloy} {D : DashMapImpl Address} {DL : DashMapLaws D}.
Context (cfg : PE.ExecutorConfig) (txs : list PE.Transaction).
Implicit Types (sh : Shared) (pt : Point) (st : State) (t u x : nat).

Definition rejected (t : nat) : bool :=
  match txs !! t with
  | Some tx => PE.signature_rejected (PE.verify_signatures cfg) tx
  | None => false
  end.

(** The transactions that can be invalidated. *)
Definition abortable (t : nat) : Prop := t < length txs ∧ rejected t = false.

Definition job_ok (j : Job) : Prop := txs !! j_idx j = Some (j_tx j) ∧ abortable (j_idx j).

Definition holds_queue (pt : Point) : bool :=
  match pt with MarkExecuting _ _ => true | _ => false end.

Definition holds_status (pt : Point) : option nat :=
  match pt with PushAborted x _ _ => Some x | _ => None end.

Definition in_commit (pt : Point) : bool :=
  match pt with
  | CommitLoad | CommitRead _ | CommitMark _ | CommitStore _ | CommitDone _ | CommitUnlock => true
  | _ => false
  end.

(** What a thread at [pt] knows. *)
Definition pt_local (pt : Point) (sh : Shared) : Prop :=
  let c0 := Sched.committed_idx (sched sh) in
  match pt with
  | MarkExecuting idx _ | Begin idx _ => idx < length txs
  | StoreDone => length txs ≤ c0
  | ReadSender j | RecordSender j _ | ReadReceiver j _ | RecordReceiver j _ _ => job_ok j
  | HasLower j _ _ l | StorageReaders j _ _ l | WriteEntry j _ _ l
  | CountSuccess j l => job_ok j ∧ Forall abortable l
  | CountFail j => j_idx j < length txs ∧ rejected (j_idx j) = true
  | SetExecuted j l | CountOnce j l => j_idx j < length txs ∧ Forall abortable l
  | Aborting l => Forall abortable l
  | PushAborted x _ l => abortable x ∧ Forall abortable l
  | CommitRead c | CommitDone c => c = c0
  | CommitMark c => c = c0 ∧ c < length txs
  | CommitStore c => c = S c0 ∧ c ≤ length txs
  | Exited => Sched.done (sched sh) = true
  | Panicked => False
  | _ => True
  end.

Record locks_ok (t : nat) (pt : Point) (sh : Shared) : Prop := {
  lk_queue : queue_lock sh = Some t ↔ holds_queue pt = true;
  lk_status : ∀ x, status_locks sh !! x = Some t ↔ holds_status pt = Some x;
  lk_commit : Sched.commit_lock (sched sh) = Some t ↔ in_commit pt = true;
}.

Record mv_ok (m : MV.MVHashMap) : Prop := {
  mv_readers : ∀ a i e, MV.entry_at m a i = Some e → Forall abortable (MV.readers e);
  mv_storage : ∀ a, Forall abortable (MV.storage_readers_at m a);
}.

Record shared_ok (sh : Shared) : Prop := {
  sh_sched : Sched.sched_wf (sched sh);
  sh_num : Sched.num_txns (sched sh) = length txs;
  sh_mv : mv_ok (mv sh);
}.

Record Inv (st : State) : Prop := {
  inv_shared : shared_ok (shared st);
  inv_local : ∀ t pt, threads st !! t = Some pt → pt_local pt (shared st);
  inv_locks : ∀ t pt, threads st !! t = Some pt → locks_ok t pt (shared st);
  inv_owner_queue : ∀ t, queue_lock (shared st) = Some t → t < length (threads st);
  inv_owner_status : ∀ x t, status_locks (shared st) !! x = Some t → t < length (threads st);
}.

(** What a step of [t] preserves for the other threads. *)
Record frame (t : nat) (sh sh' : Shared) : Prop := {
  fr_queue : ∀ u, u ≠ t → queue_lock sh' = Some u ↔ queue_lock sh = Some u;
  fr_status : ∀ u x, u ≠ t → status_locks sh' !! x = Some u ↔ status_locks sh !! x = Some u;
  fr_commit : ∀ u, u ≠ t →
    Sched.commit_lock (sched sh') = Some u ↔ Sched.commit_lock (sched sh) = Some u;
  fr_committed : Sched.committed_idx (sched sh) ≤ Sched.committed_idx (sched sh');
  fr_holder : ∀ u, u ≠ t → Sched.commit_lock (sched sh) = Some u →
    Sched.committed_idx (sched sh') = Sched.committed_idx (sched sh);
  fr_done : Sched.done (sched sh) = true → Sched.done (sched sh') = true;
}.

(** ** One step *)

Lemma step_frame_queue t pt sh pt' sh' u :
  locks_ok t pt sh → thread_step cfg txs t pt sh = Some (pt', sh') → u ≠ t →
  queue_lock sh' = Some u ↔ queue_lock sh = Some u.
Proof.
  intros [Hq _ _] H Hu. step_cases pt H; try reflexivity; try (split; congruence).
  rewrite (proj2 Hq) by done. split; congruence.
Qed.

Lemma step_frame_status t pt sh pt' sh' u x :
  locks_ok t pt sh → thread_step cfg txs t pt sh = Some (pt', sh') → u ≠ t →
  status_locks sh' !! x = Some u ↔ status_locks sh !! x = Some u.
Proof.
  intros [_ Hst _] H Hu. step_cases pt H; try reflexivity.
  1,2: rewrite lookup_insert; case_decide; subst; [|done]; split; congruence.
  rewrite lookup_delete; case_decide; subst; [|done].
  rewrite (proj2 (Hst x)) by done. split; congruence.
Qed.

Lemma step_frame_commit t pt sh pt' sh' u :
  locks_ok t pt sh → thread_step cfg txs t pt sh = Some (pt', sh') → u ≠ t →
  Sched.commit_lock (sched sh') = Some u ↔ Sched.commit_lock (sched sh) = Some u.
Proof.
  intros [_ _ Hc] H Hu. step_cases pt H; try reflexivity; try (split; congruence).
  rewrite (proj2 Hc) by done. split; congruence.
Qed.

Lemma step_committed t pt sh pt' sh' :
  pt_local pt sh → thread_step cfg txs t pt sh = Some (pt', sh') →
  Sched.committed_idx (sched sh) ≤ Sched.committed_idx (sched sh') ∧
  (in_commit pt = false → Sched.committed_idx (sched sh') = Sched.committed_idx (sched sh)).
Proof. intros Hpt H. step_cases pt H; try (split; [lia|done]); try lia. Qed.

Lemma step_done t pt sh pt' sh' :
  thread_step cfg txs t pt sh = Some (pt', sh') →
  Sched.done (sched sh) = true → Sched.done (sched sh') = true.
Proof. intros H Hd. step_cases pt H; try exact Hd; try done; congruence. Qed.

Lemma step_frame t pt sh pt' sh' :
  pt_local pt sh → locks_ok t pt sh →
  thread_step cfg txs t pt sh = Some (pt', sh') → frame t sh sh'.
Proof.
  intros Hpt Hlk H. split.
  - intros. by eapply step_frame_queue.
  - intros. by eapply step_frame_status.
  - intros. by eapply step_frame_commit.
  - by apply (step_committed t pt sh pt' sh').
  - intros u Hu Hl. apply (step_committed t pt sh pt' sh'); [done..|].
    destruct (in_commit pt) eqn:E; [|done].
    apply (lk_commit _ _ _ Hlk) in E. congruence.
  - by apply (step_done t pt sh pt' sh').
Qed.

(** *** The multi-version map *)

Lemma mv_ok_new : mv_ok MV.new.
Proof.
  split; intros a.
  - intros i e. by rewrite MV.entry_at_new.
  - by rewrite MV.storage_readers_at_new.
Qed.

Lemma mv_ok_record m a r rr : mv_ok m → abortable r → mv_ok (PE.record_of_read m a r rr).
Proof.
  intros [Hrd Hst] Hr. destruct rr as [v s| |]; cbn; [| |done].
  - split; intros a'; [|by rewrite MV.storage_readers_at_record_read].
    intros i e. rewrite MV.entry_at_record_read. case_decide; [|by apply Hrd].
    intros (e' & He & ->)%fmap_Some. case_decide; cbn; [|by apply (Hrd a' i)].
    apply Forall_app_2; [by apply (Hrd a' i)|by constructor].
  - split; intros a'; [intros i e; apply Hrd|].
    rewrite MV.storage_readers_at_record_storage_read.
    apply Forall_app_2; [done|]. case_decide; auto using Forall_nil_2, Forall_cons_2.
Qed.

Lemma mv_ok_write_entry m a w inc s :
  mv_ok m → mv_ok (MV.write_entry m a w inc s).1.
Proof.
  intros [Hrd Hst]. split; intros a'; [|by rewrite MV.storage_readers_at_write_entry].
  intros i e. rewrite MV.entry_at_write_entry. case_decide; [|by apply Hrd].
  intros [= <-]. constructor.
Qed.

Lemma abortable_storage_invalidated m a w :
  mv_ok m → Forall abortable (MV.storage_invalidated m a w).
Proof.
  intros [_ Hst]. apply Forall_forall. intros x [_ Hx]%MV.elem_of_storage_invalidated.
  specialize (Hst a). rewrite Forall_forall in Hst. by apply Hst.
Qed.

Lemma abortable_write_entry m a w inc s :
  mv_ok m → Forall abortable (MV.write_entry m a w inc s).2.
Proof.
  intros [Hrd _]. apply Forall_forall.
  intros x (_ & i & e & (He & _) & Hx)%MV.elem_of_write_entry_invalidated.
  specialize (Hrd a i e He). rewrite Forall_forall in Hrd. by apply Hrd.
Qed.

Lemma abortable_dedup_sort l : Forall abortable l → Forall abortable (vec_dedup (sort_unstable l)).
Proof.
  rewrite !Forall_forall. intros Hl x Hx. apply Hl. by rewrite elem_of_dedup_sort in Hx.
Qed.

(** *** The stepping thread *)

Lemma job_ok_lt j : job_ok j → j_idx j < length txs.
Proof. intros [_ [Hlt _]]. done. Qed.

Lemma step_mv_ok t pt sh pt' sh' :
  mv_ok (mv sh) → pt_local pt sh →
  thread_step cfg txs t pt sh = Some (pt', sh') → mv_ok (mv sh').
Proof.
  intros Hmv Hpt H. step_cases pt H; try exact Hmv.
  all: try (apply mv_ok_record; [done|apply Hpt]).
  all: match goal with E : MV.write_entry ?m ?a ?w ?i ?s = (?m', _) |- _ =>
         pose proof (mv_ok_write_entry m a w i s Hmv) as Hw;
         rewrite E in Hw; exact Hw end.
Qed.

Lemma step_num t pt sh pt' sh' :
  thread_step cfg txs t pt sh = Some (pt', sh') →
  Sched.num_txns (sched sh') = Sched.num_txns (sched sh).
Proof. intros H. by step_cases pt H. Qed.

Lemma step_sched_wf t pt sh pt' sh' :
  shared_ok sh → pt_local pt sh →
  thread_step cfg txs t pt sh = Some (pt', sh') → Sched.sched_wf (sched sh').
Proof.
  intros [Hwf Hn _] Hpt H. pose proof Hwf as [Hlen Hq Hc Hd].
  step_cases pt H; try exact Hwf.
  all: split; cbn; rewrite ?length_insert; try assumption; try lia; try done.
  all: try (intros; lia).
  - intros p Hp. apply Hq. by right.
  - intros p [Hp| ->%list_elem_of_singleton]%elem_of_app; [by apply Hq|].
    cbn. rewrite Hn. apply Hpt.
  - intros Hd'. specialize (Hd Hd'). lia.
  - intros _. by apply Nat.leb_le.
Qed.

Lemma store_status_None_inv s i (x : ExecutionStatus) :
  Sched.store_status s i x = None → length (Sched.statuses s) ≤ i.
Proof. unfold Sched.store_status. case_decide; [done|]. intros _. lia. Qed.

Lemma rejected_lookup t tx :
  txs !! t = Some tx → rejected t = PE.signature_rejected (PE.verify_signatures cfg) tx.
Proof. unfold rejected. by intros ->. Qed.

Lemma job_ok_intro t i tx :
  txs !! t = Some tx → PE.signature_rejected (PE.verify_signatures cfg) tx = false →
  job_ok (mkJob t i tx).
Proof.
  intros Ht Hr. split; [done|]. split; cbn; [by eapply lookup_lt_Some|].
  by rewrite (rejected_lookup t tx).
Qed.

(** Turns failed lookups and comparisons into inequalities. *)
Ltac to_bounds :=
  repeat match goal with
  | E : Sched.store_status _ _ _ = None |- _ => apply store_status_None_inv in E
  | E : @lookup _ _ (list _) _ _ _ = None |- _ => apply lookup_ge_None_1 in E
  | E : (_ <? _) = true |- _ => apply Nat.ltb_lt in E
  | E : (_ <=? _) = true |- _ => apply Nat.leb_le in E
  | E : job_ok _ |- _ => pose proof (job_ok_lt _ E); revert E
  end; intros.

(** The thread finds every index in bounds: it does not panic. *)
Lemma step_pt_local t pt sh pt' sh' :
  shared_ok sh → pt_local pt sh →
  thread_step cfg txs t pt sh = Some (pt', sh') → pt_local pt' sh'.
Proof.
  intros [Hwf Hn Hmv] Hpt H. pose proof Hwf as [Hlen Hq Hc Hd].
  pose proof (λ a, abortable_storage_invalidated (mv sh) a).
  step_cases pt H; destruct_all; simplify_eq/=; try done; to_bounds.
  all: repeat match goal with E : Forall _ (_ :: _) |- _ => inversion_clear E end.
  all: try match goal with
       | E : MV.write_entry ?m ?a ?w ?i ?s = (_, ?l) |- _ =>
           assert (Forall abortable l) by
             (pose proof (abortable_write_entry m a w i s Hmv) as Hl; rewrite E in Hl; exact Hl)
       end.
  all: split_and?; auto using Forall_nil_2, Forall_app_2, abortable_dedup_sort, job_ok_intro.
  all: try lia.
  - rewrite <- Hn. apply (Hq (n, n0)). left.
  - cbn. by rewrite (rejected_lookup _ t0).
  - match goal with E : abortable _ |- _ => destruct E end. lia.
Qed.

Lemma step_locks_ok t pt sh pt' sh' :
  pt_local pt' sh' → locks_ok t pt sh →
  thread_step cfg txs t pt sh = Some (pt', sh') → locks_ok t pt' sh'.
Proof.
  intros Hpt [Hq Hst Hc] H.
  step_cases pt H; try done; split; cbn in *; try assumption; try (split; done).
  all: try (match goal with
            | E : ?l = _ |- (?l = _ ↔ _) => rewrite E; first [assumption | split; discriminate]
            end).
  all: try (split; discriminate).
  all: intros x; specialize (Hst x); rewrite ?lookup_insert, ?lookup_delete.
  all: case_decide; [subst; split; congruence|]; rewrite Hst; split; congruence.
Qed.

(** *** The other threads *)

Lemma frame_pt_local t u pt sh sh' :
  frame t sh sh' → u ≠ t → shared_ok sh' → Sched.num_txns (sched sh) = length txs →
  locks_ok u pt sh → pt_local pt sh → pt_local pt sh'.
Proof.
  intros Hfr Hu Hsh' Hn Hlk Hpt.
  assert (in_commit pt = true → Sched.committed_idx (sched sh') = Sched.committed_idx (sched sh))
    as Heq.
  { intros Hc. apply (fr_holder _ _ _ Hfr u Hu). by apply (lk_commit _ _ _ Hlk). }
  pose proof (fr_committed _ _ _ Hfr) as Hle. pose proof (fr_done _ _ _ Hfr) as Hd.
  destruct pt; try exact Hpt; try exact (Hd Hpt); cbn in Hpt, Heq |- *.
  - lia.
  - rewrite Heq; [exact Hpt|reflexivity].
  - rewrite Heq; [exact Hpt|reflexivity].
  - rewrite Heq; [exact Hpt|reflexivity].
  - rewrite Heq; [exact Hpt|reflexivity].
Qed.

Lemma frame_locks_ok t u pt sh sh' :
  frame t sh sh' → u ≠ t → locks_ok u pt sh → locks_ok u pt sh'.
Proof.
  intros Hfr Hu [Hq Hst Hc]. split.
  - by rewrite (fr_queue _ _ _ Hfr).
  - intros x. by rewrite (fr_status _ _ _ Hfr).
  - by rewrite (fr_commit _ _ _ Hfr).
Qed.

(** *** The invariant *)

Lemma Inv_init : Inv (init cfg txs).
Proof.
  assert (∀ t pt, threads (init cfg txs) !! t = Some pt → pt = LoadDone) as Hth.
  { intros t pt [-> _]%lookup_replicate. done. }
  split.
  - split; cbn; [apply Sched.wf_new|done|apply mv_ok_new].
  - intros t pt ->%Hth. done.
  - intros t pt ->%Hth. split; cbn; [done| |done]. intros x. by rewrite lookup_empty.
  - done.
  - intros x t. cbn. by rewrite lookup_empty.
Qed.

Lemma step_of_inv st t st' :
  step_of cfg txs st t = Some st' →
  ∃ pt pt', threads st !! t = Some pt ∧
    thread_step cfg txs t pt (shared st) = Some (pt', shared st') ∧
    threads st' = <[t := pt']> (threads st).
Proof.
  unfold step_of. intros H.
  destruct (threads st !! t) as [pt|] eqn:Hpt; [|done]. cbn in H.
  destruct (thread_step cfg txs t pt (shared st)) as [[pt' sh']|] eqn:Hs; simplify_eq/=.
  eauto.
Qed.

Lemma Inv_step st st' : Inv st → step cfg txs st st' → Inv st'.
Proof.
  intros [Hsh Hl Hk Hoq Hos] [t (pt & pt' & Ht & Hs & Hth)%step_of_inv].
  pose proof (Hl t pt Ht) as Hpt. pose proof (Hk t pt Ht) as Hlk.
  pose proof (step_frame _ _ _ _ _ Hpt Hlk Hs) as Hfr.
  pose proof (step_pt_local _ _ _ _ _ Hsh Hpt Hs) as Hpt'.
  assert (shared_ok (shared st')) as Hsh'.
  { split; [by eapply step_sched_wf| |eapply step_mv_ok; [apply Hsh|done..]].
    rewrite (step_num _ _ _ _ _ Hs). apply Hsh. }
  assert (t < length (threads st)) as Hlen by (by eapply lookup_lt_Some).
  split; [done|..]; rewrite ?Hth, ?length_insert.
  - intros u pu [[-> [= <-]]|[Hne Hu]]%list_lookup_insert_Some_alt; [done|].
    by apply (frame_pt_local t u _ (shared st)); eauto using sh_num.
  - intros u pu [[-> [= <-]]|[Hne Hu]]%list_lookup_insert_Some_alt.
    + by eapply step_locks_ok.
    + by apply (frame_locks_ok t u _ (shared st)); eauto.
  - intros u Hu. destruct (decide (u = t)) as [->|Hne]; [done|].
    apply Hoq. by apply (fr_queue _ _ _ Hfr).
  - intros x u Hu. destruct (decide (u = t)) as [->|Hne]; [done|].
    apply (Hos x). by apply (fr_status _ _ _ Hfr).
Qed.

Lemma Inv_reachable st : reachable cfg txs st → Inv st.
Proof.
  apply (reachable_ind_step cfg txs); [apply Inv_init|].
  intros s1 s2 _ HI Hs. by eapply Inv_step.
Qed.
End Inv.
End WInv.
