(* ===== verification/WorkersCount.v ===== *)
(** * Every transaction with a bad signature fails exactly once

    The accounting behind [BlockExecutionResult::failed].  A transaction whose
    signature is rejected never reads, so it is never invalidated: it stays in
    the queue or in one thread until it has been counted and marked executed,
    and the commit position cannot pass it before that. *)

From stdpp Require Import base option list gmap relations.
From Stdlib Require Import ZArith Lia.
From S2P Require Import Prelude Integers Externals Types MVHashMap Scheduler ParallelExecutor.
From S2P Require Import Workers WorkersInv.

Module WCount.
Import Workers WInv.

Section Count.
Context {A : Alloy} {D : DashMapImpl Address} {DL : DashMapLaws D}.
Context (cfg : PE.ExecutorConfig) (txs : list PE.Transaction).
Implicit Types (sh : Shared) (pt : Point) (st : State) (t u x : nat).

Abbreviation rejected := (WInv.rejected cfg txs).

(** The index a thread has taken from the queue and not yet counted as failed
    or passed on to execution. *)
Definition uncounted (pt : Point) : option nat :=
  match pt with
  | MarkExecuting idx _ | Begin idx _ => Some idx
  | CountFail j => Some (j_idx j)
  | _ => None
  end.

(** The same, until it has been marked executed. *)
Definition in_flight (pt : Point) : option nat :=
  match pt with
  | SetExecuted j _ => Some (j_idx j)
  | _ => uncounted pt
  end.

Definition weight (f : nat → bool) (o : option nat) : nat :=
  match o with Some x => Nat.b2n (f x) | None => 0 end.

Definition queue_weight (f : nat → bool) (q : list (nat * nat)) : nat :=
  sum_list ((λ p, Nat.b2n (f p.1)) <$> q).

(** Occurrences of indices satisfying [f] in the queue and in the threads,
    at the points [g] selects. *)
Definition occurrences (f : nat → bool) (g : Point → option nat) (st : State) : nat :=
  queue_weight f (Sched.ready_queue (sched (shared st))) +
  sum_list ((λ pt, weight f (g pt)) <$> threads st).

Definition total_rejected : nat := sum_list ((λ x, Nat.b2n (rejected x)) <$> seq 0 (length txs)).

(** [x] has not been marked executed, and the commit has not reached it. *)
Record fresh (x : nat) (st : State) : Prop := {
  fr_position : Sched.committed_idx (sched (shared st)) ≤ x;
  fr_state : ∀ inc, Sched.statuses (sched (shared st)) !! x ≠ Some (Executed inc);
  fr_mark : ∀ t, threads st !! t ≠ Some (CommitMark x);
  fr_store : ∀ t, threads st !! t ≠ Some (CommitStore (S x));
}.

Record CInv (st : State) : Prop := {
  ci_total : fail_count (shared st) + occurrences rejected uncounted st = total_rejected;
  ci_once : ∀ x, rejected x = true → occurrences (Nat.eqb x) in_flight st ≤ 1;
  ci_fresh : ∀ x, rejected x = true →
    occurrences (Nat.eqb x) in_flight st = 1 → fresh x st;
}.

(** ** Sums along a step *)

Lemma occurrences_step f g st t pt pt' st' :
  threads st !! t = Some pt → threads st' = <[t := pt']> (threads st) →
  occurrences f g st' + weight f (g pt) +
    queue_weight f (Sched.ready_queue (sched (shared st))) =
  occurrences f g st + weight f (g pt') +
    queue_weight f (Sched.ready_queue (sched (shared st'))).
Proof.
  intros Ht Hth. unfold occurrences. rewrite Hth, list_fmap_insert.
  pose proof (sum_list_insert ((λ pt, weight f (g pt)) <$> threads st) t
    (weight f (g pt')) (weight f (g pt))) as Hs.
  rewrite list_lookup_fmap, Ht in Hs. specialize (Hs eq_refl). lia.
Qed.

Lemma queue_weight_snoc f q x inc :
  queue_weight f (q ++ [(x, inc)]) = queue_weight f q + Nat.b2n (f x).
Proof. unfold queue_weight. induction q; cbn in *; lia. Qed.

Lemma queue_weight_cons f q x inc :
  queue_weight f ((x, inc) :: q) = Nat.b2n (f x) + queue_weight f q.
Proof. done. Qed.

Lemma queue_weight_0 f q : queue_weight f q = 0 ↔ ∀ p, p ∈ q → f p.1 = false.
Proof.
  induction q as [|[x inc] q IH]; [split; [set_solver|done]|].
  rewrite queue_weight_cons. split.
  - intros H p [->|Hp]%elem_of_cons; cbn; [destruct (f x); cbn in *; [lia|done]|].
    apply IH; [lia|done].
  - intros H. rewrite (proj2 IH) by (intros; apply H; by right).
    specialize (H (x, inc)). cbn in H. rewrite H by left. done.
Qed.

Definition marks (x : nat) (pt : Point) : nat :=
  match pt with SetExecuted j _ => Nat.b2n (x =? j_idx j) | _ => 0 end.

Ltac weigh :=
  repeat match goal with
  | E : Sched.ready_queue ?s = _ |- context [Sched.ready_queue ?s] => rewrite E
  end;
  rewrite ?queue_weight_snoc, ?queue_weight_cons.

Lemma balance_uncounted t pt sh pt' sh' :
  pt_local cfg txs pt sh → pt_local cfg txs pt' sh' →
  thread_step cfg txs t pt sh = Some (pt', sh') →
  fail_count sh' + queue_weight rejected (Sched.ready_queue (sched sh'))
    + weight rejected (uncounted pt') =
  fail_count sh + queue_weight rejected (Sched.ready_queue (sched sh))
    + weight rejected (uncounted pt).
Proof.
  intros Hpt Hpt' H. step_cases pt H; try done; weigh; try reflexivity; try lia.
  - match goal with E : txs !! _ = Some _ |- _ => rewrite (rejected_lookup _ _ _ _ E) end.
    match goal with E : PE.signature_rejected _ _ = _ |- _ => rewrite E end. cbn. lia.
  - destruct Hpt as [_ ->]. cbn. lia.
  - destruct Hpt as [[_ ->] _]. cbn. lia.
Qed.

Lemma balance_in_flight x t pt sh pt' sh' :
  rejected x = true → pt_local cfg txs pt sh → pt_local cfg txs pt' sh' →
  thread_step cfg txs t pt sh = Some (pt', sh') →
  queue_weight (Nat.eqb x) (Sched.ready_queue (sched sh'))
    + weight (Nat.eqb x) (in_flight pt') + marks x pt =
  queue_weight (Nat.eqb x) (Sched.ready_queue (sched sh))
    + weight (Nat.eqb x) (in_flight pt).
Proof.
  intros Hx Hpt Hpt' H.
  assert (∀ y, abortable cfg txs y → Nat.b2n (x =? y) = 0) as Hab.
  { intros y [_ Hy]. destruct (Nat.eqb_spec x y) as [->|]; [congruence|done]. }
  step_cases pt H; try done; weigh; try reflexivity; try lia.
  - rewrite Hab; [lia|apply Hpt'].
  - rewrite Hab; [lia|apply Hpt].
  - rewrite Hab; [lia|apply Hpt].
  - rewrite Hab; [lia|apply Hpt].
Qed.

(** ** The invariant *)

(** A step that does not mark [x] keeps it fresh. *)
Lemma fresh_step x st st' t pt pt' :
  Inv cfg txs st → threads st !! t = Some pt →
  thread_step cfg txs t pt (shared st) = Some (pt', shared st') →
  threads st' = <[t := pt']> (threads st) →
  marks x pt = 0 → fresh x st → fresh x st'.
Proof.
  intros HI Ht H Hth Hm [Hpos Hst Hmk Hstore].
  pose proof (inv_local _ _ _ HI t pt Ht) as Hpt.
  pose proof (Hmk t) as Hmk_t. pose proof (Hstore t) as Hstore_t. rewrite Ht in Hmk_t, Hstore_t. clear HI Ht.
  destruct st as [sh ths], st' as [sh' ths']; cbn in *. split; cbn.
  - step_cases pt H; try exact Hpos. destruct Hpt as [-> _].
    destruct (decide (Sched.committed_idx (sched sh) = x)); [congruence|lia].
  - intros i. specialize (Hst i). step_cases pt H; try exact Hst.
    all: intros [[-> Hc]|[_ Hx]]%list_lookup_insert_Some_alt; [|by apply Hst].
    all: try discriminate Hc.
    by rewrite Nat.eqb_refl in Hm.
  - intros u. rewrite Hth. intros [[-> [= <-]]|[_ Hu]]%list_lookup_insert_Some_alt.
    + step_cases pt H. by apply (Hst incarnation).
    + by apply (Hmk u).
  - intros u. rewrite Hth. intros [[-> [= <-]]|[_ Hu]]%list_lookup_insert_Some_alt.
    + step_cases pt H. apply Hmk_t. f_equal. f_equal. lia.
    + by apply (Hstore u).
Qed.

Lemma CInv_step st st' :
  Inv cfg txs st → CInv st → step cfg txs st st' → CInv st'.
Proof.
  intros HI [Htot Honce Hfr] Hstep.
  pose proof (Inv_step _ _ _ _ HI Hstep) as HI'.
  destruct Hstep as [t (pt & pt' & Ht & Hs & Hth)%step_of_inv].
  pose proof (inv_local _ _ _ HI t pt Ht) as Hpt.
  assert (pt_local cfg txs pt' (shared st')) as Hpt'.
  { apply (inv_local _ _ _ HI' t). rewrite Hth.
    apply list_lookup_insert_eq. by eapply lookup_lt_Some. }
  assert (∀ x, rejected x = true →
    occurrences (Nat.eqb x) in_flight st' + marks x pt = occurrences (Nat.eqb x) in_flight st)
    as Hocc.
  { intros x Hx. pose proof (balance_in_flight x _ _ _ _ _ Hx Hpt Hpt' Hs).
    pose proof (occurrences_step (Nat.eqb x) in_flight st t pt pt' st' Ht Hth). lia. }
  split.
  - pose proof (balance_uncounted _ _ _ _ _ Hpt Hpt' Hs).
    pose proof (occurrences_step rejected uncounted st t pt pt' st' Ht Hth). lia.
  - intros x Hx. specialize (Hocc x Hx). specialize (Honce x Hx). lia.
  - intros x Hx H1. specialize (Hocc x Hx). specialize (Honce x Hx).
    apply (fresh_step x st st' t pt pt'); [done..|lia|]. apply Hfr; [done|lia].
Qed.

Lemma queue_weight_init f i n :
  queue_weight f ((λ idx, (idx, 0)) <$> seq i n) = sum_list ((λ x, Nat.b2n (f x)) <$> seq i n).
Proof. unfold queue_weight. by rewrite <- list_fmap_compose. Qed.

Lemma count_seq x i n : sum_list ((λ y, Nat.b2n (x =? y)) <$> seq i n) ≤ 1 ∧
  (x < i → sum_list ((λ y, Nat.b2n (x =? y)) <$> seq i n) = 0).
Proof.
  revert i. induction n as [|n IH]; intros i; [cbn; lia|].
  cbn -[Nat.eqb]. destruct (IH (S i)) as [H1 H2].
  destruct (Nat.eqb_spec x i); cbn -[Nat.eqb]; lia.
Qed.

Lemma count_seq_lt x n : sum_list ((λ y, Nat.b2n (x =? y)) <$> seq 0 n) = Nat.b2n (x <? n).
Proof.
  induction n as [|n IH]; [done|]. rewrite seq_S, fmap_app, sum_list_with_app, IH. cbn -[Nat.ltb Nat.eqb].
  destruct (Nat.eqb_spec x n), (Nat.ltb_spec x n), (Nat.ltb_spec x (S n)); cbn; lia.
Qed.

Lemma threads_weight_init f g k :
  g LoadDone = None → sum_list ((λ pt, weight f (g pt)) <$> replicate k LoadDone) = 0.
Proof. intros Hg. induction k; [done|]. cbn. by rewrite Hg, IHk. Qed.

Lemma CInv_init : CInv (init cfg txs).
Proof.
  split.
  - unfold occurrences. cbn [init shared threads sched Sched.new Sched.ready_queue fail_count].
    rewrite queue_weight_init, threads_weight_init by done. unfold total_rejected. lia.
  - intros x _. unfold occurrences. cbn [init shared threads sched Sched.new Sched.ready_queue].
    rewrite queue_weight_init, threads_weight_init by done.
    pose proof (proj1 (count_seq x 0 (length txs))). lia.
  - intros x _ _. split; cbn; [lia| | |].
    + intros inc [[=] _]%lookup_replicate.
    + intros t [[=] _]%lookup_replicate.
    + intros t [[=] _]%lookup_replicate.
Qed.

Lemma CInv_reachable st : reachable cfg txs st → CInv st.
Proof.
  apply (reachable_ind_step cfg txs); [apply CInv_init|].
  intros s1 s2 Hr HC Hs. eapply CInv_step; [by apply Inv_reachable|done..].
Qed.

(** ** The counts at the end *)

Lemma finished_done st :
  reachable cfg txs st → 0 < PE.num_threads cfg → finished st →
  Sched.committed_idx (sched (shared st)) = length txs.
Proof.
  intros Hr Hk Hfin. pose proof (Inv_reachable _ _ _ Hr) as HI.
  assert (length (threads st) = PE.num_threads cfg) as Hlen.
  { revert st Hr Hfin HI. clear Hk. intros st Hr _ _. revert st Hr.
    apply (reachable_ind_step cfg txs); [apply length_replicate|].
    intros s1 s2 _ IH [t (pt & pt' & _ & _ & ->)%step_of_inv]. by rewrite length_insert. }
  destruct (threads st) as [|pt l] eqn:E; [cbn in Hlen; lia|].
  assert (pt = Exited) as -> by (unfold finished in Hfin; rewrite E in Hfin; by inversion Hfin).
  pose proof (inv_local _ _ _ HI 0 Exited) as Hd. rewrite E in Hd.
  specialize (Hd eq_refl). cbn in Hd.
  destruct (inv_shared _ _ _ HI) as [[_ _ Hc Hdone] Hn _].
  specialize (Hdone Hd). lia.
Qed.

Lemma total_rejected_le : total_rejected ≤ length txs.
Proof.
  unfold total_rejected. rewrite <- (length_seq (length txs) 0) at 2.
  generalize (seq 0 (length txs)) as l. induction l as [|x l IH]; [done|].
  cbn. destruct (WInv.rejected cfg txs x); cbn; lia.
Qed.

Lemma occurrences_pos x inc g st :
  (x, inc) ∈ Sched.ready_queue (sched (shared st)) → 1 ≤ occurrences (Nat.eqb x) g st.
Proof.
  intros Hin. unfold occurrences.
  destruct (queue_weight (Nat.eqb x) (Sched.ready_queue (sched (shared st)))) eqn:E; [|lia].
  rewrite queue_weight_0 in E. specialize (E _ Hin). cbn in E.
  by rewrite Nat.eqb_refl in E.
Qed.

Lemma finished_fail_count st :
  reachable cfg txs st → 0 < PE.num_threads cfg → finished st →
  fail_count (shared st) = total_rejected.
Proof.
  intros Hr Hk Hfin. pose proof (CInv_reachable _ Hr) as [Htot Honce Hfr].
  pose proof (finished_done _ Hr Hk Hfin) as Hc.
  rewrite <- Htot. unfold occurrences.
  replace (sum_list _) with 0; [|symmetry].
  - replace (queue_weight _ _) with 0; [lia|symmetry]. apply queue_weight_0.
    intros [x inc] Hin. cbn. destruct (rejected x) eqn:Hx; [|done]. exfalso.
    pose proof (occurrences_pos x inc in_flight st Hin).
    destruct (Hfr x Hx) as [Hpos _ _ _]; [specialize (Honce x Hx); lia|].
    unfold WInv.rejected in Hx. destruct (txs !! x) eqn:E; [|done].
    apply lookup_lt_Some in E. lia.
  - unfold finished in Hfin. induction Hfin as [|pt l -> _ IH]; [done|]. cbn. exact IH.
Qed.
End Count.
End WCount.
