(* ===== verification/WorkersSafety.v ===== *)
(** * Safety of the parallel executor under every schedule

    The theorems about all interleavings: no worker panics, locks exclude each
    other, the commit position only advances, the result counts are exact, and
    the only way for the workers to block for good is the lock-order inversion
    between [next_task] and [abort_transaction]. *)

From stdpp Require Import base option list gmap relations.
From Stdlib Require Import ZArith Lia.
From S2P Require Import Prelude Integers Externals Types MVHashMap Scheduler ParallelExecutor.
From S2P Require Import Workers WorkersInv WorkersCount.

Module WSafety.
Import Workers WInv WCount.

Section Safety.
Context {A : Alloy} {D : DashMapImpl Address} {DL : DashMapLaws D}.
Context (cfg : PE.ExecutorConfig) (txs : list PE.Transaction).
Implicit Types (st : State) (t u x : nat).

Definition holds_exit (pt : Point) : bool :=
  match pt with Exited => true | _ => false end.

Lemma blocked_step st t pt :
  step_of cfg txs st t = None → threads st !! t = Some pt →
  thread_step cfg txs t pt (shared st) = None.
Proof.
  unfold step_of. intros H Ht. rewrite Ht in H. cbn in H.
  by destruct (thread_step _ _ _ _ _) as [[? ?]|].
Qed.

Lemma queue_owner st t :
  Inv cfg txs st → queue_lock (shared st) = Some t →
  ∃ x inc, threads st !! t = Some (MarkExecuting x inc).
Proof.
  intros HI Hq. destruct (lookup_lt_is_Some_2 (threads st) t) as [pt Ht].
  { by apply (inv_owner_queue _ _ _ HI). }
  apply (lk_queue _ _ _ (inv_locks _ _ _ HI t pt Ht)) in Hq.
  destruct pt; try discriminate. eauto.
Qed.

Lemma status_owner st t x :
  Inv cfg txs st → status_locks (shared st) !! x = Some t →
  ∃ inc rest, threads st !! t = Some (PushAborted x inc rest).
Proof.
  intros HI Hs. destruct (lookup_lt_is_Some_2 (threads st) t) as [pt Ht].
  { by apply (inv_owner_status _ _ _ HI x). }
  apply (lk_status _ _ _ (inv_locks _ _ _ HI t pt Ht)) in Hs.
  destruct pt; simplify_eq/=. eauto.
Qed.

(** The lock-order inversion: [t] holds the queue and waits for [x]'s status,
    [u] holds [x]'s status and waits for the queue. *)
Definition lock_inversion (st : State) (t u x : nat) : Prop :=
  (∃ inc, threads st !! t = Some (MarkExecuting x inc)) ∧
  (∃ inc rest, threads st !! u = Some (PushAborted x inc rest)) ∧
  queue_lock (shared st) = Some t ∧ status_locks (shared st) !! x = Some u.

(** The threads that hold a lock another thread in its loop may wait for. *)
Definition lock_holder (pt : Point) : bool :=
  match pt with MarkExecuting _ _ | PushAborted _ _ _ => true | _ => false end.

(** No lock holder can step. *)
Definition holders_blocked (st : State) : Prop :=
  ∀ u pt, threads st !! u = Some pt → lock_holder pt = true → step_of cfg txs st u = None.

Lemma blocked_queue st t :
  Inv cfg txs st → holders_blocked st →
  queue_lock (shared st) = Some t → ∃ u x, lock_inversion st t u x.
Proof.
  intros HI Hb Hq. destruct (queue_owner st t HI Hq) as (x & inc & Ht).
  pose proof (blocked_step _ _ _ (Hb t _ Ht eq_refl) Ht) as H. cbn in H.
  destruct (status_locks (shared st) !! x) as [u|] eqn:Hs.
  - destruct (status_owner st u x HI Hs) as (inc' & rest & Hu).
    exists u, x. split_and!; eauto.
  - by destruct (Sched.store_status _ _ _).
Qed.

Lemma blocked_status st u x :
  Inv cfg txs st → holders_blocked st →
  status_locks (shared st) !! x = Some u → ∃ t u' x', lock_inversion st t u' x'.
Proof.
  intros HI Hb Hs. destruct (status_owner st u x HI Hs) as (inc & rest & Hu).
  pose proof (blocked_step _ _ _ (Hb u _ Hu eq_refl) Hu) as H. cbn in H.
  destruct (queue_lock (shared st)) as [t|] eqn:Hq; [|done].
  destruct (blocked_queue st t HI Hb Hq) as (u' & x' & ?). eauto.
Qed.

Lemma blocked_thread st t pt :
  Inv cfg txs st → holders_blocked st → step_of cfg txs st t = None →
  threads st !! t = Some pt → pt = Exited ∨ ∃ t u x, lock_inversion st t u x.
Proof.
  intros HI Hb Hn Ht. pose proof (blocked_step _ _ _ Hn Ht) as H.
  pose proof (inv_local _ _ _ HI t pt Ht) as Hpt.
  destruct pt; cbn in H; try discriminate H; repeat case_match; try discriminate; eauto.
  all: try match goal with
       | E : queue_lock _ = Some ?o |- _ =>
           right; destruct (blocked_queue st o HI Hb E) as (? & ? & ?); eauto
       | E : status_locks _ !! ?x = Some ?o |- _ =>
           right; exact (blocked_status st o x HI Hb E)
       end.
  destruct Hpt.
Qed.

(** C23: no interleaving makes a worker panic: every transaction index a
    thread takes from the queue, commits or invalidates is within the status
    vector and the block, and the status vector keeps the block's length. *)
Theorem workers_never_panic st t pt :
  reachable cfg txs st → threads st !! t = Some pt →
  pt ≠ Panicked ∧
  length (Sched.statuses (sched (shared st))) = length txs ∧
  (∀ p, p ∈ Sched.ready_queue (sched (shared st)) → p.1 < length txs).
Proof.
  intros Hr Ht. pose proof (Inv_reachable _ _ _ Hr) as HI.
  destruct (inv_shared _ _ _ HI) as [[Hlen Hq _ _] Hn _].
  split_and!; [|by rewrite Hlen|by rewrite <- Hn].
  intros ->. apply (inv_local _ _ _ HI t Panicked Ht).
Qed.

(** The commit lock admits one committer at a time, and its local position
    is the shared [committed_idx]: in every reachable state two threads inside
    [try_commit_transactions] are the same thread, and a thread about to mark
    transaction [c] committed has [c = committed_idx < num_txns]. *)
Theorem commit_exclusion st t u pt pu :
  reachable cfg txs st → threads st !! t = Some pt → threads st !! u = Some pu →
  in_commit pt = true →
  (in_commit pu = true → t = u) ∧
  (∀ c, pt = CommitMark c → c = Sched.committed_idx (sched (shared st)) ∧ c < length txs).
Proof.
  intros Hr Ht Hu Hct. pose proof (Inv_reachable _ _ _ Hr) as HI. split.
  - intros Hcu. apply (lk_commit _ _ _ (inv_locks _ _ _ HI t pt Ht)) in Hct.
    apply (lk_commit _ _ _ (inv_locks _ _ _ HI u pu Hu)) in Hcu. congruence.
  - intros c ->. apply (inv_local _ _ _ HI t _ Ht).
Qed.

(** The commit position never goes back, never passes the end of the
    block, and the [done] flag is only set when the whole block is committed
    and is never cleared. *)
Theorem commit_position_monotone st st' :
  reachable cfg txs st → step cfg txs st st' →
  let c := Sched.committed_idx (sched (shared st)) in
  let c' := Sched.committed_idx (sched (shared st')) in
  c ≤ c' ≤ length txs ∧
  (Sched.done (sched (shared st')) = true → c' = length txs) ∧
  (Sched.done (sched (shared st)) = true → Sched.done (sched (shared st')) = true).
Proof.
  intros Hr Hs c c'. pose proof (Inv_reachable _ _ _ Hr) as HI.
  destruct (inv_shared _ _ _ (Inv_step _ _ _ _ HI Hs)) as [[_ _ Hc Hd] Hn _].
  destruct Hs as [t (pt & pt' & Ht & Hs & _)%step_of_inv].
  pose proof (step_committed _ _ _ _ _ _ _ (inv_local _ _ _ HI t pt Ht) Hs) as [Hle _].
  subst c c'. split_and!; [done|lia| |by apply (step_done _ _ _ _ _ _ _ Hs)].
  intros Hd'. specialize (Hd Hd'). lia.
Qed.

(** C1: when [execute_block] returns (at least one worker, all of them
    joined), under every schedule: the whole block is committed, [failed] is
    exactly the number of transactions whose signature is rejected, and
    [successful] is the rest; the subtraction does not wrap around. *)
Theorem result_counts_exact st :
  reachable cfg txs st → 0 < PE.num_threads cfg → finished st →
  (Z.of_nat (length txs) < u64_modulus)%Z →
  PE.failed (block_result st) = Z.of_nat (total_rejected cfg txs) ∧
  PE.successful (block_result st) =
    (Z.of_nat (length txs) - Z.of_nat (total_rejected cfg txs))%Z ∧
  total_rejected cfg txs ≤ length txs.
Proof.
  intros Hr Hk Hfin Hlen.
  pose proof (finished_done _ _ _ Hr Hk Hfin) as Hc.
  pose proof (finished_fail_count _ _ _ Hr Hk Hfin) as Hf.
  pose proof (total_rejected_le cfg txs) as Hle.
  unfold block_result, Sched.committed_count; cbn. rewrite Hc, Hf.
  split_and!; [done| |done]. apply usize_sub_small; lia.
Qed.

(** The only permanent block is the lock-order inversion.  If no thread
    can step in a reachable state, then either every worker has left its loop,
    or some thread in [next_task] holds the queue and waits for the status of
    a transaction [x] while another in [abort_transaction] holds that status
    and waits for the queue. *)
Theorem blocked_only_by_inversion st :
  reachable cfg txs st → (∀ t, step_of cfg txs st t = None) →
  finished st ∨ ∃ t u x, lock_inversion st t u x.
Proof.
  intros Hr Hb. pose proof (Inv_reachable _ _ _ Hr) as HI.
  destruct (decide (Forall (λ pt, holds_exit pt = true) (threads st))) as [Hf|Hf].
  - left. unfold finished. eapply Forall_impl; [exact Hf|]. by intros [].
  - right. apply not_Forall_Exists in Hf; [|apply _].
    apply Exists_exists in Hf as (pt & Hin & Hpt).
    apply list_elem_of_lookup in Hin as [t Ht].
    destruct (blocked_thread st t pt HI (λ u _ _ _, Hb u) (Hb t) Ht) as [->|H]; [by destruct Hpt|done].
Qed.
End Safety.
End WSafety.
