(* ===== verification/SoloWorker.v ===== *)
(** * One worker alone

    [worker_iteration] is one turn of [worker_loop] composed from the methods
    run without interference ([Sched.next_task], [PE.execute_transaction],
    [Sched.finish_execution]).  The interleaved steps of [Workers] refine it:
    a thread that runs while no lock is taken performs exactly that turn.  With
    one worker this is every execution, and the block's result is the ledger's. *)

From stdpp Require Import base option list gmap relations.
From Stdlib Require Import ZArith Lia.
From S2P Require Import Prelude Integers Externals Types MVHashMap Scheduler ParallelExecutor.
From S2P Require Import Ledger Workers WorkersInv WorkersCount.

Module Solo.
Import Workers.

Section Iteration.
Context {A : Alloy} {D : DashMapImpl Address}.
Context (cfg : PE.ExecutorConfig) (txs : list PE.Transaction).
Implicit Types (sh : Shared) (pt : Point) (s : Sched.Scheduler).
#[local] Arguments Nat.ltb : simpl never.
#[local] Arguments Nat.leb : simpl never.

(** The counters and the invalidation list after the result of a transaction. *)
Definition on_result (result : PE.ExecutionError + PE.ExecutionOk) sh : Shared * list nat :=
  match result with
  | inr (_, _, invalidated) =>
      (set_counts (execution_count sh) (success_count sh + 1) (fail_count sh) sh, invalidated)
  | inl PE.Retry => (sh, [])
  | inl (PE.Permanent _) =>
      (set_counts (execution_count sh) (success_count sh) (fail_count sh + 1) sh, [])
  end.

(** The [Task::Execute] arm. *)
Definition execute_task sh (idx inc : nat) : option Shared :=
  let sh := set_counts (execution_count sh + 1) (success_count sh) (fail_count sh) sh in
  tx ← txs !! idx;
  let '(result, mv') :=
    PE.execute_transaction tx idx inc (mv sh) (PE.initial_states cfg) (PE.verify_signatures cfg) in
  let '(sh, invalidated) := on_result result (set_mv mv' sh) in
  s ← Sched.finish_execution (sched sh) idx inc invalidated;
  Some (set_sched s sh).

(** One turn of the loop; [false] is the [break], [None] a panic. *)
Definition worker_iteration sh : option (Shared * bool) :=
  '(s, task) ← Sched.next_task (sched sh);
  let sh := set_sched s sh in
  match task with
  | Sched.Execute idx inc => sh ← execute_task sh idx inc; Some (sh, true)
  | Sched.Wait => Some (sh, true)
  | Sched.Done => Some (sh, false)
  end.

(** ** The steps of one thread *)

Definition local_step (t : nat) (c c' : Point * Shared) : Prop :=
  thread_step cfg txs t c.1 c.2 = Some c'.

Abbreviation steps_to t := (rtc (local_step t)).

(** No lock is taken. *)
Record unlocked sh : Prop := {
  un_queue : queue_lock sh = None;
  un_status : status_locks sh = ∅;
  un_commit : Sched.commit_lock (sched sh) = None;
}.

Lemma step_one t pt sh c c' :
  thread_step cfg txs t pt sh = Some c → steps_to t c c' → steps_to t (pt, sh) c'.
Proof. intros. by eapply rtc_l. Qed.

(** Takes the steps of the goal that compute. *)
Ltac advance := eapply step_one; [cbn; reflexivity|].

Lemma solo_next_task t sh s task :
  unlocked sh → Sched.next_task (sched sh) = Some (s, task) →
  steps_to t (LoadDone, sh)
    (match task with
     | Sched.Execute idx inc => Begin idx inc | Sched.Wait => LoadDone | Sched.Done => Exited
     end, set_sched s sh).
Proof.
  intros [Hq Hs Hc]. destruct sh as [sc m ql sl e su f]; cbn in *. subst ql sl.
  unfold Sched.next_task. destruct (Sched.done sc) eqn:Hd.
  { intros [= <- <-]. eapply step_one; [cbn; by rewrite Hd|]. reflexivity. }
  intros H. eapply step_one; [cbn; by rewrite Hd|].
  destruct (Sched.ready_queue sc) as [|[idx inc] q] eqn:Hrq.
  - eapply step_one; [cbn; by rewrite Hrq|].
    eapply step_one; [cbn; reflexivity|].
    destruct (_ <=? _); simplify_eq/=; [|reflexivity].
    eapply step_one; [done|]. reflexivity.
  - eapply step_one; [cbn; by rewrite Hrq|].
    destruct (Sched.store_status _ _ _) as [s'|] eqn:Hst; simplify_eq/=.
    eapply step_one; [cbn; by rewrite lookup_empty, Hst|]. reflexivity.
Qed.

(** The two writes of a transaction. *)
Lemma solo_write t sh j a st rest inv :
  steps_to t (HasLower j (a, st) rest inv, sh)
    (let '(m, res) := MV.write (mv sh) a (j_idx j) (j_inc j) st in
     let inv := inv ++ MV.invalidated_readers res in
     (match rest with
      | w' :: rest' => HasLower j w' rest' inv
      | [] => CountSuccess j (vec_dedup (sort_unstable inv))
      end, set_mv m sh)).
Proof.
  advance. unfold MV.write.
  pose proof (eq_refl (MV.write_entry (mv sh) a (j_idx j) (j_inc j) st)) as E.
  destruct (MV.write_entry (mv sh) a (j_idx j) (j_inc j) st) as [m more] eqn:Ew in E |- *.
  clear E. destruct (MV.has_lower_version _ _ _) eqn:Hl.
  - eapply step_one; [cbn; by rewrite Ew|]. reflexivity.
  - advance. eapply step_one; [cbn; by rewrite Ew|]. cbn. by rewrite app_assoc.
Qed.

(** [execute_transaction] and the counting of its result. *)
Lemma solo_execute t sh idx inc tx :
  txs !! idx = Some tx →
  steps_to t (Begin idx inc, sh)
    (let sh := set_counts (execution_count sh + 1) (success_count sh) (fail_count sh) sh in
     let '(result, mv') := PE.execute_transaction tx idx inc (mv sh)
                             (PE.initial_states cfg) (PE.verify_signatures cfg) in
     let '(sh, invalidated) := on_result result (set_mv mv' sh) in
     (SetExecuted (mkJob idx inc tx) invalidated, sh)).
Proof.
  intros Htx. eapply step_one; [cbn; by rewrite Htx|].
  unfold PE.execute_transaction.
  destruct (PE.signature_rejected _ _) eqn:Hrej.
  { advance. destruct sh; cbn. reflexivity. }
  advance. eapply step_one; [cbn; reflexivity|]. cbn.
  destruct (PE.must_retry _ _) eqn:Hretry; [by destruct sh|].
  advance. eapply step_one; [cbn; reflexivity|]. cbn.
  etransitivity; [apply solo_write|]. cbn.
  destruct (MV.write _ _ _ _ _) as [m1 res1]. cbn.
  etransitivity; [apply solo_write|]. cbn.
  destruct (MV.write _ _ _ _ _) as [m2 res2]. cbn.
  advance. destruct sh; cbn. reflexivity.
Qed.

(** The abort loop. *)
Lemma solo_abort t sh l s :
  queue_lock sh = None → status_locks sh = ∅ → Sched.abort_all (sched sh) l = Some s →
  steps_to t (Aborting l, sh) (TryLock, set_sched s sh).
Proof.
  revert sh. induction l as [|x l IH]; intros sh Hq Hs H; cbn in H.
  { simplify_eq. eapply step_one; [done|]. by destruct sh. }
  destruct (Sched.abort_transaction (sched sh) x) as [s1|] eqn:E; [|done]. cbn in H.
  unfold Sched.abort_transaction in E.
  destruct (Sched.statuses (sched sh) !! x) as [st|] eqn:Hst; [|done]. cbn in E.
  destruct sh as [sc m ql sl e su f]; cbn in *; subst ql sl.
  assert (∀ inc, Some (Sched.set_ready_queue (Sched.ready_queue sc ++ [(x, inc + 1)])
              (Sched.set_statuses (<[x:=Pending]> (Sched.statuses sc)) sc)) = Some s1 →
    steps_to t
      (PushAborted x (inc + 1) l,
       mkShared (Sched.set_statuses (<[x:=Pending]> (Sched.statuses sc)) sc) m None
         (<[x:=t]> ∅) e su f)
      (TryLock, mkShared s m None ∅ e su f)) as Hpush.
  { intros inc [= <-]. eapply step_one; [cbn; reflexivity|].
    rewrite delete_insert_id by apply lookup_empty.
    by apply (IH (mkShared _ m None ∅ e su f)). }
  destruct st as [|inc|inc|]; cycle 1.
  1,2: eapply step_one; [cbn; rewrite lookup_empty, Hst; reflexivity|]; by apply Hpush.
  all: simplify_eq; eapply step_one; [cbn; rewrite lookup_empty, Hst; reflexivity|].
  all: by apply (IH (mkShared _ m None ∅ e su f)).
Qed.

(** The commit loop, with the lock held. *)
Lemma solo_commit_loop t fuel sh c s k :
  status_locks sh = ∅ → Sched.num_txns (sched sh) - c ≤ fuel →
  Sched.commit_loop fuel (sched sh) c = Some (s, k) →
  steps_to t (CommitRead c, set_sched (Sched.set_commit_lock (Some t) (sched sh)) sh)
    (CommitDone k, set_sched (Sched.set_commit_lock (Some t) s) sh).
Proof.
  revert sh c. induction fuel as [|fuel IH]; intros sh c Hs Hf H; cbn [Sched.commit_loop] in H.
  { simplify_eq. eapply step_one; [cbn; by rewrite (proj2 (Nat.ltb_ge _ _)) by lia|]. reflexivity. }
  destruct (c <? Sched.num_txns (sched sh)) eqn:Hc.
  2:{ simplify_eq. eapply step_one; [cbn; by rewrite Hc|]. reflexivity. }
  destruct (Sched.statuses (sched sh) !! c) as [st|] eqn:Hst; [|done]. cbn in H.
  assert (Hs' : status_locks sh !! c = None) by (by rewrite Hs, lookup_empty).
  destruct st as [|inc|inc|].
  3:{ destruct (Sched.store_status (sched sh) c Committed) as [s1|] eqn:Est; [|done]. cbn in H.
      unfold Sched.store_status in Est. case_decide as Hlen; [|done]. simplify_eq.
      eapply step_one; [cbn; by rewrite Hc, Hs', Hst|].
      eapply step_one; [cbn; rewrite Hs'; unfold Sched.store_status; cbn; by rewrite decide_True|].
      eapply step_one; [cbn; reflexivity|].
      apply (IH (set_sched (Sched.set_committed_idx (c + 1)
        (Sched.set_statuses (<[c:=Committed]> (Sched.statuses (sched sh))) (sched sh))) sh));
        [done|cbn; apply Nat.ltb_lt in Hc; lia|done]. }
  all: simplify_eq; eapply step_one; [cbn; by rewrite Hc, Hs', Hst|]; reflexivity.
Qed.

Lemma abort_all_frame s l s' :
  Sched.abort_all s l = Some s' →
  Sched.commit_lock s' = Sched.commit_lock s ∧ Sched.num_txns s' = Sched.num_txns s ∧
  Sched.committed_idx s' = Sched.committed_idx s.
Proof.
  revert s. induction l as [|x l IH]; intros s H; cbn in H; [by simplify_eq|].
  unfold Sched.abort_transaction in H.
  destruct (Sched.statuses s !! x) as [[]|]; cbn in H; try done; apply IH in H; done.
Qed.

Lemma commit_loop_frame fuel s c s' k :
  Sched.commit_loop fuel s c = Some (s', k) →
  Sched.commit_lock s' = Sched.commit_lock s ∧ Sched.num_txns s' = Sched.num_txns s.
Proof.
  revert s c. induction fuel as [|fuel IH]; intros s c H; cbn in H; [by simplify_eq|].
  destruct (_ <? _); [|by simplify_eq].
  destruct (_ !! _) as [[]|]; cbn in H; simplify_eq; try done.
  unfold Sched.store_status in H. case_decide; [|done]. apply IH in H. done.
Qed.

(** [try_lock] and the commit. *)
Lemma solo_commit t sh s :
  status_locks sh = ∅ → Sched.commit_lock (sched sh) = None →
  Sched.try_commit_transactions (sched sh) = Some s →
  steps_to t (TryLock, sh) (LoadDone, set_sched s sh) ∧ Sched.commit_lock s = None.
Proof.
  intros Hs Hc. unfold Sched.try_commit_transactions.
  destruct (Sched.commit_loop _ _ _) as [[s1 k]|] eqn:E; [|done]. cbn. intros [= <-].
  destruct (commit_loop_frame _ _ _ _ _ E) as [Hl Hn]. split; [|by case_match; cbn; congruence].
  eapply step_one; [cbn; by rewrite Hc|].
  eapply step_one; [cbn; reflexivity|].
  etransitivity; [by apply (solo_commit_loop _ _ _ _ _ _ Hs (le_n _) E)|].
  eapply step_one; [cbn; reflexivity|]. rewrite Hn.
  destruct (Sched.num_txns (sched sh) <=? k).
  all: eapply step_one; [cbn; reflexivity|]; destruct s1; cbn in *; rewrite Hl, Hc; reflexivity.
Qed.

(** [finish_execution]. *)
Lemma solo_finish t sh j l s :
  unlocked sh → Sched.finish_execution (sched sh) (j_idx j) (j_inc j) l = Some s →
  steps_to t (SetExecuted j l, sh) (LoadDone, set_sched s sh) ∧ Sched.commit_lock s = None.
Proof.
  intros [Hq Hs Hc] H. unfold Sched.finish_execution in H.
  destruct (Sched.store_status (sched sh) _ _) as [s1|] eqn:E; [|done]. cbn in H.
  set (s2 := if j_inc j =? 0 then _ else _) in H.
  destruct (Sched.abort_all s2 l) as [s3|] eqn:Ea; [|done]. cbn in H.
  assert (Sched.commit_lock s1 = None) as H1.
  { unfold Sched.store_status in E. case_decide; simplify_eq. done. }
  assert (Sched.commit_lock s3 = None) as H3.
  { rewrite (proj1 (abort_all_frame _ _ _ Ea)). subst s2. by destruct (j_inc j =? 0). }
  rewrite H3 in H.
  destruct (solo_commit t (set_sched s3 sh) s Hs H3 H) as [Hcm Hcl]. split; [|done].
  eapply step_one; [cbn; by rewrite Hs, lookup_empty, E|].
  eapply step_one; [cbn; reflexivity|].
  etransitivity; [|exact Hcm].
  etransitivity; [|apply (solo_abort t (set_sched s2 sh) l s3 Hq Hs Ea)].
  subst s2. cbn. destruct (j_inc j =? 0); reflexivity.
Qed.

(** ** The turn of a worker *)

Lemma next_task_commit_lock s s' task :
  Sched.next_task s = Some (s', task) → Sched.commit_lock s' = Sched.commit_lock s.
Proof.
  unfold Sched.next_task. intros H. repeat case_match; simplify_eq/=; try done.
  unfold Sched.store_status in H. case_decide; by simplify_eq/=.
Qed.

Lemma on_result_frame result sh :
  sched (on_result result sh).1 = sched sh ∧ mv (on_result result sh).1 = mv sh ∧
  queue_lock (on_result result sh).1 = queue_lock sh ∧
  status_locks (on_result result sh).1 = status_locks sh.
Proof. by destruct result as [[]|[[] ?]]. Qed.

(** One turn, step by step. *)
Lemma worker_iteration_steps t sh sh' continue :
  unlocked sh → worker_iteration sh = Some (sh', continue) →
  steps_to t (LoadDone, sh) (if continue then LoadDone else Exited, sh') ∧ unlocked sh'.
Proof.
  intros Hun. unfold worker_iteration.
  destruct (Sched.next_task (sched sh)) as [[s task]|] eqn:Hnt; [|done]. cbn.
  pose proof (solo_next_task t sh s task Hun Hnt) as Hsteps.
  assert (unlocked (set_sched s sh)) as Hun1.
  { destruct Hun as [Hq Hs Hc]. split; cbn; [done..|].
    by rewrite (next_task_commit_lock _ _ _ Hnt). }
  destruct task as [idx inc| |]; [|by intros [= <- <-]..].
  unfold execute_task. destruct (txs !! idx) as [tx|] eqn:Htx; [|done]. cbn.
  pose proof (solo_execute t (set_sched s sh) idx inc tx Htx) as Hex. cbn in Hex.
  destruct (PE.execute_transaction _ _ _ _ _ _) as [result mv'].
  set (sh1 := set_mv mv' _) in Hex |- *.
  pose proof (on_result_frame result sh1) as (Hf1 & Hf2 & Hf3 & Hf4).
  destruct (on_result result sh1) as [sh2 l]. cbn in Hf1, Hf2, Hf3, Hf4.
  destruct (Sched.finish_execution _ _ _ _) as [s'|] eqn:Hfin; [|done].
  intros [= <- <-]. destruct Hun1 as [Hq Hs Hc].
  assert (unlocked sh2) as Hun2 by (split; rewrite ?Hf1, ?Hf3, ?Hf4; done).
  destruct (solo_finish t sh2 (mkJob idx inc tx) l s' Hun2 Hfin) as [Hst Hcl].
  split; [|by destruct Hun2; split].
  etransitivity; [exact Hsteps|]. etransitivity; [exact Hex|exact Hst].
Qed.

Lemma steps_to_rtc t pt sh pt' sh' ths :
  steps_to t (pt, sh) (pt', sh') → ths !! t = Some pt →
  rtc (step cfg txs) (mkState sh ths) (mkState sh' (<[t := pt']> ths)).
Proof.
  intros H. remember (pt, sh) as c eqn:Ec. remember (pt', sh') as c' eqn:Ec'.
  revert pt sh ths Ec. induction H as [c|c [pt1 sh1] c' Hs _ IH]; intros pt sh ths Ec Ht; subst.
  - simplify_eq. by rewrite list_insert_id.
  - unfold local_step in Hs. cbn in Hs.
    eapply rtc_l with (y := mkState sh1 (<[t := pt1]> ths)).
    + exists t. unfold step_of. cbn. rewrite Ht. cbn. by rewrite Hs.
    + rewrite <- (list_insert_insert_eq ths t pt' pt1). apply (IH eq_refl pt1 sh1); [done..|].
      apply list_lookup_insert_eq. by eapply lookup_lt_Some.
Qed.

(** C24: A worker that runs while no lock is taken performs one turn of
    [worker_loop]: with the other threads where they are, the interleaved steps
    of its thread lead exactly to the shared state that [next_task],
    [execute_transaction] and [finish_execution] run one after the other
    produce, with the locks free again and the loop left exactly when the turn
    leaves it. *)
Theorem worker_iteration_refined t st sh' continue :
  unlocked (shared st) → threads st !! t = Some LoadDone →
  worker_iteration (shared st) = Some (sh', continue) →
  rtc (step cfg txs) st
    (mkState sh' (<[t := if continue then LoadDone else Exited]> (threads st))) ∧
  unlocked sh'.
Proof.
  intros Hun Ht Hit. destruct (worker_iteration_steps t _ _ _ Hun Hit) as [Hs Hun'].
  split; [|done]. destruct st as [sh ths]. by apply (steps_to_rtc t LoadDone sh).
Qed.
End Iteration.
End Solo.
