(* ===== verification/Scenarios.v ===== *)
(** * Schedules that show what the protocol does not guarantee

    Concrete blocks, run on the concrete instance of the libraries under a
    written-out schedule: a deadlock, a lost commit after which the workers spin
    for ever, two ways a stale result is committed, and a committed transaction
    that is executed again.  The same runs are the witnesses of the safety
    theorems. *)

From stdpp Require Import base option list gmap relations.
From Stdlib Require Import ZArith Lia.
From S2P Require Import Prelude Integers Externals Types MVHashMap Scheduler ParallelExecutor.
From S2P Require Import Ledger Workers WorkersInv WorkersCount WorkersSafety.

Module Scenarios.
Import Workers.

(** ** Once no work is left and nobody holds the commit, nobody commits *)

Section Idle.
Context {A : Alloy} {D : DashMapImpl Address}.
Context (cfg : PE.ExecutorConfig) (txs : list PE.Transaction).

Definition polling (pt : Point) : bool :=
  match pt with LoadDone | PopQueue | LoadCommitted => true | _ => false end.

(** Every worker is in the polling part of [next_task], the queue is empty and
    the block is not committed. *)
Record idle (st : State) : Prop := {
  idle_queue : Sched.ready_queue (sched (shared st)) = [];
  idle_lock : queue_lock (shared st) = None;
  idle_done : Sched.done (sched (shared st)) = false;
  idle_committed : Sched.committed_idx (sched (shared st)) < Sched.num_txns (sched (shared st));
  idle_threads : Forall (λ pt, polling pt = true) (threads st);
  idle_some : 0 < length (threads st);
}.

Lemma idle_step st st' : idle st → step cfg txs st st' → idle st'.
Proof.
  intros [Hq Hl Hd Hc Hth Hsome] [t (pt & pt' & Ht & Hs & Hths)%WInv.step_of_inv].
  pose proof (proj1 (Forall_lookup _ _) Hth t pt Ht) as Hpt. cbn in Hpt.
  assert (shared st' = shared st ∧ polling pt' = true) as [Hsh Hpt'].
  { destruct pt; try discriminate Hpt; cbn in Hs.
    - rewrite Hd in Hs. by simplify_eq.
    - rewrite Hl, Hq in Hs. by simplify_eq.
    - rewrite (proj2 (Nat.leb_gt _ _)) in Hs by done. by simplify_eq. }
  split; rewrite ?Hsh, ?Hths, ?length_insert; try done. by apply Forall_insert.
Qed.

Lemma idle_steps st st' : idle st → rtc (step cfg txs) st st' → idle st'.
Proof. intros Hi Hr. induction Hr; [done|]. eauto using idle_step. Qed.

Lemma idle_forever st st' : idle st → rtc (step cfg txs) st st' → ¬ finished st'.
Proof.
  intros Hi Hr. destruct (idle_steps _ _ Hi Hr) as [_ _ _ _ Hth Hsome].
  unfold finished. intros Hfin. destruct (threads st') as [|pt l]; [cbn in Hsome; lia|].
  inversion Hfin; subst. inversion Hth; discriminate.
Qed.

Lemma forallb_finished st : forallb WSafety.holds_exit (threads st) = true → finished st.
Proof.
  unfold finished. induction (threads st) as [|pt l IH]; cbn; [constructor|].
  intros [Hpt Hl]%andb_prop. constructor; [by destruct pt|by apply IH].
Qed.

Lemma finished_forallb st : forallb WSafety.holds_exit (threads st) = false → ¬ finished st.
Proof.
  unfold finished. induction (threads st) as [|pt l IH]; cbn; [done|].
  intros H Hf. inversion Hf; subst. by apply IH.
Qed.

Lemma forallb_polling st :
  forallb polling (threads st) = true → Forall (λ pt, polling pt = true) (threads st).
Proof.
  induction (threads st) as [|pt l IH]; cbn; [constructor|].
  intros [Hpt Hl]%andb_prop. constructor; [done|by apply IH].
Qed.
End Idle.

(** ** Blocks *)

Definition acct (z : Z) : Address := addr_of z.

Definition tx (f t v n : Z) : PE.Transaction :=
  PE.mkTransaction (acct f) (acct t) (u256_of v) n None (u256_of 0).

(** Five accounts with 1000 wei each; signatures are not verified. *)
Definition config (threads : nat) : PE.ExecutorConfig :=
  PE.mkConfig threads false
    (list_to_map ((λ a, (acct a, AccountState_new 0 (u256_of 1000))) <$> [1; 2; 3; 4; 9]%Z)).

(** The state a schedule ends in. *)
Definition after (cfg : PE.ExecutorConfig) (txs : list PE.Transaction) (schedule : list nat) : State :=
  default (init cfg txs) (run cfg txs (init cfg txs) schedule).

Definition runs (cfg : PE.ExecutorConfig) (txs : list PE.Transaction) (schedule : list nat) : bool :=
  match run cfg txs (init cfg txs) schedule with Some _ => true | None => false end.

Lemma runs_run cfg txs schedule :
  runs cfg txs schedule = true →
  run cfg txs (init cfg txs) schedule = Some (after cfg txs schedule).
Proof.
  unfold runs, after. by destruct (run cfg txs (init cfg txs) schedule).
Qed.

Lemma after_reachable cfg txs schedule :
  runs cfg txs schedule = true → reachable cfg txs (after cfg txs schedule).
Proof. intros H%runs_run. eapply run_reachable; [apply rtc_refl|exact H]. Qed.

Lemma after_step cfg txs schedule t :
  runs cfg txs (schedule ++ [t]) = true →
  step cfg txs (after cfg txs schedule) (after cfg txs (schedule ++ [t])).
Proof.
  intros H%runs_run. exists t. revert H.
  generalize (after cfg txs (schedule ++ [t])) as st'. intros st' H.
  rewrite run_app in H. unfold after.
  destruct (run cfg txs (init cfg txs) schedule) as [st|]; [|done].
  cbn in H |- *. destruct (step_of cfg txs st t); by simplify_eq/=.
Qed.

(** [n] steps of thread [t]. *)
Definition steps (n t : nat) : list nat := replicate n t.

(** Transaction 0 pays account 1, transaction 1 spends from it. *)
Definition block_credit : list PE.Transaction := [tx 9 1 10 0; tx 1 2 1 0].
Definition block_independent : list PE.Transaction := [tx 1 2 1 0; tx 3 4 1 0].
Definition block_chain : list PE.Transaction := [tx 9 1 10 0; tx 1 2 1 0; tx 1 3 1 1].
Definition block_inversion : list PE.Transaction := [tx 3 1 1 0; tx 4 2 1 0; tx 1 2 1 0].
Definition block_reverted : list PE.Transaction := [tx 9 1 10 0; tx 1 2 1 0; tx 3 4 1 0].

(** Transaction 2 runs first; transaction 0 aborts it while it executes; it
    finishes, is popped again, and is aborted a second time by transaction 1. *)
Definition schedule_inversion : list nat :=
  steps 4 0 ++ steps 4 1 ++ steps 15 2 ++ steps 16 0 ++ steps 13 2 ++ steps 14 1 ++ steps 5 0.

(** Worker 1 finishes transaction 1 while worker 0, which found it still
    executing, has not yet released the commit lock. *)
Definition schedule_lost_commit : list nat :=
  steps 4 0 ++ steps 4 1 ++ steps 21 0 ++ steps 15 1 ++ steps 1 0.

(** Transaction 0 writes between transaction 1's read and its recording. *)
Definition schedule_unrecorded : list nat :=
  steps 4 0 ++ steps 5 1 ++ steps 22 0 ++ steps 21 1 ++ steps 1 0.

(** Transaction 0 finds that transaction 1 read too early; before it aborts it, the
    other worker commits both. *)
Definition schedule_late_abort : list nat :=
  steps 4 0 ++ steps 18 1 ++ steps 12 0 ++ steps 12 1 ++ steps 9 0.

(** Transactions 1 and 2 run before transaction 0; only 1 is invalidated. *)
Definition schedule_reexecution : list nat :=
  steps 4 0 ++ steps 23 1 ++ steps 21 1 ++ steps 1 1 ++ steps 23 0 ++ steps 30 0 ++ steps 1 1.

(** Transaction 1 is aborted while it executes, and finishes afterwards. *)
Definition schedule_reverted : list nat :=
  steps 4 0 ++ steps 15 1 ++ steps 24 0 ++ steps 11 1 ++ steps 4 0 ++ steps 3 1.

(** C22: two workers can deadlock.  A state is reachable with three workers in
    which none can ever step although none has left its loop: one holds the
    ready queue and waits for a transaction's status, one holds that status and
    waits for the queue. *)
Theorem workers_can_deadlock :
  ∃ st, reachable (config 3) block_inversion st ∧
        (∀ t, step_of (config 3) block_inversion st t = None) ∧
        ¬ finished st ∧ WSafety.lock_inversion st 2 1 2.
Proof.
  exists (after (config 3) block_inversion schedule_inversion). split_and!.
  - apply after_reachable. by_compute.
  - intros [|[|[|t]]]; apply is_none_true; by_compute.
  - apply finished_forallb. by_compute.
  - split_and!; [exists 1|exists 1, []| |]; by_compute.
Qed.

(** C21: A commit can be lost for good.  A state is reachable, with two
    independent transactions both executed, from which no continuation ever
    finishes: the worker that finished second found the commit lock taken and
    skipped the commit, and the holder had already looked at its status. *)
Theorem commit_can_be_lost :
  ∃ st, reachable (config 2) block_independent st ∧
        Sched.get_status (sched (shared st)) 1 = Some (Executed 0) ∧
        Sched.committed_idx (sched (shared st)) = 1 ∧
        ∀ st', rtc (step (config 2) block_independent) st st' → ¬ finished st'.
Proof.
  exists (after (config 2) block_independent schedule_lost_commit). split_and!.
  - apply after_reachable. by_compute.
  - by_compute.
  - by_compute.
  - intros st'. apply idle_forever. split; try by_compute.
    + apply Nat.ltb_lt. by_compute.
    + apply forallb_polling. by_compute.
    + apply Nat.ltb_lt. by_compute.
Qed.

(** C18: A read that is not yet recorded is missed by the invalidation.  Two
    workers finish the block with two successes and no failure, but account 1
    ends with 999 wei: transaction 1 used the balance it had read before
    transaction 0 credited 10 wei, and nothing re-executed it.  Applied in order,
    the block leaves account 1 with 1009. *)
Theorem unrecorded_read_commits_stale_state :
  ∃ st, reachable (config 2) block_credit st ∧ finished st ∧
        PE.successful (block_result st) = 2%Z ∧ PE.failed (block_result st) = 0%Z ∧
        (acct 1, AccountState_new 1 (u256_of 999)) ∈ PE.final_states (block_result st) ∧
        Ledger.run false (PE.initial_states (config 2)) block_credit ∅ !! acct 1 =
          Some (AccountState_new 1 (u256_of 1009)).
Proof.
  exists (after (config 2) block_credit schedule_unrecorded). split_and!.
  - apply after_reachable. by_compute.
  - apply forallb_finished. by_compute.
  - by_compute.
  - by_compute.
  - apply (list_elem_of_lookup_2 _ 2). by_compute.
  - by_compute.
Qed.

(** C19: an abort can come too late.  Every read is recorded and transaction 0's
    write finds its reader, but [finish_execution] marks transaction 0 executed
    before it aborts transaction 1: another worker commits both in between, and
    the abort skips a committed transaction.  The stale balance of account 1 is
    committed with two successes and nothing re-executed. *)
Theorem late_abort_commits_stale_state :
  ∃ st, reachable (config 2) block_credit st ∧ finished st ∧
        PE.successful (block_result st) = 2%Z ∧ PE.failed (block_result st) = 0%Z ∧
        PE.total_executions (block_result st) = 2%Z ∧
        (acct 1, AccountState_new 1 (u256_of 999)) ∈ PE.final_states (block_result st) ∧
        Ledger.run false (PE.initial_states (config 2)) block_credit ∅ !! acct 1 =
          Some (AccountState_new 1 (u256_of 1009)).
Proof.
  exists (after (config 2) block_credit schedule_late_abort). split_and!.
  - apply after_reachable. by_compute.
  - apply forallb_finished. by_compute.
  - by_compute.
  - by_compute.
  - by_compute.
  - apply (list_elem_of_lookup_2 _ 2). by_compute.
  - by_compute.
Qed.

(** A state on the way: the write has found its reader, and both transactions are
    committed before the abort. *)
Example late_abort_found :
  threads (after (config 2) block_credit (steps 4 0 ++ steps 18 1 ++ steps 13 0 ++ steps 12 1)) !! 0 =
    Some (Aborting [1]).
Proof. reflexivity. Qed.

(** C20: A re-execution leaves the readers of its first version stale, with
    every read recorded and no step of the two workers interleaved between a
    read and its recording.  Transaction 2 has read account 1 from the first
    execution of transaction 1; transaction 1 is re-executed after transaction
    0's credit, but transaction 2 is not, and its stale balance (998 instead of
    1008) is the committed one. *)
Theorem reexecution_commits_stale_state :
  ∃ st, reachable (config 2) block_chain st ∧ finished st ∧
        PE.successful (block_result st) = 3%Z ∧ PE.failed (block_result st) = 0%Z ∧
        PE.total_executions (block_result st) = 4%Z ∧
        (acct 1, AccountState_new 2 (u256_of 998)) ∈ PE.final_states (block_result st) ∧
        Ledger.run false (PE.initial_states (config 2)) block_chain ∅ !! acct 1 =
          Some (AccountState_new 2 (u256_of 1008)).
Proof.
  exists (after (config 2) block_chain schedule_reexecution). split_and!.
  - apply after_reachable. by_compute.
  - apply forallb_finished. by_compute.
  - by_compute.
  - by_compute.
  - by_compute.
  - apply (list_elem_of_lookup_2 _ 3). by_compute.
  - by_compute.
Qed.

(** A committed transaction is executed again.  A transaction aborted while
    it executes is finished, committed, and then taken from the queue: a state
    is reachable in which the commit position is past transaction 1 and its
    status is [Executing 1]. *)
Theorem committed_transaction_reexecuted :
  ∃ st, reachable (config 2) block_reverted st ∧
        Sched.committed_idx (sched (shared st)) = 2 ∧
        Sched.get_status (sched (shared st)) 1 = Some (Executing 1) ∧
        Sched.is_committed (sched (shared st)) 1 = Some false.
Proof.
  exists (after (config 2) block_reverted schedule_reverted). split_and!.
  - apply after_reachable. by_compute.
  - by_compute.
  - by_compute.
  - by_compute.
Qed.

(** ** Witnesses of the safety theorems *)

Lemma workers_never_panic_witness :
  length (Sched.statuses (sched (shared (after (config 3) block_inversion schedule_inversion)))) = 3.
Proof.
  eapply (WSafety.workers_never_panic (config 3) block_inversion
            (after (config 3) block_inversion schedule_inversion) 1 (PushAborted 2 1 [])).
  - apply after_reachable. by_compute.
  - by_compute.
Defined.

(** Worker 0 about to mark transaction 0 committed, alone in the commit. *)
Definition schedule_marking : list nat := steps 4 0 ++ steps 4 1 ++ steps 17 0.

Lemma commit_exclusion_witness :
  0 = Sched.committed_idx (sched (shared (after (config 2) block_independent schedule_marking))) ∧ 0 < 2.
Proof.
  eapply (WSafety.commit_exclusion (config 2) block_independent
            (after (config 2) block_independent schedule_marking) 0 0 (CommitMark 0) (CommitMark 0)).
  - apply after_reachable. by_compute.
  - by_compute.
  - by_compute.
  - by_compute.
  - reflexivity.
Defined.

Lemma commit_position_monotone_witness :
  Sched.committed_idx (sched (shared (after (config 2) block_independent schedule_marking))) ≤
  Sched.committed_idx (sched (shared (after (config 2) block_independent (schedule_marking ++ [0])))).
Proof.
  eapply (WSafety.commit_position_monotone (config 2) block_independent).
  - apply after_reachable. by_compute.
  - apply after_step. by_compute.
Defined.

(** A block whose second transaction carries no valid signature. *)
Definition config_verify (threads : nat) : PE.ExecutorConfig :=
  PE.mkConfig threads true (PE.initial_states (config threads)).

Definition tx_signed (f t v n : Z) : PE.Transaction :=
  PE.mkTransaction (acct f) (acct t) (u256_of v) n (Some (acct f)) (u256_of 0).

Definition block_unsigned : list PE.Transaction := [tx_signed 1 2 5 0; tx 3 4 1 0].

Definition schedule_alone : list nat := steps 43 0.

Lemma result_counts_exact_witness :
  PE.failed (block_result (after (config_verify 1) block_unsigned schedule_alone)) = 1%Z.
Proof.
  apply (WSafety.result_counts_exact (config_verify 1) block_unsigned).
  - apply after_reachable. by_compute.
  - apply Nat.ltb_lt. by_compute.
  - apply forallb_finished. by_compute.
  - by_compute.
Defined.

Lemma blocked_only_by_inversion_witness :
  finished (after (config 3) block_inversion schedule_inversion) ∨
  ∃ t u x, WSafety.lock_inversion (after (config 3) block_inversion schedule_inversion) t u x.
Proof.
  apply (WSafety.blocked_only_by_inversion (config 3) block_inversion).
  - apply after_reachable. by_compute.
  - intros [|[|[|t]]]; apply is_none_true; by_compute.
Defined.
End Scenarios.
