(* ===== verification/SingleWorker.v ===== *)
(** * A block run by one worker is applied in order

    With [num_threads = 1] the transition system is deterministic: the worker
    terminates, executes every transaction once, commits the whole block, and
    the multi-version map's final states are the ledger of the transactions
    applied one after the other. *)

From stdpp Require Import base option list gmap relations.
From Stdlib Require Import ZArith Lia.
From S2P Require Import Prelude Integers Externals Types MVHashMap Scheduler ParallelExecutor.
From S2P Require Import ParallelExecutorSpec Ledger Workers WorkersInv SoloWorker Scenarios.

Module Single.
Import Workers Solo PESpec.

(** ** The multi-version map of a prefix *)

Section Map.
Context {A : Alloy} {D : DashMapImpl Address} {DL : DashMapLaws D}.
Context (initial : gmap Address AccountState).
Implicit Types (m : MV.MVHashMap) (l : gmap Address AccountState) (a : Address) (i k w r : nat).

(** [m] holds the ledger [l]: its writers are below [w], its readers below [r],
    and the state of the last version of each address is [l]'s. *)
Record mv_seq (w r : nat) m l : Prop := {
  ms_writers : ∀ a i e, MV.entry_at m a i = Some e → i < w ∧ Forall (λ x, x < r) (MV.readers e);
  ms_storage : ∀ a, Forall (λ x, x < r) (MV.storage_readers_at m a);
  ms_ledger : ∀ a s, l !! a = Some s ↔
    ∃ i, state_at m a i = Some s ∧ ∀ j, i < j → state_at m a j = None;
}.

Lemma mv_seq_new : mv_seq 0 0 MV.new ∅.
Proof.
  split; intros a.
  - intros i e. by rewrite MV.entry_at_new.
  - by rewrite MV.storage_readers_at_new.
  - intros s. rewrite lookup_empty. split; [done|]. unfold state_at. intros (i & He & _).
    by rewrite MV.entry_at_new in He.
Qed.

(** The ledger has an account exactly when some version exists. *)
Lemma mv_seq_none w r m l a k :
  mv_seq w r m l → w ≤ k → MV.no_version_below m a k → l !! a = None.
Proof.
  intros [Hw _ Hl] Hk Hn. destruct (l !! a) as [s|] eqn:E; [|done]. exfalso.
  apply Hl in E as (i & (e & He & _)%fmap_Some & _). specialize (Hw _ _ _ He).
  rewrite Hn in He by lia. done.
Qed.

Lemma mv_seq_read w r m l a k :
  mv_seq w r m l → w ≤ k →
  PE.account_of_read initial a (MV.read m a k) = Ledger.account initial l a.
Proof.
  intros Hm Hk. unfold Ledger.account.
  destruct (MV.latest_below_or_none m a k) as [Hn|(i & e & Hlt)].
  - rewrite (MV.read_no_version _ _ _ Hn). by rewrite (mv_seq_none _ _ _ _ _ _ Hm Hk Hn).
  - rewrite (MV.read_latest_below _ _ _ _ _ Hlt). destruct Hlt as (He & Hi & Hmax).
    rewrite (proj2 (ms_ledger _ _ _ _ Hm a (MV.state e))); [done|].
    exists i. unfold state_at. rewrite He. split; [done|]. intros j Hj.
    destruct (MV.entry_at m a j) as [e'|] eqn:E; [|done].
    pose proof (ms_writers _ _ _ _ Hm _ _ _ E). rewrite Hmax in E by lia. done.
Qed.

(** The committed states are the ledger. *)
Lemma mv_seq_committed_states w r m l a s :
  mv_seq w r m l → (a, s) ∈ MV.get_committed_states m ↔ l !! a = Some s.
Proof.
  intros Hm. rewrite MV.elem_of_get_committed_states, (ms_ledger _ _ _ _ Hm). unfold state_at. split.
  - intros (i & e & He & Hs & Hmax). exists i. rewrite He; cbn. rewrite Hs. split; [done|].
    intros j Hj. by rewrite Hmax.
  - intros (i & (e & He & Hs)%fmap_Some & Hmax). exists i, e. split_and!; [done..|].
    intros j Hj. by apply state_at_None, Hmax.
Qed.

(** Recording a read adds a reader. *)
Lemma mv_seq_record w m l a i rr r :
  mv_seq w r m l → r ≤ S i → mv_seq w (S i) (PE.record_of_read m a i rr) l.
Proof.
  intros [Hw Hs Hl] Hr.
  assert (∀ xs, Forall (λ x, x < r) xs → Forall (λ x, x < S i) xs) as Hmono.
  { intros xs Hf. eapply Forall_impl; [exact Hf|]. cbn. lia. }
  split; intros a'.
  - intros j e. destruct rr as [v s| |]; cbn; rewrite ?MV.entry_at_record_read.
    + case_decide; [|intros He; destruct (Hw _ _ _ He); auto].
      intros (e' & He & ->)%fmap_Some. destruct (Hw _ _ _ He) as [? ?].
      case_decide; cbn; split; auto. apply Forall_app_2; [by auto|]. constructor; [lia|done].
    + intros He. destruct (Hw a' j e He). auto.
    + intros He. destruct (Hw a' j e He). auto.
  - destruct rr as [v s| |]; cbn; [by rewrite MV.storage_readers_at_record_read; auto| |by auto].
    rewrite MV.storage_readers_at_record_storage_read. apply Forall_app_2; [by auto|].
    case_decide; [|done]. constructor; [lia|done].
  - intros s. rewrite Hl. by setoid_rewrite state_at_record.
Qed.

(** A write by [i] above every other writer becomes the ledger's state. *)
Lemma mv_seq_write w r m l a i inc s :
  mv_seq w r m l → w ≤ S i → mv_seq (S i) r (MV.write m a i inc s).1 (<[a := s]> l).
Proof.
  intros [Hw Hs Hl] Hi. split; intros a'; [intros j e| |intros st].
  - rewrite MV.entry_at_write. case_decide.
    + intros [= <-]. split; [lia|constructor].
    + intros He. destruct (Hw _ _ _ He). split; [lia|done].
  - by rewrite MV.storage_readers_at_write.
  - setoid_rewrite state_at_write. rewrite lookup_insert. case_decide as Ha; subst.
    + assert (∀ j, i < j → state_at m a' j = None) as Hab.
      { intros j Hj. apply state_at_None. destruct (MV.entry_at m a' j) as [e|] eqn:E; [|done].
        specialize (Hw _ _ _ E). lia. }
      split.
      * intros [= <-]. exists i. rewrite decide_True by done. split; [done|].
        intros j Hj. rewrite decide_False by lia. auto.
      * intros (j & He & Hn). case_decide as Hd; [by simplify_eq|].
        destruct (decide (i < j)); [by rewrite Hab in He|].
        destruct (decide (i = j)) as [->|]; [by destruct Hd|].
        specialize (Hn i ltac:(lia)). by rewrite decide_True in Hn.
    + rewrite Hl. split; intros (j & He & Hn); exists j.
      * rewrite decide_False by tauto. split; [done|]. intros j' Hj'.
        rewrite decide_False by tauto. auto.
      * rewrite decide_False in He by tauto. split; [done|]. intros j' Hj'.
        specialize (Hn j' Hj'). by rewrite decide_False in Hn by tauto.
Qed.

(** Nobody above [i] has read anything: nothing to invalidate. *)
Lemma mv_seq_invalidated w i m l a inc s :
  mv_seq w (S i) m l → MV.invalidated_readers (MV.write m a i inc s).2 = [].
Proof.
  intros [Hw Hs _]. apply elem_of_nil_inv. intros x Hx.
  apply MV.elem_of_write_invalidated in Hx as [Hlt [[_ Hx]|(j & e & (He & _) & Hx)]].
  - specialize (Hs a). rewrite Forall_forall in Hs. specialize (Hs _ Hx). lia.
  - destruct (Hw _ _ _ He) as [_ Hf]. rewrite Forall_forall in Hf. specialize (Hf _ Hx). lia.
Qed.

(** Executing the next transaction applies it to the ledger. *)
Lemma mv_seq_execute i inc m l tx v :
  mv_seq i i m l →
  let '(result, m') := PE.execute_transaction tx i inc m initial v in
  mv_seq (S i) (S i) m' (Ledger.apply v initial l tx) ∧
  ∀ rd wr inv, result = inr (rd, wr, inv) → inv = [].
Proof.
  intros Hm. unfold PE.execute_transaction, Ledger.apply.
  assert (∀ m l, mv_seq i (S i) m l → mv_seq (S i) (S i) m l) as Hweak.
  { intros m' l' [Hw Hs Hl]. split; [|done..]. intros a j e He.
    destruct (Hw _ _ _ He). split; [lia|done]. }
  destruct (PE.signature_rejected v tx).
  { split; [|done]. destruct Hm as [Hw Hs Hl]. split; [| |done].
    - intros a j e He. destruct (Hw _ _ _ He) as [? Hf]. split; [lia|].
      eapply Forall_impl; [exact Hf|]. cbn. lia.
    - intros a. eapply Forall_impl; [apply Hs|]. cbn. lia. }
  unfold PE.read_account. cbn zeta.
  rewrite (mv_seq_read _ _ _ _ (PE.from tx) _ Hm) by done.
  pose proof (mv_seq_record _ _ _ (PE.from tx) i (MV.read m (PE.from tx) i) _ Hm ltac:(lia)) as Hm1.
  set (m1 := PE.record_of_read _ _ _ _) in Hm1 |- *.
  destruct (PE.must_retry _ _); [split; [by apply Hweak|done]|].
  rewrite (mv_seq_read _ _ _ _ (PE.to tx) _ Hm1) by done.
  pose proof (mv_seq_record _ _ _ (PE.to tx) i (MV.read m1 (PE.to tx) i) _ Hm1 ltac:(lia)) as Hm2.
  set (m2 := PE.record_of_read _ _ _ _) in Hm2 |- *.
  unfold Ledger.transfer.
  set (s1 := PE.new_sender_state _ _). set (s2 := PE.new_receiver_state _ _).
  pose proof (mv_seq_invalidated _ i _ _ (PE.from tx) inc s1 Hm2) as Hi1.
  pose proof (mv_seq_write _ _ _ _ (PE.from tx) i inc s1 Hm2 ltac:(lia)) as Hm3.
  destruct (MV.write m2 _ _ _ _) as [m3 res1]. cbn in Hi1, Hm3.
  pose proof (mv_seq_invalidated _ i _ _ (PE.to tx) inc s2 Hm3) as Hi2.
  pose proof (mv_seq_write _ _ _ _ (PE.to tx) i inc s2 Hm3 ltac:(lia)) as Hm4.
  destruct (MV.write m3 _ _ _ _) as [m4 res2]. cbn in Hi2, Hm4.
  split; [done|]. intros rd wr inv [= <- <- <-]. by rewrite Hi1, Hi2.
Qed.
End Map.

(** ** The scheduler of a prefix *)

(** The first [i] transactions are committed, the others pending in order. *)
Definition seq_sched (n i : nat) (d : bool) : Sched.Scheduler :=
  Sched.mkScheduler n (replicate i Committed ++ replicate (n - i) Pending)
    ((λ idx, (idx, 0)) <$> seq i (n - i)) i i d None.

Lemma seq_sched_new n : Sched.new n = seq_sched n 0 false.
Proof. unfold Sched.new, seq_sched. by rewrite Nat.sub_0_r. Qed.

Lemma seq_statuses_insert n i st :
  i < n → <[i := st]> (replicate i Committed ++ replicate (n - i) Pending) =
          replicate i Committed ++ st :: replicate (n - S i) Pending.
Proof.
  intros Hi. rewrite insert_app_r_alt by (rewrite length_replicate; lia).
  rewrite length_replicate, Nat.sub_diag. by replace (n - i) with (S (n - S i)) by lia.
Qed.

Lemma seq_statuses_length n i (st : ExecutionStatus) :
  i < n → i < length (replicate i Committed ++ st :: replicate (n - S i) Pending).
Proof. intros. rewrite length_app, length_cons, !length_replicate. lia. Qed.

Lemma seq_next_task n i :
  i < n →
  Sched.next_task (seq_sched n i false) =
  Some (Sched.mkScheduler n
          (replicate i Committed ++ Executing 0 :: replicate (n - S i) Pending)
          ((λ idx, (idx, 0)) <$> seq (S i) (n - S i)) i i false None,
        Sched.Execute i 0).
Proof.
  intros Hi. unfold Sched.next_task, seq_sched. cbn.
  replace (seq i (n - i)) with (i :: seq (S i) (n - S i))
    by (replace (n - i) with (S (n - S i)) by lia; done). cbn.
  rewrite Sched.store_status_Some; cbn.
  - unfold Sched.set_statuses; cbn. by rewrite seq_statuses_insert.
  - rewrite length_app, !length_replicate. lia.
Qed.

Lemma seq_next_task_end n d : Sched.next_task (seq_sched n n d) = Some (seq_sched n n true, Sched.Done).
Proof.
  unfold Sched.next_task, seq_sched; cbn. rewrite Nat.sub_diag; cbn. rewrite Nat.leb_refl.
  by destruct d.
Qed.

Lemma seq_finish n i :
  i < n →
  Sched.finish_execution
    (Sched.mkScheduler n (replicate i Committed ++ Executing 0 :: replicate (n - S i) Pending)
       ((λ idx, (idx, 0)) <$> seq (S i) (n - S i)) i i false None) i 0 [] =
  Some (seq_sched n (S i) (n <=? S i)).
Proof.
  intros Hi. unfold Sched.finish_execution.
  assert (∀ st st', <[i := st]> (replicate i Committed ++ st' :: replicate (n - S i) Pending) =
    replicate i Committed ++ st :: replicate (n - S i) Pending) as Hins.
  { intros st st'. rewrite insert_app_r_alt by (rewrite length_replicate; lia).
    by rewrite length_replicate, Nat.sub_diag. }
  rewrite Sched.store_status_Some by by apply seq_statuses_length. cbn -[Nat.sub].
  unfold Sched.set_statuses; cbn -[Nat.sub]. rewrite Hins.
  assert (Sched.sched_wf (Sched.mkScheduler n
    (replicate i Committed ++ Executed 0 :: replicate (n - S i) Pending)
    ((λ idx, (idx, 0)) <$> seq (S i) (n - S i)) i (i + 1) false None)) as Hwf.
  { split; cbn -[Nat.sub]; [|intros p (x & -> & Hx%elem_of_seq)%list_elem_of_fmap; cbn; lia|lia|done].
    rewrite length_app, length_cons, !length_replicate. lia. }
  destruct (Sched.try_commit_spec _ Hwf) as (k & (Hk & Hex & Hstop) & Hkn & Htry).
  cbn -[Nat.sub] in *.
  assert (∀ j, S i ≤ j → ∀ inc, (replicate i Committed ++ Executed 0 :: replicate (n - S i) Pending) !! j
    ≠ Some (Executed inc)) as Hrest.
  { intros j Hj inc. rewrite lookup_app_r by (rewrite length_replicate; lia).
    rewrite length_replicate. replace (j - i) with (S (j - S i)) by lia. cbn.
    by intros [[=] _]%lookup_replicate. }
  assert (k = S i) as ->.
  { destruct (decide (k = i)) as [->|].
    - destruct (Hstop 0). rewrite lookup_app_r by (rewrite length_replicate; lia).
      by rewrite length_replicate, Nat.sub_diag.
    - destruct (decide (S i < k)); [|lia]. destruct (Hex (S i)) as [inc Hinc]; [lia|].
      by apply Hrest in Hinc. }
  etransitivity; [exact Htry|]. f_equal. unfold seq_sched, Sched.set_done; cbn -[Nat.sub].
  f_equal; [|lia]. apply list_eq. intros j. rewrite Sched.commit_range_lookup.
  change (Committed :: replicate i Committed ++ replicate (n - S i) Pending)
    with (replicate (S i) Committed ++ replicate (n - S i) Pending).
  rewrite replicate_S_end, <- app_assoc. cbn -[Nat.sub].
  destruct (decide (j = i)) as [->|Hj].
  - rewrite !lookup_app_r by (rewrite length_replicate; lia).
    rewrite length_replicate, Nat.sub_diag. cbn. by rewrite decide_True by lia.
  - rewrite <- (list_lookup_insert_ne (_ ++ Executed 0 :: _) i j Committed) by done.
    rewrite Hins. destruct (_ !! j); cbn; [|done]. by rewrite decide_False by lia.
Qed.

(** ** The block *)

(** Where [R] is deterministic, every path from [x] can be continued to the end
    point of one of them. *)
Lemma deterministic_rtc {T} (R : relation T) (P : T → Prop) x y z :
  (∀ a b, P a → R a b → P b) → (∀ a b c, P a → R a b → R a c → b = c) →
  (∀ b, ¬ R z b) → P x → rtc R x z → rtc R x y → rtc R y z.
Proof.
  intros HP Hdet Hend Hx Hxz. revert y. induction Hxz as [z|x x1 z Hs Hxz IH]; intros y Hxy.
  - inversion Hxy as [|? ? ? Hb]; subst; [done|]. by destruct (Hend _ Hb).
  - inversion Hxy as [|? x2 ? Hs2 Hxy2]; subst; [by eapply rtc_l|].
    rewrite (Hdet _ _ _ Hx Hs2 Hs) in Hxy2. eauto.
Qed.

Section Block.
Context {A : Alloy} {D : DashMapImpl Address} {DL : DashMapLaws D}.
Context (cfg : PE.ExecutorConfig) (txs : list PE.Transaction).
Implicit Types (sh : Shared) (st : State) (i : nat).

Abbreviation ledger l := (Ledger.run (PE.verify_signatures cfg) (PE.initial_states cfg) l ∅).
Abbreviation n := (length txs).

(** The first [i] transactions of the block have been applied in order. *)
Record prefix (i : nat) sh : Prop := {
  pf_sched : ∃ d, sched sh = seq_sched n i d ∧ (i < n → d = false);
  pf_mv : mv_seq i i (mv sh) (ledger (take i txs));
  pf_unlocked : unlocked sh;
  pf_count : execution_count sh = i;
}.

Lemma prefix_init : prefix 0 (shared (init cfg txs)).
Proof.
  split; cbn; [exists false; by rewrite seq_sched_new|apply mv_seq_new|done|done].
Qed.

Lemma prefix_step i sh :
  prefix i sh → i < n → ∃ sh', worker_iteration cfg txs sh = Some (sh', true) ∧ prefix (S i) sh'.
Proof.
  intros [(d & Hsc & Hd) Hmv Hun Hcnt] Hi. rewrite (Hd Hi) in Hsc. unfold worker_iteration.
  rewrite Hsc, seq_next_task by done. cbn -[Nat.sub].
  unfold execute_task. destruct (lookup_lt_is_Some_2 txs i Hi) as [tx Htx]. rewrite Htx. cbn -[Nat.sub].
  pose proof (mv_seq_execute (PE.initial_states cfg) i 0 _ _ tx (PE.verify_signatures cfg) Hmv) as Hex.
  destruct (PE.execute_transaction _ _ _ _ _ _) as [result m'].
  destruct Hex as [Hmv' Hinv].
  rewrite <- Ledger.run_snoc, <- take_S_r in Hmv' by done.
  set (sh1 := set_mv m' _).
  assert (∃ sh2, on_result result sh1 = (sh2, []) ∧ execution_count sh2 = S i) as (sh2 & E & Hc).
  { destruct result as [[]|[[rd wr] inv]]; cbn; [..|rewrite (Hinv rd wr inv) by done].
    all: eexists; split; [done|]; cbn; lia. }
  pose proof (on_result_frame result sh1) as (H1 & H2 & H3 & H4). rewrite E in *. cbn -[Nat.sub] in *.
  rewrite H1, seq_finish by done. cbn -[Nat.sub]. eexists; split; [done|]. split; cbn.
  - eexists; split; [done|]. intros. apply Nat.leb_gt. lia.
  - by rewrite H2.
  - destruct Hun. split; cbn; congruence.
  - done.
Qed.

Lemma prefix_reached i :
  i ≤ n → ∃ sh, prefix i sh ∧ rtc (local_step cfg txs 0) (LoadDone, shared (init cfg txs)) (LoadDone, sh).
Proof.
  induction i as [|i IH]; intros Hi.
  - eexists; split; [apply prefix_init|done].
  - destruct IH as (sh & Hp & Hr); [lia|].
    destruct (prefix_step i sh Hp) as (sh' & Hit & Hp'); [lia|].
    destruct (worker_iteration_steps cfg txs 0 sh sh' true) as [Hs _]; [apply Hp|done|].
    exists sh'. split; [done|]. by etransitivity.
Qed.

(** The worker leaves its loop after the last transaction. *)
Lemma block_end :
  ∃ sh, rtc (local_step cfg txs 0) (LoadDone, shared (init cfg txs)) (Exited, sh) ∧
    Sched.committed_idx (sched sh) = n ∧ execution_count sh = n ∧ mv_seq n n (mv sh) (ledger txs).
Proof.
  destruct (prefix_reached n) as (sh & [(d & Hsc & _) Hmv Hun Hcnt] & Hr); [done|].
  rewrite take_ge in Hmv by done.
  destruct (worker_iteration_steps cfg txs 0 sh (set_sched (seq_sched n n true) sh) false)
    as [Hs _]; [done|unfold worker_iteration; by rewrite Hsc, seq_next_task_end|].
  eexists; split; [by etransitivity|]. done.
Qed.

Lemma step_deterministic st st1 st2 :
  length (threads st) = 1 → step cfg txs st st1 → step cfg txs st st2 → st1 = st2.
Proof.
  intros Hlen [t Ht] [u Hu].
  assert (∀ v st', step_of cfg txs st v = Some st' → v = 0) as H0.
  { intros v st' (pt & pt' & Hv%lookup_lt_Some & _)%WInv.step_of_inv. lia. }
  pose proof (H0 _ _ Ht). pose proof (H0 _ _ Hu). subst. congruence.
Qed.

Lemma step_length st st' : step cfg txs st st' → length (threads st') = length (threads st).
Proof. intros [t (pt & pt' & _ & _ & ->)%WInv.step_of_inv]. apply length_insert. Qed.

(** The one state every run of a single worker ends in. *)
Lemma single_worker_end :
  PE.num_threads cfg = 1 →
  ∃ fin, finished fin ∧ (∀ st, reachable cfg txs st → rtc (step cfg txs) st fin) ∧
    Sched.committed_idx (sched (shared fin)) = n ∧ execution_count (shared fin) = n ∧
    mv_seq n n (mv (shared fin)) (ledger txs).
Proof.
  intros H1. destruct block_end as (sh & Hr & Hc & Hn & Hmv).
  exists (mkState sh [Exited]). split_and!; [by constructor| |done..].
  intros st Hst.
  assert (threads (init cfg txs) = [LoadDone]) as Hth by (cbn; by rewrite H1).
  apply (deterministic_rtc _ (λ s, length (threads s) = 1) (init cfg txs)).
  - intros s s' Hs Hstep. by rewrite (step_length _ _ Hstep).
  - apply step_deterministic.
  - intros s [[|t] (pt & pt' & Ht & Hs & _)%WInv.step_of_inv]; [|done]. by simplify_eq/=.
  - by rewrite Hth.
  - pose proof (steps_to_rtc cfg txs 0 _ _ _ _ [LoadDone] Hr eq_refl) as Hst'.
    cbn in Hst'. unfold init. rewrite H1. exact Hst'.
  - done.
Qed.

(** C3: with one worker [execute_block] is sequential execution.  There is one
    final state; every state the worker can reach leads to it (so the run
    terminates); in it the whole block is committed after exactly one execution
    of each transaction, and the final states are those of the ledger of the
    transactions applied in block order. *)
Theorem single_worker_serial :
  PE.num_threads cfg = 1 →
  ∃ fin, finished fin ∧
    (∀ st, reachable cfg txs st → rtc (step cfg txs) st fin) ∧
    Sched.committed_count (sched (shared fin)) = n ∧
    PE.total_executions (block_result fin) = Z.of_nat n ∧
    ∀ a s, (a, s) ∈ PE.final_states (block_result fin) ↔ ledger txs !! a = Some s.
Proof.
  intros (fin & Hf & Hr & Hc & Hn & Hmv)%single_worker_end.
  exists fin. split_and!; [done..| |].
  - unfold block_result; cbn. by rewrite Hn.
  - intros a s. cbn. by eapply mv_seq_committed_states.
Qed.
End Block.

(** ** Witnesses *)

Definition iterates (sh : Shared) (cfg : PE.ExecutorConfig) (txs : list PE.Transaction) : bool :=
  match worker_iteration cfg txs sh with Some _ => true | None => false end.

Lemma worker_iteration_refined_witness :
  ∃ st, rtc (step (Scenarios.config 2) Scenarios.block_chain)
          (init (Scenarios.config 2) Scenarios.block_chain) st ∧ unlocked (shared st).
Proof.
  pose (cfg := Scenarios.config 2). pose (txs := Scenarios.block_chain).
  destruct (worker_iteration cfg txs (shared (init cfg txs))) as [[sh' continue]|] eqn:E.
  - exists (mkState sh' (<[1 := if continue then LoadDone else Exited]> (threads (init cfg txs)))).
    apply (worker_iteration_refined cfg txs 1 (init cfg txs) sh' continue); [by split|done|exact E].
  - assert (iterates (shared (init cfg txs)) cfg txs = true) as H by by_compute.
    unfold iterates in H. by rewrite E in H.
Defined.

Lemma single_worker_serial_witness :
  ∃ fin, finished fin ∧ reachable (Scenarios.config 1) Scenarios.block_chain fin ∧
    (Scenarios.acct 1, AccountState_new 2 (u256_of 1008)) ∈ PE.final_states (block_result fin).
Proof.
  destruct (single_worker_serial (Scenarios.config 1) Scenarios.block_chain eq_refl)
    as (fin & Hf & Hr & _ & _ & Hst).
  exists fin. split_and!; [done|apply Hr, rtc_refl|].
  apply Hst. by_compute.
Defined.
End Single.
