(* ===== verification/Ordered.v ===== *)
(** * Runs in which writes come before later reads

    A condition on schedules under which Block-STM needs no validation: no
    transaction writes an account that a later transaction of the block has
    already read.  Then nobody is ever invalidated, every transaction is executed
    once, and whenever the workers finish, the map is consistent in the sense of
    [Serial] and the final states are the ledger's.  [Scenarios] shows that the
    condition cannot be left to the invalidation of readers.  The invariant counts
    the tokens of each transaction (it is in the queue, in one thread, or
    executed) and keeps a log of the reads. *)

From stdpp Require Import base option list gmap relations.
From Stdlib Require Import ZArith Lia.
From S2P Require Import Prelude Integers Externals Types MVHashMap Scheduler ParallelExecutor.
From S2P Require Import ParallelExecutorSpec Ledger MVSerial Workers WorkersInv WorkersCount.
From S2P Require Import WorkersSafety Scenarios.

Module Ordered.
Import Workers WInv WCount PESpec Serial.

Section Ordered.
Context {A : Alloy} {D : DashMapImpl Address} {DL : DashMapLaws D}.
Context (cfg : PE.ExecutorConfig) (txs : list PE.Transaction).
Implicit Types (sh : Shared) (pt : Point) (st : State) (t u x i k : nat) (a : Address)
  (tx : PE.Transaction) (m : MV.MVHashMap) (log : list (nat * Address)).

Abbreviation initial := (PE.initial_states cfg).
Abbreviation verify := (PE.verify_signatures cfg).
Abbreviation view := (Serial.view initial).
Abbreviation writes := (Serial.writes initial verify).
Abbreviation queue sh := (Sched.ready_queue (sched sh)).

(** ** The condition *)

(** What a step at [pt] reads. *)
Definition reads pt : list (nat * Address) :=
  match pt with
  | ReadSender j => [(j_idx j, PE.from (j_tx j))]
  | ReadReceiver j _ => [(j_idx j, PE.to (j_tx j))]
  | _ => []
  end.

(** A write is in order when no later transaction has read the account. *)
Definition in_order log pt : bool :=
  match pt with
  | WriteEntry j w _ _ => forallb (λ r, negb (bool_decide (r.2 = w.1)) || (r.1 <=? j_idx j)) log
  | _ => true
  end.

(** The steps of [schedule] are possible and their writes are in order, when
    [log] has been read before. *)
Fixpoint ordered st log (schedule : list nat) : bool :=
  match schedule with
  | [] => true
  | t :: rest =>
      match threads st !! t, step_of cfg txs st t with
      | Some pt, Some st' => in_order log pt && ordered st' (reads pt ++ log) rest
      | _, _ => false
      end
  end.

Lemma in_order_write log j w rest l k :
  in_order log (WriteEntry j w rest l) = true → (k, w.1) ∈ log → k ≤ j_idx j.
Proof.
  cbn. intros H%Is_true_true Hin. apply forallb_True in H. rewrite Forall_forall in H.
  specialize (H _ Hin). cbn in H. apply Is_true_true, orb_prop in H as [H|H].
  - by rewrite bool_decide_eq_true_2 in H.
  - by apply Nat.leb_le.
Qed.

(** ** The threads *)

Record job_at (j : Job) : Prop := {
  ja_tx : txs !! j_idx j = Some (j_tx j);
  ja_sig : PE.signature_rejected verify (j_tx j) = false;
}.

(** A transaction that passed its checks, reading from [m]. *)
Record job_writes m log (j : Job) : Prop := {
  jw_at : job_at j;
  jw_passed : PE.must_retry (j_tx j) (view m (PE.from (j_tx j)) (j_idx j)) = false;
  jw_read : (j_idx j, PE.from (j_tx j)) ∈ log;
}.

(** The reads that decide what [x] writes are in the log. *)
Definition settled m log x tx : Prop :=
  PE.signature_rejected verify tx = true ∨
  ((x, PE.from tx) ∈ log ∧
   (PE.must_retry tx (view m (PE.from tx) x) = true ∨ (x, PE.to tx) ∈ log)).

Definition settled_job m log (j : Job) : Prop :=
  txs !! j_idx j = Some (j_tx j) ∧ settled m log (j_idx j) (j_tx j).

(** The two writes of a job. *)
Definition first_write m (j : Job) : Address * AccountState :=
  sender_write (j_tx j) (view m (PE.from (j_tx j)) (j_idx j)).
Definition second_write m (j : Job) : Address * AccountState :=
  receiver_write (j_tx j) (view m (PE.to (j_tx j)) (j_idx j)).

(** What a thread at [pt] knows. *)
Definition pt_ordered m log pt : Prop :=
  match pt with
  | MarkExecuting _ inc | Begin _ inc => inc = 0
  | ReadSender j => job_at j
  | RecordSender j rr =>
      job_at j ∧ PE.account_of_read initial (PE.from (j_tx j)) rr = view m (PE.from (j_tx j)) (j_idx j) ∧
      (j_idx j, PE.from (j_tx j)) ∈ log
  | ReadReceiver j sender => job_writes m log j ∧ sender = view m (PE.from (j_tx j)) (j_idx j)
  | RecordReceiver j sender rr =>
      job_writes m log j ∧ sender = view m (PE.from (j_tx j)) (j_idx j) ∧
      PE.account_of_read initial (PE.to (j_tx j)) rr = view m (PE.to (j_tx j)) (j_idx j) ∧
      (j_idx j, PE.to (j_tx j)) ∈ log
  | HasLower j w rest l | StorageReaders j w rest l | WriteEntry j w rest l =>
      job_writes m log j ∧ (j_idx j, PE.to (j_tx j)) ∈ log ∧
      Forall (λ k, (k, w.1) ∈ log ∧ j_idx j < k) l ∧
      ((w = first_write m j ∧ rest = [second_write m j]) ∨ (w = second_write m j ∧ rest = []))
  | CountSuccess j l | SetExecuted j l => settled_job m log j ∧ l = []
  | CountFail j => settled_job m log j
  | CountOnce _ l | Aborting l => l = []
  | PushAborted _ _ _ => False
  | _ => True
  end.

(** The transaction a thread holds, and the writes it has made for it. *)
Definition made m pt : option (nat * list (Address * AccountState)) :=
  match pt with
  | MarkExecuting idx _ | Begin idx _ => Some (idx, [])
  | ReadSender j | RecordSender j _ | ReadReceiver j _ | RecordReceiver j _ _ => Some (j_idx j, [])
  | HasLower j _ rest _ | StorageReaders j _ rest _ | WriteEntry j _ rest _ =>
      Some (j_idx j, match rest with [] => [first_write m j] | _ => [] end)
  | CountSuccess j _ | CountFail j | SetExecuted j _ => Some (j_idx j, writes m (j_idx j) (j_tx j))
  | _ => None
  end.

Definition holding pt : option nat :=
  match pt with
  | MarkExecuting idx _ | Begin idx _ => Some idx
  | ReadSender j | RecordSender j _ | ReadReceiver j _ | RecordReceiver j _ _
  | HasLower j _ _ _ | StorageReaders j _ _ _ | WriteEntry j _ _ _
  | CountSuccess j _ | CountFail j | SetExecuted j _ => Some (j_idx j)
  | _ => None
  end.

Lemma holding_made m pt : holding pt = fst <$> made m pt.
Proof. by destruct pt. Qed.

(** [x] has been executed. *)
Definition token (e : option ExecutionStatus) : nat :=
  match e with Some (Executed _) | Some Committed => 1 | _ => 0 end.

Definition executed sh x : nat := token (Sched.statuses (sched sh) !! x).

(** Not counted in [execution_count] yet. *)
Definition waiting pt : option nat :=
  match pt with MarkExecuting idx _ | Begin idx _ => Some idx | _ => None end.

(** The readers the map remembers have read. *)
Record mv_logged log m : Prop := {
  ml_entries : ∀ a i e, MV.entry_at m a i = Some e → Forall (λ k, (k, a) ∈ log) (MV.readers e);
  ml_storage : ∀ a, Forall (λ k, (k, a) ∈ log) (MV.storage_readers_at m a);
}.

Record OInv st log : Prop := {
  oi_mv : mv_logged log (mv (shared st));
  oi_range : ∀ a i, length txs ≤ i → state_at (mv (shared st)) a i = None;
  oi_points : ∀ t pt, threads st !! t = Some pt → pt_ordered (mv (shared st)) log pt;
  oi_queue : ∀ p, p ∈ queue (shared st) → p.2 = 0;
  oi_once : ∀ x,
    occurrences (Nat.eqb x) holding st + executed (shared st) x = Nat.b2n (x <? length txs);
  oi_count : execution_count (shared st) + occurrences (λ _, true) waiting st = length txs;
  oi_queued : ∀ x inc a, (x, inc) ∈ queue (shared st) → state_at (mv (shared st)) a x = None;
  oi_made : ∀ t pt x ws a, threads st !! t = Some pt → made (mv (shared st)) pt = Some (x, ws) →
    state_at (mv (shared st)) a x = as_map ws !! a;
  oi_executed : ∀ x tx a, executed (shared st) x = 1 → txs !! x = Some tx →
    settled (mv (shared st)) log x tx ∧
    state_at (mv (shared st)) a x = as_map (writes (mv (shared st)) x tx) !! a;
  oi_committed : ∀ x, x < Sched.committed_idx (sched (shared st)) → executed (shared st) x = 1;
  oi_marking : ∀ t c, threads st !! t = Some (CommitMark c) ∨ threads st !! t = Some (CommitStore (S c)) →
    executed (shared st) c = 1;
}.

(** ** Nothing that was read changes *)

(** [m'] with [log'] agrees with [m] on the reads of [log]. *)
Record extends m log m' log' : Prop := {
  ex_log : ∀ r, r ∈ log → r ∈ log';
  ex_view : ∀ k a, (k, a) ∈ log → view m' a k = view m a k;
}.

Section Extends.
Context m log m' log' (He : extends m log m' log').

Lemma job_writes_extends j : job_writes m log j → job_writes m' log' j.
Proof.
  intros [Ha Hp Hr]. split; [done| |by apply (ex_log _ _ _ _ He)].
  by rewrite (ex_view _ _ _ _ He).
Qed.

Lemma settled_extends x tx : settled m log x tx → settled m' log' x tx.
Proof.
  intros [Hs|[Hf [Hr|Ht]]]; [by left|right..]; (split; [by apply (ex_log _ _ _ _ He)|]).
  - left. by rewrite (ex_view _ _ _ _ He).
  - right. by apply (ex_log _ _ _ _ He).
Qed.

Lemma writes_extends x tx : settled m log x tx → writes m' x tx = writes m x tx.
Proof.
  unfold Serial.writes, writes_of. intros [->|[Hf Hr]]; [done|].
  rewrite (ex_view _ _ _ _ He) by done. destruct Hr as [->|Ht]; [by destruct (PE.signature_rejected _ _)|].
  by rewrite (ex_view _ _ _ _ He).
Qed.

Lemma first_write_extends j : job_writes m log j → first_write m' j = first_write m j.
Proof. intros [_ _ Hr]. unfold first_write. by rewrite (ex_view _ _ _ _ He). Qed.

Lemma second_write_extends j : (j_idx j, PE.to (j_tx j)) ∈ log → second_write m' j = second_write m j.
Proof. intros Hr. unfold second_write. by rewrite (ex_view _ _ _ _ He). Qed.

Lemma made_extends pt : pt_ordered m log pt → made m' pt = made m pt.
Proof.
  destruct pt; try done; cbn; intros Hpt.
  1-3: destruct Hpt as (Hj & _); destruct rest; [by rewrite first_write_extends|done].
  all: first [destruct Hpt as [[_ Hs] _] | destruct Hpt as [_ Hs]]; by rewrite writes_extends.
Qed.

Lemma pt_ordered_extends pt : pt_ordered m log pt → pt_ordered m' log' pt.
Proof.
  assert (∀ w l (i : nat), Forall (λ k, (k, w) ∈ log ∧ i < k) l → Forall (λ k, (k, w) ∈ log' ∧ i < k) l)
    as Hl.
  { intros w l i Hf. eapply Forall_impl; [exact Hf|]. intros k [Hk ?].
    split; [by apply (ex_log _ _ _ _ He)|done]. }
  pose proof (ex_log _ _ _ _ He) as Hlog.
  destruct pt; try done; cbn.
  - intros (Hj & Hv & Hr). rewrite (ex_view _ _ _ _ He) by done. auto.
  - intros (Hj & Hs). rewrite (ex_view _ _ _ _ He) by apply Hj. auto using job_writes_extends.
  - intros (Hj & Hs & Hv & Hr). rewrite !(ex_view _ _ _ _ He) by (done || apply Hj).
    auto using job_writes_extends.
  - intros (Hj & Hr & Hf & Hw). rewrite first_write_extends, second_write_extends by done.
    auto using job_writes_extends.
  - intros (Hj & Hr & Hf & Hw). rewrite first_write_extends, second_write_extends by done.
    auto using job_writes_extends.
  - intros (Hj & Hr & Hf & Hw). rewrite first_write_extends, second_write_extends by done.
    auto using job_writes_extends.
  - intros ([? ?] & ?). split; [split|]; auto using settled_extends.
  - intros [? ?]. split; auto using settled_extends.
  - intros ([? ?] & ?). split; [split|]; auto using settled_extends.
Qed.
End Extends.

(** ** The readers the map remembers *)

Lemma mv_logged_new : mv_logged [] MV.new.
Proof.
  split; intros a.
  - intros i e. by rewrite MV.entry_at_new.
  - by rewrite MV.storage_readers_at_new.
Qed.

Lemma mv_logged_record log m a i rr :
  mv_logged log m → (i, a) ∈ log → mv_logged log (PE.record_of_read m a i rr).
Proof.
  intros [Hrd Hst] Hr. destruct rr as [v s| |]; cbn; [| |done].
  - split; intros b; [|by rewrite MV.storage_readers_at_record_read].
    intros k e. rewrite MV.entry_at_record_read. case_decide as Hd; [|by apply Hrd].
    destruct Hd as [-> _]. intros (e' & He & ->)%fmap_Some. case_decide; cbn; [|by apply (Hrd b k)].
    apply Forall_app_2; [by apply (Hrd b k)|by constructor].
  - split; intros b; [intros k e; apply Hrd|].
    rewrite MV.storage_readers_at_record_storage_read.
    apply Forall_app_2; [done|]. case_decide; subst; auto using Forall_nil_2, Forall_cons_2.
Qed.

Lemma mv_logged_write log m a i inc s : mv_logged log m → mv_logged log (MV.write_entry m a i inc s).1.
Proof.
  intros [Hrd Hst]. split; intros b; [|by rewrite MV.storage_readers_at_write_entry].
  intros k e. rewrite MV.entry_at_write_entry. case_decide; [|by apply Hrd].
  intros [= <-]. constructor.
Qed.

Lemma mv_logged_weaken log log' m : mv_logged log m → (∀ r, r ∈ log → r ∈ log') → mv_logged log' m.
Proof.
  intros [Hrd Hst] Hl. split.
  - intros a i e He. eapply Forall_impl; [by apply (Hrd a i e)|]. auto.
  - intros a. eapply Forall_impl; [apply (Hst a)|]. auto.
Qed.

Lemma logged_storage log m a i :
  mv_logged log m → Forall (λ k, (k, a) ∈ log ∧ i < k) (MV.storage_invalidated m a i).
Proof.
  intros [_ Hst]. apply Forall_forall. intros k [Hlt Hk]%MV.elem_of_storage_invalidated.
  specialize (Hst a). rewrite Forall_forall in Hst. auto.
Qed.

Lemma logged_write_entry log m a i inc s :
  mv_logged log m → Forall (λ k, (k, a) ∈ log ∧ i < k) (MV.write_entry m a i inc s).2.
Proof.
  intros [Hrd _]. apply Forall_forall. intros k (Hlt & x & e & (He & _) & Hk)%MV.elem_of_write_entry_invalidated.
  specialize (Hrd a x e He). rewrite Forall_forall in Hrd. auto.
Qed.

(** ** One step *)

Lemma state_at_write_entry m a b i x inc s :
  state_at (MV.write_entry m a i inc s).1 b x =
  if decide (a = b ∧ i = x) then Some s else state_at m b x.
Proof. unfold state_at. rewrite MV.entry_at_write_entry. by case_decide. Qed.

(** Only a thread's own write changes a version's state. *)
Lemma step_state_at t pt sh pt' sh' a x :
  thread_step cfg txs t pt sh = Some (pt', sh') →
  state_at (mv sh') a x =
  match pt with
  | WriteEntry j w _ _ => if decide (w.1 = a ∧ j_idx j = x) then Some w.2 else state_at (mv sh) a x
  | _ => state_at (mv sh) a x
  end.
Proof.
  intros H. step_cases pt H; rewrite ?state_at_record; try done.
  all: match goal with E : MV.write_entry ?m ?b ?i ?inc ?s = (?m', _) |- _ =>
         pose proof (state_at_write_entry m b a i x inc s) as Hw; rewrite E in Hw; cbn in Hw end.
  all: rewrite Hw; by case_decide.
Qed.

Lemma step_extends_reads t pt sh pt' sh' log :
  thread_step cfg txs t pt sh = Some (pt', sh') → in_order log pt = true →
  extends (mv sh) (reads pt ++ log) (mv sh') (reads pt ++ log).
Proof.
  intros H Ho. split; [done|]. intros k a Hin. apply view_ext. intros i Hi.
  rewrite (step_state_at _ _ _ _ _ _ _ H). destruct pt; try done. case_decide as Hd; [|done].
  destruct Hd as [<- <-]. pose proof (in_order_write _ _ _ _ _ _ Ho Hin). lia.
Qed.

Lemma step_extends t pt sh pt' sh' log :
  thread_step cfg txs t pt sh = Some (pt', sh') → in_order log pt = true →
  extends (mv sh) log (mv sh') (reads pt ++ log).
Proof.
  intros H Ho. pose proof (step_extends_reads _ _ _ _ _ _ H Ho) as [_ Hv].
  split; [|intros k a Hin; apply Hv]; set_solver.
Qed.

Lemma step_mv_logged t pt sh pt' sh' log :
  mv_logged log (mv sh) → pt_ordered (mv sh) log pt →
  thread_step cfg txs t pt sh = Some (pt', sh') → mv_logged (reads pt ++ log) (mv sh').
Proof.
  intros Hm Hpt H. apply (mv_logged_weaken log); [|intros r Hr; apply elem_of_app; by right].
  step_cases pt H; try exact Hm; destruct_all.
  all: try (apply mv_logged_record; [done|]; try done).
  all: try (match goal with E : MV.write_entry ?m ?a ?w ?i ?s = (?m', _) |- _ =>
         pose proof (mv_logged_write log m a w i s Hm) as Hw; rewrite E in Hw; exact Hw end).
  all: by apply jw_read.
Qed.

(** A write in order invalidates nobody. *)
Lemma invalidated_nil log pt j w rest l l' :
  in_order log pt = true → pt = WriteEntry j w rest l →
  Forall (λ k, (k, w.1) ∈ log ∧ j_idx j < k) l' → l' = [].
Proof.
  intros Ho -> Hf. apply elem_of_nil_inv. intros k Hk. rewrite Forall_forall in Hf.
  destruct (Hf _ Hk) as [Hin Hlt]. pose proof (in_order_write _ _ _ _ _ _ Ho Hin). lia.
Qed.

Lemma step_points t pt sh pt' sh' log :
  mv_logged log (mv sh) → (∀ p, p ∈ queue sh → p.2 = 0) → pt_ordered (mv sh) log pt →
  in_order log pt = true → thread_step cfg txs t pt sh = Some (pt', sh') →
  pt_ordered (mv sh) (reads pt ++ log) pt'.
Proof.
  intros Hm Hq Hpt Ho H.
  pose proof (λ j w rest l l', invalidated_nil log pt j w rest l l' Ho) as Hnil. clear Ho.
  step_cases pt H; try done; destruct_all; simplify_eq/=.
  - apply (Hq (n, n0)). left.
  - split; [done|by left].
  - split_and!; [done..|]. left.
  - match goal with E : job_at _ |- _ => pose proof E as [? ?] end.
    split; [|done]. split; [done|]. right. split; [done|]. left. congruence.
  - split; [|done]. split; [done|congruence|done].
  - match goal with E : job_writes _ _ _ |- _ => destruct E end.
    split_and!; [split; [done..|by right]|done|done|left].
  - split_and!; [done..|]. left. split; [done|]. unfold second_write, receiver_write. congruence.
  - split_and!; [done..| |done]. apply Forall_app_2; [done|by apply logged_storage].
  - match goal with E : MV.write_entry ?m ?a ?i ?inc ?s = (_, ?l) |- _ =>
      pose proof (logged_write_entry log m a i inc s Hm) as Hl; rewrite E in Hl; cbn in Hl end.
    rewrite (Hnil j w [] invalidated l), (Hnil j w [] invalidated invalidated) by done.
    split; [|done]. match goal with E : job_writes _ _ _ |- _ => destruct E as [[? ?] ? ?] end.
    split; [done|]. right. auto.
  - match goal with E : MV.write_entry ?m ?a ?i ?inc ?s = (_, ?l) |- _ =>
      pose proof (logged_write_entry log m a i inc s Hm) as Hl; rewrite E in Hl; cbn in Hl end.
    rewrite (Hnil j w (p :: l0) invalidated l), (Hnil j w (p :: l0) invalidated invalidated) by done.
    split_and!; [done|done|done|]. right. naive_solver.
  - done.
Qed.

Lemma step_queue t pt sh pt' sh' p log :
  pt_ordered (mv sh) log pt → thread_step cfg txs t pt sh = Some (pt', sh') → p ∈ queue sh' → p ∈ queue sh.
Proof.
  intros Hpt H. step_cases pt H; try done.
  - by match goal with E : Sched.ready_queue _ = _ |- _ => rewrite E end.
  - by right.
Qed.

Lemma step_other_state t pt sh pt' sh' a x :
  thread_step cfg txs t pt sh = Some (pt', sh') → holding pt ≠ Some x →
  state_at (mv sh') a x = state_at (mv sh) a x.
Proof.
  intros H Hx. rewrite (step_state_at _ _ _ _ _ _ _ H). destruct pt; try done.
  rewrite decide_False; [done|]. intros [_ <-]. by destruct Hx.
Qed.

(** What a step at [pt] writes. *)
Definition written pt : list (Address * AccountState) :=
  match pt with WriteEntry _ w _ _ => [w] | _ => [] end.

Lemma writes_job m log j :
  job_writes m log j → writes m (j_idx j) (j_tx j) = [first_write m j; second_write m j].
Proof. intros [[_ Hs] Hp _]. unfold Serial.writes, writes_of. by rewrite Hs, Hp. Qed.

(** The stepping thread adds what it writes, or takes a transaction from the
    queue. *)
Lemma step_made t pt sh pt' sh' log x ws' :
  pt_ordered (mv sh) log pt → thread_step cfg txs t pt sh = Some (pt', sh') →
  made (mv sh) pt' = Some (x, ws') →
  (∃ ws, made (mv sh) pt = Some (x, ws) ∧ ws' = ws ++ written pt) ∨
  (made (mv sh) pt = None ∧ ws' = [] ∧ ∃ inc, (x, inc) ∈ queue sh).
Proof.
  intros Hpt H. step_cases pt H; intros Hmade; destruct_all; simplify_eq/=; try done.
  all: try (left; eexists; split; [done|]; try done).
  all: rewrite ?app_nil_r; try done.
  - right. split_and!; [done..|]. eexists. by left.
  - unfold Serial.writes, writes_of. by match goal with E : PE.signature_rejected _ _ = _ |- _ => rewrite E end.
  - unfold Serial.writes, writes_of. match goal with E : job_at _ |- _ => rewrite (ja_sig _ E) end.
    match goal with E : PE.account_of_read _ _ _ = _ |- _ => rewrite <- E end.
    by match goal with E : PE.must_retry _ _ = _ |- _ => rewrite E end.
  - match goal with E : job_writes _ _ _ |- _ => rewrite (writes_job _ _ _ E) end. naive_solver.
  - naive_solver.
Qed.

Lemma step_state_written t pt sh pt' sh' a x ws :
  thread_step cfg txs t pt sh = Some (pt', sh') → made (mv sh) pt = Some (x, ws) →
  state_at (mv sh) a x = as_map ws !! a → state_at (mv sh') a x = as_map (ws ++ written pt) !! a.
Proof.
  intros H Hmade Hs. rewrite (step_state_at _ _ _ _ _ _ _ H).
  destruct pt; simplify_eq/=; rewrite ?app_nil_r; try exact Hs.
  rewrite as_map_snoc, lookup_insert. repeat case_decide; naive_solver.
Qed.

(** *** Tokens *)

Lemma token_insert (l : list ExecutionStatus) i x e :
  i < length l → token (<[i := e]> l !! x) = if decide (i = x) then token (Some e) else token (l !! x).
Proof. intros Hi. case_decide; subst; by rewrite ?list_lookup_insert_eq, ?list_lookup_insert_ne. Qed.

(** Every step keeps the number of tokens of [x]. *)
Lemma step_tokens t pt sh pt' sh' log x :
  pt_ordered (mv sh) log pt → (∀ y, holding pt = Some y → executed sh y = 0) →
  (∀ c, pt = CommitMark c → executed sh c = 1) →
  thread_step cfg txs t pt sh = Some (pt', sh') → pt' ≠ Panicked →
  queue_weight (Nat.eqb x) (queue sh') + weight (Nat.eqb x) (holding pt') + executed sh' x =
  queue_weight (Nat.eqb x) (queue sh) + weight (Nat.eqb x) (holding pt) + executed sh x.
Proof.
  intros Hpt Hh Hc H Hp. specialize (λ y Hy, Hh y Hy). step_cases pt H; destruct_all; simplify_eq/=; try done.
  - by match goal with E : Sched.ready_queue _ = _ |- _ => rewrite E end.
  - rewrite queue_weight_cons. change (executed (set_queue_lock _ _) x) with (executed sh x). lia.
  - unfold executed; cbn. rewrite token_insert by done. pose proof (Hh idx eq_refl) as Hi.
    destruct (decide (idx = x)) as [->|]; [|done]. unfold executed in Hi. by rewrite Hi.
  - unfold executed; cbn. rewrite token_insert by done. pose proof (Hh (j_idx j) eq_refl) as Hi.
    destruct (decide (j_idx j = x)) as [<-|]; unfold executed in *; [rewrite Hi, Nat.eqb_refl; cbn; lia|].
    destruct (Nat.eqb_spec x (j_idx j)); [congruence|done].
  - unfold executed in *; cbn. rewrite token_insert by done.
    case_decide; subst; [by rewrite (Hc _ eq_refl)|done].
Qed.

(** What has been executed stays executed. *)
Lemma step_executed t pt sh pt' sh' log x :
  pt_ordered (mv sh) log pt → thread_step cfg txs t pt sh = Some (pt', sh') → holding pt ≠ Some x →
  executed sh x = 1 → executed sh' x = 1.
Proof.
  intros Hpt H Hx He. step_cases pt H; try exact He; unfold executed in *; cbn; try done.
  all: rewrite token_insert by done; case_decide; simplify_eq/=; done.
Qed.

(** A transaction leaves its holder executed, with all its writes made. *)
Lemma step_release t pt sh pt' sh' log x :
  pt_ordered (mv sh) log pt → thread_step cfg txs t pt sh = Some (pt', sh') → pt' ≠ Panicked →
  holding pt = Some x → holding pt' ≠ Some x →
  ∃ tx, txs !! x = Some tx ∧ settled (mv sh) log x tx ∧ made (mv sh) pt = Some (x, writes (mv sh) x tx) ∧
    written pt = [].
Proof.
  intros Hpt H Hp Hx Hx'. step_cases pt H; destruct_all; simplify_eq/=; try done.
  match goal with E : settled_job _ _ _ |- _ => destruct E end.
  eexists; by split_and!.
Qed.

Lemma step_committed_executed t pt sh pt' sh' x :
  pt_local cfg txs pt sh → thread_step cfg txs t pt sh = Some (pt', sh') →
  (∀ c, pt = CommitStore (S c) → executed sh c = 1) →
  (∀ x, x < Sched.committed_idx (sched sh) → executed sh x = 1) →
  x < Sched.committed_idx (sched sh') → executed sh x = 1.
Proof.
  intros Hpt H Hc Hall. step_cases pt H; try exact (Hall x). 
  destruct Hpt as [-> _]. intros Hx.
  destruct (decide (x = Sched.committed_idx (sched sh))) as [->|]; [by apply Hc|]. apply Hall. lia.
Qed.

Lemma step_marking t pt sh pt' sh' c :
  thread_step cfg txs t pt sh = Some (pt', sh') → pt' = CommitMark c ∨ pt' = CommitStore (S c) →
  executed sh' c = 1.
Proof.
  intros H. step_cases pt H; intros [[=]|[=]]; subst.
  - unfold executed. match goal with E : Sched.statuses _ !! _ = _ |- _ => by rewrite E end.
  - unfold executed; cbn. rewrite token_insert by done. rewrite decide_True by lia. done.
Qed.

(** [execution_count] counts each transaction taken from the queue. *)
Lemma step_count t pt sh pt' sh' log :
  pt_ordered (mv sh) log pt → thread_step cfg txs t pt sh = Some (pt', sh') → pt' ≠ Panicked →
  execution_count sh' + queue_weight (λ _, true) (queue sh') + weight (λ _, true) (waiting pt') =
  execution_count sh + queue_weight (λ _, true) (queue sh) + weight (λ _, true) (waiting pt).
Proof.
  intros Hpt H Hp. step_cases pt H; try done.
  all: rewrite ?queue_weight_cons; cbn; try lia.
  by match goal with E : Sched.ready_queue _ = _ |- _ => rewrite E end.
Qed.

Lemma step_executed_inv t pt sh pt' sh' log x :
  pt_ordered (mv sh) log pt → thread_step cfg txs t pt sh = Some (pt', sh') → executed sh' x = 1 →
  executed sh x = 1 ∨ holding pt = Some x ∨ pt = CommitMark x.
Proof.
  intros Hpt H. unfold executed. step_cases pt H; auto; try done.
  all: rewrite token_insert by done; case_decide; subst; auto.
Qed.

(** ** A transaction has one holder *)

Section Tokens.
Context (st : State) (log : list (nat * Address)) (HD : OInv st log).

Lemma weight_holding pt x : holding pt = Some x → weight (Nat.eqb x) (holding pt) = 1.
Proof. intros ->. cbn. by rewrite Nat.eqb_refl. Qed.

Lemma occurrences_holder t pt x :
  threads st !! t = Some pt → holding pt = Some x →
  1 + queue_weight (Nat.eqb x) (queue (shared st)) ≤ occurrences (Nat.eqb x) holding st.
Proof.
  intros Ht Hx. unfold occurrences.
  pose proof (sum_list_insert ((λ p, weight (Nat.eqb x) (holding p)) <$> threads st) t 0 1) as Hs.
  rewrite list_lookup_fmap, Ht in Hs. cbn [fmap option_fmap option_map] in Hs.
  rewrite weight_holding in Hs by done. specialize (Hs eq_refl). lia.
Qed.

Lemma occurrences_le x : occurrences (Nat.eqb x) holding st ≤ 1.
Proof. pose proof (oi_once _ _ HD x). destruct (x <? length txs); cbn in *; lia. Qed.

Lemma holder_unique t u pt pu x :
  threads st !! t = Some pt → threads st !! u = Some pu → t ≠ u →
  holding pt = Some x → holding pu ≠ Some x.
Proof.
  intros Ht Hu Hne Hpt Hpu. pose proof (occurrences_le x) as Hle. revert Hle. unfold occurrences.
  pose proof (sum_list_insert ((λ p, weight (Nat.eqb x) (holding p)) <$> threads st) t 0 1) as Hs.
  pose proof (sum_list_insert
    (<[t := 0]> ((λ p, weight (Nat.eqb x) (holding p)) <$> threads st)) u 0 1) as Hs'.
  rewrite list_lookup_insert_ne in Hs' by done. rewrite list_lookup_fmap, Ht in Hs.
  rewrite list_lookup_fmap, Hu in Hs'. cbn [fmap option_fmap option_map] in Hs, Hs'.
  rewrite weight_holding in Hs, Hs' by done. specialize (Hs eq_refl). specialize (Hs' eq_refl). lia.
Qed.

Lemma holder_not_queued t pt x inc :
  threads st !! t = Some pt → holding pt = Some x → (x, inc) ∉ queue (shared st).
Proof.
  intros Ht Hx Hin. pose proof (occurrences_holder _ _ _ Ht Hx). pose proof (occurrences_le x).
  assert (queue_weight (Nat.eqb x) (queue (shared st)) = 0) as Hq by lia.
  rewrite queue_weight_0 in Hq. specialize (Hq _ Hin). cbn in Hq. by rewrite Nat.eqb_refl in Hq.
Qed.

Lemma holder_not_executed t pt x :
  threads st !! t = Some pt → holding pt = Some x → executed (shared st) x = 0.
Proof.
  intros Ht Hx. pose proof (occurrences_holder _ _ _ Ht Hx). pose proof (oi_once _ _ HD x).
  destruct (x <? length txs); cbn in *; lia.
Qed.

Lemma executed_not_held t pt x :
  threads st !! t = Some pt → executed (shared st) x = 1 → holding pt ≠ Some x.
Proof. intros Ht He Hx. by rewrite (holder_not_executed _ _ _ Ht Hx) in He. Qed.
End Tokens.


(** ** The invariant *)

Lemma tokens_step t pt pt' st st' log :
  OInv st log → threads st !! t = Some pt →
  thread_step cfg txs t pt (shared st) = Some (pt', shared st') → pt' ≠ Panicked →
  threads st' = <[t := pt']> (threads st) →
  (∀ x, occurrences (Nat.eqb x) holding st' + executed (shared st') x = Nat.b2n (x <? length txs)) ∧
  execution_count (shared st') + occurrences (λ _, true) waiting st' = length txs.
Proof.
  intros HO Ht Hs Hp Hth. pose proof (oi_points _ _ HO t pt Ht) as Hpt. split.
  - intros x. rewrite <- (oi_once _ _ HO x).
    pose proof (occurrences_step (Nat.eqb x) holding st t pt pt' st' Ht Hth).
    cut (queue_weight (Nat.eqb x) (queue (shared st')) + weight (Nat.eqb x) (holding pt') +
           executed (shared st') x =
         queue_weight (Nat.eqb x) (queue (shared st)) + weight (Nat.eqb x) (holding pt) +
           executed (shared st) x); [lia|].
    eapply step_tokens; [done|by eauto using holder_not_executed| |done..].
    intros c ->. eapply (oi_marking _ _ HO t). by left.
  - rewrite <- (oi_count _ _ HO). pose proof (step_count _ _ _ _ _ _ Hpt Hs Hp).
    pose proof (occurrences_step (λ _, true) waiting st t pt pt' st' Ht Hth). lia.
Qed.

(** The executed transactions and their states. *)
Lemma executed_step t pt pt' st st' log x :
  OInv st log → threads st !! t = Some pt → in_order log pt = true →
  thread_step cfg txs t pt (shared st) = Some (pt', shared st') → pt' ≠ Panicked →
  holding pt' ≠ Some x → executed (shared st') x = 1 →
  ∀ tx a, txs !! x = Some tx →
    settled (mv (shared st')) (reads pt ++ log) x tx ∧
    state_at (mv (shared st')) a x = as_map (writes (mv (shared st')) x tx) !! a.
Proof.
  intros HO Ht Ho Hs Hp Hx' He tx a Htx. pose proof (oi_points _ _ HO t pt Ht) as Hpt.
  pose proof (step_extends _ _ _ _ _ _ Hs Ho) as Hext.
  assert (settled (mv (shared st)) log x tx ∧
    state_at (mv (shared st')) a x = as_map (writes (mv (shared st)) x tx) !! a) as [Hset Hst].
  { destruct (decide (holding pt = Some x)) as [Hx|Hx].
    - destruct (step_release _ _ _ _ _ _ _ Hpt Hs Hp Hx Hx') as (tx' & Htx' & Hset & Hm & Hw).
      simplify_eq. split; [done|].
      rewrite <- (app_nil_r (writes _ x tx)), <- Hw.
      eapply step_state_written; [done..|]. by eapply (oi_made _ _ HO t).
    - rewrite (step_other_state _ _ _ _ _ _ _ Hs Hx). apply (oi_executed _ _ HO); [|done].
      destruct (step_executed_inv _ _ _ _ _ _ _ Hpt Hs He) as [?|[?| ->]]; [done..|].
      eapply (oi_marking _ _ HO t). by left. }
  split; [by eapply settled_extends|]. by rewrite (writes_extends _ _ _ _ Hext).
Qed.

(** The versions the stepping thread and the others have made. *)
Lemma made_step t pt pt' st st' log u pu x ws a :
  OInv st log → threads st !! t = Some pt → in_order log pt = true →
  thread_step cfg txs t pt (shared st) = Some (pt', shared st') →
  threads st' = <[t := pt']> (threads st) →
  threads st' !! u = Some pu → made (mv (shared st')) pu = Some (x, ws) →
  state_at (mv (shared st')) a x = as_map ws !! a.
Proof.
  intros HO Ht Ho Hs Hth Hu. pose proof (oi_points _ _ HO t pt Ht) as Hpt.
  pose proof (step_extends _ _ _ _ _ _ Hs Ho) as Hext.
  rewrite Hth in Hu. apply list_lookup_insert_Some_alt in Hu as [[-> [= ->]]|[Hne Hu]].
  - pose proof (step_points _ _ _ _ _ _ (oi_mv _ _ HO) (oi_queue _ _ HO) Hpt Ho Hs) as Hpt'.
    rewrite (made_extends _ _ _ _ (step_extends_reads _ _ _ _ _ _ Hs Ho)) by done.
    intros Hmade. destruct (step_made _ _ _ _ _ _ _ _ Hpt Hs Hmade) as [(ws0 & Hm & ->)|(Hm & -> & inc & Hin)].
    + eapply step_state_written; [done..|]. by eapply oi_made.
    + rewrite (step_other_state _ _ _ _ _ _ _ Hs) by (by rewrite (holding_made (mv (shared st))), Hm).
      by eapply oi_queued.
  - rewrite (made_extends _ _ _ _ Hext) by by eapply oi_points. intros Hmade.
    rewrite (step_other_state _ _ _ _ _ _ _ Hs); [by eapply oi_made|].
    eapply (holder_unique _ _ HO u t); [done..|]. by rewrite (holding_made (mv (shared st))), Hmade.
Qed.

Lemma OInv_step t pt st st' log :
  Inv cfg txs st → OInv st log → threads st !! t = Some pt → in_order log pt = true →
  step_of cfg txs st t = Some st' → OInv st' (reads pt ++ log).
Proof.
  intros HI HO Ht Ho Hstep. assert (Inv cfg txs st') as HI' by (eapply Inv_step; [done|by exists t]).
  apply step_of_inv in Hstep as (pt0 & pt' & Ht0 & Hs & Hth). rewrite Ht in Ht0. injection Ht0 as <-.
  pose proof (oi_points _ _ HO t pt Ht) as Hpt.
  pose proof (step_extends _ _ _ _ _ _ Hs Ho) as Hext.
  assert (threads st' !! t = Some pt') as Ht'.
  { rewrite Hth. apply list_lookup_insert_eq. by eapply lookup_lt_Some. }
  assert (pt' ≠ Panicked) as Hp.
  { intros ->. apply (inv_local _ _ _ HI' t _ Ht'). }
  pose proof (tokens_step _ _ _ _ _ _ HO Ht Hs Hp Hth) as [Honce Hcount].
  assert (∀ u pu, threads st' !! u = Some pu → u ≠ t → threads st !! u = Some pu) as Hother.
  { intros u pu. rewrite Hth. intros Hu Hne. by rewrite list_lookup_insert_ne in Hu. }
  split; [|intros a i Hi|intros u pu Hu|intros p Hin|done..|intros x inc a Hin|intros u pu x ws a Hu Hmade
          |intros x tx a He Htx|intros x Hx|intros u c Hu].
  - by eapply step_mv_logged; [apply HO|..].
  - rewrite (step_other_state _ _ _ _ _ _ _ Hs); [by apply (oi_range _ _ HO)|].
    intros Hx. pose proof (occurrences_holder _ _ _ _ Ht Hx). pose proof (oi_once _ _ HO i) as Hi'.
    rewrite (proj2 (Nat.ltb_ge _ _)) in Hi' by done. cbn in Hi'. lia.
  - destruct (decide (u = t)) as [->|Hne]; [simplify_eq|].
    + eapply pt_ordered_extends; [by eapply step_extends_reads|].
      by eapply step_points; [apply HO..| | |].
    + eapply pt_ordered_extends; [done|]. eapply (oi_points _ _ HO). by apply Hother.
  - apply (oi_queue _ _ HO). by eapply step_queue.
  - eapply step_queue in Hin; [|done..]. rewrite (step_other_state _ _ _ _ _ _ _ Hs).
    + by eapply oi_queued.
    + intros Hx. by eapply (holder_not_queued _ _ HO).
  - by eapply made_step.
  - eapply executed_step; [done..| |done|done].
    intros Hx. pose proof (Honce x) as Hox.
    pose proof (occurrences_holder st' t pt' x Ht' Hx).
    destruct (x <? length txs); cbn in *; lia.
  - assert (executed (shared st) x = 1) as He.
    { eapply step_committed_executed; [by eapply inv_local|done| |apply HO|done].
      intros c ->. apply (oi_marking _ _ HO t). by right. }
    eapply step_executed; [done..| |done]. by eapply executed_not_held.
  - destruct (decide (u = t)) as [->|Hne]; [simplify_eq|].
    + eapply step_marking; [done|]. rewrite Ht' in Hu. naive_solver.
    + assert (executed (shared st) c = 1) as He.
      { eapply (oi_marking _ _ HO u). destruct Hu as [Hu|Hu]; apply Hother in Hu; auto. }
      eapply step_executed; [done..| |done]. by eapply executed_not_held.
Qed.

Lemma OInv_init : OInv (init cfg txs) [].
Proof.
  assert (∀ t pt, threads (init cfg txs) !! t = Some pt → pt = LoadDone) as Hth.
  { intros t pt [-> _]%lookup_replicate. done. }
  assert (∀ x, executed (shared (init cfg txs)) x = 0) as He.
  { intros x. unfold executed; cbn. destruct (replicate _ _ !! x) as [e|] eqn:E; [|done].
    apply lookup_replicate in E as [-> _]. done. }
  assert (∀ a x, state_at (mv (shared (init cfg txs))) a x = None) as Hst.
  { intros a x. apply state_at_None, MV.entry_at_new. }
  split.
  - apply mv_logged_new.
  - done.
  - intros t pt ->%Hth. done.
  - intros p (x & -> & _)%list_elem_of_fmap. done.
  - intros x. rewrite He. unfold occurrences.
    cbn [init shared threads sched Sched.new Sched.ready_queue].
    rewrite queue_weight_init, threads_weight_init, count_seq_lt by done. lia.
  - unfold occurrences. cbn [init shared threads sched Sched.new Sched.ready_queue execution_count].
    rewrite queue_weight_init, threads_weight_init by done. cbn.
    rewrite sum_list_fmap_const, length_seq. lia.
  - done.
  - intros t pt x ws a ->%Hth. done.
  - intros x tx a. by rewrite He.
  - intros x. cbn. lia.
  - intros t c [?%Hth|?%Hth]; done.
Qed.

Lemma run_ordered st log schedule st' :
  reachable cfg txs st → OInv st log → ordered st log schedule = true →
  run cfg txs st schedule = Some st' → ∃ log', OInv st' log'.
Proof.
  revert st log. induction schedule as [|t rest IH]; intros st log Hr HO Ho Hrun; simplify_eq/=; [by eauto|].
  destruct (threads st !! t) as [pt|] eqn:Ht; [|done].
  destruct (step_of cfg txs st t) as [st1|] eqn:E; [|done]. cbn in Hrun.
  apply andb_prop in Ho as [Hpt Ho].
  apply (IH st1 (reads pt ++ log)); [|by eapply OInv_step; [by apply Inv_reachable|..]|done..].
  eapply rtc_r; [exact Hr|by exists t].
Qed.

(** ** At the end of the block *)

Section Finished.
Context (st : State) (log : list (nat * Address)).
Context (HO : OInv st log) (Hr : reachable cfg txs st) (Hk : 0 < PE.num_threads cfg) (Hf : finished st).

Lemma finished_executed x : x < length txs → executed (shared st) x = 1.
Proof. intros Hx. apply (oi_committed _ _ HO). by rewrite (finished_done _ _ _ Hr Hk Hf). Qed.

Lemma finished_threads_weight f g :
  g Exited = None → sum_list ((λ pt, weight f (g pt)) <$> threads st) = 0.
Proof.
  revert Hf. clear. unfold finished. intros Hf Hg. induction Hf as [|pt l -> _ IH]; [done|].
  cbn. by rewrite Hg, IH.
Qed.

Lemma finished_count : execution_count (shared st) = length txs.
Proof.
  rewrite <- (oi_count _ _ HO). unfold occurrences.
  rewrite finished_threads_weight by done. rewrite (proj2 (queue_weight_0 _ _)); [lia|].
  intros [x inc] Hin. exfalso.
  assert (x < length txs) as Hx.
  { destruct (inv_shared _ _ _ (Inv_reachable _ _ _ Hr)) as [[_ Hq _ _] Hn _].
    rewrite <- Hn. apply (Hq _ Hin). }
  pose proof (finished_executed _ Hx). pose proof (oi_once _ _ HO x).
  pose proof (occurrences_pos x inc holding st Hin). destruct (x <? length txs); cbn in *; lia.
Qed.

Lemma finished_consistent : consistent initial verify txs (mv (shared st)).
Proof.
  split; [|intros i a; apply (oi_range _ _ HO)].
  intros i tx a Htx. apply (oi_executed _ _ HO); [|done].
  apply finished_executed. by eapply lookup_lt_Some.
Qed.

Lemma finished_serial :
  PE.total_executions (block_result st) = Z.of_nat (length txs) ∧
  ∀ a s, (a, s) ∈ PE.final_states (block_result st) ↔ Ledger.run verify initial txs ∅ !! a = Some s.
Proof.
  split; [unfold block_result; cbn; by rewrite finished_count|].
  intros a s. apply consistent_ledger, finished_consistent.
Qed.
End Finished.

(** Nobody is aborted, and a state without steps is finished. *)
Lemma ordered_no_deadlock st log :
  OInv st log → reachable cfg txs st →
  (∀ p, p ∈ queue (shared st) → p.2 = 0) ∧
  (∀ t x inc rest, threads st !! t ≠ Some (PushAborted x inc rest)) ∧
  ((∀ t, step_of cfg txs st t = None) → finished st).
Proof.
  intros HO Hr.
  assert (∀ t x inc rest, threads st !! t ≠ Some (PushAborted x inc rest)) as Hpush.
  { intros t x inc rest Ht. apply (oi_points _ _ HO t _ Ht). }
  split_and!; [apply HO|done|]. intros Hb. apply Forall_lookup. intros t pt Ht.
  destruct (WSafety.blocked_thread cfg txs st t pt (Inv_reachable _ _ _ Hr)
    (λ u _ _ _, Hb u) (Hb t) Ht) as [|(t' & u & x & _ & (inc & rest & Hu) & _)]; [done|].
  by apply Hpush in Hu.
Qed.

(** C4: A run whose writes come before later reads is serializable.  Take any
    block, any number of workers and any schedule in which no transaction writes
    an account that a later transaction has already read; when all workers have
    left their loop, each transaction was executed exactly once and the final
    states are those of the transactions applied in block order. *)
Theorem ordered_run_serial schedule st :
  ordered (init cfg txs) [] schedule = true → run cfg txs (init cfg txs) schedule = Some st →
  0 < PE.num_threads cfg → finished st →
  PE.total_executions (block_result st) = Z.of_nat (length txs) ∧
  ∀ a s, (a, s) ∈ PE.final_states (block_result st) ↔ Ledger.run verify initial txs ∅ !! a = Some s.
Proof.
  intros Ho Hrun Hk Hf.
  assert (reachable cfg txs st) as Hr by (eapply run_reachable; [apply rtc_refl|done]).
  destruct (run_ordered _ _ _ _ (rtc_refl _ _) OInv_init Ho Hrun) as [log HO].
  by apply (finished_serial _ log).
Qed.
End Ordered.

(** ** Witness *)

(** Each transaction of [Scenarios.block_chain] reads an account the previous
    one writes; two workers overlap and still write before the later reads. *)
Definition schedule_overlap : list nat :=
  Scenarios.steps 4 0 ++ Scenarios.steps 4 1 ++ Scenarios.steps 12 0 ++
  concat (replicate 3 [0; 1; 1]) ++ Scenarios.steps 12 0 ++ Scenarios.steps 27 1 ++
  Scenarios.steps 21 0 ++ Scenarios.steps 1 1.

Lemma ordered_run_serial_witness :
  (Scenarios.acct 1, AccountState_new 2 (u256_of 1008)) ∈
    PE.final_states (block_result
      (Scenarios.after (Scenarios.config 2) Scenarios.block_chain schedule_overlap)).
Proof.
  apply (ordered_run_serial (Scenarios.config 2) Scenarios.block_chain schedule_overlap).
  - by_compute.
  - apply Scenarios.runs_run. by_compute.
  - apply Nat.ltb_lt. by_compute.
  - apply Scenarios.forallb_finished. by_compute.
  - by_compute.
Defined.
End Ordered.
