(* ===== verification/Disjoint.v ===== *)
(** * Blocks without conflicts, under every schedule

    When no two transactions of a block name the same account, every schedule is
    one of [Ordered]: the races of [Scenarios] cannot happen, the workers cannot
    deadlock, and whenever they finish, the final states are the ledger of the
    transactions applied in block order. *)

From stdpp Require Import base option list gmap relations.
From Stdlib Require Import ZArith Lia.
From S2P Require Import Prelude Integers Externals Types MVHashMap Scheduler ParallelExecutor.
From S2P Require Import Ledger MVSerial Workers WorkersInv Scenarios Ordered.

Module Disjoint.
Import Workers WInv Ordered.

Section Disjoint.
Context {A : Alloy} {D : DashMapImpl Address} {DL : DashMapLaws D}.
Context (cfg : PE.ExecutorConfig) (txs : list PE.Transaction).
Implicit Types (pt : Point) (st : State) (t u x i : nat) (a : Address)
  (tx : PE.Transaction) (log : list (nat * Address)).

Abbreviation initial := (PE.initial_states cfg).
Abbreviation verify := (PE.verify_signatures cfg).
Abbreviation queue sh := (Sched.ready_queue (sched sh)).

Definition touches tx a : Prop := a = PE.from tx ∨ a = PE.to tx.

(** Transaction [i] of the block names [a]. *)
Definition touched i a : Prop := ∃ tx, txs !! i = Some tx ∧ touches tx a.

Definition disjoint : Prop := ∀ i k a, touched i a → touched k a → i = k.

Lemma job_touches j a : job_at cfg txs j → touches (j_tx j) a → touched (j_idx j) a.
Proof. intros [Ht _] Ha. by exists (j_tx j). Qed.

(** A transaction reads its own accounts. *)
Lemma reads_touched m log pt :
  pt_ordered cfg txs m log pt → Forall (λ r, touched r.1 r.2) (reads pt).
Proof.
  destruct pt; cbn; auto; intros Hpt; (apply Forall_singleton; cbn).
  - apply job_touches; [done|by left].
  - apply job_touches; [apply Hpt|by right].
Qed.

(** And writes them, when nobody else has read them. *)
Lemma disjoint_in_order m log pt :
  disjoint → Forall (λ r, touched r.1 r.2) log → pt_ordered cfg txs m log pt → in_order log pt = true.
Proof.
  intros Hdis Hlog. destruct pt; try done. intros (Hj & _ & _ & Hw). cbn.
  assert (touched (j_idx j) w.1) as Hjw.
  { apply job_touches; [apply Hj|]. destruct Hw as [[-> _]|[-> _]]; [by left|by right]. }
  apply forallb_forall. intros [k a] Hin%list_elem_of_In. cbn.
  destruct (decide (a = w.1)) as [->|Ha]; [|by rewrite bool_decide_eq_false_2].
  rewrite bool_decide_eq_true_2 by done. cbn. apply Nat.leb_le.
  rewrite Forall_forall in Hlog. pose proof (Hdis _ _ _ (Hlog _ Hin) Hjw) as E. cbn in E. lia.
Qed.

Lemma disjoint_ordered (Hdis : disjoint) st :
  reachable cfg txs st → ∃ log, OInv cfg txs st log ∧ Forall (λ r, touched r.1 r.2) log.
Proof.
  apply (reachable_ind_step cfg txs
    (λ st, ∃ log, OInv cfg txs st log ∧ Forall (λ r, touched r.1 r.2) log)); [exists []; split; [apply OInv_init|done]|].
  intros s1 s2 Hr (log & HO & Hlog) [t Hs].
  pose proof Hs as (pt & _ & Ht & _)%step_of_inv. pose proof (oi_points _ _ _ _ HO t pt Ht) as Hpt.
  exists (reads pt ++ log). split.
  - eapply OInv_step; [by apply Inv_reachable|done..| |done]. by eapply disjoint_in_order.
  - apply Forall_app_2; [|done]. by eapply reads_touched.
Qed.

(** A block of disjoint transactions is serializable under every schedule.
    If no two transactions name the same account, then whenever the workers have
    all left their loop, however many they are and however they were
    interleaved, each transaction was executed exactly once and the final states
    are those of the ledger of the transactions applied in block order. *)
Theorem disjoint_block_serial st :
  disjoint → reachable cfg txs st → 0 < PE.num_threads cfg → finished st →
  PE.total_executions (block_result st) = Z.of_nat (length txs) ∧
  ∀ a s, (a, s) ∈ PE.final_states (block_result st) ↔ Ledger.run verify initial txs ∅ !! a = Some s.
Proof.
  intros Hdis Hr Hk Hf. destruct (disjoint_ordered Hdis _ Hr) as (log & HO & _).
  by apply (finished_serial _ _ _ log).
Qed.

(** Disjoint transactions cannot deadlock the workers, and nobody is
    invalidated.  In every reachable state no incarnation but the first is
    queued or running and no thread is about to push an aborted transaction;
    and if no thread can step, all of them have left their loop. *)
Theorem disjoint_no_deadlock st :
  disjoint → reachable cfg txs st →
  (∀ p, p ∈ queue (shared st) → p.2 = 0) ∧
  (∀ t x inc rest, threads st !! t ≠ Some (PushAborted x inc rest)) ∧
  ((∀ t, step_of cfg txs st t = None) → finished st).
Proof.
  intros Hdis Hr. destruct (disjoint_ordered Hdis _ Hr) as (log & HO & _).
  by apply (ordered_no_deadlock _ _ _ log).
Qed.
End Disjoint.

(** ** Witnesses *)

Lemma independent_disjoint : disjoint Scenarios.block_independent.
Proof.
  intros i k a (tx1 & H1 & Ha) (tx2 & H2 & Hb).
  destruct i as [|[|i]], k as [|[|k]]; simplify_eq/=; try done;
    destruct Ha as [->| ->], Hb as [Hb|Hb]; discriminate Hb.
Qed.

(** Both workers execute a transaction, in turns. *)
Definition schedule_turns : list nat :=
  Scenarios.steps 3 0 ++ Scenarios.steps 3 1 ++ concat (replicate 13 [0; 1]) ++
  Scenarios.steps 14 0 ++ Scenarios.steps 8 1.

Lemma disjoint_block_serial_witness :
  PE.total_executions (block_result (Scenarios.after (Scenarios.config 2)
    Scenarios.block_independent schedule_turns)) = 2%Z ∧
  (Scenarios.acct 4, AccountState_new 0 (u256_of 1001)) ∈
    PE.final_states (block_result (Scenarios.after (Scenarios.config 2)
      Scenarios.block_independent schedule_turns)).
Proof.
  destruct (disjoint_block_serial (Scenarios.config 2) Scenarios.block_independent
    (Scenarios.after (Scenarios.config 2) Scenarios.block_independent schedule_turns)) as [Hn Hs].
  - apply independent_disjoint.
  - apply Scenarios.after_reachable. by_compute.
  - apply Nat.ltb_lt. by_compute.
  - apply Scenarios.forallb_finished. by_compute.
  - split; [exact Hn|]. apply Hs. by_compute.
Defined.

Lemma disjoint_no_deadlock_witness :
  finished (Scenarios.after (Scenarios.config 2) Scenarios.block_independent schedule_turns).
Proof.
  destruct (disjoint_no_deadlock (Scenarios.config 2) Scenarios.block_independent
    (Scenarios.after (Scenarios.config 2) Scenarios.block_independent schedule_turns)) as (_ & _ & H).
  - apply independent_disjoint.
  - apply Scenarios.after_reachable. by_compute.
  - apply H. intros [|[|t]]; apply is_none_true; by_compute.
Defined.
End Disjoint.
