(* ===== verification/Termination.v ===== *)
(** * How much the workers can do, and how a run can end

    Every execution of a transaction can re-queue only transactions after it, so
    a token of transaction [i] is worth at most [share i] executions.  The sum of
    the shares bounds the executions of a block, and with the steps of an
    execution it bounds the steps of any schedule that are not idle polling.
    From every reachable state a run can then be brought to one of three ends:
    all workers have left, the lock inversion, or polling for ever. *)

From stdpp Require Import base option list sorting gmap relations.
From Stdlib Require Import ZArith Lia.
From S2P Require Import Prelude Integers Externals Types MVHashMap Scheduler ParallelExecutor.
From S2P Require Import Workers WorkersInv WorkersCount WorkersSafety Scenarios.

Module Termination.
Import Workers WInv.

Section Termination.
Context {A : Alloy} {D : DashMapImpl Address} {DL : DashMapLaws D}.
Context (cfg : PE.ExecutorConfig) (txs : list PE.Transaction).
Implicit Types (sh : Shared) (pt : Point) (st : State) (t u x i : nat) (l : list nat).

Abbreviation n := (length txs).
Abbreviation queue sh := (Sched.ready_queue (sched sh)).

(** ** Shares *)

(** The executions one token of [i] can cause: its own, and those of the
    transactions after it that it re-queues. *)
Definition share i : nat := 2 ^ (n - S i).

Definition shares l : nat := sum_list (share <$> l).

Lemma share_pos i : 1 ≤ share i.
Proof. unfold share. pose proof (Nat.pow_nonzero 2 (n - S i)). lia. Qed.

Lemma share_double i x : i < x < n → 2 * share x ≤ share i.
Proof.
  intros Hx. unfold share. rewrite <- Nat.pow_succ_r'. apply Nat.pow_le_mono_r; lia.
Qed.

(** Distinct transactions after [i] are worth less than [i]. *)
Lemma shares_lt l i :
  StronglySorted lt l → Forall (λ x, i < x < n) l → shares l < share i.
Proof.
  intros Hs. revert i. induction Hs as [|x l Hs IH Hx]; intros i Hf; [apply share_pos|].
  inversion Hf as [|? ? Hi Hl]; subst. unfold shares in *; cbn.
  pose proof (share_double i x Hi). assert (sum_list (share <$> l) < share x); [|lia].
  apply IH. rewrite Forall_forall in Hx, Hl |- *. intros y Hy.
  specialize (Hx y Hy). specialize (Hl y Hy). lia.
Qed.

Lemma shares_seq : shares (seq 0 n) = 2 ^ n - 1.
Proof.
  assert (∀ k, k ≤ n → shares (seq (n - k) k) = 2 ^ k - 1) as H.
  { induction k as [|k IH]; intros Hk; [done|]. unfold shares in *.
    cbn [seq fmap list_fmap sum_list sum_list_with].
    replace (S (n - S k)) with (n - k) by lia.
    replace (share (n - S k)) with (2 ^ k) by (unfold share; f_equal; lia).
    change (sum_list_with id) with sum_list. rewrite IH by lia. cbn.
    pose proof (Nat.pow_nonzero 2 k). lia. }
  rewrite <- (H n) by done. by rewrite Nat.sub_diag.
Qed.

(** Distinct transactions are at most [n]. *)
Lemma length_distinct l : StronglySorted lt l → Forall (λ x, x < n) l → length l ≤ n.
Proof.
  intros Hs%StronglySorted_lt_NoDup Hf. rewrite <- (length_seq n 0).
  apply submseteq_length, NoDup_submseteq; [done|]. intros x Hx.
  apply elem_of_seq. rewrite Forall_forall in Hf. specialize (Hf x Hx). lia.
Qed.

(** ** The measures *)

(** The executions a thread at [pt] can still start or cause. *)
Definition pt_executions pt : nat :=
  match pt with
  | MarkExecuting i _ | Begin i _ => share i
  | ReadSender j | RecordSender j _ | ReadReceiver j _ | RecordReceiver j _ _
  | HasLower j _ _ _ | StorageReaders j _ _ _ | WriteEntry j _ _ _ => share (j_idx j) - 1
  | CountSuccess _ l | SetExecuted _ l | CountOnce _ l | Aborting l => shares l
  | PushAborted x _ l => share x + shares l
  | _ => 0
  end.

Definition executions_left st : nat :=
  shares (queue (shared st)).*1 + sum_list (pt_executions <$> threads st).

(** The steps to the next [LoadDone], when nothing is taken from the queue,
    executed or committed on the way. *)
Definition rank pt : nat :=
  match pt with
  | MarkExecuting _ _ => 2
  | Begin _ _ => 1
  | ReadSender _ => 19 + 5 * n
  | RecordSender _ _ => 18 + 5 * n
  | ReadReceiver _ _ => 17 + 5 * n
  | RecordReceiver _ _ _ => 16 + 5 * n
  | HasLower _ _ rest _ => 12 + 5 * n + 3 * length rest
  | StorageReaders _ _ rest _ => 11 + 5 * n + 3 * length rest
  | WriteEntry _ _ rest _ => 10 + 5 * n + 3 * length rest
  | CountSuccess _ l => 9 + 5 * length l
  | CountFail _ => 9
  | SetExecuted _ l => 8 + 5 * length l
  | CountOnce _ l => 7 + 5 * length l
  | Aborting l => 6 + 5 * length l
  | PushAborted _ _ l => 10 + 5 * length l
  | TryLock => 5
  | CommitLoad => 4
  | CommitRead _ => 3
  | CommitMark _ => 2
  | CommitStore _ => 1
  | CommitDone _ => 2
  | CommitUnlock => 1
  | _ => 0
  end.

(** The steps of an execution. *)
Definition execution_steps : nat := 19 + 5 * n.

Definition thread_work pt : nat := execution_steps * pt_executions pt + rank pt.

Definition queue_work (q : list (nat * nat)) : nat := execution_steps * shares q.*1 + 3 * length q.

Definition work_left st : nat :=
  queue_work (queue (shared st)) + sum_list (thread_work <$> threads st) +
  3 * (n - Sched.committed_idx (sched (shared st))).

(** Every step but the polling of [next_task] and leaving the loop. *)
Definition working sh pt : bool :=
  match pt with
  | LoadDone | LoadCommitted | StoreDone | Exited | Panicked => false
  | PopQueue => match queue sh with [] => false | _ => true end
  | _ => true
  end.

(** What has been collected for invalidation comes after the writer, and only a
    next incarnation is pushed. *)
Definition pt_above pt : Prop :=
  match pt with
  | PushAborted _ inc _ => 0 < inc
  | HasLower j _ _ l | StorageReaders j _ _ l | WriteEntry j _ _ l => Forall (λ x, j_idx j < x) l
  | _ => True
  end.

(** ** One step *)

Lemma above_storage_invalidated m a w : Forall (λ x, w < x) (MV.storage_invalidated m a w).
Proof. apply Forall_forall. by intros x [Hx _]%MV.elem_of_storage_invalidated. Qed.

Lemma above_write_entry m a w inc s : Forall (λ x, w < x) (MV.write_entry m a w inc s).2.
Proof. apply Forall_forall. by intros x [Hx _]%MV.elem_of_write_entry_invalidated. Qed.

Lemma step_above t pt sh pt' sh' :
  pt_above pt → thread_step cfg txs t pt sh = Some (pt', sh') → pt_above pt'.
Proof.
  intros Hpt H. step_cases pt H; try done; try lia.
  - apply Forall_app_2; [done|apply above_storage_invalidated].
  - match goal with E : MV.write_entry ?m ?a ?w ?i ?s = (_, ?l) |- _ =>
      pose proof (above_write_entry m a w i s) as Hl; rewrite E in Hl end.
    by apply Forall_app_2.
Qed.

(** The transactions a write invalidates, each once. *)
Lemma invalidated_distinct j l l' :
  Forall (abortable cfg txs) l → Forall (abortable cfg txs) l' →
  Forall (λ x, j_idx j < x) l → Forall (λ x, j_idx j < x) l' →
  let l'' := vec_dedup (sort_unstable (l ++ l')) in
  shares l'' < share (j_idx j) ∧ length l'' ≤ n.
Proof.
  intros Hl1 Hl2 Ha1 Ha2 l''.
  assert (∀ x, x ∈ l'' → j_idx j < x < n) as Hx.
  { intros x Hx. subst l''. rewrite elem_of_dedup_sort in Hx. rewrite Forall_forall in Hl1, Hl2, Ha1, Ha2.
    apply elem_of_app in Hx as [Hx|Hx]; (split; [by auto|]); [by apply Hl1|by apply Hl2]. }
  split; [apply shares_lt|apply length_distinct].
  1, 3: apply dedup_sort_sorted.
  all: apply Forall_forall; intros x Hin; specialize (Hx x Hin); lia.
Qed.

Lemma shares_snoc l x : shares (l ++ [x]) = shares l + share x.
Proof. unfold shares. rewrite fmap_app, sum_list_with_app. cbn. lia. Qed.

Lemma shares_cons x l : shares (x :: l) = share x + shares l.
Proof. done. Qed.

#[local] Arguments shares : simpl never.
#[local] Arguments Nat.mul : simpl never.
#[local] Arguments Nat.add : simpl never.

(** The last write of an execution. *)
Lemma write_entry_distinct m j w l m' l' :
  mv_ok cfg txs m → Forall (abortable cfg txs) l → Forall (λ x, j_idx j < x) l →
  MV.write_entry m w.1 (j_idx j) (j_inc j) w.2 = (m', l') →
  let l'' := vec_dedup (sort_unstable (l ++ l')) in
  shares l'' < share (j_idx j) ∧ length l'' ≤ n.
Proof.
  intros Hm Hl Ha E. apply (invalidated_distinct j); [done| |done|].
  - pose proof (abortable_write_entry cfg txs m w.1 (j_idx j) (j_inc j) w.2 Hm) as Hx. by rewrite E in Hx.
  - pose proof (above_write_entry m w.1 (j_idx j) (j_inc j) w.2) as Hx. by rewrite E in Hx.
Qed.

(** No step adds to the executions started or left. *)
Lemma step_executions t pt sh pt' sh' :
  mv_ok cfg txs (mv sh) → pt_local cfg txs pt sh → pt_above pt →
  thread_step cfg txs t pt sh = Some (pt', sh') →
  execution_count sh' + shares (queue sh').*1 + pt_executions pt' ≤
  execution_count sh + shares (queue sh).*1 + pt_executions pt.
Proof.
  intros Hm Hpt Ha H. step_cases pt H; try done; rewrite ?fmap_app; cbn;
    rewrite ?shares_snoc, ?shares_cons; try lia.
  1: by match goal with E : Sched.ready_queue _ = _ |- _ => rewrite E end.
  1, 2, 3: pose proof (share_pos idx); lia.
  1: change (shares []) with 0; lia.
  destruct Hpt as [_ Hl].
  match goal with E : MV.write_entry _ _ _ _ _ = _ |- _ =>
    pose proof (write_entry_distinct _ _ _ _ _ _ Hm Hl Ha E) as [? _] end.
  cbn in *; lia.
Qed.

Lemma polling_step t pt sh pt' sh' :
  thread_step cfg txs t pt sh = Some (pt', sh') → working sh pt = false →
  queue sh' = queue sh ∧ rank pt' = rank pt ∧ pt_executions pt' = pt_executions pt ∧
  Sched.committed_idx (sched sh') = Sched.committed_idx (sched sh).
Proof.
  intros H Hw. step_cases pt H; try done; exfalso.
  match goal with E : Sched.ready_queue _ = _ |- _ => by rewrite E in Hw end.
Qed.

(** The work of the stepping thread and of the shared state, without the
    executions left. *)
Definition light sh pt : nat :=
  3 * length (queue sh) + rank pt + 3 * (n - Sched.committed_idx (sched sh)).
#[local] Arguments light : simpl never.

Lemma step_light t pt sh pt' sh' :
  shared_ok cfg txs sh → pt_local cfg txs pt sh → pt_above pt →
  thread_step cfg txs t pt sh = Some (pt', sh') → pt' ≠ Panicked → working sh pt = true →
  match pt with
  | Begin _ _ => execution_count sh' = S (execution_count sh) ∧
      light sh' pt' < execution_steps + light sh pt
  | _ => execution_count sh' = execution_count sh ∧ light sh' pt' < light sh pt
  end.
Proof.
  intros Hsh Hpt Ha H Hp Hw. pose proof (Sched.wf_committed _ (sh_sched _ _ _ Hsh)).
  step_cases pt H; try done; (split; [done || lia|]); unfold light, execution_steps; cbn; try lia.
  - match goal with E : Sched.ready_queue _ = _ |- _ => by rewrite E in Hw end.
  - match goal with E : Sched.ready_queue _ = _ |- _ => rewrite E end. cbn. lia.
  - destruct Hpt as [_ Hl].
    match goal with E : MV.write_entry _ _ _ _ _ = _ |- _ =>
      pose proof (write_entry_distinct _ _ _ _ _ _ (sh_mv _ _ _ Hsh) Hl Ha E) as [_ ?] end.
    cbn in *; lia.
  - rewrite length_app. cbn. lia.
Qed.

Lemma step_thread_work t pt sh pt' sh' :
  shared_ok cfg txs sh → pt_local cfg txs pt sh → pt_above pt →
  thread_step cfg txs t pt sh = Some (pt', sh') → pt' ≠ Panicked →
  queue_work (queue sh') + thread_work pt' + 3 * (n - Sched.committed_idx (sched sh')) +
    Nat.b2n (working sh pt) ≤
  queue_work (queue sh) + thread_work pt + 3 * (n - Sched.committed_idx (sched sh)).
Proof.
  intros Hsh Hpt Ha Hs Hp. unfold queue_work, thread_work.
  destruct (working sh pt) eqn:Hw.
  - pose proof (step_executions _ _ _ _ _ (sh_mv _ _ _ Hsh) Hpt Ha Hs) as He.
    pose proof (step_light _ _ _ _ _ Hsh Hpt Ha Hs Hp Hw) as Hl. unfold light in Hl.
    assert (∃ b, execution_count sh' = execution_count sh + b ∧
      3 * length (queue sh') + rank pt' + 3 * (n - Sched.committed_idx (sched sh')) <
      execution_steps * b +
        (3 * length (queue sh) + rank pt + 3 * (n - Sched.committed_idx (sched sh)))) as (b & Hb & Hlt).
    { destruct pt; destruct Hl; solve [exists 0; lia | exists 1; lia]. }
    assert (execution_steps * (b + shares (queue sh').*1 + pt_executions pt') ≤
      execution_steps * (shares (queue sh).*1 + pt_executions pt)) as Hm
      by (apply Nat.mul_le_mono_l; lia).
    cbn [Nat.b2n]. lia.
  - destruct (polling_step _ _ _ _ _ Hs Hw) as (-> & -> & -> & ->). cbn [Nat.b2n]. lia.
Qed.

(** ** The bounds *)

Record bounded st : Prop := {
  bd_above : ∀ t pt, threads st !! t = Some pt → pt_above pt;
  bd_executions : execution_count (shared st) + executions_left st ≤ 2 ^ n - 1;
}.

Lemma sum_threads_step (f : Point → nat) t pt pt' st st' :
  threads st !! t = Some pt → threads st' = <[t := pt']> (threads st) →
  sum_list (f <$> threads st') + f pt = sum_list (f <$> threads st) + f pt'.
Proof.
  intros Ht ->. rewrite list_fmap_insert. apply sum_list_insert. by rewrite list_lookup_fmap, Ht.
Qed.

Lemma sum_threads_init (f : Point → nat) k : f LoadDone = 0 → sum_list (f <$> replicate k LoadDone) = 0.
Proof. intros Hf. induction k as [|k IH]; [done|]. cbn. by rewrite Hf, IH. Qed.

Lemma executions_left_init : executions_left (init cfg txs) = 2 ^ n - 1.
Proof.
  unfold executions_left. cbn [init shared threads sched Sched.new Sched.ready_queue].
  rewrite sum_threads_init, <- list_fmap_compose by done.
  rewrite <- shares_seq. unfold shares. rewrite <- list_fmap_compose. cbn. by rewrite Nat.add_0_r.
Qed.

Lemma bounded_step st st' : Inv cfg txs st → bounded st → step cfg txs st st' → bounded st'.
Proof.
  intros HI [Ha He] [t (pt & pt' & Ht & Hs & Hth)%step_of_inv].
  pose proof (inv_local _ _ _ HI t pt Ht) as Hpt.
  pose proof (inv_shared _ _ _ HI) as Hsh. split.
  - intros u pu. rewrite Hth.
    intros [[-> [= <-]]|[_ Hu]]%list_lookup_insert_Some_alt; [|by eapply Ha].
    eapply step_above; [|done]. by eapply Ha.
  - pose proof (step_executions _ _ _ _ _ (sh_mv _ _ _ Hsh) Hpt (Ha _ _ Ht) Hs).
    pose proof (sum_threads_step pt_executions t pt pt' st st' Ht Hth).
    unfold executions_left in *. lia.
Qed.

Lemma bounded_reachable st : reachable cfg txs st → bounded st.
Proof.
  apply (reachable_ind_step cfg txs).
  - split; [|by rewrite executions_left_init].
    intros t pt [-> _]%lookup_replicate. done.
  - intros s1 s2 Hr HD Hs. eapply bounded_step; [by apply Inv_reachable|done..].
Qed.

(** A step of a thread at work uses up work. *)
Lemma step_work st st' t pt :
  reachable cfg txs st → step_of cfg txs st t = Some st' → threads st !! t = Some pt →
  work_left st' + Nat.b2n (working (shared st) pt) ≤ work_left st.
Proof.
  intros Hr Hstep Ht. pose proof (Inv_reachable _ _ _ Hr) as HI.
  assert (Inv cfg txs st') as HI' by (eapply Inv_step; [done|by exists t]).
  destruct (bounded_reachable _ Hr) as [Ha _].
  apply step_of_inv in Hstep as (pt0 & pt' & Ht0 & Hs & Hth).
  rewrite Ht in Ht0. injection Ht0 as <-.
  assert (pt' ≠ Panicked) as Hp.
  { intros ->. apply (inv_local _ _ _ HI' t Panicked). rewrite Hth.
    apply list_lookup_insert_eq. by eapply lookup_lt_Some. }
  pose proof (sum_threads_step thread_work t pt pt' st st' Ht Hth).
  pose proof (step_thread_work _ _ _ _ _ (inv_shared _ _ _ HI) (inv_local _ _ _ HI t pt Ht)
    (Ha _ _ Ht) Hs Hp).
  unfold work_left. lia.
Qed.

(** ** Every transaction is executed *)

(** The transaction a thread works on, aborts or commits. *)
Definition mentions pt : option nat :=
  match pt with
  | MarkExecuting i _ | Begin i _ | PushAborted i _ _ | CommitMark i => Some i
  | ReadSender j | RecordSender j _ | ReadReceiver j _ | RecordReceiver j _ _
  | HasLower j _ _ _ | StorageReaders j _ _ _ | WriteEntry j _ _ _
  | CountSuccess j _ | CountFail j | SetExecuted j _ => Some (j_idx j)
  | CommitStore c => Some (pred c)
  | _ => None
  end.

(** Nobody has taken [x] from the queue. *)
Record untouched x st : Prop := {
  ut_status : Sched.statuses (sched (shared st)) !! x = Some Pending;
  ut_position : Sched.committed_idx (sched (shared st)) ≤ x;
  ut_threads : ∀ t pt, threads st !! t = Some pt → mentions pt ≠ Some x;
  ut_queue : WCount.queue_weight (Nat.eqb x) (queue (shared st)) = 1;
}.

(** The executions that have been or will be counted. *)
Definition first_tokens (q : list (nat * nat)) : nat := length (filter (λ p, p.2 = 0) q).

Definition starting pt : nat :=
  match pt with MarkExecuting _ _ | Begin _ _ => 1 | _ => 0 end.

Record started st : Prop := {
  sd_untouched : ∀ x, (x, 0) ∈ queue (shared st) → untouched x st;
  sd_count : n ≤ execution_count (shared st) + first_tokens (queue (shared st)) +
    sum_list (starting <$> threads st);
}.

Lemma step_mentions t pt sh pt' sh' x :
  Sched.statuses (sched sh) !! x = Some Pending →
  thread_step cfg txs t pt sh = Some (pt', sh') → mentions pt ≠ Some x →
  mentions pt' = Some x → WCount.queue_weight (Nat.eqb x) (queue sh) =
    S (WCount.queue_weight (Nat.eqb x) (queue sh')).
Proof.
  intros Hx H Hm. step_cases pt H; try done; intros Hm'; simplify_eq/=; try congruence.
  - rewrite WCount.queue_weight_cons, Nat.eqb_refl. done.
  - exfalso. apply Hm. f_equal. lia.
Qed.

Lemma step_status t pt sh pt' sh' x :
  Sched.statuses (sched sh) !! x = Some Pending →
  thread_step cfg txs t pt sh = Some (pt', sh') → mentions pt ≠ Some x →
  Sched.statuses (sched sh') !! x = Some Pending.
Proof.
  intros Hx H Hm. step_cases pt H; try done.
  all: rewrite list_lookup_insert_ne; [done|]; congruence.
Qed.

Lemma step_queue_weight t pt sh pt' sh' x :
  thread_step cfg txs t pt sh = Some (pt', sh') → mentions pt ≠ Some x →
  WCount.queue_weight (Nat.eqb x) (queue sh') ≤ WCount.queue_weight (Nat.eqb x) (queue sh).
Proof.
  intros H Hm. step_cases pt H; try done. 
  - by match goal with E : Sched.ready_queue _ = _ |- _ => rewrite E end.
  - rewrite WCount.queue_weight_cons. lia.
  - rewrite WCount.queue_weight_snoc. destruct (Nat.eqb_spec x idx); [congruence|]. cbn. lia.
Qed.

Lemma step_first_tokens t pt sh pt' sh' :
  pt_above pt → thread_step cfg txs t pt sh = Some (pt', sh') → pt' ≠ Panicked →
  execution_count sh + first_tokens (queue sh) + starting pt ≤
  execution_count sh' + first_tokens (queue sh') + starting pt'.
Proof.
  intros Ha H Hp. step_cases pt H; try done; try lia.
  - by match goal with E : Sched.ready_queue _ = _ |- _ => rewrite E end.
  - unfold first_tokens. rewrite filter_cons. case_decide; cbn; lia.
  - unfold first_tokens. rewrite filter_app, length_app. lia.
Qed.

Lemma step_queued t pt sh pt' sh' x :
  pt_above pt → thread_step cfg txs t pt sh = Some (pt', sh') → (x, 0) ∈ queue sh' → (x, 0) ∈ queue sh.
Proof.
  intros Ha H. step_cases pt H; try done.
  - by match goal with E : Sched.ready_queue _ = _ |- _ => rewrite E end.
  - by right.
  - intros [?|[= -> <-]%list_elem_of_singleton]%elem_of_app; [done|lia].
Qed.

Lemma queue_weight_pos x inc q : (x, inc) ∈ q → 1 ≤ WCount.queue_weight (Nat.eqb x) q.
Proof.
  intros Hin. destruct (WCount.queue_weight _ q) eqn:E; [|lia].
  rewrite WCount.queue_weight_0 in E. specialize (E _ Hin). cbn in E. by rewrite Nat.eqb_refl in E.
Qed.

Lemma first_tokens_new i k : first_tokens ((λ idx, (idx, 0)) <$> seq i k) = k.
Proof.
  revert i. induction k as [|k IH]; intros i; [done|]. unfold first_tokens in *.
  cbn [seq]. rewrite fmap_cons, filter_cons, decide_True by done. cbn [length]. by rewrite IH.
Qed.

Lemma started_init : started (init cfg txs).
Proof.
  split; cbn [init shared threads sched Sched.new Sched.ready_queue].
  - intros x (y & [= ->] & Hy%elem_of_seq)%list_elem_of_fmap. split.
    + apply lookup_replicate. split; [done|lia].
    + cbn. lia.
    + intros t pt [-> _]%lookup_replicate. done.
    + cbn [init shared sched Sched.new Sched.ready_queue].
      rewrite WCount.queue_weight_init, WCount.count_seq_lt.
      by rewrite (proj2 (Nat.ltb_lt _ _)) by lia.
  - rewrite first_tokens_new. lia.
Qed.

Lemma step_position t pt sh pt' sh' x :
  pt_local cfg txs pt sh → thread_step cfg txs t pt sh = Some (pt', sh') → mentions pt ≠ Some x →
  Sched.committed_idx (sched sh) ≤ x → Sched.committed_idx (sched sh') ≤ x.
Proof.
  intros Hpt H Hm Hx. step_cases pt H; try done. destruct Hpt as [-> _]. cbn in Hm.
  destruct (decide (Sched.committed_idx (sched sh) = x)); [congruence|lia].
Qed.

Lemma started_step st st' :
  Inv cfg txs st → bounded st → started st → step cfg txs st st' → started st'.
Proof.
  intros HI [Ha _] [Hut Hct] Hstep. pose proof (Inv_step _ _ _ _ HI Hstep) as HI'.
  destruct Hstep as [t (pt & pt' & Ht & Hs & Hth)%step_of_inv].
  pose proof (inv_local _ _ _ HI t pt Ht) as Hpt.
  assert (pt' ≠ Panicked) as Hp.
  { intros ->. apply (inv_local _ _ _ HI' t Panicked). rewrite Hth.
    apply list_lookup_insert_eq. by eapply lookup_lt_Some. }
  split.
  - intros x Hin'. assert ((x, 0) ∈ queue (shared st)) as Hin by (by eapply step_queued; eauto).
    destruct (Hut x Hin) as [Hx Hpos Hm Hq]. pose proof (Hm t pt Ht) as Hmt.
    assert (WCount.queue_weight (Nat.eqb x) (queue (shared st')) = 1) as Hq'.
    { pose proof (step_queue_weight _ _ _ _ _ x Hs Hmt).
      pose proof (queue_weight_pos x 0 _ Hin'). lia. }
    split; [by eapply step_status| | |done].
    + by eapply step_position.
    + intros u pu. rewrite Hth. intros [[-> [= <-]]|[_ Hu]]%list_lookup_insert_Some_alt; [|by eapply Hm].
      intros Hm'. pose proof (step_mentions _ _ _ _ _ _ Hx Hs Hmt Hm'). lia.
  - pose proof (step_first_tokens _ _ _ _ _ (Ha _ _ Ht) Hs Hp).
    pose proof (sum_threads_step starting t pt pt' st st' Ht Hth). lia.
Qed.

Lemma started_reachable st : reachable cfg txs st → started st.
Proof.
  apply (reachable_ind_step cfg txs); [apply started_init|].
  intros s1 s2 Hr HD Hs. eapply started_step; [by apply Inv_reachable|by apply bounded_reachable|done..].
Qed.

Lemma finished_executions st :
  reachable cfg txs st → 0 < PE.num_threads cfg → finished st → n ≤ execution_count (shared st).
Proof.
  intros Hr Hk Hf. destruct (started_reachable _ Hr) as [Hut Hct].
  pose proof (WCount.finished_done _ _ _ Hr Hk Hf) as Hc.
  assert (sum_list (starting <$> threads st) = 0) as H0.
  { clear - Hf. unfold finished in Hf. induction Hf as [|pt l -> _ IH]; [done|]. exact IH. }
  assert (first_tokens (queue (shared st)) = 0) as H1; [|lia].
  apply length_zero_iff_nil, elem_of_nil_inv. intros [x inc] [Hz Hin]%list_elem_of_filter.
  cbn in Hz. subst inc. destruct (Hut x Hin) as [Hx Hpos _ _]. apply lookup_lt_Some in Hx.
  destruct (inv_shared _ _ _ (Inv_reachable _ _ _ Hr)) as [[Hlen _ _ _] Hn _]. lia.
Qed.

(** C7: the executions of a block are bounded under every schedule.  Each
    execution can only send back transactions after its own, so however the
    workers are interleaved a block of [n] transactions takes at most [2^n - 1]
    executions, and at least [n] once all workers have left. *)
Theorem total_executions_bounds st :
  reachable cfg txs st →
  (PE.total_executions (block_result st) ≤ 2 ^ Z.of_nat n - 1)%Z ∧
  (0 < PE.num_threads cfg → finished st →
   (Z.of_nat n ≤ PE.total_executions (block_result st))%Z).
Proof.
  intros Hr. split; [|intros Hk Hf; apply Nat2Z.inj_le; by apply finished_executions].
  destruct (bounded_reachable _ Hr) as [_ Hb]. cbn.
  pose proof (Nat2Z.inj_pow 2 n) as Hp. pose proof (Nat.pow_nonzero 2 n). lia.
Qed.

(** The steps of a schedule in which a thread is at work. *)
Fixpoint working_steps st (schedule : list nat) : nat :=
  match schedule with
  | [] => 0
  | t :: rest =>
      match threads st !! t, step_of cfg txs st t with
      | Some pt, Some st' => Nat.b2n (working (shared st) pt) + working_steps st' rest
      | _, _ => 0
      end
  end.

Lemma run_work st schedule st' :
  reachable cfg txs st → run cfg txs st schedule = Some st' →
  working_steps st schedule + work_left st' ≤ work_left st.
Proof.
  revert st. induction schedule as [|t rest IH]; intros st Hr H; simplify_eq/=; [lia|].
  destruct (step_of cfg txs st t) as [st1|] eqn:E; [|done]. cbn in H.
  destruct (threads st !! t) as [pt|] eqn:Ht; [|by unfold step_of in E; rewrite Ht in E].
  pose proof (step_work _ _ _ _ Hr E Ht).
  assert (reachable cfg txs st1) as Hr1 by (eapply rtc_r; [exact Hr|by exists t]).
  specialize (IH _ Hr1 H). lia.
Qed.

Lemma work_left_init : work_left (init cfg txs) = execution_steps * (2 ^ n - 1) + 6 * n.
Proof.
  unfold work_left, queue_work. cbn [init shared threads sched Sched.new Sched.ready_queue Sched.committed_idx].
  rewrite sum_threads_init by (unfold thread_work; cbn; lia).
  pose proof executions_left_init as He. unfold executions_left in He.
  cbn [init shared threads sched Sched.new Sched.ready_queue] in He.
  rewrite sum_threads_init, Nat.add_0_r in He by done. rewrite He, length_fmap, length_seq. lia.
Qed.

(** C8: the workers do a bounded amount of work.  In every schedule all but
    [execution_steps * (2^n - 1) + 6 n] steps are idle polling in [next_task] or
    leave the loop: the loops over re-queued transactions, over invalidated
    readers and over the commit position all come to an end. *)
Theorem workers_work_bounded schedule st :
  run cfg txs (init cfg txs) schedule = Some st →
  working_steps (init cfg txs) schedule ≤ execution_steps * (2 ^ n - 1) + 6 * n.
Proof.
  intros H. pose proof (run_work _ _ _ (rtc_refl _ _) H) as Hw.
  rewrite work_left_init in Hw. lia.
Qed.
End Termination.

(** ** Witnesses *)

(** Transaction 1 runs first, transaction 0 sends it back. *)
Definition schedule_most : list nat :=
  Scenarios.steps 4 0 ++ Scenarios.steps 24 1 ++ Scenarios.steps 50 0 ++ Scenarios.steps 3 1.

(** The bound is reached: three executions of two transactions. *)
Lemma total_executions_bounds_witness :
  PE.total_executions (block_result
    (Scenarios.after (Scenarios.config 2) Scenarios.block_credit schedule_most)) = 3%Z.
Proof.
  apply Z.le_antisymm.
  - apply (total_executions_bounds (Scenarios.config 2) Scenarios.block_credit).
    apply Scenarios.after_reachable. by_compute.
  - apply Z.leb_le. by_compute.
Defined.

Lemma workers_work_bounded_witness :
  working_steps (Scenarios.config 3) Scenarios.block_inversion
    (init (Scenarios.config 3) Scenarios.block_inversion) Scenarios.schedule_inversion ≤ 256.
Proof.
  change 256 with ((19 + 5 * 3) * (2 ^ 3 - 1) + 6 * 3).
  apply (workers_work_bounded (Scenarios.config 3) Scenarios.block_inversion
    Scenarios.schedule_inversion
    (Scenarios.after (Scenarios.config 3) Scenarios.block_inversion Scenarios.schedule_inversion)).
  apply Scenarios.runs_run. by_compute.
Defined.
End Termination.
