(* ===== verification/RunEnds.v ===== *)
(** * How a run of the workers can end

    From every reachable state some continuation comes to one of three ends, and
    each of them is final: every worker has left its loop, two workers hold each
    other's lock ([WSafety.lock_inversion]), or nobody holds the commit of
    finished work and all poll for ever ([Scenarios.idle]).  The proof drives the
    workers that can work until the bound of [Termination] is used up. *)

From stdpp Require Import base option list gmap relations.
From Stdlib Require Import ZArith Lia Wf_nat.
From S2P Require Import Prelude Integers Externals Types MVHashMap Scheduler ParallelExecutor.
From S2P Require Import Workers WorkersInv WorkersCount WorkersSafety SoloWorker Scenarios Termination.

Module Ends.
Import Workers WInv WSafety Termination.

Section Ends.
Context {A : Alloy} {D : DashMapImpl Address} {DL : DashMapLaws D}.
Context (cfg : PE.ExecutorConfig) (txs : list PE.Transaction).
Implicit Types (sh : Shared) (pt : Point) (st : State) (t u x : nat).

Abbreviation n := (length txs).
Abbreviation queue sh := (Sched.ready_queue (sched sh)).
Abbreviation steps := (rtc (step cfg txs)).
Abbreviation work_left := (work_left txs).
Abbreviation steps_to t := (rtc (Solo.local_step cfg txs t)).
Abbreviation idle := Scenarios.idle.
#[local] Arguments Termination.work_left : simpl never.

Lemma reachable_steps st st' : reachable cfg txs st → steps st st' → reachable cfg txs st'.
Proof. unfold reachable. intros Hr Hs. by etransitivity. Qed.

Lemma steps_work st st' : reachable cfg txs st → steps st st' → work_left st' ≤ work_left st.
Proof.
  intros Hr Hs. induction Hs as [st|st st1 st' Hs _ IH]; [done|].
  assert (reachable cfg txs st1) as Hr1 by (by eapply rtc_r).
  etransitivity; [by apply IH|]. destruct Hs as [t Hs].
  pose proof Hs as (pt & _ & Ht & _)%step_of_inv. pose proof (step_work _ _ _ _ _ _ Hr Hs Ht). lia.
Qed.

(** ** Work, the inversion, or nothing to do *)

(** No thread is at work. *)
Definition quiet st : Prop := ∀ t pt, threads st !! t = Some pt → working (shared st) pt = false.

Definition can_work st t : bool :=
  match threads st !! t, step_of cfg txs st t with
  | Some pt, Some _ => working (shared st) pt
  | _, _ => false
  end.

Lemma can_work_step st t :
  reachable cfg txs st → can_work st t = true → ∃ st', step cfg txs st st' ∧ work_left st' < work_left st.
Proof.
  unfold can_work. intros Hr H. destruct (threads st !! t) as [pt|] eqn:Ht; [|done].
  destruct (step_of cfg txs st t) as [st'|] eqn:E; [|done]. exists st'. split; [by exists t|].
  pose proof (step_work _ _ _ _ _ _ Hr E Ht) as Hw. rewrite H in Hw. cbn [Nat.b2n] in Hw. lia.
Qed.

Lemma holder_works sh pt : lock_holder pt = true → working sh pt = true.
Proof. by destruct pt. Qed.

Lemma work_or_quiet st :
  reachable cfg txs st →
  (∃ st', step cfg txs st st' ∧ work_left st' < work_left st) ∨
  (∃ t u x, lock_inversion st t u x) ∨ quiet st.
Proof.
  intros Hr. destruct (decide (Exists (λ t, can_work st t = true) (seq 0 (length (threads st))))) as [He|Hn].
  { apply Exists_exists in He as (t & _ & Ht). left. by eapply can_work_step. }
  right. assert (∀ t pt, threads st !! t = Some pt → working (shared st) pt = true →
    step_of cfg txs st t = None) as Hb.
  { intros t pt Ht Hw. destruct (step_of cfg txs st t) eqn:E; [|done]. destruct Hn.
    apply Exists_exists. exists t. split; [apply elem_of_seq; apply lookup_lt_Some in Ht; lia|].
    unfold can_work. by rewrite Ht, E. }
  destruct (decide (Exists (λ pt, working (shared st) pt = true) (threads st))) as [He|Hq].
  - left. apply Exists_exists in He as (pt & [t Ht]%list_elem_of_lookup & Hw).
    destruct (blocked_thread cfg txs st t pt) as [->|H]; [by apply Inv_reachable| |by eauto|done..].
    intros u pu Hu Hl. eapply Hb; [done|by apply holder_works].
  - right. intros t pt Ht. apply not_true_is_false. intros Hw. destruct Hq.
    apply Exists_exists. exists pt. split; [by eapply list_elem_of_lookup_2|done].
Qed.

Lemma quiet_unlocked st : reachable cfg txs st → quiet st → queue_lock (shared st) = None.
Proof.
  intros Hr Hq. destruct (queue_lock (shared st)) as [t|] eqn:E; [|done].
  destruct (queue_owner cfg txs st t) as (x & inc & Ht); [by apply Inv_reachable|done|].
  by apply Hq in Ht.
Qed.

(** ** Leaving the loop *)

Lemma set_done_id sh : Sched.done (sched sh) = true → set_sched (Sched.set_done true (sched sh)) sh = sh.
Proof. intros H. destruct sh as [[? ? ? ? ? d ?]]. cbn in *. by subst. Qed.

(** The steps of a thread that polls when the block is committed. *)
Lemma leave_steps t pt sh :
  working sh pt = false → pt ≠ Panicked → queue_lock sh = None →
  Sched.num_txns (sched sh) ≤ Sched.committed_idx (sched sh) →
  (Sched.done (sched sh) = true ∨ (pt ≠ LoadDone ∧ pt ≠ Exited) ∨ (pt = LoadDone ∧ queue sh = [])) →
  steps_to t (pt, sh) (Exited, set_sched (Sched.set_done true (sched sh)) sh).
Proof.
  intros Hw Hp Hl Hc Hd.
  assert (steps_to t (LoadCommitted, sh)
    (Exited, set_sched (Sched.set_done true (sched sh)) sh)) as Hload.
  { eapply rtc_l; [unfold Solo.local_step; cbn; rewrite (proj2 (Nat.leb_le _ _)) by done; reflexivity|].
    by apply rtc_once. }
  assert (queue sh = [] → steps_to t (PopQueue, sh)
    (Exited, set_sched (Sched.set_done true (sched sh)) sh)) as Hpop.
  { intros Hq. eapply rtc_l; [unfold Solo.local_step; cbn; rewrite Hl, Hq; reflexivity|done]. }
  destruct pt; try discriminate Hw; try done.
  - destruct (Sched.done (sched sh)) eqn:E.
    + rewrite set_done_id by done. apply rtc_once. unfold Solo.local_step; cbn. by rewrite E.
    + destruct Hd as [?|[[? _]|[_ Hq]]]; [done..|].
      eapply rtc_l; [unfold Solo.local_step; cbn; rewrite E; reflexivity|by apply Hpop].
  - apply Hpop. cbn in Hw. by destruct (Sched.ready_queue (sched sh)).
  - by apply rtc_once.
  - destruct Hd as [Hd|[[_ ?]|[? _]]]; [|done..]. by rewrite set_done_id.
Qed.

(** Once [done] is set, quiet workers leave one after the other. *)
Lemma all_leave sh ths ths' :
  (∀ pt, pt ∈ ths → working sh pt = false ∧ pt ≠ Panicked) → queue_lock sh = None →
  Sched.num_txns (sched sh) ≤ Sched.committed_idx (sched sh) → Sched.done (sched sh) = true →
  steps (mkState sh (ths' ++ ths)) (mkState sh (ths' ++ replicate (length ths) Exited)).
Proof.
  revert ths'. induction ths as [|pt ths IH]; intros ths' Hq Hl Hc Hd; [done|].
  destruct (Hq pt) as [Hw Hp]; [by left|].
  pose proof (leave_steps (length ths') pt sh Hw Hp Hl Hc (or_introl Hd)) as Hs.
  rewrite set_done_id in Hs by done.
  apply (Solo.steps_to_rtc cfg txs _ _ _ _ _ (ths' ++ pt :: ths)) in Hs;
    [|by rewrite lookup_app_r, Nat.sub_diag by done].
  etransitivity; [exact Hs|].
  rewrite insert_app_r_alt, Nat.sub_diag by done. cbn.
  specialize (IH (ths' ++ [Exited])). rewrite <- !app_assoc in IH. cbn in IH.
  apply IH; [|done..]. intros pt' Hin. apply Hq. by right.
Qed.

Lemma quiet_done st :
  reachable cfg txs st → quiet st → Sched.done (sched (shared st)) = true →
  ∃ st', steps st st' ∧ finished st'.
Proof.
  intros Hr Hq Hd. pose proof (Inv_reachable _ _ _ Hr) as HI.
  pose proof (Sched.wf_done _ (sh_sched _ _ _ (inv_shared _ _ _ HI)) Hd) as Hc.
  destruct st as [sh ths]. exists (mkState sh (replicate (length ths) Exited)). split.
  - apply (all_leave sh ths []); [|by apply (quiet_unlocked (mkState sh ths))|done..].
    intros pt [t Ht]%list_elem_of_lookup. split; [by apply (Hq t)|].
    intros ->. apply (inv_local _ _ _ HI t Panicked Ht).
  - apply Forall_replicate. done.
Qed.

(** A worker that reaches the queue takes a transaction from it. *)
Lemma pop_work st t pt :
  reachable cfg txs st → threads st !! t = Some pt → queue_lock (shared st) = None →
  queue (shared st) ≠ [] → steps_to t (pt, shared st) (PopQueue, shared st) →
  ∃ st', steps st st' ∧ work_left st' < work_left st.
Proof.
  intros Hr Ht Hl Hq Hs. destruct st as [sh ths]. cbn in *.
  apply (Solo.steps_to_rtc cfg txs _ _ _ _ _ ths) in Hs; [|done].
  pose proof (reachable_steps _ _ Hr Hs) as Hr'. pose proof (steps_work _ _ Hr Hs).
  destruct (can_work_step (mkState sh (<[t := PopQueue]> ths)) t Hr') as (st' & Hst' & Hw).
  - unfold can_work, step_of. cbn. rewrite list_lookup_insert_eq by by eapply lookup_lt_Some.
    cbn. rewrite Hl. by destruct (Sched.ready_queue (sched sh)) as [|[x inc] q].
  - exists st'. split; [by eapply rtc_r|lia].
Qed.

(** The first worker of a quiet state in which [done] is not set. *)
Lemma quiet_first st pt :
  reachable cfg txs st → quiet st → Sched.done (sched (shared st)) = false →
  threads st !! 0 = Some pt →
  (∃ st', steps st st' ∧ (work_left st' < work_left st ∨
     (quiet st' ∧ Sched.done (sched (shared st')) = true))) ∨
  (queue (shared st) = [] ∧
   Sched.committed_idx (sched (shared st)) < Sched.num_txns (sched (shared st))).
Proof.
  intros Hr Hq Hd Ht. pose proof (Inv_reachable _ _ _ Hr) as HI.
  pose proof (quiet_unlocked _ Hr Hq) as Hl. pose proof (Hq 0 pt Ht) as Hw.
  pose proof (inv_local _ _ _ HI 0 pt Ht) as Hpt.
  assert (pt ≠ Panicked) as Hp by (by intros ->).
  assert (pt ≠ Exited) as He by (intros ->; cbn in Hpt; congruence).
  destruct (decide (Sched.num_txns (sched (shared st)) ≤ Sched.committed_idx (sched (shared st))))
    as [Hc|Hc].
  - left. assert ((pt = LoadDone ∧ queue (shared st) ≠ []) ∨ pt ≠ LoadDone ∨ queue (shared st) = [])
      as [[-> Hne]|Hne] by (destruct pt; destruct (queue (shared st)); auto).
    + destruct (pop_work st 0 LoadDone) as (st' & Hs & Hlt); [done..| |by eauto].
      apply rtc_once. unfold Solo.local_step; cbn. by rewrite Hd.
    + pose proof (leave_steps 0 pt (shared st) Hw Hp Hl Hc) as Hs.
      destruct st as [sh ths]; cbn in *.
      apply (Solo.steps_to_rtc cfg txs _ _ _ _ _ ths) in Hs; [| |done].
      * eexists; split; [exact Hs|]. right. split; [|done].
        intros u pu [[-> [= ->]]|[_ Hu]]%list_lookup_insert_Some_alt; [done|]. by apply (Hq u).
      * right. destruct Hne as [Hne| ->]; [by left|]. destruct pt; auto.
  - destruct (queue (shared st)) eqn:E; [right; split; [done|lia]|]. left.
    destruct (pop_work st 0 pt) as (st' & Hs & Hlt); [done..|by rewrite E| |by eauto].
    destruct pt; try discriminate Hw; try done.
    + apply rtc_once. unfold Solo.local_step; cbn. by rewrite Hd.
    + eapply rtc_l; [unfold Solo.local_step; cbn; rewrite (proj2 (Nat.leb_gt _ _)) by lia; reflexivity|].
      apply rtc_once. unfold Solo.local_step; cbn. by rewrite Hd.
    + cbn in Hpt. pose proof (sh_num _ _ _ (inv_shared _ _ _ HI)). lia.
Qed.

Lemma quiet_ends st :
  reachable cfg txs st → quiet st →
  ∃ st', steps st st' ∧ (work_left st' < work_left st ∨ finished st' ∨ idle st').
Proof.
  intros Hr Hq. destruct (Sched.done (sched (shared st))) eqn:Hd.
  { destruct (quiet_done _ Hr Hq Hd) as (st' & ? & ?). eauto. }
  destruct (threads st) as [|pt ths] eqn:Hth.
  { exists st. split; [done|]. right. left. unfold finished. by rewrite Hth. }
  assert (threads st !! 0 = Some pt) as Ht by by rewrite Hth.
  destruct (quiet_first _ _ Hr Hq Hd Ht) as [(st' & Hs & [Hlt|[Hq' Hd']])|[He Hc]]; [by eauto| |].
  - destruct (quiet_done _ (reachable_steps _ _ Hr Hs) Hq' Hd') as (st'' & Hs' & Hf).
    exists st''. split; [by etransitivity|auto].
  - exists st. split; [done|]. right. right. split; [done|by apply quiet_unlocked|done..| |].
    + apply Forall_lookup. intros u pu Hu.
      pose proof (inv_local _ _ _ (Inv_reachable _ _ _ Hr) u pu Hu) as Hpu.
      pose proof (sh_num _ _ _ (inv_shared _ _ _ (Inv_reachable _ _ _ Hr))).
      specialize (Hq u pu Hu). destruct pu; try done; cbn in Hpu; [lia|congruence].
    + rewrite Hth. cbn. lia.
Qed.

(** ** The inversion is final *)

Lemma inversion_step st st' t u x :
  reachable cfg txs st → lock_inversion st t u x → step cfg txs st st' → lock_inversion st' t u x.
Proof.
  intros Hr ((inc & Ht) & (inc' & rest & Hu) & Hq & Hx) [v (pt & pt' & Hv & Hs & Hth)%step_of_inv].
  pose proof (Inv_reachable _ _ _ Hr) as HI.
  pose proof (step_frame _ _ _ _ _ _ _ (inv_local _ _ _ HI v pt Hv) (inv_locks _ _ _ HI v pt Hv) Hs)
    as Hfr.
  assert (v ≠ t) as Hvt. { intros ->. simplify_eq. cbn in Hs. by rewrite Hx in Hs. }
  assert (v ≠ u) as Hvu. { intros ->. simplify_eq. cbn in Hs. by rewrite Hq in Hs. }
  unfold lock_inversion. rewrite Hth, !list_lookup_insert_ne by done.
  rewrite (fr_queue _ _ _ Hfr), (fr_status _ _ _ Hfr) by done. eauto 10.
Qed.

Lemma inversion_forever st st' t u x :
  reachable cfg txs st → lock_inversion st t u x → steps st st' → lock_inversion st' t u x.
Proof.
  intros Hr Hi Hs. induction Hs as [|st st1 st' Hs _ IH]; [done|].
  apply IH; [by eapply rtc_r|by eapply inversion_step].
Qed.

Lemma inversion_not_finished st t u x : lock_inversion st t u x → ¬ finished st.
Proof.
  intros ((inc & Ht) & _) Hf. unfold finished in Hf. rewrite Forall_lookup in Hf.
  by specialize (Hf _ _ Ht).
Qed.

(** ** The three ends *)

Lemma some_end st :
  reachable cfg txs st →
  ∃ st', steps st st' ∧ (finished st' ∨ (∃ t u x, lock_inversion st' t u x) ∨ idle st').
Proof.
  remember (work_left st) as k eqn:Hk. revert st Hk.
  induction (lt_wf k) as [k _ IH]. intros st -> Hr.
  assert (∀ st1, steps st st1 → work_left st1 < work_left st →
    ∃ st', steps st st' ∧ (finished st' ∨ (∃ t u x, lock_inversion st' t u x) ∨ idle st')) as Hgo.
  { intros st1 Hs Hlt. destruct (IH _ Hlt st1 eq_refl) as (st' & Hs' & He);
      [by eapply reachable_steps|]. exists st'. split; [by etransitivity|done]. }
  destruct (work_or_quiet st Hr) as [(st1 & Hs & Hlt)|[Hi|Hq]].
  - apply (Hgo st1); [by apply rtc_once|done].
  - exists st. split; [done|auto].
  - destruct (quiet_ends st Hr Hq) as (st1 & Hs & [Hlt|[Hf|Hi]]); [by apply (Hgo st1)|eauto..].
Qed.

(** C2: every run can be brought to one of three ends.  From every reachable
    state there is a continuation to a state in which either every worker has
    left its loop, or two workers are in the lock-order inversion between
    [next_task] and [abort_transaction] and stay in it in every continuation, or
    a commit was lost: the queue is empty, executed transactions are not
    committed, and in every continuation all workers poll and none leaves. *)
Theorem run_ends st :
  reachable cfg txs st →
  ∃ st', steps st st' ∧
    (finished st' ∨
     (∃ t u x, ∀ st'', steps st' st'' → lock_inversion st'' t u x ∧ ¬ finished st'') ∨
     (∀ st'', steps st' st'' → idle st'' ∧ ¬ finished st'')).
Proof.
  intros Hr. destruct (some_end st Hr) as (st' & Hs & He). exists st'. split; [done|].
  pose proof (reachable_steps _ _ Hr Hs) as Hr'. destruct He as [Hf|[(t & u & x & Hi)|Hi]]; [by left| |].
  - right. left. exists t, u, x. intros st'' Hs''.
    assert (lock_inversion st'' t u x) by (by eapply inversion_forever).
    split; [done|by eapply inversion_not_finished].
  - right. right. intros st'' Hs''.
    split; [by eapply Scenarios.idle_steps|by eapply Scenarios.idle_forever].
Qed.
End Ends.

(** ** Witness *)

Lemma run_ends_witness :
  let steps := rtc (step (Scenarios.config 2) Scenarios.block_credit) in
  ∃ st', steps (init (Scenarios.config 2) Scenarios.block_credit) st' ∧
    (finished st' ∨ ∀ st'', steps st' st'' → ¬ finished st'').
Proof.
  destruct (run_ends (Scenarios.config 2) Scenarios.block_credit
    (init (Scenarios.config 2) Scenarios.block_credit)) as (st' & Hs & He).
  - apply rtc_refl.
  - exists st'. split; [done|]. destruct He as [Hf|[(t & u & x & Hi)|Hi]]; [by left|right..];
      intros st'' Hs''; by apply Hi.
Defined.
End Ends.
