(* ===== verification/Workload.v ===== *)
(** * src/lib.rs: accounts, signed transactions and workloads

    [Workload::generate] with its generator passed as a state and its rejection
    loop on fuel; a panic is an [outcome]. *)

From stdpp Require Import base option list gmap.
From Stdlib Require Import ZArith Lia Strings.Byte.
From S2P Require Import Prelude Integers Externals.

Module Wl.
Section Wl.
Context {A : Alloy} {K : Keys A} {R : Rand}.

Record Account : Set := mkAccount { signing_key : SigningKey; acc_address : Address }.

Definition public_key_to_address (verifying_key : VerifyingKey) : outcome Address :=
  let public_key_bytes := to_encoded_point verifying_key in
  let hash := keccak256 (drop 1 public_key_bytes) in
  expect (address_from_slice (drop 12 (b256_as_slice hash))).

Definition from_signing_key (signing_key : SigningKey) : outcome Account :=
  let verifying_key := verifying_key_from signing_key in
  address ← public_key_to_address verifying_key;
  Return (mkAccount signing_key address).

Definition from_seed (seed : Z) : outcome Account :=
  let rng := seed_from_u64 seed in
  let '(key_bytes, _) := fill_32 rng in
  signing_key ← expect (signing_key_from_bytes key_bytes);
  from_signing_key signing_key.

Record SignedTransaction : Set := mkSigned {
  from : Address;
  to : Address;
  value : U256;
  tx_nonce : Z;
  signature : Signature;
  tx_hash : B256;
}.

(** The bytes that are hashed. *)
Definition tx_data (from to : Address) (value : U256) (nonce chain_id : Z) : list byte :=
  address_as_slice from ++ address_as_slice to ++ u256_to_be_bytes value ++
  u64_to_be_bytes nonce ++ u64_to_be_bytes chain_id.

Definition compute_tx_hash (from to : Address) (value : U256) (nonce chain_id : Z) : B256 :=
  keccak256 (tx_data from to value nonce chain_id).

Definition sign (signing_key : SigningKey) (tx_hash : B256) : outcome Signature :=
  '(sig, recovery_id) ← expect (sign_prehash_recoverable signing_key (b256_as_slice tx_hash));
  Return (from_signature_and_parity sig (is_y_odd recovery_id)).

Definition SignedTransaction_new (account : Account) (to : Address) (value : U256)
    (nonce chain_id : Z) : outcome SignedTransaction :=
  let tx_hash := compute_tx_hash (acc_address account) to value nonce chain_id in
  signature ← sign (signing_key account) tx_hash;
  Return (mkSigned (acc_address account) to value nonce signature tx_hash).

Definition recover_signer (self : SignedTransaction) : option Address :=
  recover_address_from_prehash (signature self) (tx_hash self).

Definition verify (self : SignedTransaction) : bool :=
  default false ((λ addr, bool_decide (addr = from self)) <$> recover_signer self).

(** The transactions of a sender among [txs]. *)
Definition sent_from (x : Address) (txs : list SignedTransaction) : nat :=
  length (filter (λ tx, from tx = x) txs).

Definition received_by (x : Address) (txs : list SignedTransaction) : nat :=
  length (filter (λ tx, to tx = x) txs).

Lemma sent_from_cons x tx txs :
  sent_from x (tx :: txs) = (if decide (from tx = x) then 1 else 0) + sent_from x txs.
Proof. unfold sent_from. rewrite filter_cons. by case_decide. Qed.

Lemma received_by_cons x tx txs :
  received_by x (tx :: txs) = (if decide (to tx = x) then 1 else 0) + received_by x txs.
Proof. unfold received_by. rewrite filter_cons. by case_decide. Qed.

Record WorkloadConfig : Set := mkWorkloadConfig {
  num_accounts : nat;
  num_transactions : nat;
  hot_accounts : nat;
  seed : Z;
  chain_id : Z;
  cfg_transactions_per_block : nat;
}.

Definition WorkloadConfig_default : WorkloadConfig :=
  mkWorkloadConfig (50 * 1000) 1250 (50 * 1000) 42 1 625.

Record Workload : Set := mkWorkload {
  accounts : list Account;
  transactions : list SignedTransaction;
  blocks : list (list SignedTransaction);
  config : WorkloadConfig;
}.

(** [usize::clamp], which panics when the bounds are the wrong way round. *)
Definition clamp (x min max : nat) : outcome nat :=
  if max <? min then Panic
  else Return (if x <? min then min else if max <? x then max else x).

(** The [while to_idx == from_idx] loop. *)
Fixpoint redraw (fuel : nat) (hot_account_count from_idx to_idx : nat) (rng : StdRng)
    : outcome (nat * StdRng) :=
  if to_idx =? from_idx then
    match fuel with
    | O => Timeout
    | S fuel =>
        let '(to_idx, rng) := gen_range rng hot_account_count in
        redraw fuel hot_account_count from_idx to_idx rng
    end
  else Return (to_idx, rng).

(** The two indices of one transaction. *)
Definition draw_pair (fuel hot_account_count : nat) (rng : StdRng) : outcome (nat * nat * StdRng) :=
  let '(from_idx, rng) := gen_range rng hot_account_count in
  let '(to_idx, rng) := gen_range rng hot_account_count in
  '(to_idx, rng) ← redraw fuel hot_account_count from_idx to_idx rng;
  Return (from_idx, to_idx, rng).

(** The closure of [generate]: one signed transaction and the updated nonces. *)
Definition generate_transaction (fuel : nat) (config : WorkloadConfig) (accounts : list Account)
    (hot_account_count : nat) (nonces : gmap nat Z) (rng : StdRng)
    : outcome (SignedTransaction * gmap nat Z * StdRng) :=
  '(from_idx, to_idx, rng) ← draw_pair fuel hot_account_count rng;
  let nonce := default 0%Z (nonces !! from_idx) in
  sender ← expect (accounts !! from_idx);
  receiver ← expect (accounts !! to_idx);
  tx ← SignedTransaction_new sender (acc_address receiver) (u256_from 1) nonce (chain_id config);
  Return (tx, <[from_idx := u64_add nonce 1]> nonces, rng).

Fixpoint generate_transactions (fuel n : nat) (config : WorkloadConfig) (accounts : list Account)
    (hot_account_count : nat) (nonces : gmap nat Z) (rng : StdRng)
    : outcome (list SignedTransaction) :=
  match n with
  | O => Return []
  | S n =>
      '(tx, nonces, rng) ← generate_transaction fuel config accounts hot_account_count nonces rng;
      txs ← generate_transactions fuel n config accounts hot_account_count nonces rng;
      Return (tx :: txs)
  end.

(** [fuel] bounds the redraws of one transaction. *)
Definition generate (fuel : nat) (config : WorkloadConfig) : outcome Workload :=
  let rng := seed_from_u64 (seed config) in
  accounts ← try_map (λ i, from_seed (u64_add (seed config) (Z.of_nat i)))
               (seq 0 (num_accounts config));
  hot_account_count ← clamp (hot_accounts config) 2 (num_accounts config);
  transactions ← generate_transactions fuel (num_transactions config) config accounts
                   hot_account_count ∅ rng;
  blocks ← chunks (cfg_transactions_per_block config) transactions;
  Return (mkWorkload accounts transactions blocks config).

(** The addresses of the accounts, in order. *)
Definition addresses (self : Workload) : list Address := acc_address <$> accounts self.

Definition num_blocks (self : Workload) : nat := length (blocks self).

Definition transactions_per_block (self : Workload) : nat :=
  cfg_transactions_per_block (config self).

(** [1_000_000_000_000_000_000_000], the initial balance of every account. *)
Definition initial_balance : U256 := u256_from (10 ^ 21).

(** The account [create_db] inserts. *)
Definition initial_info {C : CacheDBLib A} : AccountInfo :=
  mkAccountInfo initial_balance 0 KECCAK_EMPTY None.

Definition create_db {C : CacheDBLib A} (self : Workload) : CacheDB :=
  foldl (λ db account, insert_account_info (acc_address account) initial_info db)
    cachedb_new (accounts self).
End Wl.
End Wl.
