(* ===== verification/WorkloadSpec.v ===== *)
(** * What a generated workload guarantees

    The executors rely on it: every transaction carries a valid signature of its
    sender, moves one wei between two different accounts, and has the next nonce
    of its sender; the blocks partition the transactions; generation returns
    whenever there are two accounts and a block size. *)

From stdpp Require Import base option list gmap.
From Stdlib Require Import ZArith Lia Strings.Byte.
From S2P Require Import Prelude Integers Externals Workload.

Module WlSpec.
Import Wl.

Section Spec.
Context {A : Alloy} {AL : AlloyLaws A} {K : Keys A} {KL : KeysLaws A K} {R : Rand} {RL : RandLaws R}.
Implicit Types (a : Account) (tx : SignedTransaction) (rng : StdRng) (f t i n hot : nat).

(** ** Accounts and signatures *)

(** The account's address is its key's. *)
Definition account_ok a : Prop :=
  public_key_to_address (verifying_key_from (signing_key a)) = Return (acc_address a).

Lemma public_key_to_address_returns k : ∃ x, public_key_to_address k = Return x.
Proof.
  unfold public_key_to_address.
  destruct (proj2 (address_from_slice_ok (drop 12 (b256_as_slice (keccak256 (drop 1 (to_encoded_point k))))))) as [x Hx].
  - by rewrite length_drop, b256_slice_length.
  - rewrite Hx. cbn. eauto.
Qed.

Lemma from_signing_key_ok k a : from_signing_key k = Return a → account_ok a.
Proof.
  unfold from_signing_key. intros (x & Hx & [= <-])%outcome_bind_Return. exact Hx.
Qed.

Lemma from_seed_ok s a : from_seed s = Return a → account_ok a.
Proof.
  unfold from_seed. destruct (fill_32 _) as [bytes rng].
  intros (k & _ & Ha)%outcome_bind_Return. by apply from_signing_key_ok in Ha.
Qed.

Lemma sign_returns k h : ∃ s, sign k h = Return s.
Proof. unfold sign. destruct (sign_prehash_ok k h) as [[s r] ->]. cbn. eauto. Qed.

Lemma SignedTransaction_new_spec a to value nonce chain :
  account_ok a →
  ∃ tx, SignedTransaction_new a to value nonce chain = Return tx ∧
    from tx = acc_address a ∧ Wl.to tx = to ∧ Wl.value tx = value ∧ tx_nonce tx = nonce ∧
    tx_hash tx = compute_tx_hash (acc_address a) to value nonce chain ∧ verify tx = true.
Proof.
  intros Hok. unfold SignedTransaction_new, sign.
  set (h := compute_tx_hash _ _ _ _ _).
  destruct (sign_prehash_ok (signing_key a) h) as [[s r] Hs]. rewrite Hs. cbn.
  eexists; split; [done|]. cbn. split_and!; [done..|].
  unfold verify, recover_signer. cbn. rewrite (recover_signed _ _ _ _ Hs).
  unfold account_ok, public_key_to_address in Hok.
  destruct (address_from_slice _) as [x|]; [|done]. cbn in *. simplify_eq.
  by rewrite bool_decide_true.
Qed.

(** The signed bytes determine the transaction: two transfers with the same
    preimage have the same sender, receiver, value, nonce and chain id, so a
    signature cannot be moved to another transfer, position or chain. *)
Theorem tx_data_injective (from1 from2 to1 to2 : Address) (v1 v2 : U256) (n1 n2 c1 c2 : Z) :
  in_u64 n1 → in_u64 n2 → in_u64 c1 → in_u64 c2 →
  tx_data from1 to1 v1 n1 c1 = tx_data from2 to2 v2 n2 c2 →
  from1 = from2 ∧ to1 = to2 ∧ v1 = v2 ∧ n1 = n2 ∧ c1 = c2.
Proof.
  intros Hn1 Hn2 Hc1 Hc2. unfold tx_data, u64_to_be_bytes. intros H.
  apply app_inj_1 in H as [Hf H]; [|by rewrite !address_slice_length].
  apply app_inj_1 in H as [Ht H]; [|by rewrite !address_slice_length].
  apply app_inj_1 in H as [Hv H]; [|by rewrite !u256_be_length].
  apply app_inj_1 in H as [Hn Hc]; [|by rewrite !length_be_bytes].
  split_and!.
  - by apply address_slice_inj.
  - by apply address_slice_inj.
  - rewrite <- (u256_be_roundtrip v1), Hv. apply u256_be_roundtrip.
  - by apply (be_bytes_inj 8).
  - by apply (be_bytes_inj 8).
Qed.

(** ** Drawing two accounts *)

Lemma redraw_spec fuel hot f t rng t' rng' :
  redraw fuel hot f t rng = Return (t', rng') → t < hot → t' ≠ f ∧ t' < hot.
Proof.
  revert t rng. induction fuel as [|fuel IH]; intros t rng; cbn;
    destruct (Nat.eqb_spec t f); try (by intros [= <- <-]).
  destruct (gen_range rng hot) as [u rng1] eqn:E. intros H Ht.
  apply (IH _ _ H). pose proof (gen_range_lt rng hot). rewrite E in *. cbn in *. lia.
Qed.

Lemma draw_pair_spec fuel hot rng f t rng' :
  0 < hot → draw_pair fuel hot rng = Return (f, t, rng') → f ≠ t ∧ f < hot ∧ t < hot.
Proof.
  intros Hhot. unfold draw_pair.
  pose proof (gen_range_lt rng hot Hhot) as Hf.
  destruct (gen_range rng hot) as [f0 rng1]. cbn in Hf.
  pose proof (gen_range_lt rng1 hot Hhot) as Ht.
  destruct (gen_range rng1 hot) as [t0 rng2]. cbn in Ht.
  intros ([t1 rng3] & Hr & [= <- <- <-])%outcome_bind_Return.
  destruct (redraw_spec _ _ _ _ _ _ _ Hr Ht). done.
Qed.

Lemma redraw_returns hot f t rng k :
  t = f → nth_draw k rng hot ≠ f →
  ∀ fuel, S k ≤ fuel → ∃ r, redraw fuel hot f t rng = Return r.
Proof.
  intros ->. revert rng. induction k as [|k IH]; intros rng Hk [|fuel] Hf; try lia; cbn in *;
    rewrite Nat.eqb_refl; destruct (gen_range rng hot) as [t1 rng1]; cbn in Hk.
  - exists (t1, rng1). destruct fuel; cbn; by rewrite (proj2 (Nat.eqb_neq _ _) Hk).
  - destruct (decide (t1 = f)) as [->|Hne].
    + apply IH; [done|lia].
    + exists (t1, rng1). destruct fuel; cbn; by rewrite (proj2 (Nat.eqb_neq _ _) Hne).
Qed.

(** More fuel does not change a result. *)
Lemma redraw_more fuel fuel' hot f t rng r :
  redraw fuel hot f t rng = Return r → fuel ≤ fuel' → redraw fuel' hot f t rng = Return r.
Proof.
  revert fuel' t rng. induction fuel as [|fuel IH]; intros fuel' t rng.
  - cbn. destruct (t =? f) eqn:E; [done|]. intros [= <-] _. destruct fuel'; cbn; by rewrite E.
  - destruct fuel' as [|fuel']; [lia|]. cbn. destruct (t =? f); [|done].
    destruct (gen_range rng hot). intros. apply IH; [done|lia].
Qed.

Lemma draw_pair_returns hot rng :
  2 ≤ hot → ∃ fuel r, ∀ fuel', fuel ≤ fuel' → draw_pair fuel' hot rng = Return r.
Proof.
  intros Hhot. unfold draw_pair.
  destruct (gen_range rng hot) as [f rng1]. destruct (gen_range rng1 hot) as [t rng2].
  assert (∃ fuel r, redraw fuel hot f t rng2 = Return r) as (fuel & [t' rng'] & Hr).
  { destruct (decide (t = f)) as [Ht|Ht].
    - destruct (draws_vary rng2 hot f Hhot) as [k Hk]. exists (S k). by eapply redraw_returns.
    - exists 0, (t, rng2). cbn. by rewrite (proj2 (Nat.eqb_neq _ _) Ht). }
  exists fuel, (f, t', rng'). intros fuel' Hf. by rewrite (redraw_more _ _ _ _ _ _ _ Hr Hf).
Qed.

(** ** The generated transactions *)

(** How often [f] occurs as sender. *)
Definition sent_by (f : nat) (pairs : list (nat * nat)) : nat :=
  length (filter (λ p, p.1 = f) pairs).

Lemma sent_by_cons f p pairs :
  sent_by f (p :: pairs) = (if decide (p.1 = f) then 1 else 0) + sent_by f pairs.
Proof. unfold sent_by. rewrite filter_cons. by case_decide. Qed.

(** [txs] are signed transfers of one wei between the accounts at [pairs], each
    with the next nonce of its sender after [nonces]. *)
Definition numbered (accounts : list Account) (nonces : gmap nat Z)
    (pairs : list (nat * nat)) (txs : list SignedTransaction) : Prop :=
  Forall2 (λ p tx, ∃ s r, accounts !! p.1 = Some s ∧ accounts !! p.2 = Some r ∧
    from tx = acc_address s ∧ to tx = acc_address r ∧ value tx = u256_from 1 ∧
    verify tx = true) pairs txs ∧
  ∀ i p tx, pairs !! i = Some p → txs !! i = Some tx →
    tx_nonce tx = (default 0 (nonces !! p.1) + Z.of_nat (sent_by p.1 (take i pairs)))%Z.

Lemma generate_transactions_length fuel n config accounts hot nonces rng txs :
  generate_transactions fuel n config accounts hot nonces rng = Return txs → length txs = n.
Proof.
  revert nonces rng txs. induction n as [|n IH]; intros nonces rng txs; cbn; [by intros [= <-]|].
  intros ([[tx nonces'] rng'] & _ & (txs' & Htxs' & [= <-])%outcome_bind_Return)%outcome_bind_Return.
  cbn. f_equal. by eapply IH.
Qed.

Lemma generate_transactions_spec fuel n config accounts hot nonces rng txs :
  0 < hot → Forall account_ok accounts →
  (∀ f, 0 ≤ default 0 (nonces !! f) ∧ default 0 (nonces !! f) + Z.of_nat n < u64_modulus)%Z →
  generate_transactions fuel n config accounts hot nonces rng = Return txs →
  ∃ pairs, Forall (λ p, p.1 ≠ p.2 ∧ p.1 < hot ∧ p.2 < hot) pairs ∧ length txs = n ∧
    numbered accounts nonces pairs txs.
Proof.
  intros Hhot Hacc. revert nonces rng txs. induction n as [|n IH]; intros nonces rng txs Hn; cbn.
  { intros [= <-]. exists []. repeat split; [constructor..|]. by intros [|]. }
  intros ([[tx nonces'] rng'] & H & Hrest)%outcome_bind_Return.
  apply outcome_bind_Return in Hrest as (txs' & Htxs' & [= <-]).
  unfold generate_transaction in H.
  apply outcome_bind_Return in H as ([[f t] rng1] & Hp & H).
  apply outcome_bind_Return in H as (s & Hs & H).
  apply outcome_bind_Return in H as (r & Hr & H).
  apply outcome_bind_Return in H as (tx0 & Htx & [= -> <- <-]).
  destruct (accounts !! f) as [s'|] eqn:Ef; [|done].
  destruct (accounts !! t) as [r'|] eqn:Et; [|done]. cbn in Hs, Hr. simplify_eq.
  pose proof (proj1 (Forall_lookup _ _) Hacc _ _ Ef) as Hok.
  destruct (SignedTransaction_new_spec s (acc_address r) (u256_from 1)
    (default 0%Z (nonces !! f)) (chain_id config) Hok) as (tx1 & E & Hf1 & Ht1 & Hv1 & Hn1 & _ & Hver).
  rewrite Htx in E. simplify_eq.
  assert (u64_add (default 0 (nonces !! f)) 1 = default 0 (nonces !! f) + 1)%Z as Hadd.
  { apply u64_add_small. specialize (Hn f). lia. }
  rewrite Hadd in Htxs'.
  assert (∀ g, 0 ≤ default 0 (<[f:=default 0 (nonces !! f) + 1]> nonces !! g) ∧
    default 0 (<[f:=default 0 (nonces !! f) + 1]> nonces !! g) + Z.of_nat n < u64_modulus)%Z as Hn'.
  { intros g. specialize (Hn g). rewrite lookup_insert. case_decide; subst; cbn; lia. }
  destruct (IH _ _ _ Hn' Htxs') as (pairs & Hpairs & Hlen & Hfor & Hnum).
  exists ((f, t) :: pairs). split_and!; [|cbn; lia|].
  - constructor; [|done]. by eapply draw_pair_spec.
  - split; [constructor; [|done]; cbn; eauto 10|].
    intros [|i] p tx' Hpi Htx'; [cbn in *; simplify_eq/=; unfold sent_by; cbn; lia|].
    cbn in Hpi, Htx'. rewrite (Hnum _ _ _ Hpi Htx').
    rewrite firstn_cons, sent_by_cons, lookup_insert. cbn.
    repeat case_decide; subst; cbn; lia || congruence.
Qed.

(** ** generate *)

(** With distinct addresses, counting by index and by address is the same. *)
Lemma sent_by_sent_from accounts pairs txs f s :
  NoDup (acc_address <$> accounts) →
  Forall2 (λ p tx, ∃ s r, accounts !! p.1 = Some s ∧ accounts !! p.2 = Some r ∧
    from tx = acc_address s ∧ to tx = acc_address r ∧ value tx = u256_from 1 ∧
    verify tx = true) pairs txs →
  accounts !! f = Some s → sent_by f pairs = sent_from (acc_address s) txs.
Proof.
  intros Hnd Hall Hf. induction Hall as [|p tx pairs txs (s' & r & Hs & _ & Hfrom & _) _ IH]; [done|].
  rewrite sent_by_cons, sent_from_cons, IH. f_equal. rewrite Hfrom.
  assert (p.1 = f ↔ acc_address s' = acc_address s) as Hiff.
  { split; [intros <-; congruence|]. intros Heq. eapply (NoDup_lookup _ p.1 f (acc_address s) Hnd).
    - rewrite list_lookup_fmap, Hs. cbn. by f_equal.
    - by rewrite list_lookup_fmap, Hf. }
  repeat case_decide; tauto.
Qed.

Lemma generate_inv fuel config w :
  generate fuel config = Return w →
  ∃ hot, clamp (hot_accounts config) 2 (num_accounts config) = Return hot ∧
    try_map (λ i, from_seed (u64_add (seed config) (Z.of_nat i))) (seq 0 (num_accounts config))
      = Return (accounts w) ∧
    generate_transactions fuel (num_transactions config) config (accounts w) hot ∅
      (seed_from_u64 (seed config)) = Return (transactions w) ∧
    chunks (cfg_transactions_per_block config) (transactions w) = Return (blocks w) ∧
    Wl.config w = config.
Proof.
  unfold generate.
  intros (accs & Ha & (hot & Hh & (txs & Ht & (bs & Hb & [= <-])%outcome_bind_Return)%outcome_bind_Return)%outcome_bind_Return)%outcome_bind_Return.
  exists hot. done.
Qed.

Lemma clamp_spec x n hot : clamp x 2 n = Return hot → 2 ≤ hot ≤ n.
Proof.
  unfold clamp. destruct (Nat.ltb_spec n 2); [done|].
  destruct (Nat.ltb_spec x 2); [intros [= <-]; lia|].
  destruct (Nat.ltb_spec n x); intros [= <-]; lia.
Qed.

Lemma generate_accounts_ok fuel config w :
  generate fuel config = Return w → Forall account_ok (accounts w).
Proof.
  intros (hot & _ & Ha & _)%generate_inv. apply try_map_Return in Ha.
  induction Ha as [|i a l accs Hia _ IH]; constructor; [by eapply from_seed_ok|done].
Qed.

(** What the executors rely on: valid signatures, and for each transaction a
    transfer of one wei between two different accounts whose nonce is the number
    of the sender's earlier transactions. *)
Record sequenced (addrs : list Address) (txs : list SignedTransaction) : Prop := {
  sq_verified : Forall (λ tx, verify tx = true) txs;
  sq_transfer : NoDup addrs → ∀ i tx, txs !! i = Some tx →
    from tx ≠ to tx ∧ from tx ∈ addrs ∧ to tx ∈ addrs ∧
    value tx = u256_from 1 ∧ tx_nonce tx = Z.of_nat (sent_from (from tx) (take i txs));
}.

Lemma numbered_sequenced accounts pairs txs :
  Forall (λ p, p.1 ≠ p.2) pairs → numbered accounts ∅ pairs txs →
  sequenced (acc_address <$> accounts) txs.
Proof.
  intros Hp [Hall Hnum]. split.
  { clear -Hall. induction Hall as [|? ? ? ? (? & ? & ? & ? & ? & ? & ? & ?)]; by constructor. }
  intros Hnd i tx Hi.
  destruct (Forall2_lookup_r _ _ _ _ _ Hall Hi) as ([f t] & Hpi & s & r & Hs & Hr & Hf & Hto & Hv & _).
  pose proof (proj1 (Forall_lookup _ _) Hp _ _ Hpi) as Hne. cbn in *. split_and!.
  - rewrite Hf, Hto. intros Heq. apply Hne.
    apply (NoDup_lookup _ f t (acc_address s) Hnd); rewrite list_lookup_fmap, ?Hs, ?Hr; cbn; congruence.
  - rewrite Hf. apply list_elem_of_fmap. exists s. split; [done|]. by eapply list_elem_of_lookup_2.
  - rewrite Hto. apply list_elem_of_fmap. exists r. split; [done|]. by eapply list_elem_of_lookup_2.
  - done.
  - rewrite (Hnum _ _ _ Hpi Hi), lookup_empty, Hf. cbn -[Z.add].
    rewrite (sent_by_sent_from accounts _ (take i txs) f s Hnd); [lia| |done].
    by apply Forall2_take.
Qed.

Lemma generate_sequenced fuel config w :
  generate fuel config = Return w → (Z.of_nat (num_transactions config) < u64_modulus)%Z →
  length (accounts w) = num_accounts config ∧ length (transactions w) = num_transactions config ∧
  sequenced (addresses w) (transactions w).
Proof.
  intros Hg Hn. pose proof (generate_accounts_ok _ _ _ Hg) as Hok.
  apply generate_inv in Hg as (hot & Hh%clamp_spec & Ha & Ht & _).
  apply generate_transactions_spec in Ht as (pairs & Hp & Hlen & Hnum); [|lia|done|].
  2:{ intros f. rewrite lookup_empty. cbn. lia. }
  split_and!; [|done|].
  - apply try_map_Return, Forall2_length in Ha. rewrite <- Ha. apply length_seq.
  - apply (numbered_sequenced _ pairs); [|done]. eapply Forall_impl; [exact Hp|]. by intros p [].
Qed.

(** C31: what [generate] returns.  The workload has the configured numbers of
    accounts and transactions, and every transaction carries a signature that
    recovers to its sender.  If the accounts have distinct addresses, every
    transaction moves one wei between two different accounts of the workload,
    and its nonce is the number of earlier transactions of its sender. *)
Theorem generate_transactions_sequenced fuel config w :
  generate fuel config = Return w →
  (Z.of_nat (num_transactions config) < u64_modulus)%Z →
  length (accounts w) = num_accounts config ∧
  length (transactions w) = num_transactions config ∧
  Forall (λ tx, verify tx = true) (transactions w) ∧
  (NoDup (addresses w) → ∀ i tx, transactions w !! i = Some tx →
    from tx ≠ to tx ∧ from tx ∈ addresses w ∧ to tx ∈ addresses w ∧
    value tx = u256_from 1 ∧
    tx_nonce tx = Z.of_nat (sent_from (from tx) (take i (transactions w)))).
Proof.
  intros Hg Hn. destruct (generate_sequenced _ _ _ Hg Hn) as (Ha & Ht & [Hv Hsq]). done.
Qed.

Lemma generate_length fuel config w :
  generate fuel config = Return w → length (transactions w) = num_transactions config.
Proof. intros (hot & _ & _ & Ht & _)%generate_inv. by eapply generate_transactions_length. Qed.

(** The blocks of a generated workload make up its transactions. *)
Lemma generate_concat fuel config w :
  generate fuel config = Return w → concat (blocks w) = transactions w.
Proof.
  intros (hot & _ & _ & _ & Hb & _)%generate_inv. unfold chunks in Hb.
  destruct (Nat.eqb_spec (cfg_transactions_per_block config) 0) as [|Hs]; [done|].
  injection Hb as <-. apply chunks_aux_concat; lia.
Qed.

(** The blocks are consecutive slices of the transaction list: joined they
    are the list, block [b] holds the transactions from [b * size] on, every
    block but the last is full, and their number is the quotient rounded up. *)
Theorem generate_blocks_partition fuel config w :
  generate fuel config = Return w →
  let size := cfg_transactions_per_block config in
  0 < size ∧ concat (blocks w) = transactions w ∧
  num_blocks w = (length (transactions w) + size - 1) / size ∧
  ∀ b block, blocks w !! b = Some block →
    block = take size (drop (b * size) (transactions w)) ∧ 0 < length block ≤ size ∧
    (S b < num_blocks w → length block = size).
Proof.
  intros (hot & _ & _ & _ & Hb & _)%generate_inv. cbn zeta. unfold chunks in Hb.
  destruct (Nat.eqb_spec (cfg_transactions_per_block config) 0) as [|Hs]; [done|].
  injection Hb as Hb. set (size := cfg_transactions_per_block config) in *.
  assert (0 < size) as Hsize by lia. unfold num_blocks. rewrite <- Hb.
  split_and!; [done|by apply chunks_aux_concat|by apply length_chunks_aux|].
  intros b block Hbl. rewrite chunks_aux_lookup in Hbl by done.
  case_decide as Hlt; [|done]. injection Hbl as <-.
  split; [done|]. rewrite length_take, length_drop. split; [lia|]. intros Hnext.
  apply lookup_lt_is_Some_2 in Hnext as [x Hx]. rewrite chunks_aux_lookup in Hx by done.
  case_decide; [|done]. cbn in *. lia.
Qed.

(** ** Generation returns *)

Lemma generate_transaction_returns config accounts hot nonces rng :
  2 ≤ hot ≤ length accounts → Forall account_ok accounts →
  ∃ fuel r, ∀ fuel', fuel ≤ fuel' →
    generate_transaction fuel' config accounts hot nonces rng = Return r.
Proof.
  intros Hhot Hok. destruct (draw_pair_returns hot rng) as (fuel & [[f t] rng'] & Hr); [lia|].
  destruct (draw_pair_spec fuel hot rng f t rng') as (_ & Hf & Ht); [lia|by apply Hr|].
  destruct (lookup_lt_is_Some_2 accounts f) as [s Hs]; [lia|].
  destruct (lookup_lt_is_Some_2 accounts t) as [r Hr']; [lia|].
  destruct (SignedTransaction_new_spec s (acc_address r) (u256_from 1)
    (default 0%Z (nonces !! f)) (chain_id config)) as (tx & Htx & _).
  { by eapply (proj1 (Forall_lookup _ _) Hok). }
  exists fuel. eexists. intros fuel' Hf'. unfold generate_transaction. rewrite (Hr fuel' Hf'). cbn.
  rewrite Hs, Hr'. cbn. rewrite Htx. reflexivity.
Qed.

Lemma generate_transactions_returns n config accounts hot nonces rng :
  2 ≤ hot ≤ length accounts → Forall account_ok accounts →
  ∃ fuel r, ∀ fuel', fuel ≤ fuel' →
    generate_transactions fuel' n config accounts hot nonces rng = Return r.
Proof.
  intros Hhot Hok. revert nonces rng. induction n as [|n IH]; intros nonces rng; [by exists 0, []|].
  destruct (generate_transaction_returns config accounts hot nonces rng Hhot Hok)
    as (fuel1 & [[tx nonces'] rng'] & H1).
  destruct (IH nonces' rng') as (fuel2 & txs & H2).
  exists (max fuel1 fuel2), (tx :: txs). intros fuel' Hf. cbn.
  rewrite H1 by lia. cbn. by rewrite H2 by lia.
Qed.

(** Enough fuel, and accounts that can be made. *)
Lemma generate_total config :
  2 ≤ num_accounts config → cfg_transactions_per_block config ≠ 0 →
  (∀ i, i < num_accounts config →
    is_Some (signing_key_from_bytes
      (fill_32 (seed_from_u64 (u64_add (seed config) (Z.of_nat i)))).1)) →
  ∃ fuel w, ∀ fuel', fuel ≤ fuel' → generate fuel' config = Return w.
Proof.
  intros Hn Hsize Hkeys. unfold generate.
  assert (∃ accs, try_map (λ i, from_seed (u64_add (seed config) (Z.of_nat i)))
    (seq 0 (num_accounts config)) = Return accs) as [accs Ha].
  { assert (Forall (λ i, ∃ a, from_seed (u64_add (seed config) (Z.of_nat i)) = Return a)
      (seq 0 (num_accounts config))) as Hf.
    { apply Forall_forall. intros i [_ Hi]%elem_of_seq. destruct (Hkeys i) as [k Hk]; [lia|].
      unfold from_seed. destruct (fill_32 _) as [bytes rng]. cbn in Hk. rewrite Hk. cbn.
      unfold from_signing_key. destruct (public_key_to_address_returns (verifying_key_from k)) as [x ->].
      cbn. eauto. }
    clear -Hf. induction Hf as [|i l (a & Ha) _ (accs & IH)]; [by exists []|].
    exists (a :: accs). cbn. by rewrite Ha, IH. }
  rewrite Ha. cbn.
  assert (length accs = num_accounts config) as Hlen.
  { apply try_map_Return, Forall2_length in Ha. rewrite <- Ha. apply length_seq. }
  assert (Forall account_ok accs) as Hok.
  { apply try_map_Return in Ha. clear -Ha AL KL.
    induction Ha as [|i a l accs Hia _ IH]; constructor; [by eapply from_seed_ok|done]. }
  assert (∃ hot, clamp (hot_accounts config) 2 (num_accounts config) = Return hot) as [hot Hh].
  { unfold clamp. rewrite (proj2 (Nat.ltb_ge _ _) Hn). eauto. }
  rewrite Hh. cbn. pose proof (clamp_spec _ _ _ Hh) as Hb.
  destruct (generate_transactions_returns (num_transactions config) config accs hot ∅
    (seed_from_u64 (seed config))) as (fuel & txs & Hf); [lia|done|].
  exists fuel. eexists. intros fuel' Hge. rewrite (Hf fuel' Hge). cbn.
  unfold chunks. rewrite (proj2 (Nat.eqb_neq _ _) Hsize). reflexivity.
Qed.

(** With fewer than two accounts, or with a block size of zero, [generate]
    never returns a workload: the clamp's bounds are the wrong way round, or
    [chunks] panics. *)
Theorem generate_rejects fuel config w :
  num_accounts config < 2 ∨ cfg_transactions_per_block config = 0 →
  generate fuel config ≠ Return w.
Proof.
  intros H (hot & Hh & _ & _ & Hb & _)%generate_inv. destruct H as [H|H].
  - apply clamp_spec in Hh. lia.
  - unfold chunks in Hb. by rewrite H in Hb.
Qed.
End Spec.

(** ** Witnesses *)

Definition x1 : Address := addr_of 1.
Definition x2 : Address := addr_of 2.
Definition three : U256 := u256_of 3.

Lemma tx_data_injective_witness :
  tx_data x1 x2 three 4 5 = tx_data x1 x2 three 4 5 ∧
  x1 = x1 ∧ x2 = x2 ∧ three = three ∧ 4%Z = 4%Z ∧ 5%Z = 5%Z.
Proof.
  split; [done|]. apply (tx_data_injective x1 x1 x2 x2 three three 4 4 5 5); [by split..|done].
Defined.

(** Three accounts, four transactions, blocks of three. *)
Definition sample_config : WorkloadConfig := mkWorkloadConfig 3 4 3 7 1 3.

Definition sample : outcome Workload := generate 5 sample_config.

Definition distinct_addresses (o : outcome Workload) : bool :=
  match o with Return w => bool_decide (NoDup (addresses w)) | _ => false end.

Lemma sample_returns : ∃ w, sample = Return w ∧ NoDup (addresses w).
Proof.
  assert (distinct_addresses sample = true) as H by by_compute.
  destruct sample as [w| |]; [|done..]. exists w. split; [done|]. by apply bool_decide_eq_true in H.
Qed.

Lemma generate_transactions_sequenced_witness :
  ∃ w, sample = Return w ∧ length (transactions w) = 4 ∧
    ∀ tx, transactions w !! 3 = Some tx → from tx ≠ to tx.
Proof.
  destruct sample_returns as (w & Hw & Hnd). exists w. split; [done|].
  destruct (generate_transactions_sequenced 5 sample_config w Hw) as (_ & Hlen & _ & H); [done|].
  split; [done|]. intros tx Htx. by apply (H Hnd 3 tx Htx).
Defined.

Lemma generate_blocks_partition_witness : ∃ w, sample = Return w ∧ num_blocks w = 2.
Proof.
  destruct sample_returns as (w & Hw & _). exists w. split; [done|].
  destruct (generate_blocks_partition 5 sample_config w Hw) as (_ & _ & -> & _).
  pose proof Hw as (hot & Hh%clamp_spec & _ & Ht & _)%generate_inv.
  apply generate_transactions_spec in Ht as (pairs & _ & -> & _); [done|..].
  - lia.
  - by eapply generate_accounts_ok.
  - intros f. rewrite lookup_empty. done.
Defined.

Lemma generate_rejects_witness w : generate 5 (mkWorkloadConfig 1 0 50 42 1 10) ≠ Return w.
Proof. apply generate_rejects. left. cbn. lia. Defined.
End WlSpec.
