(* ===== verification/Executor.v ===== *)
(** * src/executor/mod.rs: what every executor offers

    The result type, the ordering modes, and the [Executor] trait as a class.
    An execution is a relation between the database and workload it starts from
    and what it may return, since a parallel executor's schedule is not
    determined; [CountedExecutor] is what the benchmarks rely on. *)

From Stdlib Require Import String.
From stdpp Require Import base option list.
From Stdlib Require Import ZArith Lia.
From S2P Require Import Prelude Integers Externals Workload.

Module Exec.

Inductive OrderingMode : Set := Strict | Loose.

Definition OrderingMode_default : OrderingMode := Strict.

Definition is_strict (self : OrderingMode) : bool :=
  match self with Strict => true | Loose => false end.

Definition is_loose (self : OrderingMode) : bool :=
  match self with Loose => true | Strict => false end.

Record ExecutionResult : Set := mkResult { successful : Z; failed : Z }.

Definition ExecutionResult_new (successful failed : Z) : ExecutionResult :=
  mkResult successful failed.

Definition total (self : ExecutionResult) : Z := usize_add (successful self) (failed self).

(** [preserves_order] and [name] have the trait's default bodies when an
    executor does not override them. *)
Definition default_preserves_order : bool := true.
Definition default_name : string := "unknown".

Section Trait.
Context {A : Alloy} {K : Keys A}.

Class Executor (Self Database : Type) := {
  (** [execute(&self, db, workload)] may return the pair. *)
  executes : Self → Database → Wl.Workload → Database * ExecutionResult → Prop;
  preserves_order : Self → bool;
  name : Self → string;
}.

(** The workload an executor is given has its transactions in its blocks. *)
Definition workload_ok (w : Wl.Workload) : Prop :=
  List.concat (Wl.blocks w) = Wl.transactions w ∧
  (Z.of_nat (length (Wl.transactions w)) < u64_modulus)%Z.

(** Every transaction of the workload is counted once. *)
Class CountedExecutor (Self Database : Type) {E : Executor Self Database} := {
  (** It has something to execute with. *)
  can_run : Self → Prop;
  executor_counts : ∀ self db w db' r,
    can_run self → workload_ok w → executes self db w (db', r) →
    (0 ≤ successful r)%Z ∧ (0 ≤ failed r)%Z ∧
    total r = Z.of_nat (length (Wl.transactions w));
}.

(** The signature check the executors make before a transaction. *)
Definition signature_rejected (verify_signatures : bool) (tx : Wl.SignedTransaction) : bool :=
  if verify_signatures then
    match Wl.recover_signer tx with
    | None => true
    | Some recovered => negb (bool_decide (recovered = Wl.from tx))
    end
  else false.

Lemma signature_rejected_verify v tx :
  signature_rejected v tx = v && negb (Wl.verify tx).
Proof. unfold signature_rejected, Wl.verify. destruct v, (Wl.recover_signer tx); done. Qed.
End Trait.
End Exec.
