(* ===== verification/Sequential.v ===== *)
(** * src/executor/sequential.rs

    The in-memory baseline: the signature check and revm, one transaction at a
    time.  revm is a library; its machine is a parameter. *)

From Stdlib Require Import String.
From stdpp Require Import base option list.
From Stdlib Require Import ZArith Lia.
From S2P Require Import Prelude Integers Externals Workload Executor.

Module Sequential.

Section Env.
Context {A : Alloy}.

Inductive TxKind : Set := Call (to : Address) | Create.

(** The fields [execute] sets; the others keep revm's defaults. *)
Record TxEnv : Set := mkTxEnv {
  caller : Address;
  kind : TxKind;
  env_value : U256;
  gas_limit : Z;
  gas_price : Z;
  env_nonce : Z;
  env_chain_id : option Z;
}.

(** revm's machine on its in-memory database. *)
Class Revm {C : CacheDBLib A} := {
  Evm : Type;
  (** [Context::mainnet().with_db(db).build_mainnet()] *)
  build_mainnet : CacheDB → Evm;
  (** [evm.transact_commit(tx_env)]: [None] is an error, else [is_success]. *)
  transact_commit : Evm → TxEnv → Evm * option bool;
  (** [evm.ctx.journaled_state.database] *)
  database : Evm → CacheDB;
}.
End Env.

Section Sequential.
Context {A : Alloy} {K : Keys A} {C : CacheDBLib A} {V : Revm}.
Implicit Types (txs : list Wl.SignedTransaction).

Record SequentialExecutor : Set := mkSequential {
  verify_signatures : bool;
  ordering : Exec.OrderingMode;
}.

Definition new (verify_signatures : bool) (ordering : Exec.OrderingMode) : SequentialExecutor :=
  mkSequential verify_signatures ordering.

Definition with_verification (verify_signatures : bool) : SequentialExecutor :=
  new verify_signatures Exec.OrderingMode_default.

Definition default : SequentialExecutor := new true Exec.OrderingMode_default.

Definition tx_env (chain_id : Z) (tx : Wl.SignedTransaction) : TxEnv :=
  mkTxEnv (Wl.from tx) (Call (Wl.to tx)) (Wl.value tx) 21000 1 (Wl.tx_nonce tx) (Some chain_id).

(** The [for] loop; the counters are [usize] bounded by the workload's length. *)
Fixpoint execute_txs (self : SequentialExecutor) (chain_id : Z) txs
    (evm : Evm) (successful failed : nat) : Evm * nat * nat :=
  match txs with
  | [] => (evm, successful, failed)
  | tx :: txs =>
      if Exec.signature_rejected (verify_signatures self) tx
      then execute_txs self chain_id txs evm successful (failed + 1)
      else
        let '(evm, result) := transact_commit evm (tx_env chain_id tx) in
        match result with
        | Some true => execute_txs self chain_id txs evm (successful + 1) failed
        | Some false | None => execute_txs self chain_id txs evm successful (failed + 1)
        end
  end.

Definition execute (self : SequentialExecutor) (db : CacheDB) (workload : Wl.Workload)
    : CacheDB * Exec.ExecutionResult :=
  let evm := build_mainnet db in
  let '(evm, successful, failed) :=
    execute_txs self (Wl.chain_id (Wl.config workload)) (Wl.transactions workload) evm 0 0 in
  (database evm, Exec.ExecutionResult_new (Z.of_nat successful) (Z.of_nat failed)).

Definition preserves_order (self : SequentialExecutor) : bool := true.
Definition name (self : SequentialExecutor) : string := "sequential_in_memory".

#[global] Instance sequential_executor : Exec.Executor SequentialExecutor CacheDB := {|
  Exec.executes self db w r := execute self db w = r;
  Exec.preserves_order := preserves_order;
  Exec.name := name;
|}.

(** ** What it computes *)

(** The transactions handed to revm. *)
Definition accepted (self : SequentialExecutor) txs : list Wl.SignedTransaction :=
  filter (λ tx, Exec.signature_rejected (verify_signatures self) tx = false) txs.

(** revm run over a list of transactions, with the result of each. *)
Fixpoint transact_all (chain_id : Z) (evm : Evm) txs : Evm * list (option bool) :=
  match txs with
  | [] => (evm, [])
  | tx :: txs =>
      let '(evm, result) := transact_commit evm (tx_env chain_id tx) in
      let '(evm, results) := transact_all chain_id evm txs in (evm, result :: results)
  end.

Definition successes (results : list (option bool)) : nat :=
  length (filter (λ r, r = Some true) results).

Lemma accepted_cons self tx txs :
  accepted self (tx :: txs) =
  if Exec.signature_rejected (verify_signatures self) tx then accepted self txs
  else tx :: accepted self txs.
Proof.
  unfold accepted. rewrite filter_cons.
  by destruct (Exec.signature_rejected (verify_signatures self) tx).
Qed.

Lemma successes_cons r results :
  successes (r :: results) = (if decide (r = Some true) then 1 else 0) + successes results.
Proof. unfold successes. rewrite filter_cons. by case_decide. Qed.

Lemma execute_txs_transacts self chain_id txs evm s f :
  let '(evm', results) := transact_all chain_id evm (accepted self txs) in
  ∃ f', execute_txs self chain_id txs evm s f = (evm', s + successes results, f') ∧
        f' + successes results = f + length txs.
Proof.
  revert evm s f. induction txs as [|tx txs IH]; intros evm s f.
  { exists f. unfold successes; cbn. split; [f_equal; f_equal|]; lia. }
  rewrite accepted_cons. cbn [execute_txs].
  destruct (Exec.signature_rejected (verify_signatures self) tx).
  { specialize (IH evm s (f + 1)). destruct (transact_all _ _ _) as [evm' results].
    destruct IH as (f' & -> & Hf). exists f'. split; [done|cbn; lia]. }
  cbn [transact_all]. destruct (transact_commit evm (tx_env chain_id tx)) as [evm1 result].
  specialize (IH evm1 (if decide (result = Some true) then s + 1 else s)
    (if decide (result = Some true) then f else f + 1)).
  destruct (transact_all _ _ _) as [evm' results]. rewrite successes_cons. cbn [length].
  destruct IH as (f' & IH & Hf). exists f'. revert IH Hf.
  destruct result as [[]|]; repeat case_decide; try congruence; intros -> Hf;
    (split; [f_equal; f_equal|]; lia).
Qed.

(** Sequential execution runs revm exactly on the transactions with an
    accepted signature, in workload order; [successful] counts the ones revm
    commits successfully, and [failed] all others of the workload, rejected
    ones included. *)
Theorem execute_sequential self db w :
  let '(evm, results) := transact_all (Wl.chain_id (Wl.config w)) (build_mainnet db)
                           (accepted self (Wl.transactions w)) in
  execute self db w =
    (database evm,
     Exec.mkResult (Z.of_nat (successes results))
       (Z.of_nat (length (Wl.transactions w)) - Z.of_nat (successes results))).
Proof.
  pose proof (execute_txs_transacts self (Wl.chain_id (Wl.config w)) (Wl.transactions w)
    (build_mainnet db) 0 0) as H.
  destruct (transact_all _ _ _) as [evm results]. destruct H as (f & H & Hf).
  unfold execute. rewrite H. unfold Exec.ExecutionResult_new.
  replace (Z.of_nat f) with (Z.of_nat (length (Wl.transactions w)) - Z.of_nat (successes results))%Z by lia.
  done.
Qed.

Lemma sequential_executor_counts self db w db' r :
  Exec.workload_ok w → Exec.executes self db w (db', r) →
  (0 ≤ Exec.successful r)%Z ∧ (0 ≤ Exec.failed r)%Z ∧
  Exec.total r = Z.of_nat (length (Wl.transactions w)).
Proof.
  intros [_ Hlen] H. cbn in H. unfold execute in H.
  pose proof (execute_txs_transacts self (Wl.chain_id (Wl.config w)) (Wl.transactions w)
    (build_mainnet db) 0 0) as Hs.
  destruct (transact_all _ _ _) as [evm results]. destruct Hs as (f & Hs & Hf).
  rewrite Hs in H. simplify_eq. unfold Exec.total, usize_add; cbn.
  split_and!; [lia..|]. rewrite Z.mod_small; lia.
Qed.

#[global] Instance sequential_counted : Exec.CountedExecutor SequentialExecutor CacheDB := {|
  Exec.can_run _ := True;
  Exec.executor_counts self db w db' r _ := sequential_executor_counts self db w db' r;
|}.
End Sequential.
End Sequential.
