(* ===== verification/Store.v ===== *)
(** * The reference of the database executors

    Transfers over a store of accounts, where a sender must exist.  Both MDBX
    executors and the FoundationDB executor are proved to implement [apply]; a
    store is also the interface between them and the end-to-end theorems. *)

From stdpp Require Import base option list gmap.
From Stdlib Require Import ZArith Lia.
From S2P Require Import Prelude Integers Externals Types Workload Executor.

Module Store.
Section Store.
Context {A : Alloy} {K : Keys A}.
Implicit Types (l : gmap Address AccountState) (tx : Wl.SignedTransaction).

Definition sender_after tx (s : AccountState) : AccountState :=
  AccountState_new (u64_add (nonce s) 1) (u256_sub (balance s) (Wl.value tx)).

Definition receiver_after tx (r : AccountState) : AccountState :=
  AccountState_new (nonce r) (u256_add (balance r) (Wl.value tx)).

Definition absent : AccountState := AccountState_new 0 u256_zero.

(** The checks of a transfer against the store: the sender, when they pass. *)
Definition payer l tx : option AccountState :=
  s ← l !! Wl.from tx;
  if negb (nonce s =? Wl.tx_nonce tx)%Z then None
  else if u256_lt (balance s) (Wl.value tx) then None else Some s.

(** A transfer between two accounts, with a nonce that can be incremented. *)
Record proper_transfer tx : Prop := {
  pt_accounts : Wl.from tx ≠ Wl.to tx;
  pt_nonce : (0 ≤ Wl.tx_nonce tx ∧ Wl.tx_nonce tx + 1 < u64_modulus)%Z;
}.

(** One transfer; [false] when it is refused. *)
Definition transfer l tx : gmap Address AccountState * bool :=
  match payer l tx with
  | None => (l, false)
  | Some s =>
      let r := default absent (l !! Wl.to tx) in
      (<[Wl.to tx := receiver_after tx r]> (<[Wl.from tx := sender_after tx s]> l), true)
  end.

Definition apply (verify : bool) l tx : gmap Address AccountState * bool :=
  if Exec.signature_rejected verify tx then (l, false) else transfer l tx.

(** A list of transactions: the final store, the applied and the refused. *)
Fixpoint run (verify : bool) l (txs : list Wl.SignedTransaction)
    : gmap Address AccountState * nat * nat :=
  match txs with
  | [] => (l, 0, 0)
  | tx :: txs =>
      let '(l, ok) := apply verify l tx in
      let '(l, s, f) := run verify l txs in
      (l, Nat.b2n ok + s, Nat.b2n (negb ok) + f)
  end.

(** Every account of the list funded with the initial balance. *)
Definition fund l (addrs : list Address) : gmap Address AccountState :=
  foldl (λ l a, <[a := AccountState_new 0 Wl.initial_balance]> l) l addrs.

Lemma run_app_store verify l txs txs' :
  run verify l (txs ++ txs') =
  let '(l1, s1, f1) := run verify l txs in
  let '(l2, s2, f2) := run verify l1 txs' in (l2, s1 + s2, f1 + f2).
Proof.
  revert l. induction txs as [|tx txs IH]; intros l; cbn.
  - by destruct (run verify l txs') as [[? ?] ?].
  - destruct (apply verify l tx) as [l1 ok]. rewrite IH.
    destruct (run verify l1 txs) as [[l2 s2] f2].
    destruct (run verify l2 txs') as [[l3 s3] f3]. cbn. f_equal; [f_equal|]; lia.
Qed.

Lemma run_counts verify l txs :
  let '(_, s, f) := run verify l txs in s + f = length txs.
Proof.
  revert l. induction txs as [|tx txs IH]; intros l; [done|]. cbn.
  destruct (apply verify l tx) as [l1 ok]. specialize (IH l1).
  destruct (run verify l1 txs) as [[l2 s] f]. destruct ok; cbn; lia.
Qed.

Lemma fund_lookup l addrs a :
  fund l addrs !! a =
  if decide (a ∈ addrs) then Some (AccountState_new 0 Wl.initial_balance) else l !! a.
Proof.
  unfold fund. revert l. induction addrs as [|b addrs IH]; intros l; cbn; [done|].
  rewrite IH, lookup_insert. repeat case_decide; set_solver.
Qed.
End Store.
End Store.
