(* ===== verification/StoreSpec.v ===== *)
(** * What a run that applies everything leaves

    When every transaction of a list is applied, each account's nonce has grown
    by the number of its transactions and its balance by what it received less
    what it sent, whatever the order; so two orders that both apply everything
    end in the same store, and a generated workload applies completely. *)

From stdpp Require Import base option list gmap.
From Stdlib Require Import ZArith Lia.
From S2P Require Import Prelude Integers Externals Types Workload WorkloadSpec Executor Store.

Module StoreSpec.
Import Store.

Section Spec.
Context {A : Alloy} {AL : AlloyLaws A} {K : Keys A}.
Implicit Types (l : gmap Address AccountState) (tx : Wl.SignedTransaction)
  (txs : list Wl.SignedTransaction) (a : Address) (v : bool).

(** ** Applied lists *)

Definition value_sent a txs : Z :=
  sum_Z (λ tx, if decide (Wl.from tx = a) then u256_val (Wl.value tx) else 0%Z) txs.
Definition value_received a txs : Z :=
  sum_Z (λ tx, if decide (Wl.to tx = a) then u256_val (Wl.value tx) else 0%Z) txs.

(** All of [txs] is applied to [l], with result [l']. *)
Definition applies v l txs l' : Prop := run v l txs = (l', length txs, 0).

Definition account l a : AccountState := default absent (l !! a).

(** The accounts of [l'] are those of [l] changed by [txs]. *)
Record settled l txs l' : Prop := {
  st_present : ∀ a, is_Some (l' !! a) ↔ is_Some (l !! a) ∨ a ∈ (Wl.to <$> txs);
  st_nonce : ∀ a, in_u64 (nonce (account l a)) →
    nonce (account l' a) = ((nonce (account l a) + Z.of_nat (Wl.sent_from a txs)) mod u64_modulus)%Z;
  st_balance : ∀ a, u256_val (balance (account l' a)) =
    ((u256_val (balance (account l a)) - value_sent a txs + value_received a txs) mod u256_modulus)%Z;
}.

Lemma payer_Some l tx s :
  payer l tx = Some s ↔
  l !! Wl.from tx = Some s ∧ nonce s = Wl.tx_nonce tx ∧ u256_lt (balance s) (Wl.value tx) = false.
Proof.
  unfold payer. destruct (l !! Wl.from tx) as [s'|]; cbn; [|by split; [|intros (? & _)]].
  destruct (Z.eqb_spec (nonce s') (Wl.tx_nonce tx)); cbn.
  - destruct (u256_lt _ _) eqn:E; split; [done| |intros [= <-]; done|intros (? & _); done].
    intros ([= ->] & _ & E'). congruence.
  - split; [done|]. by intros ([= ->] & ? & _).
Qed.

Lemma applies_nil v l l' : applies v l [] l' ↔ l' = l.
Proof. unfold applies; cbn. split; [by intros [=]|by intros ->]. Qed.

Lemma applies_cons v l tx txs l' :
  applies v l (tx :: txs) l' ↔
  ∃ s, Exec.signature_rejected v tx = false ∧ payer l tx = Some s ∧
    applies v (transfer l tx).1 txs l'.
Proof.
  unfold applies. cbn [run length]. unfold apply, transfer.
  pose proof (run_counts v l txs) as H0.
  destruct (Exec.signature_rejected v tx).
  { destruct (run v l txs) as [[l1 s] f]. cbn. split; [|by intros (? & ? & _)]. by intros [= <- -> ?]. }
  destruct (payer l tx) as [s|]; cbn.
  - set (l1 := <[Wl.to tx := _]> _). destruct (run v l1 txs) as [[l2 s2] f2]. cbn. split.
    + intros [= -> -> ->]. by exists s.
    + intros (_ & _ & _ & [= -> -> ->]). done.
  - destruct (run v l txs) as [[l1 s] f]. cbn. split; [|by intros (? & _ & ? & _)]. by intros [= <- -> ?].
Qed.

(** One transfer between different accounts. *)
Lemma transfer_account l tx s a :
  Wl.from tx ≠ Wl.to tx → payer l tx = Some s →
  account (transfer l tx).1 a =
  if decide (Wl.to tx = a) then receiver_after tx (account l a)
  else if decide (Wl.from tx = a) then sender_after tx (account l a) else account l a.
Proof.
  intros Hne Hp. unfold transfer. rewrite Hp. cbn. unfold account. rewrite !lookup_insert.
  apply payer_Some in Hp as (Hf & _).
  repeat case_decide; subst; cbn; try done. by rewrite Hf.
Qed.

Lemma transfer_present l tx s a :
  payer l tx = Some s → is_Some ((transfer l tx).1 !! a) ↔ is_Some (l !! a) ∨ Wl.to tx = a.
Proof.
  intros Hp. unfold transfer. rewrite Hp. cbn. rewrite !lookup_insert.
  apply payer_Some in Hp as (Hf & _).
  repeat case_decide; subst; [by split; eauto|rewrite Hf; by split; eauto|tauto].
Qed.

Lemma mod_settle x y z m : ((x mod m - y + z) mod m = (x - y + z) mod m)%Z.
Proof.
  replace (x mod m - y + z)%Z with (x mod m + (z - y))%Z by lia.
  rewrite Zplus_mod_idemp_l. f_equal. lia.
Qed.

Lemma applies_settled v l txs l' :
  Forall (λ tx, Wl.from tx ≠ Wl.to tx) txs → applies v l txs l' → settled l txs l'.
Proof.
  intros Hne. revert l. induction Hne as [|tx txs Hne _ IH]; intros l.
  { rewrite applies_nil. intros ->. split; intros a.
    - rewrite fmap_nil, elem_of_nil. tauto.
    - intros Hr. cbn. rewrite Z.add_0_r. by rewrite Z.mod_small.
    - cbn. rewrite Z.sub_0_r, Z.add_0_r. symmetry. apply Z.mod_small, u256_range. }
  rewrite applies_cons. intros (s & _ & Hp & [Hdom Hn Hb]%IH). split; intros a.
  - rewrite Hdom, (transfer_present _ _ _ _ Hp), fmap_cons, elem_of_cons. naive_solver.
  - intros Hr. rewrite Hn; rewrite (transfer_account _ _ _ _ Hne Hp).
    + rewrite Wl.sent_from_cons.
      destruct (decide (Wl.to tx = a)); [rewrite decide_False by congruence; done|].
      case_decide; [|done]. cbn -[Z.of_nat]. unfold u64_add. rewrite Zplus_mod_idemp_l. f_equal. lia.
    + repeat case_decide; [exact Hr|apply u64_add_range|exact Hr].
  - rewrite Hb, (transfer_account _ _ _ _ Hne Hp). unfold value_sent, value_received. cbn [sum_Z].
    destruct (decide (Wl.to tx = a)); [rewrite (decide_False (P := Wl.from tx = a)) by congruence|case_decide].
    + cbn. rewrite u256_add_val, mod_settle. f_equal. lia.
    + cbn. rewrite u256_sub_val, mod_settle. f_equal. lia.
    + f_equal; lia.
Qed.

(** Two orders of the same changes settle in the same store. *)
Lemma settled_unique l txs txs' l1 l2 :
  (∀ a, in_u64 (nonce (account l a))) →
  txs ≡ₚ txs' → settled l txs l1 → settled l txs' l2 → l1 = l2.
Proof.
  intros Hok Hp [D1 N1 B1] [D2 N2 B2]. apply map_eq. intros a.
  assert (account l1 a = account l2 a) as E.
  { specialize (N1 a (Hok a)). specialize (N2 a (Hok a)). specialize (B1 a). specialize (B2 a).
    assert (Wl.sent_from a txs = Wl.sent_from a txs') as Es.
    { unfold Wl.sent_from. by rewrite Hp. }
    unfold value_sent, value_received in *.
    rewrite (sum_Z_perm _ _ _ Hp), (sum_Z_perm (λ tx, if decide (Wl.to tx = a) then _ else _) _ _ Hp) in B1.
    rewrite Es, <- N2 in N1. rewrite <- B2 in B1. apply u256_val_inj in B1.
    destruct (account l1 a), (account l2 a). cbn in *. congruence. }
  assert (is_Some (l1 !! a) ↔ is_Some (l2 !! a)) as Hiff by by rewrite D1, D2, Hp.
  unfold account in E. destruct (l1 !! a) as [x|], (l2 !! a) as [y|]; cbn in E; [congruence|..|done].
  - by destruct (proj1 Hiff (ex_intro _ x eq_refl)).
  - by destruct (proj2 Hiff (ex_intro _ y eq_refl)).
Qed.

(** When nothing is refused the order does not matter.  If two orders of the
    same transfers between different accounts both apply completely to a store,
    they end in the same store. *)
Theorem applied_order_irrelevant v v' l txs txs' l1 l2 :
  (∀ a s, l !! a = Some s → in_u64 (nonce s)) →
  Forall (λ tx, Wl.from tx ≠ Wl.to tx) txs → txs ≡ₚ txs' →
  run v l txs = (l1, length txs, 0) → run v' l txs' = (l2, length txs', 0) →
  l1 = l2.
Proof.
  intros Hok Hne Hp H1 H2. eapply (settled_unique l txs txs'); [|done|..].
  - intros a. unfold account. destruct (l !! a) as [s|] eqn:E; [by eapply Hok|by cbn].
  - by eapply applies_settled.
  - eapply applies_settled; [|exact H2]. by rewrite <- Hp.
Qed.

(** ** Generated workloads apply *)

Lemma applies_app v l txs txs' l' :
  applies v l (txs ++ txs') l' ↔ ∃ l1, applies v l txs l1 ∧ applies v l1 txs' l'.
Proof.
  revert l. induction txs as [|tx txs IH]; intros l; cbn [app].
  - split; [intros H; exists l; by rewrite applies_nil|].
    by intros (l1 & ->%applies_nil & H).
  - rewrite applies_cons. setoid_rewrite applies_cons. split.
    + intros (s & Hs & Hp & (l1 & H1 & H2)%IH). exists l1. eauto.
    + intros (l1 & (s & Hs & Hp & H1) & H2). exists s. rewrite IH. eauto.
Qed.

Lemma initial_balance_val : u256_val Wl.initial_balance = (10 ^ 21)%Z.
Proof. by apply u256_from_val. Qed.

(** Transfers of one wei move as many wei as there are transfers. *)
Lemma one_wei_sent a txs :
  Forall (λ tx, Wl.value tx = u256_from 1) txs →
  value_sent a txs = Z.of_nat (Wl.sent_from a txs) ∧
  value_received a txs = Z.of_nat (Wl.received_by a txs).
Proof.
  assert (u256_val (u256_from 1) = 1)%Z as H1 by by apply u256_from_val.
  unfold value_sent, value_received. induction 1 as [|tx txs Hv _ [IH1 IH2]]; [done|].
  cbn [sum_Z]. rewrite IH1, IH2, Wl.sent_from_cons, Wl.received_by_cons, Hv, H1.
  split; case_decide; lia.
Qed.

Lemma sent_from_length a txs : Wl.sent_from a txs ≤ length txs.
Proof. apply length_filter. Qed.
Lemma received_by_length a txs : Wl.received_by a txs ≤ length txs.
Proof. apply length_filter. Qed.

(** The state a funded account ends in. *)
Definition final_account a txs (s : AccountState) : Prop :=
  nonce s = Z.of_nat (Wl.sent_from a txs) ∧
  u256_val (balance s) =
    (10 ^ 21 - Z.of_nat (Wl.sent_from a txs) + Z.of_nat (Wl.received_by a txs))%Z.

Lemma settled_final l addrs txs l' a :
  Forall (λ tx, Wl.value tx = u256_from 1) txs → (Z.of_nat (length txs) < u64_modulus)%Z →
  settled (fund l addrs) txs l' → a ∈ addrs → ∃ s, l' !! a = Some s ∧ final_account a txs s.
Proof.
  intros Hv Hlen [Hd Hn Hb] Ha.
  assert (fund l addrs !! a = Some (AccountState_new 0 Wl.initial_balance)) as Hf
    by by rewrite fund_lookup, decide_True.
  destruct (proj2 (Hd a)) as [s Hs]; [left; rewrite Hf; eauto|]. exists s. split; [done|].
  specialize (Hn a). specialize (Hb a). unfold account in *. rewrite Hf, Hs in *. cbn -[Z.of_nat Z.pow] in *.
  destruct (one_wei_sent a txs Hv) as [E1 E2]. rewrite E1, E2, initial_balance_val in Hb.
  pose proof (sent_from_length a txs). pose proof (received_by_length a txs).
  split.
  - rewrite Hn by done. apply Z.mod_small. lia.
  - rewrite Hb. apply Z.mod_small. unfold u64_modulus, u256_modulus in *. lia.
Qed.

Lemma sequenced_one_wei addrs txs :
  WlSpec.sequenced addrs txs → NoDup addrs →
  Forall (λ tx, Wl.value tx = u256_from 1) txs ∧ Forall (λ tx, Wl.from tx ≠ Wl.to tx) txs ∧
  Forall (λ tx, Wl.from tx ∈ addrs ∧ Wl.to tx ∈ addrs) txs.
Proof.
  intros [_ Hs] Hnd. rewrite !Forall_lookup.
  split_and!; intros i tx Hi; destruct (Hs Hnd i tx Hi) as (? & ? & ? & ? & ?); by try split.
Qed.

Lemma signature_accepted v tx : Wl.verify tx = true → Exec.signature_rejected v tx = false.
Proof. rewrite Exec.signature_rejected_verify. intros ->. apply andb_false_r. Qed.

(** From any store in which the accounts are funded, in order, every
    transaction finds its nonce and enough balance. *)
Lemma sequenced_applies v l addrs txs :
  WlSpec.sequenced addrs txs → NoDup addrs → (Z.of_nat (length txs) < u64_modulus)%Z →
  ∃ l', applies v (fund l addrs) txs l'.
Proof.
  intros Hsq Hnd Hlen. destruct (sequenced_one_wei _ _ Hsq Hnd) as (Hv & Hne & _).
  assert (∀ i, i ≤ length txs → ∃ l', applies v (fund l addrs) (take i txs) l') as H.
  { induction i as [|i IH]; intros Hi; [exists (fund l addrs); by rewrite applies_nil|].
    destruct IH as [l' Hl']; [lia|]. destruct (lookup_lt_is_Some_2 txs i) as [tx Htx]; [lia|].
    destruct (WlSpec.sq_transfer _ _ Hsq Hnd i tx Htx) as (Hft & Hf & _ & Hval & Hnonce).
    destruct (settled_final l addrs (take i txs) l' (Wl.from tx)) as (s & Hs & Hsn & Hsb).
    { by apply Forall_take. }
    { rewrite length_take. lia. }
    { eapply applies_settled; [by apply Forall_take|exact Hl']. }
    { done. }
    exists (transfer l' tx).1. rewrite (take_S_r _ _ _ Htx), applies_app. exists l'. split; [done|].
    rewrite applies_cons. exists s. split_and!; [| |by apply applies_nil].
    - apply signature_accepted. by apply (proj1 (Forall_lookup _ _) (WlSpec.sq_verified _ _ Hsq) i).
    - apply payer_Some. split_and!; [done|by rewrite Hsn, Hnonce|].
      apply u256_lt_false_iff. rewrite Hval, Hsb, u256_from_val by done.
      pose proof (sent_from_length (Wl.from tx) (take i txs)). rewrite length_take in *.
      unfold u64_modulus in *. lia. }
  destruct (H (length txs)) as [l' Hl']; [done|]. rewrite firstn_all in Hl'. eauto.
Qed.

(** An account no transaction names keeps its state. *)
Lemma applies_untouched v l txs l' a :
  applies v l txs l' → Forall (λ tx, Wl.from tx ≠ a ∧ Wl.to tx ≠ a) txs → l' !! a = l !! a.
Proof.
  revert l. induction txs as [|tx txs IH]; intros l; [by intros ->%applies_nil|].
  intros (s & _ & Hp & H)%applies_cons [[Hf Ht] Hall]%Forall_cons.
  rewrite (IH _ H Hall). unfold transfer. rewrite Hp. cbn. by rewrite !lookup_insert_ne.
Qed.

(** The end of any complete run of the funded accounts. *)
Lemma applied_final v l addrs txs order l' :
  WlSpec.sequenced addrs txs → NoDup addrs → (Z.of_nat (length txs) < u64_modulus)%Z →
  order ≡ₚ txs → applies v (fund l addrs) order l' →
  (∀ a, a ∈ addrs → ∃ s, l' !! a = Some s ∧ final_account a txs s) ∧
  (∀ a, a ∉ addrs → l' !! a = l !! a).
Proof.
  intros Hsq Hnd Hlen Hp Ha. destruct (sequenced_one_wei _ _ Hsq Hnd) as (Hv & Hne & Hto).
  rewrite <- Hp in Hv, Hne, Hto. pose proof (applies_settled _ _ _ _ Hne Ha) as Hset. split.
  - intros a Hin. destruct (settled_final _ _ _ _ _ Hv ltac:(by rewrite Hp) Hset Hin) as (s & Hs & Hn & Hb).
    exists s. unfold final_account, Wl.sent_from, Wl.received_by in *. by rewrite Hp in Hn, Hb.
  - intros a Hin. rewrite (applies_untouched _ _ _ _ _ Ha).
    + by rewrite fund_lookup, decide_False.
    + eapply Forall_impl; [exact Hto|]. cbn. intros tx [Hf Ht]. split; by intros <-.
Qed.
End Spec.

(** ** Witness *)

Definition transfer_of (f t : Z) : Wl.SignedTransaction :=
  Wl.mkSigned (addr_of f) (addr_of t) (u256_of 5) 0 (Some (addr_of f)) (u256_of 0).

Definition order_1 : list Wl.SignedTransaction := [transfer_of 1 2; transfer_of 3 2].
Definition order_2 : list Wl.SignedTransaction := [transfer_of 3 2; transfer_of 1 2].

Definition funded_3 : gmap Address AccountState := fund ∅ [addr_of 1; addr_of 2; addr_of 3].

Definition all_applied (r : gmap Address AccountState * nat * nat) : bool :=
  (r.1.2 =? 2) && (r.2 =? 0).

Lemma all_applied_run l txs :
  all_applied (run true l txs) = true → run true l txs = ((run true l txs).1.1, 2, 0).
Proof.
  unfold all_applied. destruct (run true l txs) as [[l' s] f]. cbn.
  by intros [->%Nat.eqb_eq ->%Nat.eqb_eq]%andb_true_iff.
Qed.

Definition no_self (txs : list Wl.SignedTransaction) : bool :=
  bool_decide (Forall (λ tx, Wl.from tx ≠ Wl.to tx) txs).

Lemma applied_order_irrelevant_witness :
  (run true funded_3 order_1).1.1 = (run true funded_3 order_2).1.1.
Proof.
  apply (applied_order_irrelevant true true funded_3 order_1 order_2).
  - intros a s. unfold funded_3. rewrite fund_lookup, lookup_empty.
    case_decide; [intros [= <-]; by split|done].
  - assert (no_self order_1 = true) as H by by_compute. by apply bool_decide_eq_true in H.
  - apply perm_swap.
  - apply all_applied_run. by_compute.
  - apply all_applied_run. by_compute.
Defined.
End StoreSpec.
