(* ===== verification/StoreExecutor.v ===== *)
(** * The interface of the database executors

    What an executor on a persistent store promises for transfers between different
    accounts, whatever its library and its threads: its result and its final contents are those of the transactions of
    the workload applied in some order, the workload's own if it preserves order,
    and otherwise one in which nothing with a valid signature is refused.  The
    theorems about generated workloads are proved against this class. *)

From stdpp Require Import base option list gmap.
From Stdlib Require Import ZArith Lia.
From S2P Require Import Prelude Integers Externals Types Workload WorkloadSpec Executor.
From S2P Require Import Store StoreSpec.

Module StoreExec.
Import StoreSpec.

Section Class.
Context {A : Alloy} {K : Keys A}.

Definition rejected (v : bool) (txs : list Wl.SignedTransaction) : list Wl.SignedTransaction :=
  filter (λ tx, Exec.signature_rejected v tx = true) txs.

Class StoreExecutor (Self Database : Type) := {
  verifies : Self → bool;
  in_order : Self → bool;
  ready : Self → Prop;
  (** The executor may return with this database and result. *)
  returns : Self → Database → Wl.Workload → Database → Exec.ExecutionResult → Prop;
  holds : Database → gmap Address AccountState → Prop;
  (** What the set-up keeps of earlier contents. *)
  kept : gmap Address AccountState → gmap Address AccountState;
  store_returns : ∀ self db l w db' r,
    ready self → Exec.workload_ok w → Forall Store.proper_transfer (Wl.transactions w) →
    holds db l → returns self db w db' r →
    ∃ order l' s f,
      order ≡ₚ Wl.transactions w ∧
      Store.run (verifies self) (Store.fund (kept l) (Wl.addresses w)) order = (l', s, f) ∧
      holds db' l' ∧ r = Exec.mkResult (Z.of_nat s) (Z.of_nat f) ∧
      (if in_order self then order = Wl.transactions w
       else f = length (rejected (verifies self) order));
}.
End Class.

Section Client.
Context {A : Alloy} {AL : AlloyLaws A} {K : Keys A} {R : Rand} {KL : KeysLaws A K} {RL : RandLaws R}.

Lemma rejected_verified v txs : Forall (λ tx, Wl.verify tx = true) txs → rejected v txs = [].
Proof.
  induction 1 as [|tx txs Hv _ IH]; [done|]. unfold rejected in *. rewrite filter_cons, IH.
  by rewrite (signature_accepted v tx Hv).
Qed.

(** What the theorems ask of a workload. *)
Record generated (w : Wl.Workload) : Prop := {
  gw_fits : (Z.of_nat (length (Wl.transactions w)) < u64_modulus)%Z;
  gw_distinct : NoDup (Wl.addresses w);
  gw_sequenced : WlSpec.sequenced (Wl.addresses w) (Wl.transactions w);
  gw_blocks : List.concat (Wl.blocks w) = Wl.transactions w;
}.

Lemma generate_generated fuel config w :
  Wl.generate fuel config = Return w → (Z.of_nat (Wl.num_transactions config) < u64_modulus)%Z →
  NoDup (Wl.addresses w) → generated w.
Proof.
  intros Hg Hn Hnd. destruct (WlSpec.generate_sequenced _ _ _ Hg Hn) as (_ & Hlen & Hsq).
  split; [by rewrite Hlen|done|done|by eapply WlSpec.generate_concat].
Qed.

Lemma generated_ok w : generated w → Exec.workload_ok w.
Proof. by intros []. Qed.

Lemma generated_proper w : generated w → Forall Store.proper_transfer (Wl.transactions w).
Proof.
  intros [Hlen Hnd Hsq _]. apply Forall_lookup. intros i tx Hi.
  destruct (WlSpec.sq_transfer _ _ Hsq Hnd i tx Hi) as (Hne & _ & _ & _ & Hn). split; [done|]. rewrite Hn.
  pose proof (sent_from_length (Wl.from tx) (take i (Wl.transactions w))) as Hs.
  rewrite length_take in Hs. apply lookup_lt_Some in Hi. lia.
Qed.

(** A generated workload applies completely, in order or not. *)
Lemma returns_applies {Self Database} {S : StoreExecutor Self Database} self db l w db' r :
  ready self → generated w → holds db l → returns self db w db' r →
  r = Exec.mkResult (Z.of_nat (length (Wl.transactions w))) 0 ∧
  ∃ order l', order ≡ₚ Wl.transactions w ∧ holds db' l' ∧
    applies (verifies self) (Store.fund (kept l) (Wl.addresses w)) order l'.
Proof.
  intros Hrd Hw Hh Hr. pose proof (generated_ok w Hw) as Hok.
  destruct (store_returns _ _ _ _ _ _ Hrd Hok (generated_proper w Hw) Hh Hr) as (order & l' & s & f & Hp & Hrun & Hh' & -> & Hord).
  destruct Hw as [Hlen Hnd Hsq _].
  pose proof (Store.run_counts (verifies self) (Store.fund (kept l) (Wl.addresses w)) order) as Hc.
  rewrite Hrun in Hc.
  assert (s = length order ∧ f = 0) as [-> ->].
  { destruct (in_order self).
    - subst order.
      destruct (sequenced_applies (verifies self) (kept l) _ _ Hsq Hnd Hlen) as [l1 H1].
      unfold applies in H1. rewrite Hrun in H1. by simplify_eq.
    - rewrite rejected_verified in Hord; [cbn in Hord; lia|].
      rewrite Hp. apply (WlSpec.sq_verified _ _ Hsq). }
  split; [by rewrite Hp|]. by exists order, l'.
Qed.

(** C9: end to end, behind the interface.  Whenever any database executor
    returns from a generated workload with distinct addresses, it reports every
    transaction successful and none failed, and every account of the workload
    has sent its count of transactions and owns its initial balance plus the wei
    it received minus the wei it sent; other accounts are as the set-up left
    them. *)
Theorem generated_workload_result {Self Database} {S : StoreExecutor Self Database}
    fuel config w self db l db' r :
  Wl.generate fuel config = Return w → (Z.of_nat (Wl.num_transactions config) < u64_modulus)%Z →
  NoDup (Wl.addresses w) →
  ready self → holds db l → returns self db w db' r →
  r = Exec.mkResult (Z.of_nat (Wl.num_transactions config)) 0 ∧
  ∃ l', holds db' l' ∧
    (∀ a, a ∈ Wl.addresses w → ∃ s, l' !! a = Some s ∧
       nonce s = Z.of_nat (Wl.sent_from a (Wl.transactions w)) ∧
       u256_val (balance s) =
         (10 ^ 21 - Z.of_nat (Wl.sent_from a (Wl.transactions w))
            + Z.of_nat (Wl.received_by a (Wl.transactions w)))%Z) ∧
    (∀ a, a ∉ Wl.addresses w → l' !! a = kept l !! a).
Proof.
  intros Hg Hn Hnd Hrd Hh Hr. pose proof (generate_generated _ _ _ Hg Hn Hnd) as Hw.
  destruct (WlSpec.generate_sequenced _ _ _ Hg Hn) as (_ & <- & _).
  destruct (returns_applies self db l w db' r Hrd Hw Hh Hr) as (-> & order & l' & Hp & Hh' & Ha).
  split; [done|]. exists l'. split; [done|]. destruct Hw as [Hlen _ Hsq _].
  exact (applied_final _ _ _ _ _ _ Hsq Hnd Hlen Hp Ha).
Qed.

(** All executors behind the interface agree.  Two of them, of any kind,
    with any number of threads, that return from the same generated workload on
    databases that held the same accounts report the same result and hold the
    same accounts, if their set-ups keep the same of what was there. *)
Theorem generated_workload_agree {S1 D1 S2 D2}
    {E1 : StoreExecutor S1 D1} {E2 : StoreExecutor S2 D2}
    w (self1 : S1) (self2 : S2) (db1 db1' : D1) (db2 db2' : D2) l r1 r2 :
  generated w → (∀ a s, kept (Self := S1) l !! a = Some s → in_u64 (nonce s)) →
  kept (Self := S1) l = kept (Self := S2) l →
  ready self1 → holds db1 l → returns self1 db1 w db1' r1 →
  ready self2 → holds db2 l → returns self2 db2 w db2' r2 →
  r1 = r2 ∧ ∃ l', holds db1' l' ∧ holds db2' l'.
Proof.
  intros Hw Hk Hkept Hrd1 Hh1 Hr1 Hrd2 Hh2 Hr2.
  destruct (returns_applies self1 _ _ _ _ _ Hrd1 Hw Hh1 Hr1) as (-> & o1 & l1 & Hp1 & Hh1' & Ha1).
  destruct (returns_applies self2 _ _ _ _ _ Hrd2 Hw Hh2 Hr2) as (-> & o2 & l2 & Hp2 & Hh2' & Ha2).
  split; [done|]. exists l1. split; [done|]. replace l1 with l2; [done|]. symmetry.
  destruct Hw as [_ Hnd Hsq _]. destruct (sequenced_one_wei _ _ Hsq Hnd) as (_ & Hne & _).
  rewrite <- Hkept in Ha2. eapply (settled_unique (Store.fund (kept (Self := S1) l) (Wl.addresses w)) o1 o2).
  - intros a. unfold account. rewrite Store.fund_lookup. case_decide; [by cbn|].
    destruct (kept (Self := S1) l !! a) as [s|] eqn:E; [exact (Hk a s E)|by cbn].
  - by rewrite Hp1, Hp2.
  - eapply applies_settled; [|exact Ha1]. by rewrite Hp1.
  - eapply applies_settled; [|exact Ha2]. by rewrite Hp2.
Qed.
End Client.
End StoreExec.
