(* ===== verification/Mdbx.v ===== *)
(** * src/executor/mdbx.rs

    The MDBX database wrapper and the sequential executor on it.  reth-db is a
    library: its transactions are a class of operations, each of which may fail.
    The executor runs in a state and error monad over the environment; [?]
    returns early, with the environment as it is then. *)

From Stdlib Require Import String.
From stdpp Require Import base option list gmap.
From Stdlib Require Import ZArith Lia.
From S2P Require Import Prelude Integers Externals Types Workload Executor.

Module Mdbx.

Section Lib.
Context {A : Alloy}.

(** [reth_primitives_traits::Account] *)
Record Account : Set := mkAccount {
  acc_nonce : Z;
  acc_balance : U256;
  bytecode_hash : option B256;
}.

(** The accounts table of reth-db's MDBX environment: read and write
    transactions; a result [inl] is an error of the library. *)
Class MdbxLib := {
  DatabaseEnv : Type;
  RoTxn : Type;
  RwTxn : Type;
  DatabaseError : Type;
  env_tx : DatabaseEnv → DatabaseError + RoTxn;
  ro_get : RoTxn → B256 → DatabaseError + option Account;
  env_tx_mut : DatabaseEnv → DatabaseError + RwTxn;
  rw_put : RwTxn → B256 → Account → DatabaseError + RwTxn;
  rw_commit : RwTxn → DatabaseError + DatabaseEnv;
}.

(** A read transaction sees the committed table; a write transaction starts from
    it and becomes visible as a whole when it commits. *)
Class MdbxLaws (L : MdbxLib) := {
  contents : DatabaseEnv → gmap B256 Account;
  ro_contents : RoTxn → gmap B256 Account;
  rw_contents : RwTxn → gmap B256 Account;
  env_tx_ok : ∀ env t, env_tx env = inr t → ro_contents t = contents env;
  ro_get_ok : ∀ t k o, ro_get t k = inr o → o = ro_contents t !! k;
  env_tx_mut_ok : ∀ env t, env_tx_mut env = inr t → rw_contents t = contents env;
  rw_put_ok : ∀ t k a t', rw_put t k a = inr t' → rw_contents t' = <[k := a]> (rw_contents t);
  rw_commit_ok : ∀ t env, rw_commit t = inr env → contents env = rw_contents t;
}.

(** No operation fails. *)
Class MdbxReliable (L : MdbxLib) : Prop := {
  env_tx_total : ∀ env, ∃ t, env_tx env = inr t;
  ro_get_total : ∀ t k, ∃ o, ro_get t k = inr o;
  env_tx_mut_total : ∀ env, ∃ t, env_tx_mut env = inr t;
  rw_put_total : ∀ t k a, ∃ t', rw_put t k a = inr t';
  rw_commit_total : ∀ t, ∃ env, rw_commit t = inr env;
}.
End Lib.

(** [Result] in the library's own calls. *)
#[export] Instance sum_ret {E} : MRet (sum E) := λ T x, inr x.
#[export] Instance sum_bind {E} : MBind (sum E) := λ T U f o,
  match o with inl e => inl e | inr x => f x end.

Section Mdbx.
Context {A : Alloy} {K : Keys A} {L : MdbxLib}.

(** A method of the executor: it may change the environment and fail. *)
Definition M (T : Type) : Type := DatabaseEnv → (DatabaseError + T) * DatabaseEnv.

#[global] Instance M_ret : MRet M := λ T x env, (inr x, env).
#[global] Instance M_bind : MBind M := λ T U f m env,
  match m env with
  | (inl e, env) => (inl e, env)
  | (inr x, env) => f x env
  end.

Definition hashed_address (address : Address) : B256 := keccak256 (address_as_slice address).

Definition get_account (address : Address) : M (option Account) := λ env,
  (tx ← env_tx env; ro_get tx (hashed_address address), env).

(** [tx_mut], the puts, [commit]; a transaction that fails is dropped. *)
Definition write_txn (puts : RwTxn → DatabaseError + RwTxn) : M unit := λ env,
  match tx ← env_tx_mut env; tx ← puts tx; rw_commit tx with
  | inl e => (inl e, env)
  | inr env' => (inr tt, env')
  end.

Definition set_account (address : Address) (account : Account) : M unit :=
  write_txn (λ tx, rw_put tx (hashed_address address) account).

(** The puts of a [for] loop over addresses and accounts. *)
Fixpoint put_all (accounts : list (Address * Account)) (tx : RwTxn) : DatabaseError + RwTxn :=
  match accounts with
  | [] => inr tx
  | (address, account) :: accounts =>
      tx ← rw_put tx (hashed_address address) account; put_all accounts tx
  end.

Definition init_accounts (accounts : list (Address * U256)) : M unit :=
  write_txn (put_all ((λ '(address, balance), (address, mkAccount 0 balance None)) <$> accounts)).

Record MdbxSequentialExecutor : Set := mkMdbx { verify_signatures : bool }.

Definition empty_account : Account := mkAccount 0 u256_zero None.

Definition debit (tx : Wl.SignedTransaction) (sender : Account) : Account :=
  mkAccount (u64_add (acc_nonce sender) 1) (u256_sub (acc_balance sender) (Wl.value tx))
    (bytecode_hash sender).

Definition credit (tx : Wl.SignedTransaction) (receiver : Account) : Account :=
  mkAccount (acc_nonce receiver) (u256_add (acc_balance receiver) (Wl.value tx))
    (bytecode_hash receiver).

(** The nonce and balance checks. *)
Definition refused (tx : Wl.SignedTransaction) (sender : Account) : bool :=
  negb (acc_nonce sender =? Wl.tx_nonce tx)%Z || u256_lt (acc_balance sender) (Wl.value tx).

(** The body of the loop: [true] counts as successful, [false] as failed. *)
Definition execute_tx (self : MdbxSequentialExecutor) (tx : Wl.SignedTransaction) : M bool :=
  if Exec.signature_rejected (verify_signatures self) tx then mret false
  else
    sender ← get_account (Wl.from tx);
    match sender with
    | None => mret false
    | Some sender =>
        if refused tx sender then mret false
        else
          receiver ← get_account (Wl.to tx);
          let receiver := default empty_account receiver in
          set_account (Wl.from tx) (debit tx sender);;
          set_account (Wl.to tx) (credit tx receiver);;
          mret true
    end.

Fixpoint execute_txs (self : MdbxSequentialExecutor) (txs : list Wl.SignedTransaction)
    (successful failed : nat) : M (nat * nat) :=
  match txs with
  | [] => mret (successful, failed)
  | tx :: txs =>
      ok ← execute_tx self tx;
      if ok : bool then execute_txs self txs (successful + 1) failed
      else execute_txs self txs successful (failed + 1)
  end.

(** The accounts of a workload, each with the initial balance. *)
Definition funded (workload : Wl.Workload) : list (Address * U256) :=
  (λ acc, (Wl.acc_address acc, Wl.initial_balance)) <$> Wl.accounts workload.

Definition execute_workload (self : MdbxSequentialExecutor) (workload : Wl.Workload)
    : M (Exec.ExecutionResult * unit) :=
  init_accounts (funded workload);;
  '(successful, failed) ← execute_txs self (Wl.transactions workload) 0 0;
  mret (Exec.ExecutionResult_new (Z.of_nat successful) (Z.of_nat failed), tt).

Definition preserves_order (self : MdbxSequentialExecutor) : bool := true.
Definition name (self : MdbxSequentialExecutor) : string := "mdbx_sequential".
End Mdbx.

(** ** An environment in memory

    [fuel_env] commits a given number of times and then fails, as a full disk
    does; [memory_env] never fails. *)

Section Instances.
Context {A : Alloy}.

Definition memory_env : MdbxLib := {|
  DatabaseEnv := gmap B256 Account;
  RoTxn := gmap B256 Account;
  RwTxn := gmap B256 Account;
  DatabaseError := unit;
  env_tx env := inr env;
  ro_get t k := inr (t !! k);
  env_tx_mut env := inr env;
  rw_put t k a := inr (<[k := a]> t);
  rw_commit t := inr t;
|}.

#[global] Program Instance memory_env_laws : MdbxLaws memory_env := {|
  contents env := env;
  ro_contents t := t;
  rw_contents t := t;
|}.
Solve Obligations with cbn; congruence.

#[global] Instance memory_env_reliable : MdbxReliable memory_env.
Proof. split; cbn; eauto. Qed.

Definition fuel_env : MdbxLib := {|
  DatabaseEnv := gmap B256 Account * nat;
  RoTxn := gmap B256 Account;
  RwTxn := gmap B256 Account * nat;
  DatabaseError := unit;
  env_tx env := inr env.1;
  ro_get t k := inr (t !! k);
  env_tx_mut env := inr env;
  rw_put t k a := inr (<[k := a]> t.1, t.2);
  rw_commit t := match t.2 with O => inl tt | S n => inr (t.1, n) end;
|}.

#[global] Program Instance fuel_env_laws : MdbxLaws fuel_env := {|
  contents env := env.1;
  ro_contents t := t;
  rw_contents t := t.1;
|}.
Solve Obligations with cbn; intros; repeat case_match; by simplify_eq/=.
End Instances.
End Mdbx.
