(* ===== verification/MdbxSpec.v ===== *)
(** * The MDBX executors implement the store

    The representation of a store in the hashed accounts table, the effect of
    the wrapper's operations on it, and the refinement theorem of the sequential
    executor, for a hash without collisions on addresses.  A commit that fails
    between the two writes of a transfer leaves half of it behind. *)

From stdpp Require Import base option list gmap.
From Stdlib Require Import ZArith Lia.
From S2P Require Import Prelude Integers Externals Types Workload Executor Store Mdbx.

Module MdbxSpec.
Import Mdbx.
#[local] Arguments get_account : simpl never.
#[local] Arguments set_account : simpl never.

Section Spec.
Context {A : Alloy} {K : Keys A} {L : MdbxLib} {LL : MdbxLaws L}.
Context (hash_inj : Inj (=) (=) hashed_address).
Implicit Types (env : DatabaseEnv) (l : gmap Address AccountState) (a : Address)
  (tx : Wl.SignedTransaction).

Definition to_account (s : AccountState) : Account := mkAccount (nonce s) (balance s) None.

(** The table holds exactly the store, as far as addresses go. *)
Definition repr env l : Prop := ∀ a, contents env !! hashed_address a = to_account <$> l !! a.

Lemma M_bind_inr {T U} (m : M T) (g : T → M U) env y env' :
  (m ≫= g) env = (inr y, env') → ∃ x env1, m env = (inr x, env1) ∧ g x env1 = (inr y, env').
Proof. unfold mbind, M_bind. destruct (m env) as [[e|x] env1]; [done|]. eauto. Qed.

(** ** The wrapper's operations *)

Lemma get_account_spec env env' a o :
  get_account a env = (inr o, env') → env' = env ∧ o = contents env !! hashed_address a.
Proof.
  unfold get_account. cbn. destruct (env_tx env) as [e|t] eqn:Et; cbn; [done|].
  intros [= Hg <-]. split; [done|]. by rewrite (ro_get_ok _ _ _ Hg), (env_tx_ok _ _ Et).
Qed.

Lemma get_account_error env env' a e : get_account a env = (inl e, env') → env' = env.
Proof. intros H. by apply (f_equal snd) in H. Qed.

(** A write transaction: on success the puts were made on the environment's
    table and all of them are visible; on failure none is. *)
Lemma write_txn_spec puts env res env' :
  write_txn puts env = (res, env') →
  match res with
  | inr _ => ∃ t t', rw_contents t = contents env ∧ puts t = inr t' ∧
               contents env' = rw_contents t'
  | inl _ => env' = env
  end.
Proof.
  unfold write_txn. cbn. destruct (env_tx_mut env) as [e|t] eqn:Et; cbn; [by intros [= <- <-]|].
  destruct (puts t) as [e|t'] eqn:Ep; cbn; [by intros [= <- <-]|].
  destruct (rw_commit t') as [e|env1] eqn:Ec; cbn; intros [= <- <-]; [done|].
  exists t, t'. split_and!; [by apply env_tx_mut_ok|done|by apply rw_commit_ok].
Qed.

(** The table after putting a list of accounts. *)
Definition put_table (accounts : list (Address * Account)) (m : gmap B256 Account) : gmap B256 Account :=
  foldl (λ m p, <[hashed_address p.1 := p.2]> m) m accounts.

Lemma put_all_contents accounts t t' :
  put_all accounts t = inr t' → rw_contents t' = put_table accounts (rw_contents t).
Proof.
  revert t. induction accounts as [|[a acc] accounts IH]; intros t; cbn; [by intros [= <-]|].
  destruct (rw_put t (hashed_address a) acc) as [e|t1] eqn:Ep; cbn; [done|].
  intros H. rewrite (IH _ H). by rewrite (rw_put_ok _ _ _ _ Ep).
Qed.

(** The last put of an address wins, and other hashes keep their account. *)
Lemma put_table_lookup accounts m a :
  put_table accounts m !! hashed_address a =
  match last (filter (λ p, p.1 = a) accounts) with
  | Some p => Some p.2
  | None => m !! hashed_address a
  end.
Proof.
  revert m. induction accounts as [|[b acc] accounts IH] using rev_ind; intros m; [done|].
  unfold put_table. rewrite foldl_snoc. fold (put_table accounts m). cbn.
  rewrite filter_app, filter_cons. cbn. case_decide as Hb; subst; cbn.
  - by rewrite lookup_insert_eq, last_snoc.
  - rewrite lookup_insert_ne by (intros Heq; apply Hb; by apply hash_inj).
    by rewrite app_nil_r, IH.
Qed.

Lemma set_account_spec env env' l a s :
  repr env l → set_account a (to_account s) env = (inr tt, env') → repr env' (<[a := s]> l).
Proof.
  intros Hr (t & t' & Ht & Hp & Hc)%write_txn_spec b.
  rewrite Hc, (rw_put_ok _ _ _ _ Hp), Ht. destruct (decide (a = b)) as [<-|Hne].
  - by rewrite !lookup_insert_eq.
  - rewrite !lookup_insert_ne; [apply Hr|done|]. intros Heq. apply Hne. by apply hash_inj.
Qed.

Lemma set_account_error env env' a acc e :
  set_account a acc env = (inl e, env') → env' = env.
Proof. apply write_txn_spec. Qed.

Lemma put_table_fund (addrs : list Address) m l :
  (∀ a, m !! hashed_address a = to_account <$> l !! a) →
  ∀ a, put_table ((λ b, (b, mkAccount 0 Wl.initial_balance None)) <$> addrs) m !! hashed_address a =
       to_account <$> Store.fund l addrs !! a.
Proof.
  revert m l. induction addrs as [|b addrs IH]; intros m l Hm; [done|]. cbn.
  apply IH. intros a. destruct (decide (b = a)) as [->|Hne].
  - by rewrite !lookup_insert_eq.
  - rewrite !lookup_insert_ne; [apply Hm|done|]. intros Heq. apply Hne. by apply hash_inj.
Qed.

Lemma funded_accounts w :
  (λ '(address, balance), (address, mkAccount 0 balance None)) <$> funded w =
  (λ b, (b, mkAccount 0 Wl.initial_balance None)) <$> Wl.addresses w.
Proof. unfold funded, Wl.addresses. induction (Wl.accounts w) as [|acc l IH]; cbn; congruence. Qed.

Lemma init_accounts_spec env env' l w :
  repr env l → init_accounts (funded w) env = (inr tt, env') →
  repr env' (Store.fund l (Wl.addresses w)).
Proof.
  intros Hr (t & t' & Ht & Hp & Hc)%write_txn_spec a.
  rewrite Hc, (put_all_contents _ _ _ Hp), Ht, funded_accounts. by apply put_table_fund.
Qed.

(** ** One transaction *)

Lemma debit_to_account tx s : debit tx (to_account s) = to_account (Store.sender_after tx s).
Proof. done. Qed.
Lemma credit_to_account tx r : credit tx (to_account r) = to_account (Store.receiver_after tx r).
Proof. done. Qed.

Lemma default_to_account o : default empty_account (to_account <$> o) = to_account (default Store.absent o).
Proof. by destruct o. Qed.

(** The checks are the store's. *)
Lemma refused_payer l tx s :
  l !! Wl.from tx = Some s →
  Store.payer l tx = if refused tx (to_account s) then None else Some s.
Proof.
  intros Hs. unfold Store.payer, refused. rewrite Hs. cbn.
  destruct (nonce s =? Wl.tx_nonce tx)%Z; cbn; [|done]. by destruct (u256_lt _ _).
Qed.

Lemma execute_tx_spec self env env' l tx ok :
  repr env l → execute_tx self tx env = (inr ok, env') →
  ∃ l', Store.apply (verify_signatures self) l tx = (l', ok) ∧ repr env' l'.
Proof.
  intros Hr. unfold execute_tx, Store.apply.
  destruct (Exec.signature_rejected _ tx); [intros [= <- <-]; eauto|].
  intros (o & env1 & [-> ->]%get_account_spec & H)%M_bind_inr. rewrite Hr in H.
  unfold Store.transfer. destruct (l !! Wl.from tx) as [s|] eqn:Hs; cbn in H.
  2:{ injection H as <- <-. unfold Store.payer. rewrite Hs. cbn. eauto. }
  rewrite (refused_payer _ _ _ Hs).
  destruct (refused tx (to_account s)); [injection H as <- <-; eauto|].
  apply M_bind_inr in H as (o & env1 & [-> ->]%get_account_spec & H).
  rewrite Hr, default_to_account, debit_to_account, credit_to_account in H.
  apply M_bind_inr in H as ([] & env1 & H1 & H). apply (set_account_spec _ _ _ _ _ Hr) in H1.
  apply M_bind_inr in H as ([] & env2 & H2 & H). apply (set_account_spec _ _ _ _ _ H1) in H2.
  injection H as <- <-. eauto.
Qed.

Lemma execute_txs_spec self env env' l txs s f s' f' :
  repr env l → execute_txs self txs s f env = (inr (s', f'), env') →
  ∃ l' s1 f1, Store.run (verify_signatures self) l txs = (l', s1, f1) ∧ repr env' l' ∧
    s' = s + s1 ∧ f' = f + f1.
Proof.
  revert env l s f. induction txs as [|tx txs IH]; intros env l s f Hr.
  { cbn. intros [= <- <- <-]. exists l, 0, 0. split_and!; [done..|lia|lia]. }
  cbn [execute_txs]. intros (ok & env1 & E & H)%M_bind_inr.
  destruct (execute_tx_spec _ _ _ _ _ _ Hr E) as (l1 & Ha & Hr1).
  cbn [Store.run]. rewrite Ha.
  assert (execute_txs self txs (s + Nat.b2n ok) (f + Nat.b2n (negb ok)) env1 = (inr (s', f'), env'))
    as H'. { destruct ok; cbn; rewrite ?Nat.add_0_r; exact H. }
  destruct (IH _ _ _ _ Hr1 H') as (l2 & s1 & f1 & -> & Hr2 & -> & ->).
  eexists _, _, _. split_and!; [done|done|lia|lia].
Qed.

(** ** No error, no early return *)

Definition never_fails {T} (m : M T) : Prop := ∀ env, ∃ x env', m env = (inr x, env').

Lemma never_fails_bind {T U} (m : M T) (g : T → M U) :
  never_fails m → (∀ x, never_fails (g x)) → never_fails (m ≫= g).
Proof.
  intros Hm Hg env. destruct (Hm env) as (x & env1 & E). unfold mbind, M_bind. rewrite E. apply Hg.
Qed.

Lemma never_fails_ret {T} (x : T) : never_fails (mret x).
Proof. intros env. by exists x, env. Qed.

Section Reliable.
Context {LR : MdbxReliable L}.

Lemma put_all_total accounts t : ∃ t', put_all accounts t = inr t'.
Proof.
  revert t. induction accounts as [|[a acc] accounts IH]; intros t; cbn; [eauto|].
  destruct (rw_put_total t (hashed_address a) acc) as [t' ->]. apply IH.
Qed.

Lemma write_txn_total puts : (∀ t, ∃ t', puts t = inr t') → never_fails (write_txn puts).
Proof.
  intros Hp env. unfold write_txn. destruct (env_tx_mut_total env) as [t ->]. cbn.
  destruct (Hp t) as [t' ->]. cbn. destruct (rw_commit_total t') as [env' ->]. eauto.
Qed.

Lemma get_account_total a : never_fails (get_account a).
Proof.
  intros env. unfold get_account. destruct (env_tx_total env) as [t ->]. cbn.
  destruct (ro_get_total t (hashed_address a)) as [o ->]. eauto.
Qed.

Lemma set_account_total a acc : never_fails (set_account a acc).
Proof. apply write_txn_total. intros t. apply rw_put_total. Qed.

Hint Resolve never_fails_ret set_account_total get_account_total : core.

Lemma execute_tx_total self tx : never_fails (execute_tx self tx).
Proof.
  unfold execute_tx. destruct (Exec.signature_rejected _ tx); [auto|].
  apply never_fails_bind; [auto|]. intros [s|]; [|auto]. destruct (refused tx s); [auto|].
  apply never_fails_bind; [auto|]. intros r.
  apply never_fails_bind; [auto|]. intros _. by apply never_fails_bind; auto.
Qed.

Lemma execute_txs_total self txs s f : never_fails (execute_txs self txs s f).
Proof.
  revert s f. induction txs as [|tx txs IH]; intros s f; cbn; [apply never_fails_ret|].
  apply never_fails_bind; [apply execute_tx_total|]. by intros [].
Qed.

Lemma execute_workload_total self w : never_fails (execute_workload self w).
Proof.
  apply never_fails_bind; [apply write_txn_total, put_all_total|]. intros _.
  apply never_fails_bind; [apply execute_txs_total|]. intros [s f]. apply never_fails_ret.
Qed.
End Reliable.

(** Without a database error the workload has been applied in order. *)
Lemma execute_workload_store self w env l r env' :
  repr env l → execute_workload self w env = (inr (r, tt), env') →
  ∃ l' s f, Store.run (verify_signatures self) (Store.fund l (Wl.addresses w)) (Wl.transactions w) = (l', s, f) ∧
    repr env' l' ∧ r = Exec.mkResult (Z.of_nat s) (Z.of_nat f).
Proof.
  intros Hr. unfold execute_workload.
  intros ([] & env1 & Ei & ([s f] & env2 & Ex & [= <- <-])%M_bind_inr)%M_bind_inr.
  pose proof (init_accounts_spec _ _ _ _ Hr Ei) as Hr1.
  destruct (execute_txs_spec _ _ _ _ _ _ _ _ _ Hr1 Ex) as (l' & s1 & f1 & Hrun & Hr2 & -> & ->).
  by exists l', s1, f1.
Qed.

(** C14: the MDBX sequential executor implements the store.  From a table that
    represents a store, whenever [execute_workload] returns without a database
    error, the table represents the store with the workload's accounts funded
    and its transactions applied in order, and the result counts the applied and
    the refused ones; and it does return without error when no database
    operation fails. *)
Theorem mdbx_refines_store self w env l :
  repr env l →
  (∀ r env', execute_workload self w env = (inr (r, tt), env') →
    let '(l', s, f) := Store.run (verify_signatures self) (Store.fund l (Wl.addresses w)) (Wl.transactions w) in
    repr env' l' ∧ r = Exec.mkResult (Z.of_nat s) (Z.of_nat f)) ∧
  (MdbxReliable L → ∃ r env', execute_workload self w env = (inr (r, tt), env')).
Proof.
  intros Hr. split.
  - intros r env' H. by destruct (execute_workload_store _ _ _ _ _ _ Hr H) as (l' & s & f & -> & ? & ?).
  - intros HR. destruct (execute_workload_total self w env) as ([r []] & env' & H). eauto.
Qed.

(** C37: what a database error in the middle of a transaction leaves behind.  The
    table either still represents the store, or represents it with the sender
    debited and the receiver not credited: never anything else. *)
Theorem mdbx_error_state self env env' l tx e :
  repr env l → execute_tx self tx env = (inl e, env') →
  repr env' l ∨
  ∃ s, Store.payer l tx = Some s ∧ repr env' (<[Wl.from tx := Store.sender_after tx s]> l).
Proof.
  intros Hr. unfold execute_tx. destruct (Exec.signature_rejected _ tx); [done|].
  unfold mbind, M_bind.
  destruct (get_account (Wl.from tx) env) as [[e'|o] env1] eqn:Eg.
  { intros [= <- <-]. left. by rewrite (get_account_error _ _ _ _ Eg). }
  apply get_account_spec in Eg as [-> ->]. rewrite Hr.
  destruct (l !! Wl.from tx) as [s|] eqn:Hs; cbn; [|done].
  pose proof (refused_payer _ _ _ Hs) as Hp. destruct (refused tx (to_account s)); [done|].
  destruct (get_account (Wl.to tx) env) as [[e'|o] env2] eqn:Eg2.
  { intros [= <- <-]. left. by rewrite (get_account_error _ _ _ _ Eg2). }
  apply get_account_spec in Eg2 as [-> ->]. rewrite debit_to_account.
  destruct (set_account (Wl.from tx) _ env) as [[e'|[]] env3] eqn:E1.
  { intros [= <- <-]. left. by rewrite (set_account_error _ _ _ _ _ E1). }
  apply (set_account_spec _ _ _ _ _ Hr) in E1.
  destruct (set_account (Wl.to tx) _ env3) as [[e'|[]] env4] eqn:E2; [|done].
  intros [= <- <-]. right. exists s. split; [done|]. by rewrite (set_account_error _ _ _ _ _ E2).
Qed.
End Spec.

(** ** Concrete runs *)

Definition x1 : Address := addr_of 1.
Definition x2 : Address := addr_of 2.

Lemma hash_inj_uint : Inj (=) (=) hashed_address.
Proof.
  intros x y. unfold hashed_address. apply keccak_slice_uint_inj.
Qed.

Definition transfer_1_2 : Wl.SignedTransaction :=
  Wl.mkSigned x1 x2 (u256_of 1) 0 (Some x1) (u256_of 0).

(** Accounts 1 and 2, and one transfer of one wei from 1 to 2. *)
Definition workload_1_2 : Wl.Workload :=
  Wl.mkWorkload [Wl.mkAccount x1 x1; Wl.mkAccount x2 x2] [transfer_1_2] [[transfer_1_2]]
    (Wl.mkWorkloadConfig 2 1 2 0 1 1).

Definition executor : MdbxSequentialExecutor := mkMdbx true.

Definition balance_at (m : gmap B256 Account) (a : Address) : Z :=
  default 0%Z (u256_val ∘ acc_balance <$> m !! hashed_address a).

Definition failed_with (r : (unit + Exec.ExecutionResult * unit) * (gmap B256 Account * nat))
    (b1 b2 : Z) : bool :=
  match r.1 with inl _ => true | inr _ => false end &&
  ((balance_at r.2.1 x1 =? b1)%Z && (balance_at r.2.1 x2 =? b2)%Z).

(** A transfer is not atomic.  On an environment whose third commit fails
    (after funding the accounts and writing the sender), [execute_workload]
    returns an error with one wei debited from account 1 and credited to nobody:
    the two [set_account] calls commit separately. *)
Theorem mdbx_transfer_not_atomic :
  ∃ e env', execute_workload (L := fuel_env) executor workload_1_2 (∅, 2) = (inl e, env') ∧
    balance_at env'.1 x1 = (10 ^ 21 - 1)%Z ∧ balance_at env'.1 x2 = (10 ^ 21)%Z.
Proof.
  assert (failed_with (execute_workload (L := fuel_env) executor workload_1_2 (∅, 2))
    (10 ^ 21 - 1) (10 ^ 21) = true) as H by by_compute.
  destruct (execute_workload (L := fuel_env) executor workload_1_2 (∅, 2)) as [[e|r] env']; [|discriminate H].
  exists e, env'. unfold failed_with in H. cbn [fst snd] in H.
  apply andb_true_iff in H as [_ H]. apply andb_true_iff in H as [H1%Z.eqb_eq H2%Z.eqb_eq]. done.
Qed.

Lemma repr_empty : repr (L := memory_env) ∅ ∅.
Proof. intros a. cbn. by rewrite !lookup_empty. Qed.

Lemma mdbx_refines_store_witness :
  ∃ r env', execute_workload (L := memory_env) executor workload_1_2 ∅ = (inr (r, tt), env') ∧
    repr env' (Store.run true (Store.fund ∅ (Wl.addresses workload_1_2)) [transfer_1_2]).1.1.
Proof.
  destruct (mdbx_refines_store (L := memory_env) hash_inj_uint executor workload_1_2 ∅ ∅ repr_empty)
    as [Hspec Htotal].
  destruct (Htotal memory_env_reliable) as (r & env' & H). exists r, env'. split; [done|].
  specialize (Hspec r env' H). cbn [Wl.transactions workload_1_2 verify_signatures executor] in Hspec.
  destruct (Store.run true _ _) as [[l' s] f]. apply Hspec.
Defined.

(** The same environment, funded, with one commit left. *)
Definition funded_env : gmap B256 Account * nat :=
  ((init_accounts (L := fuel_env) (funded workload_1_2) (∅, 1)).2.1, 1).

Definition funded_store : gmap Address AccountState := Store.fund ∅ (Wl.addresses workload_1_2).

Lemma repr_funded : repr (L := fuel_env) funded_env funded_store.
Proof.
  intros a. cbn [contents fuel_env_laws funded_env fst].
  change (funded_env.1) with ((init_accounts (L := fuel_env) (funded workload_1_2) (∅, 1)).2.1).
  assert (repr (L := fuel_env) (∅, 1) ∅) as H0 by (intros b; cbn; by rewrite !lookup_empty).
  destruct (init_accounts (L := fuel_env) (funded workload_1_2) (∅, 1)) as [[e|[]] env'] eqn:E; [discriminate E|].
  exact (init_accounts_spec hash_inj_uint _ _ _ _ H0 E a).
Qed.

Definition is_error {E T} (r : E + T) : bool := match r with inl _ => true | inr _ => false end.

Lemma mdbx_error_state_witness :
  let env' := (execute_tx (L := fuel_env) executor transfer_1_2 funded_env).2 in
  repr (L := fuel_env) env' funded_store ∨
  ∃ s, Store.payer funded_store transfer_1_2 = Some s ∧
    repr (L := fuel_env) env' (<[x1 := Store.sender_after transfer_1_2 s]> funded_store).
Proof.
  cbn zeta.
  assert (is_error (execute_tx (L := fuel_env) executor transfer_1_2 funded_env).1 = true) as H
    by by_compute.
  destruct (execute_tx (L := fuel_env) executor transfer_1_2 funded_env) as [[e|b] env'] eqn:E.
  - exact (mdbx_error_state (L := fuel_env) hash_inj_uint executor funded_env env' funded_store
             transfer_1_2 e repr_funded E).
  - discriminate H.
Defined.
End MdbxSpec.
