(* ===== verification/MdbxBatched.v ===== *)
(** * src/executor/mdbx_batched.rs

    The MDBX executor that caches a block's changes and commits them in one
    write transaction, and its refinement: a block is applied completely or not
    at all, and the blocks of a workload have the effect of its transactions one
    after the other, which is what the sequential executor computes. *)

From Stdlib Require Import String.
From stdpp Require Import base option list gmap.
From Stdlib Require Import ZArith Lia.
From S2P Require Import Prelude Integers Externals Types Workload Executor Store Mdbx MdbxSpec.

Module Batched.
Import Mdbx.

Section Batched.
Context {A : Alloy} {K : Keys A} {L : MdbxLib}.
(** The order in which iterating over a [HashMap] yields its entries. *)
Context (hash_map_iter : gmap Address Account → list (Address * Account)).

Record BlockResult : Set := mkBlockResult {
  block_number : Z;
  successful : nat;
  failed : nat;
}.

Record MultiBlockResult : Set := mkMultiBlockResult {
  blocks : list BlockResult;
  total_successful : nat;
  total_failed : nat;
}.

Definition to_execution_result (self : MultiBlockResult) : Exec.ExecutionResult :=
  Exec.ExecutionResult_new (Z.of_nat (total_successful self)) (Z.of_nat (total_failed self)).

Record BlockCache : Set := mkBlockCache { accounts : gmap Address Account }.

Definition cache_new : BlockCache := mkBlockCache ∅.

Definition cache_get_account (self : BlockCache) (address : Address) : option Account :=
  accounts self !! address.

Definition cache_set_account (self : BlockCache) (address : Address) (account : Account) : BlockCache :=
  mkBlockCache (<[address := account]> (accounts self)).

Definition cache_clear (self : BlockCache) : BlockCache := mkBlockCache ∅.

Record MdbxBatchedExecutor : Set := mkBatched { verify_signatures : bool }.

(** [if let Some(cached) = cache.get_account(..) { .. } else { self.db.get_account(..)? }] *)
Definition lookup_account (cache : BlockCache) (address : Address) : M (option Account) :=
  match cache_get_account cache address with
  | Some cached => mret (Some cached)
  | None => get_account address
  end.

(** The body of the loop over a block's transactions. *)
Definition execute_tx (self : MdbxBatchedExecutor) (cache : BlockCache)
    (tx : Wl.SignedTransaction) : M (BlockCache * bool) :=
  if Exec.signature_rejected (verify_signatures self) tx then mret (cache, false)
  else
    sender ← lookup_account cache (Wl.from tx);
    match sender with
    | None => mret (cache, false)
    | Some sender =>
        if refused tx sender then mret (cache, false)
        else
          receiver ← lookup_account cache (Wl.to tx);
          let receiver := default empty_account receiver in
          let cache := cache_set_account cache (Wl.from tx) (debit tx sender) in
          let cache := cache_set_account cache (Wl.to tx) (credit tx receiver) in
          mret (cache, true)
    end.

Fixpoint execute_txs (self : MdbxBatchedExecutor) (cache : BlockCache)
    (txs : list Wl.SignedTransaction) (s f : nat) : M (BlockCache * nat * nat) :=
  match txs with
  | [] => mret (cache, s, f)
  | tx :: txs =>
      '(cache, ok) ← execute_tx self cache tx;
      if ok : bool then execute_txs self cache txs (s + 1) f
      else execute_txs self cache txs s (f + 1)
  end.

Definition commit_cache (cache : BlockCache) : M unit :=
  write_txn (put_all (hash_map_iter (accounts cache))).

Definition execute_block (self : MdbxBatchedExecutor) (transactions : list Wl.SignedTransaction)
    : M (nat * nat) :=
  '(cache, successful, failed) ← execute_txs self cache_new transactions 0 0;
  commit_cache cache;;
  mret (successful, failed).

(** The loop over the blocks, numbered from [block_num]. *)
Fixpoint execute_blocks (self : MdbxBatchedExecutor) (block_num : nat)
    (bs : list (list Wl.SignedTransaction)) (results : list BlockResult) (ts tf : nat)
    : M MultiBlockResult :=
  match bs with
  | [] => mret (mkMultiBlockResult results ts tf)
  | block_txs :: bs =>
      '(s, f) ← execute_block self block_txs;
      execute_blocks self (block_num + 1) bs
        (results ++ [mkBlockResult (Z.of_nat block_num) s f]) (ts + s) (tf + f)
  end.

Definition execute_workload (self : MdbxBatchedExecutor) (workload : Wl.Workload)
    : M (MultiBlockResult * unit) :=
  init_accounts (funded workload);;
  result ← execute_blocks self 0 (Wl.blocks workload) [] 0 0;
  mret (result, tt).

Definition preserves_order (self : MdbxBatchedExecutor) : bool := true.
Definition name (self : MdbxBatchedExecutor) : string := "mdbx_batched".

(** ** Refinement of the store *)

Context {LL : MdbxLaws L}.
Context (hash_inj : Inj (=) (=) hashed_address).
Context (hash_map_iter_perm : ∀ m, hash_map_iter m ≡ₚ map_to_list m).
Implicit Types (env : DatabaseEnv) (l : gmap Address AccountState) (a : Address)
  (tx : Wl.SignedTransaction) (cache : BlockCache).

Abbreviation repr := (MdbxSpec.repr (L := L)).
Abbreviation to_account := MdbxSpec.to_account.

(** The cache over the table: a cached account hides the table's. *)
Definition overlay env cache l : Prop := ∀ a,
  match accounts cache !! a with
  | Some acc => Some acc
  | None => contents env !! hashed_address a
  end = to_account <$> l !! a.

Lemma overlay_new env l : repr env l → overlay env cache_new l.
Proof. intros Hr a. cbn. rewrite lookup_empty. apply Hr. Qed.

Lemma lookup_account_spec env env' cache l a o :
  overlay env cache l → lookup_account cache a env = (inr o, env') →
  env' = env ∧ o = to_account <$> l !! a.
Proof.
  intros Ho. specialize (Ho a). unfold lookup_account, cache_get_account.
  destruct (accounts cache !! a) as [acc|].
  - intros [= <- <-]. done.
  - intros [-> ->]%MdbxSpec.get_account_spec. done.
Qed.

Lemma lookup_account_error env env' cache a e :
  lookup_account cache a env = (inl e, env') → env' = env.
Proof.
  unfold lookup_account. destruct (cache_get_account cache a); [done|].
  apply MdbxSpec.get_account_error.
Qed.

Lemma overlay_set env cache l a s :
  overlay env cache l → overlay env (cache_set_account cache a (to_account s)) (<[a := s]> l).
Proof.
  intros Ho b. cbn. destruct (decide (a = b)) as [<-|Hne].
  - by rewrite !lookup_insert_eq.
  - rewrite !lookup_insert_ne by done. apply Ho.
Qed.

Lemma cached_tx_spec self env env' cache l tx cache' ok :
  overlay env cache l → execute_tx self cache tx env = (inr (cache', ok), env') →
  env' = env ∧
  ∃ l', Store.apply (verify_signatures self) l tx = (l', ok) ∧ overlay env cache' l'.
Proof.
  intros Ho. unfold execute_tx, Store.apply.
  destruct (Exec.signature_rejected _ tx); [intros [= <- <- <-]; eauto|].
  intros (o & env1 & [-> ->]%(lookup_account_spec _ _ _ _ _ _ Ho) & H)%MdbxSpec.M_bind_inr.
  unfold Store.transfer. destruct (l !! Wl.from tx) as [s|] eqn:Hs; cbn in H.
  2:{ injection H as <- <- <-. unfold Store.payer. rewrite Hs. cbn. eauto. }
  rewrite (MdbxSpec.refused_payer _ _ _ Hs).
  destruct (refused tx (to_account s)); [injection H as <- <- <-; eauto|].
  apply MdbxSpec.M_bind_inr in H as (o & env1 & [-> ->]%(lookup_account_spec _ _ _ _ _ _ Ho) & H).
  rewrite MdbxSpec.default_to_account, MdbxSpec.debit_to_account, MdbxSpec.credit_to_account in H.
  injection H as <- <- <-. split; [done|]. eexists; split; [done|]. by apply overlay_set, overlay_set.
Qed.

Lemma execute_tx_env self cache tx env : (execute_tx self cache tx env).2 = env.
Proof.
  assert (∀ a, (lookup_account cache a env).2 = env) as Hl.
  { intros a. unfold lookup_account. by destruct (cache_get_account cache a). }
  unfold execute_tx. destruct (Exec.signature_rejected _ tx); [done|].
  unfold mbind, M_bind. pose proof (Hl (Wl.from tx)) as H1.
  destruct (lookup_account cache (Wl.from tx) env) as [[e|[s|]] env1]; cbn in H1; subst; [done| |done].
  destruct (refused tx s); [done|]. pose proof (Hl (Wl.to tx)) as H2.
  by destruct (lookup_account cache (Wl.to tx) env) as [[e|r] env1].
Qed.

Lemma execute_txs_env self cache txs s f env : (execute_txs self cache txs s f env).2 = env.
Proof.
  revert cache s f. induction txs as [|tx txs IH]; intros cache s f; [done|].
  cbn [execute_txs]. unfold mbind, M_bind. pose proof (execute_tx_env self cache tx env) as H.
  destruct (execute_tx self cache tx env) as [[e|[cache' ok]] env1]; cbn in H; subst; [done|].
  destruct ok; apply IH.
Qed.

Lemma cached_txs_spec self env env' cache l txs s f cache' s' f' :
  overlay env cache l → execute_txs self cache txs s f env = (inr (cache', s', f'), env') →
  ∃ l' s1 f1, Store.run (verify_signatures self) l txs = (l', s1, f1) ∧ overlay env cache' l' ∧
    s' = s + s1 ∧ f' = f + f1.
Proof.
  revert cache l s f. induction txs as [|tx txs IH]; intros cache l s f Ho.
  { cbn. intros [= <- <- <- <-]. exists l, 0, 0. split_and!; [done..|lia|lia]. }
  cbn [execute_txs]. intros ([cache1 ok] & env1 & E & H)%MdbxSpec.M_bind_inr.
  destruct (cached_tx_spec _ _ _ _ _ _ _ _ Ho E) as (-> & l1 & Ha & Ho1).
  cbn [Store.run]. rewrite Ha.
  assert (execute_txs self cache1 txs (s + Nat.b2n ok) (f + Nat.b2n (negb ok)) env =
    (inr (cache', s', f'), env')) as H'. { destruct ok; cbn; rewrite ?Nat.add_0_r; exact H. }
  destruct (IH _ _ _ _ Ho1 H') as (l2 & s1 & f1 & -> & Ho2 & -> & ->).
  eexists _, _, _. split_and!; [done|done|lia|lia].
Qed.

(** The commit makes the overlay the table, in whatever order the cache is
    iterated. *)
Lemma commit_cache_spec env env' cache l :
  overlay env cache l → commit_cache cache env = (inr tt, env') → repr env' l.
Proof.
  intros Ho (t & t' & Ht & Hp & Hc)%MdbxSpec.write_txn_spec a.
  rewrite Hc, (MdbxSpec.put_all_contents _ _ _ Hp), Ht, MdbxSpec.put_table_lookup by done.
  rewrite <- (Ho a). destruct (last _) as [[b acc]|] eqn:El.
  - apply last_Some in El as [l' El].
    assert ((b, acc) ∈ filter (λ p, p.1 = a) (hash_map_iter (accounts cache))) as Hin.
    { rewrite El. set_solver. }
    apply list_elem_of_filter in Hin as [Hb Hin]. cbn in Hb. subst b.
    rewrite hash_map_iter_perm in Hin. apply elem_of_map_to_list in Hin. by rewrite Hin.
  - apply last_None in El. destruct (accounts cache !! a) as [acc|] eqn:E; [|done].
    apply elem_of_map_to_list in E. rewrite <- hash_map_iter_perm in E.
    assert ((a, acc) ∈ filter (λ p, p.1 = a) (hash_map_iter (accounts cache))) as Hin.
    { by apply list_elem_of_filter. }
    rewrite El in Hin. set_solver.
Qed.

Lemma execute_block_ok self env env' l txs s f :
  repr env l → execute_block self txs env = (inr (s, f), env') →
  ∃ l', Store.run (verify_signatures self) l txs = (l', s, f) ∧ repr env' l'.
Proof.
  intros Hr. unfold execute_block.
  intros ([[cache s'] f'] & env1 & E & H)%MdbxSpec.M_bind_inr.
  pose proof (execute_txs_env self cache_new txs 0 0 env) as Henv. rewrite E in Henv. cbn in Henv. subst.
  destruct (cached_txs_spec _ _ _ _ _ _ _ _ _ _ _ (overlay_new _ _ Hr) E)
    as (l' & s1 & f1 & Hrun & Ho & -> & ->).
  apply MdbxSpec.M_bind_inr in H as ([] & env2 & Hc & [= <- <- <-]).
  exists l'. split; [done|]. by eapply commit_cache_spec.
Qed.

(** C16: A block is applied completely or not at all.  If [execute_block]
    returns counts, the table represents the store after all transactions of the
    block, applied in order; if it returns a database error, the environment is
    the one the block started from. *)
Theorem execute_block_atomic self env l txs :
  repr env l →
  match execute_block self txs env with
  | (inr (s, f), env') =>
      ∃ l', Store.run (verify_signatures self) l txs = (l', s, f) ∧ repr env' l'
  | (inl _, env') => env' = env
  end.
Proof.
  intros Hr. destruct (execute_block self txs env) as [[e|[s f]] env'] eqn:E.
  - unfold execute_block, mbind, M_bind in E.
    pose proof (execute_txs_env self cache_new txs 0 0 env) as Henv.
    destruct (execute_txs self cache_new txs 0 0 env) as [[e1|[[cache s] f]] env1]; cbn in Henv; subst.
    { by injection E. }
    destruct (commit_cache cache env) as [[e1|[]] env2] eqn:Ec; [|done].
    injection E as _ <-. exact (MdbxSpec.write_txn_spec _ _ _ _ Ec).
  - by eapply execute_block_ok.
Qed.

Lemma execute_blocks_spec self env env' l n bs rs ts tf r :
  repr env l → execute_blocks self n bs rs ts tf env = (inr r, env') →
  ∃ l' s f, Store.run (verify_signatures self) l (List.concat bs) = (l', s, f) ∧ repr env' l' ∧
    total_successful r = ts + s ∧ total_failed r = tf + f ∧
    ∃ rs', blocks r = rs ++ rs' ∧ block_number <$> rs' = Z.of_nat <$> seq n (length bs) ∧
      Forall2 (λ b txs, successful b + failed b = length txs) rs' bs.
Proof.
  revert env l n rs ts tf. induction bs as [|txs bs IH]; intros env l n rs ts tf Hr.
  { cbn. intros [= <- <-]. exists l, 0, 0. cbn. split_and!; [done|done|lia|lia|].
    exists []. by rewrite app_nil_r. }
  cbn [execute_blocks]. intros ([s f] & env1 & E & H)%MdbxSpec.M_bind_inr.
  destruct (execute_block_ok _ _ _ _ _ _ _ Hr E) as (l1 & Hrun & Hr1).
  pose proof (Store.run_counts (verify_signatures self) l txs) as Hcount. rewrite Hrun in Hcount.
  destruct (IH _ _ _ _ _ _ Hr1 H) as (l2 & s2 & f2 & Hrun2 & Hr2 & -> & -> & rs' & -> & Hnum & Hall).
  cbn [List.concat]. rewrite Store.run_app_store, Hrun, Hrun2.
  eexists _, _, _. split_and!; [done|done|lia|lia|].
  eexists (_ :: rs'). split; [by rewrite <- app_assoc|]. split; [|by constructor].
  cbn. rewrite Hnum. by rewrite Nat.add_1_r.
Qed.

(** Without database errors every block is executed and committed. *)
Section Reliable.
Context {LR : MdbxReliable L}.
Import MdbxSpec.

Lemma lookup_account_total cache a : never_fails (lookup_account cache a).
Proof.
  unfold lookup_account. destruct (cache_get_account cache a);
    [apply never_fails_ret|apply get_account_total].
Qed.

Lemma cached_tx_total self cache tx : never_fails (execute_tx self cache tx).
Proof.
  unfold execute_tx. destruct (Exec.signature_rejected _ tx); [apply never_fails_ret|].
  apply never_fails_bind; [apply lookup_account_total|]. intros [s|]; [|apply never_fails_ret].
  destruct (refused tx s); [apply never_fails_ret|].
  apply never_fails_bind; [apply lookup_account_total|]. intros r. apply never_fails_ret.
Qed.

Lemma cached_txs_total self cache txs s f : never_fails (execute_txs self cache txs s f).
Proof.
  revert cache s f. induction txs as [|tx txs IH]; intros cache s f; [apply never_fails_ret|].
  apply never_fails_bind; [apply cached_tx_total|]. by intros [? []].
Qed.

Lemma execute_blocks_total self n bs rs ts tf : never_fails (execute_blocks self n bs rs ts tf).
Proof.
  revert n rs ts tf. induction bs as [|txs bs IH]; intros n rs ts tf; [apply never_fails_ret|].
  apply never_fails_bind; [|by intros []].
  apply never_fails_bind; [apply cached_txs_total|]. intros [[cache s] f].
  apply never_fails_bind; [apply write_txn_total, put_all_total|]. intros _. apply never_fails_ret.
Qed.

Lemma batched_workload_total self w : never_fails (execute_workload self w).
Proof.
  apply never_fails_bind; [apply write_txn_total, put_all_total|]. intros _.
  apply never_fails_bind; [apply execute_blocks_total|]. intros r. apply never_fails_ret.
Qed.
End Reliable.

(** Without a database error the blocks have been applied in order. *)
Lemma batched_workload_store self w env l r env' :
  repr env l → execute_workload self w env = (inr (r, tt), env') →
  ∃ l' s f, Store.run (verify_signatures self) (Store.fund l (Wl.addresses w)) (List.concat (Wl.blocks w)) = (l', s, f) ∧
    repr env' l' ∧ to_execution_result r = Exec.mkResult (Z.of_nat s) (Z.of_nat f) ∧
    block_number <$> blocks r = Z.of_nat <$> seq 0 (length (Wl.blocks w)) ∧
    Forall2 (λ b txs, successful b + failed b = length txs) (blocks r) (Wl.blocks w).
Proof.
  intros Hr. unfold execute_workload.
  intros ([] & e1 & Hi & (r1 & e2 & Hx & [= <- <-])%MdbxSpec.M_bind_inr)%MdbxSpec.M_bind_inr.
  apply (MdbxSpec.init_accounts_spec hash_inj _ _ _ _ Hr) in Hi.
  apply (execute_blocks_spec _ _ _ _ _ _ _ _ _ _ Hi) in Hx
    as (l' & s & f & Hrun & Hrep & Hs & Hf & rs & Hb & Hnum & Hall).
  exists l', s, f. rewrite Hb. split_and!; try done.
  unfold to_execution_result. by rewrite Hs, Hf.
Qed.

(** C15: the batched executor computes what the sequential executor computes.
    It returns without error when no database operation fails; and from
    tables that represent the same store, when both return without a database
    error on a workload whose blocks are its transactions, the final tables hold the same account at every address, and the totals are the
    sequential counts; the blocks are numbered from zero and each counts its own
    transactions. *)
Theorem batched_equals_sequential self w env1 env2 l :
  repr env1 l → repr env2 l → Exec.workload_ok w →
  (MdbxReliable L → ∃ r2 env2', execute_workload self w env2 = (inr (r2, tt), env2')) ∧
  (∀ r1 env1' r2 env2',
    Mdbx.execute_workload (mkMdbx (verify_signatures self)) w env1 = (inr (r1, tt), env1') →
    execute_workload self w env2 = (inr (r2, tt), env2') →
    (∀ a, contents env2' !! hashed_address a = contents env1' !! hashed_address a) ∧
    to_execution_result r2 = r1 ∧
    block_number <$> blocks r2 = Z.of_nat <$> seq 0 (length (Wl.blocks w)) ∧
    Forall2 (λ b txs, successful b + failed b = length txs) (blocks r2) (Wl.blocks w)).
Proof.
  intros Hr1 Hr2 [Hcat _]. split.
  { intros HR. destruct (batched_workload_total self w env2) as ([r []] & env' & H). eauto. }
  intros r1 env1' r2 env2' H1 H2.
  apply (MdbxSpec.execute_workload_store hash_inj _ _ _ _ _ _ Hr1) in H1
    as (l1 & s1 & f1 & Hrun1 & Hrep1 & ->).
  apply (batched_workload_store _ _ _ _ _ _ Hr2) in H2 as (l2 & s2 & f2 & Hrun2 & Hrep2 & -> & Hnum & Hall).
  cbn in Hrun1. rewrite Hcat, Hrun1 in Hrun2. simplify_eq/=. split_and!; [|done..].
  intros a. by rewrite Hrep1, Hrep2.
Qed.
End Batched.

(** ** Witnesses *)

Definition iter_list {A : Alloy} (m : gmap Address Account) : list (Address * Account) := map_to_list m.

Lemma iter_list_perm {A : Alloy} (m : gmap Address Account) : iter_list m ≡ₚ map_to_list m.
Proof. done. Qed.

Lemma execute_block_atomic_witness :
  match execute_block (L := fuel_env) iter_list (mkBatched true) [MdbxSpec.transfer_1_2]
          MdbxSpec.funded_env with
  | (inr (s, f), env') =>
      ∃ l', Store.run true MdbxSpec.funded_store [MdbxSpec.transfer_1_2] = (l', s, f) ∧
        MdbxSpec.repr (L := fuel_env) env' l'
  | (inl _, env') => env' = MdbxSpec.funded_env
  end.
Proof.
  exact (execute_block_atomic (L := fuel_env) iter_list MdbxSpec.hash_inj_uint iter_list_perm
    (mkBatched true) MdbxSpec.funded_env MdbxSpec.funded_store [MdbxSpec.transfer_1_2]
    MdbxSpec.repr_funded).
Defined.

(** The same workload through both executors, in memory. *)
Definition batched_run :=
  execute_workload (L := memory_env) iter_list (mkBatched true) MdbxSpec.workload_1_2 ∅.
Definition sequential_run :=
  Mdbx.execute_workload (L := memory_env) (mkMdbx true) MdbxSpec.workload_1_2 ∅.

Lemma batched_equals_sequential_witness :
  ∃ r1 env1' r2 env2', sequential_run = (inr (r1, tt), env1') ∧ batched_run = (inr (r2, tt), env2') ∧
    to_execution_result r2 = r1.
Proof.
  assert (MdbxSpec.is_error sequential_run.1 = false) as H1 by by_compute.
  assert (MdbxSpec.is_error batched_run.1 = false) as H2 by by_compute.
  unfold sequential_run, batched_run in *.
  destruct (Mdbx.execute_workload (L := memory_env) (mkMdbx true) MdbxSpec.workload_1_2 ∅)
    as [[e|[r1 []]] env1'] eqn:E1; [discriminate H1|].
  destruct (execute_workload (L := memory_env) iter_list (mkBatched true) MdbxSpec.workload_1_2 ∅)
    as [[e|[r2 []]] env2'] eqn:E2; [discriminate H2|].
  exists r1, env1', r2, env2'. split; [done|]. split; [done|].
  apply (batched_equals_sequential (L := memory_env) iter_list MdbxSpec.hash_inj_uint iter_list_perm
    (mkBatched true) MdbxSpec.workload_1_2 ∅ ∅ ∅) with (env1' := env1') (env2' := env2');
    [apply MdbxSpec.repr_empty|apply MdbxSpec.repr_empty|by split|exact E1|exact E2].
Defined.
End Batched.
