(* ===== verification/Fdb.v ===== *)
(** * src/executor/fdb.rs

    The FoundationDB executor: accounts encoded as bytes under hashed keys, a
    slice of the transactions for each thread, and each transfer retried until it
    commits.  FoundationDB is a library: a class gives a transaction's
    operations and the results one attempt of [Database::run] may have.  The
    threads are a transition system whose step is one attempt. *)

From Stdlib Require Import String.
From stdpp Require Import base option list gmap relations.
From Stdlib Require Import ZArith Lia Strings.Byte.
From S2P Require Import Prelude Integers Externals Types Workload Executor.

#[export] Instance byte_eq_dec : EqDecision byte.
Proof. intros x y. destruct (Byte.byte_eq_dec x y); [by left|by right]. Defined.

#[export] Instance byte_countable : Countable byte :=
  inj_countable Byte.to_N Byte.of_N Byte.of_to_N.

Module Fdb.

(** ** The library *)

(** What happened to one attempt of a transaction. *)
Inductive Attempt (T : Type) : Type :=
  | Committed (x : T)
  | Retried
  | CommitUnknown
  | Errored
  | ClosurePanicked.
Arguments Committed {T} _.
Arguments Retried {T}.
Arguments CommitUnknown {T}.
Arguments Errored {T}.
Arguments ClosurePanicked {T}.

(** [run] calls its closure on a new transaction until one attempt commits;
    after [CommitUnknown] it calls it again with [maybe_committed] set; [Errored]
    is an error it returns, and [ClosurePanicked] a panic of the closure. *)
Class FdbLib := {
  Database : Type;
  Trx : Type;
  FdbError : Type;
  trx_get : Trx → list byte → FdbError + option (list byte);
  trx_set : list byte → list byte → Trx → Trx;
  trx_clear_range : list byte → list byte → Trx → Trx;
  attempt : ∀ {T : Type}, (Trx → outcome ((FdbError + T) * Trx)) →
    Database → Attempt T → Database → Prop;
}.

(** The order of keys. *)
Fixpoint bytes_lt (k k' : list byte) : bool :=
  match k, k' with
  | _, [] => false
  | [], _ :: _ => true
  | b :: k, b' :: k' =>
      (byte_to_Z b <? byte_to_Z b')%Z || ((byte_to_Z b =? byte_to_Z b')%Z && bytes_lt k k')
  end.

Definition in_range (first last key : list byte) : bool :=
  negb (bytes_lt key first) && bytes_lt key last.

(** Transactions are atomic and serializable: a committed attempt ran on the
    database as it was and its writes are the new contents; an attempt whose
    commit is unknown either did that or nothing; the others did nothing. *)
Class FdbLaws (L : FdbLib) := {
  db_contents : Database → gmap (list byte) (list byte);
  trx_contents : Trx → gmap (list byte) (list byte);
  trx_get_ok : ∀ t k o, trx_get t k = inr o → o = trx_contents t !! k;
  trx_set_ok : ∀ t k v, trx_contents (trx_set k v t) = <[k := v]> (trx_contents t);
  trx_clear_ok : ∀ t first last k,
    trx_contents (trx_clear_range first last t) !! k =
    if in_range first last k then None else trx_contents t !! k;
  committed_ok : ∀ T (body : Trx → outcome ((FdbError + T) * Trx)) db x db',
    attempt body db (Committed x) db' →
    ∃ t t', trx_contents t = db_contents db ∧ body t = Return (inr x, t') ∧
            db_contents db' = trx_contents t';
  unknown_ok : ∀ T (body : Trx → outcome ((FdbError + T) * Trx)) db db',
    attempt body db CommitUnknown db' →
    db_contents db' = db_contents db ∨
    ∃ x t t', trx_contents t = db_contents db ∧ body t = Return (inr x, t') ∧
              db_contents db' = trx_contents t';
  retried_ok : ∀ T (body : Trx → outcome ((FdbError + T) * Trx)) db db',
    attempt body db Retried db' → db_contents db' = db_contents db;
  errored_ok : ∀ T (body : Trx → outcome ((FdbError + T) * Trx)) db db',
    attempt body db Errored db' → db_contents db' = db_contents db;
  panicked_ok : ∀ T (body : Trx → outcome ((FdbError + T) * Trx)) db db',
    attempt body db ClosurePanicked db' →
    ∃ t, trx_contents t = db_contents db ∧ body t = Panic;
}.

Section Fdb.
Context {A : Alloy} {K : Keys A} {L : FdbLib}.

(** ** Encoding *)

(** [b"account/"] *)
Definition account_prefix : list byte := [x61; x63; x63; x6f; x75; x6e; x74; x2f].

Definition account_key (address : Address) : list byte :=
  account_prefix ++ b256_as_slice (keccak256 (address_as_slice address)).

Definition encode_account (nonce : Z) (balance : U256) : list byte :=
  u64_to_be_bytes nonce ++ u256_to_be_bytes balance.

(** Slicing beyond the end of [data] panics. *)
Definition decode_account (data : list byte) : outcome (Z * U256) :=
  if length data <? 40 then Panic
  else Return (u64_from_be_bytes (take 8 data), u256_from_be_bytes (take 32 (drop 8 data))).

(** ** The executor *)

Record FdbParallelExecutor : Set := mkFdb { verify_signatures : bool; num_threads : nat }.

Definition new (num_threads : nat) (verify_signatures : bool) : FdbParallelExecutor :=
  mkFdb verify_signatures (max num_threads 1).

Definition clear_database_body (trx : Trx) : outcome ((FdbError + unit) * Trx) :=
  Return (inr tt, trx_clear_range account_prefix (account_prefix ++ [xff]) trx).

Definition BATCH_SIZE : nat := 1000.

(** The closure of one batch of [init_accounts]. *)
Fixpoint init_batch_body (accounts_batch : list (Address * U256)) (trx : Trx)
    : outcome ((FdbError + unit) * Trx) :=
  match accounts_batch with
  | [] => Return (inr tt, trx)
  | (address, balance) :: accounts_batch =>
      init_batch_body accounts_batch
        (trx_set (account_key address) (encode_account 0 balance) trx)
  end.

(** [Database::run]: the closure is attempted until an attempt commits. *)
Inductive runs {T} (body : Trx → outcome ((FdbError + T) * Trx)) : Database → T → Database → Prop :=
  | run_committed d x d' : attempt body d (Committed x) d' → runs body d x d'
  | run_again d d1 x d' res :
      res = Retried ∨ res = CommitUnknown → attempt body d res d1 →
      runs body d1 x d' → runs body d x d'.

Definition clear_database (d d' : Database) : Prop := runs clear_database_body d tt d'.

(** [init_accounts]: one [run] for each batch, in order. *)
Inductive init_batches : list (list (Address * U256)) → Database → Database → Prop :=
  | init_done d : init_batches [] d d
  | init_batch batch batches d d1 d' :
      runs (init_batch_body batch) d tt d1 → init_batches batches d1 d' →
      init_batches (batch :: batches) d d'.

Definition init_accounts (accounts : list (Address * U256)) (d d' : Database) : Prop :=
  ∃ batches, chunks BATCH_SIZE accounts = Return batches ∧ init_batches batches d d'.

(** The closure of one transfer; a panic of [decode_account] is [Panic]. *)
Definition transfer_body (tx : Wl.SignedTransaction) (trx : Trx)
    : outcome ((FdbError + bool) * Trx) :=
  let sender_key := account_key (Wl.from tx) in
  match trx_get trx sender_key with
  | inl e => Return (inl e, trx)
  | inr None => Return (inr false, trx)
  | inr (Some sender_data) =>
      '(sender_nonce, sender_balance) ← decode_account sender_data;
      if negb (sender_nonce =? Wl.tx_nonce tx)%Z then Return (inr false, trx)
      else if u256_lt sender_balance (Wl.value tx) then Return (inr false, trx)
      else
        let receiver_key := account_key (Wl.to tx) in
        match trx_get trx receiver_key with
        | inl e => Return (inl e, trx)
        | inr receiver_data =>
            '(receiver_nonce, receiver_balance) ←
              match receiver_data with
              | Some data => decode_account data
              | None => Return (0%Z, u256_zero)
              end;
            let new_sender_balance := u256_sub sender_balance (Wl.value tx) in
            let new_sender_nonce := u64_add sender_nonce 1 in
            let new_receiver_balance := u256_add receiver_balance (Wl.value tx) in
            let trx := trx_set sender_key (encode_account new_sender_nonce new_sender_balance) trx in
            let trx := trx_set receiver_key (encode_account receiver_nonce new_receiver_balance) trx in
            Return (inr true, trx)
        end
  end.

(** The signature check of [execute_thread]. *)
Definition signature_invalid (verify_signatures : bool) (tx : Wl.SignedTransaction) : bool :=
  verify_signatures &&
  match Wl.recover_signer tx with
  | None => true
  | Some recovered => negb (bool_decide (recovered = Wl.from tx))
  end.

(** A thread: the transactions of its slice it has not finished, its counters,
    and whether it has panicked. *)
Record Thread : Set := mkThread {
  todo : list Wl.SignedTransaction;
  successful : nat;
  failed : nat;
  panicked : bool;
}.

Record State : Type := mkState { db : Database; threads : list Thread }.

(** [txs_per_thread] and the slice of each thread, up to the [break]. *)
Definition txs_per_thread (n num_threads : nat) : nat := (n + num_threads - 1) / num_threads.

Fixpoint spawn (num_threads thread_id per : nat) (transactions : list Wl.SignedTransaction)
    : list (list Wl.SignedTransaction) :=
  match num_threads with
  | O => []
  | S num_threads =>
      let start_idx := thread_id * per in
      let end_idx := min (start_idx + per) (length transactions) in
      if length transactions <=? start_idx then []
      else take (end_idx - start_idx) (drop start_idx transactions)
             :: spawn num_threads (thread_id + 1) per transactions
  end.

Definition thread_slices (self : FdbParallelExecutor) (transactions : list Wl.SignedTransaction)
    : list (list Wl.SignedTransaction) :=
  spawn (num_threads self) 0 (txs_per_thread (length transactions) (num_threads self)) transactions.

(** The state once the threads have been spawned. *)
Definition start (self : FdbParallelExecutor) (db : Database) (workload : Wl.Workload) : State :=
  mkState db ((λ slice, mkThread slice 0 0 false) <$> thread_slices self (Wl.transactions workload)).

(** What a thread does with the result of an attempt: leave its retry loop,
    go round it again, or die. *)
Definition after_attempt (tx : Wl.SignedTransaction) (txs : list Wl.SignedTransaction) (s f : nat)
    (res : Attempt bool) : Thread :=
  match res with
  | Committed true => mkThread txs (s + 1) f false
  | Committed false | Retried | CommitUnknown | Errored => mkThread (tx :: txs) s f false
  | ClosurePanicked => mkThread (tx :: txs) s f true
  end.

(** One step of a thread: the signature check of its next transaction, or one
    attempt of its transfer. *)
Inductive thread_step (self : FdbParallelExecutor) : Thread → Database → Thread → Database → Prop :=
  | step_invalid tx txs s f d :
      signature_invalid (verify_signatures self) tx = true →
      thread_step self (mkThread (tx :: txs) s f false) d (mkThread txs s (f + 1) false) d
  | step_attempt tx txs s f d res d' :
      signature_invalid (verify_signatures self) tx = false →
      attempt (transfer_body tx) d res d' →
      thread_step self (mkThread (tx :: txs) s f false) d (after_attempt tx txs s f res) d'.

Inductive step (self : FdbParallelExecutor) (st st' : State) : Prop :=
  | step_thread t th th' d' :
      threads st !! t = Some th → thread_step self th (db st) th' d' →
      st' = mkState d' (<[t := th']> (threads st)) → step self st st'.

Definition finished (st : State) : Prop :=
  Forall (λ th, todo th = [] ∧ panicked th = false) (threads st).

Record ThreadResult : Set := mkThreadResult {
  thread_id : nat;
  thread_successful : nat;
  thread_failed : nat;
}.

Record ParallelExecutionResult : Set := mkParallelResult {
  thread_results : list ThreadResult;
  total_successful : nat;
  total_failed : nat;
}.

(** The results collected from the joined threads. *)
Definition collect (st : State) : ParallelExecutionResult :=
  mkParallelResult
    (imap (λ i th, mkThreadResult i (successful th) (failed th)) (threads st))
    (sum_list (successful <$> threads st)) (sum_list (failed <$> threads st)).

Definition to_execution_result (self : ParallelExecutionResult) : Exec.ExecutionResult :=
  Exec.ExecutionResult_new (Z.of_nat (total_successful self)) (Z.of_nat (total_failed self)).

(** The accounts of a workload, each with the initial balance. *)
Definition funded (workload : Wl.Workload) : list (Address * U256) :=
  (λ acc, (Wl.acc_address acc, Wl.initial_balance)) <$> Wl.accounts workload.

(** [execute_workload] may return [r] and leave the database [d']. *)
Definition execute_workload (self : FdbParallelExecutor) (d : Database) (workload : Wl.Workload)
    (r : ParallelExecutionResult) (d' : Database) : Prop :=
  ∃ d1 d2 st, clear_database d d1 ∧ init_accounts (funded workload) d1 d2 ∧
    rtc (step self) (start self d2 workload) st ∧ finished st ∧ db st = d' ∧ collect st = r.

Definition preserves_order (self : FdbParallelExecutor) : bool := false.
Definition name (self : FdbParallelExecutor) : string := "fdb_parallel".
End Fdb.

(** ** A database in memory

    Every result an attempt may have; [unknown] says whether a commit may go
    unreported. *)

Definition fdb_memory (unknown : bool) : FdbLib := {|
  Database := gmap (list byte) (list byte);
  Trx := gmap (list byte) (list byte);
  FdbError := unit;
  trx_get t k := inr (t !! k);
  trx_set k v t := <[k := v]> t;
  trx_clear_range first last t := filter (λ p, in_range first last p.1 = false) t;
  attempt T body d res d' :=
    match res with
    | Committed x => body d = Return (inr x, d')
    | CommitUnknown => unknown = true ∧ (d' = d ∨ ∃ x, body d = Return (inr x, d'))
    | Retried | Errored => d' = d
    | ClosurePanicked => body d = Panic ∧ d' = d
    end;
|}.

Lemma fdb_memory_clear (t : gmap (list byte) (list byte)) first last k :
  filter (λ p, in_range first last p.1 = false) t !! k =
  if in_range first last k then None else t !! k.
Proof.
  rewrite map_lookup_filter. destruct (t !! k) as [v|]; cbn; [|by case_match].
  case_guard as E; cbn in *; destruct (in_range first last k); done.
Qed.

#[global] Program Instance fdb_memory_laws unknown : FdbLaws (fdb_memory unknown) := {|
  db_contents d := d;
  trx_contents t := t;
  trx_clear_ok := fdb_memory_clear;
|}.
Solve Obligations with cbn; naive_solver.
End Fdb.
