(* ===== verification/FdbSpec.v ===== *)
(** * The FoundationDB executor is serializable

    Byte encodings round-trip and keys are distinct; clearing misses the keys of
    one shard; one attempt is one transfer of the store; and a finished execution
    is a serial run of the accepted transactions in some interleaving of the
    threads' slices.  Two situations in which the retry loop never ends. *)

From stdpp Require Import base option list gmap relations.
From Stdlib Require Import ZArith Lia Strings.Byte.
From S2P Require Import Prelude Integers Externals Types Workload Executor Store Fdb.

Module FdbSpec.
Import Fdb.
#[local] Arguments account_key : simpl never.
#[local] Arguments encode_account : simpl never.
#[local] Arguments decode_account : simpl never.

(** ** Interleavings *)

Section Interleaving.
Context {T : Type}.

(** [log] merges the lists [ls], keeping the order of each. *)
Inductive interleaves : list (list T) → list T → Prop :=
  | interleaves_nil ls : Forall (λ l, l = []) ls → interleaves ls []
  | interleaves_snoc ls l log t x :
      interleaves ls log → ls !! t = Some l →
      interleaves (<[t := l ++ [x]]> ls) (log ++ [x]).

Lemma sum_length_insert (ls : list (list T)) t l l' :
  ls !! t = Some l →
  sum_list (length <$> <[t := l']> ls) + length l = sum_list (length <$> ls) + length l'.
Proof.
  intros Ht. rewrite list_fmap_insert. apply sum_list_insert. by rewrite list_lookup_fmap, Ht.
Qed.

Lemma interleaves_length ls log : interleaves ls log → length log = sum_list (length <$> ls).
Proof.
  induction 1 as [ls Hls|ls l log t x _ IH Ht].
  - induction Hls as [|l ls -> _ IH]; [done|exact IH].
  - pose proof (sum_length_insert ls t l (l ++ [x]) Ht). rewrite !length_app in *. cbn in *. lia.
Qed.
End Interleaving.

Section Spec.
Context {A : Alloy} {AL : AlloyLaws A} {K : Keys A} {L : FdbLib} {LL : FdbLaws L}.
Context (hash_inj : Inj (=) (=) (λ a : Address, keccak256 (address_as_slice a))).
Implicit Types (l : gmap Address AccountState) (a : Address) (tx : Wl.SignedTransaction)
  (m : gmap (list byte) (list byte)) (st : State) (t : nat).

(** ** Encoding *)

(** C40: accounts survive the encoding, and different addresses have different
    keys: decoding an encoded account gives back its nonce and balance, and
    [account_key] is injective as far as the hash is. *)
Theorem account_encoding_roundtrip (n : Z) (b : U256) (a a' : Address) :
  in_u64 n →
  decode_account (encode_account n b) = Return (n, b) ∧
  length (encode_account n b) = 40 ∧
  (account_key a = account_key a' → keccak256 (address_as_slice a) = keccak256 (address_as_slice a')).
Proof.
  intros Hn. assert (length (u64_to_be_bytes n) = 8) as H8 by apply length_be_bytes.
  assert (length (encode_account n b) = 40) as H40.
  { unfold encode_account. by rewrite length_app, H8, u256_be_length. }
  split_and!; [|done|].
  - unfold decode_account. rewrite H40. cbn [Nat.ltb Nat.leb]. unfold encode_account.
    rewrite (take_app_length' _ _ 8), (drop_app_length' _ _ 8) by done.
    rewrite take_ge by (by rewrite u256_be_length).
    by rewrite u64_be_roundtrip, u256_be_roundtrip.
  - intros H. apply b256_slice_inj. by apply app_inv_head in H.
Qed.

Lemma account_key_inj a a' : account_key a = account_key a' → a = a'.
Proof. intros H%app_inv_head. apply hash_inj. by apply b256_slice_inj. Qed.

Lemma decode_encode n b : in_u64 n → decode_account (encode_account n b) = Return (n, b).
Proof.
  intros Hn. assert (length (u64_to_be_bytes n) = 8) as H8 by apply length_be_bytes.
  unfold decode_account, encode_account. rewrite length_app, H8, u256_be_length. cbn [Nat.ltb Nat.leb Nat.add].
  rewrite (take_app_length' _ _ 8), (drop_app_length' _ _ 8) by done.
  rewrite take_ge by (by rewrite u256_be_length).
  by rewrite u64_be_roundtrip, u256_be_roundtrip.
Qed.

(** ** Clearing *)

(** The first byte of an address's hash. *)
Definition shard (a : Address) : option byte := head (b256_as_slice (keccak256 (address_as_slice a))).

Lemma bytes_lt_prefix (p k k' : list byte) : bytes_lt (p ++ k) (p ++ k') = bytes_lt k k'.
Proof.
  induction p as [|b p IH]; [done|]. cbn. by rewrite Z.ltb_irrefl, Z.eqb_refl.
Qed.

Lemma bytes_lt_nil k : bytes_lt k [] = false.
Proof. by destruct k. Qed.

Lemma account_key_in_range a :
  in_range account_prefix (account_prefix ++ [xff]) (account_key a) =
  negb (bool_decide (shard a = Some xff)).
Proof.
  unfold in_range, account_key, shard.
  rewrite bytes_lt_prefix.
  assert (∀ k, bytes_lt (account_prefix ++ k) account_prefix = false) as ->.
  { intros k. rewrite <- (app_nil_r account_prefix) at 2. rewrite bytes_lt_prefix. apply bytes_lt_nil. }
  pose proof (b256_slice_length (keccak256 (address_as_slice a))) as Hlen.
  destruct (b256_as_slice _) as [|b k]; [done|]. cbn [bytes_lt head negb andb].
  rewrite bytes_lt_nil, andb_false_r, orb_false_r. pose proof (byte_to_Z_range b).
  destruct (Z.ltb_spec (byte_to_Z b) (byte_to_Z xff)) as [Hlt|Hge].
  - rewrite bool_decide_false; [done|]. intros [= ->]. lia.
  - rewrite bool_decide_true; [done|]. f_equal. apply byte_to_Z_inj. cbn in *. lia.
Qed.

(** ** Contents as stores *)

Definition encode (s : AccountState) : list byte := encode_account (nonce s) (balance s).

Definition represents m l : Prop := ∀ a, m !! account_key a = encode <$> l !! a.

Definition store_ok l : Prop := ∀ a s, l !! a = Some s → in_u64 (nonce s).

Record repr (d : Database) l : Prop := mk_repr {
  repr_contents : represents (db_contents d) l;
  repr_ok : store_ok l;
}.

Lemma represents_insert m l a s :
  represents m l → represents (<[account_key a := encode s]> m) (<[a := s]> l).
Proof.
  intros Hm b. destruct (decide (a = b)) as [<-|Hne].
  - by rewrite !lookup_insert_eq.
  - rewrite !lookup_insert_ne; [apply Hm|done|]. intros H%account_key_inj. done.
Qed.

Lemma runs_clear d d' :
  runs clear_database_body d tt d' →
  ∀ k, db_contents d' !! k =
    if in_range account_prefix (account_prefix ++ [xff]) k then None else db_contents d !! k.
Proof.
  remember tt as u eqn:Eu. induction 1 as [d x d' H|d d1 x d' res Hres H _ IH]; intros k.
  - apply committed_ok in H as (tr & tr' & Ht & [= _ <-] & Hd'). by rewrite Hd', trx_clear_ok, Ht.
  - rewrite (IH Eu). destruct (in_range _ _ k) eqn:E; [done|].
    destruct Hres as [-> | ->]; [by rewrite (retried_ok _ _ _ _ H)|].
    apply unknown_ok in H as [-> |(y & tr & tr' & Ht & Hb & Hd1)]; [done|].
    assert (tr' = trx_clear_range account_prefix (account_prefix ++ [xff]) tr) as ->
      by (unfold clear_database_body in Hb; congruence).
    by rewrite Hd1, trx_clear_ok, E, Ht.
Qed.

(** C39: [clear_database] does not clear the account key space.  It removes
    exactly the keys of the accounts whose hashed address does not start with
    the byte 0xff: the range ends before them, and their stale values stay. *)
Theorem clear_database_misses_shard d d' a :
  runs clear_database_body d tt d' →
  db_contents d' !! account_key a =
  if decide (shard a = Some xff) then db_contents d !! account_key a else None.
Proof.
  intros H. rewrite (runs_clear _ _ H), account_key_in_range.
  case_decide; [by rewrite bool_decide_true|by rewrite bool_decide_false].
Qed.

(** ** One attempt *)

Lemma payer_ok l tx s : store_ok l → Store.payer l tx = Some s → in_u64 (nonce s).
Proof.
  intros Hl. unfold Store.payer. destruct (l !! Wl.from tx) as [s'|] eqn:E; [|done]. cbn.
  repeat case_match; intros; simplify_eq. by eapply Hl.
Qed.

Lemma transfer_ok l tx : store_ok l → store_ok (Store.transfer l tx).1.
Proof.
  intros Hl. unfold Store.transfer. destruct (Store.payer l tx) as [s|] eqn:Hp; [|exact Hl]. cbn.
  intros a s'. rewrite !lookup_insert. repeat case_decide.
  - intros [= <-]. cbn. destruct (l !! Wl.to tx) as [r|] eqn:E; [by eapply Hl|]. by split.
  - intros [= <-]. apply u64_add_range.
  - apply Hl.
Qed.

(** The receiver's bytes, or the account of an absent key. *)
Lemma decode_receiver l a :
  store_ok l →
  match encode <$> l !! a with
  | Some data => decode_account data
  | None => Return (0%Z, u256_zero)
  end = Return (nonce (default Store.absent (l !! a)), balance (default Store.absent (l !! a))).
Proof.
  intros Hl. destruct (l !! a) as [r|] eqn:E; [|done]. cbn.
  unfold encode. apply decode_encode. by eapply Hl.
Qed.

(** The closure of a transfer computes the store's transfer, and cannot panic. *)
Lemma transfer_body_spec tr l tx :
  represents (trx_contents tr) l → store_ok l →
  match transfer_body tx tr with
  | Return (inr ok, tr') =>
      (Store.transfer l tx).2 = ok ∧ represents (trx_contents tr') (Store.transfer l tx).1
  | Return (inl _, _) => True
  | Panic | Timeout => False
  end.
Proof.
  intros Hm Hl. unfold transfer_body, Store.transfer, Store.payer.
  destruct (trx_get tr (account_key (Wl.from tx))) as [e|o] eqn:Eg; [done|].
  apply trx_get_ok in Eg. rewrite Hm in Eg. subst o.
  destruct (l !! Wl.from tx) as [s|] eqn:Hs; [|by split].
  cbn [fmap option_fmap option_map]. unfold encode at 1. rewrite decode_encode by (by eapply Hl). cbn.
  destruct (nonce s =? Wl.tx_nonce tx)%Z; [|by split]. cbn.
  destruct (u256_lt (balance s) (Wl.value tx)); [by split|].
  destruct (trx_get tr (account_key (Wl.to tx))) as [e|o] eqn:Eg2; [done|].
  apply trx_get_ok in Eg2. rewrite Hm in Eg2. subst o.
  pose proof (decode_receiver l (Wl.to tx) Hl) as Hr. cbn in Hr. rewrite Hr. cbn.
  split; [done|]. rewrite !trx_set_ok.
  apply (represents_insert _ _ (Wl.to tx) (Store.receiver_after tx _)).
  by apply (represents_insert _ _ (Wl.from tx) (Store.sender_after tx s)).
Qed.

(** What an attempt leaves: the store unchanged, or transferred. *)
Lemma attempt_spec tx d res d' l :
  repr d l → attempt (transfer_body tx) d res d' →
  match res with
  | Committed ok => Store.transfer l tx = ((Store.transfer l tx).1, ok) ∧ repr d' (Store.transfer l tx).1
  | Retried | Errored => repr d' l
  | CommitUnknown => repr d' l ∨ repr d' (Store.transfer l tx).1
  | ClosurePanicked => False
  end.
Proof.
  intros [Hc Hok] H.
  assert (∀ tr, trx_contents tr = db_contents d → represents (trx_contents tr) l) as Hrep.
  { intros tr ->. done. }
  destruct res as [ok| | | |].
  - apply committed_ok in H as (tr & tr' & Ht & Hb & Hd').
    pose proof (transfer_body_spec tr l tx (Hrep _ Ht) Hok) as Hs. rewrite Hb in Hs.
    destruct Hs as [<- Hs]. split; [by destruct (Store.transfer l tx)|].
    split; [by rewrite Hd'|by apply transfer_ok].
  - apply retried_ok in H. split; [by rewrite H|done].
  - apply unknown_ok in H as [H|(ok & tr & tr' & Ht & Hb & Hd')]; [left; split; [by rewrite H|done]|].
    right. pose proof (transfer_body_spec tr l tx (Hrep _ Ht) Hok) as Hs. rewrite Hb in Hs.
    split; [rewrite Hd'; apply Hs|by apply transfer_ok].
  - apply errored_ok in H. split; [by rewrite H|done].
  - apply panicked_ok in H as (tr & Ht & Hb).
    pose proof (transfer_body_spec tr l tx (Hrep _ Ht) Hok) as Hs. by rewrite Hb in Hs.
Qed.

(** ** Setting up *)

Lemma repr_set d tr l a b d' :
  repr d l → trx_contents tr = db_contents d →
  db_contents d' = <[account_key a := encode_account 0 b]> (trx_contents tr) →
  repr d' (<[a := AccountState_new 0 b]> l).
Proof.
  intros [Hc Hok] Ht Hd'. split.
  - rewrite Hd', Ht. by apply (represents_insert _ _ a (AccountState_new 0 b)).
  - intros a' s. rewrite lookup_insert. case_decide; [intros [= <-]; by split|apply Hok].
Qed.

(** The store after funding the accounts of one batch. *)
Definition fund_batch l (batch : list (Address * U256)) : gmap Address AccountState :=
  foldl (λ l p, <[p.1 := AccountState_new 0 p.2]> l) l batch.

Lemma init_batch_contents batch tr tr' l :
  represents (trx_contents tr) l → init_batch_body batch tr = Return (inr tt, tr') →
  represents (trx_contents tr') (fund_batch l batch).
Proof.
  revert tr l. induction batch as [|[a b] batch IH]; intros tr l Hm; cbn; [by intros [= <-]|].
  apply IH. rewrite trx_set_ok. by apply (represents_insert _ _ a (AccountState_new 0 b)).
Qed.

Lemma fund_batch_ok l batch : store_ok l → store_ok (fund_batch l batch).
Proof.
  revert l. induction batch as [|[a b] batch IH]; intros l Hl; [done|]. cbn. apply IH.
  intros a' s. rewrite lookup_insert. case_decide; [intros [= <-]; by split|apply Hl].
Qed.

(** Funding again funds the same. *)
Lemma fund_batch_lookup l batch a :
  fund_batch l batch !! a =
  match last (filter (λ p, p.1 = a) batch) with
  | Some p => Some (AccountState_new 0 p.2) | None => l !! a
  end.
Proof.
  induction batch as [|[b v] batch IH] using rev_ind; [done|].
  unfold fund_batch in *. rewrite foldl_snoc. cbn. rewrite filter_app, filter_cons. cbn.
  case_decide; subst; cbn.
  - by rewrite lookup_insert_eq, last_snoc.
  - by rewrite lookup_insert_ne, app_nil_r, IH.
Qed.

Lemma fund_batch_idem l batch : fund_batch (fund_batch l batch) batch = fund_batch l batch.
Proof. apply map_eq. intros a. rewrite !fund_batch_lookup. by case_match. Qed.

Lemma runs_batch d d' l batch :
  repr d l → runs (init_batch_body batch) d tt d' → repr d' (fund_batch l batch).
Proof.
  intros Hr H.
  assert (∀ d, repr d l ∨ repr d (fund_batch l batch) →
    ∀ tr tr', trx_contents tr = db_contents d → init_batch_body batch tr = Return (inr tt, tr') →
    ∀ d', db_contents d' = trx_contents tr' → repr d' (fund_batch l batch)) as Hone.
  { intros d1 Hd1 tr tr' Ht Hb d2 Hd2. destruct Hr as [_ Hok].
    split; [rewrite Hd2|by apply fund_batch_ok].
    destruct Hd1 as [[Hc _]|[Hc _]]; [|rewrite <- fund_batch_idem];
      eapply init_batch_contents; try done; by rewrite Ht. }
  assert (repr d l ∨ repr d (fund_batch l batch)) as Hd by auto. clear Hr.
  remember tt as u eqn:Eu. induction H as [d x d' H|d d1 x d' res Hres H _ IH]; subst.
  - apply committed_ok in H as (tr & tr' & Ht & Hb & Hd'). by eapply Hone.
  - apply IH; [done|done|]. destruct Hres as [-> | ->].
    + apply retried_ok in H. destruct Hd as [[Hc Hok]|[Hc Hok]]; [left|right]; split; by rewrite ?H.
    + apply unknown_ok in H as [H|([] & tr & tr' & Ht & Hb & Hd')].
      * destruct Hd as [[Hc Hok]|[Hc Hok]]; [left|right]; split; by rewrite ?H.
      * right. by eapply Hone.
Qed.

Lemma init_batches_spec batches d d' l :
  repr d l → init_batches batches d d' → repr d' (fund_batch l (List.concat batches)).
Proof.
  intros Hr H. revert l Hr. induction H as [d|batch batches d d1 d' Hb _ IH]; intros l Hr; [done|].
  cbn. unfold fund_batch. rewrite foldl_app. apply IH. by eapply runs_batch.
Qed.

(** The accounts of an earlier content that clearing leaves behind. *)
Definition stale l : gmap Address AccountState := filter (λ p, shard p.1 = Some xff) l.

Lemma stale_lookup l a : stale l !! a = if decide (shard a = Some xff) then l !! a else None.
Proof.
  unfold stale. case_decide.
  - destruct (l !! a) as [s|] eqn:E.
    + by apply map_lookup_filter_Some_2.
    + apply map_lookup_filter_None_2. by left.
  - apply map_lookup_filter_None_2. right. intros s _. done.
Qed.

Lemma stale_empty : stale ∅ = ∅.
Proof. apply map_filter_empty. Qed.

Lemma setup_spec d d1 d2 l w :
  repr d l → runs clear_database_body d tt d1 → init_accounts (funded w) d1 d2 →
  repr d2 (Store.fund (stale l) (Wl.addresses w)).
Proof.
  intros [Hc Hok] Hclear (batches & Hch & Hinit).
  assert (repr d1 (stale l)) as Hr1.
  { split.
    - intros a. rewrite (runs_clear _ _ Hclear), account_key_in_range, stale_lookup.
      case_decide; [rewrite bool_decide_true by done; apply Hc|by rewrite bool_decide_false].
    - intros a s. rewrite stale_lookup. case_decide; [apply Hok|done]. }
  apply (init_batches_spec _ _ _ _ Hr1) in Hinit.
  unfold chunks in Hch. cbn in Hch. injection Hch as <-.
  rewrite chunks_aux_concat in Hinit by (done || unfold BATCH_SIZE; lia).
  replace (Store.fund _ _) with (fund_batch (stale l) (funded w)); [done|].
  unfold funded, Wl.addresses, Store.fund, fund_batch. generalize (stale l).
  induction (Wl.accounts w) as [|acc accs IH]; intros l'; [done|]. cbn. apply IH.
Qed.

(** ** The threads' slices *)

Lemma spawn_spec k i per (txs : list Wl.SignedTransaction) :
  0 < per → length txs ≤ (i + k) * per →
  List.concat (spawn k i per txs) = drop (i * per) txs ∧
  length (spawn k i per txs) ≤ k ∧
  Forall (λ slice, 0 < length slice ≤ per) (spawn k i per txs).
Proof.
  intros Hper. revert i. induction k as [|k IH]; intros i Hlen.
  { cbn. rewrite drop_ge by lia. done. }
  cbn [spawn]. destruct (Nat.leb_spec (length txs) (i * per)) as [Hle|Hlt].
  { cbn. rewrite drop_ge by done. split_and!; [done|lia|constructor]. }
  destruct (IH (i + 1)) as (Hc & Hl & Hf); [lia|]. cbn [List.concat length].
  split_and!; [|lia|].
  - rewrite Hc. transitivity (take per (drop (i * per) txs) ++ drop per (drop (i * per) txs));
      [|apply take_drop].
    rewrite drop_drop. replace (i * per + per) with ((i + 1) * per) by lia. f_equal.
    destruct (decide ((i + 1) * per ≤ length txs)).
    + f_equal. lia.
    + rewrite !take_ge by (rewrite length_drop; lia). done.
  - constructor; [|done]. rewrite length_take, length_drop. lia.
Qed.

Lemma txs_per_thread_enough n k : 0 < k → n ≤ k * txs_per_thread n k.
Proof.
  intros Hk. unfold txs_per_thread.
  pose proof (Nat.div_mod (n + k - 1) k ltac:(lia)).
  pose proof (Nat.mod_upper_bound (n + k - 1) k ltac:(lia)). lia.
Qed.

Lemma concat_thread_slices self txs :
  0 < num_threads self → List.concat (thread_slices self txs) = txs.
Proof.
  intros Hk. unfold thread_slices. pose proof (txs_per_thread_enough (length txs) _ Hk) as Hn.
  destruct (txs_per_thread (length txs) (num_threads self)) as [|per] eqn:E.
  - assert (txs = []) as -> by (apply nil_length_inv; lia). by destruct (num_threads self); [lia|].
  - apply (spawn_spec _ 0); lia.
Qed.

(** The threads' slices partition the workload: in thread order they are
    consecutive and make up the whole list, no slice is empty or larger than
    the quotient rounded up, and there are at most as many as threads. *)
Theorem thread_slices_partition self txs :
  0 < num_threads self →
  List.concat (thread_slices self txs) = txs ∧
  length (thread_slices self txs) ≤ num_threads self ∧
  Forall (λ slice, 0 < length slice ≤ txs_per_thread (length txs) (num_threads self))
    (thread_slices self txs).
Proof.
  intros Hk. unfold thread_slices. pose proof (txs_per_thread_enough (length txs) _ Hk) as Hn.
  destruct (txs_per_thread (length txs) (num_threads self)) as [|per] eqn:E.
  - assert (txs = []) as -> by (apply nil_length_inv; lia).
    destruct (num_threads self); [lia|]. cbn. split_and!; [done|lia|constructor].
  - apply (spawn_spec _ 0); lia.
Qed.

(** ** Threads that have been overtaken *)

Lemma payer_inv l tx s :
  Store.payer l tx = Some s → l !! Wl.from tx = Some s ∧ nonce s = Wl.tx_nonce tx.
Proof.
  unfold Store.payer. destruct (l !! Wl.from tx) as [s'|]; [|done]. cbn.
  destruct (Z.eqb_spec (nonce s') (Wl.tx_nonce tx)); cbn; [|done].
  destruct (u256_lt _ _); [done|]. by intros [= <-].
Qed.

(** A transfer never lowers a nonce, and raises only its sender's. *)
Lemma transfer_nonce l tx a s :
  l !! a = Some s → (0 ≤ Wl.tx_nonce tx ∧ Wl.tx_nonce tx + 1 < u64_modulus)%Z →
  ∃ s', (Store.transfer l tx).1 !! a = Some s' ∧ (nonce s ≤ nonce s')%Z ∧
    (a ≠ Wl.from tx ∨ (Store.transfer l tx).2 = false → nonce s' = nonce s).
Proof.
  intros Ha Hn. unfold Store.transfer. destruct (Store.payer l tx) as [p|] eqn:Hp.
  2:{ exists s. split_and!; [done|lia|done]. }
  apply payer_inv in Hp as [Hf Hnonce]. cbn. rewrite !lookup_insert.
  destruct (decide (Wl.to tx = a)) as [<-|Hto].
  { rewrite Ha. eexists. split_and!; [done|cbn; lia|done]. }
  destruct (decide (Wl.from tx = a)) as [<-|Hfrom].
  - rewrite Hf in Ha. simplify_eq. eexists. split; [done|]. cbn.
    rewrite u64_add_small by lia. split; [lia|]. by intros [?|?].
  - exists s. split_and!; [done|lia|done].
Qed.

(** A step keeps every other thread, and takes at most the head of its own. *)
Lemma step_inv self st st' :
  step self st st' →
  ∃ t tx txs s f th', threads st !! t = Some (mkThread (tx :: txs) s f false) ∧
    threads st' = <[t := th']> (threads st) ∧
    ((signature_invalid (verify_signatures self) tx = true ∧ todo th' = txs ∧ db st' = db st) ∨
     ∃ res, signature_invalid (verify_signatures self) tx = false ∧
       attempt (transfer_body tx) (db st) res (db st') ∧ th' = after_attempt tx txs s f res).
Proof.
  intros [t th th' d' Ht Hs ->]. destruct Hs as [tx txs s f d Hinv|tx txs s f d res d' Hval Hatt].
  - eexists _, _, _, _, _, _. split_and!; [done..|]. by left.
  - eexists _, _, _, _, _, _. split_and!; [done..|]. right. eauto.
Qed.

(** What an attempt leaves, in one store. *)
Lemma attempt_store tx d res d' l :
  repr d l → attempt (transfer_body tx) d res d' →
  ∃ l', repr d' l' ∧ (l' = l ∨ l' = (Store.transfer l tx).1) ∧
    (res = Committed true → (Store.transfer l tx).2 = true).
Proof.
  intros Hr Hatt. pose proof (attempt_spec _ _ _ _ _ Hr Hatt) as Hs.
  destruct res as [ok| | | |]; [|exists l; split_and!; [done|by left|done]| |exists l; split_and!; [done|by left|done]|done].
  2:{ destruct Hs; eexists; (split_and!; [done|auto|done]). }
  destruct Hs as [Htr Hr']. exists (Store.transfer l tx).1. split_and!; [done|by right|].
  intros [= ->]. by rewrite Htr.
Qed.

Definition nonces_fit st : Prop := ∀ t th tx, threads st !! t = Some th → tx ∈ todo th →
  (0 ≤ Wl.tx_nonce tx ∧ Wl.tx_nonce tx + 1 < u64_modulus)%Z.

Lemma after_attempt_todo tx txs s f res :
  todo (after_attempt tx txs s f res) = txs ∧ res = Committed true ∨
  todo (after_attempt tx txs s f res) = tx :: txs ∧ res ≠ Committed true.
Proof. destruct res as [[]| | | |]; auto. Qed.

(** No step adds a transaction to a thread. *)
Lemma step_todo self st st' t th' tx :
  step self st st' → threads st' !! t = Some th' → tx ∈ todo th' →
  ∃ th, threads st !! t = Some th ∧ tx ∈ todo th.
Proof.
  intros (u & tx' & txs & s & f & uth & Hu & -> & H)%step_inv.
  intros [[-> [= ->]]|[_ Ht]]%list_lookup_insert_Some_alt Hin; [|eauto].
  eexists. split; [done|]. cbn. destruct H as [(_ & E & _)|(res & _ & _ & ->)].
  - rewrite E in Hin. by right.
  - destruct (after_attempt_todo tx' txs s f res) as [[E _]|[E _]]; rewrite E in Hin; [by right|done].
Qed.

Lemma nonces_fit_step self st st' : nonces_fit st → step self st st' → nonces_fit st'.
Proof.
  intros Hn Hs t th tx Ht Hin. destruct (step_todo _ _ _ _ _ _ Hs Ht Hin) as (th0 & Ht0 & Hin0).
  by eapply Hn.
Qed.

(** Thread [t] is at a valid transaction whose nonce has been passed. *)
Record outdated self st t tx : Prop := {
  od_fit : nonces_fit st;
  od_valid : signature_invalid (verify_signatures self) tx = false;
  od_thread : ∃ th txs, threads st !! t = Some th ∧ todo th = tx :: txs;
  od_store : ∃ l s, repr (db st) l ∧ l !! Wl.from tx = Some s ∧ (Wl.tx_nonce tx < nonce s)%Z;
}.

Lemma outdated_step self st st' t tx : outdated self st t tx → step self st st' → outdated self st' t tx.
Proof.
  intros [Hfit Hval (th & txs & Ht & Htodo) (l & p & Hr & Hp & Hlt)] Hs.
  pose proof (nonces_fit_step _ _ _ Hfit Hs) as Hfit'.
  apply step_inv in Hs as (u & tx' & txs' & s & f & uth & Hu & Hths & H).
  assert (0 ≤ Wl.tx_nonce tx' ∧ Wl.tx_nonce tx' + 1 < u64_modulus)%Z as Hn'.
  { apply (Hfit _ _ _ Hu). cbn. left. }
  assert (refused : (Store.transfer l tx).2 = false).
  { unfold Store.transfer. destruct (Store.payer l tx) as [q|] eqn:Hq; [|done].
    apply payer_inv in Hq as [Hq Hqn]. rewrite Hp in Hq. simplify_eq. lia. }
  destruct H as [(Hinv & E & Hdb)|(res & _ & Hatt & ->)].
  - split; [done|done| |rewrite Hdb; eauto]. rewrite Hths.
    destruct (decide (t = u)) as [->|Hne]; [|rewrite list_lookup_insert_ne by done; eauto].
    rewrite Ht in Hu. simplify_eq/=. congruence.
  - destruct (attempt_store _ _ _ _ _ Hr Hatt) as (l' & Hr' & Hl' & Hc). split; [done|done| |].
    + rewrite Hths. destruct (decide (t = u)) as [->|Hne]; [|rewrite list_lookup_insert_ne by done; eauto].
      rewrite Ht in Hu. simplify_eq/=.
      rewrite list_lookup_insert_eq by (by eapply lookup_lt_Some). eexists _, _. split; [done|].
      destruct (after_attempt_todo tx txs s f res) as [[_ E]|[-> _]]; [|done].
      apply Hc in E. congruence.
    + destruct Hl' as [->| ->]; [eauto|].
      destruct (transfer_nonce l tx' _ p Hp Hn') as (p' & Hp' & Hle & _).
      eexists _, p'. split_and!; [done|done|lia].
Qed.

Lemma outdated_steps self st st' t tx :
  outdated self st t tx → rtc (step self) st st' → outdated self st' t tx.
Proof. intros Ho H. induction H; [done|]. eauto using outdated_step. Qed.

Lemma outdated_forever self st st' t tx :
  outdated self st t tx → rtc (step self) st st' → ¬ finished st'.
Proof.
  intros Ho H. destruct (outdated_steps _ _ _ _ _ Ho H) as [_ _ (th & txs & Ht & E) _].
  intros Hfin. destruct (proj1 (Forall_lookup _ _) Hfin t th Ht) as [E' _]. congruence.
Qed.

(** ** Serializability *)

(** The transactions of a list a thread does not reject. *)
Definition accepted (v : bool) (txs : list Wl.SignedTransaction) : list Wl.SignedTransaction :=
  filter (λ tx, signature_invalid v tx = false) txs.

Lemma accepted_snoc v txs tx :
  accepted v (txs ++ [tx]) = if signature_invalid v tx then accepted v txs else accepted v txs ++ [tx].
Proof.
  unfold accepted. rewrite filter_app, filter_cons. cbn.
  destruct (signature_invalid v tx); cbn; [by rewrite app_nil_r|done].
Qed.

Lemma run_snoc_transfer l0 log l s f tx :
  Store.run false l0 log = (l, s, f) →
  Store.run false l0 (log ++ [tx]) =
  ((Store.transfer l tx).1, s + Nat.b2n (Store.transfer l tx).2, f + Nat.b2n (negb (Store.transfer l tx).2)).
Proof.
  intros H. rewrite Store.run_app_store, H. cbn. unfold Store.apply, Exec.signature_rejected.
  destruct (Store.transfer l tx) as [l' ok]. cbn. by rewrite !Nat.add_0_r.
Qed.

(** What has been done so far: thread [t] has finished [done !! t], and the
    store is the one after the accepted ones in the order of [log]. *)
Record serial (v : bool) (slices : list (list Wl.SignedTransaction)) l0 st
    (finished_txs : list (list Wl.SignedTransaction)) (log : list Wl.SignedTransaction) l : Prop := {
  se_length : length finished_txs = length (threads st) ∧ length slices = length (threads st);
  se_threads : ∀ t th d, threads st !! t = Some th → finished_txs !! t = Some d →
    slices !! t = Some (d ++ todo th) ∧ successful th = length (accepted v d) ∧
    failed th + successful th = length d ∧ panicked th = false;
  se_log : interleaves (accepted v <$> finished_txs) log;
  se_run : Store.run false l0 log = (l, length log, 0);
  se_repr : repr (db st) l;
}.

Lemma serial_start self d w l :
  repr d l →
  serial (verify_signatures self) (thread_slices self (Wl.transactions w)) l (start self d w)
    ((λ _, []) <$> thread_slices self (Wl.transactions w)) [] l.
Proof.
  intros Hr. split; cbn.
  - by rewrite !length_fmap.
  - intros t th d' Ht Hd. apply list_lookup_fmap_Some in Ht as (slice & -> & Hs).
    apply list_lookup_fmap_Some in Hd as (slice' & -> & _). done.
  - apply interleaves_nil, Forall_fmap, Forall_fmap, Forall_forall. done.
  - done.
  - done.
Qed.

Definition proper_todo st : Prop := ∀ t th tx,
  threads st !! t = Some th → tx ∈ todo th → Store.proper_transfer tx.

Lemma proper_todo_fit st : proper_todo st → nonces_fit st.
Proof. intros H t th tx Ht Hin. by apply (H t th tx). Qed.

Lemma proper_todo_step self st st' : proper_todo st → step self st st' → proper_todo st'.
Proof.
  intros Hp Hs t th tx Ht Hin. destruct (step_todo _ _ _ _ _ _ Hs Ht Hin) as (th0 & Ht0 & Hin0).
  by eapply Hp.
Qed.

Lemma proper_todo_steps self st st' : proper_todo st → rtc (step self) st st' → proper_todo st'.
Proof. intros Hp H. induction H; [done|]. eauto using proper_todo_step. Qed.

(** A step that leaves all threads where they are leaves the database as it was:
    no transfer was applied whose commit was reported as unknown. *)
Definition reported st st' : Prop :=
  threads st' = threads st → db_contents (db st') = db_contents (db st).

(** A thread whose transaction was applied, although its commit was unknown, has
    been overtaken by itself. *)
Lemma unreported_outdated self st t tx txs s f l p d' :
  proper_todo st → threads st !! t = Some (mkThread (tx :: txs) s f false) →
  signature_invalid (verify_signatures self) tx = false →
  Store.payer l tx = Some p → repr d' (Store.transfer l tx).1 →
  outdated self (mkState d' (threads st)) t tx.
Proof.
  intros Hp Ht Hval Hpay Hr'. destruct (Hp t _ tx Ht ltac:(left)) as [Hft Hn]. split; cbn.
  - by apply proper_todo_fit.
  - done.
  - by eexists _, _.
  - unfold Store.transfer in Hr'. rewrite Hpay in Hr'. apply payer_inv in Hpay as [_ Hpn]. cbn in Hr'.
    eexists _, (Store.sender_after tx p). split; [exact Hr'|].
    rewrite lookup_insert_ne, lookup_insert_eq by done. split; [done|]. cbn.
    rewrite u64_add_small; lia.
Qed.

(** After an unknown commit the store is as it was, or a transfer was applied. *)
Lemma unknown_case tx d d' l :
  repr d l → attempt (transfer_body tx) d CommitUnknown d' →
  repr d' l ∨ ∃ p, Store.payer l tx = Some p ∧ repr d' (Store.transfer l tx).1 ∧
    db_contents d' ≠ db_contents d.
Proof.
  intros Hr Hatt. pose proof (attempt_spec _ _ _ _ _ Hr Hatt) as [Hr'|Hr']; [by left|].
  destruct (Store.payer l tx) as [p|] eqn:Hpay.
  - destruct (decide (db_contents d' = db_contents d)) as [E|]; [left|right; by exists p].
    destruct Hr as [Hc Hok]. split; [by rewrite E|done].
  - left. unfold Store.transfer in Hr'. by rewrite Hpay in Hr'.
Qed.

(** A step keeps the invariant, or applies a transfer without reporting it and
    leaves an overtaken thread. *)
Lemma serial_step self slices l0 st st' done log l :
  proper_todo st → serial (verify_signatures self) slices l0 st done log l → step self st st' →
  (∃ done' log' l', serial (verify_signatures self) slices l0 st' done' log' l') ∨
  (¬ reported st st' ∧ ∃ t tx, outdated self st' t tx).
Proof.
  intros Hproper [[Hl1 Hl2] Hth Hlog Hrun Hrepr] [t th th' d' Ht Hs ->].
  destruct (lookup_lt_is_Some_2 done t) as [d Hd]; [rewrite Hl1; by eapply lookup_lt_Some|].
  destruct (Hth t th d Ht Hd) as (Hsl & Hsucc & Hfail & _).
  (* A thread that goes round its loop again. *)
  assert (∀ d', todo th' = todo th → successful th' = successful th → failed th' = failed th →
    panicked th' = false → repr d' l →
    serial (verify_signatures self) slices l0 (mkState d' (<[t := th']> (threads st))) done log l) as Hsame.
  { intros d1 E1 E2 E3 E4 Hr. split; cbn; rewrite ?length_insert; try done.
    intros u uth ud [[-> [= ->]]|[_ Hu]]%list_lookup_insert_Some_alt Hud; [|by apply Hth].
    simplify_eq. by rewrite E1, E2, E3, E4. }
  assert (∀ tx txs b, slices !! t = Some (d ++ tx :: txs) → todo th' = txs →
    signature_invalid (verify_signatures self) tx = negb b →
    successful th' = successful th + Nat.b2n b → failed th' = failed th + Nat.b2n (negb b) →
    panicked th' = false →
    ∀ u uth ud, <[t := th']> (threads st) !! u = Some uth → <[t := d ++ [tx]]> done !! u = Some ud →
    slices !! u = Some (ud ++ todo uth) ∧ successful uth = length (accepted (verify_signatures self) ud) ∧
    failed uth + successful uth = length ud ∧ panicked uth = false) as Hnext.
  { intros tx txs b E1 E2 E3 E4 E5 E6 u uth ud.
    intros [[-> [= ->]]|[Hne Hu]]%list_lookup_insert_Some_alt
      [[? [= ->]]|[Hne' Hud]]%list_lookup_insert_Some_alt; try done; [|by apply Hth].
    rewrite E2, <- app_assoc, accepted_snoc, E3, E4, E5, E6, length_app. cbn.
    destruct b; cbn; rewrite ?length_app; cbn; split_and!; done || lia. }
  remember (db st) as d0 eqn:Ed. destruct Hs as [tx txs s f d0 Hinv|tx txs s f d0 res d' Hval Hatt].
  - left. exists (<[t := d ++ [tx]]> done), log, l. split; cbn; rewrite ?length_insert; try done.
    + by apply (Hnext tx txs false).
    + rewrite list_fmap_insert, accepted_snoc, Hinv.
      rewrite list_insert_id; [done|]. by rewrite list_lookup_fmap, Hd.
  - pose proof (attempt_spec _ _ _ _ _ Hrepr Hatt) as Hspec.
    destruct res as [[]| | | |].
    + left. destruct Hspec as [Htr Hr']. exists (<[t := d ++ [tx]]> done), (log ++ [tx]), (Store.transfer l tx).1.
      split; cbn; rewrite ?length_insert; try done.
      * by apply (Hnext tx txs true).
      * rewrite list_fmap_insert, accepted_snoc, Hval. apply interleaves_snoc; [done|].
        by rewrite list_lookup_fmap, Hd.
      * rewrite (run_snoc_transfer _ _ _ _ _ _ Hrun), Htr, length_app. cbn. f_equal; lia.
    + left. destruct Hspec as [Htr Hr']. exists done, log, l. apply Hsame; try done.
      assert ((Store.transfer l tx).1 = l) as E; [|by rewrite E in Hr'].
      unfold Store.transfer in *. destruct (Store.payer l tx); [|done]. discriminate Htr.
    + left. exists done, log, l. by apply Hsame.
    + destruct (unknown_case _ _ _ _ Hrepr Hatt) as [Hr'|(p & Hpay & Hr' & Hne)].
      { left. exists done, log, l. by apply Hsame. }
      right. cbn. rewrite list_insert_id by done. split; [intros Hrep; apply Hne; rewrite Ed; by apply Hrep|].
      exists t, tx. by eapply unreported_outdated.
    + left. exists done, log, l. by apply Hsame.
    + destruct Hspec.
Qed.

Lemma serial_steps self slices l0 st st' done log l :
  proper_todo st → serial (verify_signatures self) slices l0 st done log l → rtc (step self) st st' →
  (∃ done' log' l', serial (verify_signatures self) slices l0 st' done' log' l') ∨
  ∃ t tx, outdated self st' t tx.
Proof.
  intros Hp H0 H. revert Hp done log l H0.
  induction H as [st|st st1 st2 Hs H IH]; intros Hp done log l H0; [left; by exists done, log, l|].
  destruct (serial_step _ _ _ _ _ _ _ _ Hp H0 Hs) as [(done' & log' & l1 & H1)|(_ & t & tx & Ho)].
  - eapply IH; [by eapply proper_todo_step|exact H1].
  - right. exists t, tx. by eapply outdated_steps.
Qed.

(** Without unreported transfers the invariant is kept. *)
Lemma serial_steps_reported self slices l0 st st' done log l :
  proper_todo st → serial (verify_signatures self) slices l0 st done log l →
  rtc (λ st st', step self st st' ∧ reported st st') st st' →
  ∃ done' log' l', serial (verify_signatures self) slices l0 st' done' log' l'.
Proof.
  intros Hp H0 H. revert Hp done log l H0.
  induction H as [st|st st1 st2 [Hs Hrep] H IH]; intros Hp done log l H0; [by exists done, log, l|].
  destruct (serial_step _ _ _ _ _ _ _ _ Hp H0 Hs) as [(done' & log' & l1 & H1)|[[] _]]; [|done].
  eapply IH; [by eapply proper_todo_step|exact H1].
Qed.

Lemma start_proper self d w :
  0 < num_threads self → Forall Store.proper_transfer (Wl.transactions w) → proper_todo (start self d w).
Proof.
  intros Hk Hall t th tx Ht Hin. cbn in Ht. apply list_lookup_fmap_Some in Ht as (slice & -> & Hs).
  rewrite <- (concat_thread_slices self (Wl.transactions w) Hk) in Hall.
  rewrite Forall_forall in Hall. apply Hall, list_elem_of_In, in_concat.
  exists slice. split; [|by apply list_elem_of_In]. apply list_elem_of_In. by eapply list_elem_of_lookup_2.
Qed.

(** At the end every slice has been finished. *)
Lemma serial_finished v slices l0 st done log l :
  serial v slices l0 st done log l → finished st → done = slices.
Proof.
  intros [[Hl1 Hl2] Hth _ _ _] Hfin. apply list_eq. intros t.
  destruct (done !! t) as [d|] eqn:Hd.
  - destruct (lookup_lt_is_Some_2 (threads st) t) as [th Ht].
    { rewrite <- Hl1. by eapply lookup_lt_Some. }
    destruct (Hth t th d Ht Hd) as (-> & _).
    destruct (proj1 (Forall_lookup _ _) Hfin t th Ht) as [-> _]. by rewrite app_nil_r.
  - apply lookup_ge_None_1 in Hd. symmetry. apply lookup_ge_None_2. lia.
Qed.

Lemma serial_counts v slices l0 st done log l :
  serial v slices l0 st done log l → finished st →
  total_successful (collect st) = length log ∧
  total_successful (collect st) + total_failed (collect st) = sum_list (length <$> slices).
Proof.
  intros Hse Hfin. pose proof (serial_finished _ _ _ _ _ _ _ Hse Hfin) as ->.
  destruct Hse as [[Hl1 _] Hth Hlog _ _]. rewrite (interleaves_length _ _ Hlog). cbn.
  clear Hlog Hfin. revert Hl1 Hth. generalize (threads st) as ths. clear st.
  induction slices as [|d slices IH]; intros [|th ths] Hlen Hth; try done.
  destruct (IH ths) as [IH1 IH2]; [by injection Hlen|intros t; by apply (Hth (S t))|].
  destruct (Hth 0 th d eq_refl eq_refl) as (_ & Hs & Hf & _). cbn in *. lia.
Qed.

Lemma sum_length_concat {T} (ls : list (list T)) : sum_list (length <$> ls) = length (List.concat ls).
Proof. induction ls as [|l ls IH]; [done|]. cbn. by rewrite length_app, IH. Qed.

(** A returned execution has finished every slice. *)
Lemma execute_workload_serial self w d l r d' :
  Forall Store.proper_transfer (Wl.transactions w) →
  0 < num_threads self → repr d l → execute_workload self d w r d' →
  let slices := thread_slices self (Wl.transactions w) in
  List.concat slices = Wl.transactions w ∧
  ∃ st log l',
    serial (verify_signatures self) slices (Store.fund (stale l) (Wl.addresses w)) st slices log l' ∧
    db st = d' ∧ total_successful r = length log ∧
    total_successful r + total_failed r = length (Wl.transactions w).
Proof.
  intros Hp Hk Hr (d1 & d2 & st & Hclear & Hinit & Hsteps & Hfin & <- & <-).
  pose proof (concat_thread_slices self (Wl.transactions w) Hk) as Hcat.
  pose proof (setup_spec _ _ _ _ _ Hr Hclear Hinit) as Hr2.
  destruct (serial_steps _ _ _ _ _ _ _ _ (start_proper _ d2 _ Hk Hp) (serial_start _ _ _ _ Hr2) Hsteps)
    as [(done & log & l' & Hse)|(t & tx & Ho)].
  2:{ by destruct (outdated_forever self st st t tx Ho (rtc_refl _ _)). }
  pose proof (serial_counts _ _ _ _ _ _ _ Hse Hfin) as [Hs Hsum].
  pose proof (serial_finished _ _ _ _ _ _ _ Hse Hfin) as ->.
  split; [done|]. exists st, log, l'. split_and!; try done.
  by rewrite Hsum, sum_length_concat, Hcat.
Qed.

(** C12: parallel execution on FoundationDB is serializable.  Whatever the
    threads' interleaving, the conflicts and the errors, unknown commits
    included, and with an injective address hash: an execution that returns, of transfers between different accounts
    whose nonces can be incremented, has applied exactly the transactions with
    a valid signature, each successfully and once, in an order that keeps the
    order of each thread's slice, starting from the funded accounts (and the
    stale ones); it counts them as successful and the others as failed.  (A
    transfer that was applied by a commit reported as unknown is not applied
    again: its nonce has been passed, and such an execution does not return.) *)
Theorem fdb_serializable self w d l r d' :
  Forall Store.proper_transfer (Wl.transactions w) →
  0 < num_threads self → repr d l → execute_workload self d w r d' →
  ∃ log l',
    interleaves (accepted (verify_signatures self) <$> thread_slices self (Wl.transactions w)) log ∧
    Store.run false (Store.fund (stale l) (Wl.addresses w)) log = (l', length log, 0) ∧
    repr d' l' ∧ total_successful r = length log ∧
    total_successful r + total_failed r = length (Wl.transactions w).
Proof.
  intros Hp Hk Hr H.
  destruct (execute_workload_serial _ _ _ _ _ _ Hp Hk Hr H) as (_ & st & log & l' & [_ _ Hlog Hrun Hrepr] & <- & Hs & Hn).
  by exists log, l'.
Qed.

(** ** Retry loops that do not end *)

(** C38: A commit whose result is lost blocks its thread for ever.  The closure
    ignores [maybe_committed]: if an attempt of a transfer commits but its result
    is unknown, the retries find the sender's nonce already advanced, report a
    mismatch and are retried; no continuation ever finishes. *)
Theorem unknown_commit_never_finishes self st t tx txs s f l d' :
  repr (db st) l → threads st !! t = Some (mkThread (tx :: txs) s f false) →
  signature_invalid (verify_signatures self) tx = false → Wl.from tx ≠ Wl.to tx →
  nonces_fit st → (Store.transfer l tx).2 = true → repr d' (Store.transfer l tx).1 →
  attempt (transfer_body tx) (db st) CommitUnknown d' →
  step self st (mkState d' (threads st)) ∧
  ∀ st', rtc (step self) (mkState d' (threads st)) st' → ¬ finished st'.
Proof.
  intros Hr Ht Hval Hne Hfit Hok Hr' Hatt. split.
  - eapply (step_thread self st _ t _ (after_attempt tx txs s f CommitUnknown) d' Ht).
    + by apply step_attempt.
    + by rewrite list_insert_id.
  - intros st'. apply (outdated_forever self _ st' t tx). split; cbn; [done|done|by eexists _, _|].
    unfold Store.transfer in Hok, Hr'. destruct (Store.payer l tx) as [p|] eqn:Hp; [|done].
    apply payer_inv in Hp as [Hp Hn]. cbn in Hr'.
    eexists _, (Store.sender_after tx p). split; [exact Hr'|].
    rewrite lookup_insert_ne, lookup_insert_eq by done. split; [done|]. cbn.
    pose proof (Hfit _ _ _ Ht ltac:(cbn; left)). rewrite u64_add_small; lia.
Qed.

(** The sender [a] can make no further transfer: no thread has a valid
    transaction of [a] with its current nonce, and [tx] of [a] is waiting. *)
Record gap self st (a : Address) tx : Prop := {
  gap_fit : nonces_fit st;
  gap_waiting : ∃ t th, threads st !! t = Some th ∧ tx ∈ todo th;
  gap_tx : Wl.from tx = a ∧ signature_invalid (verify_signatures self) tx = false;
  gap_store : ∃ l s, repr (db st) l ∧ l !! a = Some s ∧
    ∀ t th tx', threads st !! t = Some th → tx' ∈ todo th → Wl.from tx' = a →
      signature_invalid (verify_signatures self) tx' = false → Wl.tx_nonce tx' ≠ nonce s;
}.

Lemma gap_step self st st' a tx : gap self st a tx → step self st st' → gap self st' a tx.
Proof.
  intros [Hfit (t & th & Ht & Hin) [Hfrom Hval] (l & p & Hr & Hp & Hno)] Hs.
  pose proof Hs as (u & tx' & txs' & s & f & uth & Hu & Hths & H)%step_inv.
  assert (Hn' : (0 ≤ Wl.tx_nonce tx' ∧ Wl.tx_nonce tx' + 1 < u64_modulus)%Z).
  { apply (Hfit _ _ _ Hu). cbn. left. }
  assert (∃ l' p', repr (db st') l' ∧ l' !! a = Some p' ∧ nonce p' = nonce p) as (l' & p' & Hr' & Hp' & Heq).
  { destruct H as [(_ & _ & ->)|(res & Hv & Hatt & _)]; [eauto|].
    destruct (attempt_store _ _ _ _ _ Hr Hatt) as (l' & Hr' & [->| ->] & _); [eauto|].
    destruct (transfer_nonce l tx' a p Hp Hn') as (p' & Hp' & _ & Hsame).
    eexists _, p'. split_and!; [done|done|]. apply Hsame.
    destruct (decide (a = Wl.from tx')) as [E|]; [right|by left].
    unfold Store.transfer. destruct (Store.payer l tx') as [q|] eqn:Hq; [|done].
    apply payer_inv in Hq as [Hq Hqn]. rewrite <- E, Hp in Hq. simplify_eq.
    destruct (Hno u _ tx' Hu ltac:(cbn; left) (eq_sym E) Hv). done. }
  split; [by eapply nonces_fit_step| |done|].
  - rewrite Hths. destruct (decide (t = u)) as [->|Hne].
    2:{ exists t, th. by rewrite list_lookup_insert_ne. }
    rewrite Ht in Hu. simplify_eq/=. exists u, uth.
    rewrite list_lookup_insert_eq by (by eapply lookup_lt_Some). split; [done|].
    apply elem_of_cons in Hin as Hin'. destruct H as [(Hinv & E & _)|(res & Hv & Hatt & ->)].
    + rewrite E. destruct Hin' as [->|]; [congruence|done].
    + destruct (after_attempt_todo tx' txs' s f res) as [[-> ->]|[-> _]]; [|done].
      destruct Hin' as [->|]; [|done]. exfalso.
      destruct (attempt_store _ _ _ _ _ Hr Hatt) as (_ & _ & _ & Hc). specialize (Hc eq_refl).
      unfold Store.transfer in Hc. destruct (Store.payer l tx') as [q|] eqn:Hq; [|done].
      apply payer_inv in Hq as [Hq Hqn]. rewrite Hp in Hq. simplify_eq.
      by destruct (Hno u _ tx' Ht ltac:(cbn; left) eq_refl Hv).
  - exists l', p'. split_and!; [done|done|]. intros t' th' tx1 Ht' Hin1. rewrite Heq.
    destruct (step_todo _ _ _ _ _ _ Hs Ht' Hin1) as (th0 & Ht0 & Hin0). by eapply Hno.
Qed.

(** One rejected signature can block the execution for ever.  If a sender's
    transaction with its current nonce is not among those left to do, as when it
    failed the signature check, every later transaction of that sender is
    retried without end: from a state with such a gap no continuation finishes. *)
Theorem nonce_gap_never_finishes self st st' a tx :
  gap self st a tx → rtc (step self) st st' → ¬ finished st'.
Proof.
  intros Hg H. assert (gap self st' a tx) as [_ (t & th & Ht & Hin) _ _].
  { induction H; [done|]. eauto using gap_step. }
  intros Hfin. destruct (proj1 (Forall_lookup _ _) Hfin t th Ht) as [E _]. rewrite E in Hin.
  by apply elem_of_nil in Hin.
Qed.
End Spec.

(** ** Witnesses *)

Definition x1 : Address := addr_of 1.
Definition x2 : Address := addr_of 2.
Definition wei (z : Z) : U256 := u256_of z.

Definition transfer_1_2 (n : Z) : Wl.SignedTransaction :=
  Wl.mkSigned x1 x2 (wei 1) n (Some x1) (u256_of 0).

(** One wei from account 1 to account 2. *)
Definition workload_1_2 : Wl.Workload :=
  Wl.mkWorkload [Wl.mkAccount x1 x1; Wl.mkAccount x2 x2] [transfer_1_2 0] [[transfer_1_2 0]]
    (Wl.mkWorkloadConfig 2 1 2 0 1 1).

Definition executor : FdbParallelExecutor := mkFdb true 2.

Lemma keccak_inj_uint : Inj (=) (=) (λ a : Address, keccak256 (address_as_slice a)).
Proof. intros x y. apply keccak_slice_uint_inj. Qed.

Lemma account_encoding_roundtrip_witness :
  decode_account (encode_account 7 (wei 9)) = Return (7%Z, wei 9).
Proof. apply (account_encoding_roundtrip 7 (wei 9) x1 x1). by split. Defined.

Abbreviation memory := (fdb_memory false).

(** Clearing a database that holds one account. *)
Definition one_account : gmap (list byte) (list byte) :=
  {[ account_key x1 := encode_account 0 (wei 5) ]}.

Lemma clear_database_misses_shard_witness :
  db_contents (FdbLaws := fdb_memory_laws false)
    (filter (λ p, in_range account_prefix (account_prefix ++ [xff]) p.1 = false) one_account)
    !! account_key x1 = None.
Proof.
  rewrite (clear_database_misses_shard (L := memory) one_account _ x1).
  - rewrite decide_False; [done|]. intros H.
    assert (bool_decide (shard x1 = Some xff) = false) as E by by_compute.
    by rewrite bool_decide_true in E.
  - by apply run_committed.
Defined.

Lemma thread_slices_partition_witness :
  List.concat (thread_slices executor [transfer_1_2 0; transfer_1_2 1; transfer_1_2 2]) =
  [transfer_1_2 0; transfer_1_2 1; transfer_1_2 2].
Proof. apply thread_slices_partition. cbn. lia. Defined.

(** Runs of closures in memory: the contents after a committed attempt. *)
Definition contents_after {T} (o : outcome ((unit + T) * gmap (list byte) (list byte))) :
    gmap (list byte) (list byte) :=
  match o with Return (_, d) => d | _ => ∅ end.

Definition commits_true (o : outcome ((unit + bool) * gmap (list byte) (list byte))) : bool :=
  match o with Return (inr true, _) => true | _ => false end.

Lemma commits_true_inv o : commits_true o = true → o = Return (inr true, contents_after o).
Proof. by destruct o as [[[|[]] ]| |]. Qed.

Definition d_cleared : gmap (list byte) (list byte) :=
  contents_after (clear_database_body (L := memory) ∅).
Definition d_funded : gmap (list byte) (list byte) :=
  contents_after (init_batch_body (L := memory) (funded workload_1_2) d_cleared).
Definition d_final : gmap (list byte) (list byte) :=
  contents_after (transfer_body (L := memory) (transfer_1_2 0) d_funded).

Lemma d_final_commits :
  transfer_body (L := memory) (transfer_1_2 0) d_funded = Return (inr true, d_final).
Proof.
  apply (commits_true_inv (transfer_body (L := memory) (transfer_1_2 0) d_funded)). by_compute.
Qed.

Lemma sample_execution unknown :
  execute_workload (L := fdb_memory unknown) executor ∅ workload_1_2
    (mkParallelResult [mkThreadResult 0 1 0] 1 0) d_final.
Proof.
  exists d_cleared, d_funded, (mkState (L := fdb_memory unknown) d_final [mkThread [] 1 0 false]).
  split_and!; [by apply run_committed| | |by repeat constructor|done|done].
  - exists [funded workload_1_2]. split; [done|].
    apply (init_batch (L := fdb_memory unknown) _ _ _ d_funded); [by apply run_committed|constructor].
  - apply rtc_once. eapply (step_thread (L := fdb_memory unknown) _ _ _ 0 _ (after_attempt (transfer_1_2 0) [] 0 0 (Committed true)));
      [done| |done].
    apply step_attempt; [by_compute|exact d_final_commits].
Qed.

Lemma repr_nothing unknown : repr (L := fdb_memory unknown) ∅ ∅.
Proof. split; intros a; [|intros s; by rewrite lookup_empty]. cbn. by rewrite !lookup_empty. Qed.

Lemma transfer_1_2_proper n : (0 ≤ n ∧ n + 1 < u64_modulus)%Z → Store.proper_transfer (transfer_1_2 n).
Proof.
  intros Hn. split; [|done]. intros H.
  assert (bool_decide (x1 = x2) = false) as E by by_compute. by rewrite bool_decide_true in E.
Qed.

(** With a database that may leave commits unknown. *)
Lemma fdb_serializable_witness :
  ∃ log l', Store.run false (Store.fund (stale ∅) [x1; x2]) log = (l', length log, 0) ∧
    repr (L := fdb_memory true) d_final l' ∧ 1 = length log.
Proof.
  destruct (fdb_serializable (L := fdb_memory true) keccak_inj_uint executor workload_1_2 ∅ ∅
    (mkParallelResult [mkThreadResult 0 1 0] 1 0) d_final) as (log & l' & H).
  - apply Forall_singleton, transfer_1_2_proper. by split.
  - cbn. lia.
  - apply repr_nothing.
  - apply sample_execution.
  - exists log, l'. destruct H as (_ & H1 & H2 & H3 & _). done.
Defined.

(** The two accounts, funded. *)
Definition store_2 : gmap Address AccountState := fund_batch ∅ (funded workload_1_2).

Definition d_2 : gmap (list byte) (list byte) :=
  contents_after (init_batch_body (L := memory) (funded workload_1_2) ∅).

Lemma repr_2 unknown : repr (L := fdb_memory unknown) d_2 store_2.
Proof.
  split.
  - exact (init_batch_contents (L := memory) keccak_inj_uint (funded workload_1_2) ∅ d_2 ∅
      (repr_contents _ _ (repr_nothing false)) eq_refl).
  - apply fund_batch_ok, (repr_nothing false).
Qed.

Definition waiting (n : Z) : State (L := fdb_memory true) :=
  mkState (L := fdb_memory true) d_2 [mkThread [transfer_1_2 n] 0 0 false].

Lemma waiting_fit n : (0 ≤ n ∧ n + 1 < u64_modulus)%Z → nonces_fit (waiting n).
Proof.
  intros Hn [|[|t]] th tx Ht Hin; cbn in Ht; [|done|done]. injection Ht as <-.
  by apply list_elem_of_singleton in Hin as ->.
Qed.

Definition d_2_after : gmap (list byte) (list byte) :=
  contents_after (transfer_body (L := memory) (transfer_1_2 0) d_2).

Definition transfers_ok (n : Z) : bool := (Store.transfer store_2 (transfer_1_2 n)).2.

Lemma d_2_commits :
  transfer_body (L := memory) (transfer_1_2 0) d_2 = Return (inr true, d_2_after).
Proof.
  apply (commits_true_inv (transfer_body (L := memory) (transfer_1_2 0) d_2)). by_compute.
Qed.

Lemma unknown_commit_never_finishes_witness :
  let st := mkState (L := fdb_memory true) d_2_after [mkThread [transfer_1_2 0] 0 0 false] in
  (∀ st', rtc (step (L := fdb_memory true) executor) st st' → ¬ finished st') ∧ threads st ≠ [].
Proof.
  split; [|done].
  apply (unknown_commit_never_finishes (L := fdb_memory true) keccak_inj_uint executor (waiting 0) 0
    (transfer_1_2 0) [] 0 0 store_2 d_2_after).
  - apply repr_2.
  - done.
  - by_compute.
  - intros H. assert (bool_decide (x1 = x2) = false) as E by by_compute. by rewrite bool_decide_true in E.
  - apply waiting_fit. by split.
  - change (transfers_ok 0 = true). by_compute.
  - apply (attempt_spec (L := fdb_memory true) keccak_inj_uint (transfer_1_2 0) d_2 (Committed true));
      [apply repr_2|exact d_2_commits].
  - split; [done|]. right. exists true. exact d_2_commits.
Defined.

Lemma nonce_gap_never_finishes_witness :
  (∀ st', rtc (step (L := fdb_memory true) executor) (waiting 1) st' → ¬ finished st') ∧
  threads (waiting 1) ≠ [].
Proof.
  split; [|done]. intros st'. apply (nonce_gap_never_finishes (L := fdb_memory true) keccak_inj_uint executor (waiting 1) st'
    x1 (transfer_1_2 1)). split.
  - apply waiting_fit. by split.
  - exists 0, (mkThread [transfer_1_2 1] 0 0 false). split; [done|]. cbn. left.
  - split; [done|by_compute].
  - exists store_2, (AccountState_new 0 Wl.initial_balance). split; [apply repr_2|]. split.
    + unfold store_2. rewrite fund_batch_lookup. reflexivity.
    + intros [|[|t]] th tx' Ht Hin _ _; cbn in Ht; [|done|done]. injection Ht as <-.
      apply list_elem_of_singleton in Hin as ->. done.
Defined.
End FdbSpec.
