(* ===== verification/BlockStm.v ===== *)
(** * src/executor/block_stm.rs

    The wrapper that runs a workload on the parallel executor: the funded initial
    states, the conversion of the transactions, and the database rebuilt from
    the final states.  What it may return is read off the finished states of the
    transition system. *)

From Stdlib Require Import String.
From stdpp Require Import base option list gmap relations.
From Stdlib Require Import ZArith Lia.
From S2P Require Import Prelude Integers Externals Types MVHashMap ParallelExecutor.
From S2P Require Import Workers Scheduler WorkersInv WorkersCount Workload Executor Store.

Module BlockStm.
Section BlockStm.
Context {A : Alloy} {K : Keys A} {D : DashMapImpl Address} {C : CacheDBLib A}.

Record BlockStmExecutor : Set := mkBlockStm {
  num_threads : nat;
  verify_signatures : bool;
}.

Definition new (num_threads : nat) (verify_signatures : bool) : BlockStmExecutor :=
  mkBlockStm num_threads verify_signatures.

(** The [HashMap] filled from [workload.accounts]. *)
Definition initial_states (workload : Wl.Workload) : gmap Address AccountState :=
  foldl (λ m account, <[Wl.acc_address account := AccountState_new 0 Wl.initial_balance]> m)
    ∅ (Wl.accounts workload).

Definition to_transaction (tx : Wl.SignedTransaction) : PE.Transaction :=
  PE.mkTransaction (Wl.from tx) (Wl.to tx) (Wl.value tx) (Wl.tx_nonce tx)
    (Wl.signature tx) (Wl.tx_hash tx).

(** The two nested loops that push every transaction of every block. *)
Definition block_stm_txs (workload : Wl.Workload) : list PE.Transaction :=
  foldl (λ txs block, foldl (λ txs tx, txs ++ [to_transaction tx]) txs block)
    [] (Wl.blocks workload).

Definition config (self : BlockStmExecutor) (workload : Wl.Workload) : PE.ExecutorConfig :=
  PE.mkConfig (num_threads self) (verify_signatures self) (initial_states workload).

Definition final_info (state : AccountState) : AccountInfo :=
  mkAccountInfo (balance state) (nonce state) KECCAK_EMPTY None.

Definition final_db (final_states : list (Address * AccountState)) : CacheDB :=
  foldl (λ db '(address, state), insert_account_info address (final_info state) db)
    cachedb_new final_states.

Definition exec_result (result : PE.BlockExecutionResult) : Exec.ExecutionResult :=
  Exec.mkResult (PE.successful result) (PE.failed result).

(** [execute] on a state in which all workers are joined; the database it is
    given is not used. *)
Definition execute (st : Workers.State) : CacheDB * Exec.ExecutionResult :=
  let result := Workers.block_result st in
  (final_db (PE.final_states result), exec_result result).

Definition preserves_order (self : BlockStmExecutor) : bool := true.
Definition name (self : BlockStmExecutor) : string := "block_stm_parallel".

(** Every schedule of the workers on which [execute_block] returns. *)
Definition joined (self : BlockStmExecutor) (workload : Wl.Workload) (st : Workers.State) : Prop :=
  Workers.reachable (config self workload) (block_stm_txs workload) st ∧ Workers.finished st.

#[global] Instance block_stm_executor : Exec.Executor BlockStmExecutor CacheDB := {|
  Exec.executes self db w r := ∃ st, joined self w st ∧ r = execute st;
  Exec.preserves_order := preserves_order;
  Exec.name := name;
|}.

(** ** The conversion *)

Lemma push_all_spec (txs : list PE.Transaction) (block : list Wl.SignedTransaction) :
  foldl (λ txs tx, txs ++ [to_transaction tx]) txs block = txs ++ (to_transaction <$> block).
Proof.
  revert txs. induction block as [|tx block IH]; intros txs; cbn; [by rewrite app_nil_r|].
  by rewrite IH, <- app_assoc.
Qed.

Lemma block_stm_txs_spec w : block_stm_txs w = to_transaction <$> List.concat (Wl.blocks w).
Proof.
  unfold block_stm_txs.
  assert (∀ txs, foldl (λ txs block, foldl (λ txs tx, txs ++ [to_transaction tx]) txs block)
    txs (Wl.blocks w) = txs ++ (to_transaction <$> List.concat (Wl.blocks w))) as H.
  { induction (Wl.blocks w) as [|b bs IH]; intros txs; cbn; [by rewrite app_nil_r|].
    by rewrite IH, push_all_spec, <- app_assoc, fmap_app. }
  apply H.
Qed.

Lemma block_stm_txs_ok w :
  List.concat (Wl.blocks w) = Wl.transactions w →
  block_stm_txs w = to_transaction <$> Wl.transactions w.
Proof. by rewrite block_stm_txs_spec; intros ->. Qed.

(** Both sides check signatures alike. *)
Lemma signature_rejected_to_transaction v tx :
  PE.signature_rejected v (to_transaction tx) = Exec.signature_rejected v tx.
Proof. by rewrite Exec.signature_rejected_verify. Qed.

Lemma initial_states_fund w : initial_states w = Store.fund ∅ (Wl.addresses w).
Proof.
  unfold initial_states, Store.fund, Wl.addresses. generalize (∅ : gmap Address AccountState) as m.
  induction (Wl.accounts w) as [|a l IH]; intros m; cbn; [done|]. apply IH.
Qed.

(** ** The database that is rebuilt *)

Lemma final_db_basic {CL : CacheDBLaws A C} l a :
  NoDup l.*1 →
  (∀ s, (a, s) ∈ l → basic (final_db l) a = Some (final_info s)) ∧
  (a ∉ l.*1 → basic (final_db l) a = None).
Proof.
  unfold final_db.
  assert (∀ db, NoDup l.*1 →
    (∀ s, (a, s) ∈ l → basic (foldl (λ db '(address, state),
       insert_account_info address (final_info state) db) db l) a = Some (final_info s)) ∧
    (a ∉ l.*1 → basic (foldl (λ db '(address, state),
       insert_account_info address (final_info state) db) db l) a = basic db a)) as H.
  { induction l as [|[b t] l IH]; intros db Hnd; cbn.
    - split; [by intros s Hs%not_elem_of_nil|done].
    - apply NoDup_cons in Hnd as [Hb Hnd]. cbn in Hb.
      destruct (IH (insert_account_info b (final_info t) db) Hnd) as [IH1 IH2]. split.
      + intros s [[= <- <-]|Hs]%elem_of_cons; [|by apply IH1].
        rewrite IH2 by done. by rewrite basic_insert, decide_True.
      + intros [Hne Hl]%not_elem_of_cons. rewrite IH2 by done.
        by rewrite basic_insert, decide_False by congruence. }
  intros Hnd. destruct (H cachedb_new Hnd) as [H1 H2].
  split; [done|]. intros Ha. by rewrite H2, basic_new.
Qed.

(** ** Every transaction is counted *)

Lemma block_stm_counts {DL : DashMapLaws D} self w st :
  0 < num_threads self → Exec.workload_ok w → joined self w st →
  let r := exec_result (Workers.block_result st) in
  Exec.failed r = Z.of_nat (WCount.total_rejected (config self w) (block_stm_txs w)) ∧
  Exec.successful r = (Z.of_nat (length (Wl.transactions w)) - Exec.failed r)%Z ∧
  (0 ≤ Exec.failed r ≤ Z.of_nat (length (Wl.transactions w)))%Z.
Proof.
  intros Hk [Hcat Hlen] [Hr Hfin]. cbn zeta.
  assert (length (block_stm_txs w) = length (Wl.transactions w)) as El
    by by rewrite block_stm_txs_ok, length_fmap.
  pose proof (WCount.finished_done _ _ _ Hr Hk Hfin) as Hc.
  pose proof (WCount.finished_fail_count _ _ _ Hr Hk Hfin) as Hf.
  pose proof (WCount.total_rejected_le (config self w) (block_stm_txs w)) as Hle.
  unfold exec_result, Workers.block_result, Sched.committed_count; cbn. rewrite Hc, Hf, El.
  split_and!; [done| |lia|lia]. apply usize_sub_small; lia.
Qed.

Lemma block_stm_executor_counts {DL : DashMapLaws D} self db w db' r :
  0 < num_threads self → Exec.workload_ok w → Exec.executes self db w (db', r) →
  (0 ≤ Exec.successful r)%Z ∧ (0 ≤ Exec.failed r)%Z ∧
  Exec.total r = Z.of_nat (length (Wl.transactions w)).
Proof.
  intros Hk Hw (st & Hj & [= -> ->]).
  destruct (block_stm_counts self w st Hk Hw Hj) as (_ & Hs & Hf). destruct Hw as [_ Hlen].
  cbn in *. unfold Exec.total, usize_add; cbn. rewrite Hs. split_and!; [lia..|].
  rewrite Z.mod_small; lia.
Qed.

#[global] Instance block_stm_counted {DL : DashMapLaws D} :
  Exec.CountedExecutor BlockStmExecutor CacheDB := {|
  Exec.can_run self := 0 < num_threads self;
  Exec.executor_counts := block_stm_executor_counts;
|}.
End BlockStm.
End BlockStm.
