(* ===== verification/EndToEnd.v ===== *)
(** * The executors behind the interface

    Both MDBX executors and the FoundationDB executor discharge [StoreExecutor],
    and Block-STM with one worker ends in the database the store describes. *)

From stdpp Require Import base option list gmap relations.
From Stdlib Require Import ZArith Lia.
From S2P Require Import Prelude Integers Externals Types MVHashMap Scheduler ParallelExecutor.
From S2P Require Import Workload WorkloadSpec Executor Store StoreSpec StoreExecutor.
From S2P Require Import Mdbx MdbxSpec MdbxBatched Fdb FdbSpec.
From S2P Require Import ParallelExecutorSpec Ledger Workers WorkersInv WorkersCount Scenarios SingleWorker BlockStm.

Module EndToEnd.
Import StoreSpec StoreExec.

(** ** MDBX *)

Section Mdbx.
Context {A : Alloy} {K : Keys A} {L : Mdbx.MdbxLib} {LL : Mdbx.MdbxLaws L}.
Context (hash_inj : Inj (=) (=) Mdbx.hashed_address).

Definition mdbx_returns (self : Mdbx.MdbxSequentialExecutor) (env : Mdbx.DatabaseEnv)
    (w : Wl.Workload) (env' : Mdbx.DatabaseEnv) (r : Exec.ExecutionResult) : Prop :=
  Mdbx.execute_workload self w env = (inr (r, tt), env').

Lemma mdbx_store_returns self env l w env' r :
  True → Exec.workload_ok w → Forall Store.proper_transfer (Wl.transactions w) → MdbxSpec.repr env l → mdbx_returns self env w env' r →
  ∃ order l' s f, order ≡ₚ Wl.transactions w ∧
    Store.run (Mdbx.verify_signatures self) (Store.fund l (Wl.addresses w)) order = (l', s, f) ∧
    MdbxSpec.repr env' l' ∧ r = Exec.mkResult (Z.of_nat s) (Z.of_nat f) ∧ order = Wl.transactions w.
Proof.
  intros _ _ _ Hr H. destruct (MdbxSpec.execute_workload_store hash_inj _ _ _ _ _ _ Hr H) as (l' & s & f & ?).
  exists (Wl.transactions w), l', s, f. by destruct_all.
Qed.

Definition mdbx_store_executor : StoreExecutor Mdbx.MdbxSequentialExecutor Mdbx.DatabaseEnv := {|
  verifies := Mdbx.verify_signatures;
  in_order _ := true;
  ready _ := True;
  returns := mdbx_returns;
  holds := MdbxSpec.repr;
  kept l := l;
  store_returns := mdbx_store_returns;
|}.

Context (iter : gmap Address Mdbx.Account → list (Address * Mdbx.Account)).
Context (iter_perm : ∀ m, iter m ≡ₚ map_to_list m).

Definition batched_returns (self : Batched.MdbxBatchedExecutor) (env : Mdbx.DatabaseEnv)
    (w : Wl.Workload) (env' : Mdbx.DatabaseEnv) (r : Exec.ExecutionResult) : Prop :=
  ∃ br, Batched.execute_workload iter self w env = (inr (br, tt), env') ∧
    r = Batched.to_execution_result br.

Lemma batched_store_returns self env l w env' r :
  True → Exec.workload_ok w → Forall Store.proper_transfer (Wl.transactions w) → MdbxSpec.repr env l → batched_returns self env w env' r →
  ∃ order l' s f, order ≡ₚ Wl.transactions w ∧
    Store.run (Batched.verify_signatures self) (Store.fund l (Wl.addresses w)) order = (l', s, f) ∧
    MdbxSpec.repr env' l' ∧ r = Exec.mkResult (Z.of_nat s) (Z.of_nat f) ∧ order = Wl.transactions w.
Proof.
  intros _ [Hcat _] _ Hr (br & H & ->).
  destruct (Batched.batched_workload_store iter hash_inj iter_perm _ _ _ _ _ _ Hr H)
    as (l' & s & f & Hrun & Hrep & Hres & _).
  rewrite Hcat in Hrun. by exists (Wl.transactions w), l', s, f.
Qed.

Definition batched_store_executor : StoreExecutor Batched.MdbxBatchedExecutor Mdbx.DatabaseEnv := {|
  verifies := Batched.verify_signatures;
  in_order _ := true;
  ready _ := True;
  returns := batched_returns;
  holds := MdbxSpec.repr;
  kept l := l;
  store_returns := batched_store_returns;
|}.
End Mdbx.

(** ** FoundationDB *)

Section Fdb.
Context {A : Alloy} {AL : AlloyLaws A} {K : Keys A} {L : Fdb.FdbLib} {LL : Fdb.FdbLaws L}.
Context (hash_inj : Inj (=) (=) (λ a : Address, keccak256 (address_as_slice a))).
Implicit Types (txs : list Wl.SignedTransaction).

Lemma interleaves_perm {T} (ls : list (list T)) log :
  FdbSpec.interleaves ls log → log ≡ₚ List.concat ls.
Proof.
  induction 1 as [ls Hls|ls l log t x _ IH Ht].
  - induction Hls as [|l ls -> _ IH]; [done|exact IH].
  - rewrite IH. clear IH. revert t Ht. induction ls as [|l' ls IH]; intros [|t] Ht; [done..| |]; cbn in *.
    + simplify_eq. rewrite <- !app_assoc. cbn. solve_Permutation.
    + rewrite <- (IH t Ht), app_assoc. done.
Qed.

Lemma signature_invalid_rejected v tx : Fdb.signature_invalid v tx = Exec.signature_rejected v tx.
Proof. by destruct v. Qed.

Lemma accepted_concat v (slices : list (list Wl.SignedTransaction)) :
  List.concat (FdbSpec.accepted v <$> slices) = FdbSpec.accepted v (List.concat slices).
Proof.
  induction slices as [|s slices IH]; [done|]. cbn. rewrite IH. unfold FdbSpec.accepted.
  by rewrite filter_app.
Qed.

(** The accepted transactions first, then the others. *)
Lemma accepted_rejected v txs : FdbSpec.accepted v txs ++ rejected v txs ≡ₚ txs.
Proof.
  unfold FdbSpec.accepted, rejected. induction txs as [|tx txs IH]; [done|].
  rewrite !filter_cons, signature_invalid_rejected.
  destruct (Exec.signature_rejected v tx); repeat case_decide; try done; cbn.
  - by rewrite <- Permutation_middle, IH.
  - by rewrite IH.
Qed.

Lemma run_accepted v l log :
  Forall (λ tx, Exec.signature_rejected v tx = false) log → Store.run v l log = Store.run false l log.
Proof.
  intros H. revert l. induction H as [|tx log Htx _ IH]; intros l; [done|]. cbn.
  unfold Store.apply. rewrite Htx. cbn. destruct (Store.transfer l tx) as [l1 ok]. by rewrite IH.
Qed.

Lemma run_rejected v l txs :
  Forall (λ tx, Exec.signature_rejected v tx = true) txs → Store.run v l txs = (l, 0, length txs).
Proof.
  induction 1 as [|tx txs Htx _ IH]; [done|]. cbn. unfold Store.apply. rewrite Htx. by rewrite IH.
Qed.

Definition fdb_returns (self : Fdb.FdbParallelExecutor) (d : Fdb.Database)
    (w : Wl.Workload) (d' : Fdb.Database) (r : Exec.ExecutionResult) : Prop :=
  ∃ pr, Fdb.execute_workload self d w pr d' ∧ r = Fdb.to_execution_result pr.

Lemma fdb_store_returns self d l w d' r :
  0 < Fdb.num_threads self → Exec.workload_ok w → Forall Store.proper_transfer (Wl.transactions w) →
  FdbSpec.repr d l → fdb_returns self d w d' r →
  ∃ order l' s f, order ≡ₚ Wl.transactions w ∧
    Store.run (Fdb.verify_signatures self) (Store.fund (FdbSpec.stale l) (Wl.addresses w)) order = (l', s, f) ∧
    FdbSpec.repr d' l' ∧ r = Exec.mkResult (Z.of_nat s) (Z.of_nat f) ∧
    f = length (rejected (Fdb.verify_signatures self) order).
Proof.
  intros Hk _ Hprop Hr (pr & H & ->).
  destruct (FdbSpec.execute_workload_serial hash_inj _ _ _ _ _ _ Hprop Hk Hr H)
    as (Hcat & st & log & l' & [_ _ Hlog Hrun Hrepr] & <- & Hs & Hn).
  set (v := Fdb.verify_signatures self) in *. set (txs := Wl.transactions w) in *.
  pose proof (interleaves_perm _ _ Hlog) as Hp. rewrite accepted_concat, Hcat in Hp.
  assert (Forall (λ tx, Exec.signature_rejected v tx = false) log) as Hacc.
  { rewrite Hp. apply Forall_forall. intros tx [Htx _]%list_elem_of_filter.
    by rewrite <- signature_invalid_rejected. }
  assert (Forall (λ tx, Exec.signature_rejected v tx = true) (rejected v txs)) as Hrej.
  { apply Forall_forall. by intros tx [Htx _]%list_elem_of_filter. }
  assert (length log + length (rejected v txs) = length txs) as Hlen.
  { rewrite <- (accepted_rejected v txs) at 2. rewrite length_app. by rewrite Hp. }
  assert (log ++ rejected v txs ≡ₚ txs) as Hperm by (rewrite Hp; apply accepted_rejected).
  exists (log ++ rejected v txs), l', (length log), (length (rejected v txs)). split_and!.
  - done.
  - rewrite Store.run_app_store, (run_accepted _ _ _ Hacc), Hrun, (run_rejected _ _ _ Hrej).
    f_equal. f_equal. lia.
  - done.
  - unfold Fdb.to_execution_result, Exec.ExecutionResult_new. f_equal; f_equal; lia.
  - unfold rejected at 2. rewrite Hperm. done.
Qed.

Definition fdb_store_executor : StoreExecutor Fdb.FdbParallelExecutor Fdb.Database := {|
  verifies := Fdb.verify_signatures;
  in_order _ := false;
  ready self := 0 < Fdb.num_threads self;
  returns := fdb_returns;
  holds := FdbSpec.repr;
  kept := FdbSpec.stale;
  store_returns := fdb_store_returns;
|}.
End Fdb.

(** ** Block-STM *)

Section BlockStm.
Context {A : Alloy} {AL : AlloyLaws A} {K : Keys A} {R : Rand} {KL : KeysLaws A K} {RL : RandLaws R}.
Context {D : DashMapImpl Address} {DL : DashMapLaws D} {C : CacheDBLib A} {CL : CacheDBLaws A C}.
Implicit Types (txs : list Wl.SignedTransaction) (l m : gmap Address AccountState) (a : Address).

(** The ledger over initial accounts and the store are the same reference, on
    transactions whose sender exists. *)
Lemma ledger_applies v initial l txs m :
  applies v (l ∪ initial) txs m →
  m = Ledger.run v initial (BlockStm.to_transaction <$> txs) l ∪ initial ∧
  ∀ a, is_Some (Ledger.run v initial (BlockStm.to_transaction <$> txs) l !! a) ↔
       is_Some (l !! a) ∨ a ∈ (Wl.from <$> txs) ∨ a ∈ (Wl.to <$> txs).
Proof.
  revert l. induction txs as [|tx txs IH]; intros l.
  { intros ->%applies_nil. split; [done|]. intros a. cbn. rewrite elem_of_nil. tauto. }
  intros (s & Hsig & Hp & H)%applies_cons. cbn [fmap list_fmap].
  assert (∀ b, Ledger.account initial l b = default Store.absent ((l ∪ initial) !! b)) as Hacc.
  { intros b. unfold Ledger.account, PE.initial_account. rewrite lookup_union.
    by destruct (l !! b), (initial !! b). }
  assert ((Store.transfer (l ∪ initial) tx).1 =
    Ledger.apply v initial l (BlockStm.to_transaction tx) ∪ initial ∧
    Ledger.apply v initial l (BlockStm.to_transaction tx) =
      Ledger.transfer initial l (BlockStm.to_transaction tx)) as [E E2].
  { unfold Store.transfer, Ledger.apply. rewrite Hp, BlockStm.signature_rejected_to_transaction, Hsig.
    apply payer_Some in Hp as (Hf & Hn & Hlt). unfold PE.must_retry. rewrite !Hacc. cbn. rewrite Hf. cbn.
    rewrite Hn, Z.eqb_refl, Hlt. cbn. split; [|done]. unfold Ledger.transfer. rewrite !Hacc. cbn. rewrite Hf.
    by rewrite !insert_union_l. }
  rewrite E in H. destruct (IH _ H) as [Hm Hdom]. split; [done|].
  intros a. change (Ledger.run v initial (BlockStm.to_transaction tx :: ?x) l) with
    (Ledger.run v initial x (Ledger.apply v initial l (BlockStm.to_transaction tx))).
  rewrite Hdom, E2. unfold Ledger.transfer. cbn. rewrite !lookup_insert, !elem_of_cons.
  repeat case_decide; naive_solver.
Qed.

(** No transaction with a verified signature is counted as failed. *)
Lemma verified_none_rejected self w :
  Exec.workload_ok w → Forall (λ tx, Wl.verify tx = true) (Wl.transactions w) →
  WCount.total_rejected (BlockStm.config self w) (BlockStm.block_stm_txs w) = 0.
Proof.
  intros [Hcat _] Hv.
  assert (∀ x, WInv.rejected (BlockStm.config self w) (BlockStm.block_stm_txs w) x = false) as Hx.
  { intros x. unfold WInv.rejected. rewrite BlockStm.block_stm_txs_ok, list_lookup_fmap by done.
    destruct (Wl.transactions w !! x) as [tx|] eqn:E; [|done]. cbn.
    rewrite BlockStm.signature_rejected_to_transaction, signature_accepted; [done|].
    by apply (proj1 (Forall_lookup _ _) Hv x). }
  unfold WCount.total_rejected. induction (seq 0 _) as [|x l IH]; [done|]. cbn. by rewrite Hx, IH.
Qed.

(** Every transaction of a generated workload is counted as successful. *)
Lemma block_stm_all_counted fuel config w self (db db' : CacheDB) r :
  Wl.generate fuel config = Return w → (Z.of_nat (Wl.num_transactions config) < u64_modulus)%Z →
  0 < BlockStm.num_threads self → Exec.executes self db w (db', r) →
  r = Exec.mkResult (Z.of_nat (Wl.num_transactions config)) 0.
Proof.
  intros Hg Hn Hk (st & Hj & [= -> ->]).
  destruct (WlSpec.generate_sequenced _ _ _ Hg Hn) as (_ & Hlen & Hsq).
  assert (Exec.workload_ok w) as Hok by (split; [by eapply WlSpec.generate_concat|by rewrite Hlen]).
  destruct (BlockStm.block_stm_counts self w st Hk Hok Hj) as (Hf & Hs & _).
  rewrite (verified_none_rejected self w Hok (WlSpec.sq_verified _ _ Hsq)) in Hf.
  destruct (BlockStm.exec_result _) as [s f]. cbn in *. subst. by rewrite Hlen, Z.sub_0_r.
Qed.

(** The database of a ledger's final states. *)
Lemma final_db_ledger (final_states : list (Address * AccountState)) l a :
  NoDup final_states.*1 → (∀ a s, (a, s) ∈ final_states ↔ l !! a = Some s) →
  basic (BlockStm.final_db final_states) a = BlockStm.final_info <$> l !! a.
Proof.
  intros Hnd Hl. destruct (BlockStm.final_db_basic final_states a Hnd) as [H1 H2].
  destruct (l !! a) as [s|] eqn:E; cbn.
  - by apply H1, Hl.
  - apply H2. intros ([b s] & -> & Hs)%list_elem_of_fmap. apply Hl in Hs. cbn in *. congruence.
Qed.

(** C17: one worker agrees with the database executors.  On a generated workload
    with distinct addresses a single worker always returns, with every
    transaction successful; the database it builds has exactly the accounts the
    transactions name, each with the nonce and balance the other executors give
    it, and none of the funded accounts no transaction names. *)
Theorem block_stm_one_worker fuel config w self :
  Wl.generate fuel config = Return w → (Z.of_nat (Wl.num_transactions config) < u64_modulus)%Z →
  NoDup (Wl.addresses w) → BlockStm.num_threads self = 1 →
  ∃ fin db', BlockStm.joined self w fin ∧
    (∀ st, Workers.reachable (BlockStm.config self w) (BlockStm.block_stm_txs w) st →
       rtc (Workers.step (BlockStm.config self w) (BlockStm.block_stm_txs w)) st fin) ∧
    BlockStm.execute fin = (db', Exec.mkResult (Z.of_nat (Wl.num_transactions config)) 0) ∧
    ∀ a, if decide (a ∈ (Wl.from <$> Wl.transactions w) ∨ a ∈ (Wl.to <$> Wl.transactions w))
         then ∃ info, basic db' a = Some info ∧
                info_nonce info = Z.of_nat (Wl.sent_from a (Wl.transactions w)) ∧
                u256_val (info_balance info) =
                  (10 ^ 21 - Z.of_nat (Wl.sent_from a (Wl.transactions w))
                     + Z.of_nat (Wl.received_by a (Wl.transactions w)))%Z
         else basic db' a = None.
Proof.
  intros Hg Hn Hnd H1. pose proof (generate_generated _ _ _ Hg Hn Hnd) as Hw.
  destruct (WlSpec.generate_sequenced _ _ _ Hg Hn) as (_ & Hlen & Hsq).
  destruct (Single.single_worker_end (BlockStm.config self w) (BlockStm.block_stm_txs w) H1)
    as (fin & Hfin & Hall & _ & _ & Hmv).
  assert (BlockStm.joined self w fin) as Hj by (split; [apply Hall, rtc_refl|done]).
  pose proof (generated_ok w Hw) as Hok.
  destruct (BlockStm.block_stm_counts self w fin ltac:(lia) Hok Hj) as (Hf & Hs & _).
  rewrite (verified_none_rejected self w Hok (WlSpec.sq_verified _ _ Hsq)) in Hf.
  exists fin, (BlockStm.final_db (PE.final_states (Workers.block_result fin))).
  split_and!; [done..| |].
  { unfold BlockStm.execute. f_equal. rewrite <- Hlen.
    destruct (BlockStm.exec_result _) as [s f]. cbn in *. subst. by rewrite Z.sub_0_r. }
  destruct Hw as [Hlt _ _ Hcat].
  set (v := BlockStm.verify_signatures self).
  destruct (sequenced_applies v ∅ _ _ Hsq Hnd Hlt) as [m Hm].
  pose proof (applied_final _ _ _ _ _ _ Hsq Hnd Hlt (Permutation_refl _) Hm) as [Hfinal _].
  rewrite <- BlockStm.initial_states_fund, <- (map_empty_union (BlockStm.initial_states w)) in Hm.
  apply ledger_applies in Hm as [-> Hdom]. cbn in Hmv.
  rewrite BlockStm.block_stm_txs_ok in Hmv by done.
  set (l := Ledger.run _ _ _ _) in *.
  change (PE.final_states (Workers.block_result fin)) with (MV.get_committed_states (Workers.mv (Workers.shared fin))).
  intros a. rewrite (final_db_ledger _ l a (MV.get_committed_states_NoDup _))
    by (intros b s; by eapply Single.mv_seq_committed_states).
  assert (is_Some (l !! a) ↔ a ∈ (Wl.from <$> Wl.transactions w) ∨ a ∈ (Wl.to <$> Wl.transactions w)) as Ha.
  { rewrite Hdom, lookup_empty. split; [|tauto]. by intros [[? ?]|?]. }
  case_decide as Hd.
  - destruct (proj2 Ha Hd) as [s Hs']. rewrite Hs'. eexists. split; [done|].
    assert (a ∈ Wl.addresses w) as Hin.
    { destruct Hd as [(tx & -> & Htx)%list_elem_of_fmap|(tx & -> & Htx)%list_elem_of_fmap];
        apply list_elem_of_lookup in Htx as [i Hi]; by apply (WlSpec.sq_transfer _ _ Hsq Hnd i tx Hi). }
    destruct (Hfinal a Hin) as (s' & Hs2 & Hf2). rewrite lookup_union, Hs' in Hs2.
    destruct (BlockStm.initial_states w !! a); cbn in Hs2; by simplify_eq.
  - destruct (l !! a) eqn:E; [|done]. destruct Hd. apply Ha. eauto.
Qed.
End BlockStm.

(** ** Witnesses *)

Definition is_distinct (w : Wl.Workload) : bool := bool_decide (NoDup (Wl.addresses w)).

(** One wei from account 1 to account 2, as the FoundationDB examples use it. *)
Lemma workload_1_2_generated : generated FdbSpec.workload_1_2.
Proof.
  assert (is_distinct FdbSpec.workload_1_2 = true) as Hnd by by_compute.
  apply bool_decide_eq_true in Hnd. split; [done|exact Hnd| |done]. split.
  - apply Forall_singleton. by_compute.
  - intros _ [|[|i]] tx Hi; cbn in Hi; [|done|done]. injection Hi as <-.
    split_and!; [|by left|by right; left|done|done].
    cbn. intros H. assert (bool_decide (FdbSpec.x1 = FdbSpec.x2) = false) as E by by_compute.
    by rewrite bool_decide_true in E.
Qed.

#[local] Instance memory_mdbx : StoreExecutor Mdbx.MdbxSequentialExecutor 
    (Mdbx.DatabaseEnv (MdbxLib := Mdbx.memory_env)) :=
  mdbx_store_executor (L := Mdbx.memory_env) MdbxSpec.hash_inj_uint.

Lemma generated_workload_result_witness :
  ∃ w r env', WlSpec.sample = Return w ∧
    mdbx_returns (L := Mdbx.memory_env) (Mdbx.mkMdbx true) ∅ w env' r ∧ r = Exec.mkResult 4 0.
Proof.
  destruct WlSpec.sample_returns as (w & Hw & Hnd).
  destruct (MdbxSpec.execute_workload_total (L := Mdbx.memory_env) (Mdbx.mkMdbx true) w ∅)
    as ([r []] & env' & H).
  exists w, r, env'. split_and!; [done|exact H|].
  apply (generated_workload_result (S := memory_mdbx) 5 WlSpec.sample_config w (Mdbx.mkMdbx true) ∅ ∅ env' r);
    [exact Hw|done|exact Hnd|done|apply MdbxSpec.repr_empty|exact H].
Defined.

Definition fdb_memory_executor : StoreExecutor Fdb.FdbParallelExecutor
    (Fdb.Database (FdbLib := Fdb.fdb_memory false)) :=
  fdb_store_executor (L := Fdb.fdb_memory false) FdbSpec.keccak_inj_uint.

(** One transfer through MDBX and through FoundationDB. *)
Lemma generated_workload_agree_witness :
  ∃ r env', mdbx_returns (L := Mdbx.memory_env) (Mdbx.mkMdbx true) ∅ FdbSpec.workload_1_2 env' r ∧
    r = Exec.mkResult 1 0 ∧
    ∃ l', MdbxSpec.repr (L := Mdbx.memory_env) env' l' ∧
      FdbSpec.repr (L := Fdb.fdb_memory false) FdbSpec.d_final l'.
Proof.
  destruct (MdbxSpec.execute_workload_total (L := Mdbx.memory_env) (Mdbx.mkMdbx true)
    FdbSpec.workload_1_2 ∅) as ([r []] & env' & H).
  exists r, env'. split; [exact H|].
  apply (generated_workload_agree (E1 := memory_mdbx) (E2 := fdb_memory_executor) FdbSpec.workload_1_2
    (Mdbx.mkMdbx true) FdbSpec.executor ∅ env' ∅ FdbSpec.d_final ∅ r (Exec.mkResult 1 0)).
  - apply workload_1_2_generated.
  - intros a s. cbn. by rewrite lookup_empty.
  - symmetry. apply (FdbSpec.stale_empty (A := alloy_uint)).
  - done.
  - apply MdbxSpec.repr_empty.
  - exact H.
  - cbn. lia.
  - apply FdbSpec.repr_nothing.
  - exists (Fdb.mkParallelResult [Fdb.mkThreadResult 0 1 0] 1 0). split; [|done].
    apply (FdbSpec.sample_execution false).
Defined.

(** The sample workload on one Block-STM worker. *)
#[local] Instance memory_db : CacheDBLib alloy_uint := cachedb_gmap alloy_uint (u256_of 0).

Lemma block_stm_one_worker_witness :
  ∃ w fin db', WlSpec.sample = Return w ∧ BlockStm.joined (BlockStm.new 1 true) w fin ∧
    BlockStm.execute fin = (db', Exec.mkResult 4 0).
Proof.
  destruct WlSpec.sample_returns as (w & Hw & Hnd).
  destruct (block_stm_one_worker 5 WlSpec.sample_config w (BlockStm.new 1 true) Hw)
    as (fin & db' & Hj & _ & He & _); [done|exact Hnd|done|].
  by exists w, fin, db'.
Defined.

End EndToEnd.
