(* ===== verification/SequentialSpec.v ===== *)
(** * What the in-memory executor computes

    [SequentialExecutor] gives every transfer to revm as a call with a gas limit
    of 21000 at a gas price of 1.  With the rules of revm for such a call, the
    executor refines a ledger that charges the sender 21000 wei on top of the
    value; on a generated workload all transactions succeed, and the balances
    are those of the other executors less the gas. *)

From stdpp Require Import base option list gmap.
From Stdlib Require Import ZArith Lia.
From S2P Require Import Prelude Integers Externals Types Workload WorkloadSpec Executor.
From S2P Require Import Sequential Store StoreSpec StoreExecutor Mdbx MdbxSpec EndToEnd.

Module SeqSpec.
Import StoreSpec.

(** ** The ledger with gas *)

Section Ledger.
Context {A : Alloy} {K : Keys A}.
Implicit Types (l : gmap Address AccountState) (tx : Wl.SignedTransaction)
  (txs : list Wl.SignedTransaction) (a from to : Address) (amount : U256) (s : AccountState).

(** The gas of a plain transfer, at a price of one wei. *)
Definition transfer_gas : Z := 21000.

Definition debited amount s : AccountState :=
  AccountState_new (u64_add (nonce s) 1) (u256_sub (u256_sub (balance s) amount) (u256_from transfer_gas)).

Definition credited amount s : AccountState := AccountState_new (nonce s) (u256_add (balance s) amount).

(** The accounts after a transfer; sender and receiver may be one account. *)
Definition moved from to amount l : gmap Address AccountState :=
  alter (credited amount) to (alter (debited amount) from l).

(** What a transfer asks of its sender; an absent one has no balance. *)
Definition can_pay l from amount (n : Z) : bool :=
  let s := default Store.absent (l !! from) in
  (nonce s =? n)%Z && (u256_val amount + transfer_gas <=? u256_val (balance s))%Z.

(** One transaction; [false] when it is refused. *)
Definition apply (verify : bool) l tx : gmap Address AccountState * bool :=
  if Exec.signature_rejected verify tx then (l, false)
  else if can_pay l (Wl.from tx) (Wl.value tx) (Wl.tx_nonce tx)
  then (moved (Wl.from tx) (Wl.to tx) (Wl.value tx) l, true) else (l, false).

(** A list of transactions: the final ledger, the applied and the refused. *)
Fixpoint run (verify : bool) l txs : gmap Address AccountState * nat * nat :=
  match txs with
  | [] => (l, 0, 0)
  | tx :: txs =>
      let '(l, ok) := apply verify l tx in
      let '(l, s, f) := run verify l txs in
      (l, Nat.b2n ok + s, Nat.b2n (negb ok) + f)
  end.

Lemma moved_lookup from to amount l a :
  moved from to amount l !! a =
  (λ s, let s := if decide (from = a) then debited amount s else s in
        if decide (to = a) then credited amount s else s) <$> l !! a.
Proof.
  unfold moved. rewrite !lookup_alter.
  repeat (case_decide; simplify_eq; try done); destruct (l !! _); done.
Qed.

Lemma gas_run_snoc v l txs tx l1 n f :
  run v l txs = (l1, n, f) →
  run v l (txs ++ [tx]) =
  let '(l2, ok) := apply v l1 tx in (l2, n + Nat.b2n ok, f + Nat.b2n (negb ok)).
Proof.
  revert l n f. induction txs as [|tx' txs IH]; intros l n f; cbn.
  { intros [= -> <- <-]. destruct (apply v l1 tx) as [l2 []]; done. }
  destruct (apply v l tx') as [l' ok]. destruct (run v l' txs) as [[l3 n3] f3] eqn:E.
  intros [= -> <- <-]. rewrite (IH _ _ _ E). destruct (apply v l1 tx) as [l2 ok2].
  f_equal; [f_equal|]; lia.
Qed.
End Ledger.

(** ** revm on a transfer *)

Section Laws.
Context {A : Alloy} {C : CacheDBLib A}.
Implicit Types (a from to : Address) (amount : U256) (i : AccountInfo) (s : AccountState).

(** An account without code, as [basic] shows it. *)
Definition shows i s : Prop :=
  info_nonce i = nonce s ∧ info_balance i = balance s ∧ code_hash i = KECCAK_EMPTY.

(** A database and a ledger agree on the accounts of a set. *)
Definition represents (ordinary : Address → Prop) (db : CacheDB) (l : gmap Address AccountState) : Prop :=
  ∀ a, ordinary a →
    match l !! a with
    | Some s => ∃ i, basic db a = Some i ∧ shows i s
    | None => basic db a = None
    end.

(** revm's rules for a transfer on chain 1 between accounts without code.
    [ordinary] addresses are neither precompiled contracts nor the beneficiary
    of the block, who receives the gas.  A wrong nonce or a balance below value
    plus gas is an error that changes no account; otherwise the call succeeds,
    provided the receiver's balance does not overflow. *)
Class RevmLaws (V : Sequential.Revm) (ordinary : Address → Prop) : Prop := {
  build_basic : ∀ db a,
    basic (Sequential.database (Sequential.build_mainnet db)) a = basic db a;
  transact_transfer : ∀ evm l from to amount n r,
    represents ordinary (Sequential.database evm) l → ordinary from → ordinary to →
    (0 ≤ n < u64_modulus - 1)%Z →
    l !! to = Some r → (u256_val (balance r) + u256_val amount < u256_modulus)%Z →
    let '(evm', result) := Sequential.transact_commit evm
      (Sequential.mkTxEnv from (Sequential.Call to) amount 21000 1 n (Some 1%Z)) in
    result = (if can_pay l from amount n then Some true else None) ∧
    represents ordinary (Sequential.database evm')
      (if can_pay l from amount n then moved from to amount l else l);
}.
End Laws.

(** ** The executor refines the ledger *)

Section Refines.
Context {A : Alloy} {AL : AlloyLaws A} {K : Keys A} {C : CacheDBLib A} {V : Sequential.Revm}.
Context (ordinary : Address → Prop) {VL : RevmLaws V ordinary}.
Implicit Types (l : gmap Address AccountState) (tx : Wl.SignedTransaction)
  (txs : list Wl.SignedTransaction) (a : Address).

(** What is asked of a transaction: ordinary accounts, a receiver that exists and
    a nonce that can be incremented. *)
Record plain l tx : Prop := {
  pl_from : ordinary (Wl.from tx);
  pl_to : ordinary (Wl.to tx);
  pl_receiver : is_Some (l !! Wl.to tx);
  pl_nonce : (0 ≤ Wl.tx_nonce tx < u64_modulus - 1)%Z;
}.

(** Even an account that receives everything does not overflow. *)
Definition bounded l txs : Prop :=
  ∀ a s, l !! a = Some s →
    (u256_val (balance s) + sum_Z (λ tx, u256_val (Wl.value tx)) txs < u256_modulus)%Z.

Lemma sum_values_nonneg txs : (0 ≤ sum_Z (λ tx, u256_val (Wl.value tx)) txs)%Z.
Proof. induction txs as [|tx txs IH]; [done|]. cbn. pose proof (u256_range (Wl.value tx)). lia. Qed.

Lemma apply_plain v l tx tx' : plain l tx' → plain (apply v l tx).1 tx'.
Proof.
  intros [Hf Ht Hr Hn]. split; try done. unfold apply. repeat case_match; try done. cbn.
  rewrite moved_lookup. by apply fmap_is_Some.
Qed.

Lemma debited_balance l from v n s :
  can_pay l from v n = true → l !! from = Some s →
  u256_val (balance (debited v s)) = (u256_val (balance s) - u256_val v - transfer_gas)%Z.
Proof.
  unfold can_pay. intros [_ H]%andb_true_iff E. rewrite E in H. cbn in H. apply Z.leb_le in H.
  pose proof (u256_range v) as Hv. pose proof (u256_range (balance s)) as Hs.
  unfold debited. cbn -[u256_sub u256_from transfer_gas]. unfold transfer_gas, u256_modulus in *.
  rewrite !u256_sub_val, u256_from_val by done.
  unfold u256_modulus. rewrite Zminus_mod_idemp_l. apply Z.mod_small. lia.
Qed.

Lemma apply_bounded v l tx txs : bounded l (tx :: txs) → bounded (apply v l tx).1 txs.
Proof.
  intros Hb a s. pose proof (u256_range (Wl.value tx)) as Hv.
  assert (bounded l txs) as Hl by (intros b t Ht; specialize (Hb b t Ht); cbn in Hb; lia).
  unfold apply. destruct (Exec.signature_rejected v tx); [apply Hl|].
  destruct (can_pay l _ _ _) eqn:Hp; [|apply Hl]. cbn [fst]. rewrite moved_lookup.
  destruct (l !! a) as [s0|] eqn:E; [|done]. specialize (Hb a s0 E). cbn [sum_Z] in Hb.
  pose proof (sum_values_nonneg txs).
  assert (∀ s1, (u256_val (balance s1) ≤ u256_val (balance s0))%Z →
    (u256_val (balance (if decide (Wl.to tx = a) then credited (Wl.value tx) s1 else s1))
      + sum_Z (λ tx, u256_val (Wl.value tx)) txs < u256_modulus)%Z) as Hc.
  { intros s1 H1. case_decide; [|lia]. cbn. rewrite u256_add_exact; lia. }
  intros [= <-]. apply Hc. clear Hc. destruct (decide (Wl.from tx = a)) as [<-|]; [|lia].
  rewrite (debited_balance _ _ _ _ _ Hp E). unfold transfer_gas. lia.
Qed.

Lemma build_represents db l :
  represents ordinary db l → represents ordinary (Sequential.database (Sequential.build_mainnet db)) l.
Proof. intros Hr a Ha. rewrite build_basic. by apply Hr. Qed.

(** The loop runs the ledger. *)
Lemma execute_txs_ledger self txs evm l s f :
  represents ordinary (Sequential.database evm) l → Forall (plain l) txs → bounded l txs →
  ∃ evm' l' s' f', Sequential.execute_txs self 1 txs evm s f = (evm', s + s', f + f') ∧
    run (Sequential.verify_signatures self) l txs = (l', s', f') ∧
    represents ordinary (Sequential.database evm') l'.
Proof.
  revert evm l s f. induction txs as [|tx txs IH]; intros evm l s f Hr Hp Hb.
  { exists evm, l, 0, 0. by rewrite !Nat.add_0_r. }
  apply Forall_cons in Hp as [Htx Hp]. set (v := Sequential.verify_signatures self) in *.
  assert (Forall (plain (apply v l tx).1) txs) as Hp'
    by (eapply Forall_impl; [exact Hp|]; intros; by apply apply_plain).
  pose proof (apply_bounded v _ _ _ Hb) as Hb'. revert Hp' Hb'.
  cbn [Sequential.execute_txs run]. unfold apply. fold v.
  destruct (Exec.signature_rejected v tx); cbn [fst].
  { intros Hp' Hb'. destruct (IH evm l s (f + 1) Hr Hp' Hb') as (evm' & l' & s' & f' & E & -> & Hr').
    exists evm', l', s', (1 + f'). split_and!; [|done..]. rewrite E. f_equal. lia. }
  destruct Htx as [Hf Ht [r Er] Hn].
  pose proof (transact_transfer evm l (Wl.from tx) (Wl.to tx) (Wl.value tx) (Wl.tx_nonce tx) r
    Hr Hf Ht Hn Er) as Hc.
  unfold Sequential.tx_env. destruct (Sequential.transact_commit _ _) as [evm1 result].
  destruct Hc as [-> Hr1].
  { specialize (Hb _ _ Er). cbn in Hb. pose proof (sum_values_nonneg txs). lia. }
  destruct (can_pay l _ _ _); cbn [fst]; intros Hp' Hb'.
  - destruct (IH evm1 _ (s + 1) f Hr1 Hp' Hb') as (evm' & l' & s' & f' & E & -> & Hr').
    exists evm', l', (1 + s'), f'. split_and!; [|done..]. rewrite E. f_equal. f_equal. lia.
  - destruct (IH evm1 _ s (f + 1) Hr1 Hp' Hb') as (evm' & l' & s' & f' & E & -> & Hr').
    exists evm', l', s', (1 + f'). split_and!; [|done..]. rewrite E. f_equal. lia.
Qed.

(** C11: the in-memory executor refines the ledger with gas.  On chain 1, for
    transactions between ordinary accounts whose receivers exist and whose
    balances cannot overflow, it returns the counts of the ledger run over the
    workload in order and a database with the accounts of that ledger; a wrong
    nonce, a balance below value plus 21000 wei and a rejected signature are
    failures that change nothing. *)
Theorem sequential_refines_gas_ledger self db l w :
  Wl.chain_id (Wl.config w) = 1%Z → represents ordinary db l →
  Forall (plain l) (Wl.transactions w) → bounded l (Wl.transactions w) →
  ∃ db' l' s f,
    Sequential.execute self db w = (db', Exec.mkResult (Z.of_nat s) (Z.of_nat f)) ∧
    run (Sequential.verify_signatures self) l (Wl.transactions w) = (l', s, f) ∧
    represents ordinary db' l'.
Proof.
  intros Hc Hr Hp Hb. unfold Sequential.execute. rewrite Hc.
  destruct (execute_txs_ledger self (Wl.transactions w) (Sequential.build_mainnet db) l 0 0)
    as (evm' & l' & s & f & -> & Hrun & Hr'); [by apply build_represents|done..|].
  by exists (Sequential.database evm'), l', s, f.
Qed.

(** ** Generated workloads *)

Lemma create_db_basic {CL : CacheDBLaws A C} (w : Wl.Workload) a :
  basic (Wl.create_db w) a = if decide (a ∈ Wl.addresses w) then Some Wl.initial_info else None.
Proof.
  unfold Wl.create_db, Wl.addresses. induction (Wl.accounts w) as [|x xs IH] using rev_ind; cbn.
  { rewrite basic_new, decide_False; [done|by apply not_elem_of_nil]. }
  rewrite foldl_app, fmap_app. cbn. rewrite basic_insert, IH.
  repeat case_decide; try done; set_solver.
Qed.

Lemma create_db_represents {CL : CacheDBLaws A C} (w : Wl.Workload) :
  represents ordinary (Wl.create_db w) (Store.fund ∅ (Wl.addresses w)).
Proof.
  intros a _. rewrite Store.fund_lookup, lookup_empty, create_db_basic.
  case_decide; [by eexists|done].
Qed.

(** What a funded account has after sending and receiving. *)
Definition charged a txs (s : AccountState) : Prop :=
  nonce s = Z.of_nat (Wl.sent_from a txs) ∧
  u256_val (balance s) =
    (10 ^ 21 - (1 + transfer_gas) * Z.of_nat (Wl.sent_from a txs) + Z.of_nat (Wl.received_by a txs))%Z.

Lemma sent_from_snoc a txs tx :
  Wl.sent_from a (txs ++ [tx]) = Wl.sent_from a txs + if decide (Wl.from tx = a) then 1 else 0.
Proof.
  unfold Wl.sent_from at 1. rewrite filter_app, length_app. fold (Wl.sent_from a [tx]).
  rewrite Wl.sent_from_cons. apply (f_equal (Nat.add _)), Nat.add_0_r.
Qed.

Lemma received_by_snoc a txs tx :
  Wl.received_by a (txs ++ [tx]) = Wl.received_by a txs + if decide (Wl.to tx = a) then 1 else 0.
Proof.
  unfold Wl.received_by at 1. rewrite filter_app, length_app. fold (Wl.received_by a [tx]).
  rewrite Wl.received_by_cons. apply (f_equal (Nat.add _)), Nat.add_0_r.
Qed.

Lemma charged_step a tx txs s :
  charged a txs s → Wl.value tx = u256_from 1 → Wl.from tx ≠ Wl.to tx →
  ((1 + transfer_gas) * Z.of_nat (length (txs ++ [tx])) ≤ 10 ^ 21)%Z →
  charged a (txs ++ [tx])
    (let s := if decide (Wl.from tx = a) then debited (Wl.value tx) s else s in
     if decide (Wl.to tx = a) then credited (Wl.value tx) s else s).
Proof.
  intros [Hn Hb] Hv Hne Hlen. rewrite length_app in Hlen. cbn [length] in Hlen.
  pose proof (sent_from_snoc a txs tx) as Es. pose proof (received_by_snoc a txs tx) as Er.
  assert (u256_val (Wl.value tx) = 1)%Z as H1 by (rewrite Hv; by apply u256_from_val).
  pose proof (sent_from_length a txs). pose proof (received_by_length a txs).
  unfold charged, transfer_gas, u256_modulus in *. rewrite Es, Er.
  repeat case_decide; [congruence|..].
  - unfold credited. cbn -[u256_add Z.of_nat Z.mul Z.pow]. split; [lia|].
    rewrite u256_add_val, H1, Hb. unfold u256_modulus. rewrite Z.mod_small; lia.
  - unfold debited, transfer_gas. cbn -[u256_sub u256_from Z.of_nat Z.mul Z.pow]. split.
    + unfold u64_add, u64_modulus. rewrite Hn, Z.mod_small; lia.
    + rewrite !u256_sub_val, u256_from_val, H1, Hb, Zminus_mod_idemp_l by done.
      unfold u256_modulus. rewrite Z.mod_small; lia.
  - split; lia.
Qed.

(** In order, every transaction finds its nonce and can pay for its gas. *)
Lemma sequenced_charges v addrs txs i :
  WlSpec.sequenced addrs txs → NoDup addrs →
  ((1 + transfer_gas) * Z.of_nat (length txs) ≤ 10 ^ 21)%Z → i ≤ length txs →
  ∃ l', run v (Store.fund ∅ addrs) (take i txs) = (l', i, 0) ∧
    ∀ a, a ∈ addrs → ∃ s, l' !! a = Some s ∧ charged a (take i txs) s.
Proof.
  intros Hsq Hnd Hlen. induction i as [|i IH]; intros Hi.
  { exists (Store.fund ∅ addrs). split; [done|]. intros a Ha. eexists.
    rewrite Store.fund_lookup, decide_True by done. split; [done|]. split; [done|].
    cbn [balance AccountState_new]. rewrite initial_balance_val. by rewrite Z.mul_0_r. }
  destruct IH as (l & Hrun & Hl); [lia|]. destruct (lookup_lt_is_Some_2 txs i) as [tx Htx]; [lia|].
  destruct (WlSpec.sq_transfer _ _ Hsq Hnd i tx Htx) as (Hne & Hf & _ & Hval & Hnonce).
  assert (Exec.signature_rejected v tx = false) as Hs.
  { apply signature_accepted. by apply (proj1 (Forall_lookup _ _) (WlSpec.sq_verified _ _ Hsq) i). }
  assert (can_pay l (Wl.from tx) (Wl.value tx) (Wl.tx_nonce tx) = true) as Hp.
  { destruct (Hl _ Hf) as (s & E & Hn & Hb). unfold can_pay. rewrite E. cbn [from_option]. unfold id.
    apply andb_true_intro. split; [apply Z.eqb_eq; by rewrite Hn|]. apply Z.leb_le.
    pose proof (sent_from_length (Wl.from tx) (take i txs)) as Hsl. rewrite length_take in Hsl.
    rewrite Hval, Hb, u256_from_val by done. unfold transfer_gas in *. lia. }
  rewrite (take_S_r _ _ _ Htx), (gas_run_snoc _ _ _ _ _ _ _ Hrun). unfold apply. rewrite Hs, Hp. cbn [Nat.b2n negb].
  eexists. split; [f_equal; f_equal; lia|]. intros a Ha. destruct (Hl a Ha) as (s & E & Hc).
  rewrite moved_lookup, E. eexists. split; [reflexivity|]. apply charged_step; [done..|].
  rewrite <- (take_S_r _ _ _ Htx), length_take. unfold transfer_gas in *. lia.
Qed.

Lemma sequenced_plain addrs txs :
  WlSpec.sequenced addrs txs → NoDup addrs → (Z.of_nat (length txs) < u64_modulus)%Z →
  Forall ordinary addrs → Forall (plain (Store.fund ∅ addrs)) txs.
Proof.
  intros Hsq Hnd Hlen Hord. apply Forall_lookup. intros i tx Htx.
  destruct (WlSpec.sq_transfer _ _ Hsq Hnd i tx Htx) as (_ & Hf & Ht & _ & Hnonce).
  rewrite Forall_forall in Hord. split; [by apply Hord..|rewrite Store.fund_lookup, decide_True by done; eauto|].
  pose proof (sent_from_length (Wl.from tx) (take i txs)) as Hsl. rewrite length_take in Hsl.
  apply lookup_lt_Some in Htx. lia.
Qed.

Lemma funded_bounded addrs txs :
  Forall (λ tx, Wl.value tx = u256_from 1) txs → (Z.of_nat (length txs) < u64_modulus)%Z →
  bounded (Store.fund ∅ addrs) txs.
Proof.
  intros Hv Hlen a s. rewrite Store.fund_lookup, lookup_empty. case_decide; [|done]. intros [= <-].
  cbn -[Z.pow]. rewrite initial_balance_val.
  assert (sum_Z (λ tx, u256_val (Wl.value tx)) txs = Z.of_nat (length txs)) as ->.
  { clear Hlen. induction Hv as [|tx txs' E _ IH]; [done|]. cbn [sum_Z length].
    rewrite IH, E, u256_from_val by done. lia. }
  unfold u64_modulus, u256_modulus in *. lia.
Qed.

(** The result on a generated workload. *)
Lemma in_memory_generated {R : Rand} {KL : KeysLaws A K} {RL : RandLaws R} {CL : CacheDBLaws A C}
    fuel config w self :
  Wl.generate fuel config = Return w → Wl.chain_id config = 1%Z →
  ((1 + transfer_gas) * Z.of_nat (Wl.num_transactions config) ≤ 10 ^ 21)%Z →
  NoDup (Wl.addresses w) → Forall ordinary (Wl.addresses w) →
  ∃ db', Sequential.execute self (Wl.create_db w) w =
      (db', Exec.mkResult (Z.of_nat (Wl.num_transactions config)) 0) ∧
    ∀ a, a ∈ Wl.addresses w →
      ∃ i s, basic db' a = Some i ∧ shows i s ∧ charged a (Wl.transactions w) s.
Proof.
  intros Hg Hc Hn Hnd Hord. assert (Z.of_nat (Wl.num_transactions config) < u64_modulus)%Z as Hn'
    by (unfold transfer_gas, u64_modulus in *; lia).
  destruct (WlSpec.generate_sequenced _ _ _ Hg Hn') as (_ & Hlen & Hsq). rewrite <- Hlen in *.
  destruct (sequenced_charges (Sequential.verify_signatures self) _ _ (length (Wl.transactions w)) Hsq Hnd Hn)
    as (l & Hrun & Hl); [done|]. rewrite firstn_all in Hrun, Hl.
  destruct (execute_txs_ledger self (Wl.transactions w) (Sequential.build_mainnet (Wl.create_db w))
    (Store.fund ∅ (Wl.addresses w)) 0 0) as (evm' & l' & s & f & E & Hrun' & Hr').
  - apply build_represents, create_db_represents.
  - by apply sequenced_plain.
  - apply funded_bounded; [|done]. by destruct (sequenced_one_wei _ _ Hsq Hnd).
  - rewrite Hrun in Hrun'. simplify_eq. exists (Sequential.database evm'). split.
    + unfold Sequential.execute. apply WlSpec.generate_inv in Hg as (_ & _ & _ & _ & _ & Hcfg).
      rewrite Hcfg, Hc, E. done.
    + intros a Ha. destruct (Hl a Ha) as (st & Est & Hst). specialize (Hr' a).
      rewrite Est in Hr'. destruct Hr' as (i & Hi & Hsh); [|by exists i, st].
      rewrite Forall_forall in Hord. by apply Hord.
Qed.
End Refines.

(** ** Against the database executors *)

Section Compare.
Context {A : Alloy} {AL : AlloyLaws A} {K : Keys A} {R : Rand} {KL : KeysLaws A K} {RL : RandLaws R}.
Context {C : CacheDBLib A} {CL : CacheDBLaws A C} {V : Sequential.Revm}.
Context (ordinary : Address → Prop) {VL : RevmLaws V ordinary}.

(** C10: the in-memory executor against the others.  On a generated workload with
    distinct ordinary addresses on chain 1 it returns exactly the counts of
    every database executor that returns, all successful, and gives every
    account the same nonce; but its balances are lower than theirs by 21000 wei
    for each transaction the account has sent, since it alone charges gas. *)
Theorem in_memory_charges_gas {Self Database} {S : StoreExec.StoreExecutor Self Database}
    fuel config w self other odb l odb' r :
  Wl.generate fuel config = Return w → Wl.chain_id config = 1%Z →
  ((1 + transfer_gas) * Z.of_nat (Wl.num_transactions config) ≤ 10 ^ 21)%Z →
  NoDup (Wl.addresses w) → Forall ordinary (Wl.addresses w) →
  StoreExec.ready other → StoreExec.holds odb l → StoreExec.returns other odb w odb' r →
  r = Exec.mkResult (Z.of_nat (Wl.num_transactions config)) 0 ∧
  ∃ db' l', Sequential.execute self (Wl.create_db w) w = (db', r) ∧ StoreExec.holds odb' l' ∧
    ∀ a, a ∈ Wl.addresses w → ∃ i s, basic db' a = Some i ∧ l' !! a = Some s ∧
      info_nonce i = nonce s ∧
      (u256_val (info_balance i) + 21000 * Z.of_nat (Wl.sent_from a (Wl.transactions w)))%Z
        = u256_val (balance s).
Proof.
  intros Hg Hc Hn Hnd Hord Hrd Hh Hr.
  destruct (in_memory_generated ordinary fuel config w self Hg Hc Hn Hnd Hord) as (db' & He & Hm).
  assert (Z.of_nat (Wl.num_transactions config) < u64_modulus)%Z as Hn'
    by (unfold transfer_gas, u64_modulus in *; lia).
  pose proof (StoreExec.generate_generated _ _ _ Hg Hn' Hnd) as Hw.
  rewrite <- (WlSpec.generate_length _ _ _ Hg) in *.
  destruct (StoreExec.returns_applies other odb l w odb' r Hrd Hw Hh Hr) as (-> & order & l' & Hp & Hh' & Ha).
  split; [done|]. exists db', l'. split_and!; [done..|]. intros a Hin. destruct Hw as [Hlen _ Hsq _].
  destruct (applied_final _ _ _ _ _ _ Hsq Hnd Hlen Hp Ha) as [Hfin _].
  destruct (Hfin a Hin) as (s & Hs & Hsn & Hsb). destruct (Hm a Hin) as (i & t & Hi & (Hin' & Hib & _) & Htn & Htb).
  exists i, s. split_and!; [done..|congruence|]. rewrite Hib, Htb, Hsb. unfold transfer_gas. lia.
Qed.
End Compare.

(** ** A machine

    Transfers over the in-memory accounts, with the gas paid to the beneficiary,
    account 0. *)

#[export] Instance memory_db : CacheDBLib alloy_uint := cachedb_gmap alloy_uint (u256_of 0).

Abbreviation Accounts := (gmap (@Address alloy_uint) AccountInfo).

Definition beneficiary : @Address alloy_uint := addr_of 0.

Definition no_account : AccountInfo := mkAccountInfo (A := alloy_uint) (u256_of 0) 0 (u256_of 0) None.

Definition pay_gas (amount : @U256 alloy_uint) (i : AccountInfo (A := alloy_uint)) : AccountInfo :=
  mkAccountInfo (u256_sub (u256_sub (info_balance i) amount) (u256_from 21000))
    (u64_add (info_nonce i) 1) (code_hash i) (code i).

Definition receive (amount : @U256 alloy_uint) (i : AccountInfo (A := alloy_uint)) : AccountInfo :=
  mkAccountInfo (u256_add (info_balance i) amount) (info_nonce i) (code_hash i) (code i).

Definition transact (evm : Accounts) (tx : Sequential.TxEnv (A := alloy_uint)) : Accounts * option bool :=
  match Sequential.kind tx with
  | Sequential.Create => (evm, None)
  | Sequential.Call to =>
      let sender := default no_account (evm !! Sequential.caller tx) in
      let amount := Sequential.env_value tx in
      if (info_nonce sender =? Sequential.env_nonce tx)%Z &&
         (u256_val amount + 21000 <=? u256_val (info_balance sender))%Z
      then
        let evm := alter (receive amount) to (alter (pay_gas amount) (Sequential.caller tx) evm) in
        let miner := default no_account (evm !! beneficiary) in
        (<[beneficiary := receive (u256_from 21000) miner]> evm, Some true)
      else (evm, None)
  end.

Definition transfer_machine : Sequential.Revm (A := alloy_uint) := {|
  Sequential.Evm := CacheDB;
  Sequential.build_mainnet db := db;
  Sequential.transact_commit := transact;
  Sequential.database evm := evm;
|}.
#[export] Existing Instance transfer_machine.

Definition not_beneficiary (a : @Address alloy_uint) : Prop := a ≠ beneficiary.

#[export] Instance not_beneficiary_dec a : Decision (not_beneficiary a).
Proof. unfold not_beneficiary. apply _. Defined.

Lemma shows_pay v i s : shows i s → shows (pay_gas v i) (debited v s).
Proof. intros (Hn & Hb & Hc). unfold shows; cbn [info_nonce info_balance code_hash pay_gas debited AccountState_new nonce balance]. by rewrite Hn, Hb. Qed.

Lemma shows_receive v i s : shows i s → shows (receive v i) (credited v s).
Proof. intros (Hn & Hb & Hc). unfold shows; cbn [info_nonce info_balance code_hash receive credited AccountState_new nonce balance]. by rewrite Hn, Hb. Qed.

Lemma sender_shown (evm : Accounts) l a :
  represents not_beneficiary evm l → not_beneficiary a →
  info_nonce (default no_account (evm !! a)) = nonce (default Store.absent (l !! a)) ∧
  info_balance (default no_account (evm !! a)) = balance (default Store.absent (l !! a)).
Proof.
  intros Hr Ha. specialize (Hr a Ha). change (@basic alloy_uint memory_db evm a) with (evm !! a) in Hr.
  destruct (l !! a) as [s|].
  - destruct Hr as (i & -> & Hn & Hb & _). done.
  - by rewrite Hr.
Qed.

Lemma paid_lookup (evm : Accounts) from to v miner a :
  not_beneficiary a →
  @basic alloy_uint memory_db (<[beneficiary := miner]> (alter (receive v) to (alter (pay_gas v) from evm))) a =
  (λ i, let i := if decide (from = a) then pay_gas v i else i in
        if decide (to = a) then receive v i else i) <$> @basic alloy_uint memory_db evm a.
Proof.
  intros Ha. change (<[beneficiary := miner]> (alter (receive v) to (alter (pay_gas v) from evm)) !! a =
    (λ i, let i := if decide (from = a) then pay_gas v i else i in
          if decide (to = a) then receive v i else i) <$> evm !! a).
  rewrite lookup_insert_ne by (intros <-; by apply Ha). rewrite !lookup_alter.
  repeat (case_decide; simplify_eq; try done); destruct (evm !! _); done.
Qed.

#[export] Instance machine_laws : RevmLaws transfer_machine not_beneficiary.
Proof.
  split; [done|]. intros evm l from to v n r Hr Hf _ _ _ _.
  change (represents not_beneficiary (C := memory_db) evm l) in Hr.
  cbn -[transact]. unfold transact. cbn [Sequential.kind Sequential.caller Sequential.env_value Sequential.env_nonce].
  destruct (sender_shown evm l from Hr Hf) as [-> ->]. change (_ && _) with (can_pay l from v n).
  destruct (can_pay l from v n); [|done]. split; [done|]. intros a Ha. specialize (Hr a Ha).
  rewrite moved_lookup, (paid_lookup _ _ _ _ _ _ Ha). destruct (l !! a) as [s|]; cbn [fmap option_fmap option_map].
  - destruct Hr as (i & -> & Hi). eexists. split; [reflexivity|]. cbn zeta.
    repeat case_decide; try contradiction; auto using shows_pay, shows_receive.
  - by rewrite Hr.
Qed.

(** ** Witnesses *)

Definition all_ordinary (o : outcome Wl.Workload) : bool :=
  match o with
  | Return w => bool_decide (Forall not_beneficiary (Wl.addresses w))
  | _ => false
  end.

Lemma sample_ordinary w : WlSpec.sample = Return w → Forall not_beneficiary (Wl.addresses w).
Proof.
  intros Hw. assert (all_ordinary WlSpec.sample = true) as H by by_compute.
  rewrite Hw in H. by apply bool_decide_eq_true in H.
Qed.

(** Two funded
    accounts, a transfer, the same transfer again (a wrong nonce) and one of
    more than the balance. *)
Definition account_1 : @Address alloy_uint := addr_of 1.
Definition account_2 : @Address alloy_uint := addr_of 2.

Definition wei (from to : @Address alloy_uint) (amount n : Z) : Wl.SignedTransaction :=
  Wl.mkSigned from to (u256_of amount) n (Some from) (u256_of 0).

Definition three_txs : list Wl.SignedTransaction :=
  [wei account_1 account_2 5 0; wei account_1 account_2 5 0; wei account_2 account_1 (10 ^ 22) 0].

Definition three_workload : Wl.Workload :=
  Wl.mkWorkload [Wl.mkAccount account_1 account_1; Wl.mkAccount account_2 account_2]
    three_txs [three_txs] (Wl.mkWorkloadConfig 2 3 2 0 1 3).

Definition two_funded : gmap (@Address alloy_uint) AccountState := Store.fund ∅ [account_1; account_2].

(** The conditions of the refinement on a transaction, decided. *)
Definition is_plain (l : gmap (@Address alloy_uint) AccountState) (tx : Wl.SignedTransaction) : bool :=
  bool_decide (not_beneficiary (Wl.from tx)) && bool_decide (not_beneficiary (Wl.to tx)) &&
  bool_decide (is_Some (l !! Wl.to tx)) &&
  (0 <=? Wl.tx_nonce tx)%Z && (Wl.tx_nonce tx <? u64_modulus - 1)%Z.

Definition is_bounded (l : gmap (@Address alloy_uint) AccountState) (txs : list Wl.SignedTransaction) : bool :=
  forallb (λ p, u256_val (balance p.2) + sum_Z (λ tx, u256_val (Wl.value tx)) txs <? u256_modulus)%Z
    (map_to_list l).

Lemma is_plain_plain l txs : forallb (is_plain l) txs = true → Forall (plain not_beneficiary l) txs.
Proof.
  intros H. apply Forall_forall. intros tx Htx%list_elem_of_In.
  apply (proj1 (forallb_forall _ _) H) in Htx. unfold is_plain in Htx.
  rewrite !andb_true_iff, !bool_decide_eq_true, Z.leb_le, Z.ltb_lt in Htx.
  destruct Htx as [[[[Hf Ht] Hr] H0] Hn]. by split.
Qed.

Lemma is_bounded_bounded l txs : is_bounded l txs = true → bounded l txs.
Proof.
  intros H a s Ha%elem_of_map_to_list%list_elem_of_In.
  apply (proj1 (forallb_forall _ _) H) in Ha. by apply Z.ltb_lt in Ha.
Qed.

Lemma sequential_refines_gas_ledger_witness :
  ∃ db', Sequential.execute (Sequential.with_verification true) (Wl.create_db three_workload) three_workload =
    (db', Exec.mkResult 1 2).
Proof.
  destruct (sequential_refines_gas_ledger not_beneficiary
    (Sequential.with_verification true) (Wl.create_db three_workload) two_funded three_workload)
    as (db' & l' & s & f & E & Hrun & _).
  - done.
  - apply (create_db_represents not_beneficiary three_workload).
  - apply is_plain_plain. by_compute.
  - apply is_bounded_bounded. by_compute.
  - exists db'. rewrite E.
    assert (let r := run true two_funded three_txs in (r.1.2 =? 1) && (r.2 =? 2) = true) as Hc by by_compute.
    cbn zeta in Hc. change (run true two_funded three_txs = (l', s, f)) in Hrun. rewrite Hrun in Hc. cbn in Hc.
    by apply andb_true_iff in Hc as [->%Nat.eqb_eq ->%Nat.eqb_eq].
Defined.

(** The sample workload in memory and on MDBX. *)
Lemma in_memory_charges_gas_witness :
  ∃ w r env', WlSpec.sample = Return w ∧
    EndToEnd.mdbx_returns (L := Mdbx.memory_env) (Mdbx.mkMdbx true) ∅ w env' r ∧ r = Exec.mkResult 4 0.
Proof.
  destruct WlSpec.sample_returns as (w & Hw & Hnd).
  destruct (MdbxSpec.execute_workload_total (L := Mdbx.memory_env) (Mdbx.mkMdbx true) w ∅)
    as ([r []] & env' & H).
  exists w, r, env'. split_and!; [done|exact H|].
  apply (in_memory_charges_gas not_beneficiary
    (S := EndToEnd.mdbx_store_executor (L := Mdbx.memory_env) MdbxSpec.hash_inj_uint)
    5 WlSpec.sample_config w (Sequential.with_verification true) (Mdbx.mkMdbx true) ∅ ∅ env' r);
    [exact Hw|done|done|exact Hnd|by apply sample_ordinary|done|apply MdbxSpec.repr_empty|exact H].
Defined.
End SeqSpec.
