(* ===== verification/FdbLive.v ===== *)
(** * The FoundationDB executor can always finish a generated workload

    The retry loops of [execute_thread] wait for a nonce that some other thread
    has to reach.  On a generated workload nobody waits for ever by necessity:
    among the unfinished transactions the first one of the workload is always
    applicable, so some continuation finishes, unless a commit was reported as
    unknown and had been applied: then its thread has overtaken itself. *)

From stdpp Require Import base option list gmap relations.
From Stdlib Require Import ZArith Lia.
From S2P Require Import Prelude Integers Externals Types Workload WorkloadSpec Executor.
From S2P Require Import Store StoreSpec StoreExecutor Fdb FdbSpec EndToEnd.

Module FdbLive.
Import Fdb FdbSpec StoreSpec StoreExec.
#[local] Arguments account_key : simpl never.
#[local] Arguments encode_account : simpl never.
#[local] Arguments decode_account : simpl never.

(** ** Splitting the slices *)

Section Split.
Context {T : Type}.
Implicit Types (L : list (list T * list T)).

Definition whole L : list T := List.concat ((λ p, p.1 ++ p.2) <$> L).

(** The first element of a second component, and what comes before it. *)
Lemma first_unfinished L :
  Forall (λ p, p.2 = []) L ∨
  ∃ t d x rest pre post rem, L !! t = Some (d, x :: rest) ∧
    whole L = pre ++ x :: post ∧ List.concat L.*1 ≡ₚ pre ++ rem.
Proof.
  induction L as [|[d [|x rest]] L IH]; [by left| |].
  - destruct IH as [IH|(t & d' & x & rest & pre & post & rem & Ht & Hw & Hp)].
    + left. by constructor.
    + right. exists (S t), d', x, rest, (d ++ pre), post, rem. split; [done|].
      unfold whole in *. cbn. rewrite Hw, app_nil_r, Hp, <- !app_assoc. done.
  - right. exists 0, d, x, rest, d. eexists _, _. split; [done|]. unfold whole. cbn.
    by rewrite <- app_assoc.
Qed.

Lemma whole_perm L : whole L ≡ₚ List.concat L.*1 ++ List.concat L.*2.
Proof.
  unfold whole. induction L as [|[d r] L IH]; [done|]. cbn. rewrite IH. solve_Permutation.
Qed.
End Split.

Section Live.
Context {A : Alloy} {AL : AlloyLaws A} {K : Keys A} {L : FdbLib} {LL : FdbLaws L}.
Context (hash_inj : Inj (=) (=) (λ a : Address, keccak256 (address_as_slice a))).
Implicit Types (txs log : list Wl.SignedTransaction) (l : gmap Address AccountState) (a : Address)
  (st : State).

(** The database may commit an attempt whose reads succeed. *)
Class CanCommit : Prop := {
  can_commit : ∀ d, ∃ tr, trx_contents tr = db_contents d ∧ (∀ k, ∃ o, trx_get tr k = inr o) ∧
    ∀ T (body : Trx → outcome ((FdbError + T) * Trx)) x tr',
      body tr = Return (inr x, tr') → ∃ d', attempt body d (Committed x) d';
}.

(** ** Nonces *)

Lemma sent_from_app a txs txs' : Wl.sent_from a (txs ++ txs') = Wl.sent_from a txs + Wl.sent_from a txs'.
Proof. unfold Wl.sent_from. by rewrite filter_app, length_app. Qed.

(** The [c]-th transaction of a sender. *)
Lemma nth_sent a txs c :
  c < Wl.sent_from a txs →
  ∃ i tx, txs !! i = Some tx ∧ Wl.from tx = a ∧ Wl.sent_from a (take i txs) = c.
Proof.
  revert c. induction txs as [|tx txs IH]; intros c; [cbn; unfold Wl.sent_from; cbn; lia|].
  rewrite Wl.sent_from_cons. intros Hc.
  assert (∀ c', c' < Wl.sent_from a txs → (if decide (Wl.from tx = a) then 1 else 0) + c' = c →
    ∃ i tx', (tx :: txs) !! i = Some tx' ∧ Wl.from tx' = a ∧ Wl.sent_from a (take i (tx :: txs)) = c)
    as Hnext.
  { intros c' Hc' <-. destruct (IH c' Hc') as (i & tx' & Hi & Hf & Hs).
    exists (S i), tx'. split_and!; [done..|]. cbn [take]. by rewrite Wl.sent_from_cons, Hs. }
  case_decide as Hf; [|by apply (Hnext c)].
  destruct c as [|c]; [by exists 0, tx|]. apply (Hnext c); [lia|done].
Qed.

(** In a generated workload a sender uses each nonce once. *)
Lemma sequenced_keys addrs txs tx tx' pre post :
  WlSpec.sequenced addrs txs → NoDup addrs →
  txs = pre ++ tx :: post → tx' ∈ pre ++ post →
  Wl.from tx' = Wl.from tx → Wl.tx_nonce tx' ≠ Wl.tx_nonce tx.
Proof.
  intros [_ Hs] Hnd -> Hin Hf.
  destruct (Hs Hnd (length pre) tx) as (_ & _ & _ & _ & ->); [by apply list_lookup_middle|].
  rewrite take_app_length. apply elem_of_app in Hin as [(i & Hi)%list_elem_of_lookup|(i & Hi)%list_elem_of_lookup].
  - destruct (Hs Hnd i tx') as (_ & _ & _ & _ & ->); [by apply lookup_app_l_Some|].
    rewrite Hf. pose proof (lookup_lt_Some _ _ _ Hi).
    rewrite take_app_le by lia. rewrite <- (take_drop i pre) at 2. rewrite sent_from_app.
    rewrite (drop_S _ _ _ Hi), Wl.sent_from_cons, decide_True by done. lia.
  - destruct (Hs Hnd (length pre + S i) tx') as (_ & _ & _ & _ & ->).
    { rewrite lookup_app_r by lia. by replace (length pre + S i - length pre) with (S i) by lia. }
    rewrite Hf, take_app_ge by lia. replace (length pre + S i - length pre) with (S i) by lia.
    cbn [take]. rewrite sent_from_app, Wl.sent_from_cons, decide_True by done. lia.
Qed.

(** An applied list uses a sender's nonces in order. *)
Lemma applied_nonces v l addrs log l' i tx :
  Forall (λ tx, Wl.value tx = u256_from 1 ∧ Wl.from tx ≠ Wl.to tx ∧ Wl.from tx ∈ addrs) log →
  (Z.of_nat (length log) < u64_modulus)%Z →
  applies v (Store.fund l addrs) log l' → log !! i = Some tx →
  Wl.tx_nonce tx = Z.of_nat (Wl.sent_from (Wl.from tx) (take i log)).
Proof.
  intros Hall Hlen Ha Hi. rewrite <- (take_drop i log), (drop_S _ _ _ Hi) in Ha.
  apply applies_app in Ha as (l1 & H1 & (s & _ & (Hf & Hn & _)%payer_Some & _)%applies_cons).
  assert (∀ P : Wl.SignedTransaction → Prop, Forall P log → Forall P (take i log)) as Htake
    by by intros; apply Forall_take.
  pose proof (proj1 (Forall_lookup _ _) Hall i tx Hi) as (_ & _ & Hin).
  apply Htake in Hall.
  destruct (settled_final l addrs (take i log) l1 (Wl.from tx)) as (s' & Hs' & Hn' & _).
  - eapply Forall_impl; [exact Hall|]. by intros ? (? & _).
  - rewrite length_take. lia.
  - eapply applies_settled; [|exact H1]. eapply Forall_impl; [exact Hall|]. by intros ? (_ & ? & _).
  - done.
  - congruence.
Qed.

(** The first unfinished transaction of the workload is applicable: its
    sender's earlier transactions are done, and no later one can be. *)
Lemma first_unfinished_applies v l l' addrs txs pre tx post rem rest log :
  WlSpec.sequenced addrs txs → NoDup addrs → (Z.of_nat (length txs) < u64_modulus)%Z →
  txs = pre ++ tx :: post → log ≡ₚ pre ++ rem → txs ≡ₚ log ++ tx :: rest →
  applies v (Store.fund l addrs) log l' → ∃ s, Store.payer l' tx = Some s.
Proof.
  intros Hsq Hnd Hlen Hsplit Hlog Htxs Ha. set (a := Wl.from tx).
  destruct (WlSpec.sq_transfer _ _ Hsq Hnd (length pre) tx) as (_ & Hin & _ & Hv & Hn);
    [by rewrite Hsplit; apply list_lookup_middle|].
  rewrite Hsplit, take_app_length in Hn.
  destruct (sequenced_one_wei _ _ Hsq Hnd) as (Hone & Hne & Haddr).
  assert (∀ P : Wl.SignedTransaction → Prop, Forall P txs → Forall P log) as Hsub.
  { intros P HP. rewrite Htxs in HP. by apply Forall_app in HP as [? _]. }
  assert (length log < length txs) as Hlt by (rewrite Htxs, length_app; cbn; lia).
  assert (Wl.sent_from a log = Wl.sent_from a pre) as Hcount.
  { assert (Wl.sent_from a pre ≤ Wl.sent_from a log) as Hle.
    { unfold Wl.sent_from. rewrite Hlog, filter_app, length_app. lia. }
    destruct (decide (Wl.sent_from a pre < Wl.sent_from a log)) as [Hgt|]; [|lia]. exfalso.
    destruct (nth_sent a log _ Hgt) as (i & tx' & Hi & Hf & Hs).
    apply (sequenced_keys addrs txs tx tx' pre post Hsq Hnd Hsplit); [|done|].
    - assert (pre ++ post ≡ₚ log ++ rest) as ->.
      { apply (Permutation_cons_inv (a := tx)). rewrite !Permutation_middle. by rewrite <- Hsplit. }
      apply elem_of_app. left. by eapply list_elem_of_lookup_2.
    - rewrite Hn. rewrite (applied_nonces v l addrs log l' i tx'); [by rewrite Hf, Hs| |lia|done..].
      rewrite !Forall_and. split_and!; [by apply Hsub..|]. apply Hsub.
      eapply Forall_impl; [exact Haddr|]. by intros ? []. }
  destruct (settled_final l addrs log l' a) as (s & Hs & Hsn & Hsb).
  - by apply Hsub.
  - lia.
  - eapply applies_settled; [by apply Hsub|exact Ha].
  - done.
  - exists s. apply payer_Some. split_and!; [done|by rewrite Hsn, Hn, Hcount|].
    apply u256_lt_false_iff. rewrite Hv, Hsb, u256_from_val by done.
    pose proof (sent_from_length a log). unfold u64_modulus in *. lia.
Qed.

(** ** Progress *)

Definition work st : nat := sum_list ((λ th, length (todo th)) <$> threads st).

(** The finished and unfinished part of each slice. *)
Lemma serial_split v slices l0 st done log l :
  serial v slices l0 st done log l →
  let pairs := zip done (todo <$> threads st) in
  slices = (λ p, p.1 ++ p.2) <$> pairs ∧ done = pairs.*1 ∧
  ∀ t d todo, pairs !! t = Some (d, todo) →
    ∃ s f, threads st !! t = Some (mkThread todo s f false).
Proof.
  intros [[H1 H2] Hth _ _ _] pairs.
  assert (∀ t, pairs !! t = (d ← done !! t; th ← threads st !! t; Some (d, todo th))) as HL.
  { intros t. unfold pairs. rewrite lookup_zip_with, list_lookup_fmap.
    destruct (done !! t); cbn; [|done]. by destruct (threads st !! t). }
  split_and!.
  - apply list_eq. intros t. rewrite list_lookup_fmap, HL.
    destruct (done !! t) as [d|] eqn:Ed; cbn; [|apply lookup_ge_None in Ed; apply lookup_ge_None; lia].
    destruct (threads st !! t) as [th|] eqn:Et; cbn;
      [by destruct (Hth t th d Et Ed)|apply lookup_ge_None in Et; apply lookup_ge_None; lia].
  - unfold pairs. symmetry. apply fst_zip. rewrite length_fmap. lia.
  - intros t d todo. rewrite HL. destruct (done !! t) as [d'|] eqn:Ed; cbn; [|done].
    destruct (threads st !! t) as [th|] eqn:Et; cbn; [|done]. intros [= <- <-].
    destruct (Hth t th d' Et Ed) as (_ & _ & _ & Hp). exists (successful th), (failed th).
    destruct th. cbn in *. by subst.
Qed.

(** Only a failed read makes the closure return an error. *)
Lemma transfer_body_no_error tx tr e tr' :
  (∀ k, ∃ o, trx_get tr k = inr o) → transfer_body tx tr ≠ Return (inl e, tr').
Proof.
  intros Hget. unfold transfer_body. destruct (Hget (account_key (Wl.from tx))) as [[data|] ->]; [|done].
  destruct (decode_account data) as [[n b]| |]; cbn; [|done..].
  destruct (negb _); [done|]. destruct (u256_lt _ _); [done|].
  destruct (Hget (account_key (Wl.to tx))) as [[data'|] ->]; cbn; [|done].
  by destruct (decode_account data') as [[n' b']| |].
Qed.

(** A transaction the store can apply can be committed. *)
Lemma commit_step {CC : CanCommit} self st l t tx txs s f p :
  repr (db st) l → threads st !! t = Some (mkThread (tx :: txs) s f false) →
  signature_invalid (verify_signatures self) tx = false → Store.payer l tx = Some p →
  ∃ d', step self st (mkState d' (<[t := mkThread txs (s + 1) f false]> (threads st))).
Proof.
  intros [Hc Hok] Ht Hsig Hp. destruct (can_commit (db st)) as (tr & Htr & Hget & Hcommit).
  assert (represents (trx_contents tr) l) as Hrep by by rewrite Htr.
  pose proof (transfer_body_spec hash_inj tr l tx Hrep Hok) as Hb.
  destruct (transfer_body tx tr) as [[[e|ok] tr']| |] eqn:E; [|..|done|done].
  - by apply transfer_body_no_error in E.
  - assert (ok = true) as -> by (destruct Hb as [<- _]; unfold Store.transfer; by rewrite Hp).
    destruct (Hcommit bool (transfer_body tx) true tr' E) as [d' Hd']. exists d'.
    eapply (step_thread _ _ _ t _ (mkThread txs (s + 1) f false) d'); [done| |done].
    by apply (step_attempt self tx txs s f (db st) (Committed true) d').
Qed.

Lemma accepted_verified v txs :
  Forall (λ tx, Wl.verify tx = true) txs → accepted v txs = txs.
Proof.
  induction 1 as [|tx txs Hv _ IH]; [done|]. unfold accepted in *. rewrite filter_cons, IH.
  by rewrite EndToEnd.signature_invalid_rejected, (signature_accepted v tx Hv).
Qed.

Lemma work_insert st t th th' d' :
  threads st !! t = Some th → length (todo th') < length (todo th) →
  work (mkState d' (<[t := th']> (threads st))) < work st.
Proof.
  intros Ht Hlt. unfold work. cbn [threads]. rewrite list_fmap_insert.
  pose proof (sum_list_insert ((λ th, length (todo th)) <$> threads st) t (length (todo th')) (length (todo th))).
  rewrite list_lookup_fmap, Ht in H. cbn in *. specialize (H eq_refl). lia.
Qed.

Lemma serial_progress {CC : CanCommit} self w l0 st done log l :
  generated w → List.concat (thread_slices self (Wl.transactions w)) = Wl.transactions w →
  serial (verify_signatures self) (thread_slices self (Wl.transactions w))
    (Store.fund l0 (Wl.addresses w)) st done log l →
  finished st ∨ ∃ st', step self st st' ∧ work st' < work st.
Proof.
  intros [Hlen Hnd Hsq _] Hcat Hse. pose proof (serial_split _ _ _ _ _ _ _ Hse) as (Hsl & Hdone & Hth).
  set (pairs := zip done (todo <$> threads st)) in *.
  assert (whole pairs = Wl.transactions w) as Hwhole by (unfold whole; by rewrite <- Hsl).
  pose proof (whole_perm pairs) as Hperm. rewrite Hwhole, <- Hdone in Hperm.
  assert (log ≡ₚ List.concat done) as Hlog.
  { pose proof (EndToEnd.interleaves_perm _ _ (se_log _ _ _ _ _ _ _ Hse)) as H.
    rewrite EndToEnd.accepted_concat, accepted_verified in H; [done|].
    pose proof (WlSpec.sq_verified _ _ Hsq) as Hv. rewrite Hperm in Hv. by apply Forall_app in Hv as [? _]. }
  destruct (first_unfinished pairs) as [Hall|(t & d & tx & rest & pre & post & rem & Ht & Hw & Hp)].
  - left. apply Forall_lookup. intros t th Htt.
    destruct (lookup_lt_is_Some_2 done t) as [d Hd].
    { rewrite (proj1 (se_length _ _ _ _ _ _ _ Hse)). by eapply lookup_lt_Some. }
    destruct (se_threads _ _ _ _ _ _ _ Hse t th d Htt Hd) as (_ & _ & _ & Hpan). split; [|done].
    apply (proj1 (Forall_lookup _ _) Hall t (d, todo th)). unfold pairs.
    by rewrite lookup_zip_with, Hd, list_lookup_fmap, Htt.
  - right. destruct (Hth t d _ Ht) as (s & f & Htt). rewrite <- Hdone, <- Hlog in Hp.
    rewrite Hwhole in Hw.
    assert (∃ rest', Wl.transactions w ≡ₚ log ++ tx :: rest') as [rest' Hrest].
    { assert (tx ∈ List.concat pairs.*2) as Htx.
      { apply list_elem_of_In, in_concat. exists (tx :: rest). split; [|by left].
        apply list_elem_of_In, list_elem_of_fmap. exists (d, tx :: rest). split; [done|].
        by eapply list_elem_of_lookup_2. }
      apply elem_of_Permutation in Htx as [rest' Hr]. exists rest'. by rewrite Hperm, Hlog, Hr. }
    destruct (first_unfinished_applies false l0 l _ _ pre tx post rem rest' log Hsq Hnd Hlen Hw Hp Hrest
      (se_run _ _ _ _ _ _ _ Hse)) as [p Hpay].
    assert (signature_invalid (verify_signatures self) tx = false) as Hsig.
    { rewrite EndToEnd.signature_invalid_rejected. apply signature_accepted.
      pose proof (WlSpec.sq_verified _ _ Hsq) as Hv. rewrite Hw in Hv.
      by apply Forall_app in Hv as [_ [Hv _]%Forall_cons]. }
    destruct (commit_step self st l t tx rest s f p (se_repr _ _ _ _ _ _ _ Hse) Htt Hsig Hpay) as [d' Hstep].
    eexists. split; [exact Hstep|]. apply (work_insert _ _ _ _ _ Htt); cbn; lia.
Qed.

Lemma progress_reported st st' : work st' < work st → reported st st'.
Proof. unfold work. intros Hlt E. rewrite E in Hlt. lia. Qed.

Lemma serial_can_finish {CC : CanCommit} self w l0 st done log l :
  generated w → List.concat (thread_slices self (Wl.transactions w)) = Wl.transactions w →
  proper_todo st →
  serial (verify_signatures self) (thread_slices self (Wl.transactions w))
    (Store.fund l0 (Wl.addresses w)) st done log l →
  ∃ st', rtc (step self) st st' ∧ finished st'.
Proof.
  intros Hw Hcat. remember (work st) as n eqn:Hn. revert st done log l Hn.
  induction (lt_wf n) as [n _ IH]. intros st done log l -> Hp Hse.
  destruct (serial_progress self w l0 st done log l Hw Hcat Hse) as [Hfin|(st1 & Hs & Hlt)].
  - by exists st.
  - pose proof (progress_reported st st1 Hlt) as Hrep.
    destruct (serial_step hash_inj _ _ _ _ _ _ _ _ Hp Hse Hs) as [(done1 & log1 & l1 & Hse1)|[[] _]]; [|done].
    destruct (IH _ Hlt st1 done1 log1 l1 eq_refl (proper_todo_step _ _ _ Hp Hs) Hse1) as (st' & Hr & Hf).
    exists st'. split; [by eapply rtc_l|done].
Qed.

(** C13: the threads wait in vain only for a lost commit.  On a generated workload,
    with an injective address hash and a database that may commit an attempt
    whose reads succeed: from every
    state that is reached without a transfer applied by a commit reported as
    unknown, some continuation finishes every thread, whatever the interleaving,
    conflicts and errors were; and of all reachable states, those that have no
    such continuation have a thread whose transaction's nonce has been passed. *)
Theorem fdb_generated_can_finish {CC : CanCommit} self w l0 d st :
  generated w → 0 < num_threads self →
  repr d (Store.fund l0 (Wl.addresses w)) →
  (rtc (λ st st', step self st st' ∧ reported st st') (start self d w) st →
   ∃ st', rtc (step self) st st' ∧ finished st') ∧
  (rtc (step self) (start self d w) st →
   (∃ st', rtc (step self) st st' ∧ finished st') ∨
   ((∃ t tx, outdated self st t tx) ∧ ∀ st', rtc (step self) st st' → ¬ finished st')).
Proof.
  intros Hw Hk Hr. pose proof (generated_proper w Hw) as Hall.
  pose proof (start_proper self d w Hk Hall) as Hp.
  pose proof (serial_start self d w _ Hr) as H0.
  assert (∀ st' done log l, proper_todo st' → serial (verify_signatures self)
    (thread_slices self (Wl.transactions w)) (Store.fund l0 (Wl.addresses w)) st' done log l →
    ∃ st'', rtc (step self) st' st'' ∧ finished st'') as Hfin.
  { intros st' done log l Hp' Hse.
    eapply serial_can_finish; [done|by apply concat_thread_slices|done|exact Hse]. }
  split; intros Hsteps.
  - assert (rtc (step self) (start self d w) st) as Hsteps'
      by (eapply (rtc_subrel _ _); [|exact Hsteps]; by intros ?? []).
    destruct (serial_steps_reported hash_inj _ _ _ _ _ _ _ _ Hp H0 Hsteps) as (done & log & l & Hse).
    eapply Hfin; [by eapply proper_todo_steps|exact Hse].
  - destruct (serial_steps hash_inj _ _ _ _ _ _ _ _ Hp H0 Hsteps) as [(done & log & l & Hse)|(t & tx & Ho)].
    + left. eapply Hfin; [by eapply proper_todo_steps|exact Hse].
    + right. split; [by exists t, tx|]. intros st'. by apply (outdated_forever hash_inj self st st' t tx).
Qed.
End Live.

(** ** Witness *)

#[local] Instance memory_can_commit unknown : CanCommit (L := fdb_memory unknown).
Proof. split. intros d. exists d. split; [done|]. split; [intros k; by eexists|]. intros T body x tr' H. by exists tr'. Qed.

(** One transfer, before the threads run, on a database that may leave commits
    unknown. *)
Lemma fdb_generated_can_finish_witness :
  (∃ st', rtc (step (L := fdb_memory true) executor)
    (start (L := fdb_memory true) executor d_2 workload_1_2) st' ∧ finished st').
Proof.
  apply (fdb_generated_can_finish (L := fdb_memory true) keccak_inj_uint executor
    workload_1_2 ∅ d_2 (start (L := fdb_memory true) executor d_2 workload_1_2)).
  - apply EndToEnd.workload_1_2_generated.
  - cbn. lia.
  - apply repr_2.
  - apply rtc_refl.
Defined.
End FdbLive.
