(* ===== verification/FdbSimple.v ===== *)
(** * examples/fdb_simple_test.rs: a check of a FoundationDB connection

    The example as a computation over the database that prints lines and may stop
    early: the end of every [Database::run] is one that its attempts allow.  A
    printed newline starts a new line; the text of an error and of a value that
    was read is kept as data. *)

From Stdlib Require Import String.
From stdpp Require Import base option list gmap.
From Stdlib Require Import ZArith Lia Strings.Byte.
From S2P Require Import Prelude Integers Fdb.

Module FdbSimple.
Import Fdb.

Inductive Line : Set :=
  | Text (text : string)
  | Failure (text : string)
  | ReadBack (key : string) (val : list byte)
  | Incremented (val : Z).

Section Program.
Context {L : FdbLib}.

(** ** Programs *)

(** How [Database::run] may end: with the value of a committed attempt, with an
    error ([None]), or with a panic of the closure. *)
Inductive run {T} (body : Trx → outcome ((FdbError + T) * Trx))
    : Database → outcome (option T) → Database → Prop :=
  | run_ok d x d' : attempt body d (Committed x) d' → run body d (Return (Some x)) d'
  | run_err d d' : attempt body d Errored d' → run body d (Return None) d'
  | run_panic d d' : attempt body d ClosurePanicked d' → run body d Panic d'
  | run_next d d1 res o d' :
      res = Retried ∨ res = CommitUnknown → attempt body d res d1 → run body d1 o d' → run body d o d'.

(** What a program may print, its result ([None] is [return]) and the database it
    leaves. *)
Definition M (T : Type) : Type := Database → list Line → outcome (option T) → Database → Prop.

#[global] Instance M_ret : MRet M := λ T x d out r d', out = [] ∧ r = Return (Some x) ∧ d' = d.

#[global] Instance M_bind : MBind M := λ T U f m d out r d',
  (∃ out1 x d1 out2, m d out1 (Return (Some x)) d1 ∧ f x d1 out2 r d' ∧ out = out1 ++ out2) ∨
  (m d out (Return None) d' ∧ r = Return None) ∨
  (m d out Panic d' ∧ r = Panic).

Definition print (lines : list Line) : M unit :=
  λ d out r d', out = lines ∧ r = Return (Some tt) ∧ d' = d.

(** [match db.run(body).await], where the error arm prints and returns. *)
Definition run_or {T} (failure : string) (body : Trx → outcome ((FdbError + T) * Trx)) : M T :=
  λ d out r d', run body d r d' ∧ out = match r with Return None => [Failure failure] | _ => [] end.

(** ** The example *)

Definition bytes (s : string) : list byte := list_byte_of_string s.

Definition clear_body (trx : Trx) : outcome ((FdbError + unit) * Trx) :=
  Return (inr tt, trx_clear_range (bytes "test/") (bytes "test/" ++ [xff]) trx).

Definition write_body (trx : Trx) : outcome ((FdbError + unit) * Trx) :=
  let trx := trx_set (bytes "test/key1") (bytes "value1") trx in
  let trx := trx_set (bytes "test/key2") (bytes "value2") trx in
  let trx := trx_set (bytes "test/key3") (bytes "value3") trx in
  Return (inr tt, trx).

Abbreviation Val := (option (list byte)).

Definition read_body (trx : Trx) : outcome ((FdbError + (Val * Val * Val)) * Trx) :=
  match trx_get trx (bytes "test/key1") with
  | inl e => Return (inl e, trx)
  | inr v1 =>
      match trx_get trx (bytes "test/key2") with
      | inl e => Return (inl e, trx)
      | inr v2 =>
          match trx_get trx (bytes "test/key3") with
          | inl e => Return (inl e, trx)
          | inr v3 => Return (inr (v1, v2, v3), trx)
          end
      end
  end.

(** [val[..8]] panics on a shorter value; the sum wraps in a release build. *)
Definition counter_body (trx : Trx) : outcome ((FdbError + Z) * Trx) :=
  match trx_get trx (bytes "test/counter") with
  | inl e => Return (inl e, trx)
  | inr current =>
      counter_val ←
        match current with
        | Some val => if length val <? 8 then Panic else Return (u64_from_be_bytes (take 8 val))
        | None => Return 0%Z
        end;
      let new_val := u64_add counter_val 1 in
      Return (inr new_val, trx_set (bytes "test/counter") (u64_to_be_bytes new_val) trx)
  end.

Definition read_back (key : string) (v : Val) : list Line :=
  match v with Some val => [ReadBack key val] | None => [] end.

(** What [main] prints about the three values. *)
Definition read_lines (vs : Val * Val * Val) : list Line :=
  let '(v1, v2, v3) := vs in
  Text "   ✓ Read back values:" ::
    read_back "test/key1" v1 ++ read_back "test/key2" v2 ++ read_back "test/key3" v3.

(** The steps on a connected database. *)
Definition checks : M unit :=
  print [Text ""; Text "3. Clearing database..."];;
  run_or "   ✗ Failed to clear: " clear_body;;
  print [Text "   ✓ Database cleared"; Text ""; Text "4. Writing test data..."];;
  run_or "   ✗ Failed to write: " write_body;;
  print [Text "   ✓ Wrote 3 key-value pairs"; Text ""; Text "5. Reading test data..."];;
  vs ← run_or "   ✗ Failed to read: " read_body;
  print (read_lines vs ++ [Text ""; Text "6. Testing atomic transaction (counter increment)..."]);;
  val ← run_or "   ✗ Failed atomic transaction: " counter_body;
  print [Incremented val; Text ""; Text "=== All tests passed! ==="; Text ""].

(** [Database::default()] gives a database or an error. *)
Definition main (default : option Database) (out : list Line) (r : outcome (option unit))
    (after : option Database) : Prop :=
  let starting := [Text "=== FoundationDB Simple Test ==="; Text "";
    Text "1. Initializing FoundationDB API..."; Text "   ✓ FDB API initialized";
    Text ""; Text "2. Connecting to database..."] in
  match default with
  | None => out = starting ++ [Failure "   ✗ Failed to connect: "] ∧ r = Return None ∧ after = None
  | Some d => ∃ out' d', (print [Text "   ✓ Connected to database"];; checks) d out' r d' ∧
      out = starting ++ out' ∧ after = Some d'
  end.
End Program.

(** ** What it prints *)

(** The contents of a database. *)
Abbreviation Contents := (gmap (list byte) (list byte)).

Section Spec.
Context {L : FdbLib} {LL : FdbLaws L}.

Implicit Types (m : Contents) (P : Contents → Prop) (lines : list Line).

(** A program that starts in [P] does not panic; [Q] holds of what it has
    printed, its value and the contents, unless it stops early after printing a
    failure. *)
Definition hoare {T : Type} (P : Contents → Prop) (p : M T)
    (Q : list Line → T → Contents → Prop) : Prop :=
  ∀ d out r d', P (db_contents d) → p d out r d' →
    match r with
    | Return (Some x) => Q out x (db_contents d')
    | Return None => ∃ out' text, out = out' ++ [Failure text]
    | _ => False
    end.

Lemma hoare_print P lines (Q : list Line → unit → Contents → Prop) :
  (∀ m, P m → Q lines tt m) → hoare P (print lines) Q.
Proof. intros HQ d out r d' HP (-> & -> & ->). by apply HQ. Qed.

Lemma hoare_bind {T U : Type} P (p : M T) (f : T → M U) (R : list Line → T → Contents → Prop)
    (Q : list Line → U → Contents → Prop) :
  hoare P p R →
  (∀ out x, hoare (R out x) (f x) (λ out' y m, Q (out ++ out') y m)) →
  hoare P (p ≫= f) Q.
Proof.
  intros Hp Hf d out r d' HP [(out1 & x & d1 & out2 & H1 & H2 & ->)|[[H1 ->]|[H1 ->]]].
  - assert (R out1 x (db_contents d1)) as HR by exact (Hp _ _ _ _ HP H1).
    pose proof (Hf out1 x d1 out2 r d' HR H2) as H. destruct r as [[y|]| |]; [done| |done..].
    destruct H as (out' & text & ->). exists (out1 ++ out'), text. by rewrite app_assoc.
  - exact (Hp _ _ _ _ HP H1).
  - exact (Hp _ _ _ _ HP H1).
Qed.

(** A transaction: an unknown commit must keep the precondition, since the
    closure runs again. *)
Lemma hoare_run {T : Type} P (failure : string) (body : Trx → outcome ((FdbError + T) * Trx)) (Q : list Line → T → Contents → Prop) :
  (∀ t, P (trx_contents t) → body t ≠ Panic) →
  (∀ t x t', P (trx_contents t) → body t = Return (inr x, t') → Q [] x (trx_contents t')) →
  (∀ d d', attempt body d CommitUnknown d' → P (db_contents d) → P (db_contents d')) →
  hoare P (run_or failure body) Q.
Proof.
  intros Hsafe Hpost Hunknown d out r d' HP [Hrun ->]. revert HP. induction Hrun as
    [d x d' H|d d' H|d d' H|d d1 res o d' Hres H _ IH]; intros HP; [|by exists [], failure|..].
  - apply committed_ok in H as (t & t' & Et & Hb & ->). rewrite <- Et in HP. by eapply Hpost.
  - apply panicked_ok in H as (t & Et & Hb). rewrite <- Et in HP. by eapply Hsafe.
  - apply IH. destruct Hres as [-> | ->]; [by rewrite (retried_ok _ _ _ _ H)|by eapply Hunknown].
Qed.

(** An unknown commit of a closure that keeps [P]. *)
Lemma unknown_keeps {T : Type} (P : Contents → Prop)
    (body : Trx → outcome ((FdbError + T) * Trx)) d d' :
  (∀ t x t', P (trx_contents t) → body t = Return (inr x, t') → P (trx_contents t')) →
  attempt body d CommitUnknown d' → P (db_contents d) → P (db_contents d').
Proof.
  intros HP H Hd. apply unknown_ok in H as [-> |(x & t & t' & Et & Hb & ->)]; [done|].
  rewrite <- Et in Hd. by eapply HP.
Qed.

Definition no_counter m : Prop := m !! bytes "test/counter" = None.

Definition written m : Prop :=
  m !! bytes "test/key1" = Some (bytes "value1") ∧ m !! bytes "test/key2" = Some (bytes "value2") ∧
  m !! bytes "test/key3" = Some (bytes "value3").

Definition counted (n : Z) m : Prop :=
  written m ∧ in_u64 n ∧ m !! bytes "test/counter" = Some (u64_to_be_bytes n).

(** An attempt at the counter was applied by a commit reported as unknown. *)
Definition unreported : Prop :=
  ∃ d d' n, attempt counter_body d CommitUnknown d' ∧ counted n (db_contents d').

(** Before an attempt at the counter. *)
Definition counting m : Prop :=
  (written m ∧ no_counter m) ∨ (unreported ∧ ∃ n, counted n m).

Lemma clear_hoare (failure : string) : hoare (λ _, True) (run_or failure clear_body) (λ out _ m, out = [] ∧ no_counter m).
Proof.
  apply hoare_run; [done| |done]. intros t x t' _ [= _ <-]. split; [done|].
  unfold no_counter. by rewrite trx_clear_ok.
Qed.

Lemma write_contents t :
  trx_contents (trx_set (bytes "test/key3") (bytes "value3")
    (trx_set (bytes "test/key2") (bytes "value2") (trx_set (bytes "test/key1") (bytes "value1") t))) =
  <[bytes "test/key3" := bytes "value3"]> (<[bytes "test/key2" := bytes "value2"]>
    (<[bytes "test/key1" := bytes "value1"]> (trx_contents t))).
Proof. by rewrite !trx_set_ok. Qed.

Lemma write_hoare (failure : string) :
  hoare no_counter (run_or failure write_body) (λ out _ m, out = [] ∧ written m ∧ no_counter m).
Proof.
  assert (∀ t x t', no_counter (trx_contents t) → write_body t = Return (inr x, t') →
    written (trx_contents t') ∧ no_counter (trx_contents t')) as H.
  { intros t x t' Hn [= _ <-]. rewrite write_contents. unfold written, no_counter in *.
    by rewrite !lookup_insert. }
  apply hoare_run; [done|by intros; split; [|eapply H]|].
  intros d d'. apply unknown_keeps. intros t x t' Hn Hb. by eapply H.
Qed.

Lemma read_hoare (failure : string) :
  hoare (λ m, written m ∧ no_counter m) (run_or failure read_body) (λ out vs m,
    out = [] ∧ vs = (Some (bytes "value1"), Some (bytes "value2"), Some (bytes "value3")) ∧
    written m ∧ no_counter m).
Proof.
  assert (∀ t x t', read_body t = Return (inr x, t') → t' = t ∧
    x = (trx_contents t !! bytes "test/key1", trx_contents t !! bytes "test/key2",
         trx_contents t !! bytes "test/key3")) as H.
  { intros t x t'. unfold read_body.
    destruct (trx_get t (bytes "test/key1")) as [|v1] eqn:E1; [done|].
    destruct (trx_get t (bytes "test/key2")) as [|v2] eqn:E2; [done|].
    destruct (trx_get t (bytes "test/key3")) as [|v3] eqn:E3; [done|]. intros [= <- <-].
    by rewrite (trx_get_ok _ _ _ E1), (trx_get_ok _ _ _ E2), (trx_get_ok _ _ _ E3). }
  apply hoare_run.
  - intros t _. unfold read_body. by repeat case_match.
  - intros t x t' [(E1 & E2 & E3) Hn] [-> ->]%H. by rewrite E1, E2, E3.
  - intros d d'. apply (unknown_keeps (λ m, written m ∧ no_counter m)). by intros t x t' HP [-> _]%H.
Qed.

(** One increment, from a counter that is absent or a [u64]. *)
Lemma counter_body_spec t :
  counting (trx_contents t) →
  counter_body t ≠ Panic ∧
  ∀ x t', counter_body t = Return (inr x, t') →
    counted x (trx_contents t') ∧ (x = 1%Z ∨ unreported).
Proof.
  intros Hc. unfold counter_body.
  destruct (trx_get t (bytes "test/counter")) as [e|v] eqn:E; [done|]. apply trx_get_ok in E.
  assert (∀ c, written (trx_contents t) → let n := u64_add c 1 in
    counted n (trx_contents (trx_set (bytes "test/counter") (u64_to_be_bytes n) t))) as Hset.
  { intros c Hw. unfold counted, written in *. rewrite trx_set_ok, !lookup_insert.
    split; [done|]. split; [apply u64_add_range|done]. }
  destruct Hc as [[Hw Hc]|[Hun (n & Hw & Hn & Hc)]].
  - unfold no_counter in Hc. rewrite Hc in E. subst v. cbn. split; [done|]. intros x t' [= <- <-].
    split; [by apply Hset|by left].
  - rewrite Hc in E. subst v. assert (length (u64_to_be_bytes n) = 8) as H8 by apply length_be_bytes.
    rewrite H8. cbn [Nat.ltb Nat.leb]. rewrite take_ge by lia. rewrite u64_be_roundtrip by done. cbn.
    split; [done|]. intros x t' [= <- <-]. split; [by apply Hset|by right].
Qed.

Lemma counter_hoare (failure : string) :
  hoare counting (run_or failure counter_body) (λ out n m,
    out = [] ∧ counted n m ∧ (n = 1%Z ∨ unreported)).
Proof.
  apply hoare_run.
  - intros t Ht. by apply counter_body_spec.
  - intros t x t' Ht Hb. split; [done|]. by apply (counter_body_spec t Ht).
  - intros d d' H HP. pose proof H as [-> |(x & t & t' & Et & Hb & Ed)]%unknown_ok; [done|].
    rewrite <- Et in HP. destruct (proj2 (counter_body_spec t HP) x t' Hb) as [Hx _].
    rewrite <- Ed in Hx. right. split; [by exists d, d', x|by exists x].
Qed.

(** The lines of a run in which nothing fails. *)
Definition transcript (n : Z) : list Line :=
  [Text "   ✓ Connected to database"; Text ""; Text "3. Clearing database...";
   Text "   ✓ Database cleared"; Text ""; Text "4. Writing test data...";
   Text "   ✓ Wrote 3 key-value pairs"; Text ""; Text "5. Reading test data...";
   Text "   ✓ Read back values:"; ReadBack "test/key1" (bytes "value1");
   ReadBack "test/key2" (bytes "value2"); ReadBack "test/key3" (bytes "value3");
   Text ""; Text "6. Testing atomic transaction (counter increment)...";
   Incremented n; Text ""; Text "=== All tests passed! ==="; Text ""].

Lemma hoare_print_bind {T : Type} P lines (p : M T) Q :
  hoare P p (λ out x m, Q (lines ++ out) x m) → hoare P (print lines;; p) Q.
Proof.
  intros Hp. apply (hoare_bind P _ _ (λ out _ m, out = lines ∧ P m)); [by apply hoare_print|].
  intros out _ d out' r d' [-> HP]. by apply Hp.
Qed.

Lemma hoare_run_bind {T U : Type} P (p : M T) (f : T → M U) (R : T → Contents → Prop) Q :
  hoare P p (λ out x m, out = [] ∧ R x m) → (∀ x, hoare (R x) (f x) Q) → hoare P (p ≫= f) Q.
Proof.
  intros Hp Hf. apply (hoare_bind P _ _ (λ out x m, out = [] ∧ R x m)); [done|].
  intros out x d out' r d' [-> HR]. by apply Hf.
Qed.

Lemma hoare_weaken {T : Type} P P' (p : M T) Q : (∀ m, P m → P' m) → hoare P' p Q → hoare P p Q.
Proof. intros HP Hp d out r d' H. by apply Hp, HP. Qed.

Lemma hoare_pure {T : Type} (A : Prop) P (p : M T) Q : (A → hoare P p Q) → hoare (λ m, A ∧ P m) p Q.
Proof. intros Hp d out r d' [HA HP]. by apply Hp. Qed.

Lemma checks_hoare :
  hoare (λ _, True) (print [Text "   ✓ Connected to database"];; checks) (λ out _ m,
    ∃ n, out = transcript n ∧ counted n m ∧ (n = 1%Z ∨ unreported)).
Proof.
  do 2 apply hoare_print_bind.
  eapply hoare_run_bind; [apply clear_hoare|]. intros [].
  apply hoare_print_bind. eapply hoare_run_bind; [apply write_hoare|]. intros [].
  apply hoare_print_bind. eapply hoare_run_bind; [apply read_hoare|]. intros vs.
  apply hoare_print_bind.
  apply (hoare_weaken _ (λ m, vs = (Some (bytes "value1"), Some (bytes "value2"), Some (bytes "value3")) ∧
    counting m)).
  { intros m (-> & Hw & Hn). split; [done|]. by left. }
  apply hoare_pure. intros ->.
  eapply hoare_run_bind; [apply counter_hoare|]. intros n. apply hoare_print.
  intros m [Hc Hk]. by exists n.
Qed.

(** The example never panics.  With a database it either stops after printing
    a failure or prints its whole transcript, with the values it wrote and a
    counter; the counter is 1, and the database ends with the three values and
    that counter, unless an increment was applied by a commit reported as
    unknown: then it was repeated. *)
Theorem simple_test_spec (default : option Database) out r after :
  main default out r after →
  match r with
  | Return (Some _) => ∃ out' d' n, out = out' ++ transcript n ∧ after = Some d' ∧
      counted n (db_contents d') ∧ (n = 1%Z ∨ unreported)
  | Return None => ∃ out' text, out = out' ++ [Failure text]
  | _ => False
  end.
Proof.
  unfold main. destruct default as [d|]; [|intros (-> & -> & _); by eexists _, _].
  intros (out' & d' & H & -> & ->). apply checks_hoare in H; [|done].
  destruct r as [[[]|]| |]; [|..].
  - destruct H as (n & -> & Hc & Hk). by eexists _, d', n.
  - destruct H as (pre & text & ->). eexists _, text. by rewrite app_assoc.
  - done.
  - done.
Qed.
End Spec.

(** ** A run in memory *)

Section Memory.
#[local] Instance memory : FdbLib := fdb_memory false.

Lemma bind_ok {T U : Type} (p : M T) (f : T → M U) (d : Contents) out x d1 out' r d' :
  p d out (Return (Some x)) d1 → f x d1 out' r d' → (p ≫= f) d (out ++ out') r d'.
Proof. intros Hp Hf. left. by eexists _, _, _, _. Qed.

Lemma print_ok lines d : print lines d lines (Return (Some tt)) d.
Proof. done. Qed.

Lemma run_once {T : Type} (failure : string) (body : Contents → outcome ((unit + T) * Contents)) d x d' :
  body d = Return (inr x, d') → run_or (L := memory) failure body d [] (Return (Some x)) d'.
Proof. intros H. split; [|done]. by apply run_ok. Qed.

(** On an empty database the whole transcript, with counter 1. *)
Lemma simple_test_passes : ∃ out d,
  main (L := memory) (Some (∅ : Contents)) (out ++ transcript 1) (Return (Some tt)) (Some d).
Proof.
  eexists _, _. unfold main. eexists _, _. split; [|split; [|reflexivity]].
  - change (transcript 1) with
      ([Text "   ✓ Connected to database"] ++ [Text ""; Text "3. Clearing database..."] ++ [] ++
       [Text "   ✓ Database cleared"; Text ""; Text "4. Writing test data..."] ++ [] ++
       [Text "   ✓ Wrote 3 key-value pairs"; Text ""; Text "5. Reading test data..."] ++ [] ++
       (read_lines (Some (bytes "value1"), Some (bytes "value2"), Some (bytes "value3")) ++
        [Text ""; Text "6. Testing atomic transaction (counter increment)..."]) ++ [] ++
       [Incremented 1; Text ""; Text "=== All tests passed! ==="; Text ""]).
    repeat (eapply bind_ok; [first [apply print_ok | by apply run_once]|]). apply print_ok.
  - reflexivity.
Qed.
End Memory.

(** ** A commit that is not reported

    The closure ignores that it may have been applied: an unknown commit is
    repeated, and the counter of a cleared database becomes 2. *)
Definition counter_is (n : Z) : Contents := {[ bytes "test/counter" := u64_to_be_bytes n ]}.

Lemma unknown_commit_counts_twice :
  run (L := fdb_memory true) (counter_body (L := fdb_memory true)) (∅ : Contents) (Return (Some 2%Z))
    (counter_is 2).
Proof.
  apply (run_next (L := fdb_memory true) _ _ (counter_is 1) CommitUnknown); [by right| |].
  - split; [done|]. right. exists 1%Z. reflexivity.
  - apply run_ok. change (counter_body (L := fdb_memory true) (counter_is 1) = Return (inr 2%Z, counter_is 2)).
    vm_compute. reflexivity.
Qed.
End FdbSimple.
