(* ===== verification/Analyze.v ===== *)
(** * examples/analyze_workload.rs: how often accounts send

    The analysis of a generated workload: the transactions of each sender and
    their distribution.  (Its configuration has a field the library does not
    have; the analysis is modelled for any workload.) *)

From Stdlib Require Import String.
From stdpp Require Import base option list sorting gmap strings pretty.
From Stdlib Require Import ZArith Lia.
From S2P Require Import Prelude Integers Externals Workload WorkloadSpec.

Module Analyze.

(** ** Counting with [entry(x).or_insert(0) += 1] *)

Section Tally.
Context {X : Type} `{!EqDecision X, !Countable X}.
Implicit Types (l : list X) (m : gmap X nat) (x : X).

Definition count_one m x : gmap X nat := <[x := default 0 (m !! x) + 1]> m.

Definition tally l : gmap X nat := foldl count_one ∅ l.

Definition occurrences x l : nat := length (filter (λ y, y = x) l).

Lemma occurrences_snoc x l y : occurrences x (l ++ [y]) = occurrences x l + (if decide (y = x) then 1 else 0).
Proof.
  unfold occurrences. rewrite filter_app, length_app, filter_cons, filter_nil. by case_decide.
Qed.

Lemma tally_lookup l x :
  tally l !! x = if decide (occurrences x l = 0) then None else Some (occurrences x l).
Proof.
  unfold tally. induction l as [|y l IH] using rev_ind; [done|].
  rewrite foldl_snoc, occurrences_snoc. unfold count_one at 1. rewrite lookup_insert. destruct (decide (y = x)) as [->|Hne].
  - rewrite IH. case_decide; cbn; rewrite decide_False by lia; f_equal; lia.
  - by rewrite IH, Nat.add_0_r.
Qed.

Lemma sum_list_app (l l' : list nat) : sum_list (l ++ l') = sum_list l + sum_list l'.
Proof. induction l as [|n l IH]; cbn; [done|]. rewrite IH. unfold id. lia. Qed.

(** A sum over the counted elements, and over the counts. *)
Lemma tally_sum (f : X → nat) l :
  sum_list ((λ p, f p.1 * p.2) <$> map_to_list (tally l)) = sum_list (f <$> l).
Proof.
  unfold tally. induction l as [|x l IH] using rev_ind; [done|].
  rewrite foldl_snoc, fmap_app, sum_list_app, <- IH. unfold count_one at 1. clear IH.
  set (m := foldl count_one ∅ l). cbn. unfold id. destruct (m !! x) as [k|] eqn:E; cbn.
  - rewrite <- (map_to_list_delete m x k) by done.
    rewrite <- insert_delete_eq, map_to_list_insert by apply lookup_delete_eq. cbn. unfold id. lia.
  - rewrite map_to_list_insert by done. cbn. unfold id. lia.
Qed.
End Tally.

(** ** The analysis *)

Section Analyze.
Context {A : Alloy} {K : Keys A} {R : Rand}.
(** The orders in which the two [HashMap]s are iterated. *)
Context (iter_senders : gmap Address nat → list (Address * nat)).
Context (iter_hist : gmap nat nat → list (nat * nat)).
Implicit Types (w : Wl.Workload).

Record Analysis : Set := mkAnalysis {
  senders : nat;
  multi_tx_accounts : nat;
  max_txs : nat;
  hist_vec : list (nat * nat);
}.

Definition sender_counts w : gmap Address nat :=
  foldl (λ counts block, foldl (λ counts tx, count_one counts (Wl.from tx)) counts block) ∅ (Wl.blocks w).

(** [values().max().unwrap()] *)
Definition max_value (counts : list nat) : outcome nat :=
  match counts with
  | [] => Panic
  | c :: counts => Return (foldl Nat.max c counts)
  end.

Definition analyze w : outcome Analysis :=
  let counts := iter_senders (sender_counts w) in
  let multi := filter (λ p, 1 < p.2) counts in
  max ← max_value counts.*2;
  let hist := tally counts.*2 in
  let hist_vec := merge_sort key_le (iter_hist hist) in
  Return (mkAnalysis (size (sender_counts w)) (length multi) max hist_vec).

Definition report (a : Analysis) : list string :=
  ["Total accounts that sent txs: " +:+ pretty (senders a);
   "Accounts that sent >1 tx: " +:+ pretty (multi_tx_accounts a);
   "Max txs from one account: " +:+ pretty (max_txs a);
   ""; "Transaction count distribution:"] ++
  ((λ p, "  " +:+ pretty p.1 +:+ " tx: " +:+ pretty p.2 +:+ " accounts") <$> hist_vec a).

(** ** What it computes *)

Lemma sender_counts_tally w : sender_counts w = tally (Wl.from <$> List.concat (Wl.blocks w)).
Proof.
  unfold sender_counts, tally. generalize (∅ : gmap Address nat) as m.
  induction (Wl.blocks w) as [|b bs IH]; intros m; [done|]. cbn [foldl List.concat].
  rewrite fmap_app, foldl_app, <- IH. f_equal. clear IH bs. revert m.
  induction b as [|tx b IH]; intros m; [done|]. cbn. apply IH.
Qed.

Lemma sorted_strict (l : list (nat * nat)) :
  StronglySorted key_le l → NoDup l.*1 → StronglySorted (λ p q, p.1 < q.1) l.
Proof.
  induction 1 as [|p l Hl IH Hp]; [constructor|]. intros [Hn Hnd]%NoDup_cons. constructor; [by apply IH|].
  rewrite Forall_forall in Hp |- *. intros q Hq. specialize (Hp q Hq). unfold key_le in Hp.
  assert (p.1 ≠ q.1); [|lia]. intros E. apply Hn. rewrite E. apply list_elem_of_fmap. by exists q.
Qed.

Context (iter_senders_perm : ∀ m, iter_senders m ≡ₚ map_to_list m).
Context (iter_hist_perm : ∀ m, iter_hist m ≡ₚ map_to_list m).

Lemma max_value_spec l m : max_value l = Return m → m ∈ l ∧ Forall (λ x, x ≤ m) l.
Proof.
  destruct l as [|c l]; [done|]. intros [= <-]. revert c. induction l as [|x l IH]; intros c; cbn.
  - split; [by left|]. by apply Forall_singleton.
  - destruct (IH (Nat.max c x)) as [Hin Hall].
    apply Forall_cons in Hall as [Hm Hall]. split.
    + apply elem_of_cons in Hin as [->|Hin]; [|right; by right].
      destruct (Nat.max_spec c x) as [[_ ->]|[_ ->]]; [right; by left|by left].
    + repeat apply Forall_cons; split; [lia|]. apply Forall_cons; split; [lia|done].
Qed.

(** The counts of the senders, in some order. *)
Lemma sender_counts_values w :
  sum_list (iter_senders (sender_counts w)).*2 = length (List.concat (Wl.blocks w)).
Proof.
  rewrite iter_senders_perm, sender_counts_tally.
  pose proof (tally_sum (λ _, 1) (Wl.from <$> List.concat (Wl.blocks w))) as H.
  assert (∀ l : list (Address * nat), (λ p, 1 * p.2) <$> l = l.*2) as E
    by (intros l; apply list_fmap_ext; intros; cbn; lia).
  rewrite E in H. rewrite H, <- list_fmap_compose.
  clear H E. induction (List.concat (Wl.blocks w)) as [|tx txs IH]; [done|]. exact (f_equal S IH).
Qed.

(** The analysis of a workload.  It panics exactly when there are no
    transactions.  Otherwise it reports the number of distinct senders and the
    largest number of transactions of one of them; the distribution is in
    strictly increasing order, has [k] accounts for [c] transactions exactly if
    [k > 0] senders have [c] transactions each, and adds up to all senders and
    to all transactions. *)
Theorem analyze_spec w :
  let txs := List.concat (Wl.blocks w) in
  let sent a := occurrences a (Wl.from <$> txs) in
  match analyze w with
  | Return r =>
      (∃ a, sent a = max_txs r) ∧ (∀ a, sent a ≤ max_txs r) ∧
      StronglySorted (λ p q, p.1 < q.1) (hist_vec r) ∧
      sum_list (hist_vec r).*2 = senders r ∧
      sum_list ((λ p, p.1 * p.2) <$> hist_vec r) = length txs ∧
      0 < length txs
  | Panic => txs = []
  | Timeout => False
  end.
Proof.
  intros txs sent. unfold analyze.
  pose proof (sender_counts_values w) as Hsum. fold txs in Hsum.
  assert (∀ a c, (a, c) ∈ iter_senders (sender_counts w) ↔ sent a = c ∧ c ≠ 0) as Hin.
  { intros a c. rewrite iter_senders_perm, elem_of_map_to_list, sender_counts_tally, tally_lookup.
    fold txs (sent a). case_decide; naive_solver. }
  set (counts := iter_senders (sender_counts w)) in *.
  destruct (max_value counts.*2) as [m| |] eqn:Em; cbn [mbind outcome_bind].
  2: { destruct counts.*2; [|done]. by apply length_zero_iff_nil. }
  2: by destruct counts.*2.
  apply max_value_spec in Em as [Hm Hall]. rewrite Forall_forall in Hall.
  apply list_elem_of_fmap in Hm as ([a c] & -> & Ha%Hin). cbn [fst snd max_txs hist_vec senders].
  assert (merge_sort key_le (iter_hist (tally counts.*2)) ≡ₚ map_to_list (tally counts.*2)) as Hp
    by (rewrite merge_sort_Permutation; apply iter_hist_perm).
  split_and!.
  - exists a. apply Ha.
  - intros b. destruct (decide (sent b = 0)) as [->|Hb]; [lia|].
    apply Hall, list_elem_of_fmap. exists (b, sent b). split; [done|]. by apply Hin.
  - apply sorted_strict; [apply StronglySorted_merge_sort; apply _|].
    rewrite Hp. apply NoDup_fst_map_to_list.
  - rewrite Hp. pose proof (tally_sum (λ _, 1) counts.*2) as H.
    assert (∀ l : list (nat * nat), (λ p, 1 * p.2) <$> l = l.*2) as E
      by (intros l; apply list_fmap_ext; intros; cbn; lia).
    rewrite E in H. rewrite H, sum_list_fmap_const, length_fmap. unfold counts.
    rewrite iter_senders_perm, Nat.mul_1_r. apply length_map_to_list.
  - rewrite Hp, <- Hsum. rewrite (tally_sum (λ c, c)). by rewrite list_fmap_id.
  - rewrite <- Hsum. destruct Ha as [Ha Hc].
    assert (c ≤ length txs) as Hle; [|rewrite Hsum; lia].
    rewrite <- Ha. unfold sent, occurrences. rewrite length_filter, length_fmap. done.
Qed.
End Analyze.
End Analyze.
