(* ===== verification/F64.v ===== *)
(** * Floating point, durations and their text

    What [main.rs] uses of Rust's standard library for its rates: [f64] as the
    binary64 numbers of the Standard Library's [SpecFloat] (NaN without payload),
    [Duration], and the formatting of a float with a fixed number of decimals and
    of left-aligned columns. *)

From Stdlib Require Import String.
From stdpp Require Import base option list strings pretty.
From Stdlib Require Import ZArith Lia SpecFloat.
From S2P Require Import Prelude Integers.

Module F64.
#[local] Open Scope Z_scope.

(** [f64] *)
Abbreviation f64 := spec_float.
Abbreviation NAN := S754_nan.

Definition INFINITY : f64 := S754_infinity false.
Definition NEG_INFINITY : f64 := S754_infinity true.

(** [n as f64], to the nearest, ties to even. *)
Definition of_int (n : Z) : f64 := binary_normalize 53 1024 n 0 false.

Definition add (x y : f64) : f64 := SFadd 53 1024 x y.
Definition mul (x y : f64) : f64 := SFmul 53 1024 x y.
Definition div (x y : f64) : f64 := SFdiv 53 1024 x y.

(** [f64::min] and [f64::max] ignore a NaN. *)
Definition min (x y : f64) : f64 :=
  match x, y with
  | S754_nan, _ => y
  | _, S754_nan => x
  | _, _ => if SFltb y x then y else x
  end.

Definition max (x y : f64) : f64 :=
  match x, y with
  | S754_nan, _ => y
  | _, S754_nan => x
  | _, _ => if SFltb x y then y else x
  end.

(** [iter.sum::<f64>()] *)
Definition sum (l : list f64) : f64 := foldl add (S754_zero true) l.

(** [std::time::Duration] *)
Record Duration : Set := mkDuration { secs : N; nanos : N }.

Definition as_secs_f64 (self : Duration) : f64 :=
  add (of_int (Z.of_N (secs self))) (div (of_int (Z.of_N (nanos self))) (of_int 1000000000)).

(** ** Text *)

Fixpoint repeat_string (s : string) (n : nat) : string :=
  match n with O => "" | S n => s +:+ repeat_string s n end.

(** [{:<width}] of a text of single-byte characters. *)
Definition pad_right (width : nat) (s : string) : string :=
  s +:+ repeat_string " " (width - String.length s).

(** The integer nearest to [m * 2 ^ e * 10 ^ digits], ties to even. *)
Definition scaled (digits : nat) (m : positive) (e : Z) : Z :=
  let n := Zpos m * 10 ^ Z.of_nat digits in
  if 0 <=? e then n * 2 ^ e
  else
    let d := 2 ^ (- e) in
    let q := n / d in
    match 2 * (n mod d) ?= d with
    | Lt => q
    | Eq => if Z.even q then q else q + 1
    | Gt => q + 1
    end.

(** [q / 10 ^ digits] with its point. *)
Definition decimal (digits : nat) (q : Z) : string :=
  pretty (q / 10 ^ Z.of_nat digits) +:+
  match digits with
  | O => ""
  | S _ =>
      let frac := pretty (q mod 10 ^ Z.of_nat digits) in
      "." +:+ repeat_string "0" (digits - String.length frac) +:+ frac
  end.

Definition sign_text (s : bool) : string := if s then "-" else "".

(** [{:.digits}] *)
Definition fixed (digits : nat) (x : f64) : string :=
  match x with
  | S754_nan => "NaN"
  | S754_infinity s => sign_text s +:+ "inf"
  | S754_zero s => sign_text s +:+ decimal digits 0
  | S754_finite s m e => sign_text s +:+ decimal digits (scaled digits m e)
  end.

(** [{:?}] of a [Vec<usize>] *)
Fixpoint separated (l : list nat) : string :=
  match l with
  | [] => ""
  | n :: l => match l with [] => pretty n | _ => pretty n +:+ ", " +:+ separated l end
  end.

Definition debug_vec (l : list nat) : string := "[" +:+ separated l +:+ "]".

(** ** The order of the numbers *)

Definition is_nan (x : f64) : bool := match x with S754_nan => true | _ => false end.

(** A number as a position in the order: its class, exponent and mantissa. *)
Definition key (x : f64) : Z * Z * Z :=
  match x with
  | S754_infinity true => (-2, 0, 0)
  | S754_finite true m e => (-1, - e, - Zpos m)
  | S754_finite false m e => (1, e, Zpos m)
  | S754_infinity false => (2, 0, 0)
  | _ => (0, 0, 0)
  end.

Definition key_lt (k k' : Z * Z * Z) : Prop :=
  k.1.1 < k'.1.1 ∨ (k.1.1 = k'.1.1 ∧ (k.1.2 < k'.1.2 ∨ (k.1.2 = k'.1.2 ∧ k.2 < k'.2))).

Lemma SFcompare_key x y :
  is_nan x = false → is_nan y = false →
  match SFcompare x y with
  | Some Lt => key_lt (key x) (key y)
  | Some Eq => key x = key y
  | Some Gt => key_lt (key y) (key x)
  | None => False
  end.
Proof.
  intros Hx Hy. unfold key_lt.
  destruct x as [s|s| |s m e]; [..|]; try done;
    destruct y as [s'|s'| |s' m' e']; try done; cbn; try (destruct s); try (destruct s'); cbn; try lia; try done.
  all: destruct (Z.compare_spec e e'); cbn; try lia; subst.
  all: change (Pos.compare_cont Eq m m') with (m ?= m')%positive;
    destruct (Pos.compare_spec m m'); cbn; subst; try lia; done.
Qed.

Lemma SFltb_key x y :
  is_nan x = false → is_nan y = false → SFltb x y = true ↔ key_lt (key x) (key y).
Proof.
  intros Hx Hy. unfold SFltb. pose proof (SFcompare_key x y Hx Hy) as H.
  destruct (SFcompare x y) as [[]|]; [..|done]; unfold key_lt in *; split; try done; intros;
    exfalso; rewrite ?H in *; lia.
Qed.

Lemma SFleb_key x y :
  is_nan x = false → is_nan y = false → SFleb x y = true ↔ ¬ key_lt (key y) (key x).
Proof.
  intros Hx Hy. unfold SFleb. pose proof (SFcompare_key x y Hx Hy) as H.
  destruct (SFcompare x y) as [[]|]; [..|done]; unfold key_lt in *; split; try done; intros;
    rewrite ?H in *; try lia; exfalso; lia.
Qed.

Lemma leb_refl x : is_nan x = false → SFleb x x = true.
Proof. intros Hx. apply SFleb_key; [done..|]. unfold key_lt. lia. Qed.

Lemma leb_trans x y z :
  is_nan x = false → is_nan y = false → is_nan z = false →
  SFleb x y = true → SFleb y z = true → SFleb x z = true.
Proof.
  intros Hx Hy Hz. rewrite !SFleb_key by done. unfold key_lt.
  destruct (key x) as [[? ?] ?], (key y) as [[? ?] ?], (key z) as [[? ?] ?]. cbn. lia.
Qed.

Lemma ltb_false x y :
  is_nan x = false → is_nan y = false → SFltb x y = false → SFleb y x = true.
Proof.
  intros Hx Hy H. apply SFleb_key; [done..|]. intros Hk. apply SFltb_key in Hk; [|done..]. congruence.
Qed.

Lemma ltb_leb x y : is_nan x = false → is_nan y = false → SFltb x y = true → SFleb x y = true.
Proof.
  intros Hx Hy H%SFltb_key; [|done..]. apply SFleb_key; [done..|]. unfold key_lt in *. lia.
Qed.

Lemma leb_INFINITY x : is_nan x = false → SFleb x INFINITY = true.
Proof. by destruct x as [|[]| |[]]. Qed.

Lemma NEG_INFINITY_leb x : is_nan x = false → SFleb NEG_INFINITY x = true.
Proof. by destruct x as [|[]| |[]]. Qed.

(** ** [fold(f64::INFINITY, f64::min)] and [fold(f64::NEG_INFINITY, f64::max)] *)

Definition fold_min (l : list f64) : f64 := foldl min INFINITY l.
Definition fold_max (l : list f64) : f64 := foldl max NEG_INFINITY l.

(** A choice between two numbers that is below (or above) both. *)
Section Select.
Context (select : f64 → f64 → f64) (below : f64 → f64 → bool).
Context (select_nan : ∀ x, select x NAN = x).
Context (select_spec : ∀ x y, is_nan x = false → is_nan y = false →
  (select x y = x ∨ select x y = y) ∧ below (select x y) x = true ∧ below (select x y) y = true).
Context (below_refl : ∀ x, is_nan x = false → below x x = true).
Context (below_trans : ∀ x y z, is_nan x = false → is_nan y = false → is_nan z = false →
  below x y = true → below y z = true → below x z = true).

Lemma select_fold l init :
  is_nan init = false →
  let m := foldl select init l in
  is_nan m = false ∧ (m = init ∨ m ∈ l) ∧ below m init = true ∧
  Forall (λ x, is_nan x = false → below m x = true) l.
Proof.
  induction l as [|x l IH] using rev_ind; intros Hi; cbn.
  { split_and!; auto. }
  rewrite foldl_snoc. destruct (IH Hi) as (Hm & Hin & Hb & Hl). clear IH. cbn in *.
  set (m := foldl select init l) in *. destruct (is_nan x) eqn:Hx.
  - assert (x = NAN) as -> by by destruct x. rewrite select_nan. split_and!; [done| |done|].
    + destruct Hin; [by left|right; apply elem_of_app; by left].
    + apply Forall_app. split; [done|]. by apply Forall_singleton.
  - destruct (select_spec m x Hm Hx) as (Hs & Hs1 & Hs2).
    assert (is_nan (select m x) = false) as Hn by by destruct Hs as [-> | ->].
    split_and!; [done| | |].
    + destruct Hs as [-> | ->]; [|right; apply elem_of_app; right; by left].
      destruct Hin; [by left|right; apply elem_of_app; by left].
    + by apply (below_trans _ m).
    + apply Forall_app. split; [|by apply Forall_singleton].
      eapply Forall_impl; [exact Hl|]. intros y Hy Hyn. by apply (below_trans _ m); auto.
Qed.
End Select.

Lemma min_spec x y :
  is_nan x = false → is_nan y = false →
  (min x y = x ∨ min x y = y) ∧ SFleb (min x y) x = true ∧ SFleb (min x y) y = true.
Proof.
  intros Hx Hy. assert (min x y = if SFltb y x then y else x) as -> by by destruct x, y.
  destruct (SFltb y x) eqn:E; split_and!; auto using leb_refl, ltb_leb, ltb_false.
Qed.

Lemma max_spec x y :
  is_nan x = false → is_nan y = false →
  (max x y = x ∨ max x y = y) ∧ SFleb x (max x y) = true ∧ SFleb y (max x y) = true.
Proof.
  intros Hx Hy. assert (max x y = if SFltb x y then y else x) as -> by by destruct x, y.
  destruct (SFltb x y) eqn:E; split_and!; auto using leb_refl, ltb_leb, ltb_false.
Qed.

(** The minimum is one of the numbers and below all of them. *)
Lemma fold_min_spec l x :
  x ∈ l → is_nan x = false → SFleb (fold_min l) x = true ∧ fold_min l ∈ l.
Proof.
  intros Hx Hn.
  destruct (select_fold min SFleb ltac:(by intros []) min_spec leb_refl leb_trans l INFINITY eq_refl)
    as (_ & Hin & _ & Hl). fold (fold_min l) in *.
  rewrite Forall_forall in Hl. pose proof (Hl x Hx Hn) as Hle. split; [done|].
  destruct Hin as [E|]; [|done]. rewrite E in Hle |- *. by destruct x as [|[]| |[]].
Qed.

Lemma fold_max_spec l x :
  x ∈ l → is_nan x = false → SFleb x (fold_max l) = true ∧ fold_max l ∈ l.
Proof.
  intros Hx Hn.
  destruct (select_fold max (λ x y, SFleb y x) ltac:(by intros []) max_spec leb_refl
    (λ x y z Hx Hy Hz H1 H2, leb_trans z y x Hz Hy Hx H2 H1) l NEG_INFINITY eq_refl)
    as (_ & Hin & _ & Hl). fold (fold_max l) in *.
  rewrite Forall_forall in Hl. pose proof (Hl x Hx Hn) as Hle. split; [done|].
  destruct Hin as [E|]; [|done]. rewrite E in Hle |- *. by destruct x as [|[]| |[]].
Qed.

(** ** Rates are numbers *)

(** Not a NaN and not negative. *)
Definition nonneg (x : f64) : bool :=
  match x with S754_zero s | S754_infinity s | S754_finite s _ _ => negb s | S754_nan => false end.

Lemma nonneg_not_nan x : nonneg x = true → is_nan x = false.
Proof. by destruct x. Qed.

Lemma shr_1_nonneg r : 0 ≤ shr_m r → 0 ≤ shr_m (shr_1 r).
Proof. by destruct r as [[|[]|[]] ? ?]. Qed.

Lemma shr_nonneg r e n : 0 ≤ shr_m r → 0 ≤ shr_m (shr r e n).1.
Proof.
  destruct n as [|p|p]; cbn; auto. revert r.
  induction p as [p IH|p IH|]; intros r Hr; cbn; auto using shr_1_nonneg.
Qed.

Lemma shr_fexp_nonneg m e l : 0 ≤ m → 0 ≤ shr_m (shr_fexp 53 1024 m e l).1.
Proof. intros Hm. apply shr_nonneg. by destruct l as [|[]]. Qed.

(** Rounding a number that is not negative. *)
Lemma binary_round_aux_nonneg m e l : 0 ≤ m → nonneg (binary_round_aux 53 1024 false m e l) = true.
Proof.
  intros Hm. unfold binary_round_aux.
  pose proof (shr_fexp_nonneg m e l Hm) as H1.
  destruct (shr_fexp 53 1024 m e l) as [r1 e1]. cbn in H1.
  assert (0 ≤ round_nearest_even (shr_m r1) (loc_of_shr_record r1)) as H2.
  { unfold round_nearest_even. destruct (loc_of_shr_record r1) as [|[]]; try destruct (Z.even _); lia. }
  pose proof (shr_fexp_nonneg _ e1 loc_Exact H2) as H3.
  destruct (shr_fexp 53 1024 _ e1 loc_Exact) as [r2 e2]. cbn in H3.
  destruct (shr_m r2); [done| |done]. by destruct (_ <=? _).
Qed.

Lemma binary_normalize_nonneg m e : 0 ≤ m → nonneg (binary_normalize 53 1024 m e false) = true.
Proof.
  intros Hm. destruct m as [|p|p]; [done| |done]. cbn [binary_normalize]. unfold binary_round.
  destruct (shl_align _ _ _). by apply binary_round_aux_nonneg.
Qed.

Lemma add_nonneg x y : nonneg x = true → nonneg y = true → nonneg (add x y) = true.
Proof.
  unfold add. destruct x as [[]|[]| |[] m e], y as [[]|[]| |[] m' e']; try done. intros _ _.
  apply binary_normalize_nonneg. cbn. lia.
Qed.

Lemma div_nonneg m e y : nonneg y = true → nonneg (div (S754_finite false m e) y) = true.
Proof.
  unfold div. destruct y as [[]|[]| |[] m' e']; try done. intros _. cbn [SFdiv].
  unfold SFdiv_core_binary. set (s := _ - _ - Z.min _ _).
  set (n := match s with Z0 => _ | Zpos _ => _ | Zneg _ => _ end).
  assert (0 ≤ n) as Hn by (unfold n; destruct s; [lia|apply Z.shiftl_nonneg; lia|lia]).
  pose proof (Z.div_pos n (Zpos m') Hn eq_refl) as Hq. unfold Z.div in Hq.
  destruct (Z.div_eucl n (Zpos m')) as [q r]. by apply binary_round_aux_nonneg.
Qed.

Lemma digits2_iter p d : digits2_pos (Pos.iter xO p d) = (digits2_pos p + d)%positive.
Proof.
  induction d as [|d IH] using Pos.peano_ind; cbn; [lia|]. rewrite Pos.iter_succ. cbn. rewrite IH. lia.
Qed.

Lemma digits2_lower p : 2 ^ (Zpos (digits2_pos p) - 1) ≤ Zpos p.
Proof.
  induction p as [p IH|p IH|]; cbn [digits2_pos]; [| |done];
    rewrite Pos2Z.inj_succ; replace (Z.succ _ - 1) with (Zpos (digits2_pos p) - 1 + 1) by lia;
    rewrite Z.pow_add_r by lia; lia.
Qed.

(** Integers below [2 ^ 52] convert to finite numbers. *)
Lemma of_int_finite n :
  0 < n < 2 ^ 52 → ∃ m e, of_int n = S754_finite false m e.
Proof.
  intros [Hn Hlt]. destruct n as [|p|p]; [done| |done].
  assert (Zpos (digits2_pos p) < 53) as Hd.
  { pose proof (digits2_lower p) as H. assert (2 ^ (Zpos (digits2_pos p) - 1) < 2 ^ 52) as H' by lia.
    apply Z.pow_lt_mono_r_iff in H'; lia. }
  unfold of_int. cbn [binary_normalize]. unfold binary_round.
  set (k := digits2_pos p) in *.
  assert (∀ z, -100 < z → fexp 53 1024 z = z - 53) as Hf
    by (intros z Hz; unfold fexp, emin; lia).
  rewrite Hf by lia. unfold shl_align.
  replace (Zpos k + 0 - 53 - 0) with (Zneg (53 - k)) by lia.
  set (m := Pos.iter xO p (53 - k)).
  assert (Zpos (digits2_pos m) = 53) as Hm by (unfold m; rewrite digits2_iter; fold k; lia).
  set (e := Zpos k + 0 - 53). unfold binary_round_aux, shr_fexp. cbn [shr_record_of_loc Zdigits2].
  rewrite Hm, Hf by lia. replace (53 + e - 53 - e) with 0 by lia. cbn [shr shr_m loc_of_shr_record].
  cbn [round_nearest_even Zdigits2]. rewrite Hm, Hf by lia. replace (53 + e - 53 - e) with 0 by lia.
  cbn [shr shr_m]. rewrite (proj2 (Z.leb_le _ _)) by lia. eauto.
Qed.

Lemma as_secs_f64_nonneg d : nonneg (as_secs_f64 d) = true.
Proof.
  unfold as_secs_f64. apply add_nonneg; [apply binary_normalize_nonneg; lia|].
  assert (∃ m e, of_int 1000000000 = S754_finite false m e) as (m & e & ->) by by eexists _, _.
  pose proof (binary_normalize_nonneg (Z.of_N (nanos d)) 0 (N2Z.is_nonneg _)) as H.
  fold (of_int (Z.of_N (nanos d))) in H.
  destruct (of_int (Z.of_N (nanos d))) as [[]|[]| |[] m' e'] eqn:E; try done. by apply div_nonneg.
Qed.

Example fixed_ex :
  fixed 2 (div (of_int 1) (of_int 8)) = "0.12" ∧ fixed 0 (of_int 1000000) = "1000000" ∧
  fixed 2 (mul (as_secs_f64 (mkDuration 1 234567890)) (of_int 1000)) = "1234.57" ∧
  fixed 0 (div (of_int 3) (of_int 2)) = "2" ∧ fixed 0 (div (of_int 0) (of_int 0)) = "NaN".
Proof. split_and!; reflexivity. Qed.
End F64.
