(* ===== verification/MdbxCreate.v ===== *)
(** * src/executor/mdbx.rs and mdbx_batched.rs: creating a database

    The two tables, [MdbxDatabase::create] and the constructors of the executors.
    The file system and the low-level table transaction of reth-libmdbx are a
    class of fallible operations. *)

From Stdlib Require Import String.
From stdpp Require Import base option list gmap strings.
From S2P Require Import Prelude Integers Externals Types Workload Executor Mdbx MdbxSpec MdbxBatched.

Module Create.
Import Mdbx.

(** The constants of [reth_db_api::table::Table]. *)
Record Table : Set := mkTable { NAME : string; DUPSORT : bool }.

Definition HashedAccountsTable : Table := mkTable "HashedAccounts" false.
Definition HashedStoragesTable : Table := mkTable "HashedStorages" true.

Section Lib.
Context {A : Alloy} {L : MdbxLib}.

(** [std::fs::create_dir_all], [DatabaseEnv::open], and the transaction that
    creates tables; a flag says whether a table is [DUP_SORT]. *)
Class MdbxFiles := {
  Path : Type;
  FileSystem : Type;
  TableTxn : Type;
  create_dir_all : FileSystem → Path → DatabaseError + FileSystem;
  open : FileSystem → Path → DatabaseError + DatabaseEnv;
  begin_rw_txn : DatabaseEnv → DatabaseError + TableTxn;
  create_db : TableTxn → string → bool → DatabaseError + TableTxn;
  commit : TableTxn → DatabaseError + DatabaseEnv;
}.

(** Opening a path without a database makes an empty one; creating tables leaves
    the accounts alone, and a committed transaction has created its tables. *)
Class MdbxFilesLaws {LL : MdbxLaws L} (F : MdbxFiles) := {
  fresh : FileSystem → Path → Prop;
  tables : DatabaseEnv → gmap string bool;
  txn_tables : TableTxn → gmap string bool;
  txn_contents : TableTxn → gmap B256 Account;
  create_dir_all_ok : ∀ fs path fs', create_dir_all fs path = inr fs' → fresh fs path → fresh fs' path;
  open_ok : ∀ fs path env, open fs path = inr env → fresh fs path → contents env = ∅ ∧ tables env = ∅;
  begin_ok : ∀ env t, begin_rw_txn env = inr t →
    txn_tables t = tables env ∧ txn_contents t = contents env;
  create_db_ok : ∀ t name dup t', create_db t name dup = inr t' →
    txn_tables t !! name = None →
    txn_tables t' = <[name := dup]> (txn_tables t) ∧ txn_contents t' = txn_contents t;
  commit_ok : ∀ t env, commit t = inr env → tables env = txn_tables t ∧ contents env = txn_contents t;
}.
End Lib.
Arguments MdbxFiles {_} _.

Section Create.
Context {A : Alloy} {L : MdbxLib} {F : MdbxFiles L}.

(** [MdbxDatabase::create]: the environment, or the first error. *)
Definition create (fs : FileSystem) (path : Path) : DatabaseError + DatabaseEnv :=
  fs ← create_dir_all fs path;
  env ← open fs path;
  tx ← begin_rw_txn env;
  tx ← create_db tx (NAME HashedAccountsTable) false;
  tx ← create_db tx (NAME HashedStoragesTable) true;
  commit tx.

(** [MdbxSequentialExecutor::new], with the environment the executor owns. *)
Definition sequential_new (fs : FileSystem) (path : Path) (verify_signatures : bool)
    : DatabaseError + (MdbxSequentialExecutor * DatabaseEnv) :=
  db ← create fs path; inr (mkMdbx verify_signatures, db).

(** [MdbxBatchedExecutor::new] *)
Definition batched_new (fs : FileSystem) (path : Path) (verify_signatures : bool)
    : DatabaseError + (Batched.MdbxBatchedExecutor * DatabaseEnv) :=
  db ← create fs path; inr (Batched.mkBatched verify_signatures, db).

Lemma sum_bind_inr {E T U} (o : E + T) (f : T → E + U) y :
  o ≫= f = inr y → ∃ x, o = inr x ∧ f x = inr y.
Proof. destruct o; cbn; [done|eauto]. Qed.

(** A new database is empty, and its two tables are declared as the [Table]
    constants say. *)
Lemma create_fresh {LL : MdbxLaws L} {FL : MdbxFilesLaws F} fs path env :
  fresh fs path → create fs path = inr env →
  contents env = ∅ ∧
  tables env = <[NAME HashedStoragesTable := DUPSORT HashedStoragesTable]>
    {[NAME HashedAccountsTable := DUPSORT HashedAccountsTable]}.
Proof.
  unfold create. intros Hf.
  intros (fs' & Hd & (env0 & Ho & (t0 & Hb & (t1 & H1 & (t2 & H2 & Hc)
    %sum_bind_inr)%sum_bind_inr)%sum_bind_inr)%sum_bind_inr)%sum_bind_inr.
  destruct (open_ok _ _ _ Ho (create_dir_all_ok _ _ _ Hd Hf)) as [Hc0 Ht0].
  destruct (begin_ok _ _ Hb) as [Hbt Hbc]. rewrite Ht0 in Hbt.
  destruct (create_db_ok _ _ _ _ H1) as [H1t H1c]; [by rewrite Hbt|].
  destruct (create_db_ok _ _ _ _ H2) as [H2t H2c].
  { rewrite H1t, Hbt, lookup_insert_ne by done. done. }
  destruct (commit_ok _ _ Hc) as [-> ->]. split; [congruence|]. rewrite H2t, H1t, Hbt. done.
Qed.

(** The executors start from the empty store. *)
Lemma sequential_new_repr {LL : MdbxLaws L} {FL : MdbxFilesLaws F} fs path v self env :
  fresh fs path → sequential_new fs path v = inr (self, env) →
  self = mkMdbx v ∧ MdbxSpec.repr env ∅.
Proof.
  unfold sequential_new. intros Hf (env' & H & [= <- <-])%sum_bind_inr. split; [done|].
  destruct (create_fresh _ _ _ Hf H) as [Hc _]. intros a. by rewrite Hc, !lookup_empty.
Qed.

Lemma batched_new_repr {LL : MdbxLaws L} {FL : MdbxFilesLaws F} fs path v self env :
  fresh fs path → batched_new fs path v = inr (self, env) →
  self = Batched.mkBatched v ∧ MdbxSpec.repr env ∅.
Proof.
  unfold batched_new. intros Hf (env' & H & [= <- <-])%sum_bind_inr. split; [done|].
  destruct (create_fresh _ _ _ Hf H) as [Hc _]. intros a. by rewrite Hc, !lookup_empty.
Qed.
End Create.

(** ** A file system in memory

    Every path is writable and has no database; the environment keeps its
    accounts and its tables. *)

Section Instances.
Context {A : Alloy}.

Definition disk_env : MdbxLib := {|
  DatabaseEnv := gmap B256 Account * gmap string bool;
  RoTxn := gmap B256 Account;
  RwTxn := gmap B256 Account * gmap string bool;
  DatabaseError := unit;
  env_tx env := inr env.1;
  ro_get t k := inr (t !! k);
  env_tx_mut env := inr env;
  rw_put t k a := inr (<[k := a]> t.1, t.2);
  rw_commit t := inr t;
|}.

#[global] Program Instance disk_env_laws : MdbxLaws disk_env := {|
  contents env := env.1;
  ro_contents t := t;
  rw_contents t := t.1;
|}.
Solve Obligations with cbn; intros; simplify_eq/=; done.

#[global] Instance disk_env_reliable : MdbxReliable disk_env.
Proof. split; cbn; eauto. Qed.

#[global] Instance disk_files : MdbxFiles disk_env := {|
  Path := unit;
  FileSystem := unit;
  TableTxn := gmap B256 Account * gmap string bool;
  create_dir_all fs path := inr fs;
  open fs path := inr ((∅, ∅) : DatabaseEnv (MdbxLib := disk_env));
  begin_rw_txn env := inr env;
  create_db t name dup := inr (t.1, <[name := dup]> t.2);
  commit t := inr t;
|}.

#[global] Program Instance disk_files_laws : MdbxFilesLaws disk_files := {|
  fresh _ _ := True;
  tables env := env.2;
  txn_tables t := t.2;
  txn_contents t := t.1;
|}.
Solve Obligations with cbn; intros; simplify_eq/=; done.
End Instances.
End Create.
