(* ===== verification/Runner.v ===== *)
(** * src/main.rs: the benchmark runner

    [main] for its arguments and compiled features, in a monad that prints lines,
    threads the world outside (the timed call of an executor, [run], is a
    parameter: the executors are the other files', and [RunnerSpec] plugs them
    in) and may panic.  A line is kept with its data; [render] gives its text.
    Booting the FoundationDB client and the pause after it are not modelled. *)

From Stdlib Require Import String.
From stdpp Require Import base option list gmap strings pretty.
From Stdlib Require Import ZArith Lia.
From S2P Require Import Prelude Integers Externals Workload WorkloadSpec Executor Sequential.
From S2P Require Import Mdbx MdbxBatched Fdb BlockStm F64.

Module Runner.

Record Args : Set := mkArgs {
  num_accounts : nat;
  num_transactions : nat;
  transactions_per_block : nat;
  hot_accounts : list nat;
  threads : list nat;
  sequential : bool;
  mdbx_sequential : bool;
  mdbx_batched : bool;
  fdb : bool;
  block_stm : bool;
  all : bool;
  no_verify : bool;
}.

(** The defaults of the command line. *)
Definition Args_default : Args :=
  mkArgs (50 * 1000) (25 * 100) 625 [2; 10; 100; 1000] [1; 2; 4; 8]
    false false false false false false false.

(** The compiled features. *)
Record Features : Set := mkFeatures {
  feature_mdbx : bool;
  feature_fdb : bool;
  feature_block_stm : bool;
}.

Inductive Backend : Set :=
  | InMemory
  | MdbxOneByOne
  | MdbxBlocks
  | BlockStmThreads (num_threads : nat)
  | FdbThreads (num_threads : nat).

#[export] Instance Backend_eq_dec : EqDecision Backend.
Proof. solve_decision. Defined.

Record BenchmarkResult : Set := mkBenchmarkResult {
  hot_accounts_label : string;
  executor_name : string;
  preserves_order : bool;
  successful : Z;
  failed : Z;
  duration_ms : F64.f64;
  throughput_tps : F64.f64;
}.

(** ** Lines *)

(** A printed text, a row of [BenchmarkResult::print], a row of the summary. *)
Inductive Line : Set :=
  | Println (text : string)
  | ResultRow (result : BenchmarkResult)
  | SummaryRow (executor_name : string) (avg_tps min_tps max_tps : F64.f64).

(** Left-aligned columns between bars. *)
Fixpoint columns (cells : list (nat * string)) : string :=
  match cells with
  | [] => ""
  | (width, text) :: cells =>
      match cells with
      | [] => F64.pad_right width text
      | _ => F64.pad_right width text +:+ " | " +:+ columns cells
      end
  end.

Definition order_text (preserves_order : bool) : string :=
  if preserves_order then "strict" else "loose".

Definition result_columns (self : BenchmarkResult) : string :=
  columns [(20, hot_accounts_label self); (25, executor_name self);
           (8, order_text (preserves_order self)); (10, pretty (successful self));
           (10, pretty (failed self)); (12, F64.fixed 2 (duration_ms self));
           (12, F64.fixed 0 (throughput_tps self))].

Definition summary_columns (executor_name : string) (avg_tps min_tps max_tps : F64.f64) : string :=
  columns [(30, executor_name); (15, F64.fixed 0 avg_tps); (15, F64.fixed 0 min_tps);
           (15, F64.fixed 0 max_tps)].

Definition render (line : Line) : string :=
  match line with
  | Println text => text
  | ResultRow result => result_columns result
  | SummaryRow name avg_tps min_tps max_tps => summary_columns name avg_tps min_tps max_tps
  end.

(** The header of a table of results. *)
Definition header_lines : list Line :=
  [Println (columns [(20, "Hot Accounts"); (25, "Executor"); (8, "Ordering"); (10, "Successful");
                     (10, "Failed"); (12, "Time (ms)"); (12, "TPS")]);
   Println (F64.repeat_string "-" 120)].

Definition rule : string := F64.repeat_string "═" 103.

Definition section_header (title : string) : list Line :=
  [Println rule; Println ("  " +:+ title); Println rule; Println ""].

Definition banner : list Line :=
  [Println ("╔" +:+ F64.repeat_string "═" 102 +:+ "╗");
   Println ("║" +:+ F64.repeat_string " " 30 +:+ "REVM Database Benchmark Suite" +:+
            F64.repeat_string " " 43 +:+ "║");
   Println ("╚" +:+ F64.repeat_string "═" 102 +:+ "╝");
   Println ""].

(** [args.num_transactions / args.transactions_per_block], printed as the number
    of blocks; division by zero panics. *)
Definition num_blocks (args : Args) : outcome nat :=
  if transactions_per_block args =? 0 then Panic
  else Return (num_transactions args / transactions_per_block args).

Definition verify_signatures (args : Args) : bool := negb (no_verify args).

Definition workload_config (args : Args) (hot : nat) : Wl.WorkloadConfig :=
  Wl.mkWorkloadConfig (num_accounts args) (num_transactions args) hot 42 1 (transactions_per_block args).

(** The configuration as it is printed. *)
Definition configuration (args : Args) (num_blocks : nat) : list Line :=
  [Println "Benchmark Configuration:";
   Println ("  • Accounts: " +:+ pretty (num_accounts args));
   Println ("  • Transactions per run: " +:+ pretty (num_transactions args));
   Println ("  • Transactions per block: " +:+ pretty (transactions_per_block args));
   Println ("  • Number of blocks: " +:+ pretty num_blocks);
   Println ("  • Signature verification: " +:+
            if verify_signatures args then "enabled" else "disabled");
   Println ("  • Hot accounts: " +:+ F64.debug_vec (hot_accounts args));
   Println ("  • Thread counts (parallel): " +:+ F64.debug_vec (threads args));
   Println ""].

Definition label (hot : nat) : string := (pretty hot +:+ " accounts")%string.

(** [executor.name()], and the name [main] makes for FoundationDB. *)
Definition backend_name (args : Args) (b : Backend) : string :=
  match b with
  | InMemory => Sequential.name (Sequential.with_verification (verify_signatures args))
  | MdbxOneByOne => Mdbx.name (Mdbx.mkMdbx (verify_signatures args))
  | MdbxBlocks => Batched.name (Batched.mkBatched (verify_signatures args))
  | BlockStmThreads n => BlockStm.name (BlockStm.new n (verify_signatures args))
  | FdbThreads n => ("fdb_parallel_" +:+ pretty n +:+ "t")%string
  end.

Definition backend_order (args : Args) (b : Backend) : bool :=
  match b with
  | InMemory => Sequential.preserves_order (Sequential.with_verification (verify_signatures args))
  | MdbxOneByOne => Mdbx.preserves_order (Mdbx.mkMdbx (verify_signatures args))
  | MdbxBlocks => Batched.preserves_order (Batched.mkBatched (verify_signatures args))
  | BlockStmThreads n => BlockStm.preserves_order (BlockStm.new n (verify_signatures args))
  | FdbThreads _ => false
  end.

(** The executors [main] selects, in the order of its sections, each for every
    thread count it has. *)
Definition backends (features : Features) (args : Args) : list Backend :=
  (if all args || sequential args then [InMemory] else []) ++
  (if feature_mdbx features && (all args || mdbx_sequential args) then [MdbxOneByOne] else []) ++
  (if feature_mdbx features && (all args || mdbx_batched args) then [MdbxBlocks] else []) ++
  (if feature_block_stm features && (all args || block_stm args)
   then BlockStmThreads <$> threads args else []) ++
  (if feature_fdb features && (all args || fdb args) then FdbThreads <$> threads args else []).

(** ** Selecting among the backends *)

Section Filter.
Context (P : Backend → Prop) `{!∀ b, Decision (P b)}.

Lemma length_filter_option (c : bool) b : ¬ P b → length (filter P (if c then [b] else [])) = 0.
Proof. intros Hb. destruct c; [|done]. rewrite filter_cons. by rewrite decide_False. Qed.

Lemma length_filter_threads (c : bool) (f : nat → Backend) ns m :
  length (filter P (f <$> ns)) = m → length (filter P (if c then f <$> ns else [])) = if c then m else 0.
Proof. intros <-. by destruct c. Qed.

Lemma filter_threads_cons (f : nat → Backend) n ns :
  length (filter P (f <$> n :: ns)) = (if decide (P (f n)) then 1 else 0) + length (filter P (f <$> ns)).
Proof. rewrite fmap_cons, filter_cons. by case_decide. Qed.

Lemma filter_threads_none (f : nat → Backend) ns :
  (∀ n, ¬ P (f n)) → length (filter P (f <$> ns)) = 0.
Proof.
  intros Hf. induction ns as [|n ns IH]; [done|]. by rewrite filter_threads_cons, decide_False, IH.
Qed.

Lemma filter_threads_all (f : nat → Backend) ns :
  (∀ n, P (f n)) → length (filter P (f <$> ns)) = length ns.
Proof.
  intros Hf. induction ns as [|n ns IH]; [done|]. by rewrite filter_threads_cons, decide_True, IH.
Qed.

Lemma filter_threads_one (f : nat → Backend) ns n :
  (∀ n', P (f n') ↔ n' = n) → n ∈ ns → NoDup ns → length (filter P (f <$> ns)) = 1.
Proof.
  intros Hf Hin Hnd. induction Hnd as [|n' ns Hn' _ IH]; [by apply not_elem_of_nil in Hin|].
  rewrite filter_threads_cons. apply elem_of_cons in Hin as [<-|Hin].
  - rewrite decide_True by by apply Hf. clear IH. replace (length _) with 0; [done|].
    symmetry. induction ns as [|n' ns IH]; [done|]. apply not_elem_of_cons in Hn' as [Hne Hn'].
    rewrite filter_threads_cons, decide_False, IH; [done|done|]. rewrite Hf. congruence.
  - rewrite decide_False, IH; [done|done|]. rewrite Hf. by intros ->.
Qed.
End Filter.

(** ** Printing, the world and panics *)

Section IO.
Context {World : Type}.

Definition IO (T : Type) : Type := World → list Line * World * outcome T.

#[global] Instance IO_ret : MRet IO := λ T x w, ([], w, Return x).
#[global] Instance IO_bind : MBind IO := λ T U f m w,
  match m w with
  | (out, w, Return x) => let '(out', w, o) := f x w in (out ++ out', w, o)
  | (out, w, Panic) => (out, w, Panic)
  | (out, w, Timeout) => (out, w, Timeout)
  end.

Definition print (lines : list Line) : IO unit := λ w, (lines, w, Return tt).
Definition println (text : string) : IO unit := print [Println text].
Definition lift {T} (o : outcome T) : IO T := λ w, ([], w, o).

(** A [for] loop that pushes a result in every round. *)
Fixpoint for_each {T U} (body : T → IO U) (l : list T) : IO (list U) :=
  match l with
  | [] => mret []
  | x :: l => y ← body x; ys ← for_each body l; mret (y :: ys)
  end.

(** What a computation that returns has printed and returned. *)
Definition emits {T} (m : IO T) (Q : list Line → T → Prop) : Prop :=
  ∀ w out w' x, m w = (out, w', Return x) → Q out x.

Lemma emits_ret {T} (x : T) (Q : list Line → T → Prop) : Q [] x → emits (mret x) Q.
Proof. intros HQ w out w' y H. cbv in H. by simplify_eq. Qed.

Lemma emits_print lines (Q : list Line → unit → Prop) : Q lines tt → emits (print lines) Q.
Proof. intros HQ w out w' y H. cbv in H. by simplify_eq. Qed.

Lemma emits_lift {T} (o : outcome T) (Q : list Line → T → Prop) :
  (∀ x, o = Return x → Q [] x) → emits (lift o) Q.
Proof. intros HQ w out w' y H. unfold lift in H. simplify_eq. by apply HQ. Qed.

Lemma emits_bind {T U} (m : IO T) (f : T → IO U) (P : list Line → T → Prop) (Q : list Line → U → Prop) :
  emits m P → (∀ out x, P out x → emits (f x) (λ out' y, Q (out ++ out') y)) → emits (m ≫= f) Q.
Proof.
  intros Hm Hf w out w' y H. unfold mbind, IO_bind in H.
  destruct (m w) as [[out1 w1] [x| |]] eqn:E; [|done..].
  destruct (f x w1) as [[out2 w2] o] eqn:E2. injection H as <- <- ->.
  exact (Hf _ _ (Hm _ _ _ _ E) _ _ _ _ E2).
Qed.

Lemma emits_impl {T} (m : IO T) (P Q : list Line → T → Prop) :
  emits m P → (∀ out x, P out x → Q out x) → emits m Q.
Proof. intros Hm HPQ w out w' x H. by eapply HPQ, Hm. Qed.
(** A computation that neither panics nor runs out of fuel. *)
Definition completes {T} (m : IO T) : Prop := ∀ w, ∃ out w' x, m w = (out, w', Return x).

Lemma completes_ret {T} (x : T) : completes (mret x).
Proof. intros w. by eexists _, _, _. Qed.

Lemma completes_print lines : completes (print lines).
Proof. intros w. by eexists _, _, _. Qed.

Lemma completes_lift {T} (o : outcome T) x : o = Return x → completes (lift o).
Proof. intros -> w. by eexists _, _, _. Qed.

Lemma completes_bind {T U} (m : IO T) (f : T → IO U) :
  completes m → (∀ x, completes (f x)) → completes (m ≫= f).
Proof.
  intros Hm Hf w. destruct (Hm w) as (out & w1 & x & E). destruct (Hf x w1) as (out' & w2 & y & E').
  exists (out ++ out'), w2, y. unfold mbind, IO_bind. by rewrite E, E'.
Qed.

Lemma completes_for_each {T U} (body : T → IO U) l :
  Forall (λ x, completes (body x)) l → completes (for_each body l).
Proof.
  induction 1 as [|x l Hx _ IH]; [apply completes_ret|]. cbn.
  apply completes_bind; [done|]. intros y. apply completes_bind; [done|]. intros ys. apply completes_ret.
Qed.
End IO.
Arguments IO : clear implicits.

(** ** The program *)

Section Runner.
Context {A : Alloy} {K : Keys A} {R : Rand} {World : Type}.
(** Making the executor and its database, and the timed call of it on a
    workload; an [expect] that fails panics. *)
Context (run : Backend → bool → Wl.Workload → World → World * outcome (Exec.ExecutionResult * F64.Duration)).
(** The order in which a [HashMap] of results is iterated. *)
Context (hash_map_iter : gmap string (list BenchmarkResult) → list (string * list BenchmarkResult)).
Context (fuel : nat).
Implicit Types (args : Args) (b : Backend) (hot : nat).

Definition throughput (num_transactions : nat) (elapsed : F64.Duration) : F64.f64 :=
  F64.div (F64.of_int (Z.of_nat num_transactions)) (F64.as_secs_f64 elapsed).

(** [run_in_memory_benchmark], and its copies in the other sections. *)
Definition make_result args b hot (result : Exec.ExecutionResult) (elapsed : F64.Duration)
    : BenchmarkResult :=
  mkBenchmarkResult (label hot) (backend_name args b) (backend_order args b)
    (Exec.successful result) (Exec.failed result)
    (F64.mul (F64.as_secs_f64 elapsed) (F64.of_int 1000)) (throughput (num_transactions args) elapsed).

Definition timed (b : Backend) (v : bool) (workload : Wl.Workload)
    : IO World (Exec.ExecutionResult * F64.Duration) :=
  λ world, let '(world, o) := run b v workload world in ([], world, o).

(** The body of the loops over [hot_accounts]. *)
Definition benchmark args b hot : IO World BenchmarkResult :=
  workload ← lift (Wl.generate fuel (workload_config args hot));
  '(result, elapsed) ← timed b (verify_signatures args) workload;
  let result := make_result args b hot result elapsed in
  print [ResultRow result];;
  mret result.

(** The rows of one executor: the header, a row per number of hot accounts. *)
Definition table args b : IO World (list BenchmarkResult) :=
  print header_lines;;
  results ← for_each (benchmark args b) (hot_accounts args);
  println "";;
  mret results.

(** The section of an executor without threads, if it runs. *)
Definition section (runs : bool) args (title : string) b : IO World (list BenchmarkResult) :=
  if runs then print (section_header title);; table args b else mret [].

(** The section of an executor with threads, if it runs. *)
Definition threads_section (runs : bool) args (title : string) (backend : nat → Backend)
    : IO World (list BenchmarkResult) :=
  if runs then
    print (section_header title);;
    results ← for_each (λ num_threads,
      println ("--- " +:+ pretty num_threads +:+ " threads ---");;
      table args (backend num_threads)) (threads args);
    mret (List.concat results)
  else mret [].

Definition unavailable (what feature : string) : list Line :=
  [Println ("⚠️  " +:+ what +:+ " not available (rebuild with --features " +:+ feature +:+ ")");
   Println ""].

(** The warnings for selected executors that are not compiled in. *)
Definition warnings (features : Features) args : list Line :=
  (if negb (feature_mdbx features) && (all args || mdbx_sequential args || (all args || mdbx_batched args))
   then unavailable "MDBX executors" "mdbx" else []) ++
  (if negb (feature_fdb features) && (all args || fdb args)
   then unavailable "FoundationDB executor" "fdb" else []) ++
  (if negb (feature_block_stm features) && (all args || block_stm args)
   then unavailable "Block-STM executor" "block-stm" else []).

(** The [HashMap] of [print_summary]. *)
Definition executor_groups (results : list BenchmarkResult) : gmap string (list BenchmarkResult) :=
  foldl (λ groups result,
    <[executor_name result := default [] (groups !! executor_name result) ++ [result]]> groups)
    ∅ results.

(** The row of one group. *)
Definition summary_row (group : string * list BenchmarkResult) : Line :=
  let rates := throughput_tps <$> group.2 in
  SummaryRow group.1
    (F64.div (F64.sum rates) (F64.of_int (Z.of_nat (length group.2))))
    (F64.fold_min rates) (F64.fold_max rates).

Definition summary_lines (results : list BenchmarkResult) : list Line :=
  match results with
  | [] => []
  | _ =>
      [Println ""] ++ section_header "Summary Statistics" ++
      [Println (columns [(30, "Executor"); (15, "Avg TPS"); (15, "Min TPS"); (15, "Max TPS")]);
       Println (F64.repeat_string "-" 80)] ++
      (summary_row <$> hash_map_iter (executor_groups results)) ++ [Println ""]
  end.

Definition main (features : Features) args : IO World (list BenchmarkResult) :=
  print banner;;
  num_blocks ← lift (num_blocks args);
  print (configuration args num_blocks);;
  r1 ← section (all args || sequential args) args "Sequential In-Memory Executor (CacheDB)" InMemory;
  r2 ← section (feature_mdbx features && (all args || mdbx_sequential args)) args
         "MDBX Sequential Executor (Persistent storage)" MdbxOneByOne;
  r3 ← section (feature_mdbx features && (all args || mdbx_batched args)) args
         "MDBX Batched Executor (Block-level caching and commit)" MdbxBlocks;
  r4 ← threads_section (feature_block_stm features && (all args || block_stm args)) args
         "Block-STM Parallel Executor (Optimistic concurrency)" BlockStmThreads;
  r5 ← threads_section (feature_fdb features && (all args || fdb args)) args
         "FoundationDB Parallel Executor (Distributed transactional)" FdbThreads;
  print (warnings features args);;
  let all_results := r1 ++ r2 ++ r3 ++ r4 ++ r5 in
  print (summary_lines all_results);;
  mret all_results.

(** ** What it runs *)

(** The runs in order: for each backend, every number of hot accounts. *)
Definition runs (features : Features) args : list (Backend * nat) :=
  b ← backends features args; hot ← hot_accounts args; [(b, hot)].

(** [r] is the result of a run. *)
Definition reported args (p : Backend * nat) (r : BenchmarkResult) : Prop :=
  ∃ workload world world' result elapsed,
    Wl.generate fuel (workload_config args p.2) = Return workload ∧
    run p.1 (verify_signatures args) workload world = (world', Return (result, elapsed)) ∧
    r = make_result args p.1 p.2 result elapsed.

(** The results among the printed lines. *)
Definition rows (out : list Line) : list BenchmarkResult :=
  omap (λ line, match line with ResultRow r => Some r | _ => None end) out.

(** The rows of the summary. *)
Definition summaries (out : list Line) : list (string * F64.f64 * F64.f64 * F64.f64) :=
  omap (λ line, match line with SummaryRow x avg lo hi => Some (x, avg, lo, hi) | _ => None end) out.

Definition plain (out : list Line) : Prop := rows out = [] ∧ summaries out = [].

(** Runs were made, and exactly their results printed and collected. *)
Definition reports args (ps : list (Backend * nat)) (out : list Line) (rs : list BenchmarkResult) : Prop :=
  Forall2 (reported args) ps rs ∧ rows out = rs ∧ summaries out = [].

Lemma reports_nil args out : plain out → reports args [] out [].
Proof. by intros []. Qed.

Lemma reports_app args ps1 ps2 out1 out2 rs1 rs2 :
  reports args ps1 out1 rs1 → reports args ps2 out2 rs2 →
  reports args (ps1 ++ ps2) (out1 ++ out2) (rs1 ++ rs2).
Proof.
  intros (H1 & E1 & S1) (H2 & E2 & S2). split; [by apply Forall2_app|].
  unfold rows, summaries in *. by rewrite !omap_app, E1, E2, S1, S2.
Qed.

(** Text around the rows. *)
Lemma reports_text args ps pre out post rs :
  plain pre → plain post → reports args ps out rs → reports args ps (pre ++ out ++ post) rs.
Proof.
  intros Hp Hq H. rewrite <- (app_nil_r ps), <- (app_nil_r rs), <- (app_nil_l ps), <- (app_nil_l rs).
  rewrite <- !app_assoc. repeat apply reports_app; [by apply reports_nil|done|by apply reports_nil].
Qed.

Lemma benchmark_emits args b hot :
  emits (benchmark args b hot) (λ out r, reports args [(b, hot)] out [r]).
Proof.
  unfold benchmark. intros w out w' r H. unfold mbind, IO_bind, lift, timed in H.
  destruct (Wl.generate _ _) as [wl| |] eqn:Hg; [|done..].
  destruct (run b _ wl w) as [w1 [[res el]| |]] eqn:Hr; [|done..]. cbn in H. injection H as <- <- <-.
  split; [|done]. apply Forall2_cons_2; [|done]. by exists wl, w, w1, res, el.
Qed.

(** A loop whose rounds make the runs [f x] makes those of all rounds. *)
Lemma for_each_emits {T U} args (body : T → IO World U) (f : T → list (Backend * nat))
    (got : U → list BenchmarkResult) l :
  (∀ x, emits (body x) (λ out y, reports args (f x) out (got y))) →
  emits (for_each body l) (λ out ys, reports args (l ≫= f) out (ys ≫= got)).
Proof.
  intros Hb. induction l as [|x l IH]; [by apply emits_ret, reports_nil|]. cbn [for_each].
  eapply emits_bind; [apply Hb|]. intros out y Hy. eapply emits_bind; [exact IH|]. intros out' ys Hys.
  apply emits_ret. rewrite app_nil_r. cbn. by apply reports_app.
Qed.

Lemma table_emits args b :
  emits (table args b) (λ out rs, reports args (hot ← hot_accounts args; [(b, hot)]) out rs).
Proof.
  unfold table. eapply emits_bind; [by apply (emits_print _ (λ o _, o = header_lines))|]. intros o1 [] ->.
  eapply emits_bind; [apply (for_each_emits args _ (λ hot, [(b, hot)]) (λ r, [r])); intros hot; apply benchmark_emits|]. intros out rs Hrs.
  eapply emits_bind; [by apply (emits_print _ (λ o _, o = [Println ""]))|]. intros o2 [] ->.
  apply emits_ret. rewrite app_nil_r. apply reports_text; [done..|].
  assert (∀ l : list BenchmarkResult, (l ≫= λ r, [r]) = l) as E
    by (intros l; induction l as [|r l IH]; cbn; [done|by f_equal]).
  cbv beta in Hrs. by rewrite E in Hrs.
Qed.

Lemma section_emits c args title b :
  emits (section c args title b)
    (λ out rs, reports args (b' ← (if c then [b] else []); hot ← hot_accounts args; [(b', hot)]) out rs).
Proof.
  unfold section. destruct c; [|by apply emits_ret, reports_nil].
  eapply emits_bind; [by apply (emits_print _ (λ o _, plain o))|]. intros o1 [] Ho.
  eapply emits_impl; [apply table_emits|]. intros out rs Hrs. cbn. rewrite app_nil_r, <- (app_nil_r out).
  by apply reports_text.
Qed.

Lemma threads_section_emits c args title backend :
  emits (threads_section c args title backend)
    (λ out rs, reports args
       (b ← (if c then backend <$> threads args else []); hot ← hot_accounts args; [(b, hot)]) out rs).
Proof.
  unfold threads_section. destruct c; [|by apply emits_ret, reports_nil].
  eapply emits_bind; [by apply (emits_print _ (λ o _, plain o))|]. intros o1 [] Ho.
  eapply emits_bind.
  { apply (for_each_emits args _ (λ n, hot ← hot_accounts args; [(backend n, hot)]) (λ rs, rs)).
    intros n. eapply emits_bind; [by apply (emits_print _ (λ o _, plain o))|]. intros o2 [] Ho2.
    eapply emits_impl; [apply table_emits|]. intros out rs Hrs. cbn. rewrite <- (app_nil_r out).
    by apply reports_text. }
  intros out rss Hrs. apply emits_ret. rewrite app_nil_r, <- (app_nil_r out).
  apply reports_text; [done..|].
  assert (∀ l : list (list BenchmarkResult), (l ≫= λ rs, rs) = List.concat l) as E
    by (intros l; induction l as [|r l IH]; cbn; [done|by f_equal]).
  cbv beta in Hrs. rewrite E in Hrs. replace (_ ≫= _) with (n ← threads args; hot ← hot_accounts args; [(backend n, hot)]); [done|].
  clear Hrs. induction (threads args) as [|n ns IH]; cbn; [done|by f_equal].
Qed.

Lemma warnings_plain features args : plain (warnings features args).
Proof. unfold warnings, plain, rows, summaries. rewrite !omap_app. by destruct (negb (feature_mdbx _) && _), (negb (feature_fdb _) && _), (negb (feature_block_stm _) && _). Qed.

(** The summary has one row for each group. *)
Definition summary_of (g : string * list BenchmarkResult) : string * F64.f64 * F64.f64 * F64.f64 :=
  let rates := throughput_tps <$> g.2 in
  (g.1, F64.div (F64.sum rates) (F64.of_int (Z.of_nat (length g.2))), F64.fold_min rates, F64.fold_max rates).

Lemma omap_summary_rows {T} (f : Line → option T) (h : string * list BenchmarkResult → option T) (gs : list (string * list BenchmarkResult)) :
  (∀ g, f (summary_row g) = h g) → omap f (summary_row <$> gs) = omap h gs.
Proof. intros Hf. induction gs as [|g gs IH]; [done|]. cbn. by rewrite Hf, IH. Qed.

Lemma summary_lines_rows results : rows (summary_lines results) = [].
Proof.
  destruct results as [|r rs]; [done|]. cbn [summary_lines]. unfold rows. rewrite !omap_app. cbn.
  rewrite app_nil_r, (omap_summary_rows _ (λ _, None)) by done. by induction (hash_map_iter _).
Qed.

Lemma summary_lines_summaries results :
  results ≠ [] → summaries (summary_lines results) = summary_of <$> hash_map_iter (executor_groups results).
Proof.
  destruct results as [|r rs]; [done|]. intros _. cbn [summary_lines]. unfold summaries.
  rewrite !omap_app. cbn. rewrite app_nil_r, (omap_summary_rows _ (λ g, Some (summary_of g))) by done.
  induction (hash_map_iter _) as [|g gs IH]; [done|]. cbn. by rewrite IH.
Qed.

(** The output of [main]: the runs with their rows, then the summary. *)
Lemma main_emits features args :
  emits (main features args) (λ out rs, ∃ k pre,
    num_blocks args = Return k ∧ reports args (runs features args) pre rs ∧
    out = banner ++ configuration args k ++ pre ++ warnings features args ++ summary_lines rs).
Proof.
  unfold main. eapply emits_bind; [by apply (emits_print _ (λ o _, o = banner))|]. intros ? [] ->.
  eapply emits_bind; [apply (emits_lift _ (λ o k, o = [] ∧ num_blocks args = Return k)); auto|].
  intros ? k [-> Hk].
  eapply emits_bind; [by apply (emits_print _ (λ o _, o = configuration args k))|]. intros ? [] ->.
  eapply emits_bind; [apply section_emits|]. intros o1 r1 H1.
  eapply emits_bind; [apply section_emits|]. intros o2 r2 H2.
  eapply emits_bind; [apply section_emits|]. intros o3 r3 H3.
  eapply emits_bind; [apply threads_section_emits|]. intros o4 r4 H4.
  eapply emits_bind; [apply threads_section_emits|]. intros o5 r5 H5.
  eapply emits_bind; [by apply (emits_print _ (λ o _, o = warnings features args))|]. intros ? [] ->.
  eapply emits_bind; [by apply (emits_print _ (λ o _, o = summary_lines (r1 ++ r2 ++ r3 ++ r4 ++ r5)))|].
  intros ? [] ->. apply emits_ret. exists k, (o1 ++ o2 ++ o3 ++ o4 ++ o5). split_and!; [done| |].
  - unfold runs, backends. rewrite !bind_app.
    exact (reports_app _ _ _ _ _ _ _ H1 (reports_app _ _ _ _ _ _ _ H2
      (reports_app _ _ _ _ _ _ _ H3 (reports_app _ _ _ _ _ _ _ H4 H5)))).
  - rewrite app_nil_r. by rewrite <- !app_assoc.
Qed.

(** ** What it reports *)

Lemma executor_groups_lookup results x :
  default [] (executor_groups results !! x) = filter (λ r, executor_name r = x) results.
Proof.
  unfold executor_groups. induction results as [|r results IH] using rev_ind; [done|].
  rewrite foldl_snoc, filter_app, filter_cons, <- IH, lookup_insert. cbn.
  case_decide as H; [by subst|by rewrite app_nil_r].
Qed.

(** A group is not empty. *)
Lemma executor_groups_Some results x g :
  executor_groups results !! x = Some g → g = filter (λ r, executor_name r = x) results ∧ g ≠ [].
Proof.
  intros Hg. pose proof (executor_groups_lookup results x) as E. rewrite Hg in E. cbn in E.
  split; [done|]. revert g Hg E. unfold executor_groups.
  induction results as [|r results IH] using rev_ind; [done|]. intros g. rewrite foldl_snoc.
  rewrite lookup_insert. case_decide; [intros [= <-] _ []%app_nil; done|].
  intros Hg E. rewrite filter_app, filter_cons, decide_False, app_nil_r in E by done. by eapply IH.
Qed.

Lemma string_app_inj_end (x y z : string) : (x +:+ z = y +:+ z)%string → x = y.
Proof.
  assert (∀ u v : string, String.length (u +:+ v)%string = String.length u + String.length v) as Hlen.
  { induction u as [|c u IH]; intros v; [done|]. exact (f_equal S (IH v)). }
  revert y. induction x as [|c x IH]; intros [|d y] H.
  - done.
  - apply (f_equal String.length) in H. rewrite !Hlen in H. cbn in H. lia.
  - apply (f_equal String.length) in H. rewrite !Hlen in H. cbn in H. lia.
  - cbn in H. injection H as -> H. f_equal. by apply IH.
Qed.

(** Names tell executors apart, except the thread counts of Block-STM. *)
Lemma backend_name_eq args b b' :
  backend_name args b = backend_name args b' ↔
  b = b' ∨ ∃ n n', b = BlockStmThreads n ∧ b' = BlockStmThreads n'.
Proof.
  split.
  - destruct b, b'; cbn [backend_name]; intros H; try discriminate H; eauto.
    left. f_equal. apply (inj (String.append "fdb_parallel_")), string_app_inj_end in H.
    by apply (inj pretty) in H.
  - intros [->|(n & n' & -> & ->)]; done.
Qed.

(** The runs of the backends a predicate selects. *)
Lemma runs_filter (P : Backend → Prop) `{!∀ b, Decision (P b)} features args :
  length (filter (λ p, P p.1) (runs features args)) =
  length (filter P (backends features args)) * length (hot_accounts args).
Proof.
  unfold runs. induction (backends features args) as [|b bs IH]; [done|].
  cbn [mbind list_bind]. rewrite filter_app, length_app, filter_cons, IH.
  assert (∀ hots : list nat, length (filter (λ p, P p.1) (hot ← hots; [(b, hot)])) =
    if decide (P b) then length hots else 0) as ->.
  { induction hots as [|h hots IHh]; [by case_decide|].
    change (hot ← h :: hots; [(b, hot)]) with ((b, h) :: (hot ← hots; [(b, hot)])).
    rewrite filter_cons. cbn. case_decide; cbn; by rewrite IHh. }
  case_decide; cbn; lia.
Qed.

(** The labels of a report. *)
Lemma reported_labels args p r :
  reported args p r → executor_name r = backend_name args p.1 ∧ hot_accounts_label r = label p.2.
Proof. by intros (? & ? & ? & ? & ? & _ & _ & ->). Qed.

Lemma reported_throughput args p r :
  (0 < num_transactions args)%nat → (Z.of_nat (num_transactions args) < 2 ^ 52)%Z → reported args p r →
  F64.is_nan (throughput_tps r) = false.
Proof.
  intros H0 Hn (? & ? & ? & res & el & _ & _ & ->). apply F64.nonneg_not_nan. cbn. unfold throughput.
  destruct (F64.of_int_finite (Z.of_nat (num_transactions args))) as (m & e & ->); [lia|].
  apply F64.div_nonneg, F64.as_secs_f64_nonneg.
Qed.

Lemma main_returns features args world out world' results :
  main features args world = (out, world', Return results) →
  Forall2 (reported args) (runs features args) results ∧ rows out = results ∧
  summaries out = summaries (summary_lines results).
Proof.
  intros H. destruct (main_emits _ _ _ _ _ _ H) as (k & pre & _ & (H1 & H2 & H3) & ->). split; [done|].
  destruct (warnings_plain features args) as [Hw1 Hw2].
  pose proof (summary_lines_rows results) as Hs.
  unfold rows, summaries in *. rewrite !omap_app, H2, H3, Hw1, Hw2, Hs. cbn. by rewrite app_nil_r.
Qed.

(** What a benchmark run reports.  If [main] returns, it made one run for
    each selected executor, thread count and number of hot accounts, in that
    order; it printed one row for each, with the executor's name and the label,
    and these rows are its results; when the executors count every transaction
    of a workload once, the two counts of every row add up to the requested
    number of transactions. *)
Theorem main_reports features args world out world' results :
  main features args world = (out, world', Return results) →
  rows out = results ∧
  (λ r, (executor_name r, hot_accounts_label r)) <$> results =
    (λ p, (backend_name args p.1, label p.2)) <$> runs features args ∧
  ((Z.of_nat (num_transactions args) < u64_modulus)%Z →
   (∀ b v w w1 w2 result t, Exec.workload_ok w → run b v w w1 = (w2, Return (result, t)) →
     (Exec.successful result + Exec.failed result = Z.of_nat (length (Wl.transactions w)))%Z) →
   Forall (λ r, successful r + failed r = Z.of_nat (num_transactions args))%Z results).
Proof.
  intros (H & Hrows & _)%main_returns. split; [done|]. clear Hrows. split.
  - induction H as [|p r ps rs Hb _ IH]; [done|]. cbn. f_equal; [|exact IH].
    by destruct (reported_labels _ _ _ Hb) as [-> ->].
  - intros Hn Hcount. induction H as [|p r ps rs Hb _ IH]; constructor; [|exact IH].
    destruct Hb as (w & w1 & w2 & result & t & Hw & Hr & ->).
    pose proof (WlSpec.generate_length _ _ _ Hw) as Hlen. cbn in Hlen. rewrite <- Hlen.
    apply (Hcount p.1 (verify_signatures args) w w1 w2 result t); [|exact Hr].
    split; [by eapply WlSpec.generate_concat|by rewrite Hlen].
Qed.

(** The printed number of blocks counts the full ones.  It is the number
    of blocks of the generated workloads when the block size divides the number
    of transactions, and one less otherwise. *)
Theorem printed_blocks_floor args hot w k :
  num_blocks args = Return k → Wl.generate fuel (workload_config args hot) = Return w →
  Wl.num_blocks w = if decide (num_transactions args mod transactions_per_block args = 0) then k else k + 1.
Proof.
  unfold num_blocks. intros Hk (hot' & _ & _ & Ht & Hb & _)%WlSpec.generate_inv.
  destruct (Nat.eqb_spec (transactions_per_block args) 0) as [|Hs]; [done|]. injection Hk as <-.
  apply WlSpec.generate_transactions_length in Ht. cbn in Ht, Hb. unfold chunks in Hb.
  rewrite (proj2 (Nat.eqb_neq _ _) Hs) in Hb. injection Hb as Hb. unfold Wl.num_blocks.
  rewrite <- Hb, length_chunks_aux, Ht by lia.
  set (n := num_transactions args). set (b := transactions_per_block args) in *.
  pose proof (Nat.div_mod n b Hs) as Hd. pose proof (Nat.mod_upper_bound n b Hs).
  case_decide as H0; symmetry.
  - apply (Nat.div_unique _ _ _ (b - 1)); lia.
  - apply (Nat.div_unique _ _ _ (n mod b - 1)); lia.
Qed.

(** [-t 0] and a duration of zero. *)
Lemma no_transactions_nan : throughput 0 (F64.mkDuration 0 0) = SpecFloat.S754_nan.
Proof. reflexivity. Qed.

(** C33: the rates of the summary.  For a number of transactions above zero and
    below [2^52]: it has one row for each executor with a result; its minimum and
    maximum are the rates of two of that executor's results, with all of its
    rates in between, and none of them is a NaN however short the runs were.
    (Without transactions a run of no measurable duration has the rate 0/0, a
    NaN: [no_transactions_nan].) *)
Theorem summary_rates features args world out world' results :
  main features args world = (out, world', Return results) →
  (∀ m, hash_map_iter m ≡ₚ map_to_list m) →
  (0 < num_transactions args)%nat → (Z.of_nat (num_transactions args) < 2 ^ 52)%Z →
  NoDup ((λ s, s.1.1.1) <$> summaries out) ∧
  (∀ x, x ∈ ((λ s, s.1.1.1) <$> summaries out) ↔ x ∈ (executor_name <$> results)) ∧
  ∀ x avg lo hi, (x, avg, lo, hi) ∈ summaries out →
    let rates := throughput_tps <$> filter (λ r, executor_name r = x) results in
    lo ∈ rates ∧ hi ∈ rates ∧
    Forall (λ rate, F64.is_nan rate = false ∧ SpecFloat.SFleb lo rate = true ∧
                    SpecFloat.SFleb rate hi = true) rates.
Proof.
  intros (H & _ & Hs)%main_returns Hiter H0 Hn.
  assert (Forall (λ r, F64.is_nan (throughput_tps r) = false) results) as Hnan.
  { apply Forall_forall. intros r [i Hr]%list_elem_of_lookup.
    destruct (Forall2_lookup_r _ _ _ _ _ H Hr) as (p & _ & Hp). by apply (reported_throughput args p r). }
  clear H. rewrite Hs. destruct (decide (results = [])) as [->|Hne]; [cbn|].
  { split_and!; [constructor|done|]. by intros ???? ?%not_elem_of_nil. }
  rewrite summary_lines_summaries by done.
  set (gs := hash_map_iter _). assert (gs ≡ₚ map_to_list (executor_groups results)) as Hgs by apply Hiter.
  assert ((λ s, s.1.1.1) <$> (summary_of <$> gs) = gs.*1) as ->
    by (rewrite <- list_fmap_compose; by apply list_fmap_ext).
  split_and!.
  - rewrite Hgs. apply NoDup_fst_map_to_list.
  - intros x. rewrite Hgs, !list_elem_of_fmap. split.
    + intros ([y g] & -> & [Hg Hgne]%elem_of_map_to_list%executor_groups_Some). destruct g as [|r g]; [done|].
      exists r. assert (r ∈ filter (λ r, executor_name r = y) results) as [<- ?]%list_elem_of_filter; [|done].
      rewrite <- Hg. by left.
    + intros (r & -> & Hr). pose proof (executor_groups_lookup results (executor_name r)) as E.
      destruct (executor_groups results !! executor_name r) as [g|] eqn:Eg.
      * exists (executor_name r, g). split; [done|]. by apply elem_of_map_to_list.
      * cbn in E. assert (r ∈ filter (λ r', executor_name r' = executor_name r) results) as Hr'
          by by apply list_elem_of_filter.
        rewrite <- E in Hr'. by apply not_elem_of_nil in Hr'.
  - intros x avg lo hi ([y g] & [= -> -> -> ->] & Hg)%list_elem_of_fmap. cbn [fst snd].
    rewrite Hgs in Hg. apply elem_of_map_to_list, executor_groups_Some in Hg as [E Hgne].
    rewrite <- E. assert (∀ t, t ∈ (throughput_tps <$> g) → F64.is_nan t = false) as Hg.
    { intros t (r & -> & Hr)%list_elem_of_fmap. rewrite Forall_forall in Hnan. apply Hnan.
      rewrite E in Hr. by apply list_elem_of_filter in Hr as [_ ?]. }
    assert (∃ t, t ∈ (throughput_tps <$> g)) as [t Ht]
      by (destruct g as [|r g]; [done|]; exists (throughput_tps r); by left).
    split_and!; [by apply (F64.fold_min_spec _ t Ht), Hg|by apply (F64.fold_max_spec _ t Ht), Hg|].
    apply Forall_forall. intros t' Ht'. pose proof (Hg t' Ht') as Hn'.
    split_and!; [done|by apply F64.fold_min_spec|by apply F64.fold_max_spec].
Qed.

(** The summary averages Block-STM over its thread counts.  All runs of
    Block-STM are one group, whatever their number of threads, while every
    thread count of FoundationDB is a group of its own. *)
Theorem summary_merges_thread_counts features args world out world' results n :
  main features args world = (out, world', Return results) → n ∈ threads args → NoDup (threads args) →
  length (default [] (executor_groups results !! backend_name args (BlockStmThreads n))) =
    (if feature_block_stm features && (all args || block_stm args)
     then length (threads args) * length (hot_accounts args) else 0) ∧
  length (default [] (executor_groups results !! backend_name args (FdbThreads n))) =
    (if feature_fdb features && (all args || fdb args) then length (hot_accounts args) else 0).
Proof.
  intros [H _]%main_returns Hn Hnd.
  assert (∀ b, length (default [] (executor_groups results !! backend_name args b)) =
    length (filter (λ b', backend_name args b' = backend_name args b) (backends features args)) *
      length (hot_accounts args)) as Hgroup.
  { intros b. rewrite executor_groups_lookup, <- runs_filter.
    induction H as [|p r ps rs Hb _ IH]; [done|]. rewrite !filter_cons.
    destruct (reported_labels _ _ _ Hb) as [-> _]. case_decide; cbn; by rewrite IH. }
  rewrite !Hgroup. unfold backends. rewrite !filter_app, !length_app.
  rewrite !length_filter_option by done. split.
  - rewrite length_filter_threads with (m := length (threads args)), length_filter_threads with (m := 0).
    + destruct (feature_block_stm features && _), (feature_fdb features && _); cbn; lia.
    + apply filter_threads_none. by intros n'.
    + apply filter_threads_all. by intros n'.
  - rewrite length_filter_threads with (m := 0), length_filter_threads with (m := 1).
    + destruct (feature_fdb features && _), (feature_block_stm features && _); cbn; lia.
    + apply (filter_threads_one _ _ _ n); [|done..]. intros n'. rewrite backend_name_eq. naive_solver.
    + apply filter_threads_none. by intros n'.
Qed.
End Runner.

(** ** Witnesses *)

(** Three accounts, four transactions in blocks of three; Block-STM and
    FoundationDB with one and two threads, each counting all transactions as
    successful after a millisecond. *)
Definition small_args : Args := mkArgs 3 4 3 [2; 3] [1; 2] false false false false false true false.
Definition full : Features := mkFeatures true true true.

Definition run_all (b : Backend) (v : bool) (w : Wl.Workload) (world : nat)
    : nat * outcome (Exec.ExecutionResult * F64.Duration) :=
  (world + 1, Return (Exec.mkResult (Z.of_nat (length (Wl.transactions w))) 0,
                      F64.mkDuration 0 (1000000 * (N.of_nat world + 1)))).

Definition small_main : list Line * nat * outcome (list BenchmarkResult) :=
  main run_all map_to_list 5 full small_args 0.

Definition returned {T} (o : outcome T) : bool := match o with Return _ => true | _ => false end.

Lemma small_main_returns : ∃ out world results, small_main = (out, world, Return results).
Proof.
  assert (returned small_main.2 = true) as H by by_compute.
  destruct small_main as [[out world] [results| |]]; [by eexists _, _, _|done..].
Qed.

Lemma main_reports_witness :
  ∃ out world results, small_main = (out, world, Return results) ∧ rows out = results ∧
    Forall (λ r, successful r + failed r = 4)%Z results.
Proof.
  destruct small_main_returns as (out & world & results & H). exists out, world, results.
  split; [exact H|].
  destruct (main_reports run_all map_to_list 5 full small_args 0 out world results H) as (Hrows & _ & Hsum).
  split; [exact Hrows|]. apply Hsum; [done|].
  intros b v w w1 w2 result t Hw [= _ <- _]. cbn. lia.
Defined.

Lemma printed_blocks_floor_witness :
  ∃ w, Wl.generate 5 (workload_config small_args 3) = Return w ∧ Wl.num_blocks w = 2.
Proof.
  assert (returned (Wl.generate 5 (workload_config small_args 3)) = true) as H by by_compute.
  destruct (Wl.generate 5 (workload_config small_args 3)) as [w| |] eqn:E; [|done..].
  exists w. split; [done|].
  apply (printed_blocks_floor 5 small_args 3 w 1); [done|exact E].
Defined.

Lemma summary_merges_thread_counts_witness :
  ∃ out world results, small_main = (out, world, Return results) ∧
    length (default [] (executor_groups results !! backend_name small_args (BlockStmThreads 1))) = 4 ∧
    length (default [] (executor_groups results !! backend_name small_args (FdbThreads 1))) = 2.
Proof.
  destruct small_main_returns as (out & world & results & H). exists out, world, results.
  split; [exact H|].
  apply (summary_merges_thread_counts run_all map_to_list 5 full small_args 0 out world results 1 H); [by left|].
  apply NoDup_cons. split; [|apply NoDup_singleton].
  intros ?%list_elem_of_singleton. lia.
Defined.

Definition some_result (o : outcome (list BenchmarkResult)) : bool :=
  match o with Return (_ :: _) => true | _ => false end.

(** A row of the summary, with its minimum below its maximum. *)
Lemma summary_rates_witness :
  ∃ out world results x avg lo hi, small_main = (out, world, Return results) ∧
    (x, avg, lo, hi) ∈ summaries out ∧ x ∈ (executor_name <$> results) ∧
    F64.is_nan lo = false ∧ SpecFloat.SFleb lo hi = true.
Proof.
  assert (some_result small_main.2 = true) as Hsome by by_compute.
  destruct small_main as [[out world] [[|r results]| |]] eqn:H; try discriminate Hsome.
  destruct (summary_rates run_all map_to_list 5 full small_args 0 out world (r :: results) H)
    as (_ & Hnames & Hrates); [done|cbn; lia|cbn; lia|].
  assert (executor_name r ∈ ((λ s, s.1.1.1) <$> summaries out)) as Hx by (apply Hnames; by left).
  apply list_elem_of_fmap in Hx as ([[[x avg] lo] hi] & Ex & Hin). cbn in Ex. subst x.
  exists out, world, (r :: results), (executor_name r), avg, lo, hi. split; [done|]. split; [exact Hin|].
  split; [by left|]. destruct (Hrates _ _ _ _ Hin) as (Hlo & Hhi & Hall). rewrite Forall_forall in Hall.
  split; [by apply Hall|]. by apply Hall.
Defined.
End Runner.
