(* ===== verification/Simulate.v ===== *)
(** * One execution, computed

    Functions that pick one execution of the transition systems: the workers of
    Block-STM, and the FoundationDB threads on the database in memory, in rounds
    in which every thread takes a step if it can.  What they return is an
    execution of the model, so that examples can be evaluated. *)

From stdpp Require Import base option list gmap relations.
From Stdlib Require Import ZArith Lia Strings.Byte.
From S2P Require Import Prelude Integers Externals Types MVHashMap Scheduler ParallelExecutor.
From S2P Require Import Workload Executor Workers BlockStm Fdb FdbSpec.

Module Simulate.

(** ** Rounds of a deterministic choice *)

Section Rounds.
Context {State : Type} (move : State → nat → State) (stop : State → bool) (num_threads : nat).

Fixpoint rounds (fuel : nat) (st : State) : State :=
  match fuel with
  | O => st
  | S fuel => if stop st then st else rounds fuel (foldl move st (seq 0 num_threads))
  end.

Lemma rounds_steps (R : State → State → Prop) :
  (∀ st t, rtc R st (move st t)) → ∀ fuel st, rtc R st (rounds fuel st).
Proof.
  intros Hmove. induction fuel as [|fuel IH]; intros st; [done|]. cbn.
  destruct (stop st); [done|]. etransitivity; [|apply IH].
  generalize (seq 0 num_threads) as ts. intros ts. revert st.
  induction ts as [|t ts IHt]; intros st; [done|]. cbn. etransitivity; [apply Hmove|apply IHt].
Qed.
End Rounds.

(** ** Block-STM *)

Section WorkerRounds.
Context {A : Alloy} {K : Keys A} {D : DashMapImpl Address} {C : CacheDBLib A}.

Definition exited (st : Workers.State) : bool :=
  forallb (λ pt, match pt with Workers.Exited => true | _ => false end) (Workers.threads st).

Definition block_stm_state (fuel : nat) (self : BlockStm.BlockStmExecutor) (w : Wl.Workload) : Workers.State :=
  rounds (λ st t, default st (Workers.step_of (BlockStm.config self w) (BlockStm.block_stm_txs w) st t))
    exited (BlockStm.num_threads self) fuel
    (Workers.init (BlockStm.config self w) (BlockStm.block_stm_txs w)).

Definition block_stm (fuel : nat) (self : BlockStm.BlockStmExecutor) (w : Wl.Workload)
    : outcome (CacheDB * Exec.ExecutionResult) :=
  let st := block_stm_state fuel self w in
  if exited st then Return (BlockStm.execute st) else Timeout.

Lemma block_stm_executes fuel self db w r :
  block_stm fuel self w = Return r → Exec.executes self db w r.
Proof.
  unfold block_stm. destruct (exited _) eqn:E; [|done]. intros [= <-].
  exists (block_stm_state fuel self w). split; [|done]. split.
  - apply rounds_steps. intros st t. destruct (Workers.step_of _ _ st t) as [st'|] eqn:Es; [|done].
    apply rtc_once. by exists t.
  - apply Forall_forall. intros pt Hpt%list_elem_of_In.
    apply (proj1 (forallb_forall _ _) E) in Hpt. by destruct pt.
Qed.
End WorkerRounds.

(** ** FoundationDB in memory *)

Section Threads.
Context {A : Alloy} {K : Keys A} (unknown : bool).
#[local] Instance memory : Fdb.FdbLib := Fdb.fdb_memory unknown.
Abbreviation Contents := (gmap (list byte) (list byte)).

Definition contents (d : Contents) : Fdb.Database := d.

(** A thread checks its next transaction, or commits one attempt of it. *)
Definition fdb_move (self : Fdb.FdbParallelExecutor) (st : Fdb.State) (t : nat) : Fdb.State :=
  match Fdb.threads st !! t with
  | Some (Fdb.mkThread (tx :: txs) s f false) =>
      if Fdb.signature_invalid (Fdb.verify_signatures self) tx
      then Fdb.mkState (Fdb.db st) (<[t := Fdb.mkThread txs s (f + 1) false]> (Fdb.threads st))
      else
        match Fdb.transfer_body tx (Fdb.db st) with
        | Return (inr ok, d) =>
            Fdb.mkState (contents d) (<[t := Fdb.after_attempt tx txs s f (Fdb.Committed ok)]> (Fdb.threads st))
        | _ => st
        end
  | _ => st
  end.

Lemma fdb_move_steps self st t : rtc (Fdb.step self) st (fdb_move self st t).
Proof.
  unfold fdb_move. destruct (Fdb.threads st !! t) as [[[|tx txs] s f []]|] eqn:Ht; try done.
  destruct (Fdb.signature_invalid _ tx) eqn:Hsig.
  - apply rtc_once. eapply Fdb.step_thread; [exact Ht| |done]. by apply Fdb.step_invalid.
  - destruct (Fdb.transfer_body tx _) as [[[e|ok] d]| |] eqn:Hb; try done.
    apply rtc_once. eapply Fdb.step_thread; [exact Ht| |done]. by apply Fdb.step_attempt.
Qed.

Definition done (st : Fdb.State) : bool :=
  forallb (λ th, match Fdb.todo th, Fdb.panicked th with [], false => true | _, _ => false end)
    (Fdb.threads st).

Lemma done_finished st : done st = true → Fdb.finished st.
Proof.
  intros H. apply Forall_forall. intros th Hth%list_elem_of_In.
  apply (proj1 (forallb_forall _ _) H) in Hth. by destruct (Fdb.todo th), (Fdb.panicked th).
Qed.

Definition clear (d : Contents) : Contents := FdbSpec.contents_after (Fdb.clear_database_body d).

Definition init_batches (batches : list (list (Address * U256))) (d : Contents) : Contents :=
  foldl (λ d batch, FdbSpec.contents_after (Fdb.init_batch_body batch d)) d batches.

Definition fdb (fuel : nat) (self : Fdb.FdbParallelExecutor) (d : Contents) (w : Wl.Workload)
    : outcome (Fdb.ParallelExecutionResult * Contents) :=
  batches ← chunks Fdb.BATCH_SIZE (Fdb.funded w);
  let start := Fdb.start self (contents (init_batches batches (clear d))) w in
  let st := rounds (fdb_move self) done (length (Fdb.threads start)) fuel start in
  if done st then Return (Fdb.collect st, Fdb.db st) else Timeout.

Lemma init_batch_returns (batch : list (Address * U256)) (d : Contents) :
  Fdb.init_batch_body batch d =
  Return (inr tt, FdbSpec.contents_after (Fdb.init_batch_body batch d)).
Proof. revert d. induction batch as [|[a b] batch IH]; intros d; [done|]. cbn. apply IH. Qed.

Lemma init_batches_ok (batches : list (list (Address * U256))) (d : Contents) : Fdb.init_batches batches d (init_batches batches d).
Proof.
  revert d. induction batches as [|batch batches IH]; intros d; [constructor|].
  eapply Fdb.init_batch; [|apply IH]. apply Fdb.run_committed, init_batch_returns.
Qed.

Lemma fdb_executes (fuel : nat) (self : Fdb.FdbParallelExecutor) (d : Contents) (w : Wl.Workload) r d' :
  fdb fuel self d w = Return (r, d') → Fdb.execute_workload self d w r d'.
Proof.
  unfold fdb. intros (batches & Hb & H)%outcome_bind_Return. cbn zeta in H.
  set (st := rounds _ _ _ _ _) in H. destruct (done st) eqn:E; [|done]. injection H as <- <-.
  eexists (clear d), (init_batches batches (clear d)), st. split_and!; [| | |by apply done_finished|done..].
  - by apply Fdb.run_committed.
  - exists batches. split; [done|apply init_batches_ok].
  - apply rounds_steps. apply fdb_move_steps.
Qed.
End Threads.
End Simulate.
