(* ===== verification/RunnerSpec.v ===== *)
(** * What the benchmark reports, with the executors plugged in

    [ran] says which results each executor may return in [main]: it makes the
    executor (on a new directory for MDBX, over whatever FoundationDB holds) and
    executes the generated workload.  The composed theorem is about every row the
    program prints. *)

From Stdlib Require Import String.
From stdpp Require Import base option list gmap relations.
From Stdlib Require Import ZArith Lia.
From S2P Require Import Prelude Integers Externals Types MVHashMap Scheduler ParallelExecutor.
From S2P Require Import Workload WorkloadSpec Executor Sequential Store StoreSpec StoreExecutor.
From S2P Require Import Mdbx MdbxSpec MdbxBatched MdbxCreate Fdb FdbSpec.
From S2P Require Import Workers WorkersInv BlockStm EndToEnd SequentialSpec F64 Runner Simulate.

Module RunnerSpec.
Import Runner StoreExec EndToEnd.

(** ** Without threads *)

Section Zero.
Context {A : Alloy} {K : Keys A} {D : DashMapImpl Address}.

(** [--threads 0]: Block-STM spawns no worker, executes nothing and reports
    neither a success nor a failure, whatever the workload. *)
Lemma block_stm_zero_threads self w st :
  BlockStm.num_threads self = 0 → BlockStm.joined self w st →
  BlockStm.exec_result (Workers.block_result st) = Exec.mkResult 0 0.
Proof.
  intros H0 [Hr _]. assert (st = Workers.init (BlockStm.config self w) (BlockStm.block_stm_txs w)) as ->.
  { apply rtc_inv in Hr as [|(st' & [t Hs] & _)]; [done|].
    unfold Workers.step_of in Hs. cbn in Hs. by rewrite H0 in Hs. }
  done.
Qed.
End Zero.

(** ** All executors *)

Section Ran.
Context {A : Alloy} {AL : AlloyLaws A} {K : Keys A} {R : Rand} {KL : KeysLaws A K} {RL : RandLaws R}.
Context {D : DashMapImpl Address} {DL : DashMapLaws D}.
Context {C : CacheDBLib A} {CL : CacheDBLaws A C} {V : Sequential.Revm}.
Context (ordinary : Address → Prop) {VL : SeqSpec.RevmLaws V ordinary}.
Context {L : Mdbx.MdbxLib} {LL : Mdbx.MdbxLaws L} {F : Create.MdbxFiles L} {FL : Create.MdbxFilesLaws F}.
Context {FD : Fdb.FdbLib} {FDL : Fdb.FdbLaws FD}.
Context (iter : gmap Address Mdbx.Account → list (Address * Mdbx.Account)).
Context (iter_perm : ∀ m, iter m ≡ₚ map_to_list m).

(** The results a backend may report for a workload. *)
Inductive ran (v : bool) (w : Wl.Workload) : Backend → Exec.ExecutionResult → Prop :=
  | ran_in_memory db r :
      Exec.executes (Sequential.with_verification v) (Wl.create_db w) w (db, r) →
      ran v w InMemory r
  | ran_mdbx fs path self env env' r :
      Create.fresh fs path → Create.sequential_new fs path v = inr (self, env) →
      Mdbx.execute_workload self w env = (inr (r, tt), env') →
      ran v w MdbxOneByOne r
  | ran_batched fs path self env env' br :
      Create.fresh fs path → Create.batched_new fs path v = inr (self, env) →
      Batched.execute_workload iter self w env = (inr (br, tt), env') →
      ran v w MdbxBlocks (Batched.to_execution_result br)
  | ran_block_stm n db r :
      Exec.executes (BlockStm.new n v) (Wl.create_db w) w (db, r) →
      ran v w (BlockStmThreads n) r
  | ran_fdb n d l d' pr :
      FdbSpec.repr d l → Fdb.execute_workload (Fdb.new n v) d w pr d' →
      ran v w (FdbThreads n) (Fdb.to_execution_result pr).

Context (hash_inj : Inj (=) (=) Mdbx.hashed_address).
Context {World : Type}.
Context (run : Backend → bool → Wl.Workload → World → World * outcome (Exec.ExecutionResult * F64.Duration)).
Context (hash_map_iter : gmap string (list BenchmarkResult) → list (string * list BenchmarkResult)).
Context (fuel : nat).

(** A backend that has workers executes a generated workload completely. *)
Lemma ran_all config w v b r :
  Wl.generate fuel config = Return w → Wl.chain_id config = 1%Z →
  ((1 + SeqSpec.transfer_gas) * Z.of_nat (Wl.num_transactions config) ≤ 10 ^ 21)%Z →
  NoDup (Wl.addresses w) → Forall ordinary (Wl.addresses w) →
  (∀ n, b = BlockStmThreads n → 0 < n) → ran v w b r →
  r = Exec.mkResult (Z.of_nat (Wl.num_transactions config)) 0.
Proof.
  intros Hg Hc Hgas Hnd Hord Hb H.
  assert (Z.of_nat (Wl.num_transactions config) < u64_modulus)%Z as Hn
    by (unfold SeqSpec.transfer_gas, u64_modulus in *; lia).
  pose proof (generate_generated _ _ _ Hg Hn Hnd) as Hw. revert Hgas.
  destruct (WlSpec.generate_sequenced _ _ _ Hg Hn) as (_ & Hlen & _). rewrite <- Hlen. intros Hgas.
  destruct H as [db r H|fs path self env env' r Hf Hnew H|fs path self env env' br Hf Hnew H|n db r H|n d l d' pr Hl H].
  - rewrite Hlen in *. cbn in H.
    destruct (SeqSpec.in_memory_generated ordinary fuel config w (Sequential.with_verification v)
      Hg Hc Hgas Hnd Hord) as (db' & E & _).
    rewrite H in E. by simplify_eq.
  - destruct (Create.sequential_new_repr _ _ _ _ _ Hf Hnew) as [-> Hr].
    apply (returns_applies (S := mdbx_store_executor hash_inj) _ _ _ _ _ _ I Hw Hr H).
  - destruct (Create.batched_new_repr _ _ _ _ _ Hf Hnew) as [-> Hr].
    apply (returns_applies (S := batched_store_executor hash_inj iter iter_perm)
      (Batched.mkBatched v) env ∅ w env' _ I Hw Hr). by exists br.
  - rewrite (WlSpec.generate_length _ _ _ Hg).
    by apply (block_stm_all_counted _ _ _ (BlockStm.new n v) _ _ _ Hg Hn (Hb n eq_refl) H).
  - apply (returns_applies (S := fdb_store_executor hash_inj) (Fdb.new n v) d l w d' _); [|done|done|by exists pr].
    cbn. lia.
Qed.
(** Thread counts come from the arguments. *)
Lemma runs_threads features args n hot :
  (BlockStmThreads n, hot) ∈ runs features args → n ∈ threads args.
Proof.
  unfold runs, backends. intros (b & (hot' & [= <- <-]%list_elem_of_singleton & _)%list_elem_of_bind & Hb)
    %list_elem_of_bind.
  repeat (apply elem_of_app in Hb as [Hb|Hb]); case_match; try by apply not_elem_of_nil in Hb.
  all: try by apply list_elem_of_singleton in Hb.
  all: apply list_elem_of_fmap in Hb as (n' & [= <-] & Hn); exact Hn.
Qed.

End Ran.

(** ** Whether it finishes *)

Section Completes.
Context {A : Alloy} {AL : AlloyLaws A} {K : Keys A} {R : Rand} {KL : KeysLaws A K} {RL : RandLaws R}.
Context {World : Type}.
Context (run : Backend → bool → Wl.Workload → World → World * outcome (Exec.ExecutionResult * F64.Duration)).
Context (hash_map_iter : gmap string (list BenchmarkResult) → list (string * list BenchmarkResult)).
Implicit Types (args : Args) (hot : nat).

(** Fuel for the workloads of all numbers of hot accounts. *)
Lemma enough_fuel args (hots : list nat) :
  (∀ hot, ∃ fuel w, ∀ fuel', fuel ≤ fuel' → Wl.generate fuel' (workload_config args hot) = Return w) →
  ∃ fuel, ∀ fuel', fuel ≤ fuel' →
    Forall (λ hot, ∃ w, Wl.generate fuel' (workload_config args hot) = Return w) hots.
Proof.
  intros Hg. induction hots as [|hot hots (f1 & IH)]; [by exists 0|].
  destruct (Hg hot) as (f2 & w & Hw). exists (f1 + f2). intros fuel' Hf. constructor.
  - exists w. apply Hw. lia.
  - apply IH. lia.
Qed.

Context (run_returns : ∀ b v w world, ∃ world' r, run b v w world = (world', Return r)).

Lemma timed_completes b v w : completes (timed run b v w).
Proof.
  intros world. destruct (run_returns b v w world) as (world' & r & E).
  exists [], world', r. unfold timed. by rewrite E.
Qed.

Lemma table_completes fuel args b :
  Forall (λ hot, ∃ w, Wl.generate fuel (workload_config args hot) = Return w) (hot_accounts args) →
  completes (table run fuel args b).
Proof.
  intros Hg. unfold table. repeat (apply completes_bind; [apply completes_print|intros _]).
  apply completes_bind.
  - apply completes_for_each. eapply Forall_impl; [exact Hg|]. intros hot [w Hw]. unfold benchmark.
    apply completes_bind; [by eapply completes_lift|]. intros w'.
    apply completes_bind; [apply timed_completes|]. intros [result elapsed].
    apply completes_bind; [apply completes_print|]. intros _. apply completes_ret.
  - intros rs. apply completes_bind; [apply completes_print|]. intros _. apply completes_ret.
Qed.

Lemma section_completes fuel c args title b :
  Forall (λ hot, ∃ w, Wl.generate fuel (workload_config args hot) = Return w) (hot_accounts args) →
  completes (section run fuel c args title b).
Proof.
  intros Hg. unfold section. destruct c; [|apply completes_ret].
  apply completes_bind; [apply completes_print|]. intros _. by apply table_completes.
Qed.

Lemma threads_section_completes fuel c args title backend :
  Forall (λ hot, ∃ w, Wl.generate fuel (workload_config args hot) = Return w) (hot_accounts args) →
  completes (threads_section run fuel c args title backend).
Proof.
  intros Hg. unfold threads_section. destruct c; [|apply completes_ret].
  apply completes_bind; [apply completes_print|]. intros _. apply completes_bind.
  - apply completes_for_each, Forall_forall. intros n _.
    apply completes_bind; [apply completes_print|]. intros _. by apply table_completes.
  - intros rss. apply completes_ret.
Qed.

(** C32: [main] completes.  If every executor returns, there are at least two
    accounts whose keys can be derived and the block size is not zero, then [main]
    returns with one result for each run, for any amount of fuel from some amount
    on; with a block size of zero it panics after printing its banner. *)
Theorem main_completes features args :
  (transactions_per_block args = 0 →
   ∀ fuel world, main run hash_map_iter fuel features args world = (banner, world, Panic)) ∧
  (transactions_per_block args ≠ 0 → 2 ≤ num_accounts args →
   (∀ i, i < num_accounts args →
     is_Some (signing_key_from_bytes (fill_32 (seed_from_u64 (u64_add 42 (Z.of_nat i)))).1)) →
   ∃ fuel, ∀ fuel' world, fuel ≤ fuel' → ∃ out world' results,
     main run hash_map_iter fuel' features args world = (out, world', Return results) ∧
     length results = length (runs features args)).
Proof.
  split.
  - intros H0 fuel world. unfold main, num_blocks. by rewrite H0.
  - intros H0 Hn Hkeys. destruct (enough_fuel args (hot_accounts args)) as [fuel Hfuel].
    { intros hot. by apply WlSpec.generate_total. }
    exists fuel. intros fuel' world Hf. specialize (Hfuel fuel' Hf).
    assert (completes (main run hash_map_iter fuel' features args)) as Hc.
    { unfold main. apply completes_bind; [apply completes_print|]. intros _.
      apply completes_bind.
      { apply (completes_lift _ (num_transactions args / transactions_per_block args)).
        unfold num_blocks. by rewrite (proj2 (Nat.eqb_neq _ _) H0). }
      intros k. apply completes_bind; [apply completes_print|]. intros _.
      do 3 (apply completes_bind; [by apply section_completes|]; intros ?).
      do 2 (apply completes_bind; [by apply threads_section_completes|]; intros ?).
      do 2 (apply completes_bind; [apply completes_print|]; intros _). apply completes_ret. }
    destruct (Hc world) as (out & world' & results & E). exists out, world', results. split; [done|].
    apply main_returns in E as (H & _). by apply Forall2_length in H.
Qed.
End Completes.

(** ** Witness

    All executors, Block-STM and FoundationDB with one and with two threads, on
    three accounts and four transactions: databases in memory (FoundationDB's may
    leave commits unknown), the machine of [SequentialSpec], and the threads in
    the rounds of [Simulate]. *)
Import SeqSpec.

Definition all_features : Features := mkFeatures true true true.
Definition all_args : Args := mkArgs 3 4 3 [2; 3] [1; 2] false false false false false true false.

Definition a_second : F64.Duration := F64.mkDuration 1 0.

(** The steps a worker may need, more than enough. *)
Definition steps : nat := 400.

Definition run_memory (b : Backend) (v : bool) (w : Wl.Workload) (world : unit)
    : unit * outcome (Exec.ExecutionResult * F64.Duration) :=
  (tt,
   match b with
   | InMemory =>
       Return ((Sequential.execute (Sequential.with_verification v) (Wl.create_db w) w).2, a_second)
   | MdbxOneByOne =>
       match Create.sequential_new (F := Create.disk_files) tt tt v with
       | inl _ => Panic
       | inr (self, env) =>
           match (Mdbx.execute_workload (L := Create.disk_env) self w env).1 with
           | inl _ => Panic
           | inr (r, _) => Return (r, a_second)
           end
       end
   | MdbxBlocks =>
       match Create.batched_new (F := Create.disk_files) tt tt v with
       | inl _ => Panic
       | inr (self, env) =>
           match (Batched.execute_workload (L := Create.disk_env) Batched.iter_list self w env).1 with
           | inl _ => Panic
           | inr (br, _) => Return (Batched.to_execution_result br, a_second)
           end
       end
   | BlockStmThreads n =>
       r ← Simulate.block_stm steps (BlockStm.new n v) w;
       Return (r.2, a_second)
   | FdbThreads n =>
       r ← Simulate.fdb true steps (Fdb.new n v) ∅ w;
       Return (Fdb.to_execution_result r.1, a_second)
   end).

Abbreviation ran_memory :=
  (ran (F := Create.disk_files) (FL := Create.disk_files_laws) (FD := Fdb.fdb_memory true) Batched.iter_list).

Lemma run_memory_ran b v w w1 w2 r t :
  run_memory b v w w1 = (w2, Return (r, t)) → ran_memory v w b r.
Proof.
  unfold run_memory. intros H. apply (f_equal snd) in H. cbn [snd] in H. destruct b.
  - destruct (Sequential.execute _ _ _) as [db r'] eqn:E. injection H as <- _. by apply (ran_in_memory _ _ _ db).
  - destruct (Create.sequential_new _ _ _) as [e|[self env]] eqn:E; [discriminate H|].
    destruct (Mdbx.execute_workload _ _ _) as [[e|[r' []]] env'] eqn:E'; [discriminate H|].
    injection H as <- _. by apply (ran_mdbx (F := Create.disk_files) (FL := Create.disk_files_laws)
      _ _ _ tt tt self env env').
  - destruct (Create.batched_new _ _ _) as [e|[self env]] eqn:E; [discriminate H|].
    destruct (Batched.execute_workload _ _ _ _) as [[e|[r' []]] env'] eqn:E'; [discriminate H|].
    injection H as <- _. by apply (ran_batched (F := Create.disk_files) (FL := Create.disk_files_laws)
      _ _ _ tt tt self env env').
  - apply outcome_bind_Return in H as ([db r'] & H & [= <- _]). cbn [snd].
    apply (ran_block_stm _ _ _ num_threads db). by eapply Simulate.block_stm_executes.
  - apply outcome_bind_Return in H as ([pr d'] & H & [= <- _]). cbn [fst].
    apply (ran_fdb (FD := Fdb.fdb_memory true) _ _ _ num_threads ∅ ∅ d' pr).
    + apply FdbSpec.repr_nothing.
    + by eapply Simulate.fdb_executes.
Qed.

Definition memory_main : list Line * unit * outcome (list BenchmarkResult) :=
  main run_memory map_to_list 5 all_features all_args tt.

Definition distinct (o : outcome (list Wl.Account)) : bool :=
  match o with
  | Return l => bool_decide (NoDup (Wl.acc_address <$> l)) &&
      bool_decide (Forall not_beneficiary (Wl.acc_address <$> l))
  | _ => false
  end.

Lemma small_addresses_distinct hot w :
  Wl.generate 5 (workload_config all_args hot) = Return w →
  NoDup (Wl.addresses w) ∧ Forall not_beneficiary (Wl.addresses w).
Proof.
  intros (hot' & _ & Ha & _)%WlSpec.generate_inv.
  assert (distinct (try_map (λ i, Wl.from_seed (u64_add 42 (Z.of_nat i))) (seq 0 3)) = true) as H by by_compute.
  change (try_map (λ i, Wl.from_seed (u64_add 42 (Z.of_nat i))) (seq 0 3) = Return (Wl.accounts w)) in Ha.
  rewrite Ha in H. by apply andb_true_iff in H as [H1%bool_decide_eq_true H2%bool_decide_eq_true].
Qed.


(** Seven executors, each on two workloads. *)
Lemma main_completes_witness :
  ∃ fuel, ∀ fuel' world, fuel ≤ fuel' → ∃ out world' results,
    main run_all map_to_list fuel' full Runner.small_args world = (out, world', Return results) ∧
    length results = 14.
Proof.
  assert (∀ b v w world, ∃ world' r, run_all b v w world = (world', Return r)) as Hrun
    by (intros; by eexists _, _).
  apply (proj2 (main_completes run_all map_to_list Hrun full Runner.small_args)).
  - done.
  - cbn. lia.
  - intros i _. by eexists.
Defined.
End RunnerSpec.
