(* ===== verification/Tests.v ===== *)
(** * The repository's unit tests

    The [#[cfg(test)]] modules of both crates as computations that return or
    panic, and whether they pass: for every lawful instance of the libraries, and
    for every schedule and failure on which the tested call returns.  One of them
    fails. *)

From Stdlib Require Import String.
From stdpp Require Import base option list gmap relations.
From Stdlib Require Import ZArith Lia Strings.Byte.
From S2P Require Import Prelude Integers Externals Types MVHashMap Scheduler ParallelExecutor.
From S2P Require Import Workload WorkloadSpec Executor Sequential Store StoreSpec StoreExecutor SequentialSpec.
From S2P Require Import Mdbx MdbxSpec MdbxBatched MdbxCreate Fdb FdbSpec.
From S2P Require Import Workers WorkersInv WorkersCount BlockStm EndToEnd.

Module Tests.

(** [assert!] *)
Definition assert (b : bool) : outcome unit := if b then Return tt else Panic.

(** [unwrap] on a [Result]. *)
Definition unwrap {E T} (r : E + T) : outcome T :=
  match r with inr x => Return x | inl _ => Panic end.

(** A [for] loop of assertions. *)
Fixpoint for_all {T} (body : T → outcome unit) (l : list T) : outcome unit :=
  match l with [] => Return tt | x :: l => body x;; for_all body l end.

Lemma for_all_Return {T} (body : T → outcome unit) l :
  for_all body l = Return tt ↔ Forall (λ x, body x = Return tt) l.
Proof.
  induction l as [|x l IH]; cbn; [split; [constructor|done]|]. rewrite Forall_cons, <- IH.
  destruct (body x) as [[]| |]; cbn; naive_solver.
Qed.

Lemma assert_true b : b = true → assert b = Return tt.
Proof. by intros ->. Qed.

(** ** scheduler.rs *)

(** The task a test expects. *)
Definition expect_execute (idx inc : nat) (task : Sched.Task) : outcome unit :=
  match task with
  | Sched.Execute i n => assert (i =? idx);; assert (n =? inc)
  | _ => Panic
  end.

Definition test_scheduler_basic : outcome unit :=
  let scheduler := Sched.new 3 in
  '(scheduler, task) ← expect (Sched.next_task scheduler);
  expect_execute 0 0 task;;
  '(scheduler, task) ← expect (Sched.next_task scheduler);
  expect_execute 1 0 task.

Definition test_abort_and_reexecute : outcome unit :=
  let scheduler := Sched.new 2 in
  '(scheduler, _) ← expect (Sched.next_task scheduler);
  scheduler ← expect (Sched.finish_execution scheduler 0 0 []);
  '(scheduler, _) ← expect (Sched.next_task scheduler);
  scheduler ← expect (Sched.finish_execution scheduler 1 0 [0]);
  '(scheduler, task) ← expect (Sched.next_task scheduler);
  expect_execute 0 1 task.

Lemma test_scheduler_basic_passes : test_scheduler_basic = Return tt.
Proof. reflexivity. Qed.

(** A transaction that finishes at the commit position is committed at once. *)
Lemma finish_commits self idx inc self' :
  Sched.sched_wf self → Sched.commit_lock self = None → idx < Sched.num_txns self →
  Sched.committed_idx self = idx → Sched.finish_execution self idx inc [] = Some self' →
  Sched.get_status self' idx = Some Committed.
Proof.
  intros Hwf Hlock Hidx Hc. unfold Sched.finish_execution.
  rewrite Sched.store_status_Some by (by rewrite (Sched.wf_statuses _ Hwf)). cbn.
  set (self1 := if inc =? 0 then _ else _).
  assert (Sched.sched_wf self1) as Hwf1.
  { pose proof (Sched.wf_set_status self idx (Executed inc) Hwf) as [].
    subst self1. destruct (inc =? 0); by split. }
  assert (Sched.commit_lock self1 = None ∧ Sched.committed_idx self1 = idx ∧
    Sched.statuses self1 !! idx = Some (Executed inc)) as (-> & Hc1 & Hst).
  { subst self1. destruct (inc =? 0); cbn;
      by rewrite list_lookup_insert_eq by by rewrite (Sched.wf_statuses _ Hwf). }
  destruct (Sched.try_commit_spec self1 Hwf1) as (k & (Hle & _ & Hk) & _ & ->). intros [= <-].
  rewrite Hc1 in *. unfold Sched.get_status. cbn. rewrite Sched.commit_range_lookup, Hst. cbn.
  rewrite decide_True; [done|]. split; [done|]. destruct (decide (k = idx)) as [->|]; [|lia].
  by apply Hk in Hst.
Qed.

(** C34: the scheduler's own test of re-execution fails.  It panics, because a
    transaction that finishes at the commit position while the commit lock is
    free is committed at once: aborting it afterwards changes nothing, so the
    re-execution the test waits for is not handed out. *)
Theorem test_abort_and_reexecute_fails :
  test_abort_and_reexecute = Panic ∧
  ∀ self idx inc self',
    Sched.sched_wf self → Sched.commit_lock self = None → idx < Sched.num_txns self →
    Sched.committed_idx self = idx → Sched.finish_execution self idx inc [] = Some self' →
    Sched.abort_transaction self' idx = Some self'.
Proof.
  split; [reflexivity|]. intros self idx inc self' Hwf Hl Hidx Hc H.
  pose proof (finish_commits _ _ _ _ Hwf Hl Hidx Hc H) as Hs. unfold Sched.get_status in Hs.
  unfold Sched.abort_transaction. by rewrite Hs.
Qed.

(** The scheduler of the test after the first [finish_execution]. *)
Lemma test_abort_and_reexecute_fails_witness :
  match '(s, _) ← Sched.next_task (Sched.new 2); Sched.finish_execution s 0 0 [] with
  | Some s => Sched.abort_transaction s 0 = Some s
  | None => False
  end.
Proof.
  destruct ('(s, _) ← Sched.next_task (Sched.new 2); Sched.finish_execution s 0 0 []) as [s|] eqn:E;
    [|discriminate E].
  apply (proj2 test_abort_and_reexecute_fails (Sched.set_statuses [Executing 0; Pending]
    (Sched.set_ready_queue [(1, 0)] (Sched.new 2))) 0 0 s); [|reflexivity|cbn; lia|reflexivity|exact E].
  split; cbn; [done| |lia|done]. intros q ->%list_elem_of_singleton. cbn. lia.
Defined.

(** ** mvhashmap.rs *)

Section MV.
Context {A : Alloy} {D : DashMapImpl Address}.
(** [U256] and the derived [PartialEq] of [AccountState]. *)
Definition u256_eqb (x y : U256) : bool := (u256_val x =? u256_val y)%Z.
Definition state_eqb (s t : AccountState) : bool :=
  (nonce s =? nonce t)%Z && u256_eqb (balance s) (balance t).

#[local] Arguments state_eqb : simpl never.

Lemma u256_eqb_refl x : u256_eqb x x = true.
Proof. apply Z.eqb_refl. Qed.

Lemma state_eqb_refl s : state_eqb s s = true.
Proof. unfold state_eqb. by rewrite Z.eqb_refl, u256_eqb_refl. Qed.

(** [addr] is a random address. *)


Definition test_read_write (addr : Address) : outcome unit :=
  let mv := MV.new in
  assert (match MV.read mv addr 1 with MV.Storage => true | _ => false end);;
  let state0 := AccountState_new 1 (u256_from 100) in
  let mv := (MV.write mv addr 0 0 state0).1 in
  match MV.read mv addr 1 with
  | MV.Versioned version state =>
      assert (txn_idx version =? 0);; assert (state_eqb state state0)
  | _ => Panic
  end.

(** One element, which is [x]. *)
Definition expect_one (x : nat) (l : list nat) : outcome unit :=
  assert (length l =? 1);; y ← expect (l !! 0); assert (y =? x).

Definition test_invalidation (addr : Address) : outcome unit :=
  let mv := MV.new in
  let state0 := AccountState_new 1 (u256_from 100) in
  let mv := (MV.write mv addr 0 0 state0).1 in
  let mv :=
    match MV.read mv addr 2 with
    | MV.Versioned version _ => MV.record_read mv addr 2 version
    | _ => mv
    end in
  let state1 := AccountState_new 2 (u256_from 200) in
  let write_result := (MV.write mv addr 1 0 state1).2 in
  expect_one 2 (MV.invalidated_readers write_result).

Context {DL : DashMapLaws D}.

Lemma range_singleton {V} (e : V) k : range_to_next_back {[0 := e]} (S k) = Some (0, e).
Proof. reflexivity. Qed.

Lemma test_read_write_passes addr : test_read_write addr = Return tt.
Proof.
  unfold test_read_write. rewrite (MV.read_no_version MV.new addr 1) by (intros j _; apply MV.entry_at_new). cbn.
  unfold MV.read, MV.write, MV.write_entry, MV.has_lower_version, MV.new. cbn.
  rewrite !dm_get_new. cbn. rewrite dm_get_insert_eq, range_singleton. cbn. by rewrite state_eqb_refl.
Qed.

Lemma test_invalidation_passes addr : test_invalidation addr = Return tt.
Proof.
  unfold test_invalidation, MV.read, MV.write, MV.write_entry, MV.has_lower_version, MV.new. cbn.
  rewrite !dm_get_new. cbn. rewrite dm_get_insert_eq, range_singleton. cbn.
  unfold MV.record_read. cbn. rewrite dm_get_insert_eq, lookup_singleton_eq. cbn.
  rewrite decide_True by (split; [done|apply not_elem_of_nil]). cbn.
  by rewrite dm_get_insert_eq, insert_singleton_eq, range_singleton.
Qed.
End MV.

(** ** lib.rs *)

Section Lib.
Context {A : Alloy} {K : Keys A} {R : Rand}.
Context (fuel : nat).

Definition address_eqb (a b : Address) : bool := bool_decide (a = b).

Definition test_account_generation : outcome unit :=
  acc1 ← Wl.from_seed 1;
  acc2 ← Wl.from_seed 2;
  assert (negb (address_eqb (Wl.acc_address acc1) (Wl.acc_address acc2)));;
  acc1_copy ← Wl.from_seed 1;
  assert (address_eqb (Wl.acc_address acc1) (Wl.acc_address acc1_copy)).

(** [zero] is [Address::ZERO]. *)
Definition test_signature_verification (zero : Address) : outcome unit :=
  account ← Wl.from_seed 42;
  tx ← Wl.SignedTransaction_new account zero (u256_from 1000) 0 1;
  assert (Wl.verify tx);;
  assert (bool_decide (Wl.recover_signer tx = Some (Wl.acc_address account))).

Definition workload_test_config : Wl.WorkloadConfig := Wl.mkWorkloadConfig 10 20 100 123 1 5.

Definition test_workload_generation : outcome unit :=
  workload ← Wl.generate fuel workload_test_config;
  assert (length (Wl.accounts workload) =? 10);;
  assert (length (Wl.transactions workload) =? 20);;
  assert (length (Wl.blocks workload) =? 4);;
  assert (Wl.num_blocks workload =? 4);;
  for_all (λ block : list Wl.SignedTransaction, assert (length block <=? 5)) (Wl.blocks workload);;
  for_all (λ tx, assert (Wl.verify tx)) (Wl.transactions workload).

(** It relies on the two accounts having different addresses. *)
Lemma test_account_generation_passes acc1 acc2 :
  Wl.from_seed 1 = Return acc1 → Wl.from_seed 2 = Return acc2 →
  test_account_generation =
  if decide (Wl.acc_address acc1 = Wl.acc_address acc2) then Panic else Return tt.
Proof.
  intros H1 H2. unfold test_account_generation, address_eqb. rewrite H1, H2. cbn.
  rewrite (bool_decide_true (Wl.acc_address acc1 = Wl.acc_address acc1)) by done.
  case_decide as E; [by rewrite bool_decide_true|by rewrite bool_decide_false].
Qed.

Context {AL : AlloyLaws A} {KL : KeysLaws A K} {RL : RandLaws R}.

Lemma test_signature_verification_passes zero account :
  Wl.from_seed 42 = Return account → test_signature_verification zero = Return tt.
Proof.
  intros H. unfold test_signature_verification. rewrite H. cbn.
  destruct (WlSpec.SignedTransaction_new_spec account zero (u256_from 1000) 0 1
    (WlSpec.from_seed_ok _ _ H)) as (tx & -> & Hf & _ & _ & _ & _ & Hv).
  cbn. rewrite Hv. cbn. apply assert_true, bool_decide_eq_true.
  unfold Wl.verify in Hv. rewrite <- Hf. destruct (Wl.recover_signer tx); [|done].
  by apply bool_decide_eq_true in Hv as ->.
Qed.

(** The sizes of a generated workload. *)
Lemma generate_sizes config w :
  Wl.generate fuel config = Return w →
  length (Wl.accounts w) = Wl.num_accounts config ∧
  Forall (λ block : list Wl.SignedTransaction, length block ≤ Wl.cfg_transactions_per_block config) (Wl.blocks w) ∧
  length (Wl.blocks w) =
    (Wl.num_transactions config + Wl.cfg_transactions_per_block config - 1) / Wl.cfg_transactions_per_block config.
Proof.
  intros H. destruct (WlSpec.generate_blocks_partition _ _ _ H) as (_ & _ & Hn & Hb). split_and!.
  - apply WlSpec.generate_inv in H as (_ & _ & Ha%try_map_Return & _).
    apply Forall2_length in Ha. by rewrite length_seq in Ha.
  - apply Forall_lookup. intros b block Hbl. by apply (Hb b block).
  - unfold Wl.num_blocks in Hn. by rewrite Hn, (WlSpec.generate_length _ _ _ H).
Qed.

Lemma generate_verified config w :
  Wl.generate fuel config = Return w → (Z.of_nat (Wl.num_transactions config) < u64_modulus)%Z →
  Forall (λ tx, Wl.verify tx = true) (Wl.transactions w).
Proof.
  intros H Hn. destruct (WlSpec.generate_sequenced _ _ _ H Hn) as (_ & _ & Hsq).
  apply (WlSpec.sq_verified _ _ Hsq).
Qed.

Lemma test_workload_generation_passes w :
  Wl.generate fuel workload_test_config = Return w → test_workload_generation = Return tt.
Proof.
  intros H. unfold test_workload_generation. rewrite H.
  destruct (generate_sizes _ _ H) as (Ha & Hb & Hn).
  pose proof (WlSpec.generate_length _ _ _ H) as Ht. unfold Wl.num_blocks.
  cbn [mbind outcome_bind]. rewrite Ha, Ht, Hn. cbn - [for_all].
  rewrite (proj2 (for_all_Return (λ block : list Wl.SignedTransaction, assert (length block <=? 5)) _));
    cbn - [for_all].
  - apply for_all_Return. eapply Forall_impl; [by eapply generate_verified|]. intros tx. apply assert_true.
  - eapply Forall_impl; [exact Hb|]. intros block Hl. by apply assert_true, Nat.leb_le.
Qed.
End Lib.

(** ** The executors *)

Definition expect_result (successful failed : Z) (result : Exec.ExecutionResult) : outcome unit :=
  assert (Exec.successful result =? successful)%Z;; assert (Exec.failed result =? failed)%Z.

Lemma expect_result_Return s f r :
  expect_result s f r = Return tt ↔ r = Exec.mkResult s f.
Proof.
  destruct r as [s' f']. unfold expect_result, assert. cbn. split.
  - destruct (Z.eqb_spec s' s), (Z.eqb_spec f' f); cbn; congruence.
  - intros [= -> ->]. by rewrite !Z.eqb_refl.
Qed.

(** [executor/mod.rs] and [executor/sequential.rs] *)

Definition test_ordering_mode_methods : outcome unit :=
  assert (Exec.is_strict Exec.Strict);; assert (negb (Exec.is_loose Exec.Strict));;
  assert (negb (Exec.is_strict Exec.Loose));; assert (Exec.is_loose Exec.Loose);;
  assert (Exec.is_strict Exec.OrderingMode_default).

Lemma test_ordering_mode_methods_passes : test_ordering_mode_methods = Return tt.
Proof. reflexivity. Qed.

Section Executors.
Context {A : Alloy} {K : Keys A} {R : Rand} {C : CacheDBLib A}.
Context (fuel : nat).
Implicit Types (w : Wl.Workload).

Definition five_config : Wl.WorkloadConfig := Wl.mkWorkloadConfig 10 5 100 42 1 5.

Section Sequential.
Context {V : Sequential.Revm}.

Definition sequential_result (executor : Sequential.SequentialExecutor) : outcome Exec.ExecutionResult :=
  workload ← Wl.generate fuel five_config;
  let db := Wl.create_db workload in
  Return (Sequential.execute executor db workload).2.

Definition test_sequential_executor_with_verification : outcome unit :=
  result ← sequential_result (Sequential.new true Exec.Strict);
  expect_result 5 0 result.

Definition test_sequential_executor_without_verification : outcome unit :=
  result ← sequential_result (Sequential.new false Exec.Loose);
  expect_result 5 0 result.

Definition test_sequential_executor_convenience_constructor : outcome unit :=
  let executor := Sequential.with_verification true in
  result ← sequential_result executor;
  expect_result 5 0 result;;
  assert (Exec.is_strict (Sequential.ordering executor)).

Context {AL : AlloyLaws A} {KL : KeysLaws A K} {RL : RandLaws R} {CL : CacheDBLaws A C}.
Context (ordinary : Address → Prop) {VL : SeqSpec.RevmLaws V ordinary}.

Lemma sequential_result_all self w :
  Wl.generate fuel five_config = Return w → NoDup (Wl.addresses w) → Forall ordinary (Wl.addresses w) →
  sequential_result self = Return (Exec.mkResult 5 0).
Proof.
  intros H Hnd Hord. unfold sequential_result. rewrite H. cbn [outcome_bind mbind].
  destruct (SeqSpec.in_memory_generated ordinary fuel five_config w self H) as (db' & E & _); [done..|].
  change (Return (Sequential.execute self (Wl.create_db w) w).2 = Return (Exec.mkResult 5 0)).
  by rewrite E.
Qed.

(** With distinct ordinary addresses the tests of the executor pass. *)
Lemma test_sequential_executor_passes w :
  Wl.generate fuel five_config = Return w → NoDup (Wl.addresses w) → Forall ordinary (Wl.addresses w) →
  test_sequential_executor_with_verification = Return tt ∧
  test_sequential_executor_without_verification = Return tt ∧
  test_sequential_executor_convenience_constructor = Return tt.
Proof.
  intros H Hnd Hord. unfold test_sequential_executor_with_verification,
    test_sequential_executor_without_verification, test_sequential_executor_convenience_constructor.
  by rewrite !(sequential_result_all _ w H Hnd Hord).
Qed.
End Sequential.

(** ** [executor/mdbx.rs] and [executor/mdbx_batched.rs]

    [fs] and [path] are the temporary directory's. *)

#[local] Arguments Mdbx.get_account : simpl never.
#[local] Arguments Mdbx.set_account : simpl never.
#[local] Arguments Mdbx.execute_workload : simpl never.
#[local] Arguments Batched.execute_workload : simpl never.
#[local] Arguments Create.create : simpl never.
#[local] Arguments Create.sequential_new : simpl never.
#[local] Arguments Create.batched_new : simpl never.

Section Mdbx.
Context {L : Mdbx.MdbxLib} {F : Create.MdbxFiles L}.
Context (iter : gmap Address Mdbx.Account → list (Address * Mdbx.Account)).
Implicit Types (fs : Create.FileSystem) (path : Create.Path) (addr : Address).

(** [addr] is [Address::with_last_byte(42)]. *)
Definition test_mdbx_database_creation fs path addr : outcome unit :=
  db ← unwrap (Create.create fs path);
  let account := Mdbx.mkAccount 1 (u256_from 1000) None in
  let '(set, db) := Mdbx.set_account addr account db in
  unwrap set;;
  let '(got, db) := Mdbx.get_account addr db in
  retrieved ← unwrap got;
  retrieved ← expect retrieved;
  assert (Mdbx.acc_nonce retrieved =? 1)%Z.

Definition test_mdbx_sequential_executor fs path : outcome unit :=
  workload ← Wl.generate fuel five_config;
  '(executor, db) ← unwrap (Create.sequential_new fs path true);
  '(result, _) ← unwrap (Mdbx.execute_workload executor workload db).1;
  expect_result 5 0 result;;
  assert (Mdbx.preserves_order executor);;
  assert (Mdbx.name executor =? "mdbx_sequential")%string.

Definition batched_config : Wl.WorkloadConfig := Wl.mkWorkloadConfig 20 50 100 42 1 10.

Definition test_mdbx_batched_executor fs path : outcome unit :=
  workload ← Wl.generate fuel batched_config;
  '(executor, db) ← unwrap (Create.batched_new fs path true);
  '(result, _) ← unwrap (Batched.execute_workload iter executor workload db).1;
  assert (length (Batched.blocks result) =? 5);;
  assert (Batched.total_successful result =? 50);;
  assert (Batched.total_failed result =? 0);;
  for_all (λ '(i, block),
    assert (Batched.block_number block =? Z.of_nat i)%Z;; assert (Batched.successful block <=? 10))
    (imap pair (Batched.blocks result)).

Definition test_block_cache addr : outcome unit :=
  let cache := Batched.cache_new in
  let account := Mdbx.mkAccount 5 (u256_from 1000) None in
  let cache := Batched.cache_set_account cache addr account in
  retrieved ← expect (Batched.cache_get_account cache addr);
  assert (Mdbx.acc_nonce retrieved =? 5)%Z;;
  assert (u256_eqb (Mdbx.acc_balance retrieved) (u256_from 1000));;
  let cache := Batched.cache_clear cache in
  assert (match Batched.cache_get_account cache addr with None => true | Some _ => false end).

Definition partial_config : Wl.WorkloadConfig := Wl.mkWorkloadConfig 10 25 100 42 1 10.

Definition test_partial_block fs path : outcome unit :=
  workload ← Wl.generate fuel partial_config;
  '(executor, db) ← unwrap (Create.batched_new fs path true);
  '(result, _) ← unwrap (Batched.execute_workload iter executor workload db).1;
  assert (length (Batched.blocks result) =? 3);;
  assert (Batched.total_successful result =? 25).

Lemma test_block_cache_passes addr : test_block_cache addr = Return tt.
Proof.
  unfold test_block_cache, Batched.cache_get_account. cbn. rewrite lookup_insert_eq. cbn.
  by rewrite u256_eqb_refl.
Qed.

Context {AL : AlloyLaws A} {KL : KeysLaws A K} {RL : RandLaws R}.
Context {LL : Mdbx.MdbxLaws L} {FL : Create.MdbxFilesLaws F}.
Context (hash_inj : Inj (=) (=) Mdbx.hashed_address).
Context (iter_perm : ∀ m, iter m ≡ₚ map_to_list m).

(** The tests pass when no library call fails; [unwrap] panics otherwise. *)
Lemma test_mdbx_database_creation_passes fs path addr env env1 env2 o :
  Create.create fs path = inr env →
  Mdbx.set_account addr (Mdbx.mkAccount 1 (u256_from 1000) None) env = (inr tt, env1) →
  Mdbx.get_account addr env1 = (inr o, env2) →
  test_mdbx_database_creation fs path addr = Return tt.
Proof.
  intros Hc Hs Hg. unfold test_mdbx_database_creation. rewrite Hc. cbn. rewrite Hs. cbn. rewrite Hg. cbn.
  apply MdbxSpec.get_account_spec in Hg as [_ ->].
  apply MdbxSpec.write_txn_spec in Hs as (t & t' & Ht & Hp & ->).
  rewrite (Mdbx.rw_put_ok _ _ _ _ Hp), lookup_insert_eq. done.
Qed.

Lemma test_mdbx_sequential_executor_passes fs path w self env result env' :
  Wl.generate fuel five_config = Return w → NoDup (Wl.addresses w) → Create.fresh fs path →
  Create.sequential_new fs path true = inr (self, env) →
  Mdbx.execute_workload self w env = (inr (result, tt), env') →
  test_mdbx_sequential_executor fs path = Return tt.
Proof.
  intros Hg Hnd Hf Hn Hx. unfold test_mdbx_sequential_executor. rewrite Hg. cbn.
  rewrite Hn. cbn. rewrite Hx. cbn.
  destruct (Create.sequential_new_repr _ _ _ _ _ Hf Hn) as [-> Hr].
  pose proof (StoreExec.generate_generated _ _ _ Hg ltac:(done) Hnd) as Hw.
  destruct (StoreExec.returns_applies (S := EndToEnd.mdbx_store_executor hash_inj) _ _ _ _ _ _ I Hw Hr Hx)
    as [-> _]. rewrite (WlSpec.generate_length _ _ _ Hg). done.
Qed.

(** What a batched execution of a generated workload returns. *)
Lemma batched_all config fs path w self env result env' :
  Wl.generate fuel config = Return w → (Z.of_nat (Wl.num_transactions config) < u64_modulus)%Z →
  NoDup (Wl.addresses w) → Create.fresh fs path →
  Create.batched_new fs path true = inr (self, env) →
  Batched.execute_workload iter self w env = (inr (result, tt), env') →
  Batched.total_successful result = Wl.num_transactions config ∧ Batched.total_failed result = 0 ∧
  length (Batched.blocks result) = length (Wl.blocks w) ∧
  Forall (λ p, Batched.block_number p.2 = Z.of_nat p.1 ∧
               Batched.successful p.2 ≤ Wl.cfg_transactions_per_block config)
    (imap pair (Batched.blocks result)).
Proof.
  intros Hg Hn Hnd Hf Hnew Hx.
  destruct (Create.batched_new_repr _ _ _ _ _ Hf Hnew) as [-> Hr].
  pose proof (StoreExec.generate_generated _ _ _ Hg Hn Hnd) as Hw.
  destruct (StoreExec.returns_applies (S := EndToEnd.batched_store_executor hash_inj iter iter_perm)
    (Batched.mkBatched true) env ∅ w env' (Batched.to_execution_result result) I Hw Hr) as [E _];
    [by exists result|].
  unfold Batched.to_execution_result, Exec.ExecutionResult_new in E. injection E as Es Ef.
  destruct (Batched.batched_workload_store iter hash_inj iter_perm _ _ _ _ _ _ Hr Hx)
    as (_ & _ & _ & _ & _ & _ & Hnum & Hall).
  pose proof (Forall2_length _ _ _ Hall) as Hlen.
  destruct (generate_sizes _ _ _ Hg) as (_ & Hb & _). rewrite <- (WlSpec.generate_length _ _ _ Hg).
  split_and!; [lia|lia|done|].
  apply Forall_lookup. intros i [i' block]. rewrite list_lookup_imap.
  destruct (Batched.blocks result !! i) as [b|] eqn:Eb; [|done]. cbn. intros [= <- <-]. split.
  - assert ((Batched.block_number <$> Batched.blocks result) !! i = Some (Batched.block_number b)) as H
      by by rewrite list_lookup_fmap, Eb.
    rewrite Hnum, list_lookup_fmap, lookup_seq_lt in H by (rewrite <- Hlen; by eapply lookup_lt_Some).
    by injection H.
  - destruct (Forall2_lookup_l _ _ _ _ _ Hall Eb) as (blk & Hblk & Hc).
    rewrite Forall_lookup in Hb. specialize (Hb i blk Hblk). lia.
Qed.

Lemma test_mdbx_batched_executor_passes fs path w self env result env' :
  Wl.generate fuel batched_config = Return w → NoDup (Wl.addresses w) → Create.fresh fs path →
  Create.batched_new fs path true = inr (self, env) →
  Batched.execute_workload iter self w env = (inr (result, tt), env') →
  test_mdbx_batched_executor fs path = Return tt.
Proof.
  intros Hg Hnd Hf Hn Hx. unfold test_mdbx_batched_executor. rewrite Hg. cbn.
  rewrite Hn. cbn. rewrite Hx. cbn - [for_all].
  destruct (batched_all _ _ _ _ _ _ _ _ Hg ltac:(done) Hnd Hf Hn Hx) as (-> & -> & -> & Hall).
  destruct (generate_sizes _ _ _ Hg) as (_ & _ & ->). cbn - [for_all].
  apply for_all_Return. eapply Forall_impl; [exact Hall|]. intros [i b] [H1 H2]. cbn in *.
  rewrite H1, Z.eqb_refl. cbn. by apply assert_true, Nat.leb_le.
Qed.

Lemma test_partial_block_passes fs path w self env result env' :
  Wl.generate fuel partial_config = Return w → NoDup (Wl.addresses w) → Create.fresh fs path →
  Create.batched_new fs path true = inr (self, env) →
  Batched.execute_workload iter self w env = (inr (result, tt), env') →
  test_partial_block fs path = Return tt.
Proof.
  intros Hg Hnd Hf Hn Hx. unfold test_partial_block. rewrite Hg. cbn.
  rewrite Hn. cbn. rewrite Hx. cbn.
  destruct (batched_all _ _ _ _ _ _ _ _ Hg ltac:(done) Hnd Hf Hn Hx) as (-> & _ & -> & _).
  by destruct (generate_sizes _ _ _ Hg) as (_ & _ & ->).
Qed.
End Mdbx.

(** ** [executor/block_stm.rs] and [executor/fdb.rs]

    The executions are not determined; a test may come to the outcome of its
    assertions on any result the executor may return. *)

Section Parallel.
Context {D : DashMapImpl Address} {FD : Fdb.FdbLib}.

Definition twenty_config : Wl.WorkloadConfig := Wl.mkWorkloadConfig 10 20 100 42 1 10.

Inductive test_block_stm_executor : outcome unit → Prop :=
  | block_stm_test workload db result :
      Wl.generate fuel twenty_config = Return workload →
      Exec.executes (BlockStm.new 2 false) (Wl.create_db workload) workload (db, result) →
      test_block_stm_executor (expect_result 20 0 result).

Definition fdb_config : Wl.WorkloadConfig := Wl.mkWorkloadConfig 20 50 10 42 1 10.

Definition check_fdb (executor : Fdb.FdbParallelExecutor) (result : Fdb.ParallelExecutionResult)
    : outcome unit :=
  expect_result 50 0 (Fdb.to_execution_result result);;
  assert (negb (Fdb.preserves_order executor));;
  assert (Fdb.name executor =? "fdb_parallel")%string;;
  assert (Fdb.num_threads executor =? 4).

(** [d] is what the cluster holds before. *)
Inductive test_fdb_parallel_executor (d : Fdb.Database) : outcome unit → Prop :=
  | fdb_test workload result d' :
      Wl.generate fuel fdb_config = Return workload →
      Fdb.execute_workload (Fdb.new 4 true) d workload result d' →
      test_fdb_parallel_executor d (check_fdb (Fdb.new 4 true) result).

(** It asserts nothing; [a1] and [a2] are the addresses it funds. *)
Inductive test_clear_database (a1 a2 : Address) (d : Fdb.Database) : Fdb.Database → Prop :=
  | clear_test d1 d2 :
      Fdb.init_accounts [(a1, u256_from 1000); (a2, u256_from 2000)] d d1 →
      Fdb.clear_database d1 d2 →
      test_clear_database a1 a2 d d2.

Context {AL : AlloyLaws A} {KL : KeysLaws A K} {RL : RandLaws R} {DL : DashMapLaws D}.
Context {FDL : Fdb.FdbLaws FD}.

(** Whenever the executor returns. *)
Lemma test_block_stm_executor_passes o : test_block_stm_executor o → o = Return tt.
Proof.
  intros [w db r Hg Hx]. apply expect_result_Return.
  by apply (EndToEnd.block_stm_all_counted _ _ _ (BlockStm.new 2 false) _ _ _ Hg ltac:(done) ltac:(cbn; lia) Hx).
Qed.

Lemma test_fdb_parallel_executor_passes d l o :
  Inj (=) (=) Mdbx.hashed_address → FdbSpec.repr d l →
  (∀ w, Wl.generate fuel fdb_config = Return w → NoDup (Wl.addresses w)) →
  test_fdb_parallel_executor d o → o = Return tt.
Proof.
  intros Hinj Hr Hnd [w result d' Hg Hx]. unfold check_fdb.
  pose proof (StoreExec.generate_generated _ _ _ Hg ltac:(done) (Hnd w Hg)) as Hw.
  destruct (StoreExec.returns_applies (S := EndToEnd.fdb_store_executor Hinj) (Fdb.new 4 true) d l w d'
    (Fdb.to_execution_result result)) as [-> _]; [cbn; lia|done|done|by exists result|].
  rewrite (WlSpec.generate_length _ _ _ Hg). done.
Qed.

(** What [test_clear_database] would find if it looked: an account whose hashed
    address starts with 0xff is still funded. *)
Lemma test_clear_database_leaves (a1 a2 : Address) d l d' :
  Inj (=) (=) Mdbx.hashed_address → FdbSpec.repr d l → a1 ≠ a2 → FdbSpec.shard a1 = Some xff →
  test_clear_database a1 a2 d d' →
  Fdb.db_contents d' !! Fdb.account_key a1 = Some (Fdb.encode_account 0 (u256_from 1000)).
Proof.
  intros Hinj Hr Hne Hs [d1 d2 (batches & Hc & Hb) Hclear].
  pose proof (FdbSpec.init_batches_spec Hinj _ _ _ _ Hr Hb) as [Hrep _].
  assert (List.concat batches = [(a1, u256_from 1000); (a2, u256_from 2000)]) as E.
  { unfold chunks in Hc. cbn in Hc. injection Hc as <-. done. }
  rewrite E in Hrep. rewrite (FdbSpec.runs_clear _ _ Hclear), FdbSpec.account_key_in_range, bool_decide_true by done. cbn [negb].
  rewrite (Hrep a1). cbn. rewrite lookup_insert_ne, lookup_insert_eq by done. done.
Qed.
End Parallel.
End Executors.

(** ** executor.rs of Block-STM: the helpers and the test *)

Section Simple.
Context {A : Alloy} {K : Keys A} {R : Rand} {D : DashMapImpl Address}.

Record TestAccount : Set := mkTestAccount { ta_signing_key : SigningKey; ta_address : Address }.

Definition public_key_to_address (verifying_key : VerifyingKey) : outcome Address :=
  let public_key_bytes := to_encoded_point verifying_key in
  let hash := keccak256 (drop 1 public_key_bytes) in
  expect (address_from_slice (drop 12 (b256_as_slice hash))).

Definition from_seed (seed : Z) : outcome TestAccount :=
  let rng := seed_from_u64 seed in
  let '(key_bytes, _) := fill_32 rng in
  signing_key ← expect (signing_key_from_bytes key_bytes);
  let verifying_key := verifying_key_from signing_key in
  address ← public_key_to_address verifying_key;
  Return (mkTestAccount signing_key address).

(** Unlike a workload's, this hash covers no chain id. *)
Definition compute_tx_hash (from to : Address) (value : U256) (nonce : Z) : B256 :=
  keccak256 (address_as_slice from ++ address_as_slice to ++ u256_to_be_bytes value ++
             u64_to_be_bytes nonce).

Definition sign_tx (self : TestAccount) (to : Address) (value : U256) (nonce : Z)
    : outcome PE.Transaction :=
  let tx_hash := compute_tx_hash (ta_address self) to value nonce in
  '(sig, recovery_id) ← expect (sign_prehash_recoverable (ta_signing_key self) (b256_as_slice tx_hash));
  let signature := from_signature_and_parity sig (is_y_odd recovery_id) in
  Return (PE.mkTransaction (ta_address self) to value nonce signature tx_hash).

Definition simple_config (acc1 acc2 acc3 : TestAccount) : PE.ExecutorConfig :=
  let initial_states :=
    <[ta_address acc3 := AccountState_new 0 (u256_from 1000)]>
    (<[ta_address acc2 := AccountState_new 0 (u256_from 1000)]>
     (<[ta_address acc1 := AccountState_new 0 (u256_from 1000)]> ∅)) in
  PE.mkConfig 2 true initial_states.

(** Every schedule of the two workers on which [execute_block] returns. *)
Inductive test_parallel_execution_simple : outcome unit → Prop :=
  | simple_test acc1 acc2 acc3 tx1 tx2 result :
      from_seed 1 = Return acc1 → from_seed 2 = Return acc2 → from_seed 3 = Return acc3 →
      sign_tx acc1 (ta_address acc2) (u256_from 10) 0 = Return tx1 →
      sign_tx acc2 (ta_address acc3) (u256_from 5) 0 = Return tx2 →
      let executor := PE.new (simple_config acc1 acc2 acc3) in
      Workers.execute_block (PE.config executor) [tx1; tx2] result →
      test_parallel_execution_simple
        (assert (PE.successful result =? 2)%Z;; assert (PE.failed result =? 0)%Z).

Context {KL : KeysLaws A K} {DL : DashMapLaws D}.

Lemma sign_tx_verifies seed acc to value nonce tx :
  from_seed seed = Return acc → sign_tx acc to value nonce = Return tx →
  PE.signature_rejected true tx = false.
Proof.
  unfold from_seed, sign_tx. destruct (fill_32 _) as [bytes rng].
  intros (k & _ & (a & Ha & [= <-])%outcome_bind_Return)%outcome_bind_Return. cbn [ta_signing_key ta_address].
  set (h := compute_tx_hash _ _ _ _). destruct (sign_prehash_recoverable k _) as [[s r]|] eqn:Es; [|done].
  intros [= <-]. unfold PE.signature_rejected, PE.verify_signature, PE.recover_signer. cbn.
  rewrite (recover_signed _ _ _ _ Es). unfold public_key_to_address in Ha.
  destruct (address_from_slice _) as [x|]; [|done]. injection Ha as ->. cbn.
  by rewrite bool_decide_true.
Qed.

Lemma test_parallel_execution_simple_passes o : test_parallel_execution_simple o → o = Return tt.
Proof.
  intros [acc1 acc2 acc3 tx1 tx2 result H1 H2 H3 S1 S2 executor (st & Hr & Hf & ->)].
  cbn [PE.config executor PE.new] in Hr.
  set (cfg := simple_config acc1 acc2 acc3) in *. set (txs := [tx1; tx2]) in *.
  assert (0 < PE.num_threads cfg) as Hk by (cbn; lia).
  assert (WCount.total_rejected cfg txs = 0) as Hrej.
  { unfold WCount.total_rejected, WInv.rejected. cbn - [PE.signature_rejected].
    by rewrite (sign_tx_verifies _ _ _ _ _ _ H1 S1), (sign_tx_verifies _ _ _ _ _ _ H2 S2). }
  pose proof (WCount.finished_done _ _ _ Hr Hk Hf) as Hd.
  pose proof (WCount.finished_fail_count _ _ _ Hr Hk Hf) as Hc. rewrite Hrej in Hc.
  unfold Workers.block_result, Sched.committed_count. cbn - [usize_sub].
  by rewrite Hd, Hc.
Qed.
End Simple.
End Tests.
